(* ===== verification/_CoqProject ===== *)
-Q . S2P
Prelude.v
Errors.v
Layout.v
Atomics.v
Rely.v
ShmBytes.v
Pool.v
Ring.v
Wait.v
Subscription.v
Waiting.v
Loan.v
Publisher.v
Channel.v
PodBus.v
BusProof.v
BusGuarantees.v
BusRobust.v
Registry.v
RegistryProof.v
RingSeq.v
Payload.v
Blocking.v
Ghost.v
Ownership.v
SubscriberProof.v
PublisherProof.v
Delivery.v
Startup.v
Pinned.v
Guarantees.v
Topics.v
Registration.v
MultiPub.v
ChannelProof.v
ChannelOpen.v
Robust.v
Ffi.v
FfiTypes.v
FfiProof.v
CDelivery.v
Mmap.v
Files.v
FilesProof.v
