(* ===== verification/Prelude.v ===== *)
(** * Crossbar: a verification development

    Crossbar (src/src) is a zero-copy publish/subscribe library over shared memory.
    Processes map the same file; there are no servers and no messages between them,
    only atomic accesses to the words of the file. This library models those
    accesses one by one and proves what the protocols built from them guarantee.

    ** The program and the files that model it

    - protocol/config.rs, protocol/layout.rs: [Layout]. The configuration, the
      offsets of every field with the code's wrapping and checked arithmetic, the
      URI hash, the packed pool head, segment names. A [cell] is one field.
    - error.rs: [Errors].
    - protocol/region.rs: [Pool] (Treiber free list, reference counts, recycled
      block, heartbeat) and [Ring] (committing to a topic's ring, pinned commit).
    - wait.rs, platform/notify.rs: [Wait] (wait strategies, wait-until-not, and the
      operating system's wait as a class with an instance per back end).
    - platform/subscription.rs: [Subscription] (streams, samples, typed and pinned
      reads, blocking receive).
    - platform/loan.rs: [Loan] (plain, typed and pinned loans, copies, io::Write).
    - platform/shm.rs: [Publisher] (create, open, validate, register, subscribe,
      loans with the local block cache, publish, drop).
    - platform/pod_bus.rs: [PodBus] (the broadcast ring of plain values, lossy or
      bounded by the slowest subscriber).
    - platform/registry.rs and the discover function of lib.rs: [Registry].
    - platform/channel.rs: [Channel] (two regions, one per direction: opening with a
      deadline, sending, receiving).
    - ffi.rs: [Ffi] (every exported C function over a heap of boxes and the mappings
      that subscribers and channels own; dereferencing a null or dangling pointer, using
      a region after its owner was freed, or a topic index outside the table, is an
      outcome of the model).
    - the files of regions and broadcast rings (shm.rs, pod_bus.rs): [Files] (paths,
      lock files, identities, as programs of system calls).
    - platform/mmap.rs: [Mmap] (the views and section handles of a process, on Unix and
      Windows as two instances of a class, over a kernel that is a parameter).

    How the parts interact: a publisher takes a block from the pool, fills it
    through a loan and commits it to the ring of a topic; a subscriber finds the
    topic in the topic table, scans the ring, takes a reference on a block through a
    seqlock protocol and drops it after reading; blocks return to the pool when the
    last reference goes. The broadcast ring and the registry are separate files with
    their own formats. A channel is a publisher of one region and a subscriber of
    another; the C functions call the Rust ones; creating and opening a region happen
    under the lock of its lock file.

    ** How programs are modelled

    [Atomics] defines [prog], a tree of single atomic accesses (load, store,
    read-modify-write, compare-exchange, clock, futex, sleep) over a type of cells. Every
    operation of the code is one Rocq definition of this type, composed as the code
    composes it; results and errors are values of [result]; a Rust panic is [Panic];
    a loop without a bound has fuel and runs into [Diverge] without it. The same
    definition is
    - executed alone by [run] (Atomics), for the sequential theorems;
    - interleaved with others by [cstep] (Rely), one access at a time, in any order;
    - checked by [safe] (Atomics), where loads return anything, for hostile memory;
    - executed on the bytes of the file by [ShmBytes], which refines the cells.

    ** The theorems

    - [Layout], [ShmBytes]: fields are inside the file and disjoint; programs on
      cells and on bytes behave alike.
    - [Pool], [RingSeq], [Payload], [Topics], [Startup]: sequential specifications;
      the free list refines an abstract stack, the topic table an abstract table;
      receives return the window of the ring in order, a commit extends it and releases
      the block it replaces; create and connect agree, up to the limit on topics that
      only connect checks.
    - [Rely]: a rely-guarantee logic with ghost state, sound for [cstep]. [Waiting]: a
      blocking receive inherits the specification of the receive it repeats.
      [Ghost], [Ownership], [SubscriberProof], [PublisherProof], [Delivery]: the
      invariant of a region with any number of publishers, one per topic, and any
      number of subscribers, and the verification of every access of both, for raw,
      structured and typed messages.
      [Guarantees]: what clients get from it, without ghost state: delivery (also to
      blocking receivers), block safety, and one log per topic whose message number q
      is what every slot closed at q holds. [Pinned]: delivery for a topic's pinned
      block, and what an abandoned loan exposes.
    - [Registration]: any number of publishers registering and subscribers looking up,
      interleaved: the topic table stays consistent, answers agree with it, and a call
      that starts when a URI is in the table never adds it a second time.
      [MultiPub]: two executed schedules of two publishers of one topic, one that gives
      its URI two entries and one that overwrites a sample a subscriber holds.
    - [ChannelProof], [ChannelOpen]: an execution of both endpoints projects to one of
      each region, so delivery holds in both directions; the handshake yields what
      delivery assumes; waiting for the peer ends with the first attempt that succeeds
      or after the timeout, whatever happens to the peer's file in between.
    - [BusProof], [BusGuarantees]: the same for the broadcast ring, with subscribers
      that join and leave: whole values in order, lag accounted for, and no loss for
      the subscribers that a bounded bus tracks. [BusRobust]: memory safety of both
      sides against a hostile process, and the layout of the file.
    - [Blocking]: a blocked receive returns when the publisher is dead, on every back
      end that meets the laws of [Wait] (Linux, Windows, other Unix systems).
    - [RegistryProof]: the registry refines a table of announcements (for strings
      without NUL bytes); layout, the lifetime of an announcement among any others, and
      two interleavings that break it.
    - [Robust]: subscribers and secondary publishers never leave the mapping whatever
      a hostile process writes; three operations that do are exhibited.
    - [FfiTypes]: C programs that follow the rules of the interface (ownership, the order
      of frees, topics of the same publisher), checked statically, never meet undefined
      behaviour and leave no box behind. [FfiProof]:
      C clients are equivalent to the Rust clients of the theorems above. [CDelivery]:
      so delivery over a channel holds between two C programs.
    - [FilesProof]: an invariant of any number of processes that create, open and drop
      regions at system-call granularity, and two schedules that defeat the locks.
    - [Mmap]: every view belongs to exactly one live mapping, and no handle leaks.

    ** Assumptions and bounds

    Release build on a 64-bit little-endian target: [wrap32] and [wrap64] write the
    wrapping out. Accesses are sequentially consistent: memory orderings, fences and
    prefetches are not modelled, so nothing is claimed about reorderings that the
    orderings in the code might allow; non-atomic copies are modelled byte by byte,
    so they can be torn. Clocks, spurious futex returns, the scheduler and the system's
    answers about processes ([os_process], with [ProcessLaws]) come from the environment. Fuel bounds only loops that
    wait for others; the theorems hold for every fuel, and the sequential ones say
    how much is enough. The concurrent theorems on regions assume one publisher per
    topic and that no thread exchanges the pool head after 2^32 other exchanges
    since it read it (the generation counter has 32 bits); sequence numbers below
    2^63, bus sequence numbers below 2^61. A back end's wait on a word that keeps its
    value takes 1 to 20 ms, so 51 rounds of the inner loop cover the longest poll, 50 ms.

    In [Ffi] addresses are reused after a free; a panic that crosses the C boundary is
    [Panic]. In [Files] any call may fail, inode numbers are reused when no name and no
    descriptor holds them, and whether converting a lock is atomic is a parameter of
    the theorems. The contents of a mapping and the life of its file are separate
    models: the first starts from the mapping that the second provides.

    ** Not modelled

    Symbolic links and permissions; Debug and Display output; the examples, benches,
    tests and bindings, which are clients of the library. The C functions are modelled
    with the Linux back end of the wait. Delivery on a topic with several publishers is
    not stated because it does not hold ([MultiPub]); their operations are modelled,
    memory safe ([Robust]), and share the topic table safely ([Registration]). *)

From stdpp Require Export base list option numbers sets gmap sorting.

#[global] Open Scope Z_scope.

(** ** Machine integers

    A [u8], [u32], [u64] or [usize] (64-bit targets) is a [Z]; arithmetic that
    wraps in a release build is written out with [wrap32] and [wrap64]. *)

Definition u32_max : Z := 4294967295.
Definition u64_max : Z := 18446744073709551615.

Definition wrap32 (z : Z) : Z := z mod 2 ^ 32.
Definition wrap64 (z : Z) : Z := z mod 2 ^ 64.

Definition in_u8 (z : Z) : Prop := 0 <= z < 2 ^ 8.
Definition in_u32 (z : Z) : Prop := 0 <= z < 2 ^ 32.
Definition in_u64 (z : Z) : Prop := 0 <= z < 2 ^ 64.

(** [usize] arithmetic: unchecked (wraps in release builds) and checked. *)
Definition uadd (a b : Z) : Z := wrap64 (a + b).
Definition umul (a b : Z) : Z := wrap64 (a * b).

Definition checked_add (a b : Z) : option Z :=
  if a + b <? 2 ^ 64 then Some (a + b) else None.
Definition checked_mul (a b : Z) : option Z :=
  if a * b <? 2 ^ 64 then Some (a * b) else None.

Definition saturating_sub (a b : Z) : Z := if a <? b then 0 else a - b.
Definition saturating_add32 (a b : Z) : Z := Z.min u32_max (a + b).

(** [u32::is_power_of_two] / [usize::is_power_of_two]. *)
Definition is_power_of_two (z : Z) : bool := (0 <? z) && (z =? 2 ^ Z.log2 z).

(** ** Results *)

Inductive result (A E : Type) : Type :=
| Ok (a : A)
| Err (e : E).
Arguments Ok {A E} a.
Arguments Err {A E} e.

Definition is_ok {A E} (r : result A E) : bool :=
  match r with Ok _ => true | Err _ => false end.

(** ** Byte strings: a [&str] or [&[u8]] is the list of its bytes. *)

Abbreviation bytes := (list Z).

Definition blen (bs : bytes) : Z := Z.of_nat (length bs).

Definition bytes_ok (bs : bytes) : Prop := Forall in_u8 bs.

(** Little-endian encoding of [n]-byte integers. *)
Fixpoint le_encode (n : nat) (v : Z) : bytes :=
  match n with
  | O => []
  | S n' => v mod 2 ^ 8 :: le_encode n' (v / 2 ^ 8)
  end.

Fixpoint le_decode (bs : bytes) : Z :=
  match bs with
  | [] => 0
  | b :: bs' => b + 2 ^ 8 * le_decode bs'
  end.

(** ** Tactics and hints *)

Create HintDb crossbar.

Ltac zb_spec1 :=
  match goal with
  | H : (_ && _)%bool = true |- _ => apply andb_true_iff in H; destruct H
  | H : (_ || _)%bool = false |- _ => apply orb_false_iff in H; destruct H
  | H : negb _ = true |- _ => apply negb_true_iff in H
  | H : negb _ = false |- _ => apply negb_false_iff in H
  | H : (_ <? _) = true |- _ => apply Z.ltb_lt in H
  | H : (_ <? _) = false |- _ => apply Z.ltb_ge in H
  | H : (_ <=? _) = true |- _ => apply Z.leb_le in H
  | H : (_ <=? _) = false |- _ => apply Z.leb_gt in H
  | H : (_ =? _) = true |- _ => apply Z.eqb_eq in H
  | H : (_ =? _) = false |- _ => apply Z.eqb_neq in H
  end.

(** Turns boolean comparisons of the hypotheses into propositions. *)
Ltac zb := repeat zb_spec1.

(** Decides a boolean comparison of the goal from linear facts. *)
Ltac zb_rewrite :=
  repeat match goal with
  | |- context [?a <? ?b] =>
      first [ rewrite (proj2 (Z.ltb_lt a b)) by lia
            | rewrite (proj2 (Z.ltb_ge a b)) by lia ]
  | |- context [?a <=? ?b] =>
      first [ rewrite (proj2 (Z.leb_le a b)) by lia
            | rewrite (proj2 (Z.leb_gt a b)) by lia ]
  | |- context [?a =? ?b] =>
      first [ rewrite (proj2 (Z.eqb_eq a b)) by lia
            | rewrite (proj2 (Z.eqb_neq a b)) by lia ]
  end.

(** ** Wrapping *)

Lemma wrap32_range z : 0 <= wrap32 z < 2 ^ 32.
Proof. unfold wrap32. apply Z.mod_pos_bound. lia. Qed.

Lemma wrap64_range z : 0 <= wrap64 z < 2 ^ 64.
Proof. unfold wrap64. apply Z.mod_pos_bound. lia. Qed.

Lemma wrap32_small z : 0 <= z < 2 ^ 32 -> wrap32 z = z.
Proof. intros. unfold wrap32. apply Z.mod_small. lia. Qed.

Lemma wrap64_small z : 0 <= z < 2 ^ 64 -> wrap64 z = z.
Proof. intros. unfold wrap64. apply Z.mod_small. lia. Qed.

#[export] Hint Resolve wrap32_range wrap64_range wrap32_small wrap64_small : crossbar.

(** Removes the [wrap64]s of the goal whose argument is in range, innermost first. *)
Ltac unwrap64 :=
  repeat match goal with
  | |- context [wrap64 ?z] =>
      lazymatch z with
      | context [wrap64 _] => fail
      | _ => rewrite (wrap64_small z) by nia
      end
  end.

(** ** Powers of two and masks *)

Lemma is_power_of_two_spec z :
  is_power_of_two z = true -> exists k, 0 <= k /\ z = 2 ^ k.
Proof.
  unfold is_power_of_two. intros. zb.
  exists (Z.log2 z). split; [apply Z.log2_nonneg | done].
Qed.

Lemma is_power_of_two_pow k : 0 <= k -> is_power_of_two (2 ^ k) = true.
Proof.
  intros Hk. unfold is_power_of_two. rewrite Z.log2_pow2 by done.
  rewrite Z.eqb_refl, andb_true_r. apply Z.ltb_lt. lia.
Qed.

(** [x & (d - 1)] is [x mod d] when [d] is a power of two. *)
Lemma land_mask x d : is_power_of_two d = true -> Z.land x (d - 1) = x mod d.
Proof.
  intros (k & Hk & ->)%is_power_of_two_spec.
  rewrite <- Z.land_ones by done. f_equal. rewrite Z.ones_equiv. lia.
Qed.

Lemma is_power_of_two_pos d : is_power_of_two d = true -> 0 < d.
Proof. unfold is_power_of_two. intros. zb. lia. Qed.

#[export] Hint Resolve is_power_of_two_pos : crossbar.

(** Distinct numbers less than [d] apart differ modulo [d]. *)
Lemma mod_window_inj a b d :
  0 < d -> a <= b < a + d -> a mod d = b mod d -> a = b.
Proof.
  intros Hd Hr Heq.
  pose proof (Z.div_mod a d ltac:(lia)). pose proof (Z.div_mod b d ltac:(lia)).
  assert (a / d = b / d) by nia. nia.
Qed.

(** Shifting into the high half and or-ing the low half in is addition. *)
Lemma lor_shiftl_add hi lo n :
  0 <= n -> 0 <= lo < 2 ^ n -> Z.lor (Z.shiftl hi n) lo = hi * 2 ^ n + lo.
Proof.
  intros Hn Hlo. rewrite <- Z.shiftl_mul_pow2 by done.
  assert (Hd : Z.land (Z.shiftl hi n) lo = 0).
  { apply Z.bits_inj'. intros i Hi. rewrite Z.land_spec, Z.bits_0.
    destruct (Z.lt_ge_cases i n).
    - rewrite Z.shiftl_spec_low by lia. done.
    - rewrite <- (Z.mod_small lo (2 ^ n)) by done.
      by rewrite Z.mod_pow2_bits_high, andb_false_r by lia. }
  rewrite <- Z.lxor_lor by done. symmetry. by apply Z.add_nocarry_lxor.
Qed.

(** ** Little-endian encoding *)

Lemma length_le_encode n v : length (le_encode n v) = n.
Proof. revert v. induction n; intros; simpl; auto. Qed.

Lemma le_encode_bytes_ok n v : bytes_ok (le_encode n v).
Proof.
  revert v. induction n; intros; simpl; constructor; auto.
  - apply Z.mod_pos_bound. lia.
  - apply IHn.
Qed.

Lemma le_decode_encode n v :
  0 <= v < 2 ^ (8 * Z.of_nat n) -> le_decode (le_encode n v) = v.
Proof.
  revert v. induction n as [|n IH]; intros v Hv; cbn [le_encode le_decode].
  - change (2 ^ (8 * Z.of_nat 0)) with 1 in Hv. lia.
  - rewrite IH.
    + pose proof (Z.div_mod v (2 ^ 8) ltac:(lia)). lia.
    + replace (8 * Z.of_nat (S n)) with (8 + 8 * Z.of_nat n) in Hv by lia.
      rewrite Z.pow_add_r in Hv by lia.
      split; [apply Z.div_pos; lia | apply Z.div_lt_upper_bound; lia].
Qed.

Lemma le_decode_range bs :
  bytes_ok bs -> 0 <= le_decode bs < 2 ^ (8 * Z.of_nat (length bs)).
Proof.
  induction 1 as [|b bs Hb _ IH]; cbn [le_decode length].
  - change (2 ^ (8 * Z.of_nat 0)) with 1. lia.
  - replace (8 * Z.of_nat (S (length bs))) with (8 + 8 * Z.of_nat (length bs)) by lia.
    rewrite Z.pow_add_r by lia. unfold in_u8 in Hb. nia.
Qed.

Lemma le_encode_decode bs :
  bytes_ok bs -> le_encode (length bs) (le_decode bs) = bs.
Proof.
  induction 1 as [|b bs Hb Hbs IH]; cbn [le_encode le_decode length]; [done|].
  unfold in_u8 in Hb. f_equal.
  - rewrite Z.mul_comm, Z.mod_add by lia. apply Z.mod_small. lia.
  - rewrite Z.mul_comm, Z.div_add by lia. rewrite Z.div_small by lia.
    by rewrite Z.add_0_l.
Qed.

#[export] Hint Resolve length_le_encode le_encode_bytes_ok : crossbar.

(** ** Lists *)

(** The elements of [seqZ] used for the code's [for i in 0..n] loops. *)
Lemma elem_of_seqZ_0 n i : i ∈ seqZ 0 n <-> 0 <= i < n.
Proof. rewrite elem_of_seqZ. lia. Qed.

(** The first hit of a test: a [for] loop that returns at it. *)
Fixpoint first {B} (f : Z -> option B) (l : list Z) : option B :=
  match l with
  | [] => None
  | x :: l' => match f x with Some b => Some b | None => first f l' end
  end.

Lemma first_some {B} (f : Z -> option B) l b : first f l = Some b -> exists x, x ∈ l /\ f x = Some b.
Proof.
  induction l as [|x l IH]; cbn; [done|]. destruct (f x) as [b'|] eqn:Hx.
  - intros [= ->]. exists x. set_solver.
  - intros Hf. destruct (IH Hf) as (y & Hy & Hfy). exists y. set_solver.
Qed.

Lemma first_none {B} (f : Z -> option B) l : first f l = None -> forall x, x ∈ l -> f x = None.
Proof.
  induction l as [|y l IH]; cbn; [intros _ x ?%elem_of_nil; done|].
  destruct (f y) eqn:Hy; [done|]. intros Hf x [->|Hx]%elem_of_cons; auto.
Qed.

Lemma first_exists {B} (f : Z -> option B) l x b :
  x ∈ l -> f x = Some b -> exists b', first f l = Some b'.
Proof.
  induction l as [|y l IH]; cbn; [set_solver|]. intros Hx Hf.
  destruct (f y) eqn:Hy; [eauto|]. apply IH; [|done]. set_solver.
Qed.

(** Bytes read one after the other. *)
Lemma map_seq_lookup (f : nat -> Z) (l : bytes) :
  (forall i x, l !! i = Some x -> f i = x) -> map f (seq 0 (length l)) = l.
Proof.
  revert f. induction l as [|y l IH]; intros f Hf; cbn; [done|]. f_equal; [by apply (Hf 0%nat)|].
  rewrite <- seq_shift, map_map. apply IH. intros i x Hx. by apply (Hf (S i)).
Qed.

(** Picking elements at increasing positions gives a sublist. *)
Lemma sublist_sorted {A V} (l : list A) (idx : V -> nat) (val : V -> A) (vs : list V) (n : nat) :
  StronglySorted (fun v w => (idx v < idx w)%nat) vs ->
  (forall v, v ∈ vs -> (n <= idx v)%nat /\ l !! idx v = Some (val v)) ->
  map val vs `sublist_of` drop n l.
Proof.
  revert n. induction vs as [|v vs IH]; intros n Hs Hv; cbn [map]; [apply sublist_nil_l|].
  apply StronglySorted_inv in Hs as [Hs Hlt]. destruct (Hv v) as [Hn Hl]; [set_solver|].
  transitivity (drop (idx v) l).
  - rewrite (drop_S l (val v) (idx v) Hl). apply sublist_skip, IH; [done|].
    intros w Hw. rewrite Forall_forall in Hlt. specialize (Hlt w Hw).
    split; [lia | apply Hv; set_solver].
  - replace (idx v) with (n + (idx v - n))%nat by lia. rewrite <- drop_drop. apply sublist_drop.
Qed.

Lemma StronglySorted_snoc {V} (R : V -> V -> Prop) (vs : list V) (v : V) :
  StronglySorted R vs -> (forall w, w ∈ vs -> R w v) -> StronglySorted R (vs ++ [v]).
Proof.
  intros Hs Hv. induction Hs as [|w vs Hs IH Hall]; cbn; constructor.
  - constructor.
  - done.
  - apply IH. set_solver.
  - apply Forall_app. split; [done|]. constructor; [apply Hv; set_solver|done].
Qed.

Lemma StronglySorted_impl {V} (R R' : V -> V -> Prop) (vs : list V) :
  (forall v w, v ∈ vs -> w ∈ vs -> R v w -> R' v w) -> StronglySorted R vs -> StronglySorted R' vs.
Proof.
  intros Hi Hs. induction Hs as [|v vs Hs IH Hall]; constructor.
  - apply IH. set_solver.
  - rewrite Forall_forall in *. intros w Hw. apply Hi; [set_solver|set_solver|by apply Hall].
Qed.

Lemma sublist_elem {A} (l k : list A) x : l `sublist_of` k -> x ∈ l -> x ∈ k.
Proof. intros Hs. induction Hs; set_solver. Qed.

(** Two elements with the same image are one element, when the images are distinct. *)
Lemma NoDup_omap_inj {A B} (f : A -> option B) (l : list A) k k' x x' y :
  NoDup (omap f l) -> l !! k = Some x -> l !! k' = Some x' -> f x = Some y -> f x' = Some y -> k = k'.
Proof.
  revert k k'. induction l as [|a l IH]; intros k k'; cbn; [done|].
  assert (Hin : forall j z, l !! j = Some z -> f z = Some y -> y ∈ omap f l).
  { intros j z Hz Hf. apply list_elem_of_omap. exists z. split; [by eapply list_elem_of_lookup_2|done]. }
  destruct k as [|k], k' as [|k']; cbn; intros Hnd H1 H2 F1 F2; [done|..].
  - injection H1 as ->. rewrite F1 in Hnd. apply NoDup_cons in Hnd as [Hno _]. destruct Hno. by eapply Hin.
  - injection H2 as ->. rewrite F2 in Hnd. apply NoDup_cons in Hnd as [Hno _]. destruct Hno. by eapply Hin.
  - f_equal. eapply IH; try done. destruct (f a); [by apply NoDup_cons in Hnd as [_ Hnd]|done].
Qed.

(** [k] strictly increasing integers in an interval of length [k] are all of it. *)
Lemma sorted_dense {V} (key : V -> Z) (l : list V) (lo : Z) :
  StronglySorted (fun p q => key p < key q) l ->
  Forall (fun p => lo <= key p < lo + Z.of_nat (length l)) l ->
  forall j p, l !! j = Some p -> key p = lo + Z.of_nat j.
Proof.
  intros Hs Hall.
  assert (Hlow : forall j p, l !! j = Some p -> lo + Z.of_nat j <= key p /\
    key p <= lo + Z.of_nat (length l) - Z.of_nat (length l - j)).
  { clear -Hs Hall. remember (lo + Z.of_nat (length l)) as hi eqn:Hhi.
    assert (Hall' : Forall (fun p => lo <= key p < hi) l) by done. clear Hhi Hall.
    revert lo Hall'. induction Hs as [|a l Hs IH Hlt]; intros lo Hall j p Hj; [done|].
    apply Forall_cons in Hall as [Ha Hall].
    assert (Hl : Forall (fun p => lo + 1 <= key p < hi) l).
    { rewrite Forall_forall in Hlt, Hall |- *. intros q Hq. specialize (Hlt q Hq). specialize (Hall q Hq). cbn in *. lia. }
    destruct j as [|j]; cbn [lookup list_lookup length] in Hj |- *.
    - injection Hj as <-. split; [lia|]. destruct l as [|q l]; cbn [length]; [lia|].
      destruct (IH (lo + 1) Hl 0%nat q eq_refl) as [_ H2]. apply Forall_cons in Hlt as [Hq _]. cbn [length] in H2. lia.
    - destruct (IH (lo + 1) Hl j p Hj) as [H1 H2]. split; [lia|]. replace (S (length l) - S j)%nat with (length l - j)%nat by lia. lia. }
  intros j p Hj. destruct (Hlow j p Hj). apply lookup_lt_Some in Hj. lia.
Qed.

Lemma prefix_by_lookup {A} (l k : list A) :
  (forall j x, l !! j = Some x -> k !! j = Some x) -> l `prefix_of` k.
Proof.
  revert k. induction l as [|a l IH]; intros k H; [apply prefix_nil|].
  destruct k as [|b k]; [by specialize (H 0%nat a eq_refl)|].
  injection (H 0%nat a eq_refl) as ->. apply prefix_cons, IH. intros j x Hx. by apply (H (S j)).
Qed.

Lemma length_omap_le {A B} (f : A -> option B) (l : list A) : (length (omap f l) <= length l)%nat.
Proof. induction l as [|x l IH]; cbn; [done|]. destruct (f x); cbn; lia. Qed.
