(* ===== verification/Errors.v ===== *)
(** * Errors: the crate's error type (src/src/error.rs)

    [Error::InvalidRegion] and [Error::RegionCorrupted] carry a message that the
    code formats for display only; the model keeps the reason and the numbers
    the message interpolates. *)

From S2P Require Import Prelude.

(** Why a region, a configuration or a registry file is rejected. *)
Inductive region_reason : Type :=
| TooSmallForHeader
| BadMagic
| BadVersion (ver : Z)
| BlockSizeTooSmall (block_size : Z)
| RingDepthNotPow2 (ring_depth : Z)
| BlockCountZero
| MaxTopicsZero
| MaxTopicsLimit (max_topics : Z)
| RegionShorterThan (len expected : Z)
| TopicIdxOutOfRange (topic_idx max_topics : Z)
| BusVersion2
| BusRingSize (ring_size : Z)
| BusValueSize (found needed : Z)
| BusValueAlign (found needed : Z)
| RegistryTooSmall.

Inductive Error : Type :=
| Io
| PublisherDead
| InvalidRegion (reason : region_reason)
| PoolExhausted
| Full
| DataTooLarge (size capacity : Z)
| PinnedReadersActive (count topic_idx : Z)
| ClockError
| TopicNotFound (uri : bytes)
| MaxTopicsReached
| UriTooLong (len max : Z)
| LockContention (name : bytes)
| AlignmentError (align max : Z)
| SegmentNameInvalid (name : bytes)
| HandleMismatch
| RegionSizeOverflow
| RegionCorrupted.

#[export] Instance region_reason_eq_dec : EqDecision region_reason.
Proof. solve_decision. Defined.

#[export] Instance Error_eq_dec : EqDecision Error.
Proof. solve_decision. Defined.
