(* ===== verification/Layout.v ===== *)
(** * Layout: configuration, offsets and encodings
    (src/src/protocol/config.rs, src/src/protocol/layout.rs)

    The shared region is a header, a topic table, one ring per topic and a pool
    of blocks. A [cell] names one field of it; [cell_off] and [cell_size] place
    the field with the code's own offset functions. The theorems show that the
    fields of an accepted configuration lie inside the region, never overlap and
    (for block sizes that are multiples of 8) are naturally aligned, and that the
    unchecked [usize] arithmetic never wraps there. *)

From S2P Require Import Prelude Errors.

(** ** Config *)

(** A [Duration] is its number of nanoseconds. *)
Definition duration_from_micros (us : Z) : Z := us * 1000.
Definition duration_from_millis (ms : Z) : Z := ms * 1000000.
Definition duration_as_micros (d : Z) : Z := d / 1000.
Definition duration_as_millis (d : Z) : Z := d / 1000000.

Record Config : Type := mkConfig {
  max_topics : Z;
  block_count : Z;
  block_size : Z;
  ring_depth : Z;
  heartbeat_interval : Z;
  stale_timeout : Z
}.

Definition config_default : Config := {|
  max_topics := 16;
  block_count := 256;
  block_size := 65536;
  ring_depth := 8;
  heartbeat_interval := duration_from_millis 100;
  stale_timeout := 5 * 1000000000
|}.

(** The integer fields are [u32]s. *)
Definition config_u32 (c : Config) : Prop :=
  in_u32 (max_topics c) /\ in_u32 (block_count c) /\
  in_u32 (block_size c) /\ in_u32 (ring_depth c).

(** ** Constants *)

Definition MAGIC : bytes := [88; 66; 65; 82; 95; 90; 67; 0].
Definition VERSION : Z := 3.

Definition HEADER_SIZE : Z := 128.
Definition TOPIC_ENTRY_SIZE : Z := 128.
Definition RING_ENTRY_SIZE : Z := 16.
Definition BLOCK_DATA_OFFSET : Z := 8.
Definition NO_BLOCK : Z := u32_max.
Definition SEQ_WRITING : Z := u64_max.

Definition TE_STATE_FREE : Z := 0.
Definition TE_STATE_INIT : Z := 2.
Definition TE_STATE_ACTIVE : Z := 1.

Definition MAX_TOPICS_LIMIT : Z := 4096.
Definition PINNED_WRITER_ACTIVE : Z := u32_max.

Definition GH_MAGIC : Z := 0.
Definition GH_VERSION : Z := 8.
Definition GH_MAX_TOPICS : Z := 0x0C.
Definition GH_BLOCK_COUNT : Z := 0x10.
Definition GH_BLOCK_SIZE : Z := 0x14.
Definition GH_RING_DEPTH : Z := 0x18.
Definition GH_POOL_HEAD : Z := 0x20.
Definition GH_HEARTBEAT : Z := 0x28.
Definition GH_PID : Z := 0x30.
Definition GH_STALE_TIMEOUT_US : Z := 0x38.

Definition TE_ACTIVE : Z := 0.
Definition TE_WRITE_SEQ : Z := 8.
Definition TE_WAITERS : Z := 0x10.
Definition TE_URI_LEN : Z := 0x14.
Definition TE_URI_HASH : Z := 0x18.
Definition TE_URI : Z := 0x20.
Definition TE_URI_MAX : Z := 64.
Definition TE_TYPE_SIZE : Z := 0x60.
Definition TE_PINNED_BLOCK : Z := 0x64.
Definition TE_PINNED_READERS : Z := 0x68.
Definition TE_PINNED_SEQ : Z := 0x70.
Definition TE_SUBSCRIBER_COUNT : Z := 0x78.

Definition RE_SEQ : Z := 0.
Definition RE_BLOCK_IDX : Z := 8.
Definition RE_DATA_LEN : Z := 12.

Definition BK_REFCOUNT : Z := 4.

(** ** Offset helpers *)

Definition topic_entry_off (idx : Z) : Z :=
  uadd HEADER_SIZE (umul idx TOPIC_ENTRY_SIZE).

Definition ring_base (config : Config) : Z :=
  uadd HEADER_SIZE (umul (max_topics config) TOPIC_ENTRY_SIZE).

Definition ring_entry_off (config : Config) (topic_idx slot : Z) : Z :=
  uadd (uadd (ring_base config)
             (umul (umul topic_idx (ring_depth config)) RING_ENTRY_SIZE))
       (umul slot RING_ENTRY_SIZE).

Definition block_pool_offset_checked (config : Config) : option Z :=
  let rb := ring_base config in
  a ← checked_mul (max_topics config) (ring_depth config);
  ring_size ← checked_mul a RING_ENTRY_SIZE;
  checked_add rb ring_size.

Definition block_pool_offset (config : Config) : Z :=
  uadd (ring_base config)
       (umul (umul (max_topics config) (ring_depth config)) RING_ENTRY_SIZE).

Definition region_size_checked (config : Config) : option Z :=
  pool_off ← block_pool_offset_checked config;
  pool_size ← checked_mul (block_count config) (block_size config);
  checked_add pool_off pool_size.

(** FNV-1a over the URI's bytes. *)
Definition fnv_step (h b : Z) : Z := wrap64 (Z.lxor h b * 0x100000001b3).

Definition uri_hash (uri : bytes) : Z := fold_left fnv_step uri 0xcbf29ce484222325.

(** Treiber-stack head: [(generation, index)] in one [u64]. *)
Definition pack (gen idx : Z) : Z := Z.lor (Z.shiftl gen 32) idx.
Definition unpack (val : Z) : Z * Z := (wrap32 (Z.shiftr val 32), wrap32 val).

(** Does [needle] occur in [hay] ([str::contains])? *)
Fixpoint is_prefix_of (p l : bytes) : bool :=
  match p, l with
  | [], _ => true
  | x :: p', y :: l' => (x =? y) && is_prefix_of p' l'
  | _ :: _, [] => false
  end.

Fixpoint str_contains (hay needle : bytes) : bool :=
  is_prefix_of needle hay ||
  match hay with [] => false | _ :: hay' => str_contains hay' needle end.

Definition is_valid_segment_name (name : bytes) : bool :=
  match name with
  | [] => false
  | _ => negb (str_contains name [47]) && negb (str_contains name [92])
         && negb (str_contains name [0]) && negb (str_contains name [46; 46])
  end.

(** ** Cells *)

(** One constructor per field of the header, of a topic entry, of a ring entry
    and of a block. [LastFreed h] is the process-private [last_freed] atomic of
    region handle [h], which is no part of the shared file. *)
Inductive cell : Type :=
| GHMagic | GHVersion | GHMaxTopics | GHBlockCount | GHBlockSize | GHRingDepth
| GHPoolHead | GHHeartbeat | GHPid | GHStaleTimeoutUs
| TEActive (t : Z) | TEWriteSeq (t : Z) | TEWaiters (t : Z) | TEUriLen (t : Z)
| TEUriHash (t : Z) | TEUri (t i : Z) | TETypeSize (t : Z) | TEPinnedBlock (t : Z)
| TEPinnedReaders (t : Z) | TEPinnedSeq (t : Z) | TESubscriberCount (t : Z)
| RESeq (t s : Z) | REBlockIdx (t s : Z) | REDataLen (t s : Z)
| BKNext (b : Z) | BKRefcount (b : Z) | BKData (b i : Z)
| LastFreed (h : Z).

#[export] Instance cell_eq_dec : EqDecision cell.
Proof. solve_decision. Defined.

(** Bytes of a field. *)
Definition cell_size (c : cell) : Z :=
  match c with
  | GHMagic | GHPoolHead | GHHeartbeat | GHPid | GHStaleTimeoutUs => 8
  | GHVersion | GHMaxTopics | GHBlockCount | GHBlockSize | GHRingDepth => 4
  | TEWriteSeq _ | TEUriHash _ | TEPinnedSeq _ => 8
  | TEUri _ _ => 1
  | TEActive _ | TEWaiters _ | TEUriLen _ | TETypeSize _ | TEPinnedBlock _
  | TEPinnedReaders _ | TESubscriberCount _ => 4
  | RESeq _ _ => 8
  | REBlockIdx _ _ | REDataLen _ _ => 4
  | BKNext _ | BKRefcount _ => 4
  | BKData _ _ => 1
  | LastFreed _ => 4
  end.

(** The pointer arithmetic the code performs to reach the field. *)
Definition block_off (config : Config) (b : Z) : Z :=
  uadd (block_pool_offset config) (umul b (block_size config)).

Definition cell_off (config : Config) (c : cell) : Z :=
  match c with
  | GHMagic => GH_MAGIC | GHVersion => GH_VERSION | GHMaxTopics => GH_MAX_TOPICS
  | GHBlockCount => GH_BLOCK_COUNT | GHBlockSize => GH_BLOCK_SIZE
  | GHRingDepth => GH_RING_DEPTH | GHPoolHead => GH_POOL_HEAD
  | GHHeartbeat => GH_HEARTBEAT | GHPid => GH_PID
  | GHStaleTimeoutUs => GH_STALE_TIMEOUT_US
  | TEActive t => uadd (topic_entry_off t) TE_ACTIVE
  | TEWriteSeq t => uadd (topic_entry_off t) TE_WRITE_SEQ
  | TEWaiters t => uadd (topic_entry_off t) TE_WAITERS
  | TEUriLen t => uadd (topic_entry_off t) TE_URI_LEN
  | TEUriHash t => uadd (topic_entry_off t) TE_URI_HASH
  | TEUri t i => uadd (uadd (topic_entry_off t) TE_URI) i
  | TETypeSize t => uadd (topic_entry_off t) TE_TYPE_SIZE
  | TEPinnedBlock t => uadd (topic_entry_off t) TE_PINNED_BLOCK
  | TEPinnedReaders t => uadd (topic_entry_off t) TE_PINNED_READERS
  | TEPinnedSeq t => uadd (topic_entry_off t) TE_PINNED_SEQ
  | TESubscriberCount t => uadd (topic_entry_off t) TE_SUBSCRIBER_COUNT
  | RESeq t s => uadd (ring_entry_off config t s) RE_SEQ
  | REBlockIdx t s => uadd (ring_entry_off config t s) RE_BLOCK_IDX
  | REDataLen t s => uadd (ring_entry_off config t s) RE_DATA_LEN
  | BKNext b => block_off config b
  | BKRefcount b => uadd (block_off config b) BK_REFCOUNT
  | BKData b i => uadd (uadd (block_off config b) BLOCK_DATA_OFFSET) i
  | LastFreed _ => 0
  end.

(** Is the field part of the shared file of this configuration? *)
Definition in_shm (config : Config) (c : cell) : bool :=
  match c with
  | GHMagic | GHVersion | GHMaxTopics | GHBlockCount | GHBlockSize | GHRingDepth
  | GHPoolHead | GHHeartbeat | GHPid | GHStaleTimeoutUs => true
  | TEActive t | TEWriteSeq t | TEWaiters t | TEUriLen t | TEUriHash t
  | TETypeSize t | TEPinnedBlock t | TEPinnedReaders t | TEPinnedSeq t
  | TESubscriberCount t => (0 <=? t) && (t <? max_topics config)
  | TEUri t i => (0 <=? t) && (t <? max_topics config) && (0 <=? i) && (i <? TE_URI_MAX)
  | RESeq t s | REBlockIdx t s | REDataLen t s =>
      (0 <=? t) && (t <? max_topics config) && (0 <=? s) && (s <? ring_depth config)
  | BKNext b | BKRefcount b => (0 <=? b) && (b <? block_count config)
  | BKData b i => (0 <=? b) && (b <? block_count config) && (0 <=? i)
                  && (i <? block_size config - BLOCK_DATA_OFFSET)
  | LastFreed _ => false
  end.

(** ** Encodings *)

Lemma pack_eq gen idx : in_u32 idx -> pack gen idx = gen * 2 ^ 32 + idx.
Proof. intros. unfold pack. apply lor_shiftl_add; [lia | done]. Qed.

Lemma unpack_pack gen idx : in_u32 gen -> in_u32 idx -> unpack (pack gen idx) = (gen, idx).
Proof.
  unfold in_u32. intros Hg Hi. unfold unpack. rewrite pack_eq by done.
  rewrite Z.shiftr_div_pow2 by lia. unfold wrap32. f_equal.
  - rewrite Z.add_comm, Z.div_add, (Z.div_small idx) by lia. apply Z.mod_small. lia.
  - rewrite Z.add_comm, Z.mod_add by lia. apply Z.mod_small. lia.
Qed.

Lemma pack_unpack v : in_u64 v -> pack (unpack v).1 (unpack v).2 = v.
Proof.
  unfold in_u64. intros Hv. cbn [unpack fst snd].
  rewrite pack_eq by apply wrap32_range. unfold wrap32.
  rewrite Z.shiftr_div_pow2 by lia.
  rewrite (Z.mod_small (v / 2 ^ 32)).
  - pose proof (Z.div_mod v (2 ^ 32) ltac:(lia)). lia.
  - split; [apply Z.div_pos; lia | apply Z.div_lt_upper_bound; lia].
Qed.

Lemma pack_in_u64 gen idx : in_u32 gen -> in_u32 idx -> in_u64 (pack gen idx).
Proof. unfold in_u32, in_u64. intros. rewrite pack_eq by done. lia. Qed.

Lemma pack_inj g i g' i' :
  in_u32 g -> in_u32 i -> in_u32 g' -> in_u32 i' -> pack g i = pack g' i' -> g = g' /\ i = i'.
Proof.
  unfold in_u32. intros ???? H. rewrite !pack_eq in H by done. lia.
Qed.

Lemma unpack_u32 v : in_u32 (unpack v).1 /\ in_u32 (unpack v).2.
Proof. split; apply wrap32_range. Qed.

#[export] Hint Resolve pack_in_u64 : crossbar.

Lemma uri_hash_u64 uri : in_u64 (uri_hash uri).
Proof.
  unfold uri_hash. destruct uri as [|b uri] using rev_ind; [unfold in_u64; simpl; lia|].
  rewrite fold_left_app. apply wrap64_range.
Qed.

(** ** The layout of an accepted configuration *)

(** A configuration as [create] and [open] accept it. *)
(** Configurations with the same layout: what the header keeps exactly. *)
Definition same_layout (c c' : Config) : Prop :=
  max_topics c = max_topics c' /\ block_count c = block_count c' /\
  block_size c = block_size c' /\ ring_depth c = ring_depth c'.

Record layout_ok (config : Config) (size : Z) : Prop := {
  lo_u32 : config_u32 config;
  lo_block_size : BLOCK_DATA_OFFSET + 1 <= block_size config;
  lo_size : region_size_checked config = Some size
}.

Section Offsets.
Context (config : Config) (size : Z).
Hypothesis (Hok : layout_ok config size).

Local Abbreviation mt := (max_topics config).
Local Abbreviation rd := (ring_depth config).
Local Abbreviation bc := (block_count config).
Local Abbreviation bs := (block_size config).

Lemma ring_base_exact : ring_base config = 128 + mt * 128.
Proof.
  destruct Hok as [(H & _) _ _]. unfold in_u32 in H.
  unfold ring_base, uadd, umul, HEADER_SIZE, TOPIC_ENTRY_SIZE.
  rewrite (wrap64_small (_ * _)), wrap64_small by lia. lia.
Qed.

Lemma size_exact :
  size = 128 + mt * 128 + mt * rd * 16 + bc * bs /\ size < 2 ^ 64.
Proof.
  destruct Hok as [(H1 & H2 & H3 & H4) _ Hs]. revert Hs.
  unfold region_size_checked, block_pool_offset_checked, checked_mul, checked_add.
  rewrite ring_base_exact. unfold RING_ENTRY_SIZE.
  do 5 (case_match; cbn [mbind option_bind]; try discriminate). zb.
  intros [= <-]. lia.
Qed.

Lemma config_nonneg : 0 <= mt /\ 0 <= rd /\ 0 <= bc /\ 9 <= bs.
Proof.
  destruct Hok as [(H1 & H2 & H3 & H4) Hb _]. unfold in_u32, BLOCK_DATA_OFFSET in *. lia.
Qed.

Lemma topic_entry_off_exact t : 0 <= t < mt -> topic_entry_off t = 128 + t * 128.
Proof.
  pose proof size_exact. pose proof config_nonneg. intros.
  unfold topic_entry_off, uadd, umul, HEADER_SIZE, TOPIC_ENTRY_SIZE.
  rewrite (wrap64_small (_ * _)), wrap64_small by nia. lia.
Qed.

Lemma ring_entry_off_exact t s :
  0 <= t < mt -> 0 <= s < rd ->
  ring_entry_off config t s = 128 + mt * 128 + (t * rd + s) * 16.
Proof.
  intros Ht Hs. pose proof size_exact as [Hsz Hlt]. pose proof config_nonneg.
  assert ((t * rd + s + 1) * 16 <= mt * rd * 16) by nia.
  unfold ring_entry_off, uadd, umul, RING_ENTRY_SIZE. rewrite ring_base_exact.
  rewrite (wrap64_small (t * rd)) by nia.
  rewrite (wrap64_small (t * rd * 16)) by nia.
  rewrite (wrap64_small (_ + t * rd * 16)) by nia.
  rewrite (wrap64_small (s * 16)) by nia.
  rewrite wrap64_small by nia. lia.
Qed.

Lemma block_pool_offset_exact : block_pool_offset config = 128 + mt * 128 + mt * rd * 16.
Proof.
  pose proof size_exact as [Hsz Hlt]. pose proof config_nonneg.
  unfold block_pool_offset, uadd, umul, RING_ENTRY_SIZE. rewrite ring_base_exact.
  rewrite (wrap64_small (mt * rd)) by nia.
  rewrite (wrap64_small (mt * rd * 16)) by nia.
  rewrite wrap64_small by nia. lia.
Qed.

Lemma block_off_exact b :
  0 <= b < bc -> block_off config b = 128 + mt * 128 + mt * rd * 16 + b * bs.
Proof.
  intros Hb. pose proof size_exact as [Hsz Hlt]. pose proof config_nonneg.
  unfold block_off, uadd, umul. rewrite block_pool_offset_exact.
  rewrite (wrap64_small (b * bs)) by nia. rewrite wrap64_small by nia. lia.
Qed.

End Offsets.

(** ** Placement: area, entry and offset inside the entry *)

Definition cell_area (c : cell) : Z :=
  match c with
  | TEActive _ | TEWriteSeq _ | TEWaiters _ | TEUriLen _ | TEUriHash _ | TEUri _ _
  | TETypeSize _ | TEPinnedBlock _ | TEPinnedReaders _ | TEPinnedSeq _
  | TESubscriberCount _ => 1
  | RESeq _ _ | REBlockIdx _ _ | REDataLen _ _ => 2
  | BKNext _ | BKRefcount _ | BKData _ _ => 3
  | _ => 0
  end.

Definition area_base (config : Config) (a : Z) : Z :=
  match a with
  | 1 => 128
  | 2 => 128 + max_topics config * 128
  | 3 => 128 + max_topics config * 128 + max_topics config * ring_depth config * 16
  | _ => 0
  end.

Definition area_stride (config : Config) (a : Z) : Z :=
  match a with 2 => 16 | 3 => block_size config | _ => 128 end.

Definition area_entries (config : Config) (a : Z) : Z :=
  match a with
  | 1 => max_topics config
  | 2 => max_topics config * ring_depth config
  | 3 => block_count config
  | _ => 1
  end.

Definition cell_entry (config : Config) (c : cell) : Z :=
  match c with
  | TEActive t | TEWriteSeq t | TEWaiters t | TEUriLen t | TEUriHash t | TEUri t _
  | TETypeSize t | TEPinnedBlock t | TEPinnedReaders t | TEPinnedSeq t
  | TESubscriberCount t => t
  | RESeq t s | REBlockIdx t s | REDataLen t s => t * ring_depth config + s
  | BKNext b | BKRefcount b | BKData b _ => b
  | _ => 0
  end.

Definition cell_inner (c : cell) : Z :=
  match c with
  | GHMagic => 0 | GHVersion => 8 | GHMaxTopics => 12 | GHBlockCount => 16
  | GHBlockSize => 20 | GHRingDepth => 24 | GHPoolHead => 32 | GHHeartbeat => 40
  | GHPid => 48 | GHStaleTimeoutUs => 56
  | TEActive _ => 0 | TEWriteSeq _ => 8 | TEWaiters _ => 16 | TEUriLen _ => 20
  | TEUriHash _ => 24 | TEUri _ i => 32 + i | TETypeSize _ => 96
  | TEPinnedBlock _ => 100 | TEPinnedReaders _ => 104 | TEPinnedSeq _ => 112
  | TESubscriberCount _ => 120
  | RESeq _ _ => 0 | REBlockIdx _ _ => 8 | REDataLen _ _ => 12
  | BKNext _ => 0 | BKRefcount _ => 4 | BKData _ i => 8 + i
  | LastFreed _ => 0
  end.

Section Placement.
Context (config : Config) (size : Z).
Hypothesis (Hok : layout_ok config size).

Lemma cell_entry_range c :
  in_shm config c = true -> 0 <= cell_entry config c < area_entries config (cell_area c).
Proof.
  pose proof (config_nonneg _ _ Hok).
  destruct c; cbn [in_shm cell_entry cell_area area_entries]; intros; zb;
    try discriminate; try lia; nia.
Qed.

Lemma cell_inner_range c :
  in_shm config c = true ->
  0 <= cell_inner c /\ 0 < cell_size c /\
  cell_inner c + cell_size c <= area_stride config (cell_area c).
Proof.
  pose proof (config_nonneg _ _ Hok).
  destruct c; cbn [in_shm cell_inner cell_size cell_area area_stride];
    unfold TE_URI_MAX, BLOCK_DATA_OFFSET; intros; zb; try discriminate; lia.
Qed.

Lemma area_base_nonneg a : 0 <= a <= 3 -> 0 <= area_base config a.
Proof.
  pose proof (config_nonneg _ _ Hok).
  intros. assert (a = 0 \/ a = 1 \/ a = 2 \/ a = 3) as [->|[->|[->| ->]]] by lia;
    cbn [area_base]; nia.
Qed.

Lemma area_end :
  area_base config 3 + area_entries config 3 * area_stride config 3 = size.
Proof.
  pose proof (size_exact _ _ Hok). cbn [area_base area_entries area_stride]. lia.
Qed.

Lemma cell_area_range c : 0 <= cell_area c <= 3.
Proof. destruct c; cbn; lia. Qed.

Lemma area_base_mono a b : 0 <= a -> a < b <= 3 ->
  area_base config a + area_entries config a * area_stride config a <= area_base config b.
Proof.
  pose proof (config_nonneg _ _ Hok) as (H1 & H2 & _).
  pose proof (Z.mul_nonneg_nonneg _ _ H1 H2).
  intros. assert (a = 0 \/ a = 1 \/ a = 2) as [->|[->| ->]] by lia;
  assert (b = 1 \/ b = 2 \/ b = 3) as [->|[->| ->]] by lia;
    cbn [area_base area_entries area_stride]; lia.
Qed.

(** Where the field lies, without wrap-around. *)
Definition cell_place (c : cell) : Z :=
  area_base config (cell_area c)
  + cell_entry config c * area_stride config (cell_area c) + cell_inner c.

Lemma cell_place_in_area c :
  in_shm config c = true ->
  area_base config (cell_area c) <= cell_place c /\
  cell_place c + cell_size c <=
    area_base config (cell_area c)
    + area_entries config (cell_area c) * area_stride config (cell_area c).
Proof.
  intros Hin. unfold cell_place.
  pose proof (cell_entry_range c Hin). pose proof (cell_inner_range c Hin). nia.
Qed.

Lemma cell_place_bounds c :
  in_shm config c = true -> 0 <= cell_place c /\ cell_place c + cell_size c <= size.
Proof.
  intros Hin. pose proof (cell_place_in_area c Hin).
  pose proof (cell_area_range c) as Ha. pose proof (area_base_nonneg _ Ha).
  pose proof area_end as Hend.
  destruct (Z.eq_dec (cell_area c) 3) as [He|]; [rewrite He in *; lia|].
  pose proof (area_base_mono (cell_area c) 3 ltac:(lia) ltac:(lia)).
  pose proof (config_nonneg _ _ Hok). cbn [area_entries area_stride] in Hend. nia.
Qed.

Lemma cell_off_place c : in_shm config c = true -> cell_off config c = cell_place c.
Proof.
  intros Hin. pose proof (cell_place_bounds c Hin) as Hb.
  pose proof (size_exact _ _ Hok) as [_ Hlt]. pose proof (config_nonneg _ _ Hok).
  unfold cell_place in *.
  destruct c; cbn [in_shm] in Hin; zb; try discriminate; try reflexivity;
    cbn [cell_off cell_area area_base area_stride cell_entry cell_inner cell_size] in *;
    unfold uadd;
    rewrite ?(topic_entry_off_exact _ _ Hok), ?(ring_entry_off_exact _ _ Hok),
      ?(block_off_exact _ _ Hok) by lia;
    unfold TE_ACTIVE, TE_WRITE_SEQ, TE_WAITERS, TE_URI_LEN, TE_URI_HASH, TE_URI,
      TE_TYPE_SIZE, TE_PINNED_BLOCK, TE_PINNED_READERS, TE_PINNED_SEQ,
      TE_SUBSCRIBER_COUNT, RE_SEQ, RE_BLOCK_IDX, RE_DATA_LEN, BK_REFCOUNT,
      BLOCK_DATA_OFFSET;
    unwrap64; lia.
Qed.

(** Two fields of the same entry never overlap. *)
Lemma inner_disjoint c1 c2 :
  in_shm config c1 = true -> in_shm config c2 = true -> c1 <> c2 ->
  cell_area c1 = cell_area c2 -> cell_entry config c1 = cell_entry config c2 ->
  cell_inner c1 + cell_size c1 <= cell_inner c2 \/
  cell_inner c2 + cell_size c2 <= cell_inner c1.
Proof.
  pose proof (config_nonneg _ _ Hok).
  destruct c1, c2; cbn [in_shm cell_area cell_entry cell_inner cell_size];
    unfold TE_URI_MAX, BLOCK_DATA_OFFSET; intros H1 H2 Hne Ha He; zb;
    try discriminate; try lia;
    try (exfalso; apply Hne; congruence);
    try (match goal with |- context [_ + ?i + 1 <= _ + ?j] =>
           assert (i <> j) by congruence; lia end);
    exfalso; apply Hne;
    match goal with
    | He : ?t * ?r + ?s = ?t' * ?r + ?s' |- _ =>
        assert (t = t') by nia; subst; f_equal; lia
    end.
Qed.

End Placement.

Lemma cells_in_bounds config size c :
  layout_ok config size -> in_shm config c = true ->
  0 <= cell_off config c /\ cell_off config c + cell_size c <= size.
Proof.
  intros Hok Hin. rewrite (cell_off_place _ _ Hok c Hin).
  exact (cell_place_bounds _ _ Hok c Hin).
Qed.

Lemma cells_disjoint config size c1 c2 :
  layout_ok config size -> in_shm config c1 = true -> in_shm config c2 = true ->
  c1 <> c2 ->
  cell_off config c1 + cell_size c1 <= cell_off config c2 \/
  cell_off config c2 + cell_size c2 <= cell_off config c1.
Proof.
  intros Hok H1 H2 Hne. rewrite (cell_off_place _ _ Hok _ H1), (cell_off_place _ _ Hok _ H2).
  pose proof (cell_place_in_area _ _ Hok _ H1). pose proof (cell_place_in_area _ _ Hok _ H2).
  pose proof (cell_area_range c1). pose proof (cell_area_range c2).
  destruct (Z.lt_trichotomy (cell_area c1) (cell_area c2)) as [Hlt|[Heq|Hlt]].
  - pose proof (area_base_mono _ _ Hok (cell_area c1) (cell_area c2) ltac:(lia) ltac:(lia)). lia.
  - pose proof (cell_inner_range _ _ Hok _ H1). pose proof (cell_inner_range _ _ Hok _ H2).
    unfold cell_place. rewrite <- Heq in *.
    destruct (Z.eq_dec (cell_entry config c1) (cell_entry config c2)) as [He|].
    + pose proof (inner_disjoint _ _ Hok _ _ H1 H2 Hne Heq He). rewrite He. lia.
    + nia.
  - pose proof (area_base_mono _ _ Hok (cell_area c2) (cell_area c1) ltac:(lia) ltac:(lia)). lia.
Qed.

(** Alignment of an entry of the ring or of the pool. *)
Lemma cell_place_aligned config size c :
  layout_ok config size -> block_size config mod 4 = 0 -> in_shm config c = true ->
  (cell_size c | cell_place config c).
Proof.
  intros Hok Hal Hin. apply Z.mod_divide in Hal as [k Hk]; [|done].
  unfold cell_place. destruct c; cbn [cell_size cell_area area_base area_stride cell_entry cell_inner];
    try apply Z.divide_1_l; try (by apply Z.mod_divide); try rewrite Hk.
  all: match goal with
  | |- (8 | ?x) => apply Z.mod_divide; [done|]; Z.div_mod_to_equations; nia
  | |- (4 | ?x) => apply Z.mod_divide; [done|]; Z.div_mod_to_equations; nia
  end.
Qed.

(** A small accepted configuration, for the examples. *)
Definition config_small : Config := {|
  max_topics := 2; block_count := 8; block_size := 24; ring_depth := 4;
  heartbeat_interval := duration_from_millis 100;
  stale_timeout := duration_from_millis 5000
|}.

Lemma config_small_ok : layout_ok config_small 704.
Proof. split; vm_compute; intuition congruence. Defined.

(** C28. The layout of the shared file is sound: for a configuration that [create]
    and [open] accept, with the code's own wrapping offset arithmetic, every field
    lies inside the region, no two fields overlap, and when the block size is a
    multiple of 4 every field is aligned to its size (the base is page aligned). *)
Theorem layout_sound config size c :
  layout_ok config size -> in_shm config c = true ->
  (0 <= cell_off config c /\ cell_off config c + cell_size c <= size) /\
  (forall c', in_shm config c' = true -> c <> c' ->
     cell_off config c + cell_size c <= cell_off config c' \/
     cell_off config c' + cell_size c' <= cell_off config c) /\
  (block_size config mod 4 = 0 -> (cell_size c | cell_off config c)).
Proof.
  intros Hok Hin. split; [by apply cells_in_bounds|]. split.
  - intros c' Hin' Hne. by eapply cells_disjoint.
  - intros Hal. rewrite (cell_off_place _ _ Hok c Hin). by eapply cell_place_aligned.
Qed.

Lemma layout_sound_witness :
  layout_ok config_small 704 /\ in_shm config_small (BKData 7 15) = true /\
  0 <= cell_off config_small (BKData 7 15) /\
  cell_off config_small (BKData 7 15) + 1 <= 704 /\
  (8 | cell_off config_small (RESeq 1 3)).
Proof.
  split; [exact config_small_ok|]. split; [reflexivity|].
  destruct (layout_sound config_small 704 (BKData 7 15) config_small_ok eq_refl) as ([H1 H2] & _).
  destruct (layout_sound config_small 704 (RESeq 1 3) config_small_ok eq_refl) as (_ & _ & H3).
  split; [exact H1|]. split; [exact H2|]. exact (H3 eq_refl).
Defined.
