(* ===== verification/Atomics.v ===== *)
(** * Atomics: programs over shared cells and their sequential semantics

    The code's operations are straight-line sequences and loops of atomic
    accesses to shared memory. They are translated into [prog], a tree whose
    nodes are single atomic accesses (a load, a store, a read-modify-write, a
    compare-exchange, a clock read, a futex wait or wake, a sleep). One translation serves three
    purposes:
    - [run] executes it alone (the sequential behaviour);
    - [cstep] (file Rely) interleaves any number of them, one access at a time
      (sequentially consistent interleaving; weak compare-exchanges may fail
      spuriously);
    - [safe] says that every access is valid whatever values other processes
      put into the shared memory.

    A loop is translated with a bound on its iterations; a program that exceeds
    it is [Diverge]. *)

From S2P Require Import Prelude.

(** ** Memories *)

Class Memory (C M : Type) : Type := {
  mload : M -> C -> Z;
  mstore : M -> C -> Z -> M
}.

(** What a memory promises: a store is seen by later loads of that cell and by
    no other, for the [valid] cells and the values that [fit] them. *)
Class MemoryLaws (C M : Type) `{Memory C M} (valid : C -> Prop) (fits : C -> Z -> Prop) := {
  mload_mstore_eq : forall m c v,
    valid c -> fits c v -> mload (mstore m c v) c = v;
  mload_mstore_ne : forall m c c' v,
    valid c -> valid c' -> c <> c' -> mload (mstore m c v) c' = mload m c'
}.

(** A memory whose valid cells only hold values that fit them. *)
Definition mem_fits {C M : Type} `{Memory C M} (valid : C -> Prop) (fits : C -> Z -> Prop)
    (m : M) : Prop :=
  forall c, valid c -> fits c (mload m c).

(** The abstract memory: a total map from cells to values. *)
Definition cellmem (C : Type) : Type := C -> Z.

Definition upd {C} `{EqDecision C} (m : cellmem C) (c : C) (v : Z) : cellmem C :=
  fun c' => if decide (c = c') then v else m c'.

#[export] Instance cellmem_memory {C} `{EqDecision C} : Memory C (cellmem C) := {
  mload m c := m c;
  mstore := upd
}.

#[export] Instance cellmem_laws {C} `{EqDecision C} valid fits :
  MemoryLaws C (cellmem C) valid fits.
Proof.
  split; intros; cbn; unfold upd; case_decide; congruence.
Qed.

Lemma upd_eq {C} `{EqDecision C} (m : cellmem C) c v : upd m c v c = v.
Proof. unfold upd. by rewrite decide_True. Qed.

Lemma upd_ne {C} `{EqDecision C} (m : cellmem C) c c' v : c <> c' -> upd m c v c' = m c'.
Proof. intros. unfold upd. by rewrite decide_False. Qed.

(** ** Programs *)

Inductive prog (C A : Type) : Type :=
| Ret (a : A)
| Diverge
| Panic
| ALoad (c : C) (k : Z -> prog C A)
| AStore (c : C) (v : Z) (k : prog C A)
| ARmw (c : C) (f : Z -> Z) (k : Z -> prog C A)
| ACas (weak : bool) (c : C) (old new : Z) (k : bool -> Z -> prog C A)
| ANow (k : option Z -> prog C A)
| AMono (k : Z -> prog C A)
| AWake (c : C) (k : prog C A)
| APark (c : C) (expected timeout : Z) (k : prog C A)
| ASleep (d : Z) (k : prog C A).

Arguments Ret {C A} a.
Arguments Diverge {C A}.
Arguments Panic {C A}.
Arguments ALoad {C A} c k.
Arguments AStore {C A} c v k.
Arguments ARmw {C A} c f k.
Arguments ACas {C A} weak c old new k.
Arguments ANow {C A} k.
Arguments AMono {C A} k.
Arguments AWake {C A} c k.
Arguments APark {C A} c expected timeout k.
Arguments ASleep {C A} d k.

Fixpoint bind {C A B} (p : prog C A) (f : A -> prog C B) : prog C B :=
  match p with
  | Ret a => f a
  | Diverge => Diverge
  | Panic => Panic
  | ALoad c k => ALoad c (fun v => bind (k v) f)
  | AStore c v k => AStore c v (bind k f)
  | ARmw c g k => ARmw c g (fun v => bind (k v) f)
  | ACas weak c old new k => ACas weak c old new (fun b v => bind (k b v) f)
  | ANow k => ANow (fun t => bind (k t) f)
  | AMono k => AMono (fun t => bind (k t) f)
  | AWake c k => AWake c (bind k f)
  | APark c e d k => APark c e d (bind k f)
  | ASleep d k => ASleep d (bind k f)
  end.

Declare Scope prog_scope.
Delimit Scope prog_scope with prog.
#[global] Open Scope prog_scope.

Notation "'let*' x := p 'in' q" := (bind p (fun x => q))
  (at level 10, x pattern, p at level 100, q at level 200) : prog_scope.
Notation "p ;;; q" := (bind p (fun _ => q))
  (at level 100, q at level 200, right associativity) : prog_scope.

(** Programs that make the same accesses and continue alike for every value read. *)
Inductive prog_equiv {C A} : Equiv (prog C A) :=
| pe_ret a : Ret a ≡ Ret a
| pe_diverge : Diverge ≡ Diverge
| pe_panic : Panic ≡ Panic
| pe_load c k k' : (forall v, k v ≡ k' v) -> ALoad c k ≡ ALoad c k'
| pe_store c v k k' : k ≡ k' -> AStore c v k ≡ AStore c v k'
| pe_rmw c f k k' : (forall v, k v ≡ k' v) -> ARmw c f k ≡ ARmw c f k'
| pe_cas wk c old new k k' : (forall b v, k b v ≡ k' b v) -> ACas wk c old new k ≡ ACas wk c old new k'
| pe_now k k' : (forall v, k v ≡ k' v) -> ANow k ≡ ANow k'
| pe_mono k k' : (forall v, k v ≡ k' v) -> AMono k ≡ AMono k'
| pe_wake c k k' : k ≡ k' -> AWake c k ≡ AWake c k'
| pe_park c e d k k' : k ≡ k' -> APark c e d k ≡ APark c e d k'
| pe_sleep d k k' : k ≡ k' -> ASleep d k ≡ ASleep d k'.
#[export] Existing Instance prog_equiv.

#[export] Instance prog_equivalence {C A} : Equivalence (≡@{prog C A}).
Proof.
  split.
  - intros p. induction p; by constructor.
  - intros p q H. induction H; by constructor.
  - intros p q r H. revert r. induction H; intros r Hr; inversion Hr; simplify_eq; constructor; auto.
Qed.

#[export] Instance bind_proper {C A B} :
  Proper ((≡) ==> pointwise_relation A (≡) ==> (≡)) (@bind C A B).
Proof. intros p q H f g Hfg. induction H; cbn [bind]; try (constructor; auto); apply Hfg. Qed.

Lemma bind_assoc {C A B D} (p : prog C A) (f : A -> prog C B) (g : B -> prog C D) :
  bind (bind p f) g ≡ bind p (fun a => bind (f a) g).
Proof. induction p; cbn [bind]; try (constructor; auto); reflexivity. Qed.

(** The single accesses, named after the Rust atomics' methods. *)
Definition load {C} (c : C) : prog C Z := ALoad c Ret.
Definition store {C} (c : C) (v : Z) : prog C unit := AStore c v (Ret tt).
Definition fetch_add32 {C} (c : C) (d : Z) : prog C Z := ARmw c (fun v => wrap32 (v + d)) Ret.
Definition fetch_sub32 {C} (c : C) (d : Z) : prog C Z := ARmw c (fun v => wrap32 (v - d)) Ret.
Definition fetch_add64 {C} (c : C) (d : Z) : prog C Z := ARmw c (fun v => wrap64 (v + d)) Ret.
Definition fetch_max {C} (c : C) (d : Z) : prog C Z := ARmw c (fun v => Z.max v d) Ret.
Definition swap {C} (c : C) (d : Z) : prog C Z := ARmw c (fun _ => d) Ret.
(** [Ok(_)] is [(true, old)], [Err(current)] is [(false, current)]. *)
Definition compare_exchange {C} (c : C) (old new : Z) : prog C (bool * Z) :=
  ACas false c old new (fun b v => Ret (b, v)).
Definition compare_exchange_weak {C} (c : C) (old new : Z) : prog C (bool * Z) :=
  ACas true c old new (fun b v => Ret (b, v)).
(** Nanoseconds since the epoch; [None] if the clock is before it. *)
Definition system_now {C} : prog C (option Z) := ANow Ret.
(** [Instant::now()], in nanoseconds. *)
Definition instant_now {C} : prog C Z := AMono Ret.
Definition wake_all {C} (c : C) : prog C unit := AWake c (Ret tt).
(** Block until the low 32 bits of [c] differ from [expected], a wake on [c], the
    timeout (in nanoseconds), or spuriously. *)
Definition futex_wait {C} (c : C) (expected timeout : Z) : prog C unit :=
  APark c expected timeout (Ret tt).
(** [thread::sleep], in nanoseconds. *)
Definition sleep {C} (d : Z) : prog C unit := ASleep d (Ret tt).

(** [for x in l { body }] over a body without early return. *)
Fixpoint for_each {C A} (l : list A) (body : A -> prog C unit) : prog C unit :=
  match l with
  | [] => Ret tt
  | x :: l' => body x ;;; for_each l' body
  end.

(** [for x in l { body }] whose body may return from the enclosing function. *)
Fixpoint for_return {C A B} (l : list A) (body : A -> prog C (option B)) (after : prog C B)
    : prog C B :=
  match l with
  | [] => after
  | x :: l' =>
      let* r := body x in
      match r with
      | Some b => Ret b
      | None => for_return l' body after
      end
  end.

(** ** Sequential runs *)

Inductive outcome (A : Type) : Type :=
| Done (a : A)
| Looping
| Panicked.
Arguments Done {A} a.
Arguments Looping {A}.
Arguments Panicked {A}.

(** What a run sees: the memory, the system clock, the monotonic clock, and the
    futex wakes issued so far (latest first). *)
Record world (C M : Type) : Type := mkWorld {
  w_mem : M;
  w_now : option Z;
  w_mono : Z;
  w_wakes : list C
}.
Arguments mkWorld {C M} w_mem w_now w_mono w_wakes.
Arguments w_mem {C M} w.
Arguments w_now {C M} w.
Arguments w_mono {C M} w.
Arguments w_wakes {C M} w.

Definition set_mem {C M} (w : world C M) (m : M) : world C M :=
  mkWorld m (w_now w) (w_mono w) (w_wakes w).
Definition add_wake {C M} (w : world C M) (c : C) : world C M :=
  mkWorld (w_mem w) (w_now w) (w_mono w) (c :: w_wakes w).

Definition pass_time {C M} (w : world C M) (d : Z) : world C M :=
  mkWorld (w_mem w) (fmap (fun now => now + d) (w_now w)) (w_mono w + d) (w_wakes w).

Lemma pass_time_add {C M} (w : world C M) d d' : pass_time (pass_time w d) d' = pass_time w (d + d').
Proof. destruct w as [m [now|] mono wakes]; unfold pass_time; cbn; by rewrite !Z.add_assoc. Qed.

Lemma pass_time_0 {C M} (w : world C M) : pass_time w 0 = w.
Proof. destruct w as [m [now|] mono wakes]; unfold pass_time; cbn; by rewrite !Z.add_0_r. Qed.

Section Run.
Context {C M : Type} `{Memory C M}.

(** Runs the program alone to its end. No compare-exchange fails spuriously, and
    a wait on a cell that holds the expected value lasts until its timeout. *)
Fixpoint run {A} (p : prog C A) (w : world C M) : outcome A * world C M :=
  match p with
  | Ret a => (Done a, w)
  | Diverge => (Looping, w)
  | Panic => (Panicked, w)
  | ALoad c k => run (k (mload (w_mem w) c)) w
  | AStore c v k => run k (set_mem w (mstore (w_mem w) c v))
  | ARmw c f k =>
      let v := mload (w_mem w) c in
      run (k v) (set_mem w (mstore (w_mem w) c (f v)))
  | ACas _ c old new k =>
      let v := mload (w_mem w) c in
      if v =? old then run (k true old) (set_mem w (mstore (w_mem w) c new))
      else run (k false v) w
  | ANow k => run (k (w_now w)) w
  | AMono k => run (k (w_mono w)) w
  | AWake c k => run k (add_wake w c)
  | APark c e d k => run k (if wrap32 (mload (w_mem w) c) =? e then pass_time w d else w)
  | ASleep d k => run k (pass_time w d)
  end.

Lemma run_bind {A B} (p : prog C A) (f : A -> prog C B) w :
  run (bind p f) w =
    match run p w with
    | (Done a, w') => run (f a) w'
    | (Looping, w') => (Looping, w')
    | (Panicked, w') => (Panicked, w')
    end.
Proof.
  revert w. induction p; intros w; cbn [bind run]; auto.
  destruct (_ =? _); auto.
Qed.

(** A [for] loop, by an invariant over the part already done. *)
Lemma run_for_each {A} (l : list A) (body : A -> prog C unit) (P : list A -> world C M -> Prop) w :
  (forall pre x post w0, l = pre ++ x :: post -> P pre w0 ->
     exists w1, run (body x) w0 = (Done tt, w1) /\ P (pre ++ [x]) w1) ->
  P [] w -> exists w', run (for_each l body) w = (Done tt, w') /\ P l w'.
Proof.
  intros Hstep. cut (forall post pre w0, l = pre ++ post -> P pre w0 ->
    exists w', run (for_each post body) w0 = (Done tt, w') /\ P l w').
  { intros Hg H0. by apply (Hg l [] w). }
  induction post as [|x post IH]; intros pre w0 Hl Hp; cbn [for_each].
  - exists w0. split; [done|]. by rewrite Hl, app_nil_r.
  - destruct (Hstep _ _ _ _ Hl Hp) as (w1 & Hr & Hp1).
    rewrite run_bind, Hr. apply (IH (pre ++ [x])); [|done].
    by rewrite <- app_assoc.
Qed.

(** A [for] loop whose body only reads. *)
Lemma run_for_return {B} (f : Z -> option B) (l : list Z) body after w :
  (forall x, x ∈ l -> run (body x) w = (Done (f x), w)) ->
  run (for_return l body after) w =
    match first f l with Some b => (Done b, w) | None => run after w end.
Proof.
  induction l as [|x l IH]; intros Hb; cbn [for_return first]; [done|].
  rewrite run_bind, Hb by set_solver. destruct (f x); [done|]. apply IH. set_solver.
Qed.

(** A [for] loop that returns at its first hit, whose misses change nothing. *)
Lemma run_for_return_hit {B} (hit : Z -> option Z) (l : list Z) (body : Z -> prog C (option B)) after w :
  (forall x, x ∈ l ->
     match hit x with
     | Some y => y = x /\ exists b w', run (body x) w = (Done (Some b), w')
     | None => run (body x) w = (Done None, w)
     end) ->
  run (for_return l body after) w =
    match first hit l with
    | Some x =>
        match run (body x) w with
        | (Done (Some b), w') => (Done b, w')
        | (_, w') => (Looping, w')
        end
    | None => run after w
    end.
Proof.
  induction l as [|x l IH]; intros Hb; cbn [for_return first]; [done|].
  rewrite run_bind. pose proof (Hb x ltac:(set_solver)) as Hx. destruct (hit x) as [y|].
  - destruct Hx as (-> & b & w' & ->). done.
  - rewrite Hx. apply IH. set_solver.
Qed.

End Run.

(** [run_step] symbolically executes the next operation of a run. *)
Ltac run_simpl :=
  cbn [run bind load store fetch_add32 fetch_sub32 fetch_add64 fetch_max swap
       compare_exchange compare_exchange_weak system_now instant_now wake_all futex_wait pass_time
       w_mem w_now w_mono w_wakes set_mem add_wake mload mstore cellmem_memory fst snd].

(** ** Robust memory safety

    [safe valid fits p]: whatever values the loads return (as long as they fit
    the cell), every access of [p] is to a valid cell and every value written
    fits it. A hostile process may change the shared memory at any time. *)

Section Safety.
Context {C : Type} (valid : C -> Prop) (fits : C -> Z -> Prop).

Fixpoint safe {A} (p : prog C A) : Prop :=
  match p with
  | Ret _ | Diverge | Panic => True
  | ALoad c k => valid c /\ forall v, fits c v -> safe (k v)
  | AStore c v k => valid c /\ fits c v /\ safe k
  | ARmw c f k => valid c /\ forall v, fits c v -> fits c (f v) /\ safe (k v)
  | ACas _ c old new k =>
      valid c /\ fits c new /\ forall b v, fits c v -> safe (k b v)
  | ANow k => forall t, safe (k t)
  | AMono k => forall t, safe (k t)
  | AWake c k => valid c /\ safe k
  | APark c _ _ k => valid c /\ safe k
  | ASleep _ k => safe k
  end.

(** The values a program can return under the same hostile loads. *)
Fixpoint returns {A} (p : prog C A) (Q : A -> Prop) : Prop :=
  match p with
  | Ret a => Q a
  | Diverge | Panic => True
  | ALoad c k => forall v, fits c v -> returns (k v) Q
  | AStore _ _ k => returns k Q
  | ARmw c _ k => forall v, fits c v -> returns (k v) Q
  | ACas _ c _ _ k => forall b v, fits c v -> returns (k b v) Q
  | ANow k => forall t, returns (k t) Q
  | AMono k => forall t, returns (k t) Q
  | AWake _ k => returns k Q
  | APark _ _ _ k => returns k Q
  | ASleep _ k => returns k Q
  end.

Lemma safe_bind {A B} (p : prog C A) (f : A -> prog C B) (Q : A -> Prop) :
  safe p -> returns p Q -> (forall a, Q a -> safe (f a)) -> safe (bind p f).
Proof.
  intros Hs Hr Hf.
  induction p as [a| | |c k IH|c v k IH|c g k IH|wk c old new k IH|k IH|k IH|c k IH|c e d k IH|d k IH];
    cbn [safe returns bind] in *; auto.
  - destruct Hs as [Hc Hs]. auto.
  - destruct Hs as (Hc & Hv & Hs). auto.
  - destruct Hs as [Hc Hs]. split; [done|]. intros v Hv. destruct (Hs v Hv). auto.
  - destruct Hs as (Hc & Hv & Hs). auto.
  - destruct Hs as [Hc Hs]. auto.
  - destruct Hs as [Hc Hs]. auto.
Qed.

Lemma safe_bind_any {A B} (p : prog C A) (f : A -> prog C B) :
  safe p -> (forall a, safe (f a)) -> safe (bind p f).
Proof.
  intros Hs Hf. apply (safe_bind p f (fun _ => True)); auto.
  clear Hs Hf. induction p; cbn [returns]; auto.
Qed.

Lemma returns_bind {A B} (p : prog C A) (f : A -> prog C B) P Q :
  returns p P -> (forall a, P a -> returns (f a) Q) -> returns (bind p f) Q.
Proof. intros Hp Hf. induction p; cbn [returns bind] in *; try done; eauto. Qed.

Lemma returns_weaken {A} (p : prog C A) (P Q : A -> Prop) :
  returns p P -> (forall a, P a -> Q a) -> returns p Q.
Proof. intros Hp Hf. induction p; cbn [returns] in *; try done; eauto. Qed.

Lemma returns_any {A} (p : prog C A) : returns p (fun _ => True).
Proof. induction p; cbn [returns]; auto. Qed.

Lemma safe_for_each {A} (l : list A) (body : A -> prog C unit) :
  (forall x, x ∈ l -> safe (body x)) -> safe (for_each l body).
Proof.
  induction l as [|x l IH]; cbn [for_each]; intros Hb; [done|].
  apply safe_bind_any; [apply Hb; set_solver | intros _; apply IH; set_solver].
Qed.

Lemma safe_for_return {A B} (l : list A) (body : A -> prog C (option B)) after :
  (forall x, x ∈ l -> safe (body x)) -> safe after -> safe (for_return l body after).
Proof.
  induction l as [|x l IH]; cbn [for_return]; intros Hb Ha; [done|].
  apply safe_bind_any; [apply Hb; set_solver|].
  intros [b|]; [done | apply IH; set_solver].
Qed.

Lemma returns_for_return {A B} (l : list A) (body : A -> prog C (option B)) after Q :
  (forall x, x ∈ l -> returns (body x) (fun o => forall b, o = Some b -> Q b)) ->
  returns after Q -> returns (for_return l body after) Q.
Proof.
  induction l as [|x l IH]; cbn [for_return]; intros Hb Ha; [done|].
  eapply returns_bind; [apply Hb; set_solver|].
  intros [b|] Hq; cbn [returns]; [by apply Hq | apply IH; set_solver].
Qed.

(** [p] is safe under hostile loads and returns only values of [Q]. *)
Definition robust {A} (p : prog C A) (Q : A -> Prop) : Prop :=
  safe p /\ returns p Q.

End Safety.

Lemma safe_mono {C A} (V V' : C -> Prop) fits (p : prog C A) :
  (forall c, V c -> V' c) -> safe V fits p -> safe V' fits p.
Proof. intros HV. induction p; cbn [safe]; naive_solver. Qed.

(** Rules of the judgement. *)
Section RobustRules.
Context {C : Type} {valid : C -> Prop} {fits : C -> Z -> Prop}.
Local Abbreviation robust := (robust valid fits).

Lemma rb_ret {A} (a : A) (Q : A -> Prop) : Q a -> robust (Ret a) Q.
Proof. by split. Qed.

Lemma rb_bind {A B} (p : prog C A) (f : A -> prog C B) P Q :
  robust p P -> (forall a, P a -> robust (f a) Q) -> robust (bind p f) Q.
Proof.
  intros [Hs Hr] Hf. split.
  - eapply safe_bind; [done..|]. intros a Ha. by apply Hf.
  - eapply returns_bind; [done|]. intros a Ha. by apply Hf.
Qed.

Lemma rb_weaken {A} (p : prog C A) (P Q : A -> Prop) :
  robust p P -> (forall a, P a -> Q a) -> robust p Q.
Proof. intros [Hs Hr] Hf. split; [done|]. by eapply returns_weaken. Qed.

Lemma rb_diverge {A} (Q : A -> Prop) : robust Diverge Q.
Proof. done. Qed.

Lemma rb_panic {A} (Q : A -> Prop) : robust Panic Q.
Proof. done. Qed.

Lemma rb_load c : valid c -> robust (load c) (fits c).
Proof. intros Hc. split; cbn; auto. Qed.

Lemma rb_store c v : valid c -> fits c v -> robust (store c v) (fun _ => True).
Proof. intros Hc Hv. split; cbn; auto. Qed.

Lemma rb_rmw c f : valid c -> (forall v, fits c v -> fits c (f v)) ->
  robust (ARmw c f Ret) (fits c).
Proof. intros Hc Hv. split; cbn; auto. Qed.

Lemma rb_cas wk c old new : valid c -> fits c new ->
  robust (ACas wk c old new (fun b v => Ret (b, v))) (fun '(_, v) => fits c v).
Proof. intros Hc Hv. split; cbn; auto. Qed.

Lemma rb_mono : robust instant_now (fun _ => True).
Proof. by split. Qed.

Lemma rb_now : robust system_now (fun _ => True).
Proof. by split. Qed.

Lemma rb_wake c : valid c -> robust (wake_all c) (fun _ => True).
Proof. intros Hc. by split. Qed.

Lemma rb_park c e d : valid c -> robust (futex_wait c e d) (fun _ => True).
Proof. intros Hc. by split. Qed.

Lemma rb_for_each {A} (l : list A) (body : A -> prog C unit) :
  (forall x, x ∈ l -> robust (body x) (fun _ => True)) ->
  robust (for_each l body) (fun _ => True).
Proof.
  induction l as [|x l IH]; intros Hb; cbn [for_each]; [by apply rb_ret|].
  eapply rb_bind; [apply Hb; set_solver|]. intros _ _. apply IH. set_solver.
Qed.

Lemma rb_for_return {A B} (l : list A) (body : A -> prog C (option B)) after (Q : B -> Prop) :
  (forall x, x ∈ l -> robust (body x) (fun o => forall b, o = Some b -> Q b)) ->
  robust after Q -> robust (for_return l body after) Q.
Proof.
  intros Hb [Ha1 Ha2]. split.
  - apply safe_for_return; [|done]. intros x Hx. by apply Hb.
  - apply returns_for_return; [|done]. intros x Hx. by apply Hb.
Qed.

End RobustRules.

(** ** Two memories that agree

    A program that is safe for the cells two memories agree on runs the same on
    both: the cell-level theorems carry over to the byte-level memory. *)

Section Simulation.
Context {C M1 M2 : Type} `{Memory C M1} `{Memory C M2}.
Context (valid : C -> Prop) (fits : C -> Z -> Prop).
Context `{!EqDecision C} `{!MemoryLaws C M1 valid fits}
  `{!MemoryLaws C M2 valid fits}.

Definition agree (m1 : M1) (m2 : M2) : Prop :=
  forall c, valid c -> mload m1 c = mload m2 c.

Definition wagree (w1 : world C M1) (w2 : world C M2) : Prop :=
  agree (w_mem w1) (w_mem w2) /\ w_now w1 = w_now w2 /\ w_mono w1 = w_mono w2 /\
  w_wakes w1 = w_wakes w2.

Lemma agree_mstore m1 m2 c v :
  agree m1 m2 -> valid c -> fits c v -> agree (mstore m1 c v) (mstore m2 c v).
Proof.
  intros Ha Hc Hv c' Hc'. destruct (decide (c = c')) as [<-|Hne].
  - rewrite !(mload_mstore_eq (valid := valid) (fits := fits)); auto.
  - rewrite !(mload_mstore_ne (valid := valid) (fits := fits)); auto.
Qed.

Lemma mem_fits_mstore (m : M2) c v :
  mem_fits valid fits m -> valid c -> fits c v -> mem_fits valid fits (mstore m c v).
Proof.
  intros Hm Hc Hv c' Hc'. destruct (decide (c = c')) as [<-|Hne].
  - by rewrite (mload_mstore_eq (valid := valid) (fits := fits)).
  - rewrite (mload_mstore_ne (valid := valid) (fits := fits)); auto.
Qed.

Lemma run_agree {A} (p : prog C A) w1 w2 :
  safe valid fits p -> wagree w1 w2 -> mem_fits valid fits (w_mem w2) ->
  (run p w1).1 = (run p w2).1 /\ wagree (run p w1).2 (run p w2).2 /\ mem_fits valid fits (w_mem (run p w2).2).
Proof.
  revert w1 w2. induction p as
    [a| | |c k IH|c v k IH|c f k IH|wk c old new k IH|k IH|k IH|c k IH|c e d k IH|d k IH];
    intros w1 w2 Hs (Hm & Hn & Ho & Hk) Hft; cbn [run safe fst snd] in *;
    try (split; [done | split; [by repeat split | done]]).
  - destruct Hs as [Hc Hs]. rewrite (Hm c Hc). apply IH; [|by repeat split|done].
    by apply Hs, Hft.
  - destruct Hs as (Hc & Hv & Hs). apply IH; [done| |by apply mem_fits_mstore].
    repeat split; try done. by apply agree_mstore.
  - destruct Hs as (Hc & Hs). rewrite (Hm c Hc).
    destruct (Hs (mload (w_mem w2) c)) as [Hv Hs']; [by apply Hft|].
    apply IH; [done| |by apply mem_fits_mstore]. repeat split; try done. by apply agree_mstore.
  - destruct Hs as (Hc & Hv & Hs). rewrite (Hm c Hc). pose proof (Hft c Hc) as Hf.
    destruct (Z.eqb_spec (mload (w_mem w2) c) old) as [<-|_].
    + apply IH; [by apply Hs| |by apply mem_fits_mstore].
      repeat split; try done. by apply agree_mstore.
    + apply IH; [by apply Hs | by repeat split | done].
  - rewrite Hn. by apply IH.
  - rewrite Ho. by apply IH.
  - destruct Hs as (Hc & Hs). apply IH; [done| |done]. repeat split; try done.
    cbn. by f_equal.
  - destruct Hs as (Hc & Hs). rewrite (Hm c Hc). destruct (_ =? _).
    + apply IH; [done| |done]. repeat split; cbn; by rewrite ?Hn, ?Ho.
    + apply IH; [done| |done]. by repeat split.
  - apply IH; [done| |done]. repeat split; cbn; by rewrite ?Hn, ?Ho.
Qed.

End Simulation.
