(* ===== verification/Rely.v ===== *)
(** * Rely: interleavings and a rely-guarantee logic with ghost state

    [cstep] interleaves any number of programs, one atomic access at a time, over
    one shared memory. Executions are instrumented with two history variables:
    how often each cell was successfully compare-exchanged ([hs_cas]) and what
    that count was when a thread last read the cell ([hs_seen]). They express the
    one scheduling assumption the 32-bit generation counter of the block pool
    needs: where [window] bounds a cell, a compare-exchange of it succeeds only
    within that many exchanges of the cell since the thread last read it.

    [wp] is a rely-guarantee weakest precondition over a ghost state: each access
    must, from any state its environment may have moved to, re-establish the
    invariant after updating the ghost state, within the thread's guarantee.
    [wp_sound] is its soundness for [cstep]. *)

From S2P Require Import Prelude Atomics.

(** ** Interleavings *)

Record hstate (C : Type) : Type := mkH {
  hs_mem : cellmem C;
  hs_cas : C -> Z;
  hs_seen : nat -> C -> Z
}.
Arguments mkH {C} hs_mem hs_cas hs_seen.
Arguments hs_mem {C} h.
Arguments hs_cas {C} h.
Arguments hs_seen {C} h.

Section Machine.
Context {C : Type} `{EqDecision C}.

(** Thread [t] reads [c]. *)
Definition h_see (t : nat) (c : C) (s : hstate C) : hstate C :=
  mkH (hs_mem s) (hs_cas s)
      (fun t' c' => if decide (t = t' /\ c = c') then hs_cas s c else hs_seen s t' c').

(** A store (or read-modify-write) to [c]. *)
Definition h_set (c : C) (v : Z) (s : hstate C) : hstate C :=
  mkH (upd (hs_mem s) c v) (hs_cas s) (hs_seen s).

(** A successful compare-exchange of [c]. *)
Definition h_cas (c : C) (v : Z) (s : hstate C) : hstate C :=
  mkH (upd (hs_mem s) c v) (fun c' => if decide (c = c') then hs_cas s c + 1 else hs_cas s c')
      (hs_seen s).

Definition in_window (window : C -> option Z) (t : nat) (c : C) (s : hstate C) : Prop :=
  match window c with
  | Some w => hs_cas s c - hs_seen s t c < w
  | None => True
  end.

(** One access of thread [t]. *)
Inductive tstep {A} (window : C -> option Z) (t : nat) : prog C A -> hstate C -> prog C A -> hstate C -> Prop :=
| ts_load c k s :
    tstep window t (ALoad c k) s (k (hs_mem s c)) (h_see t c s)
| ts_store c v k s :
    tstep window t (AStore c v k) s k (h_set c v s)
| ts_rmw c f k s :
    tstep window t (ARmw c f k) s (k (hs_mem s c)) (h_set c (f (hs_mem s c)) s)
| ts_cas_ok wk c old new k s :
    hs_mem s c = old -> in_window window t c s ->
    tstep window t (ACas wk c old new k) s (k true old) (h_cas c new s)
| ts_cas_fail wk c old new k s :
    hs_mem s c <> old \/ wk = true ->
    tstep window t (ACas wk c old new k) s (k false (hs_mem s c)) (h_see t c s)
| ts_now k s now :
    tstep window t (ANow k) s (k now) s
| ts_mono k s now :
    tstep window t (AMono k) s (k now) s
| ts_wake c k s :
    tstep window t (AWake c k) s k s
| ts_park c e d k s :
    tstep window t (APark c e d k) s k s
| ts_sleep d k s :
    tstep window t (ASleep d k) s k s.

(** One step of the thread pool. *)
Inductive cstep {A} (window : C -> option Z) : list (prog C A) * hstate C -> list (prog C A) * hstate C -> Prop :=
| cs_thread ps s t p p' s' :
    ps !! t = Some p -> tstep window t p s p' s' ->
    cstep window (ps, s) (<[t := p']> ps, s').

(** A step of the thread pool taken by thread [t]. *)
Definition steps_of {A} (window : C -> option Z) (t : nat) (x y : list (prog C A) * hstate C) : Prop :=
  exists p p', x.1 !! t = Some p /\ tstep window t p x.2 p' y.2 /\ y.1 = <[t := p']> x.1.

(** One executable step: exchanges succeed when they can, clocks read [now] and 0. *)
Definition exec_step {A} (window : C -> option Z) (now : option Z) (t : nat) (p : prog C A)
    (s : hstate C) : option (prog C A * hstate C) :=
  match p with
  | Ret _ | Diverge | Panic => None
  | ALoad c k => Some (k (hs_mem s c), h_see t c s)
  | AStore c v k => Some (k, h_set c v s)
  | ARmw c f k => Some (k (hs_mem s c), h_set c (f (hs_mem s c)) s)
  | ACas wk c old new k =>
      if hs_mem s c =? old then
        match window c with
        | None => Some (k true old, h_cas c new s)
        | Some w => if hs_cas s c - hs_seen s t c <? w then Some (k true old, h_cas c new s) else None
        end
      else Some (k false (hs_mem s c), h_see t c s)
  | ANow k => Some (k now, s)
  | AMono k => Some (k 0, s)
  | AWake _ k => Some (k, s)
  | APark _ _ _ k => Some (k, s)
  | ASleep _ k => Some (k, s)
  end.

(** Run thread [t] for up to [n] steps. *)
Fixpoint exec_thread {A} (window : C -> option Z) (now : option Z) (t : nat) (n : nat)
    (p : prog C A) (s : hstate C) : prog C A * hstate C :=
  match n with
  | O => (p, s)
  | S n' =>
      match exec_step window now t p s with
      | Some (p', s') => exec_thread window now t n' p' s'
      | None => (p, s)
      end
  end.

(** Run a schedule: which thread, for how many steps. *)
Fixpoint exec {A} (window : C -> option Z) (now : option Z) (sched : list (nat * nat))
    (ps : list (prog C A)) (s : hstate C) : list (prog C A) * hstate C :=
  match sched with
  | [] => (ps, s)
  | (t, n) :: sched' =>
      match ps !! t with
      | Some p =>
          let '(p', s') := exec_thread window now t n p s in
          exec window now sched' (<[t := p']> ps) s'
      | None => exec window now sched' ps s
      end
  end.

Lemma exec_step_sound {A} window now t (p p' : prog C A) s s' :
  exec_step window now t p s = Some (p', s') -> tstep window t p s p' s'.
Proof.
  destruct p as [a| | |c k|c v k|c f k|wk c old new k|k|k|c k|c e d k|d k]; cbn; intros H;
    simplify_eq; try constructor.
  destruct (Z.eqb_spec (hs_mem s c) old) as [He|He].
  - destruct (window c) as [w|] eqn:Hw.
    + destruct (Z.ltb_spec (hs_cas s c - hs_seen s t c) w); [|done]. simplify_eq.
      constructor; [done|]. unfold in_window. by rewrite Hw.
    + simplify_eq. constructor; [done|]. unfold in_window. by rewrite Hw.
  - simplify_eq. constructor. by left.
Qed.

Lemma exec_thread_sound {A} window now t n (ps : list (prog C A)) p s :
  ps !! t = Some p ->
  rtc (cstep window) (ps, s)
    (<[t := (exec_thread window now t n p s).1]> ps, (exec_thread window now t n p s).2).
Proof.
  revert ps p s. induction n as [|n IH]; intros ps p s Hp; cbn [exec_thread].
  - cbn. rewrite list_insert_id by done. apply rtc_refl.
  - destruct (exec_step window now t p s) as [[p' s']|] eqn:He.
    + eapply rtc_l; [apply (cs_thread _ _ _ _ _ p' s' Hp); by apply exec_step_sound in He|].
      assert (Hp' : <[t := p']> ps !! t = Some p')
        by (apply list_lookup_insert_eq; by eapply lookup_lt_Some).
      specialize (IH _ p' s' Hp'). by rewrite list_insert_insert_eq in IH.
    + cbn. rewrite list_insert_id by done. apply rtc_refl.
Qed.

(** What a schedule computes is reachable. *)
Lemma exec_sound {A} window now sched (ps : list (prog C A)) s :
  rtc (cstep window) (ps, s) (exec window now sched ps s).
Proof.
  revert ps s. induction sched as [|[t n] sched IH]; intros ps s; cbn [exec]; [apply rtc_refl|].
  destruct (ps !! t) as [p|] eqn:Hp; [|apply IH].
  destruct (exec_thread window now t n p s) as [p' s'] eqn:He.
  etransitivity; [|apply IH]. pose proof (exec_thread_sound window now t n ps p s Hp) as Hr.
  by rewrite He in Hr.
Qed.

(** Equivalent programs make the same steps. *)
Lemma tstep_equiv {A} window t (p p' q : prog C A) s s' :
  p ≡ q -> tstep window t p s p' s' -> exists q', tstep window t q s q' s' /\ p' ≡ q'.
Proof.
  intros He Hs. destruct Hs; inversion He; simplify_eq; eexists; split; try (constructor; done); auto.
Qed.

(** A step of the first program of a sequence. *)
Lemma tstep_bind {A B} window t (p p' : prog C A) (f : A -> prog C B) s s' :
  tstep window t p s p' s' -> tstep window t (bind p f) s (bind p' f) s'.
Proof.
  intros Hs. destruct Hs as [c k s|c v k s|c g k s|wk c old new k s Hm Hw|wk c old new k s Hm|k s v|k s v|c k s|c e d k s|d k s];
    cbn [bind].
  - exact (ts_load _ _ c (fun v => bind (k v) f) s).
  - apply ts_store.
  - exact (ts_rmw _ _ c g (fun v => bind (k v) f) s).
  - exact (ts_cas_ok _ _ wk c old new (fun b v => bind (k b v) f) s Hm Hw).
  - exact (ts_cas_fail _ _ wk c old new (fun b v => bind (k b v) f) s Hm).
  - exact (ts_now _ _ (fun v => bind (k v) f) s v).
  - exact (ts_mono _ _ (fun v => bind (k v) f) s v).
  - apply ts_wake.
  - apply ts_park.
  - apply ts_sleep.
Qed.

Lemma tstep_bind_inv {A B} window t (p : prog C A) (f : A -> prog C B) q s s' :
  tstep window t (bind p f) s q s' ->
  (exists a, p = Ret a /\ tstep window t (f a) s q s') \/
  exists p', q = bind p' f /\ tstep window t p s p' s'.
Proof.
  intros Hs. destruct p as [a| | |c k|c v k|c g k|wk c old new k|k|k|c k|c e d k|d k]; cbn [bind] in Hs;
    [by left; exists a|right..]; inversion Hs; simplify_eq; eexists; (split; [reflexivity|by constructor]).
Qed.

(** Initially nothing was exchanged and nothing read. *)
Definition h_init (m : cellmem C) : hstate C := mkH m (fun _ => 0) (fun _ _ => 0).

End Machine.

(** ** The logic *)

Section Logic.
Context {C Gh : Type} `{EqDecision C}.
Context (window : C -> option Z).
Local Abbreviation st := (Gh * hstate C)%type.
(** Invariant, rely and guarantee. *)
Context (Inv : st -> Prop) (Rely Guar : nat -> st -> st -> Prop).
Context {Rely_pre : forall t, PreOrder (Rely t)}.
Hypothesis (Guar_Rely : forall t t' σ σ', t <> t' -> Guar t σ σ' -> Rely t' σ σ').

(** The next access leads to memory state [s'], with some ghost update. *)
Definition establishes (t : nat) (σ : st) (s' : hstate C) (K : st -> Prop) : Prop :=
  exists g', Guar t σ (g', s') /\ Inv (g', s') /\ K (g', s').

Fixpoint wp {A} (t : nat) (p : prog C A) (Q : A -> st -> Prop) (σ0 : st) : Prop :=
  forall σ, Rely t σ0 σ -> Inv σ ->
  match p with
  | Ret a => Q a σ
  | Diverge => True
  | Panic => False
  | ALoad c k =>
      establishes t σ (h_see t c σ.2) (wp t (k (hs_mem σ.2 c)) Q)
  | AStore c v k =>
      establishes t σ (h_set c v σ.2) (wp t k Q)
  | ARmw c f k =>
      establishes t σ (h_set c (f (hs_mem σ.2 c)) σ.2) (wp t (k (hs_mem σ.2 c)) Q)
  | ACas wk c old new k =>
      (hs_mem σ.2 c = old -> in_window window t c σ.2 ->
         establishes t σ (h_cas c new σ.2) (wp t (k true old) Q)) /\
      (hs_mem σ.2 c <> old \/ wk = true ->
         establishes t σ (h_see t c σ.2) (wp t (k false (hs_mem σ.2 c)) Q))
  | ANow k => forall now, wp t (k now) Q σ
  | AMono k => forall now, wp t (k now) Q σ
  | AWake _ k => wp t k Q σ
  | APark _ _ _ k => wp t k Q σ
  | ASleep _ k => wp t k Q σ
  end.

(** The environment may move first. *)
Lemma wp_rely {A} t (p : prog C A) Q σ σ' :
  wp t p Q σ -> Rely t σ σ' -> wp t p Q σ'.
Proof.
  intros Hw Hr. destruct p; cbn [wp] in Hw |- *; intros σ'' Hr'; refine (Hw σ'' _);
    (etransitivity; [exact Hr | exact Hr']).
Qed.

Lemma wp_later {A} t (p : prog C A) Q σ :
  (forall σ', Rely t σ σ' -> Inv σ' -> wp t p Q σ') -> wp t p Q σ.
Proof.
  intros Hw. destruct p; cbn [wp] in Hw |- *; intros σ' Hr Hi;
    apply (Hw σ' Hr Hi σ'); [reflexivity|done| ..]; try reflexivity; done.
Qed.

Lemma wp_mono {A} t (p : prog C A) (Q Q' : A -> st -> Prop) σ :
  wp t p Q σ -> (forall a σ', Q a σ' -> Q' a σ') -> wp t p Q' σ.
Proof.
  intros Hw HQ. revert σ Hw.
  induction p as [a| | |c k IH|c v k IH|c f k IH|wk c old new k IH|k IH|k IH|c k IH|c e d k IH|d k IH];
    intros σ Hw; cbn [wp] in *; intros σ' Hr Hi; specialize (Hw σ' Hr Hi); auto;
    unfold establishes in *.
  - destruct Hw as (g & ? & ? & ?); eauto 6.
  - destruct Hw as (g & ? & ? & ?); eauto 6.
  - destruct Hw as (g & ? & ? & ?); eauto 6.
  - destruct Hw as [H1 H2]. split.
    + intros Ho Hwin. destruct (H1 Ho Hwin) as (g' & ? & ? & ?). eauto 6.
    + intros Ho. destruct (H2 Ho) as (g' & ? & ? & ?). eauto 6.
Qed.

Lemma wp_bind {A B} t (p : prog C A) (f : A -> prog C B) Q σ :
  wp t p (fun a => wp t (f a) Q) σ -> wp t (bind p f) Q σ.
Proof.
  revert σ.
  induction p as [a| | |c k IH|c v k IH|c g k IH|wk c old new k IH|k IH|k IH|c k IH|c e d k IH|d k IH];
    intros σ Hw; cbn [bind].
  2-12: cbn [wp] in *; intros σ' Hr Hi; specialize (Hw σ' Hr Hi); auto; unfold establishes in *.
  - by apply wp_later.
  - destruct Hw as (g & ? & ? & ?); eauto 6.
  - destruct Hw as (g & ? & ? & ?); eauto 6.
  - destruct Hw as (g' & ? & ? & ?); eauto 6.
  - destruct Hw as [H1 H2]. split.
    + intros Ho Hwin. destruct (H1 Ho Hwin) as (g' & ? & ? & ?). eauto 6.
    + intros Ho. destruct (H2 Ho) as (g' & ? & ? & ?). eauto 6.
Qed.

Lemma wp_ret {A} t (a : A) (Q : A -> st -> Prop) σ :
  (forall σ', Rely t σ σ' -> Inv σ' -> Q a σ') -> wp t (Ret a) Q σ.
Proof. done. Qed.

(** Every thread's program is verified in the current state. *)
Definition pool_ok {A} (Q : nat -> A -> st -> Prop) (ps : list (prog C A)) (σ : st) : Prop :=
  Inv σ /\ forall t p, ps !! t = Some p -> wp t p (Q t) σ.

Lemma tstep_wp {A} t (p p' : prog C A) (Q : A -> st -> Prop) g s s' :
  tstep window t p s p' s' -> Inv (g, s) -> wp t p Q (g, s) ->
  exists g', (Guar t (g, s) (g', s') \/ (g', s') = (g, s)) /\ Inv (g', s') /\ wp t p' Q (g', s').
Proof.
  intros Hs Hi Hw. pose proof (reflexivity (R := Rely t) (g, s)) as Hr.
  destruct Hs; cbn [wp] in Hw; specialize (Hw _ Hr Hi); unfold establishes in *; cbn [snd] in *.
  - destruct Hw as (g' & ? & ? & ?); eauto 8.
  - destruct Hw as (g' & ? & ? & ?); eauto 8.
  - destruct Hw as (g' & ? & ? & ?); eauto 8.
  - destruct Hw as [Hw _]. destruct Hw as (g' & ? & ? & ?); eauto 8.
  - destruct Hw as [_ Hw]. destruct Hw as (g' & ? & ? & ?); eauto 8.
  - eauto 8.
  - eauto 8.
  - eauto 8.
  - eauto 8.
  - eauto 8.
Qed.

Lemma pool_ok_thread {A} (Q : nat -> A -> st -> Prop) t ps s ps' s' g :
  steps_of window t (ps, s) (ps', s') -> pool_ok Q ps (g, s) ->
  exists g', (Guar t (g, s) (g', s') \/ (g', s') = (g, s)) /\ pool_ok Q ps' (g', s').
Proof.
  intros (p & p' & Hp & Ht & He) [Hi Hw]. cbn in Hp, Ht, He. subst ps'.
  destruct (tstep_wp t p p' (Q t) g s s' Ht Hi (Hw t p Hp)) as (g' & Hg & Hi' & Hw').
  exists g'. split; [done|]. split; [done|]. intros t' q Hq.
  destruct (decide (t = t')) as [<-|Hne].
  - rewrite list_lookup_insert_eq in Hq by (by eapply lookup_lt_Some). by simplify_eq.
  - rewrite list_lookup_insert_ne in Hq by done. eapply wp_rely; [by apply Hw|].
    destruct Hg as [Hg|[= -> ->]]; [by eapply Guar_Rely|reflexivity].
Qed.

(** A run keeps the threads verified, and what every guarantee preserves. *)
Lemma pool_ok_run {A} (R : st -> st -> Prop) `{!PreOrder R} (Q : nat -> A -> st -> Prop) ps s ps' s' g :
  (forall t σ σ', Guar t σ σ' -> R σ σ') ->
  pool_ok Q ps (g, s) -> rtc (cstep window) (ps, s) (ps', s') ->
  exists g', pool_ok Q ps' (g', s') /\ R (g, s) (g', s').
Proof.
  intros HR Hok Hs. remember (ps, s) as x eqn:Hx. remember (ps', s') as y eqn:Hy.
  revert ps s g Hx Hok. induction Hs as [x|x [ps1 s1] y Hst Hs IH]; intros; subst.
  - simplify_eq. exists g. split; [done|reflexivity].
  - assert (exists t, steps_of window t (ps, s) (ps1, s1)) as [t Ht].
    { inversion Hst as [? ? t p p' ? Hp Ht]; subst. exists t, p, p'. done. }
    destruct (pool_ok_thread Q t ps s ps1 s1 g Ht Hok) as (g1 & Hg & Hok1).
    destruct (IH eq_refl _ _ _ eq_refl Hok1) as (g' & Hok' & Hr). exists g'. split; [done|].
    destruct Hg as [Hg%HR|E]; [by etransitivity|by rewrite <- E].
Qed.

(** Soundness: verified threads keep the invariant in every reachable state, a
    thread that has returned satisfies its postcondition, and none panics. *)
Lemma wp_sound {A} (Q : nat -> A -> st -> Prop) ps s ps' s' g :
  pool_ok Q ps (g, s) -> rtc (cstep window) (ps, s) (ps', s') ->
  exists g', Inv (g', s') /\
    (forall t a, ps' !! t = Some (Ret a) -> Q t a (g', s')) /\
    (forall t, ps' !! t <> Some Panic).
Proof.
  intros Hok Hs. assert (PreOrder (fun _ _ : st => True)) by (by split).
  destruct (pool_ok_run (fun _ _ => True) Q ps s ps' s' g) as (g' & [Hi Hw] & _); [done..|].
  pose proof (fun t => reflexivity (R := Rely t) (g', s')) as Hr.
  exists g'. split; [done|]. split.
  - intros t a Hp. exact (Hw t _ Hp _ (Hr t) Hi).
  - intros t Hp. exact (Hw t _ Hp _ (Hr t) Hi).
Qed.

End Logic.

(** Equivalent invariants verify the same programs. *)
Lemma wp_inv {C Gh A : Type} `{EqDecision C} window (Inv Inv' : Gh * hstate C -> Prop) Rely Guar t
    (p : prog C A) Q σ :
  (forall σ, Inv σ <-> Inv' σ) -> wp window Inv Rely Guar t p Q σ -> wp window Inv' Rely Guar t p Q σ.
Proof.
  intros Hi. revert σ.
  induction p as [a| | |c k IH|c v k IH|c f k IH|wk c old new k IH|k IH|k IH|c k IH|c e d k IH|d k IH];
    intros σ Hw; cbn [wp] in *; intros σ' Hr Hσ%Hi; specialize (Hw σ' Hr Hσ); auto; unfold establishes in *.
  - destruct Hw as (g & ? & ?%Hi & ?); eauto 6.
  - destruct Hw as (g & ? & ?%Hi & ?); eauto 6.
  - destruct Hw as (g & ? & ?%Hi & ?); eauto 6.
  - destruct Hw as [H1 H2]. split.
    + intros Ho Hwin. destruct (H1 Ho Hwin) as (g' & ? & ?%Hi & ?). eauto 6.
    + intros Ho. destruct (H2 Ho) as (g' & ? & ?%Hi & ?). eauto 6.
Qed.

(** ** Hoare triples

    [hoare t P p Q]: from any state of [P], which the environment of [t] preserves,
    [p] run by [t] is verified and ends in [Q]. *)

Section Hoare.
Context {C Gh : Type} `{EqDecision C}.
Context (window : C -> option Z).
Local Abbreviation st := (Gh * hstate C)%type.
Context (Inv : st -> Prop) (Rely Guar : nat -> st -> st -> Prop).
Context {Rely_pre : forall t, PreOrder (Rely t)}.

Definition kept (t : nat) (P : st -> Prop) : Prop := forall σ σ', P σ -> Rely t σ σ' -> P σ'.

Definition hoare {A} (t : nat) (P : st -> Prop) (p : prog C A) (Q : A -> st -> Prop) : Prop :=
  forall σ, P σ -> wp window Inv Rely Guar t p Q σ.

Lemma hoare_bind {A B} t P (p : prog C A) (f : A -> prog C B) R Q :
  hoare t P p R -> (forall a, hoare t (R a) (f a) Q) -> hoare t P (bind p f) Q.
Proof.
  intros Hp Hf σ Hσ. apply wp_bind; [apply _|]. eapply wp_mono; [by apply Hp|].
  intros a σ'. apply Hf.
Qed.

Lemma hoare_pre {A} t (P P' : st -> Prop) (p : prog C A) Q :
  hoare t P' p Q -> (forall σ, P σ -> P' σ) -> hoare t P p Q.
Proof. intros Ht Hi σ Hσ. auto. Qed.

Lemma hoare_post {A} t P (p : prog C A) (Q Q' : A -> st -> Prop) :
  hoare t P p Q -> (forall a σ, Q a σ -> Q' a σ) -> hoare t P p Q'.
Proof. intros Ht Hi σ Hσ. eapply wp_mono; [by apply Ht | apply Hi]. Qed.

Lemma hoare_ret {A} t P (a : A) (Q : A -> st -> Prop) :
  kept t P -> (forall σ, P σ -> Inv σ -> Q a σ) -> hoare t P (Ret a) Q.
Proof. intros Hs HQ σ Hσ σ' Hr Hi. apply HQ; [by eapply Hs | done]. Qed.

Lemma hoare_diverge {A} t P (Q : A -> st -> Prop) : hoare t P Diverge Q.
Proof. by intros σ _ σ' _ _. Qed.

Lemma hoare_pure {A} t (φ : Prop) P (p : prog C A) Q :
  (φ -> hoare t P p Q) -> hoare t (fun σ => φ /\ P σ) p Q.
Proof. intros Ht σ [Hφ Hσ]. by apply Ht. Qed.

Lemma hoare_exists {A X} t (P : X -> st -> Prop) (p : prog C A) Q :
  (forall x, hoare t (P x) p Q) -> hoare t (fun σ => exists x, P x σ) p Q.
Proof. intros Ht σ [x Hσ]. by eapply Ht. Qed.

(** What the next access, leading to memory [s'], must re-establish. *)
Definition moves (t : nat) (σ : st) (s' : hstate C) (P' : st -> Prop) : Prop :=
  exists g', Guar t σ (g', s') /\ Inv (g', s') /\ P' (g', s').

Lemma hoare_load {A} t c (k : Z -> prog C A) P P' Q :
  kept t P ->
  (forall σ, P σ -> Inv σ -> moves t σ (h_see t c σ.2) (P' (hs_mem σ.2 c))) ->
  (forall v, hoare t (P' v) (k v) Q) -> hoare t P (ALoad c k) Q.
Proof.
  intros Hs HP Hk σ0 H0 σ Hr Hi. destruct (HP σ) as (g' & ? & ? & ?); [by eapply Hs|done|].
  exists g'. split; [done|]. split; [done|]. by apply Hk.
Qed.

Lemma hoare_store {A} t c v (k : prog C A) P P' Q :
  kept t P -> (forall σ, P σ -> Inv σ -> moves t σ (h_set c v σ.2) P') ->
  hoare t P' k Q -> hoare t P (AStore c v k) Q.
Proof.
  intros Hs HP Hk σ0 H0 σ Hr Hi. destruct (HP σ) as (g' & ? & ? & ?); [by eapply Hs|done|].
  exists g'. auto.
Qed.

Lemma hoare_rmw {A} t c f (k : Z -> prog C A) P P' Q :
  kept t P ->
  (forall σ, P σ -> Inv σ -> moves t σ (h_set c (f (hs_mem σ.2 c)) σ.2) (P' (hs_mem σ.2 c))) ->
  (forall v, hoare t (P' v) (k v) Q) -> hoare t P (ARmw c f k) Q.
Proof.
  intros Hs HP Hk σ0 H0 σ Hr Hi. destruct (HP σ) as (g' & ? & ? & ?); [by eapply Hs|done|].
  exists g'. split; [done|]. split; [done|]. by apply Hk.
Qed.

Lemma hoare_wake {A} t c (k : prog C A) P Q :
  kept t P -> hoare t P k Q -> hoare t P (AWake c k) Q.
Proof. intros Hs Hk σ0 H0 σ Hr Hi. apply Hk. by eapply Hs. Qed.

Lemma kept_conj t (P P' : st -> Prop) : kept t P -> kept t P' -> kept t (fun σ => P σ /\ P' σ).
Proof. intros H1 H2 σ σ' [A B] Hr. split; [by eapply H1|by eapply H2]. Qed.

(** A compare-exchange fails on a different value, or spuriously if it is weak. *)
Lemma hoare_cas_fail {A} t wk c old new (k : bool -> Z -> prog C A) P P1 P2 Q :
  kept t P ->
  (forall σ, P σ -> Inv σ -> hs_mem σ.2 c = old -> moves t σ (h_cas c new σ.2) P1) ->
  (forall σ, P σ -> Inv σ -> hs_mem σ.2 c <> old \/ wk = true ->
     moves t σ (h_see t c σ.2) (P2 (hs_mem σ.2 c))) ->
  hoare t P1 (k true old) Q -> (forall v, hoare t (P2 v) (k false v) Q) ->
  hoare t P (ACas wk c old new k) Q.
Proof.
  intros Hs H1 H2 Hk1 Hk2 σ0 H0 σ Hr Hi. assert (Hσ : P σ) by by eapply Hs. split.
  - intros Ho _. destruct (H1 σ Hσ Hi Ho) as (g' & ? & ? & ?). exists g'. auto.
  - intros Ho. destruct (H2 σ Hσ Hi Ho) as (g' & ? & ? & ?). exists g'.
    split; [done|]. split; [done|]. by apply Hk2.
Qed.

Lemma hoare_cas {A} t wk c old new (k : bool -> Z -> prog C A) P P1 P2 Q :
  kept t P ->
  (forall σ, P σ -> Inv σ -> hs_mem σ.2 c = old -> moves t σ (h_cas c new σ.2) P1) ->
  (forall σ, P σ -> Inv σ -> moves t σ (h_see t c σ.2) (P2 (hs_mem σ.2 c))) ->
  hoare t P1 (k true old) Q -> (forall v, hoare t (P2 v) (k false v) Q) ->
  hoare t P (ACas wk c old new k) Q.
Proof. intros Hs H1 H2. eapply hoare_cas_fail; eauto. Qed.

Lemma hoare_now {A} t (k : option Z -> prog C A) P Q :
  kept t P -> (forall v, hoare t P (k v) Q) -> hoare t P (ANow k) Q.
Proof. intros Hs Hk σ0 H0 σ Hr Hi v. apply Hk. by eapply Hs. Qed.

Lemma hoare_instant {A} t (k : Z -> prog C A) P Q :
  kept t P -> (forall v, hoare t P (k v) Q) -> hoare t P (AMono k) Q.
Proof. intros Hs Hk σ0 H0 σ Hr Hi v. apply Hk. by eapply Hs. Qed.

(** A [for] loop that may return, by an invariant over the part already done. *)
Lemma hoare_for_return {X B} t (l : list X) (body : X -> prog C (option B)) after
    (I : list X -> st -> Prop) (Q : B -> st -> Prop) :
  (forall pre x post, l = pre ++ x :: post ->
     hoare t (I pre) (body x)
       (fun r σ => match r with Some b => Q b σ | None => I (pre ++ [x]) σ end)) ->
  (forall b, kept t (Q b)) -> hoare t (I l) after Q -> hoare t (I []) (for_return l body after) Q.
Proof.
  intros Hb HQ Ha. cut (forall post pre, l = pre ++ post -> hoare t (I pre) (for_return post body after) Q).
  { intros Hg. by apply Hg. }
  induction post as [|x post IH]; intros pre Hl; cbn [for_return].
  - rewrite app_nil_r in Hl. by subst.
  - eapply hoare_bind; [by eapply Hb|]. intros [b|]; cbn beta iota.
    + apply hoare_ret; [apply HQ|done].
    + apply IH. by rewrite <- app_assoc.
Qed.

(** Frame rule: what no thread's steps disturb stays true during a program. *)
Lemma hoare_frame {A} t P (p : prog C A) Q (R : st -> Prop) :
  (forall t t' σ σ', t <> t' -> Guar t σ σ' -> Rely t' σ σ') -> (forall t', kept t' R) ->
  hoare t P p Q -> hoare t (fun σ => P σ /\ R σ) p (fun a σ => Q a σ /\ R σ).
Proof.
  intros Hg HR Hp σ [HP Hσ]. specialize (Hp σ HP). clear HP P.
  assert (Hown : forall σ σ', R σ -> Guar t σ σ' -> R σ').
  { intros σ1 σ2 H1 H2. apply (HR (S t) σ1); [done|]. by apply (Hg t); [lia|]. }
  revert σ Hp Hσ.
  induction p as [a| | |c k IH|c v k IH|c f k IH|wk c old new k IH|k IH|k IH|c k IH|c e d k IH|d k IH];
    intros σ Hw Hσ; cbn [wp] in *; intros σ' Hr Hi; specialize (Hw σ' Hr Hi);
    pose proof (HR t _ _ Hσ Hr) as Hσ'; auto; unfold establishes in *.
  - destruct Hw as (g & ? & ? & ?); eauto 8.
  - destruct Hw as (g & ? & ? & ?); eauto 8.
  - destruct Hw as (g & ? & ? & ?); eauto 8.
  - destruct Hw as [H1 H2]. split.
    + intros Ho Hwin. destruct (H1 Ho Hwin) as (g' & ? & ? & ?). eauto 8.
    + intros Ho. destruct (H2 Ho) as (g' & ? & ? & ?). eauto 8.
Qed.

End Hoare.
