(* ===== verification/ShmBytes.v ===== *)
(** * ShmBytes: the mapped file as bytes

    The concrete memory behind the [cell]s: the bytes of the mapped file, read
    and written little-endian at the code's offsets (layout.rs refuses to compile
    on big-endian targets), plus the process-private atomics. It satisfies the
    laws of [MemoryLaws] because the layout's fields are disjoint, so what is
    proved of a safe program over the abstract cell memory holds of its run over
    the bytes. *)

From S2P Require Import Prelude Errors Layout Atomics.

(** ** Byte access *)

Definition byte_at (m : gmap Z Z) (a : Z) : Z := default 0 (m !! a) mod 2 ^ 8.

Fixpoint read_at (m : gmap Z Z) (a : Z) (n : nat) : bytes :=
  match n with
  | O => []
  | S n' => byte_at m a :: read_at m (a + 1) n'
  end.

Fixpoint write_at (m : gmap Z Z) (a : Z) (bs : bytes) : gmap Z Z :=
  match bs with
  | [] => m
  | b :: bs' => <[a := b]> (write_at m (a + 1) bs')
  end.

(** ** The region's memory *)

Record shm : Type := mkShm {
  shm_file : gmap Z Z;
  shm_priv : gmap Z Z
}.

(** A new file: [set_len] fills it with zeros. *)
Definition shm_zero : shm := mkShm ∅ ∅.

(** The handle of a process-private atomic. *)
Definition priv_of (c : cell) : option Z :=
  match c with LastFreed h => Some h | _ => None end.

Definition shm_load (config : Config) (m : shm) (c : cell) : Z :=
  match priv_of c with
  | Some h => default 0 (shm_priv m !! h) mod 2 ^ 32
  | None => le_decode (read_at (shm_file m) (cell_off config c) (Z.to_nat (cell_size c)))
  end.

Definition shm_store (config : Config) (m : shm) (c : cell) (v : Z) : shm :=
  match priv_of c with
  | Some h => mkShm (shm_file m) (<[h := v]> (shm_priv m))
  | None => mkShm (write_at (shm_file m) (cell_off config c)
                            (le_encode (Z.to_nat (cell_size c)) v)) (shm_priv m)
  end.

#[export] Instance shm_memory (config : Config) : Memory cell shm := {
  mload := shm_load config;
  mstore := shm_store config
}.

(** The cells a process may access. *)
Definition cell_valid (config : Config) (c : cell) : Prop :=
  match priv_of c with Some _ => True | None => in_shm config c = true end.

(** The values a cell can hold. Shared cells hold any value of their width: any
    process may have written them. The private [last_freed] holds [NO_BLOCK] or a
    block index. *)
Definition cell_fits (config : Config) (c : cell) (v : Z) : Prop :=
  0 <= v < 2 ^ (8 * cell_size c) /\
  match c with LastFreed _ => v = NO_BLOCK \/ v < block_count config | _ => True end.

Lemma fits_u32 config c v :
  cell_size c = 4 -> priv_of c = None -> in_u32 v -> cell_fits config c v.
Proof. unfold cell_fits, in_u32. intros -> Hp Hv. split; [done|]. by destruct c. Qed.

Lemma fits_u64 config c v :
  cell_size c = 8 -> in_u64 v -> cell_fits config c v.
Proof. unfold cell_fits, in_u64. intros Hs Hv. rewrite Hs. split; [done|]. by destruct c. Qed.

Lemma fits_u8 config c v :
  cell_size c = 1 -> in_u8 v -> cell_fits config c v.
Proof. unfold cell_fits, in_u8. intros Hs Hv. rewrite Hs. split; [done|]. by destruct c. Qed.

(** ** Laws of byte access *)

Lemma length_read_at m a n : length (read_at m a n) = n.
Proof. revert a. induction n; intros; simpl; auto. Qed.

Lemma read_at_ok m a n : bytes_ok (read_at m a n).
Proof.
  revert a. induction n; intros; simpl; constructor; [|apply IHn].
  unfold byte_at, in_u8. apply Z.mod_pos_bound. lia.
Qed.

Lemma lookup_write_at_out m a bs x :
  x < a \/ a + Z.of_nat (length bs) <= x -> write_at m a bs !! x = m !! x.
Proof.
  revert a. induction bs as [|b bs IH]; intros a Hx; cbn [write_at length] in *; [done|].
  rewrite lookup_insert_ne by lia. apply IH. lia.
Qed.

Lemma read_write_eq m a bs :
  bytes_ok bs -> read_at (write_at m a bs) a (length bs) = bs.
Proof.
  intros Hok. revert a. induction Hok as [|b bs Hb Hbs IH]; intros a;
    cbn [read_at write_at length]; [done|].
  f_equal.
  - unfold byte_at. rewrite lookup_insert_eq. cbn. apply Z.mod_small. done.
  - transitivity (read_at (write_at m (a + 1) bs) (a + 1) (length bs)); [|apply IH].
    assert (Hext : forall n x, a < x ->
      read_at (<[a := b]> (write_at m (a + 1) bs)) x n = read_at (write_at m (a + 1) bs) x n).
    { induction n as [|n IHn]; intros x Hx; cbn [read_at]; [done|].
      rewrite IHn by lia. unfold byte_at. by rewrite lookup_insert_ne by lia. }
    apply Hext. lia.
Qed.

Lemma read_write_ne m a bs x n :
  x + Z.of_nat n <= a \/ a + Z.of_nat (length bs) <= x ->
  read_at (write_at m a bs) x n = read_at m x n.
Proof.
  revert x. induction n as [|n IH]; intros x Hd; cbn [read_at]; [done|].
  rewrite IH by lia. unfold byte_at. rewrite lookup_write_at_out by lia. done.
Qed.

Lemma cell_size_pos c : 0 < cell_size c <= 8.
Proof. destruct c; cbn; lia. Qed.

Section Laws.
Context (config : Config) (size : Z).
Hypothesis (Hok : layout_ok config size).

Lemma shm_fits m :
  (forall h, cell_fits config (LastFreed h) (shm_load config m (LastFreed h))) ->
  mem_fits (H := shm_memory config) (cell_valid config) (cell_fits config) m.
Proof.
  intros Hpriv c Hc. destruct (priv_of c) as [h|] eqn:Hp.
  { destruct c; try discriminate. apply Hpriv. }
  unfold cell_fits. cbn [mload shm_memory]. unfold shm_load. rewrite Hp.
  pose proof (le_decode_range _ (read_at_ok (shm_file m) (cell_off config c)
    (Z.to_nat (cell_size c)))) as Hr.
  rewrite length_read_at, Z2Nat.id in Hr by (destruct c; cbn; lia).
  split; [exact Hr | by destruct c].
Qed.

Lemma priv_inj c c' h : priv_of c = Some h -> priv_of c' = Some h -> c = c'.
Proof. destruct c, c'; cbn; congruence. Qed.

#[local] Instance shm_laws :
  MemoryLaws (H := shm_memory config) cell shm (cell_valid config) (cell_fits config).
Proof.
  unfold cell_valid, cell_fits.
  split; intros m c; cbn [mload mstore shm_memory]; unfold shm_load, shm_store.
  - intros v Hc [Hv _]. destruct (priv_of c) as [h|] eqn:Hp; cbn [shm_file shm_priv].
    + rewrite lookup_insert_eq. cbn. destruct c; try discriminate. apply Z.mod_small, Hv.
    + rewrite <- (length_le_encode (Z.to_nat (cell_size c)) v) at 2.
      rewrite read_write_eq by apply le_encode_bytes_ok.
      apply le_decode_encode. pose proof (cell_size_pos c). rewrite Z2Nat.id by lia. done.
  - intros c' v Hc Hc' Hne.
    destruct (priv_of c) as [h|] eqn:Hp, (priv_of c') as [h'|] eqn:Hp';
      cbn [shm_file shm_priv]; try done.
    + rewrite lookup_insert_ne; [done|]. intros <-. eauto using priv_inj.
    + f_equal. apply read_write_ne. rewrite length_le_encode.
      pose proof (cell_size_pos c). pose proof (cell_size_pos c').
      rewrite !Z2Nat.id by lia.
      destruct (cells_disjoint _ _ _ _ Hok Hc Hc' Hne); lia.
Qed.

End Laws.

(** What the abstract cell memory says of a byte memory. *)
Definition shm_cells (config : Config) (m : shm) : cellmem cell := shm_load config m.

Definition shm_world (config : Config) (w : world cell shm) : world cell (cellmem cell) :=
  mkWorld (shm_cells config (w_mem w)) (w_now w) (w_mono w) (w_wakes w).

(** C27. Byte-level refinement: on an accepted configuration, a program that is
    safe under hostile loads behaves on the bytes of the mapped file exactly as
    on the abstract cells: same result, and afterwards every cell read from the
    bytes is the cell of the abstract run. *)
Theorem run_bytes_refines_cells {A} config size (p : prog cell A) (w : world cell shm) :
  layout_ok config size ->
  safe (cell_valid config) (cell_fits config) p ->
  (forall h, cell_fits config (LastFreed h) (shm_load config (w_mem w) (LastFreed h))) ->
  let r := run (H := shm_memory config) p w in
  let r' := run p (shm_world config w) in
  r'.1 = r.1 /\
  forall c, cell_valid config c ->
    w_mem r'.2 c = shm_load config (w_mem r.2) c.
Proof.
  intros Hok Hs Hp r r'.
  destruct (run_agree (M1 := cellmem cell) (M2 := shm) (H0 := shm_memory config)
    (cell_valid config) (cell_fits config)
    (MemoryLaws0 := cellmem_laws _ _)
    (MemoryLaws1 := shm_laws config size Hok)
    p (shm_world config w) w Hs) as [H1 ((H2 & _) & _)].
  { repeat split; try done. }
  { by apply shm_fits. }
  split; [exact H1 | exact H2].
Qed.

Lemma run_bytes_refines_cells_witness :
  let p := (store (BKData 3 5) 77 ;;; load (BKData 3 5)) in
  let w : world cell shm := mkWorld shm_zero None 0 [] in
  (run (H := shm_memory config_small) p w).1 = Done 77 /\
  (run p (shm_world config_small w)).1 = (run (H := shm_memory config_small) p w).1.
Proof.
  intros p w. split; [vm_compute; reflexivity|].
  refine (proj1 (run_bytes_refines_cells config_small 704 p w config_small_ok _ _)).
  - split; [reflexivity|]. split; [split; [split; vm_compute; congruence | exact I]|].
    split; [reflexivity|]. intros v _. exact I.
  - intros h. split; [split; vm_compute; congruence|]. right. vm_compute. reflexivity.
Defined.
