(* ===== verification/Pool.v ===== *)
(** * Pool: the region's block pool (src/src/protocol/region.rs)

    The Treiber free list of blocks, the per-handle recycled block, block
    reference counts and the heartbeat. [PoolSpec] is the abstract pool, a stack
    of free block indices; the refinement lemmas show that each operation run
    alone implements it. *)

From S2P Require Import Prelude Errors Layout Atomics ShmBytes.

(** ** Region *)

(** A process's view of the mapped region. [rg_base] is the address of the
    mapping (used for alignment checks only), [rg_handle] names its private
    [last_freed] atomic. *)
Record Region : Type := mkRegion {
  rg_base : Z;
  rg_config : Config;
  rg_pool_offset : Z;
  rg_handle : Z
}.

Definition from_raw (handle base : Z) (config : Config) : prog cell Region :=
  store (LastFreed handle) NO_BLOCK ;;;
  Ret {| rg_base := base;
         rg_config := config;
         rg_pool_offset := block_pool_offset config;
         rg_handle := handle |}.

(** Offset of block [idx], or [None] if out of bounds. *)
Definition block_ptr_checked (r : Region) (idx : Z) : option Z :=
  if block_count (rg_config r) <=? idx then None
  else Some (uadd (rg_pool_offset r) (umul idx (block_size (rg_config r)))).

Definition block_refcount_checked (r : Region) (idx : Z) : option cell :=
  _ ← block_ptr_checked r idx;
  Some (BKRefcount idx).

(** ** Free list *)

Fixpoint alloc_block_loop (r : Region) (fuel : nat) (head : Z)
    : prog cell (result (option Z) unit) :=
  match fuel with
  | O => Diverge
  | S fuel' =>
      let '(gen, idx) := unpack head in
      if idx =? NO_BLOCK then Ret (Ok None)
      else if block_count (rg_config r) <=? idx then Ret (Err tt)
      else
        let* next := load (BKNext idx) in
        if negb (next =? NO_BLOCK) && (block_count (rg_config r) <=? next) then Ret (Err tt)
        else
          let new_head := pack (wrap32 (gen + 1)) next in
          let* (ok, current) := compare_exchange_weak GHPoolHead head new_head in
          if ok : bool then Ret (Ok (Some idx))
          else alloc_block_loop r fuel' current
  end.

Definition alloc_block (r : Region) (fuel : nat) : prog cell (result (option Z) unit) :=
  let* head := load GHPoolHead in
  alloc_block_loop r fuel head.

Definition alloc_recycled (r : Region) : prog cell (option Z) :=
  let* idx := swap (LastFreed (rg_handle r)) NO_BLOCK in
  Ret (if negb (idx =? NO_BLOCK) then Some idx else None).

Fixpoint free_block_loop (r : Region) (fuel : nat) (idx head : Z) : prog cell unit :=
  match fuel with
  | O => Diverge
  | S fuel' =>
      let '(gen, old_head_idx) := unpack head in
      store (BKNext idx) old_head_idx ;;;
      let new_head := pack (wrap32 (gen + 1)) idx in
      let* (ok, current) := compare_exchange_weak GHPoolHead head new_head in
      if ok : bool then Ret tt else free_block_loop r fuel' idx current
  end.

Definition free_block (r : Region) (fuel : nat) (idx : Z) : prog cell unit :=
  if block_count (rg_config r) <=? idx then Ret tt
  else
    let* head := load GHPoolHead in
    free_block_loop r fuel idx head.

Definition init_block (r : Region) (i : Z) : prog cell unit :=
  let next := if i + 1 <? block_count (rg_config r) then i + 1 else NO_BLOCK in
  store (BKNext i) next ;;;
  store (BKRefcount i) 0.

Definition init_free_list (r : Region) : prog cell unit :=
  for_each (seqZ 0 (block_count (rg_config r))) (init_block r) ;;;
  store GHPoolHead (pack 0 0).

Definition data_capacity (r : Region) : Z := wrap64 (block_size (rg_config r) - BLOCK_DATA_OFFSET).

(** Drops one reference; the last one frees the block. *)
Definition release_block (r : Region) (fuel : nat) (block_idx : Z) : prog cell unit :=
  match block_refcount_checked r block_idx with
  | None => Ret tt
  | Some refcount =>
      let* prev := fetch_sub32 refcount 1 in
      if prev =? 1 then free_block r fuel block_idx else Ret tt
  end.

(** ** Heartbeat *)

Definition now_micros : prog cell (result Z Error) :=
  let* t := system_now in
  Ret (match t with Some ns => Ok (wrap64 (duration_as_micros ns)) | None => Err ClockError end).

Definition update_heartbeat : prog cell (result unit Error) :=
  let* now := now_micros in
  match now with
  | Err e => Ret (Err e)
  | Ok now => fetch_max GHHeartbeat now ;;; Ret (Ok tt)
  end.

Definition check_heartbeat (r : Region) : prog cell (result unit Error) :=
  let* hb := load GHHeartbeat in
  let* now := now_micros in
  Ret (match now with
       | Err e => Err e
       | Ok now =>
           if wrap64 (duration_as_micros (stale_timeout (rg_config r)))
              <? saturating_sub now hb
           then Err PublisherDead else Ok tt
       end).

(** ** The abstract pool *)

Module PoolSpec.

(** Free block indices, the next one to hand out first. *)
Definition pool : Type := list Z.

Definition alloc (p : pool) : option Z * pool :=
  match p with [] => (None, []) | b :: p' => (Some b, p') end.

Definition free (b : Z) (p : pool) : pool := b :: p.

End PoolSpec.

(** ** Representation *)

Definition block_ok (config : Config) (b : Z) : Prop := 0 <= b < block_count config.

Definition head_idx (l : list Z) : Z := match l with [] => NO_BLOCK | b :: _ => b end.

(** The links of [l] in memory. *)
Fixpoint linked (m : cellmem cell) (l : list Z) : Prop :=
  match l with
  | [] => True
  | b :: l' => m (BKNext b) = head_idx l' /\ linked m l'
  end.

Record pool_repr (config : Config) (m : cellmem cell) (l : list Z) : Prop := {
  pr_head : exists gen, in_u32 gen /\ m GHPoolHead = pack gen (head_idx l);
  pr_linked : linked m l;
  pr_nodup : NoDup l;
  pr_range : Forall (block_ok config) l
}.

(** The memories differ at most on the cells of [cs]. *)
Definition same_except (cs : list cell) (m m' : cellmem cell) : Prop :=
  forall c, c ∉ cs -> m' c = m c.

Lemma same_except_refl cs m : same_except cs m m.
Proof. by intros c _. Qed.

Lemma same_except_trans cs cs' m1 m2 m3 :
  same_except cs m1 m2 -> same_except cs' m2 m3 -> same_except (cs ++ cs') m1 m3.
Proof. intros H1 H2 c Hc. rewrite H2, H1; set_solver. Qed.

Lemma same_except_upd cs m c v : c ∈ cs -> same_except cs m (upd m c v).
Proof. intros Hin c' Hc'. rewrite upd_ne; [done | set_solver]. Qed.

Lemma block_ok_u32 config b : config_u32 config -> block_ok config b -> in_u32 b.
Proof. unfold config_u32, block_ok, in_u32. lia. Qed.

Lemma block_ok_not_none config b : config_u32 config -> block_ok config b -> b <> NO_BLOCK.
Proof. unfold config_u32, block_ok, in_u32, NO_BLOCK, u32_max. lia. Qed.

Lemma no_block_u32 : in_u32 NO_BLOCK.
Proof. unfold in_u32, NO_BLOCK, u32_max. lia. Qed.

#[export] Hint Resolve block_ok_u32 block_ok_not_none no_block_u32 wrap32_range : crossbar.

Lemma head_idx_u32 config l :
  config_u32 config -> Forall (block_ok config) l -> in_u32 (head_idx l).
Proof. intros Hc Hl. destruct Hl; cbn; eauto with crossbar. Qed.

Lemma linked_frame m m' l :
  (forall b, b ∈ l -> m' (BKNext b) = m (BKNext b)) -> linked m l -> linked m' l.
Proof.
  induction l as [|b l IH]; cbn; [done|]. intros Hf [Hb Hl].
  rewrite Hf by set_solver. split; [done|]. apply IH; [set_solver | done].
Qed.

Lemma pool_repr_frame config m m' l :
  m' GHPoolHead = m GHPoolHead ->
  (forall b, b ∈ l -> m' (BKNext b) = m (BKNext b)) ->
  pool_repr config m l -> pool_repr config m' l.
Proof.
  intros Hh Hn [(g & Hg & Hd) Hl Hnd Hr]. split; auto.
  - exists g. by rewrite Hh.
  - by eapply linked_frame.
Qed.

Section PoolSequential.
Context (r : Region).
Local Abbreviation cfg := (rg_config r).
Hypothesis (Hcfg : config_u32 cfg).

Lemma alloc_block_loop_cons fuel w b l gen :
  pool_repr cfg (w_mem w) (b :: l) -> in_u32 gen -> w_mem w GHPoolHead = pack gen b ->
  run (alloc_block_loop r (S fuel) (pack gen b)) w =
    (Done (Ok (Some b)),
     set_mem w (upd (w_mem w) GHPoolHead (pack (wrap32 (gen + 1)) (head_idx l)))).
Proof.
  intros [_ [Hn Hl] Hnd Hr] Hg Hh.
  apply Forall_cons in Hr as [Hb Hr]. cbn [alloc_block_loop].
  rewrite unpack_pack by eauto with crossbar.
  pose proof (block_ok_not_none _ _ Hcfg Hb). unfold block_ok in Hb.
  zb_rewrite. run_simpl. rewrite Hn.
  replace (negb (head_idx l =? NO_BLOCK) && (block_count cfg <=? head_idx l)) with false.
  2:{ destruct Hr as [|b' l' Hb' _]; cbn [head_idx]; [by rewrite Z.eqb_refl|].
      pose proof (block_ok_not_none _ _ Hcfg Hb'). unfold block_ok in Hb'. by zb_rewrite. }
  run_simpl. rewrite Hh, Z.eqb_refl. done.
Qed.

(** Popping a block run alone is [PoolSpec.alloc]. *)
Lemma alloc_block_spec fuel w l :
  pool_repr cfg (w_mem w) l ->
  exists w', run (alloc_block r (S fuel)) w = (Done (Ok (PoolSpec.alloc l).1), w') /\
    pool_repr cfg (w_mem w') (PoolSpec.alloc l).2 /\
    same_except [GHPoolHead] (w_mem w) (w_mem w') /\ w_wakes w' = w_wakes w.
Proof.
  intros Hp. pose proof Hp as [(gen & Hg & Hh) Hl Hnd Hr].
  unfold alloc_block. run_simpl. rewrite Hh.
  destruct l as [|b l]; cbn [head_idx PoolSpec.alloc fst snd].
  - exists w. cbn [alloc_block_loop]. rewrite unpack_pack by eauto with crossbar.
    rewrite Z.eqb_refl. repeat split; auto using same_except_refl; eauto.
  - rewrite alloc_block_loop_cons with (l := l) by done.
    eexists. split; [done|]. cbn [w_mem set_mem w_wakes].
    split; [|split; [apply same_except_upd; set_solver | done]].
    destruct Hl as [_ Hl]. apply NoDup_cons in Hnd as [_ Hnd]. apply Forall_cons in Hr as [_ Hr].
    split; auto.
    + exists (wrap32 (gen + 1)). rewrite upd_eq. split; [apply wrap32_range | done].
    + eapply linked_frame; [|done]. intros. by rewrite upd_ne.
Qed.

(** Pushing a block that is not in the pool, run alone, is [PoolSpec.free]. *)
Lemma free_block_spec fuel w l b :
  pool_repr cfg (w_mem w) l -> block_ok cfg b -> b ∉ l ->
  exists w', run (free_block r (S fuel) b) w = (Done tt, w') /\
    pool_repr cfg (w_mem w') (PoolSpec.free b l) /\
    same_except [GHPoolHead; BKNext b] (w_mem w) (w_mem w') /\ w_wakes w' = w_wakes w.
Proof.
  intros [(gen & Hg & Hh) Hl Hnd Hr] Hb Hni.
  pose proof (head_idx_u32 _ _ Hcfg Hr) as Hhd. pose proof Hb as Hb'. unfold block_ok in Hb'.
  unfold free_block. zb_rewrite. run_simpl. rewrite Hh. cbn [free_block_loop].
  rewrite unpack_pack by done. run_simpl.
  rewrite upd_ne by done. rewrite Hh, Z.eqb_refl. run_simpl.
  eexists. split; [done|]. cbn [w_mem set_mem w_wakes].
  split; [|split; [|done]].
  - split.
    + exists (wrap32 (gen + 1)). rewrite upd_eq. split; [apply wrap32_range | done].
    + cbn. rewrite upd_ne, upd_eq by done. split; [done|].
      eapply linked_frame; [|done]. intros b' Hin.
      rewrite !upd_ne by congruence. done.
    + by constructor.
    + by constructor.
  - intros c Hc. rewrite !upd_ne; set_solver.
Qed.

(** Indices outside the pool are ignored. *)
Lemma free_block_oob fuel w b :
  block_count cfg <= b -> run (free_block r fuel b) w = (Done tt, w).
Proof. intros. unfold free_block. by zb_rewrite. Qed.

(** The link [init_free_list] writes into block [j] of [n]. *)
Definition init_link (n j : Z) : Z := if j + 1 <? n then j + 1 else NO_BLOCK.

Lemma linked_seqZ m n (k : nat) :
  (forall j, n - Z.of_nat k <= j < n -> m (BKNext j) = init_link n j) ->
  linked m (seqZ (n - Z.of_nat k) (Z.of_nat k)).
Proof.
  induction k as [|k IH]; intros Hm; [done|].
  rewrite seqZ_cons by lia. cbn [linked].
  replace (Z.succ (n - Z.of_nat (S k))) with (n - Z.of_nat k) by lia.
  replace (Z.pred (Z.of_nat (S k))) with (Z.of_nat k) by lia.
  split; [|apply IH; intros; apply Hm; lia].
  rewrite Hm by lia. unfold init_link.
  destruct k as [|k]; [by zb_rewrite|].
  rewrite seqZ_cons by lia. cbn [head_idx]. zb_rewrite. lia.
Qed.

(** Initialisation leaves every block free, in index order, with no references. *)
Lemma init_free_list_spec w :
  0 < block_count cfg ->
  exists w', run (init_free_list r) w = (Done tt, w') /\
    pool_repr cfg (w_mem w') (seqZ 0 (block_count cfg)) /\
    (forall b, block_ok cfg b -> w_mem w' (BKRefcount b) = 0) /\
    (forall c, (forall b, block_ok cfg b -> c <> BKNext b /\ c <> BKRefcount b) ->
       c <> GHPoolHead -> w_mem w' c = w_mem w c) /\
    w_mem w' GHPoolHead = pack 0 0 /\ w' = set_mem w (w_mem w').
Proof.
  intros Hpos. unfold init_free_list. set (n := block_count cfg) in *. rewrite run_bind.
  destruct (run_for_each (C := cell) (M := cellmem cell) (seqZ 0 n) (init_block r)
    (fun pre w1 =>
      (forall b, b ∈ pre -> w_mem w1 (BKNext b) = init_link n b /\ w_mem w1 (BKRefcount b) = 0) /\
      (forall c, (forall b, b ∈ pre -> c <> BKNext b /\ c <> BKRefcount b) ->
         w_mem w1 c = w_mem w c) /\ w1 = set_mem w (w_mem w1)) w)
    as (w1 & -> & H1 & H2 & H3).
  { intros pre x post w0 Hl (H1 & H2 & H3). unfold init_block. run_simpl.
    eexists. split; [done|]. cbn [w_mem set_mem w_wakes]. split; [|split; [|by rewrite H3]].
    - intros b [Hb| ->%list_elem_of_singleton]%elem_of_app.
      + assert (x <> b).
        { intros ->. assert (Hnd : NoDup (pre ++ b :: post)) by (rewrite <- Hl; apply NoDup_seqZ).
          apply NoDup_app in Hnd as (_ & Hd & _). apply (Hd b Hb). set_solver. }
        rewrite !upd_ne by congruence. by apply H1.
      + split; [by rewrite upd_ne, upd_eq by done | by rewrite upd_eq].
    - intros c Hc. destruct (Hc x ltac:(set_solver)).
      rewrite !upd_ne by done. apply H2. intros b Hb. apply Hc. set_solver. }
  { cbn. split; [set_solver|]. split; [done|]. by destruct w. }
  run_simpl. eexists. split; [done|].
  cbn [w_mem set_mem w_wakes].
  assert (Hin : forall b, block_ok cfg b -> b ∈ seqZ 0 n).
  { intros b Hb. by apply elem_of_seqZ_0. }
  repeat split.
  - exists 0. rewrite upd_eq, seqZ_cons by lia. done.
  - eapply linked_frame; [by intros; rewrite upd_ne|].
    pose proof (linked_seqZ (w_mem w1) n (Z.to_nat n)) as Hl.
    rewrite Z2Nat.id, Z.sub_diag in Hl by lia.
    apply Hl. intros j Hj. apply H1, elem_of_seqZ_0. lia.
  - apply NoDup_seqZ.
  - apply Forall_forall. intros b Hb%elem_of_seqZ_0. done.
  - intros b Hb. rewrite upd_ne by done. by apply H1, Hin.
  - intros c Hc Hne. rewrite upd_ne by done. apply H2. intros b Hb%elem_of_seqZ_0. by apply Hc.
  - by rewrite H3.
Qed.

(** ** Any sequence of operations *)

Inductive pool_op : Type :=
| OAlloc
| OFree (b : Z).

(** The results of the allocations. *)
Fixpoint pool_run (fuel : nat) (ops : list pool_op) : prog cell (list (result (option Z) unit)) :=
  match ops with
  | [] => Ret []
  | OAlloc :: ops' =>
      let* o := alloc_block r fuel in
      let* rest := pool_run fuel ops' in
      Ret (o :: rest)
  | OFree b :: ops' => free_block r fuel b ;;; pool_run fuel ops'
  end.

(** [None] if a block is freed that is free already, or not a block. *)
Fixpoint pool_spec (ops : list pool_op) (p : PoolSpec.pool)
    : option (list (result (option Z) unit) * PoolSpec.pool) :=
  match ops with
  | [] => Some ([], p)
  | OAlloc :: ops' =>
      '(outs, p') ← pool_spec ops' (PoolSpec.alloc p).2;
      Some (Ok (PoolSpec.alloc p).1 :: outs, p')
  | OFree b :: ops' =>
      if bool_decide (block_ok cfg b /\ b ∉ p) then pool_spec ops' (PoolSpec.free b p) else None
  end.

(** C20. The free list refines the abstract pool, a LIFO of block indices: any sequence of
    allocations and frees (of blocks that are not free) run alone returns exactly the
    abstract results, never reports corruption, and leaves the links in shared memory
    describing the abstract pool. *)
Theorem pool_refines fuel ops w l outs l' :
  pool_repr cfg (w_mem w) l -> pool_spec ops l = Some (outs, l') ->
  exists w', run (pool_run (S fuel) ops) w = (Done outs, w') /\ pool_repr cfg (w_mem w') l'.
Proof.
  revert w l outs. induction ops as [|[|b] ops IH]; intros w l outs Hp; cbn [pool_run pool_spec].
  - intros [= <- <-]. by exists w.
  - destruct (alloc_block_spec fuel w l Hp) as (w1 & Hr & Hp1 & _).
    destruct (pool_spec ops (PoolSpec.alloc l).2) as [[outs1 p1]|] eqn:Hs; cbn [mbind option_bind]; [|done].
    intros [= <- <-]. destruct (IH _ _ _ Hp1 Hs) as (w2 & Hr2 & Hp2).
    exists w2. by rewrite run_bind, Hr, run_bind, Hr2.
  - case_bool_decide as Hb; [|done]. destruct Hb as [Hb Hni]. intros Hs.
    destruct (free_block_spec fuel w l b Hp Hb Hni) as (w1 & Hr & Hp1 & _).
    destruct (IH _ _ _ Hp1 Hs) as (w2 & Hr2 & Hp2). exists w2. by rewrite run_bind, Hr.
Qed.

End PoolSequential.

(** A region whose pool has been initialised. *)
Definition pool_demo : Region := mkRegion 4096 config_small 576 0.
Definition pool_blank : world cell (cellmem cell) := mkWorld (fun _ => 0) None 0 [].
Definition pool_world : world cell (cellmem cell) := (run (init_free_list pool_demo) pool_blank).2.

Lemma pool_refines_witness :
  pool_repr config_small (w_mem pool_world) (seqZ 0 8) /\
  exists w', run (pool_run pool_demo 1 [OAlloc; OAlloc; OFree 0; OAlloc]) pool_world =
      (Done [Ok (Some 0); Ok (Some 1); Ok (Some 0)], w') /\
    pool_repr config_small (w_mem w') (seqZ 2 6).
Proof.
  assert (Hc : config_u32 config_small) by (vm_compute; intuition congruence).
  assert (Hp : pool_repr config_small (w_mem pool_world) (seqZ 0 8)).
  { destruct (init_free_list_spec pool_demo Hc pool_blank) as (w' & Hr & H & _);
      [reflexivity|]. unfold pool_world. rewrite Hr. exact H. }
  split; [exact Hp|].
  exact (pool_refines pool_demo Hc 0 [OAlloc; OAlloc; OFree 0; OAlloc] pool_world (seqZ 0 8)
    [Ok (Some 0); Ok (Some 1); Ok (Some 0)] (seqZ 2 6) Hp eq_refl).
Defined.

(** ** Robustness: any contents of the shared memory *)

Section PoolSafety.
Context (r : Region).
Local Abbreviation cfg := (rg_config r).
Hypothesis (Hcfg : config_u32 cfg).
Local Abbreviation psafe := (safe (cell_valid cfg) (cell_fits cfg)).
Local Abbreviation preturns := (returns (cell_fits cfg)).

Lemma valid_block b : block_ok cfg b -> cell_valid cfg (BKNext b) /\ cell_valid cfg (BKRefcount b).
Proof. unfold block_ok, cell_valid. cbn. intros. zb_rewrite. done. Qed.


Lemma unpack_u32_eq head idx gen :
  unpack head = (gen, idx) -> in_u32 gen /\ in_u32 idx.
Proof. intros H. pose proof (unpack_u32 head) as Hu. by rewrite H in Hu. Qed.

Lemma alloc_block_loop_safe fuel head : psafe (alloc_block_loop r fuel head).
Proof.
  revert head. induction fuel as [|fuel IH]; intros head; cbn [alloc_block_loop]; [done|].
  destruct (unpack head) as [gen idx] eqn:Hu. apply unpack_u32_eq in Hu as [Hg Hi].
  destruct (Z.eqb_spec idx NO_BLOCK); [done|]. destruct (Z.leb_spec (block_count cfg) idx); [done|].
  assert (Hb : block_ok cfg idx) by (unfold block_ok, in_u32 in *; lia).
  cbn [bind load safe]. split; [by apply valid_block|]. intros next Hn.
  destruct (_ && _); [done|]. cbn [bind compare_exchange_weak safe].
  split; [done|]. split.
  - apply fits_u64; [done|]. apply pack_in_u64; [apply wrap32_range | apply Hn].
  - intros [] v _; [done | apply IH].
Qed.

Lemma alloc_block_loop_returns fuel head :
  preturns (alloc_block_loop r fuel head)
    (fun res => forall b, res = Ok (Some b) -> block_ok cfg b).
Proof.
  revert head. induction fuel as [|fuel IH]; intros head; cbn [alloc_block_loop]; [done|].
  destruct (unpack head) as [gen idx] eqn:Hu. apply unpack_u32_eq in Hu as [Hg Hi].
  destruct (Z.eqb_spec idx NO_BLOCK); [done|]. destruct (Z.leb_spec (block_count cfg) idx); [done|].
  cbn [bind load returns]. intros next Hn. destruct (_ && _); [done|].
  cbn [bind compare_exchange_weak returns]. intros [] v _; [|apply IH].
  intros b [= <-]. unfold block_ok, in_u32 in *. lia.
Qed.

Lemma alloc_block_safe fuel : psafe (alloc_block r fuel).
Proof.
  unfold alloc_block. cbn [bind load safe]. split; [done|]. intros. apply alloc_block_loop_safe.
Qed.

Lemma alloc_block_returns fuel :
  preturns (alloc_block r fuel) (fun res => forall b, res = Ok (Some b) -> block_ok cfg b).
Proof. unfold alloc_block. cbn [bind load returns]. intros. apply alloc_block_loop_returns. Qed.

Lemma free_block_loop_safe fuel idx head : block_ok cfg idx -> psafe (free_block_loop r fuel idx head).
Proof.
  intros Hb. revert head. induction fuel as [|fuel IH]; intros head; cbn [free_block_loop]; [done|].
  destruct (unpack head) as [gen old] eqn:Hu. apply unpack_u32_eq in Hu as [Hg Hi].
  cbn [bind store compare_exchange_weak safe].
  split; [by apply valid_block|]. split; [by apply fits_u32|]. split; [done|]. split.
  - apply fits_u64; [done|]. apply pack_in_u64; [apply wrap32_range | eauto with crossbar].
  - intros [] v _; [done | apply IH].
Qed.

Lemma free_block_safe fuel idx : 0 <= idx -> psafe (free_block r fuel idx).
Proof.
  intros. unfold free_block. destruct (Z.leb_spec (block_count cfg) idx); [done|].
  cbn [bind load safe]. split; [done|]. intros. apply free_block_loop_safe. done.
Qed.

Lemma release_block_safe fuel idx : 0 <= idx -> psafe (release_block r fuel idx).
Proof.
  intros. unfold release_block, block_refcount_checked, block_ptr_checked.
  destruct (Z.leb_spec (block_count cfg) idx); cbn [mbind option_bind]; [done|].
  cbn [bind fetch_sub32 safe]. split; [by apply valid_block|]. intros v Hv. split.
  - apply fits_u32; [done | done | apply wrap32_range].
  - destruct (_ =? _); [by apply free_block_safe | done].
Qed.

End PoolSafety.
