(* ===== verification/Ring.v ===== *)
(** * Ring: committing to a topic's ring (src/src/protocol/region.rs)

    A ring slot is a seqlock of three words (sequence number, block index, data
    length). [commit_to_ring] claims the next sequence number, marks the slot as
    being written, installs the new block with one reference, and releases the
    block it replaces, keeping it as the handle's recycled block when nobody else
    references it. The pinned variant publishes a sequence number and a length
    only. *)

From S2P Require Import Prelude Errors Layout Atomics ShmBytes Pool.

(** ** Slots *)

(** [seq & ring_mask], as a slot index. *)
Definition ring_slot (config : Config) (seq : Z) : Z :=
  wrap32 (Z.land seq (wrap64 (ring_depth config - 1))).

(** Multi-publisher claim of a slot: compare-exchange to [SEQ_WRITING]; after 1024
    reads of [SEQ_WRITING] the slot is claimed by a store. *)
Fixpoint claim_slot (fuel : nat) (entry_seq : cell) (spins : Z) : prog cell unit :=
  match fuel with
  | O => Diverge
  | S fuel' =>
      let* current := load entry_seq in
      if current =? SEQ_WRITING then
        let spins' := wrap32 (spins + 1) in
        if 1024 <? spins' then store entry_seq SEQ_WRITING
        else claim_slot fuel' entry_seq spins'
      else
        let* (ok, _) := compare_exchange_weak entry_seq current SEQ_WRITING in
        if ok : bool then Ret tt else claim_slot fuel' entry_seq spins
  end.

(** Step 7: drop the slot's reference to the block it held. *)
Definition release_old (r : Region) (fuel : nat) (old_block_idx : Z) : prog cell unit :=
  if negb (old_block_idx =? NO_BLOCK) && (old_block_idx <? block_count (rg_config r)) then
    let* prev := fetch_sub32 (BKRefcount old_block_idx) 1 in
    if prev =? 1 then
      let* old_recycled := swap (LastFreed (rg_handle r)) old_block_idx in
      if negb (old_recycled =? NO_BLOCK) then free_block r fuel old_recycled else Ret tt
    else Ret tt
  else Ret tt.

(** Step 8: wake the blocked subscribers, if any, as Linux does for [i32::MAX] threads. A
    wake has no effect on memory, and no theorem depends on one: a parked thread of the
    model may resume at any time, so the back ends whose wake does nothing are covered. *)
Definition smart_wake (wake : bool) (topic_idx : Z) : prog cell unit :=
  if wake then
    let* waiters := load (TEWaiters topic_idx) in
    if 0 <? waiters then wake_all (TEWriteSeq topic_idx) else Ret tt
  else Ret tt.

Definition commit_to_ring (r : Region) (fuel : nat) (block_idx data_len topic_idx : Z)
    (wake single_publisher : bool) : prog cell unit :=
  let* prev_seq := fetch_add64 (TEWriteSeq topic_idx) 1 in
  let seq := wrap64 (prev_seq + 1) in
  let slot := ring_slot (rg_config r) seq in
  let entry_seq := RESeq topic_idx slot in
  (if single_publisher then store entry_seq SEQ_WRITING else claim_slot fuel entry_seq 0) ;;;
  let* old_block_idx := load (REBlockIdx topic_idx slot) in
  store (BKRefcount block_idx) 1 ;;;
  store (REBlockIdx topic_idx slot) block_idx ;;;
  store (REDataLen topic_idx slot) data_len ;;;
  store entry_seq seq ;;;
  release_old r fuel old_block_idx ;;;
  smart_wake wake topic_idx.

(** ** Pinned topics *)

Definition commit_pinned (data_len topic_idx : Z) : prog cell unit :=
  let* prev_seq := fetch_add64 (TEWriteSeq topic_idx) 1 in
  let seq := wrap64 (prev_seq + 1) in
  let packed := Z.lor (wrap64 (Z.shiftl (Z.land seq 0xFFFFFFFF) 32)) data_len in
  store (TEPinnedSeq topic_idx) packed ;;;
  smart_wake true topic_idx.

Definition set_pinned_block (topic_idx block_idx : Z) : prog cell unit :=
  store (TEPinnedBlock topic_idx) block_idx.

Definition pinned_block (topic_idx : Z) : prog cell Z := load (TEPinnedBlock topic_idx).

(** ** Facts about slots *)

Definition topic_ok (config : Config) (t : Z) : Prop := 0 <= t < max_topics config.

Lemma ring_slot_mod config seq :
  config_u32 config -> is_power_of_two (ring_depth config) = true -> 0 <= seq ->
  ring_slot config seq = seq mod ring_depth config.
Proof.
  intros Hc Hp Hs. unfold ring_slot. pose proof (is_power_of_two_pos _ Hp).
  unfold config_u32, in_u32 in Hc.
  rewrite (wrap64_small (_ - 1)) by (unfold in_u64; lia).
  rewrite land_mask by done.
  apply wrap32_small. pose proof (Z.mod_pos_bound seq (ring_depth config)). unfold in_u32. lia.
Qed.

Lemma ring_slot_range config seq :
  config_u32 config -> is_power_of_two (ring_depth config) = true -> 0 <= seq ->
  0 <= ring_slot config seq < ring_depth config.
Proof.
  intros Hc Hp Hs. rewrite ring_slot_mod by done.
  apply Z.mod_pos_bound. by apply is_power_of_two_pos.
Qed.
