(* ===== verification/Wait.v ===== *)
(** * Wait: wait strategies and timed waits on a shared word
    (src/src/wait.rs, src/src/platform/notify.rs)

    The spin and yield hints have no effect on memory; [wait] counts them. A
    futex wait may return at any time, so the callers re-check the word. The operating
    system's wait is an interface, [OsPlatform], with an instance for each back end of
    notify.rs; Linux is the default. *)

From S2P Require Import Prelude Errors Layout Atomics.

Inductive WaitStrategy : Type :=
| BusySpin
| YieldSpin
| BackoffSpin
| Adaptive (spin_iters yield_iters : Z).

Definition wait_strategy_default : WaitStrategy := Adaptive 100 10.

(** [1u32.wrapping_shl(n)]: the shift amount is taken modulo 32. *)
Definition wrapping_shl32 (x n : Z) : Z := wrap32 (Z.shiftl x (n mod 32)).

(** The number of yield hints issued by one wait iteration. *)
Definition wait (strategy : WaitStrategy) (iter : Z) : Z :=
  match strategy with
  | BusySpin => 0
  | YieldSpin => 1
  | BackoffSpin => wrapping_shl32 1 (Z.min iter 6)
  | Adaptive spin_iters yield_iters =>
      if iter <? spin_iters then 0
      else if iter <? saturating_add32 spin_iters yield_iters then 1
      else 0
  end.

(** The low 32 bits of a 64-bit word, as [AtomicU32] at the same address. *)
Definition load_low32 {C} (c : C) : prog C Z :=
  let* v := load c in
  Ret (wrap32 v).

(** ** The operating system's wait *)

(** The module [os_platform]: [futex_wait], whose only caller passes a timeout, and
    [futex_wake], with the number of threads to wake. *)
Class OsPlatform : Type := mkOsPlatform {
  os_futex_wait : forall {C : Type}, C -> Z -> Z -> prog C unit;
  os_futex_wake : forall {C : Type}, C -> Z -> prog C unit
}.

Definition I32_MAX : Z := 2147483647.

(** Linux: the futex calls. *)
Definition os_linux : OsPlatform := {|
  os_futex_wait C c expected timeout := futex_wait c expected timeout;
  os_futex_wake C c count := wake_all c
|}.
#[export] Existing Instance os_linux | 10.

(** Windows: [WaitOnAddress] counts in milliseconds, [as u32]. *)
Definition futex_wait_windows {C} (c : C) (expected timeout : Z) : prog C unit :=
  let timeout_ms := wrap32 (duration_as_millis timeout) in
  if timeout_ms =? 0 then Ret tt else futex_wait c expected (duration_from_millis timeout_ms).

(** [WakeByAddressAll], or [WakeByAddressSingle] [count] times. *)
Definition futex_wake_windows {C} (c : C) (count : Z) : prog C unit :=
  if count =? I32_MAX then wake_all c
  else for_each (seqZ 0 count) (fun _ => wake_all c).

Definition os_windows : OsPlatform := {|
  os_futex_wait C := futex_wait_windows;
  os_futex_wake C := futex_wake_windows
|}.

(** Other Unix systems on x86: a short sleep. *)
Definition futex_wait_sleep {C} (timeout : Z) : prog C unit :=
  sleep (Z.min timeout (duration_from_millis 1)).

Definition os_unix_x86 : OsPlatform := {|
  os_futex_wait C c expected timeout := futex_wait_sleep timeout;
  os_futex_wake C c count := Ret tt
|}.

(** Other Unix systems on aarch64: a loop of [wfe] instructions with backoff. The
    longest time one takes, between two events of the timer, is [wfe_ns]. *)
Section Aarch64.
Context (wfe_ns : Z).

Fixpoint wfe_loop {C} (fuel : nat) (c : C) (expected deadline backoff : Z) : prog C unit :=
  match fuel with
  | O => Diverge
  | S fuel' =>
      let* val := load_low32 c in
      if negb (val =? expected) then Ret tt
      else
        let* now := instant_now in
        if deadline <=? now then Ret tt
        else
          for_each (seqZ 0 backoff) (fun _ => sleep wfe_ns) ;;;
          wfe_loop fuel' c expected deadline (Z.min (backoff * 2) 64)
  end.

Definition futex_wait_aarch64 {C} (fuel : nat) (c : C) (expected timeout : Z) : prog C unit :=
  let* now := instant_now in
  wfe_loop fuel c expected (now + timeout) 1.

Definition os_unix_aarch64 (fuel : nat) : OsPlatform := {|
  os_futex_wait C := futex_wait_aarch64 fuel;
  os_futex_wake C c count := Ret tt
|}.

End Aarch64.

(** ** Waiting for a word to change *)

Definition SPIN_ITERS : nat := 100.
Definition YIELD_ITERS : nat := 10.

Definition spin_check {C} (c : C) (current : Z) : prog C (option (result Z unit)) :=
  let* val := load_low32 c in
  Ret (if negb (val =? current) then Some (Ok val) else None).

Fixpoint park_loop `{Os : OsPlatform} {C} (fuel : nat) (c : C) (current chunk deadline : Z)
    : prog C (result Z unit) :=
  match fuel with
  | O => Diverge
  | S fuel' =>
      let* val := load_low32 c in
      if negb (val =? current) then Ret (Ok val)
      else
        let* now := instant_now in
        if deadline <=? now then Ret (Err tt)
        else
          os_futex_wait c current chunk ;;;
          park_loop fuel' c current chunk deadline
  end.

Definition wait_until_not `{Os : OsPlatform} {C} (fuel : nat) (c : C) (current timeout : Z) (skip_spin : bool)
    : prog C (result Z unit) :=
  let park :=
    let chunk := Z.min timeout (duration_from_millis 10) in
    let* now := instant_now in
    park_loop fuel c current chunk (now + timeout) in
  if skip_spin then park
  else for_return (repeat tt (SPIN_ITERS + YIELD_ITERS)) (fun _ => spin_check c current) park.

(** ** Bounds *)

(** The yield hints of one iteration: at most 64, and the backoff doubles up to
    there. *)
Lemma wait_backoff iter : 0 <= iter -> wait BackoffSpin iter = 2 ^ Z.min iter 6.
Proof.
  intros Hi. cbn [wait]. unfold wrapping_shl32.
  rewrite Z.mod_small, Z.shiftl_1_l by lia. apply wrap32_small. split; [lia|].
  apply Z.pow_lt_mono_r; lia.
Qed.

Lemma wait_bound strategy iter : 0 <= iter -> 0 <= wait strategy iter <= 64.
Proof.
  intros Hi. destruct strategy; cbn [wait]; try lia.
  - fold (wait BackoffSpin iter). rewrite wait_backoff by done.
    split; [lia|]. change 64 with (2 ^ 6). apply Z.pow_le_mono_r; lia.
  - destruct (_ <? _); [lia|]. destruct (_ <? _); lia.
Qed.

(** ** What a back end promises *)

(** It only reads the word, waits for it, sleeps and looks at the clock. *)
Fixpoint waits_on {C A} (c : C) (p : prog C A) : Prop :=
  match p with
  | Ret _ | Diverge => True
  | ALoad c' k => c' = c /\ forall v, waits_on c (k v)
  | AMono k => forall v, waits_on c (k v)
  | APark c' _ _ k => c' = c /\ waits_on c k
  | ASleep _ k => waits_on c k
  | _ => False
  end.

Lemma waits_on_bind {C A B} (c : C) (p : prog C A) (f : A -> prog C B) :
  waits_on c p -> (forall a, waits_on c (f a)) -> waits_on c (bind p f).
Proof. intros Hp Hf. induction p; cbn in *; naive_solver. Qed.

Abbreviation MS := (duration_from_millis 1).

(** While the word keeps its value, a wait of 1 to 10 ms takes at least 1 ms and at most
    20 ms, and changes nothing. *)
Class OsLaws (P : OsPlatform) : Prop := {
  os_quiet : forall C (c : C) expected timeout, waits_on c (os_futex_wait c expected timeout);
  os_waits : forall C M `{Memory C M} (c : C) expected timeout (w : world C M),
    wrap32 (mload (w_mem w) c) = expected -> MS <= timeout <= 10 * MS ->
    exists d, MS <= d <= 20 * MS /\
      run (os_futex_wait c expected timeout) w = (Done tt, pass_time w d)
}.

#[export] Instance os_linux_laws : OsLaws os_linux.
Proof.
  split; [done|]. intros C M HM c expected timeout w Hv Ht. exists timeout.
  split; [unfold duration_from_millis in *; lia|]. cbn [os_futex_wait os_linux]. run_simpl.
  by rewrite Hv, Z.eqb_refl.
Qed.

Lemma os_windows_laws : OsLaws os_windows.
Proof.
  split.
  - intros C c expected timeout. cbn [os_futex_wait os_windows]. unfold futex_wait_windows.
    by destruct (_ =? 0).
  - intros C M HM c expected timeout w Hv Ht. cbn [os_futex_wait os_windows]. unfold futex_wait_windows.
    unfold duration_as_millis, duration_from_millis in *.
    assert (H1 : 1 <= timeout / 1000000 <= 10) by (split; [apply Z.div_le_lower_bound|apply Z.div_le_upper_bound]; lia).
    rewrite wrap32_small by lia. replace (_ =? 0) with false by lia.
    exists (timeout / 1000000 * 1000000). split; [lia|]. run_simpl. by rewrite Hv, Z.eqb_refl.
Qed.

Lemma os_unix_x86_laws : OsLaws os_unix_x86.
Proof.
  split; [done|]. intros C M HM c expected timeout w Hv Ht. exists MS.
  unfold duration_from_millis in *. split; [lia|]. cbn [os_futex_wait os_unix_x86]. unfold futex_wait_sleep, sleep. run_simpl.
  by rewrite Z.min_r by (unfold duration_from_millis; lia).
Qed.

Section Aarch64Laws.
Context (wfe_ns : Z) (fuel : nat).
Hypothesis (Hwfe : 0 < wfe_ns /\ 64 * wfe_ns <= 10 * MS).
Hypothesis (Hfuel : 10 * MS + wfe_ns <= Z.of_nat fuel * wfe_ns).

Lemma wfe_run {C M} `{Memory C M} n (w : world C M) :
  run (for_each (seqZ 0 n) (fun _ => sleep wfe_ns)) w = (Done tt, pass_time w (Z.max 0 n * wfe_ns)).
Proof.
  destruct (Z.le_gt_cases n 0) as [Hn|Hn].
  { rewrite seqZ_nil, Z.max_l by lia. by rewrite pass_time_0. }
  rewrite Z.max_r by lia. replace n with (Z.of_nat (Z.to_nat n)) by lia. generalize (Z.to_nat n).
  clear n Hn. intros n. unfold seqZ. rewrite Nat2Z.id. generalize 0%nat at 1. revert w.
  induction n as [|n IH]; intros w i; cbn [seq fmap list_fmap for_each]; [by rewrite pass_time_0|].
  cbn [bind sleep run]. rewrite IH, pass_time_add. do 2 f_equal. lia.
Qed.

Lemma wfe_loop_S {C} n (c : C) expected deadline backoff :
  wfe_loop wfe_ns (S n) c expected deadline backoff =
    (let* val := load_low32 c in
     if negb (val =? expected) then Ret tt
     else
       let* now := instant_now in
       if deadline <=? now then Ret tt
       else
         for_each (seqZ 0 backoff) (fun _ => sleep wfe_ns) ;;;
         wfe_loop wfe_ns n c expected deadline (Z.min (backoff * 2) 64)).
Proof. reflexivity. Qed.

Lemma wfe_loop_run {C M} `{Memory C M} n (c : C) expected deadline backoff (w : world C M) :
  wrap32 (mload (w_mem w) c) = expected -> 1 <= backoff <= 64 ->
  deadline - w_mono w <= Z.of_nat n * wfe_ns ->
  exists d, 0 <= d /\ deadline - w_mono w <= d < Z.max 1 (deadline - w_mono w + 64 * wfe_ns) /\
    run (wfe_loop wfe_ns (S n) c expected deadline backoff) w = (Done tt, pass_time w d).
Proof.
  revert backoff w. induction n as [|n IH]; intros backoff w Hv Hb Hd;
    rewrite wfe_loop_S; unfold load_low32; run_simpl; rewrite Hv, Z.eqb_refl; cbn [negb]; run_simpl;
    destruct (Z.leb_spec deadline (w_mono w)); try lia.
  1,2: exists 0; rewrite pass_time_0; split; [lia|]; split; [lia|done].
  rewrite run_bind, wfe_run, (Z.max_r 0 backoff) by lia. set (e := backoff * wfe_ns).
  assert (He : wfe_ns <= e <= 64 * wfe_ns) by nia.
  destruct (IH (Z.min (backoff * 2) 64) (pass_time w e)) as (d & Hd0 & Hd' & Hr); [done|lia|cbn; lia|].
  rewrite Hr, pass_time_add. cbn in Hd'. exists (e + d). split; [lia|]. split; [|done]. lia.
Qed.

Lemma os_unix_aarch64_laws : OsLaws (os_unix_aarch64 wfe_ns fuel).
Proof.
  split.
  - intros C c expected timeout now. cbn [bind]. clear Hfuel. generalize 1. generalize fuel as n.
    induction n as [|n IH]; intros backoff; cbn [wfe_loop]; [done|]. split; [done|]. intros v. cbn [bind].
    destruct (negb _); [done|]. intros now'. cbn [bind]. destruct (_ <=? _); [done|].
    apply waits_on_bind; [|done]. generalize (seqZ 0 backoff). intros l.
    induction l as [|x l IHl]; [done|]. exact IHl.
  - intros C M HM c expected timeout w Hv Ht. cbn [os_futex_wait os_unix_aarch64]. unfold futex_wait_aarch64. run_simpl.
    destruct fuel as [|n]; [unfold duration_from_millis in *; lia|].
    destruct (wfe_loop_run n c expected (w_mono w + timeout) 1 w) as (d & Hd0 & Hd & Hr); [done|lia|rewrite Nat2Z.inj_succ in Hfuel; unfold duration_from_millis in *; lia|].
    exists d. split; [|done]. unfold duration_from_millis in *. lia.
Qed.

End Aarch64Laws.

Section Park.
Context `{Os : OsPlatform, !OsLaws Os} {C M : Type} `{Memory C M}.

Lemma park_loop_S n (c : C) current chunk deadline :
  park_loop (S n) c current chunk deadline =
    (let* val := load_low32 c in
     if negb (val =? current) then Ret (Ok val)
     else
       let* now := instant_now in
       if deadline <=? now then Ret (Err tt)
       else os_futex_wait c current chunk ;;; park_loop n c current chunk deadline).
Proof. reflexivity. Qed.

(** If the word keeps its value, the wait ends with a timeout, after as many waits as it
    has milliseconds: that many iterations are enough. *)
Lemma park_loop_timeout fuel (c : C) current chunk deadline (w : world C M) :
  wrap32 (mload (w_mem w) c) = current -> MS <= chunk <= 10 * MS ->
  deadline - w_mono w <= Z.of_nat fuel * MS ->
  exists d, 0 <= d /\ deadline - w_mono w <= d <= Z.max 0 (deadline - w_mono w + 20 * MS) /\
    run (park_loop (S fuel) c current chunk deadline) w = (Done (Err tt), pass_time w d).
Proof.
  revert w. induction fuel as [|fuel IH]; intros w Hv Hc Hd;
    rewrite park_loop_S; unfold load_low32; run_simpl; rewrite Hv, Z.eqb_refl; cbn [negb]; run_simpl;
    destruct (Z.leb_spec deadline (w_mono w)); try lia.
  1,2: exists 0; rewrite pass_time_0; split; [lia|]; split; [lia|done].
  rewrite run_bind. destruct (os_waits C M c current chunk w) as (e & He & ->); [done|done|].
  destruct (IH (pass_time w e)) as (d & Hd0 & Hd' & Hr); [done|done|cbn; unfold duration_from_millis in *; lia|].
  rewrite Hr, pass_time_add. cbn in Hd'. exists (e + d). unfold duration_from_millis in *. split; [lia|].
  split; [lia|done].
Qed.

(** A word that already differs is reported at once. *)
Lemma park_loop_changed fuel (c : C) current chunk deadline (w : world C M) :
  wrap32 (mload (w_mem w) c) <> current ->
  run (park_loop (S fuel) c current chunk deadline) w =
    (Done (Ok (wrap32 (mload (w_mem w) c))), w).
Proof.
  intros Hv. cbn [park_loop]. unfold load_low32. run_simpl.
  apply Z.eqb_neq in Hv. by rewrite Hv.
Qed.

End Park.
