(* ===== verification/Subscription.v ===== *)
(** * Subscription: streams and samples (src/src/platform/subscription.rs)

    A [Stream] is a private cursor into a topic's ring. Receiving scans the
    window of the last [ring_depth] sequence numbers for the first slot that can
    be read: the slot's sequence number is checked, a reference to its block is
    taken by compare-exchange, and the sequence number is checked again. *)

From S2P Require Import Prelude Errors Layout Atomics ShmBytes Pool Ring Wait.

(** [size_of] and [align_of] of a [Pod] type. *)
Record Pod : Type := mkPod { size_of : Z; align_of : Z }.

Record Stream : Type := mkStream {
  st_region : Region;
  st_topic_idx : Z;
  st_last_seq : Z;
  st_type_size : Z
}.

Definition set_last_seq (st : Stream) (seq : Z) : Stream :=
  {| st_region := st_region st; st_topic_idx := st_topic_idx st;
     st_last_seq := seq; st_type_size := st_type_size st |}.

Record SlotRead : Type := mkSlotRead { sr_block_idx : Z; sr_data_len : Z }.

(** [Sample], [TypedSample] (whose length is [size_of::<T>()]) and [PinnedGuard]. *)
Record Sample : Type := mkSample { sm_region : Region; sm_block_idx : Z; sm_len : Z }.
Record TypedSample : Type := mkTypedSample {
  ts_region : Region; ts_block_idx : Z; ts_type : Pod }.
Record PinnedGuard : Type := mkPinnedGuard {
  pg_region : Region; pg_topic_idx : Z; pg_block_idx : Z; pg_len : Z }.

Definition stream_drop (st : Stream) : prog cell unit :=
  fetch_sub32 (TESubscriberCount (st_topic_idx st)) 1 ;;; Ret tt.

(** ** Reading a slot *)

(** Take a reference unless the block has none. *)
Fixpoint acquire_ref (fuel : nat) (refcount : cell) : prog cell bool :=
  match fuel with
  | O => Diverge
  | S fuel' =>
      let* rc := load refcount in
      if rc =? 0 then Ret false
      else
        let* (ok, _) := compare_exchange_weak refcount rc (wrap32 (rc + 1)) in
        if ok : bool then Ret true else acquire_ref fuel' refcount
  end.

(** On success, also the stream with its cursor advanced. *)
Definition try_read_slot_raw (fuel : nat) (st : Stream) (seq : Z)
    : prog cell (option (Stream * SlotRead)) :=
  let r := st_region st in
  let t := st_topic_idx st in
  let slot := ring_slot (rg_config r) seq in
  let* s1 := load (RESeq t slot) in
  if negb (s1 =? seq) then Ret None
  else
    let* block_idx := load (REBlockIdx t slot) in
    let* data_len := load (REDataLen t slot) in
    if block_idx =? NO_BLOCK then Ret None
    else if block_count (rg_config r) <=? block_idx then Ret None
    else if data_capacity r <? data_len then Ret None
    else
      match block_refcount_checked r block_idx with
      | None => Ret None
      | Some refcount =>
          let* acquired := acquire_ref fuel refcount in
          if negb acquired then Ret None
          else
            let* s2 := load (RESeq t slot) in
            if negb (s2 =? seq) then release_block r fuel block_idx ;;; Ret None
            else Ret (Some (set_last_seq st seq, mkSlotRead block_idx data_len))
      end.

(** The ring-window scan shared by [try_recv] and [try_recv_typed]. *)
Definition scan_start (ring_depth last_seq current_seq : Z) : Z :=
  let start := wrap64 (last_seq + 1) in
  if ring_depth <=? current_seq - start then current_seq - ring_depth + 1 else start.

Definition scan_slots (fuel : nat) (st : Stream) : prog cell (option (Stream * SlotRead)) :=
  let* current_seq := load (TEWriteSeq (st_topic_idx st)) in
  if current_seq <=? st_last_seq st then Ret None
  else
    let first := scan_start (ring_depth (rg_config (st_region st))) (st_last_seq st) current_seq in
    for_return (seqZ first (current_seq - first + 1))
      (fun seq =>
         let* o := try_read_slot_raw fuel st seq in
         Ret (match o with Some g => Some (Some g) | None => None end))
      (Ret None).

Definition try_recv (fuel : nat) (st : Stream) : prog cell (Stream * option Sample) :=
  let* o := scan_slots fuel st in
  Ret (match o with
       | None => (st, None)
       | Some (st', s) => (st', Some (mkSample (st_region st) (sr_block_idx s) (sr_data_len s)))
       end).

Definition try_recv_typed (fuel : nat) (T : Pod) (st : Stream)
    : prog cell (Stream * option TypedSample) :=
  if negb (st_type_size st =? 0) && negb (st_type_size st =? size_of T) then Ret (st, None)
  else
    let* o := scan_slots fuel st in
    Ret (match o with
         | None => (st, None)
         | Some (st', s) => (st', Some (mkTypedSample (st_region st) (sr_block_idx s) T))
         end).

(** ** Pinned topics *)

Fixpoint enter_readers (fuel : nat) (readers : cell) : prog cell bool :=
  match fuel with
  | O => Diverge
  | S fuel' =>
      let* current := load readers in
      if current =? PINNED_WRITER_ACTIVE then Ret false
      else
        let* (ok, _) := compare_exchange_weak readers current (wrap32 (current + 1)) in
        if ok : bool then Ret true else enter_readers fuel' readers
  end.

Definition try_recv_pinned (fuel : nat) (st : Stream) : prog cell (Stream * option PinnedGuard) :=
  let r := st_region st in
  let t := st_topic_idx st in
  let* packed := load (TEPinnedSeq t) in
  if packed =? 0 then Ret (st, None)
  else
    let seq := Z.shiftr packed 32 in
    let data_len := wrap32 packed in
    if seq <=? st_last_seq st then Ret (st, None)
    else
      let* block_idx := pinned_block t in
      if block_idx =? NO_BLOCK then Ret (st, None)
      else if block_count (rg_config r) <=? block_idx then Ret (st, None)
      else
        let* entered := enter_readers fuel (TEPinnedReaders t) in
        if negb entered then Ret (st, None)
        else
          let* packed2 := load (TEPinnedSeq t) in
          if negb (packed2 =? packed) then
            fetch_sub32 (TEPinnedReaders t) 1 ;;; Ret (st, None)
          else Ret (set_last_seq st seq, Some (mkPinnedGuard r t block_idx data_len)).

Definition pinned_guard_drop (g : PinnedGuard) : prog cell unit :=
  fetch_sub32 (TEPinnedReaders (pg_topic_idx g)) 1 ;;; Ret tt.

(** ** Samples *)

(** The [n] bytes of block [b] from offset [i]. *)
Fixpoint load_block (b i : Z) (n : nat) : prog cell bytes :=
  match n with
  | O => Ret []
  | S n' =>
      let* v := load (BKData b i) in
      let* rest := load_block b (i + 1) n' in
      Ret (v :: rest)
  end.

(** [Deref] and [to_vec]: the bytes of the sample. *)
Definition sample_to_vec (s : Sample) : prog cell bytes :=
  load_block (sm_block_idx s) 0 (Z.to_nat (sm_len s)).

(** Address of the sample's data. *)
Definition block_data_addr (r : Region) (b : Z) : Z :=
  rg_base r + block_off (rg_config r) b + BLOCK_DATA_OFFSET.

Definition is_multiple_of (x d : Z) : bool := if d =? 0 then x =? 0 else x mod d =? 0.

(** The bytes of the header; [None] if too short or misaligned. *)
Definition read_header (T : Pod) (s : Sample) : prog cell (option bytes) :=
  if sm_len s <? size_of T then Ret None
  else if negb (is_multiple_of (block_data_addr (sm_region s) (sm_block_idx s)) (align_of T))
  then Ret None
  else
    let* bs := load_block (sm_block_idx s) 0 (Z.to_nat (size_of T)) in
    Ret (Some bs).

(** The bytes of the array after the header. *)
Definition read_array (T E : Pod) (s : Sample) : prog cell (option bytes) :=
  let header_size := size_of T in
  let entry_size := size_of E in
  if sm_len s <? uadd header_size 4 then Ret None
  else
    let count_offset := sm_len s - 4 in
    let* cs := load_block (sm_block_idx s) count_offset 4 in
    let count := le_decode cs in
    let array_bytes := umul count entry_size in
    if negb (uadd (uadd header_size array_bytes) 4 =? sm_len s) then Ret None
    else if negb (is_multiple_of
                    (block_data_addr (sm_region s) (sm_block_idx s) + header_size) (align_of E))
    then Ret None
    else
      let* bs := load_block (sm_block_idx s) header_size (Z.to_nat (count * entry_size)) in
      Ret (Some bs).

Definition sample_drop (fuel : nat) (s : Sample) : prog cell unit :=
  release_block (sm_region s) fuel (sm_block_idx s).

Definition typed_sample_deref (s : TypedSample) : prog cell bytes :=
  load_block (ts_block_idx s) 0 (Z.to_nat (size_of (ts_type s))).

Definition typed_sample_drop (fuel : nat) (s : TypedSample) : prog cell unit :=
  release_block (ts_region s) fuel (ts_block_idx s).

Definition pinned_guard_deref (g : PinnedGuard) : prog cell bytes :=
  load_block (pg_block_idx g) 0 (Z.to_nat (pg_len g)).

(** ** Blocking receive *)

Definition poll_ms (st : Stream) : Z :=
  Z.max 1 (Z.min 50 (wrap64 (duration_as_millis (stale_timeout (rg_config (st_region st)))) / 3)).

(** Continue the loop unless the publisher is dead. *)
Definition or_dead {A} (st : Stream) (k : prog cell (Stream * result A Error))
    : prog cell (Stream * result A Error) :=
  let* hb := check_heartbeat (st_region st) in
  match hb with
  | Err e => Ret (st, Err e)
  | Ok _ => k
  end.

Section Blocking.
Context `{Os : OsPlatform} {A : Type} (try_fn : Stream -> prog cell (Stream * option A)).
(** Iterations allowed to the inner futex loop. *)
Context (park_fuel : nat).

Definition os_sleep (st : Stream) (k : Stream -> prog cell (Stream * result A Error))
    : prog cell (Stream * result A Error) :=
  let t := st_topic_idx st in
  let* cur := load_low32 (TEWriteSeq t) in
  let* (st1, g) := try_fn st in
  match g with
  | Some g => Ret (st1, Ok g)
  | None =>
      fetch_add32 (TEWaiters t) 1 ;;;
      let* res := wait_until_not park_fuel (TEWriteSeq t) cur
                    (duration_from_millis (poll_ms st)) true in
      fetch_sub32 (TEWaiters t) 1 ;;;
      match res with
      | Err _ => or_dead st1 (k st1)
      | Ok _ => k st1
      end
  end.

Fixpoint blocking_loop (fuel : nat) (strategy : WaitStrategy) (iter : Z) (st : Stream)
    : prog cell (Stream * result A Error) :=
  match fuel with
  | O => Diverge
  | S fuel' =>
      let* (st1, g) := try_fn st in
      match g with
      | Some g => Ret (st1, Ok g)
      | None =>
          let spin :=
            let iter' := saturating_add32 iter 1 in
            if iter' mod 1024 =? 0 then or_dead st1 (blocking_loop fuel' strategy iter' st1)
            else blocking_loop fuel' strategy iter' st1 in
          match strategy with
          | Adaptive spin_iters yield_iters =>
              if saturating_add32 spin_iters yield_iters <=? iter
              then os_sleep st1 (blocking_loop fuel' strategy iter)
              else spin
          | _ => spin
          end
      end
  end.

Definition blocking_recv (fuel : nat) (strategy : WaitStrategy) (st : Stream)
    : prog cell (Stream * result A Error) :=
  let* (st1, g) := try_fn st in
  match g with
  | Some g => Ret (st1, Ok g)
  | None => blocking_loop fuel strategy 0 st1
  end.

End Blocking.

Definition recv_with `{Os : OsPlatform} (fuel park_fuel : nat) (strategy : WaitStrategy) (st : Stream) :=
  blocking_recv (try_recv fuel) park_fuel fuel strategy st.
Definition recv `{Os : OsPlatform} (fuel park_fuel : nat) (st : Stream) :=
  recv_with fuel park_fuel wait_strategy_default st.
Definition recv_typed_with `{Os : OsPlatform} (fuel park_fuel : nat) (T : Pod) (strategy : WaitStrategy) (st : Stream) :=
  blocking_recv (try_recv_typed fuel T) park_fuel fuel strategy st.
Definition recv_typed `{Os : OsPlatform} (fuel park_fuel : nat) (T : Pod) (st : Stream) :=
  recv_typed_with fuel park_fuel T wait_strategy_default st.
Definition recv_pinned_with `{Os : OsPlatform} (fuel park_fuel : nat) (strategy : WaitStrategy) (st : Stream) :=
  blocking_recv (try_recv_pinned fuel) park_fuel fuel strategy st.
Definition recv_pinned `{Os : OsPlatform} (fuel park_fuel : nat) (st : Stream) :=
  recv_pinned_with fuel park_fuel wait_strategy_default st.

(** ** What a blocking receive may do

    The accesses of the waiting loop, for any notion of valid cells: what holds of the
    non-blocking receive it is built on holds of the blocking one. *)

Class StreamCells (valid : cell -> Prop) (fits : cell -> Z -> Prop) (ok : Stream -> Prop) : Prop := {
  sc_heartbeat : valid GHHeartbeat;
  sc_write_seq : forall st, ok st -> valid (TEWriteSeq (st_topic_idx st));
  sc_waiters : forall st, ok st -> valid (TEWaiters (st_topic_idx st));
  sc_waiters_fit : forall st v, ok st -> fits (TEWaiters (st_topic_idx st)) (wrap32 v)
}.

Section BlockingRules.
Context (valid : cell -> Prop) (fits : cell -> Z -> Prop) (ok : Stream -> Prop).
Context `{!StreamCells valid fits ok} `{Os : OsPlatform, !OsLaws Os}.
Local Abbreviation robust := (robust valid fits).

Lemma rb_check_heartbeat r : robust (check_heartbeat r) (fun _ => True).
Proof. split; cbn; [split; [apply sc_heartbeat|]|]; by intros hb _ [now|]. Qed.

Lemma rb_load_low32 c : valid c -> robust (load_low32 c) (fun _ => True).
Proof. intros Hc. by split; cbn. Qed.

(** A back end's wait touches only the word it waits for. *)
Lemma rb_waits {A} c (p : prog cell A) : valid c -> waits_on c p -> robust p (fun _ => True).
Proof.
  intros Hc Hp. split; [|apply returns_any]. induction p; cbn in *; naive_solver.
Qed.

Lemma rb_park_loop fuel c current chunk deadline :
  valid c -> robust (park_loop fuel c current chunk deadline) (fun _ => True).
Proof.
  intros Hc. induction fuel as [|fuel IH]; cbn [park_loop]; [apply rb_diverge|].
  eapply rb_bind; [by apply rb_load_low32|]. intros v _. destruct (negb _); [by apply rb_ret|].
  eapply rb_bind; [apply rb_mono|]. intros now _. destruct (_ <=? _); [by apply rb_ret|].
  eapply rb_bind; [by eapply rb_waits, os_quiet|]. intros _ _. exact IH.
Qed.

Lemma rb_waiters (f : Z -> Z) st : ok st ->
  robust (ARmw (TEWaiters (st_topic_idx st)) (fun v => wrap32 (f v)) Ret) (fun _ => True).
Proof. intros Hst. split; cbn; [|done]. split; [by apply sc_waiters|]. intros v _. split; [by apply sc_waiters_fit|done]. Qed.

Section Receive.
Context {A : Type} (try_fn : Stream -> prog cell (Stream * option A)) (good : A -> Prop) (park_fuel : nat).

Definition attempt_ok (x : Stream * option A) : Prop := ok x.1 /\ forall g, x.2 = Some g -> good g.
Definition receive_ok (x : Stream * result A Error) : Prop := ok x.1 /\ forall g, x.2 = Ok g -> good g.

Hypothesis (Htry : forall st, ok st -> robust (try_fn st) attempt_ok).

Lemma rb_or_else st (k : Stream -> prog cell (Stream * result A Error)) :
  ok st -> (forall st1, ok st1 -> robust (k st1) receive_ok) ->
  robust (let* (st1, g) := try_fn st in match g with Some g => Ret (st1, Ok g) | None => k st1 end) receive_ok.
Proof.
  intros Hst Hk. eapply rb_bind; [by apply Htry|]. intros [st1 [g|]] [Hst1 Hg]; [|by apply Hk].
  apply rb_ret. split; [done|]. intros g' [= <-]. by apply Hg.
Qed.

Lemma rb_or_dead st (k : prog cell (Stream * result A Error)) :
  ok st -> robust k receive_ok -> robust (or_dead st k) receive_ok.
Proof.
  intros Hst Hk. eapply rb_bind; [apply rb_check_heartbeat|]. intros [u|e] _; [exact Hk|]. by apply rb_ret.
Qed.

Lemma rb_os_sleep st (k : Stream -> prog cell (Stream * result A Error)) :
  ok st -> (forall st1, ok st1 -> robust (k st1) receive_ok) ->
  robust (os_sleep try_fn park_fuel st k) receive_ok.
Proof.
  intros Hst Hk. unfold os_sleep. cbn zeta. set (t := st_topic_idx st).
  eapply rb_bind; [by apply rb_load_low32, sc_write_seq|]. intros cur _.
  apply (rb_or_else st (fun st1 => fetch_add32 (TEWaiters t) 1 ;;;
    let* res := wait_until_not park_fuel (TEWriteSeq t) cur (duration_from_millis (poll_ms st)) true in
    fetch_sub32 (TEWaiters t) 1 ;;; match res with Err _ => or_dead st1 (k st1) | Ok _ => k st1 end) Hst).
  intros st1 Hst1. eapply rb_bind; [by apply rb_waiters|]. intros n _. eapply rb_bind.
  { eapply rb_bind; [apply rb_mono|]. intros now _. by apply rb_park_loop, sc_write_seq. }
  intros res _. eapply rb_bind; [by apply rb_waiters|]. intros n' _.
  destruct res; [by apply Hk|]. apply rb_or_dead; [done|by apply Hk].
Qed.

Lemma rb_blocking_loop strategy n iter st :
  ok st -> robust (blocking_loop try_fn park_fuel n strategy iter st) receive_ok.
Proof.
  revert iter st. induction n as [|n IH]; intros iter st Hst; cbn [blocking_loop]; [apply rb_diverge|].
  set (spin := fun st1 => if saturating_add32 iter 1 mod 1024 =? 0
    then or_dead st1 (blocking_loop try_fn park_fuel n strategy (saturating_add32 iter 1) st1)
    else blocking_loop try_fn park_fuel n strategy (saturating_add32 iter 1) st1).
  assert (Hspin : forall st1, ok st1 -> robust (spin st1) receive_ok).
  { intros st1 Hst1. unfold spin. destruct (_ =? 0); [apply rb_or_dead; [done|]|]; by apply IH. }
  apply (rb_or_else st (fun st1 => match strategy with
    | Adaptive spin_iters yield_iters => if saturating_add32 spin_iters yield_iters <=? iter
        then os_sleep try_fn park_fuel st1 (blocking_loop try_fn park_fuel n strategy iter) else spin st1
    | _ => spin st1 end) Hst).
  intros st1 Hst1. destruct strategy; try by apply Hspin. destruct (_ <=? _); [|by apply Hspin].
  apply rb_os_sleep; [done|]. intros st2 Hst2. by apply IH.
Qed.

Lemma rb_blocking_recv strategy fuel st :
  ok st -> robust (blocking_recv try_fn park_fuel fuel strategy st) receive_ok.
Proof.
  intros Hst. apply (rb_or_else st (blocking_loop try_fn park_fuel fuel strategy 0) Hst).
  intros st1 Hst1. by apply rb_blocking_loop.
Qed.

End Receive.
End BlockingRules.
