(* ===== verification/Waiting.v ===== *)
(** * Waiting: blocking receives in the rely-guarantee logic
    (src/src/platform/subscription.rs, src/src/platform/notify.rs)

    [blocking_recv] is one loop for every kind of receive. While it waits, it looks at
    the heartbeat, the clocks and the topic's sequence counter, and counts itself in the
    word of waiters. An assertion that survives these steps and the environment's is
    [undisturbed]; for such an assertion the loop inherits the specification of the
    non-blocking receive it repeats, whatever the strategy and the back end. *)

From S2P Require Import Prelude Errors Layout Atomics Rely ShmBytes Pool Ring Wait Subscription.

(** Reads words other than the pool head and the clocks, waits, and counts in the words
    of waiters. *)
Fixpoint passive {A} (p : prog cell A) : Prop :=
  match p with
  | Ret _ | Diverge => True
  | ALoad c k => c <> GHPoolHead /\ forall v, passive (k v)
  | ARmw c _ k => (exists ti, c = TEWaiters ti) /\ forall v, passive (k v)
  | ANow k => forall v, passive (k v)
  | AMono k => forall v, passive (k v)
  | AWake _ k | APark _ _ _ k | ASleep _ k => passive k
  | _ => False
  end.

Lemma passive_bind {A B} (p : prog cell A) (f : A -> prog cell B) :
  passive p -> (forall a, passive (f a)) -> passive (bind p f).
Proof. intros Hp Hf. induction p; cbn in *; naive_solver. Qed.

Lemma passive_check_heartbeat r : passive (check_heartbeat r).
Proof. split; [done|]. intros hb [now|]; done. Qed.

Lemma waits_on_passive {A} c (p : prog cell A) : c <> GHPoolHead -> waits_on c p -> passive p.
Proof. intros Hc Hp. induction p; cbn in *; naive_solver. Qed.

Lemma passive_park_loop `{Os : OsPlatform, !OsLaws Os} fuel c current chunk deadline :
  c <> GHPoolHead -> passive (park_loop fuel c current chunk deadline).
Proof.
  intros Hc. induction fuel as [|fuel IH]; cbn [park_loop]; [done|]. split; [done|]. intros v. cbn [bind].
  destruct (negb _); [done|]. intros now. cbn [bind]. destruct (_ <=? _); [done|].
  apply passive_bind; [|done]. by eapply waits_on_passive, os_quiet.
Qed.

Lemma passive_wait `{Os : OsPlatform, !OsLaws Os} fuel c current timeout :
  c <> GHPoolHead -> passive (wait_until_not fuel c current timeout true).
Proof. intros Hc now. by apply passive_park_loop. Qed.

Section Waiting.
Context {Gh : Type} (window : cell -> option Z).
Local Abbreviation gst := (Gh * hstate cell)%type.
Context (Inv : gst -> Prop) (Rely Guar : nat -> gst -> gst -> Prop).
Context {Rely_pre : forall t, PreOrder (Rely t)}.
Context (t : nat).
Local Abbreviation tri := (hoare window Inv Rely Guar t).

Record undisturbed (P : gst -> Prop) : Prop := {
  ud_kept : kept Rely t P;
  ud_look : forall c σ, c <> GHPoolHead -> P σ -> Inv σ -> moves Inv Guar t σ (h_see t c σ.2) P;
  ud_count : forall ti v σ, P σ -> Inv σ -> moves Inv Guar t σ (h_set (TEWaiters ti) v σ.2) P
}.

Lemma hoare_passive {A} P (p : prog cell A) : undisturbed P -> passive p -> tri P p (fun _ => P).
Proof.
  intros [Hk Hl Hc].
  induction p as [a| | |c k IH|c v k IH|c f k IH|wk c old new k IH|k IH|k IH|c k IH|c e d k IH|d k IH];
    intros Hp; cbn [passive] in Hp; try done.
  - apply hoare_ret; auto.
  - destruct Hp. eapply hoare_load with (P' := fun _ => P); auto.
  - destruct Hp as [[ti ->] Hp]. eapply hoare_rmw with (P' := fun _ => P); auto.
  - apply hoare_now; auto.
  - apply hoare_instant; auto.
  - apply hoare_wake; auto.
  - intros σ0 H0 σ Hr Hi. apply IH; [done|]. by eapply Hk.
  - intros σ0 H0 σ Hr Hi. apply IH; [done|]. by eapply Hk.
Qed.

Section Blocking.
Context `{Os : OsPlatform, !OsLaws Os}.
Context {A : Type} (try_fn : Stream -> prog cell (Stream * option A)).
Context (P : gst -> Prop) (Q : Stream * result A Error -> gst -> Prop) (st : Stream).
Hypothesis (HP : undisturbed P).
Hypothesis (HQ : forall st1 g, kept Rely t (Q (st1, Ok g))).
Hypothesis (Herr : forall e σ, P σ -> Q (st, Err e) σ).
(** An attempt that finds nothing leaves the stream and the assertion alone. *)
Hypothesis (Htry : tri P (try_fn st) (fun res σ =>
  match res.2 with Some g => Q (res.1, Ok g) σ | None => res.1 = st /\ P σ end)).

Lemma tri_or_else (k : Stream -> prog cell (Stream * result A Error)) :
  tri P (k st) Q ->
  tri P (let* (st1, g) := try_fn st in match g with Some g => Ret (st1, Ok g) | None => k st1 end) Q.
Proof.
  intros Hk. eapply hoare_bind; [apply _|exact Htry|]. intros [st1 [g|]]; cbn [fst snd].
  - by apply hoare_ret.
  - apply hoare_pure. by intros ->.
Qed.

Lemma tri_passive_then {B} (p : prog cell B) (k : B -> prog cell (Stream * result A Error)) :
  passive p -> (forall x, tri P (k x) Q) -> tri P (bind p k) Q.
Proof. intros Hp Hk. eapply hoare_bind; [apply _|by apply hoare_passive|exact Hk]. Qed.

Lemma tri_or_dead (k : prog cell (Stream * result A Error)) : tri P k Q -> tri P (or_dead st k) Q.
Proof.
  intros Hk. apply tri_passive_then; [apply passive_check_heartbeat|]. intros [[]|e]; [exact Hk|].
  apply hoare_ret; [apply HP|]. intros σ Hσ _. by apply Herr.
Qed.

Lemma tri_os_sleep pf (k : Stream -> prog cell (Stream * result A Error)) :
  tri P (k st) Q -> tri P (os_sleep try_fn pf st k) Q.
Proof.
  intros Hk. unfold os_sleep. set (ti := st_topic_idx st). cbn zeta.
  apply tri_passive_then; [done|]. intros cur.
  apply (tri_or_else (fun st1 => fetch_add32 (TEWaiters ti) 1 ;;;
    let* res := wait_until_not pf (TEWriteSeq ti) cur (duration_from_millis (poll_ms st)) true in
    fetch_sub32 (TEWaiters ti) 1 ;;; match res with Err _ => or_dead st1 (k st1) | Ok _ => k st1 end)).
  apply tri_passive_then; [split; [by exists ti|done]|]. intros w.
  apply tri_passive_then; [by apply passive_wait|]. intros res.
  apply tri_passive_then; [split; [by exists ti|done]|]. intros w'.
  destruct res; [exact Hk|by apply tri_or_dead].
Qed.

Lemma tri_blocking_loop pf strategy m iter : tri P (blocking_loop try_fn pf m strategy iter st) Q.
Proof.
  revert iter. induction m as [|m IH]; intros iter; cbn [blocking_loop]; [apply hoare_diverge|].
  set (spin := fun st1 => if saturating_add32 iter 1 mod 1024 =? 0
    then or_dead st1 (blocking_loop try_fn pf m strategy (saturating_add32 iter 1) st1)
    else blocking_loop try_fn pf m strategy (saturating_add32 iter 1) st1).
  assert (Hspin : tri P (spin st) Q) by (unfold spin; destruct (_ =? 0); [apply tri_or_dead|]; apply IH).
  apply (tri_or_else (fun st1 => match strategy with
    | Adaptive spin_iters yield_iters => if saturating_add32 spin_iters yield_iters <=? iter
        then os_sleep try_fn pf st1 (blocking_loop try_fn pf m strategy iter) else spin st1
    | _ => spin st1 end)).
  destruct strategy; try exact Hspin. destruct (_ <=? _); [|exact Hspin]. apply tri_os_sleep, IH.
Qed.

Lemma tri_blocking_recv pf strategy m : tri P (blocking_recv try_fn pf m strategy st) Q.
Proof. apply (tri_or_else (blocking_loop try_fn pf m strategy 0)). apply tri_blocking_loop. Qed.

End Blocking.

End Waiting.
