(* ===== verification/Loan.v ===== *)
(** * Loan: writing into a loaned block (src/src/platform/loan.rs)

    A loan owns a block that no one else can reach until it is published. The
    untyped loan checks every length against its capacity; publishing hands the
    block to the ring, dropping the loan gives it back to the pool. *)

From S2P Require Import Prelude Errors Layout Atomics ShmBytes Pool Ring Subscription.

Record Loan : Type := mkLoan {
  ln_region : Region;
  ln_capacity : Z;
  ln_len : Z;
  ln_block_idx : Z;
  ln_topic_idx : Z;
  ln_single_publisher : bool
}.

Definition ln_set_len (l : Loan) (len : Z) : Loan :=
  {| ln_region := ln_region l; ln_capacity := ln_capacity l; ln_len := len;
     ln_block_idx := ln_block_idx l; ln_topic_idx := ln_topic_idx l;
     ln_single_publisher := ln_single_publisher l |}.

(** ** Copies into a block *)

(** [copy_nonoverlapping] of [bs] to offset [i] of the block's data. *)
Fixpoint store_block (b i : Z) (bs : bytes) : prog cell unit :=
  match bs with
  | [] => Ret tt
  | v :: bs' => store (BKData b i) v ;;; store_block b (i + 1) bs'
  end.

(** The 16-byte streaming loop; [rest] is the source from [offset]. *)
Fixpoint stream_loop (fuel : nat) (b offset len : Z) (rest : bytes) : prog cell (Z * bytes) :=
  match fuel with
  | O => Diverge
  | S fuel' =>
      if offset + 16 <=? len then
        store_block b offset (take 16 rest) ;;;
        stream_loop fuel' b (offset + 16) len (drop 16 rest)
      else Ret (offset, rest)
  end.

(** [addr.align_offset(16)] of a byte pointer. *)
Definition align_offset16 (addr : Z) : Z := (- addr) mod 16.

Definition nontemporal_copy (src : bytes) (dst_addr b : Z) (len : Z) : prog cell unit :=
  let align_offset := Z.min (align_offset16 dst_addr) len in
  (if 0 <? align_offset then store_block b 0 (take (Z.to_nat align_offset) src) else Ret tt) ;;;
  let offset := if 0 <? align_offset then align_offset else 0 in
  let* (offset, rest) :=
    stream_loop (S (Z.to_nat (len / 16))) b offset len (drop (Z.to_nat offset) src) in
  if offset <? len then store_block b offset (take (Z.to_nat (len - offset)) rest) else Ret tt.

(** ** Filling a loan *)

Definition set_data (l : Loan) (data : bytes) : prog cell (Loan * result unit Error) :=
  if ln_capacity l <? blen data
  then Ret (l, Err (DataTooLarge (blen data) (ln_capacity l)))
  else if 2097152 <=? blen data then
    nontemporal_copy data (block_data_addr (ln_region l) (ln_block_idx l)) (ln_block_idx l)
      (blen data) ;;;
    Ret (ln_set_len l (blen data), Ok tt)
  else
    store_block (ln_block_idx l) 0 data ;;;
    Ret (ln_set_len l (blen data), Ok tt).

Definition set_len (l : Loan) (len : Z) : Loan * result unit Error :=
  if ln_capacity l <? len then (l, Err (DataTooLarge len (ln_capacity l)))
  else (ln_set_len l len, Ok tt).

(** Writing [bs] through [as_mut_slice] at offset [i]; slice indexing panics out
    of range. *)
Definition write_slice (l : Loan) (i : Z) (bs : bytes) : prog cell unit :=
  if ln_capacity l <? i + blen bs then Panic else store_block (ln_block_idx l) i bs.

(** [header] is the bytes of the header, [entries] those of the [count] entries. *)
Definition write_structured (T E : Pod) (l : Loan) (header entries : bytes) (count : Z)
    : prog cell (Loan * result unit Error) :=
  let header_size := size_of T in
  let array_size := count * size_of E in
  let total := uadd (uadd header_size array_size) 4 in
  if ln_capacity l <? total then Ret (l, Err (DataTooLarge total (ln_capacity l)))
  else
    store_block (ln_block_idx l) 0 header ;;;
    (if negb (count =? 0) then store_block (ln_block_idx l) header_size entries else Ret tt) ;;;
    write_slice l (uadd header_size array_size) (le_encode 4 (wrap32 count)) ;;;
    Ret (set_len l total).

(** [io::Write::write]; [None] is the [WriteZero] error. *)
Definition io_write (l : Loan) (buf : bytes) : prog cell (Loan * option Z) :=
  let remaining := wrap64 (ln_capacity l - ln_len l) in
  if (remaining =? 0) && negb (blen buf =? 0) then Ret (l, None)
  else
    let n := Z.min (blen buf) remaining in
    store_block (ln_block_idx l) (ln_len l) (take (Z.to_nat n) buf) ;;;
    Ret (ln_set_len l (uadd (ln_len l) n), Some n).

(** ** Publishing *)

Definition loan_commit (fuel : nat) (l : Loan) (wake : bool) : prog cell unit :=
  if ln_len l <=? u32_max then
    commit_to_ring (ln_region l) fuel (ln_block_idx l) (wrap32 (ln_len l)) (ln_topic_idx l)
      wake (ln_single_publisher l)
  else Panic.

Definition loan_publish (fuel : nat) (l : Loan) : prog cell unit := loan_commit fuel l true.
Definition loan_publish_silent (fuel : nat) (l : Loan) : prog cell unit := loan_commit fuel l false.

(** Dropped without publishing. *)
Definition loan_drop (fuel : nat) (l : Loan) : prog cell unit :=
  free_block (ln_region l) fuel (ln_block_idx l).

(** ** Typed loans *)

Record TypedLoan : Type := mkTypedLoan {
  tl_region : Region;
  tl_block_idx : Z;
  tl_topic_idx : Z;
  tl_single_publisher : bool;
  tl_type : Pod
}.

Definition typed_commit (fuel : nat) (l : TypedLoan) (wake : bool) : prog cell unit :=
  commit_to_ring (tl_region l) fuel (tl_block_idx l) (wrap32 (size_of (tl_type l)))
    (tl_topic_idx l) wake (tl_single_publisher l).

(** [value] is the bytes of the value. *)
Definition typed_send (fuel : nat) (l : TypedLoan) (value : bytes) : prog cell unit :=
  store_block (tl_block_idx l) 0 value ;;;
  typed_commit fuel l true.

Definition typed_publish (fuel : nat) (l : TypedLoan) : prog cell unit := typed_commit fuel l true.
Definition typed_publish_silent (fuel : nat) (l : TypedLoan) : prog cell unit :=
  typed_commit fuel l false.
Definition typed_loan_drop (fuel : nat) (l : TypedLoan) : prog cell unit :=
  free_block (tl_region l) fuel (tl_block_idx l).

(** ** Pinned loans *)

Record PinnedLoan : Type := mkPinnedLoan {
  pl_region : Region;
  pl_block_idx : Z;
  pl_capacity : Z;
  pl_len : Z;
  pl_topic_idx : Z
}.

Definition pl_with_len (l : PinnedLoan) (len : Z) : PinnedLoan :=
  {| pl_region := pl_region l; pl_block_idx := pl_block_idx l; pl_capacity := pl_capacity l;
     pl_len := len; pl_topic_idx := pl_topic_idx l |}.

Definition pinned_set_data (l : PinnedLoan) (data : bytes)
    : prog cell (PinnedLoan * result unit Error) :=
  if pl_capacity l <? blen data
  then Ret (l, Err (DataTooLarge (blen data) (pl_capacity l)))
  else
    store_block (pl_block_idx l) 0 data ;;;
    Ret (pl_with_len l (blen data), Ok tt).

Definition pinned_set_len (l : PinnedLoan) (len : Z) : PinnedLoan * result unit Error :=
  if pl_capacity l <? len then (l, Err (DataTooLarge len (pl_capacity l)))
  else (pl_with_len l len, Ok tt).

(** As for [Loan]. *)
Definition pinned_write_structured (T E : Pod) (l : PinnedLoan) (header entries : bytes) (count : Z)
    : prog cell (PinnedLoan * result unit Error) :=
  let header_size := size_of T in
  let array_size := count * size_of E in
  let total := uadd (uadd header_size array_size) 4 in
  if pl_capacity l <? total then Ret (l, Err (DataTooLarge total (pl_capacity l)))
  else
    store_block (pl_block_idx l) 0 header ;;;
    (if negb (count =? 0) then store_block (pl_block_idx l) header_size entries else Ret tt) ;;;
    (if pl_capacity l <? uadd header_size array_size + 4 then Panic
     else store_block (pl_block_idx l) (uadd header_size array_size) (le_encode 4 (wrap32 count))) ;;;
    Ret (pinned_set_len l total).

Definition pinned_publish (l : PinnedLoan) : prog cell unit :=
  if pl_len l <=? u32_max then
    commit_pinned (wrap32 (pl_len l)) (pl_topic_idx l) ;;;
    store (TEPinnedReaders (pl_topic_idx l)) 0
  else Panic.

Definition pinned_loan_drop (l : PinnedLoan) : prog cell unit :=
  store (TEPinnedReaders (pl_topic_idx l)) 0.

(** ** Copies *)

Lemma store_block_app b i l1 l2 :
  store_block b i (l1 ++ l2) = (store_block b i l1 ;;; store_block b (i + blen l1) l2).
Proof.
  revert i. induction l1 as [|v l1 IH]; intros i; cbn.
  - by rewrite Z.add_0_r.
  - f_equal. rewrite IH. unfold blen. cbn [length]. by replace (i + 1 + Z.of_nat (length l1))
      with (i + Z.of_nat (S (length l1))) by lia.
Qed.

Lemma store_block_bind {A B} b i l (p : prog cell A) (f : A -> prog cell B) :
  bind (store_block b i l ;;; p) f = (store_block b i l ;;; bind p f).
Proof. revert i. induction l as [|v l IH]; intros i; cbn; [done|]. f_equal. apply IH. Qed.

Lemma bind_ret {C A B} (a : A) (f : A -> prog C B) : (let* x := Ret a in f x) = f a.
Proof. reflexivity. Qed.

(** The streaming loop and the tail copy what is left of the source. *)
Lemma stream_loop_tail fuel b offset len rest :
  0 <= offset -> len - offset = blen rest -> len - offset < 16 * Z.of_nat fuel ->
  (let* (offset, rest) := stream_loop fuel b offset len rest in
   if offset <? len then store_block b offset (take (Z.to_nat (len - offset)) rest) else Ret tt)
  = store_block b offset rest.
Proof.
  revert offset rest. induction fuel as [|fuel IH]; intros offset rest H0 Hlen Hf.
  - unfold blen in Hlen. lia.
  - cbn [stream_loop]. destruct (Z.leb_spec (offset + 16) len) as [Hle|Hgt].
    + assert (Ht : blen (take 16 rest) = 16) by (unfold blen in *; rewrite length_take; lia).
      transitivity (store_block b offset (take 16 rest ++ drop 16 rest)); [|by rewrite take_drop].
      rewrite store_block_app, Ht, store_block_bind, IH; [done|lia| |lia].
      unfold blen in *. rewrite length_drop. lia.
    + rewrite bind_ret. unfold blen in Hlen. destruct (Z.ltb_spec offset len).
      * rewrite Hlen, Nat2Z.id, firstn_all. done.
      * assert (length rest = 0)%nat by lia. by destruct rest.
Qed.

(** The streaming copy writes exactly what the plain copy writes, in the same
    order, whatever the alignment of the destination. *)
Lemma nontemporal_copy_eq src addr b :
  nontemporal_copy src addr b (blen src) = store_block b 0 src.
Proof.
  unfold nontemporal_copy. set (a := Z.min (align_offset16 addr) (blen src)).
  assert (Ha : 0 <= a < 16 /\ a <= blen src).
  { unfold a, align_offset16. pose proof (Z.mod_pos_bound (- addr) 16). unfold blen. lia. }
  assert (Hb : 0 <= blen src) by (unfold blen; lia).
  assert (Hf : forall x, 0 <= x -> blen src - x < 16 * Z.of_nat (S (Z.to_nat (blen src / 16)))).
  { intros x Hx. pose proof (Z.div_mod (blen src) 16). pose proof (Z.mod_pos_bound (blen src) 16).
    assert (0 <= blen src / 16) by (apply Z.div_pos; lia). lia. }
  destruct (Z.ltb_spec 0 a).
  - cbv zeta. rewrite stream_loop_tail; [|lia| |apply Hf; lia].
    + transitivity (store_block b 0 (take (Z.to_nat a) src ++ drop (Z.to_nat a) src));
        [|by rewrite take_drop].
      rewrite store_block_app. replace (0 + blen (take (Z.to_nat a) src)) with a; [done|].
      unfold blen in *. rewrite length_take. lia.
    + unfold blen in *. rewrite length_drop. lia.
  - cbv zeta. rewrite bind_ret, stream_loop_tail; [by rewrite drop_0|lia| |apply Hf; lia].
    rewrite drop_0. lia.
Qed.
