(* ===== verification/Publisher.v ===== *)
(** * Publisher: regions, topics and loans (src/src/platform/shm.rs)

    Creating a region writes the header, the free list and the empty rings;
    opening one validates the header before anything derived from it is used.
    The topic table is claimed slot by slot. A publisher allocates blocks from
    its recycled block, its local cache and the shared free list, in that order. *)

From S2P Require Import Prelude Errors Layout Atomics ShmBytes Pool Ring Subscription Loan.

(** ** Creating and opening a region *)

Definition validate_name (name : bytes) : result unit Error :=
  if negb (is_valid_segment_name name) then Err (SegmentNameInvalid name) else Ok tt.

(** The checks of [create], in order; the size of the file to create. *)
Definition create_validate (name : bytes) (config : Config) : result Z Error :=
  match validate_name name with
  | Err e => Err e
  | Ok _ =>
      if block_size config <? BLOCK_DATA_OFFSET + 1
      then Err (InvalidRegion (BlockSizeTooSmall (block_size config)))
      else if negb (is_power_of_two (ring_depth config))
      then Err (InvalidRegion (RingDepthNotPow2 (ring_depth config)))
      else if block_count config =? 0 then Err (InvalidRegion BlockCountZero)
      else if max_topics config =? 0 then Err (InvalidRegion MaxTopicsZero)
      else match region_size_checked config with
           | None => Err RegionSizeOverflow
           | Some size => Ok size
           end
  end.

Definition write_header (config : Config) (pid : Z) : prog cell unit :=
  store GHMagic (le_decode MAGIC) ;;;
  store GHVersion VERSION ;;;
  store GHMaxTopics (max_topics config) ;;;
  store GHBlockCount (block_count config) ;;;
  store GHBlockSize (block_size config) ;;;
  store GHRingDepth (ring_depth config) ;;;
  store GHPid pid ;;;
  store GHStaleTimeoutUs (wrap64 (duration_as_micros (stale_timeout config))).

Definition init_ring_entry (t s : Z) : prog cell unit :=
  store (RESeq t s) 0 ;;;
  store (REBlockIdx t s) NO_BLOCK ;;;
  store (REDataLen t s) 0.

Definition init_rings (config : Config) : prog cell unit :=
  for_each (seqZ 0 (max_topics config)) (fun t =>
    for_each (seqZ 0 (ring_depth config)) (fun s => init_ring_entry t s)).

Record Publisher : Type := mkPublisher {
  pb_region : Region;
  pb_name : bytes;
  pb_is_owner : bool;
  pb_id : Z;
  pb_last_heartbeat : Z;
  pb_loan_count : Z;
  pb_block_cache : list Z;
  pb_cache_len : Z;
  pb_pinned_blocks : list Z
}.

Definition new_publisher (r : Region) (name : bytes) (is_owner : bool) (id now : Z) : Publisher := {|
  pb_region := r; pb_name := name; pb_is_owner := is_owner; pb_id := id;
  pb_last_heartbeat := now; pb_loan_count := 0;
  pb_block_cache := replicate 8 0; pb_cache_len := 0;
  pb_pinned_blocks := replicate (Z.to_nat (max_topics (rg_config r))) NO_BLOCK
|}.

Definition with_heartbeat (p : Publisher) (now : Z) : Publisher := {|
  pb_region := pb_region p; pb_name := pb_name p; pb_is_owner := pb_is_owner p; pb_id := pb_id p;
  pb_last_heartbeat := now; pb_loan_count := pb_loan_count p;
  pb_block_cache := pb_block_cache p; pb_cache_len := pb_cache_len p;
  pb_pinned_blocks := pb_pinned_blocks p
|}.

Definition with_loan_count (p : Publisher) (n : Z) : Publisher := {|
  pb_region := pb_region p; pb_name := pb_name p; pb_is_owner := pb_is_owner p; pb_id := pb_id p;
  pb_last_heartbeat := pb_last_heartbeat p; pb_loan_count := n;
  pb_block_cache := pb_block_cache p; pb_cache_len := pb_cache_len p;
  pb_pinned_blocks := pb_pinned_blocks p
|}.

Definition with_cache (p : Publisher) (cache : list Z) (len : Z) : Publisher := {|
  pb_region := pb_region p; pb_name := pb_name p; pb_is_owner := pb_is_owner p; pb_id := pb_id p;
  pb_last_heartbeat := pb_last_heartbeat p; pb_loan_count := pb_loan_count p;
  pb_block_cache := cache; pb_cache_len := len;
  pb_pinned_blocks := pb_pinned_blocks p
|}.

Definition with_pinned (p : Publisher) (pinned : list Z) : Publisher := {|
  pb_region := pb_region p; pb_name := pb_name p; pb_is_owner := pb_is_owner p; pb_id := pb_id p;
  pb_last_heartbeat := pb_last_heartbeat p; pb_loan_count := pb_loan_count p;
  pb_block_cache := pb_block_cache p; pb_cache_len := pb_cache_len p;
  pb_pinned_blocks := pinned
|}.

(** [Publisher::create] on the fresh zero-filled mapping at address [base]. *)
Definition create (handle base pid id : Z) (name : bytes) (config : Config)
    : prog cell (result Publisher Error) :=
  match create_validate name config with
  | Err e => Ret (Err e)
  | Ok _ =>
      write_header config pid ;;;
      let* r := from_raw handle base config in
      init_free_list r ;;;
      let* hb := update_heartbeat in
      match hb with
      | Err e => Ret (Err e)
      | Ok _ =>
          init_rings config ;;;
          let* now := instant_now in
          Ret (Ok (new_publisher r name true id now))
      end
  end.

(** The configuration the header states; other fields are the defaults. *)
Definition read_header_config : prog cell Config :=
  let* mt := load GHMaxTopics in
  let* bc := load GHBlockCount in
  let* bs := load GHBlockSize in
  let* rd := load GHRingDepth in
  let* us := load GHStaleTimeoutUs in
  Ret {| max_topics := mt; block_count := bc; block_size := bs; ring_depth := rd;
         heartbeat_interval := heartbeat_interval config_default;
         stale_timeout := duration_from_micros us |}.

(** The checks on a configuration read from a mapping of [len] bytes. *)
Definition validate_config (len : Z) (config : Config) : result unit Error :=
  if block_size config <? BLOCK_DATA_OFFSET + 1
  then Err (InvalidRegion (BlockSizeTooSmall (block_size config)))
  else if negb (is_power_of_two (ring_depth config)) || (ring_depth config =? 0)
  then Err (InvalidRegion (RingDepthNotPow2 (ring_depth config)))
  else if block_count config =? 0 then Err (InvalidRegion BlockCountZero)
  else if max_topics config =? 0 then Err (InvalidRegion MaxTopicsZero)
  else if MAX_TOPICS_LIMIT <? max_topics config
  then Err (InvalidRegion (MaxTopicsLimit (max_topics config)))
  else match region_size_checked config with
       | None => Err RegionSizeOverflow
       | Some expected_size =>
           if len <? expected_size
           then Err (InvalidRegion (RegionShorterThan len expected_size))
           else Ok tt
       end.

(** [open_and_validate_region] on a mapping of [len] bytes. *)
Definition open_and_validate_region (handle base len : Z) : prog cell (result Region Error) :=
  if len <? HEADER_SIZE then Ret (Err (InvalidRegion TooSmallForHeader))
  else
    let* magic := load GHMagic in
    if negb (magic =? le_decode MAGIC) then Ret (Err (InvalidRegion BadMagic))
    else
      let* ver := load GHVersion in
      if negb (ver =? VERSION) then Ret (Err (InvalidRegion (BadVersion ver)))
      else
        let* config := read_header_config in
        match validate_config len config with
        | Err e => Ret (Err e)
        | Ok _ =>
            let* r := from_raw handle base config in
            let* hb := check_heartbeat r in
            Ret (match hb with Err e => Err e | Ok _ => Ok r end)
        end.

(** [Publisher::open]: a secondary publisher. *)
Definition open (handle base len id : Z) (name : bytes) : prog cell (result Publisher Error) :=
  match validate_name name with
  | Err e => Ret (Err e)
  | Ok _ =>
      let* o := open_and_validate_region handle base len in
      match o with
      | Err e => Ret (Err e)
      | Ok r =>
          let* now := instant_now in
          Ret (Ok (new_publisher r name false id now))
      end
  end.

(** [Subscriber::connect]. *)
Definition connect (handle base len : Z) (name : bytes) : prog cell (result Region Error) :=
  match validate_name name with
  | Err e => Ret (Err e)
  | Ok _ => open_and_validate_region handle base len
  end.

(** ** The topic table *)

Record Topic : Type := mkTopic { tp_topic_idx : Z; tp_publisher_id : Z }.

(** The first [n] bytes of the entry's URI, from index [i]. *)
Fixpoint load_uri (t i : Z) (n : nat) : prog cell bytes :=
  match n with
  | O => Ret []
  | S n' =>
      let* v := load (TEUri t i) in
      let* rest := load_uri t (i + 1) n' in
      Ret (v :: rest)
  end.

Fixpoint store_uri (t i : Z) (uri : bytes) : prog cell unit :=
  match uri with
  | [] => Ret tt
  | v :: uri' => store (TEUri t i) v ;;; store_uri t (i + 1) uri'
  end.

(** Does active entry [t] hold [uri]? The lengths are compared before the bytes. *)
Definition entry_matches (t hash : Z) (uri : bytes) : prog cell bool :=
  let* existing_hash := load (TEUriHash t) in
  if negb (existing_hash =? hash) then Ret false
  else
    let* existing_len := load (TEUriLen t) in
    if negb (existing_len =? blen uri) then Ret false
    else
      let* existing := load_uri t 0 (Z.to_nat existing_len) in
      Ret (bool_decide (existing = uri)).

Definition find_existing (id hash : Z) (uri : bytes) (t : Z)
    : prog cell (option (result Topic Error)) :=
  let* active := load (TEActive t) in
  if active =? TE_STATE_ACTIVE then
    let* same := entry_matches t hash uri in
    Ret (if same : bool then Some (Ok (mkTopic t id)) else None)
  else Ret None.

Definition claim_topic (id hash type_size : Z) (uri : bytes) (t : Z)
    : prog cell (option (result Topic Error)) :=
  let* (ok, _) := compare_exchange (TEActive t) TE_STATE_FREE TE_STATE_INIT in
  if negb ok then Ret None
  else
    store (TEUriHash t) hash ;;;
    store (TEUriLen t) (wrap32 (blen uri)) ;;;
    store_uri t 0 uri ;;;
    store (TEWriteSeq t) 0 ;;;
    store (TETypeSize t) type_size ;;;
    store (TEActive t) TE_STATE_ACTIVE ;;;
    Ret (Some (Ok (mkTopic t id))).

(** The best-effort entry in the discovery registry is a separate file. *)
Definition register_inner (p : Publisher) (uri : bytes) (type_size : Z)
    : prog cell (result Topic Error) :=
  if TE_URI_MAX <? blen uri then Ret (Err (UriTooLong (blen uri) TE_URI_MAX))
  else
    let hash := uri_hash uri in
    let topics := seqZ 0 (max_topics (rg_config (pb_region p))) in
    for_return topics (find_existing (pb_id p) hash uri)
      (for_return topics (claim_topic (pb_id p) hash type_size uri)
         (Ret (Err MaxTopicsReached))).

Definition register (p : Publisher) (uri : bytes) : prog cell (result Topic Error) :=
  register_inner p uri 0.

Definition register_typed (p : Publisher) (T : Pod) (uri : bytes) : prog cell (result Topic Error) :=
  if 8 <? align_of T then Ret (Err (AlignmentError (align_of T) 8))
  else register_inner p uri (wrap32 (size_of T)).

Definition subscribe_entry (r : Region) (hash : Z) (uri : bytes) (t : Z)
    : prog cell (option (result Stream Error)) :=
  let* active := load (TEActive t) in
  if negb (active =? TE_STATE_ACTIVE) then Ret None
  else
    let* same := entry_matches t hash uri in
    if negb same then Ret None
    else
      let* current := load (TEWriteSeq t) in
      let* type_size := load (TETypeSize t) in
      fetch_add32 (TESubscriberCount t) 1 ;;;
      Ret (Some (Ok {| st_region := r; st_topic_idx := t; st_last_seq := current;
                       st_type_size := type_size |})).

Definition subscribe (r : Region) (uri : bytes) : prog cell (result Stream Error) :=
  for_return (seqZ 0 (max_topics (rg_config r))) (subscribe_entry r (uri_hash uri) uri)
    (Ret (Err (TopicNotFound uri))).

Definition subscriber_count (p : Publisher) (handle : Topic) : prog cell (result Z Error) :=
  if negb (tp_publisher_id handle =? pb_id p) then Ret (Err HandleMismatch)
  else
    let* n := load (TESubscriberCount (tp_topic_idx handle)) in
    Ret (Ok n).

Definition heartbeat (p : Publisher) : prog cell (Publisher * result unit Error) :=
  let* hb := update_heartbeat in
  match hb with
  | Err e => Ret (p, Err e)
  | Ok _ =>
      let* now := instant_now in
      Ret (with_heartbeat p now, Ok tt)
  end.

(** ** Loans *)

(** Pop the local cache; indexing out of the array panics. *)
Definition pop_cache (p : Publisher) : prog cell (Publisher * result (option Z) Error) :=
  if 0 <? pb_cache_len p then
    let n := pb_cache_len p - 1 in
    match pb_block_cache p !! Z.to_nat n with
    | Some idx => Ret (with_cache p (pb_block_cache p) n, Ok (Some idx))
    | None => Panic
    end
  else Ret (p, Ok None).

(** Fill the local cache from the free list; [n] bounds the remaining places. *)
Fixpoint refill_cache (fuel n : nat) (p : Publisher) : prog cell (Publisher * result unit Error) :=
  if Z.of_nat (length (pb_block_cache p)) <=? pb_cache_len p then Ret (p, Ok tt)
  else
    match n with
    | O => Diverge
    | S n' =>
        let* a := alloc_block (pb_region p) fuel in
        match a with
        | Ok (Some idx) =>
            refill_cache fuel n'
              (with_cache p (<[Z.to_nat (pb_cache_len p) := idx]> (pb_block_cache p))
                 (pb_cache_len p + 1))
        | Ok None => Ret (p, Ok tt)
        | Err _ => Ret (p, Err RegionCorrupted)
        end
    end.

Definition alloc_cached (fuel : nat) (p : Publisher)
    : prog cell (Publisher * result (option Z) Error) :=
  let* recycled := alloc_recycled (pb_region p) in
  match recycled with
  | Some idx => Ret (p, Ok (Some idx))
  | None =>
      if 0 <? pb_cache_len p then pop_cache p
      else
        let* (p1, res) := refill_cache fuel 9 p in
        match res with
        | Err e => Ret (p1, Err e)
        | Ok _ => pop_cache p1
        end
  end.

(** Every 1024th loan, refresh the heartbeat if the interval has passed. *)
Definition loan_heartbeat (p : Publisher) : prog cell Publisher :=
  let p1 := with_loan_count p (wrap32 (pb_loan_count p + 1)) in
  if Z.land (pb_loan_count p1) 0x3FF =? 0 then
    let* now := instant_now in
    if heartbeat_interval (rg_config (pb_region p1)) <=? saturating_sub now (pb_last_heartbeat p1)
    then
      let* hb := update_heartbeat in
      match hb with
      | Ok _ => let* now' := instant_now in Ret (with_heartbeat p1 now')
      | Err _ => Ret p1
      end
    else Ret p1
  else Ret p1.

Definition loan_preamble (fuel : nat) (p : Publisher) (handle : Topic)
    : prog cell (Publisher * result (Z * Z) Error) :=
  if negb (tp_publisher_id handle =? pb_id p) then Ret (p, Err HandleMismatch)
  else
    let* p1 := loan_heartbeat p in
    let* (p2, res) := alloc_cached fuel p1 in
    Ret (p2, match res with
             | Err e => Err e
             | Ok None => Err PoolExhausted
             | Ok (Some block_idx) => Ok (block_idx, tp_topic_idx handle)
             end).

Definition loan (fuel : nat) (p : Publisher) (handle : Topic)
    : prog cell (Publisher * result Loan Error) :=
  let* (p1, res) := loan_preamble fuel p handle in
  Ret (p1, match res with
           | Err e => Err e
           | Ok (block_idx, topic_idx) =>
               Ok {| ln_region := pb_region p; ln_capacity := data_capacity (pb_region p);
                     ln_len := 0; ln_block_idx := block_idx; ln_topic_idx := topic_idx;
                     ln_single_publisher := pb_is_owner p |}
           end).

Definition loan_typed (fuel : nat) (T : Pod) (p : Publisher) (handle : Topic)
    : prog cell (Publisher * result TypedLoan Error) :=
  let* (p1, res) := loan_preamble fuel p handle in
  Ret (p1, match res with
           | Err e => Err e
           | Ok (block_idx, topic_idx) =>
               Ok {| tl_region := pb_region p; tl_block_idx := block_idx;
                     tl_topic_idx := topic_idx; tl_single_publisher := pb_is_owner p;
                     tl_type := T |}
           end).

(** [Publisher::publish]: loan, copy, publish; on an error the loan is dropped. *)
Definition publish (fuel : nat) (p : Publisher) (handle : Topic) (data : bytes)
    : prog cell (Publisher * result unit Error) :=
  let* (p1, res) := loan fuel p handle in
  match res with
  | Err e => Ret (p1, Err e)
  | Ok l =>
      let* (l1, res1) := set_data l data in
      match res1 with
      | Err e => loan_drop fuel l1 ;;; Ret (p1, Err e)
      | Ok _ => loan_publish fuel l1 ;;; Ret (p1, Ok tt)
      end
  end.

Definition publish_typed (fuel : nat) (T : Pod) (p : Publisher) (handle : Topic) (value : bytes)
    : prog cell (Publisher * result unit Error) :=
  let* (p1, res) := loan_typed fuel T p handle in
  match res with
  | Err e => Ret (p1, Err e)
  | Ok l => typed_send fuel l value ;;; Ret (p1, Ok tt)
  end.

(** The topic's pinned block, allocated on first use. *)
Definition pinned_block_of (fuel : nat) (p : Publisher) (topic_idx : Z)
    : prog cell (Publisher * result Z Error) :=
  match pb_pinned_blocks p !! Z.to_nat topic_idx with
  | None => Panic
  | Some b =>
      if negb (b =? NO_BLOCK) then Ret (p, Ok b)
      else
        let* (p1, res) := alloc_cached fuel p in
        match res with
        | Err e => Ret (p1, Err e)
        | Ok None => Ret (p1, Err PoolExhausted)
        | Ok (Some idx) =>
            set_pinned_block topic_idx idx ;;;
            Ret (with_pinned p1 (<[Z.to_nat topic_idx := idx]> (pb_pinned_blocks p1)), Ok idx)
        end
  end.

Definition loan_pinned (fuel : nat) (p : Publisher) (handle : Topic)
    : prog cell (Publisher * result PinnedLoan Error) :=
  if negb (tp_publisher_id handle =? pb_id p) then Ret (p, Err HandleMismatch)
  else
    let topic_idx := tp_topic_idx handle in
    let n := Z.of_nat (length (pb_pinned_blocks p)) in
    if n <=? topic_idx then Ret (p, Err (InvalidRegion (TopicIdxOutOfRange topic_idx n)))
    else
      let* (p1, res) := pinned_block_of fuel p topic_idx in
      match res with
      | Err e => Ret (p1, Err e)
      | Ok block_idx =>
          let* (ok, current) :=
            compare_exchange (TEPinnedReaders topic_idx) 0 PINNED_WRITER_ACTIVE in
          if negb ok then
            let count := if current =? PINNED_WRITER_ACTIVE then 0 else current in
            Ret (p1, Err (PinnedReadersActive count topic_idx))
          else
            Ret (p1, Ok {| pl_region := pb_region p; pl_block_idx := block_idx;
                           pl_capacity := data_capacity (pb_region p); pl_len := 0;
                           pl_topic_idx := topic_idx |})
      end.

(** [Drop for Publisher]: pinned, recycled and cached blocks go back to the pool.
    The registry entry and the file are outside the region. *)
Definition publisher_drop (fuel : nat) (p : Publisher) : prog cell unit :=
  for_each (pb_pinned_blocks p) (fun blk =>
    if negb (blk =? NO_BLOCK) then free_block (pb_region p) fuel blk else Ret tt) ;;;
  let* recycled := alloc_recycled (pb_region p) in
  (match recycled with
   | Some idx => free_block (pb_region p) fuel idx
   | None => Ret tt
   end) ;;;
  for_each (seqZ 0 (pb_cache_len p)) (fun i =>
    match pb_block_cache p !! Z.to_nat i with
    | Some idx => free_block (pb_region p) fuel idx
    | None => Panic
    end).
