(* ===== verification/Channel.v ===== *)
(** * Channel: the bidirectional channel (src/src/platform/channel.rs)

    A channel is two regions, one per direction. The server creates the region
    ["{name}-srv"] and receives from ["{name}-cli"]; the client does the reverse. A cell
    of the pair is a side and a cell of that side's region; [on] runs a program of one
    region in the pair.

    Opening and mapping the peer's file is the file system's part: [attach] is what the
    [i]-th attempt finds, the handle, address and length of the mapping if the file
    exists. *)

From S2P Require Import Prelude Errors Layout Atomics Pool Ring Wait Subscription Loan Publisher.

(** ** Two regions *)

Inductive side : Type := Srv | Cli.
#[export] Instance side_eq_dec : EqDecision side.
Proof. solve_decision. Defined.

Definition peer (s : side) : side := match s with Srv => Cli | Cli => Srv end.

Definition chan_cell : Type := side * cell.

Fixpoint on {A} (s : side) (p : prog cell A) : prog chan_cell A :=
  match p with
  | Ret a => Ret a
  | Diverge => Diverge
  | Panic => Panic
  | ALoad c k => ALoad (s, c) (fun v => on s (k v))
  | AStore c v k => AStore (s, c) v (on s k)
  | ARmw c f k => ARmw (s, c) f (fun v => on s (k v))
  | ACas weak c old new k => ACas weak (s, c) old new (fun b v => on s (k b v))
  | ANow k => ANow (fun v => on s (k v))
  | AMono k => AMono (fun v => on s (k v))
  | AWake c k => AWake (s, c) (on s k)
  | APark c e d k => APark (s, c) e d (on s k)
  | ASleep d k => ASleep d (on s k)
  end.

(** ** Opening *)

(** [s] is the side whose region is [tx_pub]'s. *)
Record Channel : Type := mkChannel {
  ch_side : side;
  ch_tx_pub : Publisher;
  ch_tx_topic : Topic;
  ch_rx : Stream;
  ch_rx_sub : Region
}.

Definition with_tx (ch : Channel) (p : Publisher) : Channel :=
  mkChannel (ch_side ch) p (ch_tx_topic ch) (ch_rx ch) (ch_rx_sub ch).
Definition with_rx (ch : Channel) (st : Stream) : Channel :=
  mkChannel (ch_side ch) (ch_tx_pub ch) (ch_tx_topic ch) st (ch_rx_sub ch).

(** "/ch" *)
Definition CH_URI : bytes := [47; 99; 104].
(** "-srv" and "-cli" *)
Definition side_suffix (s : side) : bytes :=
  match s with Srv => [45; 115; 114; 118] | Cli => [45; 99; 108; 105] end.
Definition side_name (name : bytes) (s : side) : bytes := name ++ side_suffix s.

(** [Instant::now() + timeout] panics past the clock's 64-bit seconds. *)
Definition instant_add {C} (now d : Z) : prog C Z :=
  if 2 ^ 63 * 1000000000 <=? now + d then Panic else Ret (now + d).

Definition RETRY_SLEEP : Z := duration_from_millis 10.

Section Attach.
(** Handle, address and length of the [i]-th attempt's mapping. *)
Context (attach : nat -> option (Z * Z * Z)).

(** [Subscriber::connect] with the file lookup. *)
Definition connect_at (i : nat) (name : bytes) : prog cell (result Region Error) :=
  match validate_name name with
  | Err e => Ret (Err e)
  | Ok _ =>
      match attach i with
      | None => Ret (Err Io)
      | Some (handle, base, len) => connect handle base len name
      end
  end.

Fixpoint wait_loop (fuel i : nat) (s : side) (name : bytes) (deadline : option Z)
    : prog chan_cell (result (Region * Stream) Error) :=
  match fuel with
  | O => Diverge
  | S fuel' =>
      let retry e :=
        match deadline with
        | None => Ret (Err e)
        | Some d =>
            let* now := instant_now in
            if now <? d then sleep RETRY_SLEEP ;;; wait_loop fuel' (S i) s name deadline
            else Ret (Err e)
        end in
      let* c := on s (connect_at i name) in
      match c with
      | Err e => retry e
      | Ok sub =>
          let* r := on s (subscribe sub CH_URI) in
          match r with
          | Err e => retry e
          | Ok rx => Ret (Ok (sub, set_last_seq rx 0))
          end
      end
  end.

Definition wait_for_peer (fuel : nat) (s : side) (name : bytes) (timeout : Z)
    : prog chan_cell (result (Region * Stream) Error) :=
  if timeout =? 0 then wait_loop fuel 0 s name None
  else
    let* now := instant_now in
    let* d := instant_add now timeout in
    wait_loop fuel 0 s name (Some d).

(** The first half of [listen] and [connect]: create the own region and register; the
    publisher is dropped when that fails. *)
Definition open_tx (fuel : nat) (s : side) (handle base pid id : Z) (name : bytes) (config : Config)
    : prog chan_cell (result (Publisher * Topic) Error) :=
  let* r := on s (create handle base pid id (side_name name s) config) in
  match r with
  | Err e => Ret (Err e)
  | Ok tx_pub =>
      let* t := on s (register tx_pub CH_URI) in
      match t with
      | Err e => on s (publisher_drop fuel tx_pub) ;;; Ret (Err e)
      | Ok tx_topic => Ret (Ok (tx_pub, tx_topic))
      end
  end.

(** The second half: wait for the peer; the publisher is dropped when none comes. *)
Definition open_rx (fuel : nat) (s : side) (name : bytes) (timeout : Z) (tx_pub : Publisher) (tx_topic : Topic)
    : prog chan_cell (result Channel Error) :=
  let* w := wait_for_peer fuel (peer s) (side_name name (peer s)) timeout in
  match w with
  | Err e => on s (publisher_drop fuel tx_pub) ;;; Ret (Err e)
  | Ok (rx_sub, rx) => Ret (Ok (mkChannel s tx_pub tx_topic rx rx_sub))
  end.

(** [listen] for [Srv] and [connect] for [Cli]. *)
Definition open_side (fuel : nat) (s : side) (handle base pid id : Z) (name : bytes) (config : Config)
    (timeout : Z) : prog chan_cell (result Channel Error) :=
  let* tx := open_tx fuel s handle base pid id name config in
  match tx with
  | Err e => Ret (Err e)
  | Ok (tx_pub, tx_topic) => open_rx fuel s name timeout tx_pub tx_topic
  end.

Definition listen (fuel : nat) := open_side fuel Srv.
Definition ch_connect (fuel : nat) := open_side fuel Cli.

End Attach.

(** ** Sending and receiving *)

Definition ch_send (fuel : nat) (ch : Channel) (data : bytes) : prog chan_cell (Channel * result unit Error) :=
  let s := ch_side ch in
  let* (p1, res) := on s (loan fuel (ch_tx_pub ch) (ch_tx_topic ch)) in
  match res with
  | Err e => Ret (with_tx ch p1, Err e)
  | Ok l =>
      let* (l1, res1) := on s (set_data l data) in
      match res1 with
      | Err e => on s (loan_drop fuel l1) ;;; Ret (with_tx ch p1, Err e)
      | Ok _ => on s (loan_publish fuel l1) ;;; Ret (with_tx ch p1, Ok tt)
      end
  end.

Definition ch_loan (fuel : nat) (ch : Channel) : prog chan_cell (Channel * result Loan Error) :=
  let* (p1, res) := on (ch_side ch) (loan fuel (ch_tx_pub ch) (ch_tx_topic ch)) in
  Ret (with_tx ch p1, res).

Definition ch_try_recv (fuel : nat) (ch : Channel) : prog chan_cell (Channel * option Sample) :=
  let* (st, o) := on (peer (ch_side ch)) (try_recv fuel (ch_rx ch)) in
  Ret (with_rx ch st, o).

Definition ch_recv_with `{Os : OsPlatform} (fuel park_fuel : nat) (strategy : WaitStrategy) (ch : Channel)
    : prog chan_cell (Channel * result Sample Error) :=
  let* (st, r) := on (peer (ch_side ch)) (recv_with fuel park_fuel strategy (ch_rx ch)) in
  Ret (with_rx ch st, r).

Definition ch_recv `{Os : OsPlatform} (fuel park_fuel : nat) (ch : Channel) : prog chan_cell (Channel * result Sample Error) :=
  let* (st, r) := on (peer (ch_side ch)) (recv fuel park_fuel (ch_rx ch)) in
  Ret (with_rx ch st, r).

Definition ch_heartbeat (ch : Channel) : prog chan_cell (Channel * result unit Error) :=
  let* (p1, r) := on (ch_side ch) (heartbeat (ch_tx_pub ch)) in
  Ret (with_tx ch p1, r).
