(* ===== verification/PodBus.v ===== *)
(** * PodBus: the broadcast ring (src/src/platform/pod_bus.rs)

    One publisher writes values of a [Pod] type into a ring of stamped slots; any
    number of subscribers read them. A slot is a seqlock: its stamp is odd while
    the value is written, and [seq * 2 + 2] when the value of sequence number
    [seq] is complete. A bounded bus also has 64 words in which subscribers
    publish their cursors; the publisher stays behind the slowest of them. *)

From S2P Require Import Prelude Errors Layout Atomics Pool Wait Subscription Loan Publisher.

(** ** Layout *)

(** [XPOD_ZC\0]. *)
Definition POD_BUS_MAGIC : bytes := [88; 80; 79; 68; 95; 90; 67; 0].
Definition POD_BUS_VERSION_V1 : Z := 1.
Definition POD_BUS_VERSION_V2 : Z := 2.
Definition POD_BUS_VERSION_V3 : Z := 3.
Definition POD_BUS_HEADER_SIZE : Z := 64.
Definition MAX_SUBSCRIBER_SLOTS : Z := 64.
Definition SUBSCRIBER_SLOT_SIZE : Z := 16.
Definition SUBSCRIBER_SLOTS_SECTION_SIZE : Z := MAX_SUBSCRIBER_SLOTS * SUBSCRIBER_SLOT_SIZE.
Definition HEARTBEAT_STALE_US : Z := 5000000.
Definition MAX_POD_ALIGN : Z := 8.

Definition STATE_FREE : Z := 0.
Definition STATE_ACTIVE : Z := 2 ^ 62.
Definition STATE_CLAIMING : Z := 2 ^ 63.
Definition VALUE_MASK : Z := 2 ^ 62 - 1.

(** The words of the shared file: header, subscriber slots, ring slots (stamp and the
    bytes of the value). *)
Inductive bcell : Type :=
| PHMagic | PHVersion | PHRingSize | PHValueSize | PHValueAlign | PHHeartbeat
| PHWriteSeq | PHPid | PHWatermark
| SSPid (i : Z) | SSState (i : Z)
| Stamp (i : Z) | Data (i j : Z).

#[export] Instance bcell_eq_dec : EqDecision bcell.
Proof. solve_decision. Defined.

(** [size_of::<Slot<T>>()]: the stamp, the value, padded to cache lines. *)
Definition slot_size (T : Pod) : Z := (8 + size_of T + 63) / 64 * 64.

Definition header_total (version : Z) : Z :=
  if POD_BUS_VERSION_V3 <=? version
  then POD_BUS_HEADER_SIZE + SUBSCRIBER_SLOTS_SECTION_SIZE else POD_BUS_HEADER_SIZE.

Definition region_size_for_version (T : Pod) (ring_size version : Z) : Z :=
  uadd (header_total version) (umul ring_size (slot_size T)).

Definition check_alignment (T : Pod) : result unit Error :=
  if MAX_POD_ALIGN <? align_of T then Err (AlignmentError (align_of T) MAX_POD_ALIGN) else Ok tt.

Definition bus_now_micros : prog bcell (result Z Error) :=
  let* t := system_now in
  Ret (match t with Some ns => Ok (wrap64 (duration_as_micros ns)) | None => Err ClockError end).

(** ** Publisher *)

Record PodBus : Type := mkBus {
  bus_type : Pod;
  bus_mask : Z;
  bus_ring_size : Z;
  bus_name : bytes;
  bus_has_slots : bool;
  bus_watermark : option Z;
  bus_cached_slowest : Z
}.

Definition with_cached_slowest (b : PodBus) (c : Z) : PodBus := {|
  bus_type := bus_type b; bus_mask := bus_mask b; bus_ring_size := bus_ring_size b;
  bus_name := bus_name b; bus_has_slots := bus_has_slots b; bus_watermark := bus_watermark b;
  bus_cached_slowest := c
|}.

(** [create_inner] on the zero-filled mapping; the file and lock handling is not part of
    the model. The assertion on the ring size panics. *)
Definition bus_create_inner (T : Pod) (pid : Z) (name : bytes) (ring_size : Z)
    (watermark : option Z) : prog bcell (result PodBus Error) :=
  if negb ((0 <? ring_size) && is_power_of_two ring_size) then Panic
  else
    match validate_name name with
    | Err e => Ret (Err e)
    | Ok _ =>
        match check_alignment T with
        | Err e => Ret (Err e)
        | Ok _ =>
            let bounded := match watermark with Some _ => true | None => false end in
            let version := if bounded then POD_BUS_VERSION_V3 else POD_BUS_VERSION_V1 in
            store PHMagic (le_decode POD_BUS_MAGIC) ;;;
            store PHVersion version ;;;
            store PHRingSize (wrap32 ring_size) ;;;
            store PHValueSize (wrap32 (size_of T)) ;;;
            store PHValueAlign (wrap32 (align_of T)) ;;;
            store PHWriteSeq 0 ;;;
            store PHPid pid ;;;
            store PHWatermark (wrap32 (default 0 watermark)) ;;;
            (if bounded then
               for_each (seqZ 0 MAX_SUBSCRIBER_SLOTS) (fun i =>
                 store (SSPid i) 0 ;;; store (SSState i) STATE_FREE)
             else Ret tt) ;;;
            for_each (seqZ 0 ring_size) (fun i => store (Stamp i) 0) ;;;
            let* now := bus_now_micros in
            match now with
            | Err e => Ret (Err e)
            | Ok now =>
                store PHHeartbeat now ;;;
                Ret (Ok {| bus_type := T; bus_mask := ring_size - 1; bus_ring_size := ring_size;
                           bus_name := name; bus_has_slots := bounded; bus_watermark := watermark;
                           bus_cached_slowest := 0 |})
            end
        end
    end.

Definition bus_create (T : Pod) (pid : Z) (name : bytes) (ring_size : Z) :=
  bus_create_inner T pid name ring_size None.

Definition bus_create_bounded (T : Pod) (pid : Z) (name : bytes) (ring_size watermark : Z) :=
  if watermark <? ring_size then bus_create_inner T pid name ring_size (Some watermark) else Panic.

(** [write_volatile] of the value: byte by byte, so a concurrent read can be torn. *)
Fixpoint store_value (i j : Z) (value : bytes) : prog bcell unit :=
  match value with
  | [] => Ret tt
  | v :: value' => store (Data i j) v ;;; store_value i (j + 1) value'
  end.

(** Refresh the heartbeat if the clock can be read. *)
Definition bus_touch : prog bcell unit :=
  let* now := bus_now_micros in
  match now with Ok now => store PHHeartbeat now | Err _ => Ret tt end.

Definition publish_unchecked (b : PodBus) (value : bytes) : prog bcell unit :=
  let* write_seq := load PHWriteSeq in
  (if Z.land write_seq 0x3FF =? 0 then bus_touch else Ret tt) ;;;
  let idx := Z.land write_seq (bus_mask b) in
  store (Stamp idx) (wrap64 (wrap64 (write_seq * 2) + 1)) ;;;
  store_value idx 0 value ;;;
  store (Stamp idx) (wrap64 (wrap64 (write_seq * 2) + 2)) ;;;
  store PHWriteSeq (wrap64 (write_seq + 1)).

(** What the operating system offers to find out about a process: [kill] with its
    result and the error number of the thread, [OpenProcess] with the handle. Both are
    asked at a moment of the system's run, so processes may come and go. *)
Inductive os_process : Type :=
| UnixProcess (kill : Z -> Z -> Z -> Z * Z)
| WindowsProcess (OpenProcess : Z -> Z -> Z -> Z -> Z).

Definition EPERM : Z := 1.
Definition ESRCH : Z := 3.
Definition PROCESS_QUERY_LIMITED_INFORMATION : Z := 0x1000.

(** The cast [pid as i32]. *)
Definition as_i32 (z : Z) : Z := if z <? 2 ^ 31 then z else z - 2 ^ 32.

(** The answer of [is_pid_alive] at a given moment. *)
Definition pid_probe (os : os_process) (moment pid : Z) : bool :=
  match os with
  | UnixProcess kill =>
      let '(ret, errno) := kill moment (as_i32 pid) 0 in
      if ret =? 0 then true else errno =? EPERM
  | WindowsProcess OpenProcess =>
      negb (OpenProcess moment PROCESS_QUERY_LIMITED_INFORMATION 0 pid =? 0)
  end.

Definition is_pid_alive (os : os_process) (pid : Z) : prog bcell bool :=
  let* moment := instant_now in
  Ret (pid_probe os moment pid).

(** The documented behaviour, for the processes that [runs] says exist at a moment. On
    Windows a handle is only promised for a process that the caller may query. *)
Class ProcessLaws (os : os_process) (runs : Z -> Z -> Prop) : Prop :=
  process_laws :
    match os with
    | UnixProcess kill => forall moment pid, 0 < pid < 2 ^ 31 ->
        (runs moment pid /\ ((kill moment pid 0).1 = 0 \/ kill moment pid 0 = (-1, EPERM))) \/
        (~ runs moment pid /\ kill moment pid 0 = (-1, ESRCH))
    | WindowsProcess OpenProcess => forall moment pid, 0 < pid < 2 ^ 31 -> runs moment pid ->
        OpenProcess moment PROCESS_QUERY_LIMITED_INFORMATION 0 pid <> 0
    end.

Definition probed_alive (os : os_process) (pid : Z) : Prop :=
  forall moment, pid_probe os moment pid = true.

Lemma running_probed os runs `{!ProcessLaws os runs} pid :
  0 < pid < 2 ^ 31 -> (forall moment, runs moment pid) -> probed_alive os pid.
Proof.
  intros Hp Hr moment. pose proof process_laws as Hl. specialize (Hr moment).
  destruct os as [kill|OpenProcess]; cbn [pid_probe] in *; specialize (Hl moment pid Hp).
  - unfold as_i32. rewrite (proj2 (Z.ltb_lt _ _)) by lia.
    destruct Hl as [[_ Hk]|[Hn _]]; [|done]. destruct (kill moment pid 0) as [ret errno]. cbn in Hk.
    by destruct Hk as [->|[= -> ->]].
  - apply negb_true_iff, Z.eqb_neq. by apply Hl.
Qed.

(** On Unix the answer is also exact: a process that does not exist is reported dead. *)
Lemma unix_probe_exact kill runs `{!ProcessLaws (UnixProcess kill) runs} moment pid :
  0 < pid < 2 ^ 31 -> (pid_probe (UnixProcess kill) moment pid = true <-> runs moment pid).
Proof.
  intros Hp. cbn [pid_probe]. unfold as_i32. rewrite (proj2 (Z.ltb_lt _ _)) by lia.
  destruct (process_laws (os := UnixProcess kill) moment pid Hp) as [[Hr Hk]|[Hr Hk]].
  - split; [done|]. intros _. destruct (kill moment pid 0) as [ret errno]. cbn in Hk.
    by destruct Hk as [->|[= -> ->]].
  - rewrite Hk. cbn. by split.
Qed.

Section Slots.
Context (os : os_process).

(** One slot of the scan; the accumulator is [(min_cursor, has_active)]. *)
Definition scan_slot (acc : Z * bool) (i : Z) : prog bcell (Z * bool) :=
  let* packed := load (SSState i) in
  let state := packed - Z.land packed VALUE_MASK in
  let value := Z.land packed VALUE_MASK in
  if state =? STATE_CLAIMING then
    let* now := bus_now_micros in
    match now with
    | Err _ => Ret acc
    | Ok now =>
        if 5000000 <? saturating_sub now value then
          let* (ok, _) := compare_exchange (SSState i) packed STATE_FREE in
          if ok : bool then store (SSPid i) 0 ;;; Ret acc else Ret acc
        else Ret acc
    end
  else if state =? STATE_ACTIVE then
    let* pid := load (SSPid i) in
    let* dead := (if pid =? 0 then Ret false
                  else let* alive := is_pid_alive os pid in Ret (negb alive)) in
    if dead : bool then
      store (SSState i) STATE_FREE ;;;
      store (SSPid i) 0 ;;;
      Ret acc
    else Ret (Z.min (fst acc) value, true)
  else Ret acc.

Fixpoint scan_all (l : list Z) (acc : Z * bool) : prog bcell (Z * bool) :=
  match l with
  | [] => Ret acc
  | i :: l' => let* acc' := scan_slot acc i in scan_all l' acc'
  end.

Definition slowest_subscriber_cursor (b : PodBus) : prog bcell (option Z) :=
  if negb (bus_has_slots b) then Ret None
  else
    let* (min_cursor, has_active) := scan_all (seqZ 0 MAX_SUBSCRIBER_SLOTS) (u64_max, false) in
    Ret (if has_active : bool then Some min_cursor else None).

Definition try_publish (b : PodBus) (value : bytes) : prog bcell (PodBus * result unit Error) :=
  match bus_watermark b with
  | None => publish_unchecked b value ;;; Ret (b, Ok tt)
  | Some watermark =>
      let* write_seq := load PHWriteSeq in
      let effective := wrap64 (bus_ring_size b - watermark) in
      if wrap64 (bus_cached_slowest b + effective) <=? write_seq then
        let* slowest := slowest_subscriber_cursor b in
        match slowest with
        | Some slowest =>
            let b' := with_cached_slowest b slowest in
            if wrap64 (slowest + effective) <=? write_seq then Ret (b', Err Full)
            else publish_unchecked b' value ;;; Ret (b', Ok tt)
        | None => publish_unchecked b value ;;; Ret (b, Ok tt)
        end
      else publish_unchecked b value ;;; Ret (b, Ok tt)
  end.

Fixpoint publish_spin (fuel : nat) (b : PodBus) (value : bytes) (spins : Z) : prog bcell PodBus :=
  match fuel with
  | O => Diverge
  | S fuel' =>
      let* (b', res) := try_publish b value in
      match res with
      | Ok _ => Ret b'
      | Err _ =>
          let spins' := wrap32 (spins + 1) in
          (if Z.land spins' 0x3FF =? 0 then bus_touch else Ret tt) ;;;
          publish_spin fuel' b' value spins'
      end
  end.

Definition bus_publish (fuel : nat) (b : PodBus) (value : bytes) : prog bcell PodBus :=
  match bus_watermark b with
  | Some _ => publish_spin fuel b value 0
  | None => publish_unchecked b value ;;; Ret b
  end.

End Slots.

Lemma land_value_mask x : Z.land x VALUE_MASK = x mod 2 ^ 62.
Proof. change VALUE_MASK with (Z.ones 62). by rewrite Z.land_ones by lia. Qed.

Lemma active_value c : 0 <= c < 2 ^ 62 -> Z.land (STATE_ACTIVE + c) VALUE_MASK = c.
Proof.
  intros Hc. rewrite land_value_mask. unfold STATE_ACTIVE.
  replace (2 ^ 62 + c) with (c + 1 * 2 ^ 62) by lia. rewrite Z.mod_add by lia. apply Z.mod_small. lia.
Qed.

(** A slot whose owner the system does not report is freed and not counted. On Windows
    this includes a living process that the publisher may not open. *)
Lemma unreported_slot_freed os acc i c (w : world bcell (cellmem bcell)) :
  0 <= c < 2 ^ 62 -> w_mem w (SSState i) = STATE_ACTIVE + c -> w_mem w (SSPid i) <> 0 ->
  pid_probe os (w_mono w) (w_mem w (SSPid i)) = false ->
  exists w', run (scan_slot os acc i) w = (Done acc, w') /\ w_mem w' (SSState i) = STATE_FREE.
Proof.
  intros Hc Hs Hp Hd. unfold scan_slot. cbn [bind load run].
  change (mload (w_mem w)) with (w_mem w). rewrite Hs.
  rewrite active_value by done. replace (STATE_ACTIVE + c - c) with STATE_ACTIVE by lia. cbn [Z.eqb].
  rewrite (proj2 (Z.eqb_neq STATE_ACTIVE STATE_CLAIMING)) by done. rewrite Z.eqb_refl.
  cbn [bind load run]. change (mload (w_mem w)) with (w_mem w). rewrite (proj2 (Z.eqb_neq _ _) Hp).
  cbn [bind is_pid_alive instant_now run]. rewrite Hd. cbn [negb bind store run].
  eexists. split; [reflexivity|]. cbn. rewrite upd_ne by done. by rewrite upd_eq.
Qed.

Definition bus_heartbeat : prog bcell (result unit Error) :=
  let* now := bus_now_micros in
  match now with
  | Err e => Ret (Err e)
  | Ok now => store PHHeartbeat now ;;; Ret (Ok tt)
  end.

(** ** Subscriber *)

Record BusSubscriber : Type := mkBusSub {
  bs_type : Pod;
  bs_mask : Z;
  bs_ring_size : Z;
  bs_cursor : Z;
  bs_total_lagged : Z;
  bs_slot_index : option Z
}.

Definition with_cursor (s : BusSubscriber) (cursor lagged : Z) : BusSubscriber := {|
  bs_type := bs_type s; bs_mask := bs_mask s; bs_ring_size := bs_ring_size s;
  bs_cursor := cursor; bs_total_lagged := lagged; bs_slot_index := bs_slot_index s
|}.

Definition claim_slot_at (initial_cursor pid i : Z) : prog bcell (option (result Z Error)) :=
  let* now := bus_now_micros in
  let ts := Z.land (match now with Ok v => v | Err _ => 0 end) VALUE_MASK in
  let* (ok, _) := compare_exchange (SSState i) STATE_FREE (Z.lor STATE_CLAIMING ts) in
  if ok : bool then
    store (SSPid i) pid ;;;
    store (SSState i) (Z.lor STATE_ACTIVE (Z.land initial_cursor VALUE_MASK)) ;;;
    Ret (Some (Ok i))
  else Ret None.

Definition claim_subscriber_slot (initial_cursor pid : Z) : prog bcell (result Z Error) :=
  for_return (seqZ 0 MAX_SUBSCRIBER_SLOTS) (claim_slot_at initial_cursor pid)
    (Ret (Err PoolExhausted)).

(** The checks on the header words of a mapping of [len] bytes. *)
Definition bus_validate (T : Pod) (len version ring_size value_size value_align : Z)
    : result unit Error :=
  if (ring_size =? 0) || negb (is_power_of_two ring_size)
  then Err (InvalidRegion (BusRingSize ring_size))
  else if negb (value_size =? size_of T)
  then Err (InvalidRegion (BusValueSize value_size (size_of T)))
  else if negb (value_align =? align_of T)
  then Err (InvalidRegion (BusValueAlign value_align (align_of T)))
  else
    let expected_size := region_size_for_version T ring_size version in
    if len <? expected_size then Err (InvalidRegion (RegionShorterThan len expected_size))
    else Ok tt.

(** [BusSubscriber::connect] on a mapping of [len] bytes. *)
Definition bus_connect (T : Pod) (pid len : Z) (name : bytes)
    : prog bcell (result BusSubscriber Error) :=
  match validate_name name with
  | Err e => Ret (Err e)
  | Ok _ =>
  match check_alignment T with
  | Err e => Ret (Err e)
  | Ok _ =>
  if len <? POD_BUS_HEADER_SIZE then Ret (Err (InvalidRegion TooSmallForHeader))
  else
    let* magic := load PHMagic in
    if negb (magic =? le_decode POD_BUS_MAGIC) then Ret (Err (InvalidRegion BadMagic))
    else
      let* version := load PHVersion in
      if version =? POD_BUS_VERSION_V2 then Ret (Err (InvalidRegion BusVersion2))
      else if negb (version =? POD_BUS_VERSION_V1) && negb (version =? POD_BUS_VERSION_V3)
      then Ret (Err (InvalidRegion (BadVersion version)))
      else
        let bounded := version =? POD_BUS_VERSION_V3 in
        let* ring_size := load PHRingSize in
        let* value_size := load PHValueSize in
        let* value_align := load PHValueAlign in
        match bus_validate T len version ring_size value_size value_align with
        | Err e => Ret (Err e)
        | Ok _ =>
            let* hb := load PHHeartbeat in
            let* now := bus_now_micros in
            match now with
            | Err e => Ret (Err e)
            | Ok now =>
                if HEARTBEAT_STALE_US <? saturating_sub now hb then Ret (Err PublisherDead)
                else
                  let* cursor := load PHWriteSeq in
                  let* slot :=
                    (if bounded then
                       let* r := claim_subscriber_slot cursor pid in
                       Ret (match r with Ok i => Ok (Some i) | Err e => Err e end)
                     else Ret (Ok None)) in
                  Ret (match slot with
                       | Err e => Err e
                       | Ok slot_index =>
                           Ok {| bs_type := T; bs_mask := ring_size - 1; bs_ring_size := ring_size;
                                 bs_cursor := cursor; bs_total_lagged := 0;
                                 bs_slot_index := slot_index |}
                       end)
            end
        end
  end
  end.

(** [read_volatile] of the [n] bytes of the value. *)
Fixpoint load_value (i j : Z) (n : nat) : prog bcell bytes :=
  match n with
  | O => Ret []
  | S n' =>
      let* v := load (Data i j) in
      let* rest := load_value i (j + 1) n' in
      Ret (v :: rest)
  end.

Definition update_shm_cursor (s : BusSubscriber) (new_cursor : Z) : prog bcell unit :=
  match bs_slot_index s with
  | Some idx => store (SSState idx) (Z.lor STATE_ACTIVE (Z.land new_cursor VALUE_MASK))
  | None => Ret tt
  end.

(** The cursor after the check for lag, and the new lag count. *)
Definition skip_ahead (s : BusSubscriber) (head : Z) : BusSubscriber :=
  if bs_ring_size s <? head - bs_cursor s then
    let skipped := wrap64 (head - bs_ring_size s - bs_cursor s) in
    with_cursor s (wrap64 (head - bs_ring_size s)) (wrap64 (bs_total_lagged s + skipped))
  else s.

(** The end of a read whose two stamps agree. *)
Definition accept_value (s1 : BusSubscriber) (stamp_before : Z) (value : bytes)
    : prog bcell (BusSubscriber * option bytes) :=
  let expected_stamp := wrap64 (wrap64 (bs_cursor s1 * 2) + 2) in
  if negb (stamp_before =? expected_stamp) then
    let written_seq := stamp_before / 2 - 1 in
    let skipped := wrap64 (written_seq + 1 - bs_cursor s1) in
    Ret (with_cursor s1 (written_seq + 1) (wrap64 (bs_total_lagged s1 + skipped)), None)
  else
    let s2 := with_cursor s1 (wrap64 (bs_cursor s1 + 1)) (bs_total_lagged s1) in
    update_shm_cursor s2 (bs_cursor s2) ;;;
    Ret (s2, Some value).

(** The seqlock read of the slot at the cursor. *)
Definition read_slot (s1 : BusSubscriber) : prog bcell (BusSubscriber * option bytes) :=
  let idx := Z.land (bs_cursor s1) (bs_mask s1) in
  let* stamp_before := load (Stamp idx) in
  if negb (Z.land stamp_before 1 =? 0) then Ret (s1, None)
  else if stamp_before =? 0 then Ret (s1, None)
  else
    let* value := load_value idx 0 (Z.to_nat (size_of (bs_type s1))) in
    let* stamp_after := load (Stamp idx) in
    if negb (stamp_after =? stamp_before) then Ret (s1, None)
    else accept_value s1 stamp_before value.

Definition bus_try_recv (s : BusSubscriber) : prog bcell (BusSubscriber * option bytes) :=
  let* head := load PHWriteSeq in
  if head <=? bs_cursor s then Ret (s, None)
  else read_slot (skip_ahead s head).

Definition bus_subscriber_drop (s : BusSubscriber) : prog bcell unit :=
  match bs_slot_index s with
  | Some idx => store (SSState idx) STATE_FREE ;;; store (SSPid idx) 0
  | None => Ret tt
  end.

(** A sample run: two values through an unbounded bus of two slots. *)
Example bus_demo :
  let T := mkPod 2 1 in
  let w0 : world bcell (cellmem bcell) := mkWorld (fun _ => 0) (Some 1000000) 0 [] in
  (run (let* c := bus_create T 9 [98] 2 in
        match c with
        | Err _ => Ret (Err tt)
        | Ok b =>
            let* s := bus_connect T 10 192 [98] in
            match s with
            | Err _ => Ret (Err tt)
            | Ok s =>
                publish_unchecked b [1; 2] ;;; publish_unchecked b [3; 4] ;;;
                let* (s1, v1) := bus_try_recv s in
                let* (s2, v2) := bus_try_recv s1 in
                let* (_, v3) := bus_try_recv s2 in
                Ret (Ok (v1, v2, v3))
            end
        end) w0).1 = Done (Ok (Some [1; 2], Some [3; 4], None)).
Proof. reflexivity. Qed.
