(* ===== verification/BusProof.v ===== *)
(** * BusProof: the broadcast ring under every interleaving

    One publisher (thread 0) and any number of subscribers run concurrently on one
    bus. The ghost state is the log of the values published so far. The invariant
    says what each slot holds: the value of the last sequence number of its index,
    complete if its stamp is even, in progress if odd. On a bounded bus the
    [tracked] subscribers, those connected before the first publish, keep the log
    within the ring: it never gets ahead of their cursors by more than the
    effective ring size. *)

From S2P Require Import Prelude Errors Layout Atomics Rely Pool Subscription Loan Publisher.
From S2P Require Import PodBus.

Definition bstate : Type := list bytes * hstate bcell.
Definition bmem (σ : bstate) : cellmem bcell := hs_mem σ.2.
Definition loglen (σ : bstate) : Z := Z.of_nat (length σ.1).
Definition no_window (_ : bcell) : option Z := None.

(** ** Clients *)

Inductive bus_cmd : Type :=
| BPublish (value : bytes)
| BTryPublish (value : bytes)
| BHeartbeat.

(** What a finished thread reports: the values it published, or the values it received
    with their sequence numbers and its lag counter. *)
Inductive bus_out : Type :=
| PubOut (accepted : list bytes)
| SubOut (received : list (Z * bytes)) (lagged : Z).

Fixpoint bus_publisher (os : os_process) (fuel : nat) (cmds : list bus_cmd) (b : PodBus)
    (acc : list bytes) : prog bcell bus_out :=
  match cmds with
  | [] => Ret (PubOut acc)
  | BPublish v :: cmds' =>
      let* b' := bus_publish os fuel b v in
      bus_publisher os fuel cmds' b' (acc ++ [v])
  | BTryPublish v :: cmds' =>
      let* (b', res) := try_publish os b v in
      match res with
      | Ok _ => bus_publisher os fuel cmds' b' (acc ++ [v])
      | Err _ => bus_publisher os fuel cmds' b' acc
      end
  | BHeartbeat :: cmds' => bus_heartbeat ;;; bus_publisher os fuel cmds' b acc
  end.

(** The values a client asks to publish. *)
Definition bus_requested (cmds : list bus_cmd) : list bytes :=
  omap (fun c => match c with BPublish v | BTryPublish v => Some v | BHeartbeat => None end) cmds.

(** [n] attempts to receive. *)
Fixpoint bus_receiver (n : nat) (s : BusSubscriber) (got : list (Z * bytes)) : prog bcell bus_out :=
  match n with
  | O => Ret (SubOut got (bs_total_lagged s))
  | S n' =>
      let* (s', o) := bus_try_recv s in
      match o with
      | Some v => bus_receiver n' s' (got ++ [(bs_cursor s' - 1, v)])
      | None => bus_receiver n' s' got
      end
  end.

(** A subscriber that joins at any time, receives, and leaves. *)
Definition bus_joiner (T : Pod) (pid len : Z) (name : bytes) (n : nat) : prog bcell bus_out :=
  let* res := bus_connect T pid len name in
  match res with
  | Err _ => Ret (SubOut [] 0)
  | Ok s =>
      let* out := bus_receiver n s [] in
      bus_subscriber_drop s ;;;
      Ret out
  end.

Section Bus.
Context (N sz eff bound : Z) (os : os_process) (tracked : nat -> option Z)
  (req : list bytes).

Hypothesis (HN : is_power_of_two N = true).
Hypothesis (HNb : N < 2 ^ 32).
Hypothesis (Heff : 0 < eff <= N).
Hypothesis (Hbound : bound < 2 ^ 61).
Hypothesis (Htr0 : tracked 0%nat = None).
Hypothesis (Htr_inj : forall t t' i, tracked t = Some i -> tracked t' = Some i -> t = t').
Hypothesis (Htr_range : forall t i, tracked t = Some i -> 0 <= i < MAX_SUBSCRIBER_SLOTS).

(** [q] is the last sequence number below [len] that uses slot [i]. *)
Definition last_in (len i q : Z) : Prop :=
  0 <= q < len /\ q mod N = i /\ forall q', q < q' < len -> q' mod N <> i.

(** What slot [i] holds, for a log and a write sequence [ws]. *)
Definition slot_ok (log : list bytes) (ws : Z) (m : cellmem bcell) (i : Z) : Prop :=
  (m (Stamp i) = 0 /\ forall q, 0 <= q < Z.of_nat (length log) -> q mod N <> i) \/
  exists q v, last_in (Z.of_nat (length log)) i q /\ log !! Z.to_nat q = Some v /\
    ((m (Stamp i) = 2 * q + 2 /\ forall j x, v !! j = Some x -> m (Data i (Z.of_nat j)) = x) \/
     (m (Stamp i) = 2 * q + 1 /\ q = ws)).

Record BInv (σ : bstate) : Prop := {
  bi_len : loglen σ = bmem σ PHWriteSeq \/ loglen σ = bmem σ PHWriteSeq + 1;
  bi_bound : loglen σ <= bound;
  bi_req : sublist σ.1 req;
  bi_sizes : Forall (fun v => length v = Z.to_nat sz) σ.1;
  bi_slot : forall i, 0 <= i < N -> slot_ok σ.1 (bmem σ PHWriteSeq) (bmem σ) i;
  bi_header : bmem σ PHRingSize = N /\ bmem σ PHValueSize = sz /\ 0 <= bmem σ PHWriteSeq;
  bi_track : forall t i, tracked t = Some i -> exists c,
    bmem σ (SSState i) = STATE_ACTIVE + c /\ 0 <= c <= bmem σ PHWriteSeq /\ loglen σ <= c + eff /\
    (bmem σ (SSPid i) = 0 \/ probed_alive os (bmem σ (SSPid i)))
}.

(** The cells only the publisher writes. *)
Definition bus_pub_cell (c : bcell) : bool :=
  match c with PHWriteSeq | Stamp _ | Data _ _ => true | _ => false end.

Record BRely (t : nat) (σ σ' : bstate) : Prop := {
  br_log : σ.1 `prefix_of` σ'.1;
  br_ws : bmem σ PHWriteSeq <= bmem σ' PHWriteSeq;
  br_stamp : forall i, 0 <= i < N -> bmem σ (Stamp i) <= bmem σ' (Stamp i);
  br_cursor : forall t' i, tracked t' = Some i -> bmem σ (SSState i) <= bmem σ' (SSState i);
  br_own : forall i, tracked t = Some i -> bmem σ' (SSState i) = bmem σ (SSState i);
  br_pub : t = 0%nat -> σ'.1 = σ.1 /\ forall c, bus_pub_cell c = true -> bmem σ' c = bmem σ c
}.

Definition BGuar (t : nat) (σ σ' : bstate) : Prop := forall t', t' <> t -> BRely t' σ σ'.

#[export] Instance BRely_pre t : PreOrder (BRely t).
Proof.
  split.
  - intros σ. split; try done.
  - intros σ1 σ2 σ3 [A1 A2 A3 A4 A5 A6] [B1 B2 B3 B4 B5 B6]. split.
    + by etransitivity.
    + lia.
    + intros i Hi. specialize (A3 i Hi). specialize (B3 i Hi). lia.
    + intros t' i Hi. specialize (A4 t' i Hi). specialize (B4 t' i Hi). lia.
    + intros i Hi. rewrite B5, A5 by done. done.
    + intros Ht. destruct (A6 Ht) as [EA HA]. destruct (B6 Ht) as [EB HB].
      split; [by rewrite EB|]. intros c Hc. rewrite HB, HA by done. done.
Qed.

Lemma BGuar_BRely t t' σ σ' : t <> t' -> BGuar t σ σ' -> BRely t' σ σ'.
Proof. intros Hne Hg. by apply Hg. Qed.

Local Abbreviation tri := (hoare no_window BInv BRely BGuar).
Local Abbreviation kept := (kept BRely).

(** ** Steps that no one depends on *)

Definition untracked (i : Z) : Prop := forall t, tracked t <> Some i.

Definition bidle (c : bcell) : Prop :=
  match c with
  | PHHeartbeat => True
  | SSPid i | SSState i => untracked i
  | _ => False
  end.

Definition msame (σ σ' : bstate) : Prop :=
  σ'.1 = σ.1 /\ forall c, ~ bidle c -> bmem σ' c = bmem σ c.

Lemma tracked_not_idle t i : tracked t = Some i -> ~ bidle (SSState i) /\ ~ bidle (SSPid i).
Proof. intros Ht. split; intros H; by apply (H t). Qed.

Ltac not_idle := let H := fresh in intros H; exact H.

Lemma msame_rely t σ σ' : msame σ σ' -> BRely t σ σ'.
Proof.
  intros [Hl Hm]. split.
  - by rewrite Hl.
  - by rewrite Hm by not_idle.
  - intros i Hi. by rewrite Hm by not_idle.
  - intros t' i Hi. rewrite Hm; [done|]. by eapply tracked_not_idle.
  - intros i Hi. rewrite Hm; [done|]. by eapply tracked_not_idle.
  - intros _. split; [done|]. intros c Hc. apply Hm. destruct c; try discriminate Hc; not_idle.
Qed.

Lemma msame_inv σ σ' : msame σ σ' -> BInv σ -> BInv σ'.
Proof.
  intros [Hl Hm] [H1 H2 H3 H4 H5 H6 H7].
  assert (Hws : bmem σ' PHWriteSeq = bmem σ PHWriteSeq) by by rewrite Hm by not_idle.
  unfold loglen in *. rewrite <- Hl in *. rewrite <- Hws in *. split; try done.
  - intros i Hi. specialize (H5 i Hi). unfold slot_ok in *. rewrite Hm by not_idle.
    destruct H5 as [H5|(q & v & A1 & A2 & [[A3 A4]|A3])]; [by left|right; exists q, v..].
    + split; [done|]. split; [done|]. left. split; [done|]. intros j x Hx.
      rewrite Hm by not_idle. by apply A4.
    + auto.
  - by rewrite (Hm PHRingSize), (Hm PHValueSize) by not_idle.
  - intros t i Ht. destruct (tracked_not_idle t i Ht). rewrite (Hm (SSState i)), (Hm (SSPid i)) by done.
    by apply (H7 t).
Qed.

Lemma msame_see t c σ : msame σ (σ.1, h_see t c σ.2).
Proof. by split. Qed.

Lemma msame_set c v σ : bidle c -> msame σ (σ.1, h_set c v σ.2).
Proof. intros Hc. split; [done|]. intros c' Hc'. unfold bmem. cbn. rewrite upd_ne; [done|]. by intros <-. Qed.

Lemma msame_cas c v σ : bidle c -> msame σ (σ.1, h_cas c v σ.2).
Proof. intros Hc. split; [done|]. intros c' Hc'. unfold bmem. cbn. rewrite upd_ne; [done|]. by intros <-. Qed.

Lemma msame_moves t σ s' (P : bstate -> Prop) :
  kept t P -> P σ -> BInv σ -> msame σ (σ.1, s') -> moves BInv BGuar t σ s' P.
Proof.
  intros Hk HP Hi Hm. exists σ.1. split; [intros t' _; by apply msame_rely|].
  split; [by eapply msame_inv|]. eapply Hk; [exact HP|]. by apply msame_rely.
Qed.

Lemma tri_bind {A B} t P (p : prog bcell A) (f : A -> prog bcell B) R Q :
  tri t P p R -> (forall a, tri t (R a) (f a) Q) -> tri t P (bind p f) Q.
Proof. apply hoare_bind. apply _. Qed.

Lemma tri_frame {A} t P (p : prog bcell A) Q R :
  (forall t', kept t' R) -> tri t P p Q -> tri t (fun σ => P σ /\ R σ) p (fun a σ => Q a σ /\ R σ).
Proof. apply hoare_frame. intros t1 t2 σ σ'. apply BGuar_BRely. Qed.

Lemma tri_load {A} t c (k : Z -> prog bcell A) P P' Q :
  kept t P -> (forall v, kept t (P' v)) ->
  (forall σ, P σ -> BInv σ -> P' (bmem σ c) σ) ->
  (forall v, tri t (P' v) (k v) Q) -> tri t P (ALoad c k) Q.
Proof.
  intros Hs Hs' HP Hk. eapply hoare_load; [done| |exact Hk]. intros σ Hσ Hi.
  apply msame_moves; [apply Hs'|by apply HP|done|apply msame_see].
Qed.

Lemma tri_load_any {A} t c (k : Z -> prog bcell A) P Q :
  kept t P -> (forall v, tri t P (k v) Q) -> tri t P (ALoad c k) Q.
Proof. intros Hs Hk. by apply (tri_load t c k P (fun _ => P)). Qed.

Lemma tri_store_idle {A} t c v (k : prog bcell A) P Q :
  bidle c -> kept t P -> tri t P k Q -> tri t P (AStore c v k) Q.
Proof.
  intros Hc Hs Hk. eapply hoare_store; [done| |exact Hk]. intros σ Hσ Hi.
  apply msame_moves; [done|done|done|by apply msame_set].
Qed.

Lemma tri_now {A} t (k : result Z Error -> prog bcell A) P Q :
  kept t P -> (forall v, tri t P (k v) Q) -> tri t P (bind bus_now_micros k) Q.
Proof. intros Hs Hk. unfold bus_now_micros. cbn [bind system_now]. apply hoare_now; [done|]. intros v. apply Hk. Qed.

Lemma tri_touch {A} t P (k : prog bcell A) Q :
  kept t P -> tri t P k Q -> tri t P (bus_touch ;;; k) Q.
Proof.
  intros Hs Hk. unfold bus_touch, bus_now_micros. cbn [bind system_now].
  apply hoare_now; [done|]. intros [ns|]; cbn [bind store]; [by apply tri_store_idle | done].
Qed.

(** ** Slots *)

Lemma N_pos : 0 < N.
Proof. by apply is_power_of_two_pos. Qed.

Lemma mod_range q : 0 <= q mod N < N.
Proof. apply Z.mod_pos_bound, N_pos. Qed.

Lemma stamp_bound log ws m i :
  slot_ok log ws m i -> 0 <= m (Stamp i) <= 2 * Z.of_nat (length log).
Proof.
  intros [[-> _]|(q & v & (Hq & _) & _ & [[-> _]|[-> _]])]; lia.
Qed.

Lemma slot_ok_frame log ws m m' i :
  m' (Stamp i) = m (Stamp i) -> (forall j, m' (Data i j) = m (Data i j)) ->
  slot_ok log ws m i -> slot_ok log ws m' i.
Proof.
  intros Hs Hd. unfold slot_ok. rewrite Hs. intros [H|(q & v & A1 & A2 & [[A3 A4]|A3])]; [by left|..];
    right; exists q, v; (split; [done|]; split; [done|]); [left|by right].
  split; [done|]. intros j x Hx. rewrite Hd. by apply A4.
Qed.

(** A new value does not concern the other slots. *)
Lemma slot_ok_append log v ws m i :
  i <> Z.of_nat (length log) mod N -> slot_ok log ws m i -> slot_ok (log ++ [v]) ws m i.
Proof.
  intros Hne. assert (Hl : Z.of_nat (length (log ++ [v])) = Z.of_nat (length log) + 1).
  { rewrite length_app. cbn. lia. }
  intros [[H1 H2]|(q & v' & (A1 & A2 & A3) & A4 & A5)]; [left|right].
  - split; [done|]. intros q Hq. rewrite Hl in Hq.
    destruct (decide (q = Z.of_nat (length log))) as [->|]; [by apply not_eq_sym|apply H2; lia].
  - exists q, v'. split; [|split; [by apply lookup_app_l_Some|done]].
    rewrite Hl. split; [lia|]. split; [done|]. intros q' Hq'.
    destruct (decide (q' = Z.of_nat (length log))) as [->|]; [by apply not_eq_sym|apply A3; lia].
Qed.

Lemma last_in_last len : 0 <= len -> last_in (len + 1) (len mod N) len.
Proof. intros H. split; [lia|]. split; [done|]. intros q' Hq'. lia. Qed.

(** The slot a value is being written to, and the slot of a complete value. *)
Lemma slot_ok_new log v ws m :
  ws = Z.of_nat (length log) ->
  (m (Stamp (ws mod N)) = 2 * ws + 1 \/
   m (Stamp (ws mod N)) = 2 * ws + 2 /\
     forall j x, v !! j = Some x -> m (Data (ws mod N) (Z.of_nat j)) = x) ->
  slot_ok (log ++ [v]) ws m (ws mod N).
Proof.
  intros Hws Hm. right. exists ws, v. rewrite length_app. cbn [length].
  replace (Z.of_nat (length log + 1)) with (ws + 1) by lia.
  split; [apply last_in_last; lia|]. split.
  - rewrite Hws, Nat2Z.id, lookup_app_r, Nat.sub_diag by lia. done.
  - destruct Hm as [Hm|[Hm Hd]]; [right; done | left; done].
Qed.

(** ** Publishing *)

(** The publisher's view between two publishes. *)
Definition published (acc : list bytes) (σ : bstate) : Prop :=
  σ.1 = acc /\ bmem σ PHWriteSeq = Z.of_nat (length acc).

(** The publisher's view while it writes [v]; [k] bytes are done. *)
Definition writing (acc : list bytes) (v : bytes) (k : nat) (σ : bstate) : Prop :=
  let ws := Z.of_nat (length acc) in
  σ.1 = acc ++ [v] /\ bmem σ PHWriteSeq = ws /\ bmem σ (Stamp (ws mod N)) = 2 * ws + 1 /\
  forall j x, (j < k)%nat -> v !! j = Some x -> bmem σ (Data (ws mod N) (Z.of_nat j)) = x.

Definition committed (acc : list bytes) (v : bytes) (σ : bstate) : Prop :=
  let ws := Z.of_nat (length acc) in
  σ.1 = acc ++ [v] /\ bmem σ PHWriteSeq = ws /\ bmem σ (Stamp (ws mod N)) = 2 * ws + 2.

(** The tracked cursors are at least [c]; they leave room for one more value. *)
Definition floor (c : Z) (σ : bstate) : Prop :=
  forall t i, tracked t = Some i -> STATE_ACTIVE + c <= bmem σ (SSState i).
Definition has_room (acc : list bytes) : bstate -> Prop := floor (Z.of_nat (length acc) + 1 - eff).

Lemma kept_published acc : kept 0%nat (published acc).
Proof.
  intros σ σ' [H1 H2] Hr. destruct (br_pub _ _ _ Hr eq_refl) as [E1 E2].
  split; [by rewrite E1|by rewrite E2].
Qed.

Lemma kept_floor c t : kept t (floor c).
Proof. intros σ σ' H Hr t' i Ht. pose proof (br_cursor _ _ _ Hr t' i Ht). specialize (H t' i Ht). lia. Qed.

Lemma kept_writing acc v k : kept 0%nat (writing acc v k).
Proof.
  intros σ σ' (H1 & H2 & H3 & H4) Hr. destruct (br_pub _ _ _ Hr eq_refl) as [E1 E2].
  unfold writing. rewrite E1, !E2 by done. repeat (split; [done|]).
  intros j x Hj Hx. rewrite E2 by done. by apply H4.
Qed.

Lemma kept_committed acc v : kept 0%nat (committed acc v).
Proof.
  intros σ σ' (H1 & H2 & H3) Hr. destruct (br_pub _ _ _ Hr eq_refl) as [E1 E2].
  unfold committed. by rewrite E1, !E2.
Qed.

Lemma kept_and t P P' : kept t P -> kept t P' -> kept t (fun σ => P σ /\ P' σ).
Proof. intros H1 H2 σ σ' [A B] Hr. split; [by eapply H1|by eapply H2]. Qed.

(** The memory after a store to a cell. *)
Lemma bmem_set g c v (σ : bstate) c' : bmem (g, h_set c v σ.2) c' = if decide (c = c') then v else bmem σ c'.
Proof. done. Qed.

Lemma bmem_set_ne g c v (σ : bstate) c' : c <> c' -> bmem (g, h_set c v σ.2) c' = bmem σ c'.
Proof. intros Hne. rewrite bmem_set. by rewrite decide_False. Qed.

Lemma bmem_set_eq g c v (σ : bstate) : bmem (g, h_set c v σ.2) c = v.
Proof. rewrite bmem_set. by rewrite decide_True. Qed.

(** A store to a publisher cell, seen by the subscribers. *)
Lemma pub_guar σ g c v :
  σ.1 `prefix_of` g ->
  match c with Data _ _ => True | PHWriteSeq | Stamp _ => bmem σ c <= v | _ => False end ->
  BGuar 0 σ (g, h_set c v σ.2).
Proof.
  intros Hp Hc t' Ht'. split; cbn [fst]; try done.
  - rewrite bmem_set. case_decide; [by subst | done].
  - intros i Hi. rewrite bmem_set. case_decide; [by subst | done].
  - intros t'' i Hi. rewrite bmem_set_ne; [done|]. by intros ->.
  - intros i Hi. rewrite bmem_set_ne; [done|]. by intros ->.
Qed.

Lemma write_begin acc v σ :
  published acc σ -> has_room acc σ -> BInv σ ->
  sublist (acc ++ [v]) req -> length v = Z.to_nat sz -> Z.of_nat (length acc) < bound ->
  let ws := Z.of_nat (length acc) in
  moves BInv BGuar 0 σ (h_set (Stamp (ws mod N)) (2 * ws + 1) σ.2) (writing acc v 0).
Proof.
  intros [Hg Hw] Hroom Hi Hsub Hlen Hb ws. pose proof (mod_range ws) as Hmr.
  pose proof (stamp_bound _ _ _ _ (bi_slot _ Hi _ Hmr)) as Hst. rewrite Hg in Hst.
  exists (acc ++ [v]). split; [|split].
  - apply pub_guar; [rewrite Hg; by apply prefix_app_r|]. cbn. unfold ws in *. lia.
  - destruct Hi as [H1 H2 H3 H4 H5 H6 H7].
    assert (Hll : loglen (acc ++ [v], h_set (Stamp (ws mod N)) (2 * ws + 1) σ.2) = ws + 1).
    { unfold loglen. cbn. rewrite length_app. cbn. lia. }
    rewrite Hg in H4, H5. split; rewrite ?Hll, ?bmem_set_ne by done; cbn [fst].
    + right. unfold ws. lia.
    + unfold ws. lia.
    + done.
    + apply Forall_app. split; [done|]. by apply Forall_singleton.
    + intros i Hir. rewrite Hw. destruct (decide (i = ws mod N)) as [->|Hne].
      * apply slot_ok_new; [done|]. left. by rewrite bmem_set_eq.
      * eapply slot_ok_frame; [| |apply slot_ok_append; [done|rewrite <- Hw; by apply H5]].
        -- rewrite bmem_set_ne; [done|]. congruence.
        -- intros j. by rewrite bmem_set_ne.
    + done.
    + intros t i Ht. rewrite !bmem_set_ne by done. destruct (H7 t i Ht) as (c & C1 & C2 & C3 & C4).
      exists c. specialize (Hroom t i Ht). rewrite C1 in Hroom.
      split; [done|]. split; [done|]. split; [unfold ws; lia|done].
  - unfold writing. cbn [fst]. rewrite bmem_set_eq, bmem_set_ne by done. split; [done|].
    split; [done|]. split; [done|]. intros j x Hj. lia.
Qed.

Lemma write_byte acc v k x σ :
  v !! k = Some x -> writing acc v k σ -> BInv σ ->
  let ws := Z.of_nat (length acc) in
  moves BInv BGuar 0 σ (h_set (Data (ws mod N) (Z.of_nat k)) x σ.2) (writing acc v (S k)).
Proof.
  intros Hx (Hg & Hw & Hs & Hd) Hi ws. exists (acc ++ [v]). split; [|split].
  - by apply pub_guar; [rewrite Hg|].
  - destruct Hi as [H1 H2 H3 H4 H5 H6 H7]. rewrite Hg in H3, H4, H5. unfold loglen in *.
    rewrite Hg in H1, H2. split; cbn [fst]; rewrite ?bmem_set_ne by done; try done.
    + intros i Hir. destruct (decide (i = ws mod N)) as [->|Hne].
      * rewrite Hw. apply slot_ok_new; [done|]. left. by rewrite bmem_set_ne.
      * eapply slot_ok_frame; [| |by apply H5]; [by rewrite bmem_set_ne|].
        intros j. rewrite bmem_set_ne; [done|]. congruence.
    + intros t i Ht. rewrite !bmem_set_ne by done. destruct (H7 t i Ht) as (c & C1 & C2 & C3 & C4).
      rewrite Hg in C3. by exists c.
  - unfold writing. cbn [fst]. rewrite !bmem_set_ne by done. repeat (split; [done|]).
    intros j y Hj Hy. rewrite bmem_set. case_decide as He.
    + injection He as He. assert (j = k) by lia. subst j. congruence.
    + apply Hd; [|done]. destruct (decide (j = k)) as [->|]; [by destruct He|lia].
Qed.

Lemma write_commit acc v σ :
  writing acc v (length v) σ -> BInv σ ->
  let ws := Z.of_nat (length acc) in
  moves BInv BGuar 0 σ (h_set (Stamp (ws mod N)) (2 * ws + 2) σ.2) (committed acc v).
Proof.
  intros (Hg & Hw & Hs & Hd) Hi ws. exists (acc ++ [v]). split; [|split].
  - apply pub_guar; [by rewrite Hg|]. cbn. unfold ws. rewrite Hs. lia.
  - destruct Hi as [H1 H2 H3 H4 H5 H6 H7]. rewrite Hg in H3, H4, H5. unfold loglen in *.
    rewrite Hg in H1, H2. split; cbn [fst]; rewrite ?bmem_set_ne by done; try done.
    + intros i Hir. destruct (decide (i = ws mod N)) as [->|Hne].
      * rewrite Hw. apply slot_ok_new; [done|]. right. rewrite bmem_set_eq. split; [done|].
        intros j x Hx. rewrite bmem_set_ne by done. apply Hd; [|done]. by eapply lookup_lt_Some.
      * eapply slot_ok_frame; [| |by apply H5]; [|intros j; by rewrite bmem_set_ne].
        rewrite bmem_set_ne; [done|]. congruence.
    + intros t i Ht. rewrite !bmem_set_ne by done. destruct (H7 t i Ht) as (c & C1 & C2 & C3 & C4).
      rewrite Hg in C3. by exists c.
  - unfold committed. cbn [fst]. by rewrite bmem_set_eq, bmem_set_ne.
Qed.

Lemma write_advance acc v σ :
  committed acc v σ -> BInv σ ->
  moves BInv BGuar 0 σ (h_set PHWriteSeq (Z.of_nat (length acc) + 1) σ.2) (published (acc ++ [v])).
Proof.
  intros (Hg & Hw & Hs) Hi. set (ws := Z.of_nat (length acc)) in *. exists (acc ++ [v]).
  assert (Hll : Z.of_nat (length (acc ++ [v])) = ws + 1) by (rewrite length_app; cbn; unfold ws; lia).
  split; [|split].
  - apply pub_guar; [by rewrite Hg|]. rewrite Hw. lia.
  - destruct Hi as [H1 H2 H3 H4 H5 H6 H7]. rewrite Hg in H3, H4, H5. unfold loglen in *.
    rewrite Hg in H1, H2. split; cbn [fst]; rewrite ?bmem_set_eq, ?bmem_set_ne by done; try done.
    + left. exact Hll.
    + intros i Hir. specialize (H5 i Hir). rewrite Hw in H5.
      apply (slot_ok_frame _ _ (bmem σ)); [by rewrite bmem_set_ne|intros j; by rewrite bmem_set_ne|].
      destruct H5 as [H5|(q & v' & A1 & A2 & [A3|[A3 ->]])]; [by left|right; exists q, v'; auto|].
      destruct A1 as (_ & <- & _). lia.
    + destruct H6 as (? & ? & ?). split; [done|]. split; [done|lia].
    + intros t i Ht. rewrite !bmem_set_ne by done. destruct (H7 t i Ht) as (c & C1 & C2 & C3 & C4).
      rewrite Hg in C3. exists c. rewrite Hw in C2. repeat split; try done; lia.
  - split; [done|]. by rewrite bmem_set_eq, Hll.
Qed.

(** The publisher's own stores leave the cursors alone. *)
Lemma moves_floor σ c v (P : bstate -> Prop) lo :
  bus_pub_cell c = true -> floor lo σ ->
  moves BInv BGuar 0 σ (h_set c v σ.2) P ->
  moves BInv BGuar 0 σ (h_set c v σ.2) (fun σ' => P σ' /\ floor lo σ').
Proof.
  intros Hc Hf (g & H1 & H2 & H3). exists g. split; [done|]. split; [done|]. split; [done|].
  intros t i Ht. rewrite bmem_set_ne; [by apply (Hf t)|]. by intros ->.
Qed.

Lemma tri_pub_store {A} c v (k : prog bcell A) (P P' : bstate -> Prop) lo Q :
  bus_pub_cell c = true -> kept 0%nat P ->
  (forall σ, P σ -> floor lo σ -> BInv σ -> moves BInv BGuar 0 σ (h_set c v σ.2) P') ->
  tri 0%nat (fun σ => P' σ /\ floor lo σ) k Q ->
  tri 0%nat (fun σ => P σ /\ floor lo σ) (AStore c v k) Q.
Proof.
  intros Hc Hk Hm Ht. eapply hoare_store; [|intros σ [Hp Hf] Hi|exact Ht].
  - apply kept_and; [done|apply kept_floor].
  - by apply moves_floor; [done|done|apply Hm].
Qed.

Lemma tri_store_value {A} acc v k rest lo (p : prog bcell A) Q :
  v = take k v ++ rest -> (k <= length v)%nat ->
  tri 0%nat (fun σ => writing acc v (length v) σ /\ floor lo σ) p Q ->
  tri 0%nat (fun σ => writing acc v k σ /\ floor lo σ)
    (store_value (Z.of_nat (length acc) mod N) (Z.of_nat k) rest ;;; p) Q.
Proof.
  revert k. induction rest as [|x rest IH]; intros k Hv Hk Hp; cbn [store_value bind store].
  - rewrite app_nil_r in Hv. assert (k = length v) as ->; [|done].
    apply (f_equal length) in Hv. rewrite length_take in Hv. lia.
  - assert (Hx : v !! k = Some x).
    { rewrite Hv. rewrite lookup_app_r; rewrite length_take; [|lia].
      by replace (k - k `min` length v)%nat with 0%nat by lia. }
    eapply tri_pub_store; [done|apply kept_writing|intros σ Hw _ Hi; by apply write_byte|].
    replace (Z.of_nat k + 1) with (Z.of_nat (S k)) by lia.
    apply IH; [|by apply lookup_lt_Some in Hx|done].
    rewrite (take_S_r _ _ x), <- app_assoc by done. exact Hv.
Qed.

(** One publish extends the log by the value. *)
Lemma tri_publish_unchecked b acc v lo :
  bus_mask b = N - 1 -> sublist (acc ++ [v]) req -> length v = Z.to_nat sz ->
  Z.of_nat (length acc) < bound ->
  tri 0%nat (fun σ => published acc σ /\ floor (Z.max lo (Z.of_nat (length acc) + 1 - eff)) σ)
    (publish_unchecked b v) (fun _ σ => published (acc ++ [v]) σ /\ floor lo σ).
Proof.
  intros Hm Hsub Hlen Hb. set (ws := Z.of_nat (length acc)). set (lo' := Z.max lo _).
  assert (Hk : kept 0%nat (fun σ => published acc σ /\ floor lo' σ))
    by (apply kept_and; [apply kept_published|apply kept_floor]).
  unfold publish_unchecked. cbn [bind load].
  apply (tri_load _ _ _ _ (fun w σ => w = ws /\ published acc σ /\ floor lo' σ)); [done| | |].
  { intros w σ σ' [-> H] Hr. split; [done|]. by eapply Hk. }
  { intros σ [[H1 H2] H3] _. by repeat split. }
  intros w. apply hoare_pure. intros ->.
  assert (Hcont : tri 0%nat (fun σ => published acc σ /\ floor lo' σ)
    (store (Stamp (Z.land ws (bus_mask b))) (wrap64 (wrap64 (ws * 2) + 1)) ;;;
     store_value (Z.land ws (bus_mask b)) 0 v ;;;
     store (Stamp (Z.land ws (bus_mask b))) (wrap64 (wrap64 (ws * 2) + 2)) ;;;
     store PHWriteSeq (wrap64 (ws + 1)))
    (fun _ σ => published (acc ++ [v]) σ /\ floor lo σ)).
  { rewrite Hm, land_mask by done.
    rewrite (wrap64_small (ws * 2)), !wrap64_small by (unfold in_u64, ws; lia).
    replace (ws * 2) with (2 * ws) by lia. cbn [bind store].
    eapply tri_pub_store; [done|apply kept_published|intros σ Hp Hf Hi|].
    { apply write_begin; try done. intros t i Ht. specialize (Hf t i Ht). fold ws. lia. }
    apply (tri_store_value acc v 0 v); [by rewrite take_0|lia|]. cbn [bind store].
    eapply tri_pub_store; [done|apply kept_writing|intros σ Hw _ Hi; by apply write_commit|].
    eapply tri_pub_store; [done|apply kept_committed|intros σ Hw _ Hi; by apply write_advance|].
    apply hoare_ret; [apply kept_and; [apply kept_published|apply kept_floor]|].
    intros σ [H1 H2] _. split; [done|]. intros t i Ht. specialize (H2 t i Ht). lia. }
  destruct (_ =? 0); [by apply tri_touch|exact Hcont].
Qed.

(** ** Scanning the cursors *)

Lemma value_range x : 0 <= Z.land x VALUE_MASK < 2 ^ 62.
Proof. rewrite land_value_mask. apply Z.mod_pos_bound. lia. Qed.

Lemma active_word c : 0 <= c < 2 ^ 62 -> Z.lor STATE_ACTIVE (Z.land c VALUE_MASK) = STATE_ACTIVE + c.
Proof.
  intros Hc. rewrite land_value_mask, Z.mod_small by lia.
  change STATE_ACTIVE with (Z.shiftl 1 62). rewrite lor_shiftl_add by lia. rewrite Z.shiftl_mul_pow2; lia.
Qed.

(** The accumulator of a scan over [L] is a lower bound of the tracked cursors in [L]. *)
Definition seen (L : list Z) (acc : Z * bool) (σ : bstate) : Prop :=
  (acc.2 = true -> 0 <= acc.1 < 2 ^ 62) /\
  forall t i, tracked t = Some i -> i ∈ L ->
    acc.2 = true /\ STATE_ACTIVE + acc.1 <= bmem σ (SSState i).

Lemma kept_seen t L acc : kept t (seen L acc).
Proof.
  intros σ σ' [H1 H2] Hr. split; [done|]. intros t' i Ht Hi. destruct (H2 t' i Ht Hi).
  pose proof (br_cursor _ _ _ Hr t' i Ht). split; [done|lia].
Qed.

Lemma seen_skip L acc i σ : untracked i -> seen L acc σ -> seen (i :: L) acc σ.
Proof.
  intros Hu [H1 H2]. split; [done|]. intros t j Ht [->|Hj]%elem_of_cons; [by destruct (Hu t)|by eapply H2].
Qed.

Lemma seen_take L acc i c σ :
  0 <= c < 2 ^ 62 -> (forall t, tracked t = Some i -> STATE_ACTIVE + c <= bmem σ (SSState i)) ->
  (acc.2 = false -> acc.1 = u64_max) -> seen L acc σ -> seen (i :: L) (Z.min acc.1 c, true) σ.
Proof.
  intros Hc Hi Hf [H1 H2]. split; cbn [fst snd].
  - intros _. destruct acc as [mn []]; cbn in *; [specialize (H1 eq_refl); lia|].
    rewrite (Hf eq_refl). unfold u64_max. lia.
  - intros t j Ht [->|Hj]%elem_of_cons; (split; [done|]).
    + specialize (Hi t Ht). lia.
    + destruct (H2 t j Ht Hj). lia.
Qed.

(** What a read of slot [i]'s word tells about a tracked slot. *)
Definition word_read (i packed : Z) (σ : bstate) : Prop :=
  forall t, tracked t = Some i ->
    exists c, packed = STATE_ACTIVE + c /\ 0 <= c < 2 ^ 62 /\ packed <= bmem σ (SSState i).

Lemma kept_word_read t i packed : kept t (word_read i packed).
Proof.
  intros σ σ' H Hr t' Ht. destruct (H t' Ht) as (c & E & Hc & Hle). exists c.
  pose proof (br_cursor _ _ _ Hr t' i Ht). split; [done|]. split; [done|lia].
Qed.

Lemma word_read_inv i σ : BInv σ -> word_read i (bmem σ (SSState i)) σ.
Proof.
  intros Hi t Ht. destruct (bi_track _ Hi t i Ht) as (c & -> & Hc & _).
  exists c. pose proof (bi_bound _ Hi). destruct (bi_len _ Hi); split; try done; lia.
Qed.

Lemma word_read_untracked i packed σ :
  packed - Z.land packed VALUE_MASK <> STATE_ACTIVE -> word_read i packed σ -> untracked i.
Proof.
  intros Hne HK t Ht. apply Hne. destruct (HK t Ht) as (c & -> & Hc & _).
  rewrite active_value by done. lia.
Qed.

Section Scan.
Context (R : bstate -> Prop) (HR : kept 0%nat R).

(** The state of the scan: the slots of [L] are accounted for in [acc]. *)
Definition scanning (L : list Z) (acc : Z * bool) (σ : bstate) : Prop :=
  R σ /\ seen L acc σ /\ (acc.2 = false -> acc.1 = u64_max).

Lemma kept_scanning L acc : kept 0%nat (scanning L acc).
Proof. intros σ σ' (H1 & H2 & H3) Hr. split; [by eapply HR|]. split; [by eapply kept_seen|done]. Qed.

Lemma tri_skip L acc i :
  untracked i -> tri 0%nat (scanning L acc) (Ret acc) (scanning (i :: L)).
Proof.
  intros Hu. apply hoare_ret; [apply kept_scanning|]. intros σ (H1 & H2 & H3) _.
  split; [done|]. split; [by apply seen_skip|done].
Qed.

(** Reclaiming a slot whose claim is older than five seconds. *)
Lemma tri_reclaim L acc i packed :
  untracked i ->
  tri 0%nat (scanning L acc)
    (let* (ok, _) := compare_exchange (SSState i) packed STATE_FREE in
     if ok : bool then store (SSPid i) 0 ;;; Ret acc else Ret acc) (scanning (i :: L)).
Proof.
  intros Hu. cbn [bind compare_exchange].
  apply (hoare_cas _ _ _ _ _ _ _ _ _ _ (scanning L acc) (scanning L acc) (fun _ => scanning L acc)).
  - apply kept_scanning.
  - intros σ Hσ Hi _. apply msame_moves; [apply kept_scanning|done|done|by apply msame_cas].
  - intros σ Hσ Hi. apply msame_moves; [apply kept_scanning|done|done|by apply msame_see].
  - cbn [bind store]. apply tri_store_idle; [done|by apply kept_scanning|]. by apply tri_skip.
  - intros _. by apply tri_skip.
Qed.

(** Whether the owner of the slot is gone, asked of the system unless the pid is 0. *)
Lemma tri_dead (P : bstate -> Prop) i pid :
  kept 0%nat P -> (forall t, tracked t = Some i -> pid = 0 \/ probed_alive os pid) ->
  tri 0%nat P
    (if pid =? 0 then Ret false else let* alive := is_pid_alive os pid in Ret (negb alive))
    (fun dead σ => (dead = true -> untracked i) /\ P σ).
Proof.
  intros HP Hal. destruct (Z.eqb_spec pid 0) as [_|Hne]; [by apply hoare_ret|].
  cbn [bind is_pid_alive instant_now]. apply hoare_instant; [done|]. intros moment.
  apply hoare_ret; [done|]. intros σ Hσ _. split; [|done]. intros Hd t Ht.
  destruct (Hal t Ht) as [->|Hp]; [done|]. by rewrite (Hp moment) in Hd.
Qed.

(** An active slot: pruned when its owner is dead, counted otherwise. *)
Lemma tri_active L acc i packed :
  tri 0%nat (fun σ => scanning L acc σ /\ word_read i packed σ)
    (let* pid := load (SSPid i) in
     let* dead := (if pid =? 0 then Ret false
                   else let* alive := is_pid_alive os pid in Ret (negb alive)) in
     if dead : bool then store (SSState i) STATE_FREE ;;; store (SSPid i) 0 ;;; Ret acc
     else Ret (Z.min (fst acc) (Z.land packed VALUE_MASK), true)) (scanning (i :: L)).
Proof.
  assert (HK : kept 0%nat (fun σ => scanning L acc σ /\ word_read i packed σ))
    by (apply kept_and; [apply kept_scanning|apply kept_word_read]).
  cbn [bind load]. apply (tri_load _ _ _ _ (fun pid σ =>
    (forall t, tracked t = Some i -> pid = 0 \/ probed_alive os pid) /\
    scanning L acc σ /\ word_read i packed σ)); [done| | |].
  { intros pid σ σ' [H1 H2] Hr. split; [done|]. by eapply HK. }
  { intros σ Hσ Hi. split; [|done]. intros t Ht. by destruct (bi_track _ Hi t i Ht) as (c & _ & _ & _ & H). }
  intros pid. apply hoare_pure. intros Hal. eapply tri_bind; [by apply tri_dead|].
  intros dead. apply hoare_pure. intros Hu. destruct dead.
  - specialize (Hu eq_refl). eapply hoare_pre with (P' := scanning L acc); [|by intros σ [H _]].
    cbn [bind store]. apply tri_store_idle; [done|apply kept_scanning|].
    apply tri_store_idle; [done|apply kept_scanning|]. by apply tri_skip.
  - apply hoare_ret; [exact HK|]. intros σ [(H1 & H2 & H3) Hw] _. split; [done|]. split; [|done].
    apply seen_take; [apply value_range| |done|done]. intros t Ht.
    destruct (Hw t Ht) as (c & -> & Hc & Hle). by rewrite active_value.
Qed.

Lemma tri_scan_slot L acc i :
  tri 0%nat (scanning L acc) (scan_slot os acc i) (scanning (i :: L)).
Proof.
  unfold scan_slot. cbn [bind load].
  apply (tri_load _ _ _ _ (fun packed σ => scanning L acc σ /\ word_read i packed σ));
    [apply kept_scanning|intros packed; apply kept_and; [apply kept_scanning|apply kept_word_read]| |].
  { intros σ Hσ Hi. split; [done|]. by apply word_read_inv. }
  intros packed.
  assert (Hnot : forall (p : prog bcell (Z * bool)),
    packed - Z.land packed VALUE_MASK <> STATE_ACTIVE ->
    (untracked i -> tri 0%nat (scanning L acc) p (scanning (i :: L))) ->
    tri 0%nat (fun σ => scanning L acc σ /\ word_read i packed σ) p (scanning (i :: L))).
  { intros p Hne Ht σ [H1 H2]. apply Ht; [|done]. by eapply word_read_untracked. }
  destruct (Z.eqb_spec (packed - Z.land packed VALUE_MASK) STATE_CLAIMING) as [Hcl|Hcl].
  - apply Hnot; [by rewrite Hcl|]. intros Hu. apply tri_now; [apply kept_scanning|].
    intros [now|e]; [|by apply tri_skip]. destruct (_ <? _); [by apply tri_reclaim|by apply tri_skip].
  - destruct (Z.eqb_spec (packed - Z.land packed VALUE_MASK) STATE_ACTIVE) as [Ha|Ha].
    + apply tri_active.
    + apply Hnot; [done|]. apply tri_skip.
Qed.

Lemma tri_scan_all l L acc :
  tri 0%nat (scanning L acc) (scan_all os l acc)
    (fun acc' σ => R σ /\ seen (rev l ++ L) acc' σ).
Proof.
  revert L acc. induction l as [|i l IH]; intros L acc; cbn [scan_all].
  - apply hoare_ret; [apply kept_scanning|]. by intros σ (H1 & H2 & _).
  - eapply tri_bind; [apply tri_scan_slot|]. intros acc'. eapply hoare_post; [apply IH|].
    intros a σ [H1 H2]. split; [done|]. cbn [rev]. by rewrite <- app_assoc.
Qed.

(** The slowest cursor is a lower bound; with tracked subscribers there is one. *)
Lemma tri_slowest b :
  bus_has_slots b = true ->
  tri 0%nat R (slowest_subscriber_cursor os b)
    (fun o σ => R σ /\
       match o with
       | Some c => 0 <= c < 2 ^ 62 /\ floor c σ
       | None => forall t, tracked t = None
       end).
Proof.
  intros Hs. unfold slowest_subscriber_cursor. rewrite Hs. cbn [negb].
  eapply tri_bind.
  - eapply hoare_pre; [apply (tri_scan_all _ [] (u64_max, false))|].
    intros σ H. split; [done|]. split; [|done]. split; [done|]. intros t i _ Hin. by apply elem_of_nil in Hin.
  - intros [mn ha].
    assert (HS : kept 0%nat (fun σ => R σ /\ seen (rev (seqZ 0 MAX_SUBSCRIBER_SLOTS) ++ []) (mn, ha) σ))
      by (apply kept_and; [done|apply kept_seen]).
    apply hoare_ret; [exact HS|]. intros σ [H1 [H2 H3]] _. split; [done|].
    assert (Hin : forall t i, tracked t = Some i -> i ∈ rev (seqZ 0 MAX_SUBSCRIBER_SLOTS) ++ []).
    { intros t i Ht. rewrite app_nil_r. apply list_elem_of_In. rewrite <- in_rev.
      apply list_elem_of_In, elem_of_seqZ_0.
      by eapply Htr_range. }
    destruct ha.
    + split; [by apply H2|]. intros t i Ht. by destruct (H3 t i Ht (Hin t i Ht)).
    + intros t. destruct (tracked t) as [i|] eqn:Ht; [|done]. by destruct (H3 t i Ht (Hin t i Ht)).
Qed.

End Scan.

(** ** The publisher *)

Definition no_tracked : Prop := forall t, tracked t = None.

Definition bus_ok (b : PodBus) : Prop :=
  bus_mask b = N - 1 /\ bus_ring_size b = N /\ 0 <= bus_cached_slowest b < 2 ^ 62 /\
  match bus_watermark b with
  | Some wm => 0 <= wm < N /\ eff = N - wm /\ bus_has_slots b = true
  | None => no_tracked
  end.

Lemma floor_none c σ : no_tracked -> floor c σ.
Proof. intros Hn t i Ht. by rewrite Hn in Ht. Qed.

Lemma floor_le c c' σ : c <= c' -> floor c' σ -> floor c σ.
Proof. intros Hle Hf t i Ht. specialize (Hf t i Ht). lia. Qed.

Definition pub_view (b : PodBus) (acc : list bytes) (σ : bstate) : Prop :=
  published acc σ /\ floor (bus_cached_slowest b) σ.

Lemma kept_pub_view b acc : kept 0%nat (pub_view b acc).
Proof. apply kept_and; [apply kept_published|apply kept_floor]. Qed.

Definition tried (acc : list bytes) (v : bytes) (x : PodBus * result unit Error) (σ : bstate) : Prop :=
  bus_ok x.1 /\ match x.2 with Ok _ => pub_view x.1 (acc ++ [v]) σ | Err _ => pub_view x.1 acc σ end.

(** Publishing when the cursors are known to leave room. *)
Lemma tri_publish_room b acc v :
  bus_ok b -> sublist (acc ++ [v]) req -> length v = Z.to_nat sz ->
  Z.of_nat (length acc) < bound ->
  (no_tracked \/ Z.of_nat (length acc) < bus_cached_slowest b + eff) ->
  tri 0%nat (pub_view b acc) (publish_unchecked b v ;;; Ret (b, Ok tt)) (tried acc v).
Proof.
  intros Hb Hsub Hlen Hbd Hroom. eapply tri_bind.
  - eapply hoare_pre; [apply (tri_publish_unchecked b acc v (bus_cached_slowest b)); try done; apply Hb|].
    intros σ [H1 H2]. split; [done|]. destruct Hroom as [Hn|Hlt]; [by apply floor_none|].
    rewrite Z.max_l by lia. done.
  - intros u. apply hoare_ret; [apply (kept_pub_view b (acc ++ [v]))|]. by intros σ Hσ _.
Qed.

Lemma tri_try_publish b acc v :
  bus_ok b -> sublist (acc ++ [v]) req -> length v = Z.to_nat sz ->
  Z.of_nat (length acc) < bound ->
  tri 0%nat (pub_view b acc) (try_publish os b v) (tried acc v).
Proof.
  intros Hb Hsub Hlen Hbd. pose proof Hb as (Hm & Hr & Hc & Hw). unfold try_publish.
  destruct (bus_watermark b) as [wm|] eqn:Hwm; [|apply tri_publish_room; auto].
  destruct Hw as (Hwm' & He & Hs). set (ws := Z.of_nat (length acc)).
  apply (tri_load _ _ _ _ (fun w σ => w = ws /\ pub_view b acc σ)); [apply kept_pub_view| | |].
  { intros w σ σ' [-> H] Hrel. split; [done|]. by eapply kept_pub_view. }
  { intros σ [[H1 H2] H3] _. by repeat split. }
  intros w. apply hoare_pure. intros ->.
  rewrite Hr, <- He, (wrap64_small eff) by (unfold in_u64; lia).
  rewrite (wrap64_small (_ + eff)) by (unfold in_u64; lia).
  destruct (Z.leb_spec (bus_cached_slowest b + eff) ws) as [Hle|Hlt];
    [|apply tri_publish_room; auto].
  eapply tri_bind; [apply tri_slowest; [apply kept_pub_view|done]|]. intros [c|].
  - set (b' := with_cached_slowest b c).
    eapply hoare_pre with (P' := fun σ => (0 <= c < 2 ^ 62) /\ pub_view b' acc σ).
    2:{ intros σ ([H1 H2] & H3 & H4). split; [exact H3|]. split; [exact H1|exact H4]. }
    apply hoare_pure. intros Hc'. rewrite wrap64_small by (unfold in_u64; lia).
    assert (Hb' : bus_ok b') by (unfold bus_ok; cbn; by rewrite Hwm).
    destruct (Z.leb_spec (c + eff) ws) as [Hfull|Hroom].
    + apply hoare_ret; [apply kept_pub_view|]. by intros σ Hσ _.
    + apply tri_publish_room; auto.
  - eapply hoare_pre with (P' := fun σ => no_tracked /\ pub_view b acc σ); [|by intros σ [H1 H2]].
    apply hoare_pure. intros Hn. apply tri_publish_room; auto.
Qed.

Lemma tri_publish_spin fuel b acc v spins :
  bus_ok b -> sublist (acc ++ [v]) req -> length v = Z.to_nat sz ->
  Z.of_nat (length acc) < bound ->
  tri 0%nat (pub_view b acc) (publish_spin os fuel b v spins)
    (fun b' σ => bus_ok b' /\ pub_view b' (acc ++ [v]) σ).
Proof.
  revert b spins. induction fuel as [|fuel IH]; intros b spins Hb Hsub Hlen Hbd; cbn [publish_spin];
    [apply hoare_diverge|].
  eapply tri_bind; [by apply tri_try_publish|]. intros [b' [[]|e]]; apply hoare_pure; cbn [fst snd];
    intros Hb'.
  - apply hoare_ret; [apply kept_pub_view|]. by intros σ Hσ _.
  - destruct (_ =? 0); [apply tri_touch; [apply kept_pub_view|]|]; by apply IH.
Qed.

Lemma tri_bus_publish fuel b acc v :
  bus_ok b -> sublist (acc ++ [v]) req -> length v = Z.to_nat sz ->
  Z.of_nat (length acc) < bound ->
  tri 0%nat (pub_view b acc) (bus_publish os fuel b v)
    (fun b' σ => bus_ok b' /\ pub_view b' (acc ++ [v]) σ).
Proof.
  intros Hb Hsub Hlen Hbd. unfold bus_publish.
  destruct (bus_watermark b) as [wm|] eqn:Hwm; [by apply tri_publish_spin|].
  pose proof Hb as (_ & _ & _ & Hn). rewrite Hwm in Hn. eapply tri_bind.
  - eapply hoare_pre; [apply (tri_publish_unchecked b acc v 0); try done; apply Hb|].
    intros σ [H1 _]. split; [done|]. by apply floor_none.
  - intros u. apply hoare_ret; [apply kept_and; [apply kept_published|apply (kept_floor 0)]|].
    intros σ [H1 _] _. split; [done|]. split; [done|]. by apply floor_none.
Qed.

(** The publisher's program: its log is what it reports. *)
Lemma tri_bus_publisher fuel cmds b acc dn :
  bus_ok b -> req = dn ++ bus_requested cmds -> sublist acc dn ->
  Forall (fun v => length v = Z.to_nat sz) (bus_requested cmds) ->
  Z.of_nat (length req) <= bound ->
  tri 0%nat (pub_view b acc) (bus_publisher os fuel cmds b acc)
    (fun out σ => out = PubOut σ.1).
Proof.
  revert b acc dn. induction cmds as [|[v|v|] cmds IH]; intros b acc dn Hb Hreq Hsub Hsz Hbd;
    cbn [bus_publisher].
  1: { apply hoare_ret; [apply kept_pub_view|]. intros σ [[-> _] _] _. done. }
  3: { unfold bus_heartbeat, bus_now_micros. cbn [bind system_now]. apply hoare_now; [apply kept_pub_view|].
       intros [ns|]; cbn [bind store]; [apply tri_store_idle; [done|apply kept_pub_view|]|]; by apply (IH _ _ dn). }
  all: change (bus_requested (_ :: cmds)) with (v :: bus_requested cmds) in Hreq, Hsz.
  all: apply Forall_cons in Hsz as [Hv Hsz].
  all: assert (Hlt : Z.of_nat (length acc) < bound)
    by (apply sublist_length in Hsub; rewrite Hreq, length_app in Hbd; cbn [length] in Hbd; lia).
  all: assert (Happ : sublist (acc ++ [v]) (dn ++ [v])) by (by apply sublist_app).
  all: assert (Hall : sublist (acc ++ [v]) req)
    by (rewrite Hreq; etransitivity; [exact Happ|]; apply sublist_app; [done|];
        apply sublist_skip, sublist_nil_l).
  all: assert (Hreq' : req = (dn ++ [v]) ++ bus_requested cmds) by (by rewrite <- app_assoc).
  - eapply tri_bind; [by apply tri_bus_publish|]. intros b'. apply hoare_pure. intros Hb'.
    by apply (IH _ _ (dn ++ [v])).
  - eapply tri_bind; [by apply tri_try_publish|]. intros [b' [[]|e]]; apply hoare_pure; cbn [fst snd];
      intros Hb'; apply (IH _ _ (dn ++ [v])); try done.
    etransitivity; [exact Hsub|]. by apply sublist_inserts_r.
Qed.

(** ** Subscribers *)

Definition received (q : Z) (v : bytes) (σ : bstate) : Prop :=
  0 <= q /\ σ.1 !! Z.to_nat q = Some v.

Lemma kept_received t q v : kept t (received q v).
Proof.
  intros σ σ' [H1 H2] Hr. split; [done|]. eapply prefix_lookup_Some; [done|]. apply (br_log _ _ _ Hr).
Qed.

Definition sub_ok (t : nat) (s : BusSubscriber) : Prop :=
  bs_mask s = N - 1 /\ bs_ring_size s = N /\ size_of (bs_type s) = sz /\
  0 <= bs_total_lagged s <= bs_cursor s /\
  (forall i, bs_slot_index s = Some i -> tracked t = Some i \/ untracked i) /\
  (forall i, tracked t = Some i -> bs_slot_index s = Some i).

(** The cursor [c] of thread [t] is not ahead of the log, and is what its word says. *)
Definition sub_at (t : nat) (c : Z) (σ : bstate) : Prop :=
  c <= loglen σ /\ forall i, tracked t = Some i -> bmem σ (SSState i) = STATE_ACTIVE + c.

Lemma loglen_mono t σ σ' : BRely t σ σ' -> loglen σ <= loglen σ'.
Proof. intros Hr. pose proof (prefix_length _ _ (br_log _ _ _ Hr)). unfold loglen. lia. Qed.

Lemma kept_sub_at t c : kept t (sub_at t c).
Proof.
  intros σ σ' [H1 H2] Hr. pose proof (loglen_mono _ _ _ Hr). split; [lia|].
  intros i Hi. rewrite (br_own _ _ _ Hr i Hi). by apply H2.
Qed.

(** After reading [head], with the cursor at [c] below it. *)
Definition behind (t : nat) (c head : Z) (σ : bstate) : Prop :=
  head <= bmem σ PHWriteSeq /\ sub_at t c σ.

Lemma kept_behind t c head : kept t (behind t c head).
Proof.
  intros σ σ' [H1 H2] Hr. pose proof (br_ws _ _ _ Hr). split; [lia|]. by eapply kept_sub_at.
Qed.

(** What a stamp read at the slot of [c] says. *)
Definition stamp_read (t : nat) (c sb : Z) (σ : bstate) : Prop :=
  sb <= bmem σ (Stamp (c mod N)) /\ sb <> 0 /\
  (tracked t <> None -> sb = 2 * c + 2) /\
  (sb mod 2 = 0 -> exists q v, sb = 2 * q + 2 /\ c <= q < bound /\ received q v σ /\
     length v = Z.to_nat sz).

Lemma kept_stamp_read t c sb : kept t (stamp_read t c sb).
Proof.
  intros σ σ' (H1 & H2 & H3 & H4) Hr. pose proof (br_stamp _ _ _ Hr _ (mod_range c)).
  split; [lia|]. split; [done|]. split; [done|]. intros He. destruct (H4 He) as (q & v & A & B & C & D).
  exists q, v. split; [done|]. split; [done|]. split; [by eapply kept_received|done].
Qed.

(** The last value of the slot of [c] is that of [c] or a later round. *)
Lemma last_in_ge len c q : 0 <= c < len -> last_in len (c mod N) q -> c <= q.
Proof.
  intros Hc (Hq & Hm & Hl). destruct (Z.le_gt_cases c q) as [|Hlt]; [done|].
  exfalso. by apply (Hl c); [lia|].
Qed.

Lemma ws_le_log σ : BInv σ -> bmem σ PHWriteSeq <= loglen σ.
Proof. intros Hi. destruct (bi_len _ Hi); lia. Qed.

(** A tracked subscriber is never lapped. *)
Lemma tracked_window t c head σ :
  BInv σ -> behind t c head σ -> tracked t <> None -> loglen σ <= c + eff.
Proof.
  intros Hi [_ [_ H]] Ht. destruct (tracked t) as [i|] eqn:E; [|done].
  destruct (bi_track _ Hi t i E) as (c' & C1 & C2 & C3 & _). specialize (H i eq_refl). lia.
Qed.

Lemma stamp_read_inv t c head σ :
  BInv σ -> behind t c head σ -> 0 <= c < head ->
  stamp_read t c (bmem σ (Stamp (c mod N))) σ.
Proof.
  intros Hi Hb Hc. pose proof (ws_le_log σ Hi) as Hws. pose proof Hb as [Hh _].
  pose proof (bi_bound _ Hi) as Hbd. unfold loglen in *.
  destruct (bi_slot _ Hi _ (mod_range c)) as [[_ Hno]|(q & v & Hl & Hv & Hst)].
  { exfalso. by apply (Hno c); [lia|]. }
  pose proof (last_in_ge (Z.of_nat (length σ.1)) c q ltac:(lia) Hl) as Hge. pose proof Hl as (Hq & Hm & _).
  split; [done|]. split; [destruct Hst as [[-> _]|[-> _]]; lia|]. split.
  - intros Ht. pose proof (tracked_window t c head σ Hi Hb Ht) as Hw. unfold loglen in Hw.
    assert (c = q) as -> by (apply (mod_window_inj c q N); [apply N_pos|lia|done]).
    destruct Hst as [[-> _]|[_ ->]]; [done|lia].
  - intros He. exists q, v. destruct Hst as [[-> Hd]|[Hs _]].
    + split; [done|]. split; [lia|]. split; [split; [lia|done]|].
      by eapply (Forall_lookup_1 _ _ _ _ (bi_sizes _ Hi)).
    + rewrite Hs in He. exfalso. replace (2 * q + 1) with (1 + q * 2) in He by lia.
      rewrite Z.mod_add in He by lia. done.
Qed.

(** Reading the bytes: they are those of the value unless the stamp has moved on. *)
Definition unless_moved (c sb : Z) (φ : Prop) (σ : bstate) : Prop :=
  φ \/ sb < bmem σ (Stamp (c mod N)).

Lemma kept_unless t c sb φ : kept t (unless_moved c sb φ).
Proof.
  intros σ σ' [H|H] Hr; [by left|]. right. pose proof (br_stamp _ _ _ Hr _ (mod_range c)). lia.
Qed.

Lemma slot_data σ i q v j x :
  BInv σ -> 0 <= i < N -> bmem σ (Stamp i) = 2 * q + 2 -> received q v σ -> v !! j = Some x ->
  bmem σ (Data i (Z.of_nat j)) = x.
Proof.
  intros Hi Hr Hs [Hq Hv] Hx. destruct (bi_slot _ Hi i Hr) as [[H0 _]|(q' & v' & _ & Hv' & [[H1 H2]|[H1 _]])];
    [lia| |lia]. assert (q' = q) by lia. subst q'. rewrite Hv in Hv'. injection Hv' as <-. by apply H2.
Qed.

Lemma tri_load_value t c q v n k (R : bstate -> Prop) :
  kept t R -> (forall σ, R σ -> 2 * q + 2 <= bmem σ (Stamp (c mod N)) /\ received q v σ) ->
  (k + n <= length v)%nat ->
  tri t R (load_value (c mod N) (Z.of_nat k) n)
    (fun vals σ => R σ /\ unless_moved c (2 * q + 2) (vals = take n (drop k v)) σ).
Proof.
  revert k R. induction n as [|n IH]; intros k R HR Hfacts Hk; cbn [load_value].
  - apply hoare_ret; [done|]. intros σ Hσ _. split; [done|]. by left.
  - destruct (lookup_lt_is_Some_2 v k) as [x Hx]; [lia|]. cbn [bind load].
    assert (HR2 : forall w, kept t (fun σ => R σ /\ unless_moved c (2 * q + 2) (w = x) σ))
      by (intros w; apply kept_and; [done|apply kept_unless]).
    apply (tri_load _ _ _ _ (fun w σ => R σ /\ unless_moved c (2 * q + 2) (w = x) σ)); [done|done| |].
    { intros σ Hσ Hi. split; [done|]. destruct (Hfacts σ Hσ) as [Hst Hrec].
      destruct (decide (bmem σ (Stamp (c mod N)) = 2 * q + 2)) as [He|Hne]; [left|right; lia].
      by eapply slot_data; [done|apply mod_range| | |]. }
    intros w. replace (Z.of_nat k + 1) with (Z.of_nat (S k)) by lia. eapply tri_bind.
    + apply (IH (S k) (fun σ => R σ /\ unless_moved c (2 * q + 2) (w = x) σ)); [done| |lia].
      intros σ [H1 _]. by apply Hfacts.
    + intros rest. apply hoare_ret; [apply kept_and; [apply HR2|apply kept_unless]|].
      intros σ [[H1 H2] H3] _. split; [done|]. destruct H2 as [->|H2]; [|by right].
      destruct H3 as [->|H3]; [left|by right]. by rewrite (drop_S v x k Hx).
Qed.

(** Advancing one's own cursor word. *)
Lemma advance_moves t i c head v σ :
  tracked t = Some i -> BInv σ -> behind t c head σ -> 0 <= c < head -> received c v σ ->
  moves BInv BGuar t σ (h_set (SSState i) (STATE_ACTIVE + (c + 1)) σ.2)
    (fun σ' => sub_at t (c + 1) σ' /\ received c v σ').
Proof.
  intros Ht Hi [Hh [Hc Hw]] Hlt Hr. pose proof (Hw i Ht) as Hi0. pose proof (ws_le_log σ Hi) as Hll.
  exists σ.1. split; [|split].
  - intros t' Hne. split; cbn [fst]; [done|by rewrite bmem_set_ne|by intros; rewrite bmem_set_ne|..].
    + intros t'' i' Ht''. rewrite bmem_set. case_decide as He; [injection He as <-; lia|done].
    + intros i' Ht''. rewrite bmem_set_ne; [done|]. intros [= <-]. by apply Hne, (Htr_inj _ _ i).
    + intros _. split; [done|]. intros c' Hc'. rewrite bmem_set_ne; [done|]. by intros <-.
  - destruct Hi as [H1 H2 H3 H4 H5 H6 H7]. split; cbn [fst]; rewrite ?bmem_set_ne by done; try done.
    + intros t' i' Ht'. rewrite bmem_set, (bmem_set_ne _ _ _ _ (SSPid i')) by done.
      destruct (H7 t' i' Ht') as (c' & C1 & C2 & C3 & C4). case_decide as He.
      * injection He as <-. exists (c + 1). split; [done|]. unfold loglen in *. cbn [fst].
        split; [lia|]. split; [lia|done].
      * by exists c'.
  - split; [|done]. split; [unfold loglen in *; cbn [fst]; lia|].
    intros i' Hi'. rewrite Ht in Hi'. injection Hi' as <-. by rewrite bmem_set_eq.
Qed.

Lemma tri_update_cursor {A} t s c head v (k : prog bcell A) Q :
  sub_ok t s -> 0 <= c < head -> c < bound ->
  tri t (fun σ => sub_at t (c + 1) σ /\ received c v σ) k Q ->
  tri t (fun σ => behind t c head σ /\ received c v σ) (update_shm_cursor s (c + 1) ;;; k) Q.
Proof.
  intros (_ & _ & _ & _ & Hs1 & Hs2) Hc Hcb Hk. unfold update_shm_cursor.
  assert (HP : kept t (fun σ => behind t c head σ /\ received c v σ))
    by (apply kept_and; [apply kept_behind|apply kept_received]).
  assert (Hun : tracked t = None -> tri t (fun σ => behind t c head σ /\ received c v σ) k Q).
  { intros Hn σ [[H1 [H2 H3]] H4]. apply wp_later; [apply _|]. intros σ' Hr Hi. apply Hk.
    destruct (HP σ σ' (conj (conj H1 (conj H2 H3)) H4) Hr) as [[B1 [B2 B3]] B4].
    split; [|done]. split; [pose proof (ws_le_log σ' Hi); lia|]. intros i Hti. by rewrite Hn in Hti. }
  destruct (bs_slot_index s) as [i|] eqn:Hsi.
  - cbn [bind store]. rewrite active_word by lia. destruct (Hs1 i eq_refl) as [Ht|Hu].
    + eapply hoare_store; [exact HP| |exact Hk]. intros σ [H1 H2] Hi. by eapply advance_moves.
    + apply tri_store_idle; [done|exact HP|]. apply Hun.
      destruct (tracked t) as [i'|] eqn:Ht; [|done]. specialize (Hs2 i' eq_refl).
      injection Hs2 as <-. by destruct (Hu t).
  - cbn [bind]. apply Hun. destruct (tracked t) as [i'|] eqn:Ht; [|done]. by specialize (Hs2 i' eq_refl).
Qed.

(** What one receive attempt of [s] ends in: the sequence numbers it moved past are
    received or counted as lag; a tracked subscriber never lags. *)
Definition recv_post (t : nat) (s : BusSubscriber) (x : BusSubscriber * option bytes) (σ : bstate)
    : Prop :=
  let c := bs_cursor s in
  let c' := bs_cursor x.1 in
  sub_ok t x.1 /\ bs_slot_index x.1 = bs_slot_index s /\ sub_at t c' σ /\
  match x.2 with
  | Some v => received (c' - 1) v σ /\ c < c' /\
      bs_total_lagged x.1 = bs_total_lagged s + (c' - c) - 1 /\
      (tracked t <> None -> c' = c + 1)
  | None => c <= c' /\ bs_total_lagged x.1 = bs_total_lagged s + (c' - c) /\
      (tracked t <> None -> c' = c)
  end.

Lemma sub_ok_with t s c lag :
  sub_ok t s -> 0 <= lag <= c -> sub_ok t (with_cursor s c lag).
Proof. intros (H1 & H2 & H3 & H4 & H5 & H6) Hl. by repeat (split; [done|]). Qed.

Lemma skip_ahead_spec t s head :
  sub_ok t s -> bs_cursor s < head < 2 ^ 61 -> (tracked t <> None -> head <= bs_cursor s + N) ->
  let s1 := skip_ahead s head in
  sub_ok t s1 /\ bs_slot_index s1 = bs_slot_index s /\ bs_cursor s <= bs_cursor s1 < head /\
  bs_total_lagged s1 = bs_total_lagged s + (bs_cursor s1 - bs_cursor s) /\
  (tracked t <> None -> bs_cursor s1 = bs_cursor s).
Proof.
  intros Hs Hh Ht. cbv zeta. pose proof Hs as (_ & Hr & _ & Hl & _). pose proof N_pos.
  unfold skip_ahead. rewrite Hr. destruct (Z.ltb_spec N (head - bs_cursor s)) as [Hlt|Hge].
  - rewrite (wrap64_small (head - N - _)), !wrap64_small by (unfold in_u64; lia).
    split; [apply sub_ok_with; [done|lia]|]. cbn [with_cursor bs_slot_index bs_cursor bs_total_lagged].
    split; [done|]. split; [lia|]. split; [lia|]. intros Hn. specialize (Ht Hn). lia.
  - split; [done|]. split; [done|]. split; [lia|]. split; [lia|done].
Qed.

Lemma sub_at_behind t c head σ : behind t c head σ -> sub_at t c σ.
Proof. by intros [_ H]. Qed.

(** The part after the lag check: [s1] is behind [head]. *)
Section ReadSlot.
Context (t : nat) (s s1 : BusSubscriber) (head : Z).
Hypothesis (Hs : sub_ok t s1) (Hsi : bs_slot_index s1 = bs_slot_index s).
Hypothesis (Hc : bs_cursor s <= bs_cursor s1 < head) (H0 : 0 <= bs_cursor s).
Hypothesis (Hlag : bs_total_lagged s1 = bs_total_lagged s + (bs_cursor s1 - bs_cursor s)).
Hypothesis (Htr : tracked t <> None -> bs_cursor s1 = bs_cursor s).
Local Abbreviation c := (bs_cursor s1).

Lemma tri_give_up (R : bstate -> Prop) :
  (forall σ, R σ -> behind t c head σ) -> tri t R (Ret (s1, None)) (recv_post t s).
Proof.
  intros HR. eapply hoare_pre; [|exact HR]. apply hoare_ret; [apply kept_behind|]. intros σ Hb _.
  split; [done|]. split; [done|]. split; [by eapply sub_at_behind|]. cbn [snd fst].
  split; [lia|]. split; [done|done].
Qed.

Lemma tri_accept_value q v :
  c <= q < bound -> (tracked t <> None -> q = c) ->
  tri t (fun σ => behind t c head σ /\ received q v σ) (accept_value s1 (2 * q + 2) v) (recv_post t s).
Proof.
  intros Hq Hqt. pose proof Hs as (_ & _ & _ & Hl & _). unfold accept_value. cbv zeta.
  assert (Hk : kept t (fun σ => behind t c head σ /\ received q v σ))
    by (apply kept_and; [apply kept_behind|apply kept_received]).
  rewrite (wrap64_small (c * 2)), (wrap64_small (c * 2 + 2)) by (unfold in_u64; lia).
  replace ((2 * q + 2) / 2 - 1 + 1) with (q + 1)
    by (replace (2 * q + 2) with ((q + 1) * 2) by lia; rewrite Z.div_mul by lia; lia).
  destruct (Z.eqb_spec (2 * q + 2) (c * 2 + 2)) as [He|Hne]; cbn [negb].
  - assert (q = c) as -> by lia. rewrite wrap64_small by (unfold in_u64; lia).
    set (s2 := with_cursor s1 (c + 1) (bs_total_lagged s1)).
    assert (Hs2 : sub_ok t s2) by (apply sub_ok_with; [done|lia]).
    change (bs_cursor s2) with (c + 1). apply tri_update_cursor; [done|lia|lia|].
    apply hoare_ret; [apply kept_and; [apply kept_sub_at|apply kept_received]|].
    intros σ [A1 A2] _. split; [done|]. split; [done|]. split; [done|]. cbn.
    replace (c + 1 - 1) with c by lia. split; [done|]. split; [lia|]. split; [lia|].
    intros Hn. rewrite (Htr Hn). done.
  - rewrite !wrap64_small by (unfold in_u64; rewrite ?wrap64_small by (unfold in_u64; lia); lia).
    apply hoare_ret; [done|]. intros σ [[A1 [A2 A3]] [A4 A5]] Hi.
    assert (Hn : tracked t = None).
    { destruct (tracked t) as [i|] eqn:E; [|done]. exfalso. rewrite (Hqt ltac:(done)) in Hne. lia. }
    apply lookup_lt_Some in A5.
    split; [apply sub_ok_with; [done|lia]|]. split; [done|]. split.
    + split; [unfold loglen; cbn; lia|]. intros i Hi'. by rewrite Hn in Hi'.
    + cbn. split; [lia|]. split; [lia|]. by rewrite Hn.
Qed.

Lemma tri_read_slot : tri t (behind t c head) (read_slot s1) (recv_post t s).
Proof.
  pose proof Hs as (Hm & Hr & Hsz & Hl & _). unfold read_slot. cbv zeta.
  rewrite Hm, land_mask, Hsz by done.
  assert (HK : forall sb, kept t (fun σ => behind t c head σ /\ stamp_read t c sb σ))
    by (intros; apply kept_and; [apply kept_behind|apply kept_stamp_read]).
  apply (tri_load _ _ _ _ (fun sb σ => behind t c head σ /\ stamp_read t c sb σ));
    [apply kept_behind|done|intros σ Hb Hi; split; [done|]; eapply stamp_read_inv; [done|exact Hb|lia]|].
  intros sb. change (Z.land sb 1) with (Z.land sb (Z.ones 1)). rewrite Z.land_ones by lia.
  change (2 ^ 1) with 2.
  destruct (Z.eqb_spec (sb mod 2) 0) as [He|]; cbn [negb]; [|apply tri_give_up; by intros σ [H _]].
  destruct (Z.eqb_spec sb 0); [apply tri_give_up; by intros σ [H _]|].
  eapply hoare_pre with (P' := fun σ => exists qv : Z * bytes,
    (sb = 2 * qv.1 + 2 /\ c <= qv.1 < bound /\ length qv.2 = Z.to_nat sz /\ (tracked t <> None -> qv.1 = c)) /\
    behind t c head σ /\ sb <= bmem σ (Stamp (c mod N)) /\ received qv.1 qv.2 σ).
  2:{ intros σ [Hb (A1 & A2 & A3 & A4)]. destruct (A4 He) as (q & v & B1 & B2 & B3 & B4).
      exists (q, v). cbn. split; [|done]. split; [done|]. split; [done|]. split; [done|].
      intros Hn. specialize (A3 Hn). lia. }
  apply hoare_exists. intros [q v]. cbn [fst snd]. apply hoare_pure. intros (-> & Hq & Hv & Hqt).
  set (R := fun σ => behind t c head σ /\ 2 * q + 2 <= bmem σ (Stamp (c mod N)) /\ received q v σ).
  assert (HR : kept t R).
  { intros σ σ' (A1 & A2 & A3) Hrel. pose proof (br_stamp _ _ _ Hrel _ (mod_range c)).
    split; [by eapply kept_behind|]. split; [lia|by eapply kept_received]. }
  eapply tri_bind.
  { apply (tri_load_value t c q v (Z.to_nat sz) 0 R); [done|by intros σ [_ H]|lia]. }
  intros vals. cbn [drop]. rewrite <- Hv, firstn_all.
  set (R2 := fun σ => R σ /\ unless_moved c (2 * q + 2) (vals = v) σ).
  apply (tri_load _ _ _ _ (fun sa σ => (sa = 2 * q + 2 -> vals = v) /\ R σ)).
  - apply kept_and; [exact HR|apply kept_unless].
  - intros sa σ σ' [A1 A2] Hrel. split; [done|by eapply HR].
  - intros σ [A1 [A2|A2]] Hi; (split; [|done]); intros E; [done|lia].
  - intros sa. apply hoare_pure. intros Hsa.
    destruct (Z.eqb_spec sa (2 * q + 2)) as [E|]; cbn [negb]; [|apply tri_give_up; by intros σ [H _]].
    rewrite (Hsa E). eapply hoare_pre; [by apply tri_accept_value|]. intros σ (A1 & A2 & A3). done.
Qed.

End ReadSlot.

Lemma tri_try_recv t s :
  sub_ok t s -> tri t (sub_at t (bs_cursor s)) (bus_try_recv s) (recv_post t s).
Proof.
  intros Hs. pose proof Hs as (_ & _ & _ & Hl & _). unfold bus_try_recv. cbn [bind load].
  set (c := bs_cursor s).
  apply (tri_load _ _ _ _ (fun head σ => (head <= bound /\ (tracked t <> None -> head <= c + N)) /\
    behind t c head σ /\ head <= loglen σ)); [apply kept_sub_at| | |].
  - intros head σ σ' (A1 & A2 & A3) Hr. pose proof (loglen_mono _ _ _ Hr).
    split; [done|]. split; [by eapply kept_behind|lia].
  - intros σ Hσ Hi. pose proof (ws_le_log σ Hi). pose proof (bi_bound _ Hi). split; [split; [lia|]|].
    + intros Ht. pose proof (tracked_window t c _ σ Hi (conj (Z.le_refl _) Hσ) Ht). lia.
    + split; [|done]. by split.
  - intros head. apply hoare_pure. intros [Hb Hw]. destruct (Z.leb_spec head c) as [Hle|Hlt].
    + eapply hoare_pre with (P' := sub_at t c); [|by intros σ [[_ H] _]].
      apply hoare_ret; [apply kept_sub_at|]. intros σ Hσ _. split; [done|]. split; [done|].
      split; [done|]. cbn. split; [lia|]. split; [lia|done].
    + destruct (skip_ahead_spec t s head Hs) as (S1 & S2 & S3 & S4 & S5); [fold c; lia|done|].
      eapply hoare_pre; [apply (tri_read_slot t s _ head S1 S2 S3); [lia|done|done]|].
      intros σ [[B1 [B2 B3]] B4]. split; [done|]. split; [lia|]. intros i Hi.
      rewrite S5 by congruence. by apply B3.
Qed.

(** ** A subscriber's session *)

(** What a subscriber that started at sequence number [c0] has [got] so far: values of
    the log in increasing order; what it missed is in its lag count, and a tracked
    subscriber misses nothing. *)
Definition got_ok (t : nat) (c0 : Z) (s : BusSubscriber) (got : list (Z * bytes)) (σ : bstate) : Prop :=
  (0 <= c0 /\ StronglySorted (fun p q => p.1 < q.1) got /\
   Forall (fun p : Z * bytes => c0 <= p.1 < bs_cursor s) got /\
   c0 + Z.of_nat (length got) + bs_total_lagged s = bs_cursor s /\
   (tracked t <> None -> bs_total_lagged s = 0)) /\
  Forall (fun p : Z * bytes => received p.1 p.2 σ) got.

Lemma kept_got t t' c0 s got : kept t (got_ok t' c0 s got).
Proof.
  intros σ σ' [H1 H2] Hr. split; [done|]. eapply Forall_impl; [exact H2|].
  intros p Hp. exact (kept_received t _ _ _ _ Hp Hr).
Qed.

(** The report of a finished subscriber, for the log at that time: it consumed the
    sequence numbers from [c0] to [c]. *)
Definition sub_report (t : nat) (c0 : Z) (got : list (Z * bytes)) (lagged : Z) (log : list bytes) : Prop :=
  exists c, 0 <= c0 /\ StronglySorted (fun p q => p.1 < q.1) got /\
  Forall (fun p : Z * bytes => c0 <= p.1 < c /\ log !! Z.to_nat p.1 = Some p.2) got /\
  0 <= lagged /\ c0 + Z.of_nat (length got) + lagged = c /\ c <= Z.of_nat (length log) /\
  (tracked t <> None -> lagged = 0).

Lemma got_skip t c0 s s' got σ :
  bs_cursor s <= bs_cursor s' ->
  bs_total_lagged s' = bs_total_lagged s + (bs_cursor s' - bs_cursor s) ->
  (tracked t <> None -> bs_cursor s' = bs_cursor s) ->
  got_ok t c0 s got σ -> got_ok t c0 s' got σ.
Proof.
  intros Hc Hl Ht [(A1 & A2 & A3 & A4 & A5) A6]. split; [|done].
  split; [done|]. split; [done|]. split; [|split; [lia|]].
  - eapply Forall_impl; [exact A3|]. intros p Hp. cbn in *. lia.
  - intros Hn. specialize (Ht Hn). specialize (A5 Hn). lia.
Qed.

Lemma got_more t c0 s s' got v σ :
  0 <= bs_total_lagged s <= bs_cursor s ->
  bs_cursor s < bs_cursor s' ->
  bs_total_lagged s' = bs_total_lagged s + (bs_cursor s' - bs_cursor s) - 1 ->
  (tracked t <> None -> bs_cursor s' = bs_cursor s + 1) -> received (bs_cursor s' - 1) v σ ->
  got_ok t c0 s got σ -> got_ok t c0 s' (got ++ [(bs_cursor s' - 1, v)]) σ.
Proof.
  intros Hs Hc Hl Ht Hr [(A1 & A2 & A3 & A4 & A5) A6]. split.
  - split; [done|]. split; [|split; [|split]].
    + apply StronglySorted_snoc; [done|]. intros p Hp. rewrite Forall_forall in A3. specialize (A3 p Hp). cbn. lia.
    + apply Forall_app. split; [|apply Forall_singleton; cbn; lia].
      eapply Forall_impl; [exact A3|]. intros p Hp. cbn in *. lia.
    + rewrite length_app. cbn [length]. lia.
    + intros Hn. specialize (Ht Hn). specialize (A5 Hn). lia.
  - apply Forall_app. split; [done|]. by apply Forall_singleton.
Qed.

Lemma tri_bus_receiver t c0 n s got :
  sub_ok t s ->
  tri t (fun σ => sub_at t (bs_cursor s) σ /\ got_ok t c0 s got σ) (bus_receiver n s got)
    (fun out σ => match out with
       | SubOut got lagged => sub_report t c0 got lagged σ.1
       | PubOut _ => False
       end).
Proof.
  revert s got. induction n as [|n IH]; intros s got Hs; cbn [bus_receiver].
  - apply hoare_ret; [apply kept_and; [apply kept_sub_at|apply kept_got]|].
    intros σ [[H1 _] [(A1 & A2 & A3 & A4 & A5) A6]] _. pose proof Hs as (_ & _ & _ & Hl & _).
    unfold loglen in H1. exists (bs_cursor s). split; [done|]. split; [done|].
    split; [|split; [lia|split; [lia|split; [lia|done]]]].
    apply Forall_and. split; [done|]. eapply Forall_impl; [exact A6|]. intros p Hp. apply Hp.
  - eapply tri_bind.
    + eapply (tri_frame _ _ _ _ (got_ok t c0 s got)); [intros t'; apply kept_got|by apply tri_try_recv].
    + intros [s' o]. cbn [fst snd]. destruct o as [v|].
      all: eapply hoare_pre with (P' := fun σ => sub_ok t s' /\ sub_at t (bs_cursor s') σ /\ got_ok t c0 s' _ σ);
        [apply hoare_pure; intros Hs'; exact (IH s' _ Hs')|].
      * intros σ [(B1 & B2 & B3 & B4 & B5 & B6 & B7) B8]. split; [done|]. split; [done|].
        pose proof Hs as (_ & _ & _ & Hl & _). by eapply got_more.
      * intros σ [(B1 & B2 & B3 & B4 & B5 & B6) B8]. split; [done|]. split; [done|].
        by eapply got_skip.
Qed.

(** ** Joining while the publisher runs *)

(** A claimed slot was free, so it is none of the tracked ones. *)
Definition joined (r : result Z Error) : Prop :=
  match r with Ok i => untracked i | Err _ => True end.

Lemma tri_claim_slot t cur pid (P : bstate -> Prop) :
  kept t P -> tri t P (claim_subscriber_slot cur pid) (fun r σ => joined r /\ P σ).
Proof.
  intros HP. assert (HQ : forall r, kept t (fun σ => joined r /\ P σ))
    by (intros r σ σ' [H1 H2] Hr; split; [done|by eapply HP]).
  apply (hoare_for_return _ _ _ _ t _ _ _ (fun _ => P)); [|done|by apply hoare_ret].
  intros _ i _ _. unfold claim_slot_at. apply tri_now; [done|]. intros now. cbv zeta. cbn [bind compare_exchange].
  apply (hoare_cas _ _ _ _ _ _ _ _ _ _ P (fun σ => untracked i /\ P σ) (fun _ => P)).
  - done.
  - intros σ Hσ Hi Hfree. assert (Hu : untracked i).
    { intros t' Ht'. destruct (bi_track _ Hi t' i Ht') as (c & Hc & Hc' & _).
      unfold bmem in Hc. rewrite Hfree in Hc. unfold STATE_FREE, STATE_ACTIVE in Hc. lia. }
    apply msame_moves; [|by split|done|by apply msame_cas].
    intros σ1 σ2 [H1 H2] Hr. split; [done|by eapply HP].
  - intros σ Hσ Hi. by apply msame_moves; [| | |apply msame_see].
  - apply hoare_pure. intros Hu. cbn [bind store].
    apply tri_store_idle; [done|done|]. apply tri_store_idle; [done|done|].
    apply hoare_ret; [done|]. by intros σ Hσ _.
  - intros v. by apply hoare_ret.
Qed.

(** What connecting gives a thread that is not tracked. *)
Definition connected (t : nat) (r : result BusSubscriber Error) (σ : bstate) : Prop :=
  match r with
  | Ok s => sub_ok t s /\ sub_at t (bs_cursor s) σ /\ got_ok t (bs_cursor s) s [] σ
  | Err _ => True
  end.

Lemma connected_ok t T c o σ :
  tracked t = None -> size_of T = sz -> 0 <= c <= loglen σ -> (forall i, o = Some i -> untracked i) ->
  connected t (Ok {| bs_type := T; bs_mask := N - 1; bs_ring_size := N; bs_cursor := c;
    bs_total_lagged := 0; bs_slot_index := o |}) σ.
Proof.
  intros Ht Hsz Hc Ho. split; [|split].
  - split; [done|]. split; [done|]. split; [done|]. cbn. split; [lia|].
    split; [intros i Hi; right; by apply Ho|by rewrite Ht].
  - cbn. split; [lia|]. by rewrite Ht.
  - split; [|constructor]. split; [cbn; lia|]. split; [constructor|]. split; [constructor|].
    cbn. split; [lia|by rewrite Ht].
Qed.

Lemma kept_loglen t c : kept t (fun σ => c <= loglen σ).
Proof. intros σ σ' H Hr. pose proof (loglen_mono _ _ _ Hr). lia. Qed.

Lemma tri_connect t T pid len name :
  tracked t = None ->
  tri t (fun _ => True) (bus_connect T pid len name) (connected t).
Proof.
  intros Ht. assert (HT : kept t (fun _ => True)) by done.
  assert (Herr : forall e, tri t (fun _ => True) (Ret (Err e)) (connected t))
    by (intros e; by apply hoare_ret).
  unfold bus_connect. destruct (validate_name name); [|apply Herr].
  destruct (check_alignment T); [|apply Herr]. destruct (_ <? _); [apply Herr|].
  apply tri_load_any; [done|]. intros magic. cbn [bind]. destruct (negb _); [apply Herr|].
  apply tri_load_any; [done|]. intros version. cbn [bind]. destruct (_ =? _); [apply Herr|].
  destruct (_ && _); [apply Herr|].
  assert (HF : forall φ : Prop, kept t (fun _ => φ /\ True)) by by intros φ σ σ' Hφ _.
  apply (tri_load _ _ _ _ (fun w _ => w = N /\ True)); [done|intros w; apply HF| |].
  { intros σ _ Hi. split; [apply (bi_header _ Hi)|done]. }
  intros rs. apply hoare_pure. intros ->.
  apply (tri_load _ _ _ _ (fun w _ => w = sz /\ True)); [done|intros w; apply HF| |].
  { intros σ _ Hi. split; [apply (bi_header _ Hi)|done]. }
  intros vs. apply hoare_pure. intros ->. apply tri_load_any; [done|]. intros va. cbn [bind].
  destruct (bus_validate T len version N sz va) as [[]|e] eqn:Hv; [|apply Herr].
  assert (Hsz : size_of T = sz).
  { unfold bus_validate in Hv. destruct (_ || _); [done|].
    destruct (Z.eqb_spec sz (size_of T)) as [->|]; [done|done]. }
  apply tri_load_any; [done|]. intros hb. apply tri_now; [done|]. intros [now|e]; [|apply Herr].
  destruct (_ <? _); [apply Herr|].
  apply (tri_load _ _ _ _ (fun c σ => 0 <= c /\ c <= loglen σ)); [done| | |].
  { intros c σ σ' [H1 H2] Hr. pose proof (loglen_mono _ _ _ Hr). split; [done|lia]. }
  { intros σ _ Hi. pose proof (ws_le_log σ Hi). split; [apply (bi_header _ Hi)|done]. }
  intros c. apply hoare_pure. intros Hc.
  destruct (version =? POD_BUS_VERSION_V3); cbn [bind].
  - eapply tri_bind with (R := fun o σ =>
      (match o with Ok (Some i) => untracked i | Ok None => False | Err _ => True end) /\ c <= loglen σ).
    + eapply tri_bind; [apply (tri_claim_slot t c pid _ (kept_loglen t c))|].
      intros r. apply hoare_ret; [|by destruct r].
      intros σ σ' [H1 H2] Hr. split; [done|by eapply kept_loglen].
    + intros o. apply hoare_pure. intros Ho. apply hoare_ret; [apply kept_loglen|].
      intros σ Hσ _. destruct o as [[i|]|e]; [|done|done].
      apply connected_ok; [done|done|done|]. by intros ? [= <-].
  - apply hoare_ret; [apply kept_loglen|]. intros σ Hσ _. by apply connected_ok.
Qed.

Lemma tri_drop t s (P : bstate -> Prop) :
  (forall i, bs_slot_index s = Some i -> untracked i) -> kept t P ->
  tri t P (bus_subscriber_drop s) (fun _ => P).
Proof.
  intros Hu HP. unfold bus_subscriber_drop. destruct (bs_slot_index s) as [i|]; cbn [bind store].
  - apply tri_store_idle; [by apply Hu|done|]. apply tri_store_idle; [by apply Hu|done|]. by apply hoare_ret.
  - by apply hoare_ret.
Qed.

(** The result of any subscriber thread. *)
Definition sub_post (t : nat) (out : bus_out) (σ : bstate) : Prop :=
  match out with
  | SubOut got lagged => exists c0, sub_report t c0 got lagged σ.1
  | PubOut _ => False
  end.

Lemma sub_report_mono t c0 got lagged log log' :
  log `prefix_of` log' -> sub_report t c0 got lagged log -> sub_report t c0 got lagged log'.
Proof.
  intros Hp (c & A1 & A2 & A3 & A4 & A5 & A6 & A7). pose proof (prefix_length _ _ Hp).
  exists c. split; [done|]. split; [done|]. split; [|split; [done|split; [done|split; [lia|done]]]].
  eapply Forall_impl; [exact A3|]. intros p [H1 H2]. split; [done|]. by eapply prefix_lookup_Some.
Qed.

Lemma kept_sub_post t t' out : kept t (sub_post t' out).
Proof.
  intros σ σ' H Hr. destruct out as [|got lagged]; [done|]. destruct H as [c0 H]. exists c0.
  eapply sub_report_mono; [apply (br_log _ _ _ Hr)|done].
Qed.

Lemma tri_bus_joiner t T pid len name n :
  tracked t = None -> tri t (fun _ => True) (bus_joiner T pid len name n) (sub_post t).
Proof.
  intros Ht. unfold bus_joiner. eapply tri_bind; [by apply tri_connect|]. intros [s|e].
  - eapply hoare_pre with (P' := fun σ => sub_ok t s /\
      sub_at t (bs_cursor s) σ /\ got_ok t (bs_cursor s) s [] σ); [|done].
    apply hoare_pure. intros Hs. eapply tri_bind; [by apply tri_bus_receiver|]. intros out.
    assert (Hu : forall i, bs_slot_index s = Some i -> untracked i).
    { intros i Hi. destruct Hs as (_ & _ & _ & _ & H5 & _). destruct (H5 i Hi); [congruence|done]. }
    eapply hoare_pre with (P' := sub_post t out); [|intros σ H; destruct out; [done|by eexists]].
    eapply tri_bind; [apply (tri_drop t s); [done|apply kept_sub_post]|].
    intros u. apply hoare_ret; [apply kept_sub_post|done].
  - apply hoare_ret; [done|]. intros σ _ _. exists 0, 0. split; [done|]. split; [constructor|].
    split; [constructor|]. cbn. split; [done|]. split; [lia|]. split; [lia|done].
Qed.

End Bus.
