(* ===== verification/BusGuarantees.v ===== *)
(** * BusGuarantees: the end-to-end theorems of the broadcast ring

    What [create] writes and [connect] reads back; then the theorems of BusProof
    without ghost state: a publisher, the subscribers that connected before it
    started, and subscribers that join at any time, interleaved in any order. *)

From S2P Require Import Prelude Errors Layout Atomics Rely Pool Subscription Loan Publisher.
From S2P Require Import PodBus BusProof.

Local Abbreviation bworld := (world bcell (cellmem bcell)).

(** ** Creating *)

Definition bus_version (watermark : option Z) : Z :=
  match watermark with Some _ => POD_BUS_VERSION_V3 | None => POD_BUS_VERSION_V1 end.

(** The header words [create] writes, apart from the heartbeat. *)
Definition bus_header (T : Pod) (ring_size : Z) (watermark : option Z) (m : cellmem bcell) : Prop :=
  m PHMagic = le_decode POD_BUS_MAGIC /\ m PHVersion = bus_version watermark /\
  m PHRingSize = ring_size /\ m PHValueSize = wrap32 (size_of T) /\
  m PHValueAlign = wrap32 (align_of T) /\ m PHWriteSeq = 0.

Definition bus_header_cell (c : bcell) : bool :=
  match c with
  | PHMagic | PHVersion | PHRingSize | PHValueSize | PHValueAlign | PHWriteSeq => true
  | _ => false
  end.

Lemma bus_header_frame T rs wm m m' :
  (forall c, bus_header_cell c = true -> m' c = m c) -> bus_header T rs wm m -> bus_header T rs wm m'.
Proof. intros Hf (? & ? & ? & ? & ? & ?). unfold bus_header. rewrite !Hf by done. done. Qed.

Definition stamps_zero (ring_size : Z) (m : cellmem bcell) : Prop :=
  forall i, 0 <= i < ring_size -> m (Stamp i) = 0.

Definition slots_free (m : cellmem bcell) : Prop :=
  forall i, 0 <= i < MAX_SUBSCRIBER_SLOTS -> m (SSState i) = STATE_FREE.

(** A loop of stores that each clear the cells of one index. *)
Lemma clear_run (n : Z) (body : Z -> prog bcell unit) (c : Z -> bcell) (v : Z)
    (touched : bcell -> bool) (w : bworld) :
  (forall i w, exists m', run (body i) w = (Done tt, set_mem w m') /\ m' (c i) = v /\
     (forall j, w_mem w (c j) = v -> m' (c j) = v) /\
     forall c', touched c' = false -> m' c' = w_mem w c') ->
  exists m', run (for_each (seqZ 0 n) body) w = (Done tt, set_mem w m') /\
    (forall i, 0 <= i < n -> m' (c i) = v) /\ forall c', touched c' = false -> m' c' = w_mem w c'.
Proof.
  intros Hb.
  destruct (run_for_each (seqZ 0 n) body (fun dn w' => exists m', w' = set_mem w m' /\
    (forall i, i ∈ dn -> m' (c i) = v) /\ forall c', touched c' = false -> m' c' = w_mem w c') w)
    as (w' & Hr & m' & -> & H1 & H2).
  - intros pre x post w0 _ (m0 & -> & H1 & H2). destruct (Hb x (set_mem w m0)) as (m' & Hr & A1 & A2 & A3).
    exists (set_mem w m'). split; [exact Hr|]. exists m'. split; [done|]. split.
    + intros i [Hi|Hi%list_elem_of_singleton]%elem_of_app; [apply A2, H1, Hi | by subst].
    + intros c' Hc. rewrite A3 by done. by apply H2.
  - exists (w_mem w). split; [by destruct w|]. split; [|done]. by intros i Hi%elem_of_nil.
  - exists m'. split; [done|]. split; [|done]. intros i Hi. by apply H1, elem_of_seqZ_0.
Qed.

Definition stamp_cell (c : bcell) : bool := match c with Stamp _ => true | _ => false end.
Definition slot_cell (c : bcell) : bool := match c with SSPid _ | SSState _ => true | _ => false end.

Lemma upd_keep (m : cellmem bcell) (f : Z -> bcell) i j v :
  m (f j) = v -> upd m (f i) v (f j) = v.
Proof. intros H. unfold upd. by case_decide. Qed.

Definition bus_handle (T : Pod) (name : bytes) (ring_size : Z) (watermark : option Z) : PodBus := {|
  bus_type := T; bus_mask := ring_size - 1; bus_ring_size := ring_size; bus_name := name;
  bus_has_slots := match watermark with Some _ => true | None => false end;
  bus_watermark := watermark; bus_cached_slowest := 0
|}.

Record bus_created (T : Pod) (ring_size : Z) (watermark : option Z) (m : cellmem bcell) : Prop := {
  bc_header : bus_header T ring_size watermark m;
  bc_stamps : stamps_zero ring_size m;
  bc_slots : watermark <> None -> slots_free m
}.

Lemma init_slots_run (wm : option Z) (w : bworld) :
  exists m, run (if match wm with Some _ => true | None => false end
      then for_each (seqZ 0 MAX_SUBSCRIBER_SLOTS) (fun i => AStore (SSPid i) 0 (store (SSState i) STATE_FREE))
      else Ret tt) w = (Done tt, set_mem w m) /\ (wm <> None -> slots_free m) /\
      forall c, slot_cell c = false -> m c = w_mem w c.
Proof.
  destruct wm as [wm|]; cbn match; [|exists (w_mem w); split; [by destruct w|done]].
  destruct (clear_run MAX_SUBSCRIBER_SLOTS (fun i => AStore (SSPid i) 0 (store (SSState i) STATE_FREE))
    SSState STATE_FREE slot_cell w) as (m2 & Hr & A1 & A2).
  { intros i w0. eexists. split; [reflexivity|]. cbn. rewrite upd_eq. split; [done|]. split.
    - intros j Hj. apply upd_keep. by rewrite upd_ne.
    - intros c' Hc. rewrite !upd_ne; [done|..]; by intros <-. }
  exists m2. split; [exact Hr|]. split; [intros _; exact A1|exact A2].
Qed.

Lemma bus_create_run T pid name ring_size wm (w : bworld) :
  is_power_of_two ring_size = true -> ring_size < 2 ^ 32 ->
  validate_name name = Ok tt -> check_alignment T = Ok tt ->
  exists m, run (bus_create_inner T pid name ring_size wm) w =
      (Done (match w_now w with Some _ => Ok (bus_handle T name ring_size wm) | None => Err ClockError end),
       set_mem w m) /\
    bus_created T ring_size wm m /\
    forall ns, w_now w = Some ns -> m PHHeartbeat = wrap64 (duration_as_micros ns).
Proof.
  intros Hp Hlt Hn Ha. pose proof (is_power_of_two_pos _ Hp) as Hpos.
  unfold bus_create_inner. rewrite Hn, Ha, Hp. replace (0 <? ring_size) with true by lia.
  cbn [andb negb]. run_simpl. rewrite (wrap32_small ring_size) by lia.
  match goal with |- context [run _ ?w0] => set (w1 := w0) end.
  assert (H1 : bus_header T ring_size wm (w_mem w1)).
  { unfold w1, bus_header. cbn [w_mem set_mem].
    repeat split; rewrite ?upd_ne by done; rewrite upd_eq; by destruct wm. }
  assert (Hw1 : forall m, set_mem w1 m = set_mem w m) by reflexivity. clearbody w1. rewrite run_bind.
  destruct (init_slots_run wm w1) as (m2 & Hr2 & S1 & S2). rewrite Hr2, Hw1. clear Hr2.
  rewrite run_bind. destruct (clear_run ring_size (fun i => store (Stamp i) 0) Stamp 0 stamp_cell (set_mem w m2))
    as (m3 & -> & B1 & B2).
  { intros i w0. eexists. split; [reflexivity|]. cbn. rewrite upd_eq. split; [done|]. split.
    - intros j Hj. by apply upd_keep.
    - intros c' Hc. rewrite upd_ne; [done|]. by intros <-. }
  cbn in B2. assert (Hcr : bus_created T ring_size wm m3).
  { split; [|exact B1|].
    - eapply bus_header_frame; [|exact H1]. intros c Hc. destruct c; try discriminate Hc;
        rewrite B2, S2 by done; done.
    - intros Hwm i Hi. rewrite B2 by done. by apply S1. }
  unfold bus_now_micros. run_simpl. destruct (w_now w) as [ns|]; [|by exists m3].
  exists (upd m3 PHHeartbeat (wrap64 (duration_as_micros ns))). split; [reflexivity|].
  split; [|by intros ? [= <-]; rewrite upd_eq]. destruct Hcr as [C1 C2 C3]. split.
  - eapply bus_header_frame; [|exact C1]. intros c Hc. rewrite upd_ne; [done|]. by intros <-.
  - intros i Hi. rewrite upd_ne by done. by apply C2.
  - intros Hwm i Hi. rewrite upd_ne by done. by apply C3.
Qed.

(** ** Connecting *)

(** Slot [i] was free and now belongs to [pid], at cursor [cur]. *)
Definition slot_taken (i cur pid : Z) (m m' : cellmem bcell) : Prop :=
  m (SSState i) = STATE_FREE /\ m' (SSPid i) = pid /\
  m' (SSState i) = Z.lor STATE_ACTIVE (Z.land cur VALUE_MASK) /\
  forall c, c <> SSState i -> c <> SSPid i -> m' c = m c.

Lemma claim_slot_at_run cur pid i (w : bworld) :
  (w_mem w (SSState i) <> STATE_FREE /\ run (claim_slot_at cur pid i) w = (Done None, w)) \/
  exists m', run (claim_slot_at cur pid i) w = (Done (Some (Ok i)), set_mem w m') /\
    slot_taken i cur pid (w_mem w) m'.
Proof.
  unfold claim_slot_at, bus_now_micros. run_simpl.
  destruct (Z.eqb_spec (w_mem w (SSState i)) STATE_FREE) as [He|Hne]; [right|by left].
  eexists. split; [reflexivity|]. split; [done|]. cbn. rewrite upd_eq, upd_ne, upd_eq by done.
  split; [done|]. split; [done|]. intros c H1 H2. by rewrite !upd_ne.
Qed.

(** The first free slot is claimed; without one the claim fails and changes nothing. *)
Lemma claim_run cur pid l (w : bworld) :
  let p := for_return l (claim_slot_at cur pid) (Ret (Err PoolExhausted)) in
  (run p w = (Done (Err PoolExhausted), w) /\ forall i, i ∈ l -> w_mem w (SSState i) <> STATE_FREE) \/
  exists i m', run p w = (Done (Ok i), set_mem w m') /\ i ∈ l /\ slot_taken i cur pid (w_mem w) m'.
Proof.
  cbv zeta. induction l as [|i l IH]; cbn [for_return].
  { left. split; [done|]. by intros i Hi%elem_of_nil. }
  rewrite run_bind. destruct (claim_slot_at_run cur pid i w) as [[Hne ->]|(m' & -> & Ht)].
  - destruct IH as [[-> Hl]|(j & m' & -> & Hj & Ht)]; [left|right].
    + split; [done|]. intros j [->|Hj]%elem_of_cons; [done|by apply Hl].
    + exists j, m'. split; [done|]. split; [by right|done].
  - right. exists i, m'. split; [done|]. split; [by left|done].
Qed.

(** The handle of a subscriber that connects at the start of the log. *)
Definition sub_handle (T : Pod) (ring_size cursor : Z) (slot : option Z) : BusSubscriber := {|
  bs_type := T; bs_mask := ring_size - 1; bs_ring_size := ring_size; bs_cursor := cursor;
  bs_total_lagged := 0; bs_slot_index := slot
|}.

(** After the checks, connecting takes a slot on a bounded bus. *)
Lemma bus_connect_passes T pid len name rs wm ns (w : bworld) :
  bus_header T rs wm (w_mem w) -> validate_name name = Ok tt -> check_alignment T = Ok tt ->
  POD_BUS_HEADER_SIZE <= len ->
  bus_validate T len (bus_version wm) rs (wrap32 (size_of T)) (wrap32 (align_of T)) = Ok tt ->
  w_now w = Some ns ->
  saturating_sub (wrap64 (duration_as_micros ns)) (w_mem w PHHeartbeat) <= HEARTBEAT_STALE_US ->
  run (bus_connect T pid len name) w =
    match wm with
    | None => (Done (Ok (sub_handle T rs 0 None)), w)
    | Some _ => run (let* r := claim_subscriber_slot 0 pid in
                     Ret (match r with
                          | Ok i => Ok (sub_handle T rs 0 (Some i))
                          | Err e => Err e
                          end)) w
    end.
Proof.
  intros (H1 & H2 & H3 & H4 & H5 & H6) Hn Ha Hlen Hv Hnow Hst. unfold bus_connect, bus_now_micros.
  rewrite Hn, Ha. replace (len <? POD_BUS_HEADER_SIZE) with false by lia. run_simpl.
  rewrite H1, Z.eqb_refl. cbn [negb]. run_simpl. rewrite H2.
  replace (bus_version wm =? POD_BUS_VERSION_V2) with false by by destruct wm.
  replace (negb (bus_version wm =? POD_BUS_VERSION_V1) && negb (bus_version wm =? POD_BUS_VERSION_V3))
    with false by by destruct wm.
  run_simpl. rewrite H3, H4, H5, Hv. run_simpl. rewrite Hnow. replace (_ <? _) with false by lia. run_simpl. rewrite H6.
  destruct wm as [wm|]; cbn [bus_version]; [|reflexivity].
  change (POD_BUS_VERSION_V3 =? POD_BUS_VERSION_V3) with true. cbn match.
  rewrite !run_bind. destruct (run (claim_subscriber_slot 0 pid) w) as [[[i|e]| |] w1]; reflexivity.
Qed.

(** A successful connect has passed every check. *)
Lemma bus_connect_checks T pid len name rs wm (w w' : bworld) s :
  bus_header T rs wm (w_mem w) -> run (bus_connect T pid len name) w = (Done (Ok s), w') ->
  exists ns, validate_name name = Ok tt /\ check_alignment T = Ok tt /\ POD_BUS_HEADER_SIZE <= len /\
    bus_validate T len (bus_version wm) rs (wrap32 (size_of T)) (wrap32 (align_of T)) = Ok tt /\
    w_now w = Some ns /\
    saturating_sub (wrap64 (duration_as_micros ns)) (w_mem w PHHeartbeat) <= HEARTBEAT_STALE_US.
Proof.
  intros (H1 & H2 & H3 & H4 & H5 & H6). unfold bus_connect, bus_now_micros.
  destruct (validate_name name) as [[]|]; [|done]. destruct (check_alignment T) as [[]|]; [|done].
  destruct (Z.ltb_spec len POD_BUS_HEADER_SIZE); [done|]. run_simpl.
  rewrite H1, Z.eqb_refl. cbn [negb]. run_simpl. rewrite H2.
  replace (bus_version wm =? POD_BUS_VERSION_V2) with false by by destruct wm.
  replace (negb (bus_version wm =? POD_BUS_VERSION_V1) && negb (bus_version wm =? POD_BUS_VERSION_V3))
    with false by by destruct wm.
  run_simpl. rewrite H3, H4, H5. destruct (bus_validate _ _ _ _ _ _) as [[]|]; [|done]. run_simpl.
  destruct (w_now w) as [ns|]; [|done].
  destruct (Z.ltb_spec HEARTBEAT_STALE_US (saturating_sub (wrap64 (duration_as_micros ns)) (w_mem w PHHeartbeat)));
    [done|]. intros _. by exists ns.
Qed.

(** What a connect that succeeds leaves. *)
Definition conn_ok (T : Pod) (rs pid : Z) (wm : option Z) (s : BusSubscriber) (m m' : cellmem bcell) : Prop :=
  match wm with
  | None => s = sub_handle T rs 0 None /\ m' = m
  | Some _ => exists i, s = sub_handle T rs 0 (Some i) /\ 0 <= i < MAX_SUBSCRIBER_SLOTS /\
      slot_taken i 0 pid m m'
  end.

Lemma bus_connect_inv T pid len name rs wm (w w' : bworld) s :
  bus_header T rs wm (w_mem w) -> run (bus_connect T pid len name) w = (Done (Ok s), w') ->
  conn_ok T rs pid wm s (w_mem w) (w_mem w') /\ wrap32 (size_of T) = size_of T.
Proof.
  intros Hh Hr. destruct (bus_connect_checks _ _ _ _ _ _ _ _ _ Hh Hr) as (ns & C1 & C2 & C3 & C4 & C5 & C6).
  rewrite (bus_connect_passes T pid len name rs wm ns w) in Hr by done. split.
  - destruct wm as [wm|]; [|by injection Hr as <- <-]. rewrite run_bind in Hr.
    destruct (claim_run 0 pid (seqZ 0 MAX_SUBSCRIBER_SLOTS) w) as [[Hc _]|(i & m' & Hc & Hi & Ht)];
      unfold claim_subscriber_slot in Hr; rewrite Hc in Hr; [done|]. injection Hr as <- <-.
    exists i. split; [done|]. split; [by apply elem_of_seqZ_0|done].
  - unfold bus_validate in C4. destruct (_ || _); [done|].
    by destruct (Z.eqb_spec (wrap32 (size_of T)) (size_of T)).
Qed.

(** C24. Round trip of the broadcast ring's header: on a mapping that is large enough, a
    subscriber that connects to the bus [create] has just written passes every check
    (magic, version, ring size, value size and alignment, length, heartbeat) and gets
    the creator's ring size, mask and first sequence number; on a bounded bus it owns
    the first cursor word, which now holds an active cursor 0 under its pid. *)
Theorem bus_create_connect T pid pid' name rs wm len ns (w : bworld) :
  is_power_of_two rs = true -> rs < 2 ^ 32 -> 0 <= size_of T < 2 ^ 32 -> 0 < align_of T <= MAX_POD_ALIGN ->
  is_valid_segment_name name = true -> w_now w = Some ns ->
  POD_BUS_HEADER_SIZE <= len -> region_size_for_version T rs (bus_version wm) <= len ->
  exists m1 m2,
    run (bus_create_inner T pid name rs wm) w = (Done (Ok (bus_handle T name rs wm)), set_mem w m1) /\
    run (bus_connect T pid' len name) (set_mem w m1) =
      (Done (Ok (sub_handle T rs 0 (match wm with Some _ => Some 0 | None => None end))), set_mem w m2) /\
    match wm with
    | Some _ => m2 (SSState 0) = STATE_ACTIVE /\ m2 (SSPid 0) = pid' /\
        forall c, c <> SSState 0 -> c <> SSPid 0 -> m2 c = m1 c
    | None => m2 = m1
    end.
Proof.
  intros Hp Hrs Hsz Hal Hn Hnow Hlen Hreg.
  assert (Hvn : validate_name name = Ok tt) by (unfold validate_name; by rewrite Hn).
  assert (Hca : check_alignment T = Ok tt) by (unfold check_alignment; by replace (_ <? _) with false by lia).
  destruct (bus_create_run T pid name rs wm w Hp Hrs Hvn Hca) as (m1 & Hc & [B1 B2 B3] & Hhb).
  rewrite Hnow in Hc. specialize (Hhb ns Hnow). exists m1.
  assert (Hok : bus_validate T len (bus_version wm) rs (wrap32 (size_of T)) (wrap32 (align_of T)) = Ok tt).
  { pose proof (is_power_of_two_pos _ Hp). unfold bus_validate, MAX_POD_ALIGN in *.
    rewrite !wrap32_small, Hp, !Z.eqb_refl by lia. replace (rs =? 0) with false by lia. cbn.
    by replace (len <? _) with false by lia. }
  rewrite (bus_connect_passes T pid' len name rs wm ns (set_mem w m1)); try done.
  2:{ cbn. rewrite Hhb. unfold saturating_sub. rewrite Z.ltb_irrefl, Z.sub_diag. done. }
  destruct wm as [wm|]; [|by exists m1].
  rewrite run_bind. unfold claim_subscriber_slot. rewrite (seqZ_cons 0 MAX_SUBSCRIBER_SLOTS) by done.
  cbn [for_return]. rewrite run_bind.
  destruct (claim_slot_at_run 0 pid' 0 (set_mem w m1)) as [[Hne _]|(m2 & -> & _ & T1 & T2 & T3)].
  { exfalso. apply Hne. by apply B3. }
  exists m2. split; [done|]. split; [done|]. by split.
Qed.

Lemma bus_create_connect_witness :
  exists m1 m2,
    run (bus_create_inner (mkPod 2 1) 9 [98] 2 (Some 1)) (mkWorld (fun _ => 0) (Some 1000000) 0 []) =
      (Done (Ok (bus_handle (mkPod 2 1) [98] 2 (Some 1))), mkWorld m1 (Some 1000000) 0 []) /\
    run (bus_connect (mkPod 2 1) 10 1216 [98]) (mkWorld m1 (Some 1000000) 0 []) =
      (Done (Ok (sub_handle (mkPod 2 1) 2 0 (Some 0))), mkWorld m2 (Some 1000000) 0 []) /\
    m2 (SSState 0) = STATE_ACTIVE /\ m2 (SSPid 0) = 10 /\
    forall c, c <> SSState 0 -> c <> SSPid 0 -> m2 c = m1 c.
Proof.
  exact (bus_create_connect (mkPod 2 1) 9 10 [98] 2 (Some 1) 1216 1000000
    (mkWorld (fun _ => 0) (Some 1000000) 0 []) eq_refl eq_refl ltac:(cbn; lia) ltac:(unfold MAX_POD_ALIGN; cbn; lia) eq_refl eq_refl
    ltac:(vm_compute; congruence) ltac:(vm_compute; congruence)).
Defined.

(** ** Starting: create the bus, then connect the first subscribers *)

Fixpoint connect_all (T : Pod) (len : Z) (name : bytes) (pids : list Z)
    : prog bcell (result (list BusSubscriber) Error) :=
  match pids with
  | [] => Ret (Ok [])
  | pid :: pids' =>
      let* r := bus_connect T pid len name in
      match r with
      | Err e => Ret (Err e)
      | Ok s =>
          let* l := connect_all T len name pids' in
          Ret (match l with Ok l => Ok (s :: l) | Err e => Err e end)
      end
  end.

Definition bus_start (T : Pod) (pid : Z) (name : bytes) (ring_size : Z) (watermark : option Z)
    (len : Z) (pids : list Z) : prog bcell (result (PodBus * list BusSubscriber) Error) :=
  let* r := match watermark with
            | Some wm => bus_create_bounded T pid name ring_size wm
            | None => bus_create T pid name ring_size
            end in
  match r with
  | Err e => Ret (Err e)
  | Ok b =>
      let* l := connect_all T len name pids in
      Ret (match l with Ok l => Ok (b, l) | Err e => Err e end)
  end.

(** A subscriber of the start: on a bounded bus it owns a cursor word that was free. *)
Definition early_sub (T : Pod) (rs : Z) (wm : option Z) (m m' : cellmem bcell) (pid : Z)
    (s : BusSubscriber) : Prop :=
  match wm with
  | None => s = sub_handle T rs 0 None
  | Some _ => exists i, s = sub_handle T rs 0 (Some i) /\ 0 <= i < MAX_SUBSCRIBER_SLOTS /\
      m (SSState i) = STATE_FREE /\ m' (SSState i) = STATE_ACTIVE /\ m' (SSPid i) = pid
  end.

Lemma connect_all_run T len name rs wm pids (w w' : bworld) subs :
  bus_header T rs wm (w_mem w) -> run (connect_all T len name pids) w = (Done (Ok subs), w') ->
  (forall c, slot_cell c = false -> w_mem w' c = w_mem w c) /\
  (forall i, w_mem w (SSState i) <> STATE_FREE ->
     w_mem w' (SSState i) = w_mem w (SSState i) /\ w_mem w' (SSPid i) = w_mem w (SSPid i)) /\
  Forall2 (early_sub T rs wm (w_mem w) (w_mem w')) pids subs /\ NoDup (omap bs_slot_index subs).
Proof.
  revert w w' subs. induction pids as [|pid pids IH]; intros w w' subs Hh; cbn [connect_all].
  { intros [= <- <-]. split; [done|]. split; [done|]. split; constructor. }
  rewrite run_bind. destruct (run (bus_connect T pid len name) w) as [[[s|e]| |] w1] eqn:Hc; try done.
  rewrite run_bind. destruct (run (connect_all T len name pids) w1) as [[[l|e]| |] w2] eqn:Hl; try done.
  intros [= <- <-]. destruct (bus_connect_inv _ _ _ _ _ _ _ _ _ Hh Hc) as [Hconn _].
  assert (Hf1 : forall c, slot_cell c = false -> w_mem w1 c = w_mem w c).
  { unfold conn_ok in Hconn. destruct wm; [|by destruct Hconn as [_ ->]].
    destruct Hconn as (i & _ & _ & _ & _ & _ & Hfr). intros c Hcc. apply Hfr; by intros ->. }
  assert (Hh1 : bus_header T rs wm (w_mem w1)).
  { eapply bus_header_frame; [|exact Hh]. intros c Hcc. apply Hf1. by destruct c. }
  destruct (IH _ _ _ Hh1 Hl) as (A1 & A2 & A3 & A4). split; [|unfold conn_ok in Hconn; destruct wm as [wm|]].
  - intros c Hcc. rewrite A1, Hf1; done.
  - destruct Hconn as (i & -> & Hi & T1 & T2 & T3 & T4).
    assert (T3' : w_mem w1 (SSState i) = STATE_ACTIVE) by (rewrite T3; reflexivity).
    destruct (A2 i) as [B1 B2]; [by rewrite T3'|]. split; [|split].
    + intros j Hj. assert (j <> i) by congruence. destruct (A2 j) as [-> ->]; rewrite !T4 by congruence; done.
    + constructor.
      * exists i. split; [done|]. split; [done|]. split; [done|]. split; congruence.
      * eapply Forall2_impl; [exact A3|]. intros p s (j & -> & Hj & C1 & C2 & C3). exists j.
        split; [done|]. split; [done|]. split; [|done]. destruct (decide (j = i)) as [->|]; [done|].
        by rewrite T4 in C1 by congruence.
    + cbn. constructor; [|done]. intros (s & Hs & Hsi)%list_elem_of_omap.
      apply list_elem_of_lookup in Hs as [k Hk]. destruct (Forall2_lookup_r _ _ _ _ _ A3 Hk) as (p & _ & j & -> & _ & C1 & _).
      cbn in Hsi. injection Hsi as ->. by rewrite T3' in C1.
  - destruct Hconn as [-> Hm]. rewrite Hm in A2, A3. split; [done|]. split; [by constructor|done].
Qed.

Lemma bus_create_inv T pid name rs wm (w w' : bworld) b :
  rs < 2 ^ 32 -> run (bus_create_inner T pid name rs wm) w = (Done (Ok b), w') ->
  is_power_of_two rs = true /\ b = bus_handle T name rs wm /\ bus_created T rs wm (w_mem w').
Proof.
  intros Hlt Hr. pose proof Hr as Hr0. unfold bus_create_inner in Hr0.
  destruct (is_power_of_two rs) eqn:Hp; [|by rewrite andb_false_r in Hr0].
  destruct (_ && true); [cbn [negb] in Hr0|done].
  destruct (validate_name name) as [[]|] eqn:Hn; [|done].
  destruct (check_alignment T) as [[]|] eqn:Ha; [|done]. clear Hr0.
  destruct (bus_create_run T pid name rs wm w Hp Hlt Hn Ha) as (m & Hc & Hcr & _).
  rewrite Hc in Hr. destruct (w_now w); [|done]. injection Hr as <- <-. done.
Qed.

(** The state in which the threads start. *)
Record bus_started (T : Pod) (name : bytes) (rs : Z) (wm : option Z) (pids : list Z)
    (b : PodBus) (subs : list BusSubscriber) (m : cellmem bcell) : Prop := {
  bst_ring : is_power_of_two rs = true;
  bst_watermark : forall x, wm = Some x -> x < rs;
  bst_bus : b = bus_handle T name rs wm;
  bst_header : bus_header T rs wm m;
  bst_stamps : stamps_zero rs m;
  bst_subs : exists m0, Forall2 (early_sub T rs wm m0 m) pids subs;
  bst_slots : NoDup (omap bs_slot_index subs)
}.

Lemma bus_start_inv T pid name rs wm len pids (w w' : bworld) b subs :
  rs < 2 ^ 32 -> run (bus_start T pid name rs wm len pids) w = (Done (Ok (b, subs)), w') ->
  bus_started T name rs wm pids b subs (w_mem w').
Proof.
  intros Hlt. unfold bus_start. rewrite run_bind.
  destruct (run _ w) as [[[b'|e]| |] w1] eqn:Hc; try done. rewrite run_bind.
  destruct (run (connect_all T len name pids) w1) as [[[l|e]| |] w2] eqn:Hl; try done. intros [= <- <- <-].
  assert (Hcr : (forall x, wm = Some x -> x < rs) /\
    run (bus_create_inner T pid name rs wm) w = (Done (Ok b'), w1)).
  { unfold bus_create_bounded, bus_create in Hc. destruct wm as [x|]; [|done].
    destruct (Z.ltb_spec x rs); [|done]. split; [by intros ? [= <-]|done]. }
  destruct Hcr as [Hwm Hcr]. destruct (bus_create_inv _ _ _ _ _ _ _ _ Hlt Hcr) as (Hp & -> & [C1 C2 C3]).
  destruct (connect_all_run _ _ _ _ _ _ _ _ _ C1 Hl) as (A1 & A2 & A3 & A4). split; try done.
  - eapply bus_header_frame; [|exact C1]. intros c Hcc. apply A1. by destruct c.
  - intros i Hi. rewrite A1 by done. by apply C2.
  - by exists (w_mem w1).
Qed.

(** ** The system *)

Record joiner : Type := mkJoiner {
  jn_type : Pod; jn_pid : Z; jn_len : Z; jn_name : bytes; jn_attempts : nat
}.

(** The publisher is thread 0; then come the subscribers of the start and the joiners. *)
Definition bus_threads (os : os_process) (fuel : nat) (cmds : list bus_cmd) (b : PodBus)
    (n : nat) (subs : list BusSubscriber) (js : list joiner) : list (prog bcell bus_out) :=
  bus_publisher os fuel cmds b [] ::
  map (fun s => bus_receiver n s []) subs ++
  map (fun j => bus_joiner (jn_type j) (jn_pid j) (jn_len j) (jn_name j) (jn_attempts j)) js.

(** What is assumed: the bus and its first subscribers come from a run of [create] and
    [connect]; the ring size fits the header word; the published values have the size
    of the type and are fewer than 2^61; the system answers about processes as its
    documentation says, and those of the first subscribers live throughout. *)
Record bus_setup (os : os_process) (runs : Z -> Z -> Prop) (T : Pod) (name : bytes) (rs : Z) (wm : option Z)
    (pids : list Z) (cmds : list bus_cmd) (b : PodBus) (subs : list BusSubscriber)
    (m : cellmem bcell) : Prop := {
  bu_start : exists pid len w w',
    run (bus_start T pid name rs wm len pids) w = (Done (Ok (b, subs)), w') /\ w_mem w' = m;
  bu_ring : rs < 2 ^ 32;
  bu_watermark : forall x, wm = Some x -> 0 <= x;
  bu_size : 0 <= size_of T < 2 ^ 32;
  bu_values : Forall (fun v => length v = Z.to_nat (size_of T)) (bus_requested cmds);
  bu_count : Z.of_nat (length (bus_requested cmds)) < 2 ^ 61;
  bu_os : ProcessLaws os runs;
  bu_alive : Forall (fun pid => 0 < pid < 2 ^ 31 /\ forall moment, runs moment pid) pids
}.

Section System.
Context (os : os_process) (runs : Z -> Z -> Prop) (fuel : nat) (T : Pod) (name : bytes) (rs : Z) (wm : option Z)
  (pids : list Z) (cmds : list bus_cmd) (b : PodBus) (n : nat) (subs : list BusSubscriber)
  (js : list joiner) (m : cellmem bcell).
Hypothesis (Hsu : bus_setup os runs T name rs wm pids cmds b subs m).

Definition tracked_of (t : nat) : option Z :=
  match t with O => None | S k => subs !! k ≫= bs_slot_index end.

Local Abbreviation eff := (rs - default 0 wm).
Local Abbreviation bound := (Z.of_nat (length (bus_requested cmds))).
Local Abbreviation inv := (BInv rs (size_of T) eff bound os tracked_of (bus_requested cmds)).
Local Abbreviation rely := (BRely rs tracked_of).
Local Abbreviation guar := (BGuar rs tracked_of).
Local Abbreviation σ0 := ([] : list bytes, h_init m).

Lemma setup_started : bus_started T name rs wm pids b subs m.
Proof.
  destruct (bu_start _ _ _ _ _ _ _ _ _ _ _ Hsu) as (pid & len & w & w' & Hr & <-).
  eapply bus_start_inv; [apply Hsu|exact Hr].
Qed.

Lemma tracked_sub t i :
  tracked_of t = Some i ->
  exists k s pid, t = S k /\ subs !! k = Some s /\ pids !! k = Some pid /\ probed_alive os pid /\
    wm <> None /\ s = sub_handle T rs 0 (Some i) /\ 0 <= i < MAX_SUBSCRIBER_SLOTS /\
    m (SSState i) = STATE_ACTIVE /\ m (SSPid i) = pid.
Proof.
  destruct t as [|k]; cbn; [done|]. intros (s & Hs & Hi)%bind_Some. pose proof setup_started as Hst.
  destruct (bst_subs _ _ _ _ _ _ _ _ Hst) as (m0 & Hf).
  destruct (Forall2_lookup_r _ _ _ _ _ Hf Hs) as (pid & Hp & He).
  unfold early_sub in He. destruct wm as [x|]; [|by subst s].
  destruct He as (j & -> & Hj & _ & H1 & H2). cbn in Hi. injection Hi as ->.
  pose proof (bu_alive _ _ _ _ _ _ _ _ _ _ _ Hsu) as Hal. rewrite Forall_lookup in Hal.
  destruct (Hal k pid Hp) as [Hpid Hrun].
  pose proof (running_probed os runs (ProcessLaws0 := bu_os _ _ _ _ _ _ _ _ _ _ _ Hsu) pid Hpid Hrun).
  exists k, (sub_handle T rs 0 (Some i)), pid. by repeat (split; [by eauto|]).
Qed.

Lemma tracked_inj t t' i : tracked_of t = Some i -> tracked_of t' = Some i -> t = t'.
Proof.
  intros (k & s & pid & -> & Hk & _ & _ & _ & -> & _)%tracked_sub
    (k' & s' & pid' & -> & Hk' & _ & _ & _ & -> & _)%tracked_sub.
  f_equal. pose proof (bst_slots _ _ _ _ _ _ _ _ setup_started) as Hnd.
  by eapply NoDup_omap_inj.
Qed.

Lemma eff_range : 0 < eff <= rs.
Proof.
  pose proof (is_power_of_two_pos _ (bst_ring _ _ _ _ _ _ _ _ setup_started)).
  pose proof (bst_watermark _ _ _ _ _ _ _ _ setup_started) as H1.
  pose proof (bu_watermark _ _ _ _ _ _ _ _ _ _ _ Hsu) as H2. clear Hsu.
  destruct wm as [x|]; cbn; [|lia]. specialize (H1 x eq_refl). specialize (H2 x eq_refl). lia.
Qed.

Lemma bus_fresh_inv : inv σ0.
Proof.
  pose proof setup_started as [S1 S2 S3 (H1 & H2 & H3 & H4 & H5 & H6) S5 S6 S7]. pose proof eff_range.
  pose proof (bu_size _ _ _ _ _ _ _ _ _ _ _ Hsu). split; cbn [fst]; unfold bmem, loglen; cbn.
  - left. by rewrite H6.
  - lia.
  - apply sublist_nil_l.
  - constructor.
  - intros i Hi. left. cbn. split; [by apply S5|]. intros q Hq. lia.
  - rewrite H3, H4, H6, wrap32_small by lia. done.
  - intros t i (k & s & pid & _ & _ & _ & Hal & _ & _ & _ & A1 & A2)%tracked_sub. exists 0.
    rewrite A1, A2, H6. split; [done|]. split; [lia|]. split; [lia|by right].
Qed.

(** What each thread's result must satisfy. *)
Definition bus_post (t : nat) (out : bus_out) (σ : bstate) : Prop :=
  match t with
  | O => out = PubOut σ.1
  | S k =>
      match out with
      | SubOut got lagged => exists c0, sub_report tracked_of t c0 got lagged σ.1 /\
          ((k < length subs)%nat -> c0 = 0)
      | PubOut _ => False
      end
  end.

Local Abbreviation verified := (wp no_window inv rely guar).

Lemma bus_publisher_start : verified 0%nat (bus_publisher os fuel cmds b []) (bus_post 0) σ0.
Proof.
  pose proof setup_started as [S1 S2 S3 (H1 & H2 & H3 & H4 & H5 & H6) S5 S6 S7]. pose proof eff_range as He.
  eapply (tri_bus_publisher rs (size_of T) eff bound os tracked_of (bus_requested cmds))
    with (dn := []); try done; try apply Hsu.
  - intros t i (k & s & pid & _ & _ & _ & _ & _ & _ & Hi & _)%tracked_sub. exact Hi.
  - rewrite S3. unfold bus_ok. cbn. split; [done|]. split; [done|]. split; [lia|].
    pose proof (bu_watermark _ _ _ _ _ _ _ _ _ _ _ Hsu) as Hw. pose proof tracked_sub as Hts. clear Hsu.
    destruct wm as [x|]; cbn in *.
    + specialize (Hw x eq_refl). split; [lia|done].
    + intros t. destruct (tracked_of t) as [i|] eqn:Ht; [|done].
      apply Hts in Ht as (k & s & pid & _ & _ & _ & _ & Hn & _). done.
  - rewrite S3. split; [split; [done|exact H6]|]. cbn.
    intros t i (k & s & pid & _ & _ & _ & _ & _ & _ & _ & A1 & _)%tracked_sub. unfold bmem. cbn. by rewrite A1.
Qed.

Lemma early_start k s : subs !! k = Some s -> verified (S k) (bus_receiver n s []) (bus_post (S k)) σ0.
Proof.
  intros Hs. pose proof setup_started as [S1 S2 S3 S4 S5 (m0 & S6) S7]. pose proof eff_range as He.
  destruct (Forall2_lookup_r _ _ _ _ _ S6 Hs) as (pid & Hp & Hes).
  assert (Hsh : s = sub_handle T rs 0 (bs_slot_index s)).
  { unfold early_sub in Hes. destruct wm; [by destruct Hes as (i & -> & _) | by subst s]. }
  assert (Htr : tracked_of (S k) = bs_slot_index s) by (cbn; by rewrite Hs).
  eapply wp_mono.
  - eapply (tri_bus_receiver rs (size_of T) eff bound os tracked_of (bus_requested cmds))
      with (t := S k) (c0 := 0); try done; try apply Hsu.
    + apply tracked_inj.
    + rewrite Hsh. split; [done|]. split; [done|]. split; [done|]. cbn [bs_total_lagged bs_cursor sub_handle].
      split; [lia|]. cbn [bs_slot_index sub_handle]. rewrite Htr. split; [intros i Hi; by left|done].
    + rewrite Hsh. cbn [bs_cursor sub_handle]. split; [split; [unfold loglen; cbn; lia|]|].
      * intros i (k' & s' & pid' & _ & _ & _ & _ & _ & _ & _ & A1 & _)%tracked_sub. unfold bmem. cbn. by rewrite A1.
      * split; [|constructor]. split; [done|]. split; [constructor|]. split; [constructor|]. done.
  - intros [acc|got lagged] σ Hq; [done|]. exists 0. split; [exact Hq|done].
Qed.

Lemma joiner_start k j :
  (length subs <= k)%nat ->
  verified (S k) (bus_joiner (jn_type j) (jn_pid j) (jn_len j) (jn_name j) (jn_attempts j)) (bus_post (S k)) σ0.
Proof.
  intros Hk. pose proof setup_started as [S1 S2 S3 S4 S5 S6 S7]. pose proof eff_range as He.
  eapply wp_mono.
  - eapply (tri_bus_joiner rs (size_of T) eff bound os tracked_of (bus_requested cmds)); try done;
      try apply Hsu.
    + apply tracked_inj.
    + cbn. by rewrite lookup_ge_None_2.
  - intros [acc|got lagged] σ Hq; [done|]. destruct Hq as (c0 & Hq). exists c0. split; [exact Hq|lia].
Qed.

Lemma bus_start_ok :
  pool_ok no_window inv rely guar bus_post (bus_threads os fuel cmds b n subs js) σ0.
Proof.
  split; [apply bus_fresh_inv|]. intros [|k] p Hp; unfold bus_threads in Hp; cbn in Hp.
  - injection Hp as <-. apply bus_publisher_start.
  - apply lookup_app_Some in Hp as [Hp|[Hk Hp]].
    + apply list_lookup_fmap_Some in Hp as (s & -> & Hs). by apply early_start.
    + apply list_lookup_fmap_Some in Hp as (j & -> & _). apply joiner_start.
      by rewrite length_map in Hk.
Qed.

Lemma bus_reach ps s :
  rtc (cstep no_window) (bus_threads os fuel cmds b n subs js, h_init m) (ps, s) ->
  exists log, inv (log, s) /\ (forall t out, ps !! t = Some (Ret out) -> bus_post t out (log, s)) /\
    (forall t, ps !! t <> Some Panic).
Proof.
  intros Hr. eapply (wp_sound no_window inv rely guar (BGuar_BRely rs tracked_of) bus_post); [exact bus_start_ok|exact Hr].
Qed.

End System.

(** ** An instance: a bounded ring of two slots, one early subscriber, one joiner *)

Lemma run_pair {A} (p : prog bcell A) (w : bworld) a :
  (run p w).1 = Done a -> run p w = (Done a, (run p w).2).
Proof. destruct (run p w). cbn. by intros ->. Qed.

Module BusDemo.

Definition T : Pod := mkPod 2 1.
Definition cmds : list bus_cmd :=
  [BPublish [1; 2]; BTryPublish [3; 4]; BHeartbeat; BTryPublish [5; 6]; BPublish [7; 8]].
Definition world0 : bworld := mkWorld (fun _ => 0) (Some 1000000) 0 [].
Definition memory : cellmem bcell := w_mem (run (bus_start T 9 [98] 2 (Some 0) 1216 [10]) world0).2.
Definition bus : PodBus := bus_handle T [98] 2 (Some 0).
Definition subs : list BusSubscriber := [sub_handle T 2 0 (Some 0)].

(** Processes 9, 10 and 11 run; 11 belongs to another user, who may not be signalled. *)
Definition processes : os_process :=
  UnixProcess (fun _ pid _ =>
    if (pid =? 9) || (pid =? 10) then (0, 0) else (-1, if pid =? 11 then EPERM else ESRCH)).
Definition runs (moment pid : Z) : Prop := pid ∈ [9; 10; 11].
Definition joiners : list joiner := [mkJoiner T 11 1216 [98] 6].

(** The publisher fills the ring, is refused, waits for the early subscriber, and the
    joiner reads on its own. *)
Definition schedule : list (nat * nat) :=
  [(0, 10); (2, 17); (0, 90); (2, 5); (1, 9); (0, 200); (2, 60); (1, 60)]%nat.
Definition final : list (prog bcell bus_out) * hstate bcell :=
  exec no_window (Some 1000000) schedule (bus_threads processes 5 cmds bus 4 subs joiners) (h_init memory).

Lemma processes_laws : ProcessLaws processes runs.
Proof.
  intros moment pid Hp. unfold runs. rewrite !elem_of_cons, elem_of_nil.
  destruct (Z.eqb_spec pid 9), (Z.eqb_spec pid 10), (Z.eqb_spec pid 11); cbn; naive_solver.
Defined.

Lemma bus_setup_ok : bus_setup processes runs T [98] 2 (Some 0) [10] cmds bus subs memory.
Proof.
  split.
  - exists 9, 1216, world0, (run (bus_start T 9 [98] 2 (Some 0) 1216 [10]) world0).2.
    split; [|unfold memory; reflexivity]. apply run_pair. vm_compute. reflexivity.
  - done.
  - by intros ? [= <-].
  - cbn. lia.
  - repeat constructor.
  - cbn. lia.
  - exact processes_laws.
  - repeat constructor.
Defined.

Lemma bus_final_reachable :
  rtc (cstep no_window) (bus_threads processes 5 cmds bus 4 subs joiners, h_init memory) (final.1, final.2).
Proof.
  pose proof (exec_sound no_window (Some 1000000) schedule (bus_threads processes 5 cmds bus 4 subs joiners)
    (h_init memory)) as H.
  unfold final in *. by destruct (exec _ _ _ _ _).
Defined.

End BusDemo.

(** What a subscriber reports against the log of published values: it consumed the
    sequence numbers from [c0] to [c]; the values it received are those of the log at
    increasing sequence numbers in that range, and the rest is counted in [lagged]. *)
Definition reports (log : list bytes) (c0 : Z) (got : list (Z * bytes)) (lagged : Z) : Prop :=
  exists c, 0 <= c0 /\ c <= Z.of_nat (length log) /\ 0 <= lagged /\
    c0 + Z.of_nat (length got) + lagged = c /\
    StronglySorted (fun p q => p.1 < q.1) got /\
    forall q v, (q, v) ∈ got -> c0 <= q < c /\ log !! Z.to_nat q = Some v.

Lemma sub_report_reports tr t c0 got lagged log : sub_report tr t c0 got lagged log -> reports log c0 got lagged.
Proof.
  intros (c & A1 & A2 & A3 & A4 & A5 & A6 & _). exists c. repeat (split; [done|]).
  intros q v Hin. rewrite Forall_forall in A3. apply (A3 (q, v) Hin).
Qed.

(** C5. End-to-end delivery of the broadcast ring: in every interleaving of the
    publisher with subscribers that connected before it started and subscribers that
    connect at any time and leave again, there is one log of published values, a
    sublist of what the client asked for and exactly what the publisher reports;
    whatever a subscriber receives are whole values of that log (never torn by the
    writer overtaking it), at strictly increasing sequence numbers, and the sequence
    numbers it passed over are precisely its lag count. No thread panics. *)
Theorem bus_delivery os runs fuel T name rs wm pids cmds b n subs js m ps s :
  bus_setup os runs T name rs wm pids cmds b subs m ->
  rtc (cstep no_window) (bus_threads os fuel cmds b n subs js, h_init m) (ps, s) ->
  (forall t, ps !! t <> Some Panic) /\
  exists log, log `sublist_of` bus_requested cmds /\
    (forall out, ps !! 0%nat = Some (Ret out) -> out = PubOut log) /\
    forall t out, ps !! S t = Some (Ret out) ->
      exists c0 got lagged, out = SubOut got lagged /\ reports log c0 got lagged.
Proof.
  intros Hsu Hr. destruct (bus_reach _ _ _ _ _ _ _ _ _ _ _ _ js _ Hsu _ _ Hr) as (log & Hi & Hq & Hnp).
  split; [done|]. exists log. split; [apply (bi_req _ _ _ _ _ _ _ _ Hi)|]. split; [apply (Hq 0%nat)|].
  intros t out Ht. specialize (Hq (S t) out Ht). destruct out as [acc|got lagged]; [done|].
  destruct Hq as (c0 & Hq & _). exists c0, got, lagged. split; [done|]. by eapply sub_report_reports.
Qed.

Lemma bus_delivery_witness :
  BusDemo.final.1 = [Ret (PubOut [[1; 2]; [3; 4]; [7; 8]]);
                     Ret (SubOut [(0, [1; 2]); (1, [3; 4]); (2, [7; 8])] 0);
                     Ret (SubOut [(1, [3; 4]); (2, [7; 8])] 0)] /\
  exists log, log `sublist_of` bus_requested BusDemo.cmds /\ PubOut [[1; 2]; [3; 4]; [7; 8]] = PubOut log /\
    exists c0 got lagged, SubOut [(1, [3; 4]); (2, [7; 8])] 0 = SubOut got lagged /\ reports log c0 got lagged.
Proof.
  assert (Hf : BusDemo.final.1 = [Ret (PubOut [[1; 2]; [3; 4]; [7; 8]]);
    Ret (SubOut [(0, [1; 2]); (1, [3; 4]); (2, [7; 8])] 0);
    Ret (SubOut [(1, [3; 4]); (2, [7; 8])] 0)]) by (vm_compute; reflexivity).
  split; [exact Hf|].
  destruct (bus_delivery BusDemo.processes BusDemo.runs 5 BusDemo.T [98] 2 (Some 0) [10] BusDemo.cmds BusDemo.bus 4
    BusDemo.subs BusDemo.joiners BusDemo.memory BusDemo.final.1 BusDemo.final.2
    BusDemo.bus_setup_ok BusDemo.bus_final_reachable) as (_ & log & H1 & H2 & H3).
  exists log. split; [exact H1|]. split; [apply H2; rewrite Hf; reflexivity|].
  apply (H3 1%nat). rewrite Hf. reflexivity.
Defined.

(** C6. Back-pressure: on a bounded ring, a subscriber that connected before the first
    publish, and whose process lives (on Windows: and may be queried by the publisher),
    loses nothing, however slowly it is scheduled and whatever other processes come and
    go: its lag count is 0 and the values it received are a prefix of the published log,
    with the sequence numbers 0, 1, 2, ... *)
Theorem bus_lossless os runs fuel T name rs x pids cmds b n subs js m ps s t got lagged :
  bus_setup os runs T name rs (Some x) pids cmds b subs m ->
  rtc (cstep no_window) (bus_threads os fuel cmds b n subs js, h_init m) (ps, s) ->
  (t < length subs)%nat -> ps !! S t = Some (Ret (SubOut got lagged)) ->
  lagged = 0 /\ got.*1 = seqZ 0 (Z.of_nat (length got)) /\
  exists log, log `sublist_of` bus_requested cmds /\ got.*2 `prefix_of` log /\
    forall out, ps !! 0%nat = Some (Ret out) -> out = PubOut log.
Proof.
  intros Hsu Hr Ht Hp. destruct (bus_reach _ _ _ _ _ _ _ _ _ _ _ _ js _ Hsu _ _ Hr) as (log & Hi & Hq & _).
  destruct (Hq (S t) _ Hp) as (c0 & (c & A1 & A2 & A3 & A4 & A5 & A6 & A7) & Hc0).
  specialize (Hc0 Ht). subst c0.
  assert (Htr : tracked_of subs (S t) <> None).
  { destruct (lookup_lt_is_Some_2 subs t Ht) as [sb Hsb]. cbn. rewrite Hsb. cbn.
    destruct (bst_subs _ _ _ _ _ _ _ _ (setup_started _ _ _ _ _ _ _ _ _ _ _ Hsu)) as (m0 & Hf).
    by destruct (Forall2_lookup_r _ _ _ _ _ Hf Hsb) as (pid & _ & i & -> & _). }
  specialize (A7 Htr). subst lagged. split; [done|].
  assert (Hkey : forall j p, got !! j = Some p -> p.1 = Z.of_nat j /\ log !! j = Some p.2).
  { intros j p Hj. assert (He : p.1 = 0 + Z.of_nat j).
    - eapply (sorted_dense fst got); [exact A2| |exact Hj].
      eapply Forall_impl; [exact A3|]. intros q [Hq' _]. lia.
    - split; [lia|]. rewrite Forall_lookup in A3. destruct (A3 j p Hj) as [_ Hl].
      rewrite He in Hl. by replace (Z.to_nat (0 + Z.of_nat j)) with j in Hl by lia. }
  split.
  - apply list_eq. intros j. rewrite list_lookup_fmap. destruct (got !! j) as [p|] eqn:Hj; cbn.
    + symmetry. apply lookup_seqZ. destruct (Hkey j p Hj) as [-> _]. apply lookup_lt_Some in Hj. lia.
    + symmetry. apply lookup_seqZ_ge. apply lookup_ge_None in Hj. lia.
  - exists log. split; [apply (bi_req _ _ _ _ _ _ _ _ Hi)|]. split; [|apply (Hq 0%nat)].
    apply prefix_by_lookup. intros j v Hj. apply list_lookup_fmap_Some in Hj as (p & -> & Hj).
    by destruct (Hkey j p Hj).
Qed.

Lemma bus_lossless_witness :
  exists log, log `sublist_of` bus_requested BusDemo.cmds /\ [[1; 2]; [3; 4]; [7; 8]] `prefix_of` log.
Proof.
  destruct (bus_lossless BusDemo.processes BusDemo.runs 5 BusDemo.T [98] 2 0 [10] BusDemo.cmds BusDemo.bus 4
    BusDemo.subs BusDemo.joiners BusDemo.memory BusDemo.final.1 BusDemo.final.2 0
    [(0, [1; 2]); (1, [3; 4]); (2, [7; 8])] 0 BusDemo.bus_setup_ok BusDemo.bus_final_reachable) as (_ & _ & log & H1 & H2 & _).
  - cbn. lia.
  - vm_compute. reflexivity.
  - exists log. split; [exact H1|exact H2].
Defined.
