(* ===== verification/BusRobust.v ===== *)
(** * BusRobust: the broadcast ring against hostile memory

    Where the words of the bus lie in its file, and that the operations of both
    sides access only those, whatever another process writes into them. The checks
    of [connect] are what makes it true for a subscriber. *)

From S2P Require Import Prelude Errors Layout Atomics Rely Pool Wait Subscription Loan Publisher.
From S2P Require Import PodBus BusProof.

(** ** Layout *)

Definition ring_offset (bounded : bool) : Z :=
  if bounded then POD_BUS_HEADER_SIZE + SUBSCRIBER_SLOTS_SECTION_SIZE else POD_BUS_HEADER_SIZE.

(** Offset and width of a word. A slot is [repr(C)]: the stamp, then the value. *)
Definition bus_field (T : Pod) (bounded : bool) (c : bcell) : Z * Z :=
  match c with
  | PHMagic => (0, 8)
  | PHVersion => (8, 4)
  | PHRingSize => (12, 4)
  | PHValueSize => (16, 4)
  | PHValueAlign => (20, 4)
  | PHHeartbeat => (24, 8)
  | PHWriteSeq => (32, 8)
  | PHPid => (40, 8)
  | PHWatermark => (48, 4)
  | SSPid i => (POD_BUS_HEADER_SIZE + i * SUBSCRIBER_SLOT_SIZE, 4)
  | SSState i => (POD_BUS_HEADER_SIZE + i * SUBSCRIBER_SLOT_SIZE + 8, 8)
  | Stamp i => (ring_offset bounded + i * slot_size T, 8)
  | Data i j => (ring_offset bounded + i * slot_size T + 8 + j, 1)
  end.

(** The word is one of the file's, for a ring of [ring_size] slots. *)
Definition bus_valid (T : Pod) (bounded : bool) (ring_size : Z) (c : bcell) : Prop :=
  match c with
  | SSPid i | SSState i => bounded = true /\ 0 <= i < MAX_SUBSCRIBER_SLOTS
  | Stamp i => 0 <= i < ring_size
  | Data i j => 0 <= i < ring_size /\ 0 <= j < size_of T
  | _ => True
  end.

Definition bus_fits (c : bcell) (v : Z) : Prop :=
  0 <= v < 2 ^ (8 * (bus_field (mkPod 0 1) false c).2).

(** The word lies inside a file of [len] bytes. *)
Definition bus_in_file (T : Pod) (bounded : bool) (len : Z) (c : bcell) : Prop :=
  0 <= (bus_field T bounded c).1 /\ (bus_field T bounded c).1 + (bus_field T bounded c).2 <= len.

Definition version_of (bounded : bool) : Z := if bounded then POD_BUS_VERSION_V3 else POD_BUS_VERSION_V1.

Lemma slot_size_ge T : 0 <= size_of T -> 8 + size_of T <= slot_size T < 8 + size_of T + 64.
Proof. intros H. unfold slot_size. Z.div_mod_to_equations. lia. Qed.

Lemma pow2_half rs : is_power_of_two rs = true -> rs < 2 ^ 32 -> rs <= 2 ^ 31.
Proof.
  intros Hp Hlt. apply is_power_of_two_spec in Hp as (k & Hk & ->).
  apply Z.pow_le_mono_r; [lia|]. apply Z.pow_lt_mono_r_iff in Hlt; lia.
Qed.

(** The size computed with wrapping arithmetic is the exact one. *)
Lemma region_size_exact T bounded rs :
  0 <= size_of T < 2 ^ 32 -> is_power_of_two rs = true -> rs < 2 ^ 32 ->
  region_size_for_version T rs (version_of bounded) = ring_offset bounded + rs * slot_size T.
Proof.
  intros Hs Hp Hr. pose proof (slot_size_ge T ltac:(lia)). pose proof (is_power_of_two_pos _ Hp).
  pose proof (pow2_half rs Hp Hr). assert (0 <= rs * slot_size T <= 2 ^ 31 * (2 ^ 32 + 72)) by nia.
  unfold region_size_for_version, uadd, umul. rewrite (wrap64_small (rs * _)) by lia.
  replace (header_total (version_of bounded)) with (ring_offset bounded) by by destruct bounded.
  apply wrap64_small. destruct bounded; unfold ring_offset, POD_BUS_HEADER_SIZE, SUBSCRIBER_SLOTS_SECTION_SIZE,
    MAX_SUBSCRIBER_SLOTS, SUBSCRIBER_SLOT_SIZE; lia.
Qed.

(** The words of an accepted file lie inside it. *)
Lemma bus_valid_in_file T bounded rs len c :
  0 <= size_of T -> 0 < rs -> ring_offset bounded + rs * slot_size T <= len ->
  bus_valid T bounded rs c -> bus_in_file T bounded len c.
Proof.
  intros Hs Hr Hl Hv. pose proof (slot_size_ge T Hs) as Hss.
  assert (Hring : forall i k, 0 <= i < rs -> 0 <= k <= slot_size T ->
    0 <= ring_offset bounded + i * slot_size T /\ ring_offset bounded + i * slot_size T + k <= len).
  { intros i k Hi Hk. assert (0 <= i * slot_size T /\ (i + 1) * slot_size T <= rs * slot_size T) by nia.
    assert (0 <= ring_offset bounded) by by destruct bounded. lia. }
  assert (Hhead : ring_offset bounded <= len) by nia.
  unfold bus_in_file. destruct c; cbn [bus_field bus_valid fst snd] in *;
    unfold ring_offset, POD_BUS_HEADER_SIZE, SUBSCRIBER_SLOTS_SECTION_SIZE, MAX_SUBSCRIBER_SLOTS,
      SUBSCRIBER_SLOT_SIZE in *; try (destruct bounded; lia).
  - apply (Hring i 8); lia.
  - destruct Hv as [Hi Hj]. pose proof (Hring i (8 + j + 1) Hi ltac:(lia)). lia.
Qed.

(** Distinct words do not overlap. *)
Lemma bus_disjoint T bounded rs c c' :
  0 <= size_of T -> bus_valid T bounded rs c -> bus_valid T bounded rs c' -> c <> c' ->
  (bus_field T bounded c).1 + (bus_field T bounded c).2 <= (bus_field T bounded c').1 \/
  (bus_field T bounded c').1 + (bus_field T bounded c').2 <= (bus_field T bounded c).1.
Proof.
  intros Hs Hv Hv' Hne. pose proof (slot_size_ge T Hs) as Hss.
  assert (Hmul : forall i i', 0 <= i -> 0 <= i' -> i <> i' ->
    i * slot_size T + slot_size T <= i' * slot_size T \/ i' * slot_size T + slot_size T <= i * slot_size T) by nia.
  destruct c as [| | | | | | | | |i|i|i|i j], c' as [| | | | | | | | |i'|i'|i'|i' j']; try done;
    cbn [bus_field bus_valid fst snd] in *;
    unfold ring_offset, POD_BUS_HEADER_SIZE, SUBSCRIBER_SLOTS_SECTION_SIZE, MAX_SUBSCRIBER_SLOTS,
      SUBSCRIBER_SLOT_SIZE in *; try lia;
    try (assert (0 <= i * slot_size T) by nia); try (assert (0 <= i' * slot_size T) by nia);
    try (destruct bounded; lia);
    (destruct (Z.eq_dec i i') as [<-|Hi]; [|pose proof (Hmul i i' ltac:(lia) ltac:(lia) Hi); lia]);
    try done; try lia; destruct (Z.eq_dec j j') as [<-|]; [done|lia].
Qed.

Lemma bus_aligned T bounded c : (bus_field T bounded c).1 mod (bus_field T bounded c).2 = 0.
Proof.
  assert (Hmul : forall x, (8 * x) mod 8 = 0) by (intros x; rewrite Z.mul_comm; apply Z.mod_mul; lia).
  assert (Hmul4 : forall x, (4 * x) mod 4 = 0) by (intros x; rewrite Z.mul_comm; apply Z.mod_mul; lia).
  assert (Hr : ring_offset bounded = 8 * (ring_offset bounded / 8)) by by destruct bounded.
  destruct c; cbn [bus_field fst snd]; try reflexivity;
    unfold POD_BUS_HEADER_SIZE, SUBSCRIBER_SLOT_SIZE, slot_size in *; [| |rewrite Hr|apply Z.mod_1_r].
  - replace (64 + i * 16) with (4 * (16 + i * 4)) by lia. apply Hmul4.
  - replace (64 + i * 16 + 8) with (8 * (9 + i * 2)) by lia. apply Hmul.
  - replace (8 * (ring_offset bounded / 8) + i * ((8 + size_of T + 63) / 64 * 64))
      with (8 * (ring_offset bounded / 8 + i * ((8 + size_of T + 63) / 64) * 8)) by lia. apply Hmul.
Qed.

(** C32. The layout of a bus file is sound: in a file of the size the code computes (with
    wrapping arithmetic), every header word, cursor word, stamp and value byte lies
    inside the file, at its natural alignment, and no two of them overlap. *)
Theorem bus_layout_sound T bounded rs c c' :
  0 <= size_of T < 2 ^ 32 -> is_power_of_two rs = true -> rs < 2 ^ 32 ->
  bus_valid T bounded rs c -> bus_valid T bounded rs c' ->
  bus_in_file T bounded (region_size_for_version T rs (version_of bounded)) c /\
  (bus_field T bounded c).1 mod (bus_field T bounded c).2 = 0 /\
  (c <> c' ->
   (bus_field T bounded c).1 + (bus_field T bounded c).2 <= (bus_field T bounded c').1 \/
   (bus_field T bounded c').1 + (bus_field T bounded c').2 <= (bus_field T bounded c).1).
Proof.
  intros Hs Hp Hr Hc Hc'. pose proof (is_power_of_two_pos _ Hp). split; [|split].
  - eapply bus_valid_in_file; [lia|done| |done]. by rewrite region_size_exact.
  - apply bus_aligned.
  - apply (bus_disjoint T bounded rs); [lia|done|done].
Qed.

Lemma bus_layout_sound_witness :
  bus_in_file (mkPod 60 4) true (region_size_for_version (mkPod 60 4) 4 POD_BUS_VERSION_V3) (Data 3 59) /\
  (bus_field (mkPod 60 4) true (Data 3 59)).1 mod (bus_field (mkPod 60 4) true (Data 3 59)).2 = 0 /\
  (Data 3 59 <> Stamp 3 ->
   (bus_field (mkPod 60 4) true (Data 3 59)).1 + (bus_field (mkPod 60 4) true (Data 3 59)).2 <=
     (bus_field (mkPod 60 4) true (Stamp 3)).1 \/
   (bus_field (mkPod 60 4) true (Stamp 3)).1 + (bus_field (mkPod 60 4) true (Stamp 3)).2 <=
     (bus_field (mkPod 60 4) true (Data 3 59)).1).
Proof.
  apply (bus_layout_sound (mkPod 60 4) true 4 (Data 3 59) (Stamp 3)); try reflexivity; cbn; lia.
Defined.

(** ** Subscriber *)

Lemma bus_fits8 c v : (bus_field (mkPod 0 1) false c).2 = 8 -> in_u64 v -> bus_fits c v.
Proof. intros Hc Hv. unfold bus_fits. rewrite Hc. exact Hv. Qed.

Lemma bus_fits8_inv c v : (bus_field (mkPod 0 1) false c).2 = 8 -> bus_fits c v -> in_u64 v.
Proof. intros Hc Hv. unfold bus_fits in Hv. rewrite Hc in Hv. exact Hv. Qed.

Lemma state_word_u64 c : in_u64 (Z.lor STATE_ACTIVE (Z.land c VALUE_MASK)).
Proof.
  rewrite <- (Z.land_diag VALUE_MASK), Z.land_assoc, active_word by apply value_range.
  pose proof (value_range c). unfold in_u64, STATE_ACTIVE. lia.
Qed.

Lemma rb_clock (valid : bcell -> Prop) : robust valid bus_fits bus_now_micros (fun _ => True).
Proof. unfold bus_now_micros. eapply rb_bind; [apply rb_now|]. intros t _. by apply rb_ret. Qed.

Section BusSafety.
Context (T : Pod) (bounded : bool) (rs : Z).
Hypothesis (Hsz : 0 <= size_of T) (Hrs : is_power_of_two rs = true).

Local Abbreviation robust := (robust (bus_valid T bounded rs) bus_fits).

Lemma rb_bus_load c : bus_valid T bounded rs c -> robust (load c) (bus_fits c).
Proof. apply rb_load. Qed.

Lemma rb_bus_store8 c v :
  bus_valid T bounded rs c -> (bus_field (mkPod 0 1) false c).2 = 8 -> in_u64 v ->
  robust (store c v) (fun _ => True).
Proof. intros Hc H8 Hv. apply rb_store; [done|]. by apply bus_fits8. Qed.

Lemma rb_bus_now : robust bus_now_micros (fun o => forall v, o = Ok v -> in_u64 v).
Proof.
  unfold bus_now_micros. eapply rb_bind; [apply rb_now|]. intros [ns|] _; apply rb_ret; [|done].
  intros v [= <-]. apply wrap64_range.
Qed.

Lemma idx_range q : in_u64 q -> 0 <= Z.land q (rs - 1) < rs.
Proof. intros Hq. rewrite land_mask by done. apply Z.mod_pos_bound. by apply is_power_of_two_pos. Qed.

(** The handle of a subscriber of this file. *)
Definition bus_sub_ok (s : BusSubscriber) : Prop :=
  bs_type s = T /\ bs_mask s = rs - 1 /\ bs_ring_size s = rs /\ in_u64 (bs_cursor s) /\
  forall i, bs_slot_index s = Some i -> bounded = true /\ 0 <= i < MAX_SUBSCRIBER_SLOTS.

Lemma bus_sub_ok_with s c lag : bus_sub_ok s -> in_u64 c -> bus_sub_ok (with_cursor s c lag).
Proof. intros (H1 & H2 & H3 & H4 & H5) Hc. by repeat (split; [done|]). Qed.

Lemma rb_load_value i j n :
  0 <= i < rs -> 0 <= j -> j + Z.of_nat n <= size_of T -> robust (load_value i j n) (fun _ => True).
Proof.
  revert j. induction n as [|n IH]; intros j Hi Hj Hn; cbn [load_value]; [by apply rb_ret|].
  eapply rb_bind; [apply rb_bus_load; cbn; lia|]. intros v _.
  eapply rb_bind; [apply IH; lia|]. intros rest _. by apply rb_ret.
Qed.

Lemma rb_update_cursor s c : bus_sub_ok s -> robust (update_shm_cursor s c) (fun _ => True).
Proof.
  intros (_ & _ & _ & _ & H5). unfold update_shm_cursor. destruct (bs_slot_index s) as [i|]; [|by apply rb_ret].
  apply rb_bus_store8; [by apply H5|done|apply state_word_u64].
Qed.

Lemma rb_accept_value s sb v :
  bus_sub_ok s -> in_u64 sb -> 0 < sb -> Z.land sb 1 = 0 ->
  robust (accept_value s sb v) (fun x => bus_sub_ok x.1).
Proof.
  intros Hs Hsb H0 He. unfold accept_value. cbv zeta. destruct (negb _).
  - apply rb_ret. apply bus_sub_ok_with; [done|]. unfold in_u64 in *.
    change 1 with (Z.ones 1) in He. rewrite Z.land_ones in He by lia. change (2 ^ 1) with 2 in He.
    Z.div_mod_to_equations. lia.
  - assert (Hs2 : bus_sub_ok (with_cursor s (wrap64 (bs_cursor s + 1)) (bs_total_lagged s)))
      by (apply bus_sub_ok_with; [done|apply wrap64_range]).
    eapply rb_bind; [by apply rb_update_cursor|]. intros _ _. by apply rb_ret.
Qed.

Lemma rb_bus_try_recv s : bus_sub_ok s -> robust (bus_try_recv s) (fun x => bus_sub_ok x.1).
Proof.
  intros Hs. unfold bus_try_recv. eapply rb_bind; [by apply rb_bus_load|]. intros head Hh.
  apply bus_fits8_inv in Hh; [|done]. destruct (_ <=? _); [by apply rb_ret|].
  assert (Hs1 : bus_sub_ok (skip_ahead s head)).
  { unfold skip_ahead. destruct (_ <? _); [|done]. apply bus_sub_ok_with; [done|apply wrap64_range]. }
  revert Hs1. generalize (skip_ahead s head). clear Hs. intros s1 Hs1.
  pose proof Hs1 as (HT & Hm & _ & Hc & _). unfold read_slot. rewrite HT, Hm.
  pose proof (idx_range _ Hc) as Hi. set (idx := Z.land (bs_cursor s1) (rs - 1)) in *.
  eapply rb_bind; [by apply rb_bus_load|]. intros sb Hsb. apply bus_fits8_inv in Hsb; [|done].
  destruct (Z.eqb_spec (Z.land sb 1) 0) as [He|]; cbn [negb]; [|by apply rb_ret].
  destruct (Z.eqb_spec sb 0); [by apply rb_ret|].
  eapply rb_bind; [apply rb_load_value; [done|lia|lia]|]. intros v _.
  eapply rb_bind; [by apply rb_bus_load|]. intros sa _. destruct (negb _); [by apply rb_ret|].
  apply rb_accept_value; [done|done|unfold in_u64 in Hsb; lia|done].
Qed.

Lemma rb_bus_receiver n s got : bus_sub_ok s -> robust (bus_receiver n s got) (fun _ => True).
Proof.
  revert s got. induction n as [|n IH]; intros s got Hs; cbn [bus_receiver]; [by apply rb_ret|].
  eapply rb_bind; [by apply rb_bus_try_recv|]. intros [s' [v|]] Hs'; by apply IH.
Qed.

Lemma rb_bus_drop s : bus_sub_ok s -> robust (bus_subscriber_drop s) (fun _ => True).
Proof.
  intros (_ & _ & _ & _ & H5). unfold bus_subscriber_drop. destruct (bs_slot_index s) as [i|]; [|by apply rb_ret].
  eapply rb_bind; [apply rb_bus_store8; [by apply H5|done|done]|]. intros _ _.
  apply rb_store; [by apply H5|done].
Qed.

(** Receiving and leaving, after a successful connect. *)
Definition bus_session (n : nat) (s : BusSubscriber) : prog bcell bus_out :=
  let* out := bus_receiver n s [] in
  bus_subscriber_drop s ;;;
  Ret out.

Lemma rb_bus_session n s : bus_sub_ok s -> robust (bus_session n s) (fun _ => True).
Proof.
  intros Hs. unfold bus_session. eapply rb_bind; [by apply rb_bus_receiver|]. intros out _.
  eapply rb_bind; [by apply rb_bus_drop|]. intros _ _. by apply rb_ret.
Qed.

End BusSafety.

(** ** Connecting *)

Definition sub_bounded (s : BusSubscriber) : bool :=
  match bs_slot_index s with Some _ => true | None => false end.

(** What the checks of [connect] establish. *)
Definition connect_ok (T : Pod) (len : Z) (s : BusSubscriber) : Prop :=
  exists rs, is_power_of_two rs = true /\ ring_offset (sub_bounded s) + rs * slot_size T <= len /\
    bus_sub_ok T (sub_bounded s) rs s.

Lemma bus_validate_ok T len bounded rs vs va :
  in_u32 rs -> in_u32 vs -> bus_validate T len (version_of bounded) rs vs va = Ok tt ->
  is_power_of_two rs = true /\ 0 <= size_of T < 2 ^ 32 /\ ring_offset bounded + rs * slot_size T <= len.
Proof.
  intros Hrs Hvs. unfold bus_validate. destruct (Z.eqb_spec rs 0); [done|].
  destruct (is_power_of_two rs) eqn:Hp; cbn [orb negb]; [|done].
  destruct (Z.eqb_spec vs (size_of T)) as [->|]; cbn [negb]; [|done].
  destruct (negb _); [done|]. unfold in_u32 in *. rewrite region_size_exact by (done || lia).
  destruct (Z.ltb_spec len (ring_offset bounded + rs * slot_size T)); done.
Qed.

Section Connect.
Context (T : Pod) (pid len : Z).
Hypothesis (Hsz : 0 <= size_of T) (Hpid : in_u32 pid).
Local Abbreviation robust := (robust (bus_in_file T true len) bus_fits).

Lemma header_in_file c :
  POD_BUS_HEADER_SIZE <= len ->
  match c with SSPid _ | SSState _ | Stamp _ | Data _ _ => False | _ => True end -> bus_in_file T true len c.
Proof. unfold POD_BUS_HEADER_SIZE. intros Hl. unfold bus_in_file. destruct c; cbn; intros; done || lia. Qed.

Lemma rb_claim cur :
  ring_offset true <= len ->
  robust (claim_subscriber_slot cur pid) (fun r => forall i, r = Ok i -> 0 <= i < MAX_SUBSCRIBER_SLOTS).
Proof.
  intros Hl. apply rb_for_return; [|by apply rb_ret]. intros i Hi%elem_of_seqZ_0. unfold claim_slot_at.
  assert (Hv : bus_in_file T true len (SSPid i) /\ bus_in_file T true len (SSState i)).
  { unfold bus_in_file. cbn. unfold ring_offset, POD_BUS_HEADER_SIZE, SUBSCRIBER_SLOTS_SECTION_SIZE,
      MAX_SUBSCRIBER_SLOTS, SUBSCRIBER_SLOT_SIZE in *. lia. }
  eapply rb_bind; [apply rb_clock|]. intros now _. cbv zeta.
  eapply rb_bind.
  - apply rb_cas; [apply Hv|]. apply bus_fits8; [done|].
    set (x := match now with Ok v => v | Err _ => 0 end). change STATE_CLAIMING with (Z.shiftl 2 62).
    pose proof (value_range x). rewrite lor_shiftl_add by lia. unfold in_u64. lia.
  - intros [ok v] _. destruct ok; [|by apply rb_ret].
    eapply rb_bind; [apply rb_store; [apply Hv|exact Hpid]|]. intros _ _.
    eapply rb_bind; [apply rb_store; [apply Hv|apply bus_fits8; [done|apply state_word_u64]]|]. intros _ _.
    apply rb_ret. intros b [= <-] i' [= <-]. done.
Qed.

Lemma rb_connect name :
  robust (bus_connect T pid len name) (fun res => forall s, res = Ok s -> connect_ok T len s).
Proof.
  unfold bus_connect. destruct (validate_name name); [|by apply rb_ret].
  destruct (check_alignment T); [|by apply rb_ret].
  destruct (Z.ltb_spec len POD_BUS_HEADER_SIZE) as [|Hl]; [by apply rb_ret|].
  eapply rb_bind; [apply rb_load; by apply header_in_file|]. intros magic _. destruct (negb _); [by apply rb_ret|].
  eapply rb_bind; [apply rb_load; by apply header_in_file|]. intros ver _.
  destruct (_ =? _); [by apply rb_ret|]. destruct (_ && _) eqn:Hver; [by apply rb_ret|].
  eapply rb_bind; [apply rb_load; by apply header_in_file|]. intros rs Hrs.
  eapply rb_bind; [apply rb_load; by apply header_in_file|]. intros vs Hvs.
  eapply rb_bind; [apply rb_load; by apply header_in_file|]. intros va _.
  assert (Hv : ver = version_of (ver =? POD_BUS_VERSION_V3)).
  { destruct (Z.eqb_spec ver POD_BUS_VERSION_V3) as [E|E]; [exact E|].
    destruct (Z.eqb_spec ver POD_BUS_VERSION_V1) as [E'|E']; [exact E'|done]. }
  destruct (bus_validate T len ver rs vs va) as [[]|e] eqn:Hval; [|by apply rb_ret].
  rewrite Hv in Hval. apply bus_validate_ok in Hval as (Hp & _ & Hlen); [|done|done].
  clear Hv Hver. generalize dependent (ver =? POD_BUS_VERSION_V3). intros bounded Hlen.
  eapply rb_bind; [apply rb_load; by apply header_in_file|]. intros hb _.
  eapply rb_bind; [apply rb_clock|]. intros [now|e] _; [|by apply rb_ret].
  destruct (_ <? _); [by apply rb_ret|].
  eapply rb_bind; [apply rb_load; by apply header_in_file|]. intros cur Hcur.
  apply bus_fits8_inv in Hcur; [|done].
  apply rb_bind with (P := fun o => forall si, o = Ok si ->
    match si with Some i => bounded = true /\ 0 <= i < MAX_SUBSCRIBER_SLOTS | None => bounded = false end).
  - destruct bounded; [|by apply rb_ret; intros si [= <-]].
    eapply rb_bind; [apply rb_claim; pose proof (slot_size_ge T Hsz); pose proof (is_power_of_two_pos _ Hp); nia|].
    intros [i|e] Hi; apply rb_ret; [|done]. intros si [= <-]. split; [done|by apply Hi].
  - intros [si|e] Hsi; apply rb_ret; [|done]. intros s [= <-]. specialize (Hsi si eq_refl).
    exists rs. unfold sub_bounded. cbn. destruct si as [i|]; [destruct Hsi as [-> Hi]|subst bounded].
    + split; [done|]. split; [done|]. do 4 (split; [done|]). by intros ? [= <-].
    + split; [done|]. split; [done|]. by do 4 (split; [done|]).
Qed.

End Connect.

(** C7. A bus subscriber is memory safe on a hostile file: connecting to a file of any
    length and contents reads and writes only inside it, and if the file is accepted
    then receiving any number of times and leaving access only bytes of the file, even
    if other processes change any shared word between two accesses. *)
Theorem bus_hostile_subscriber T pid len name n :
  0 <= size_of T -> in_u32 pid ->
  safe (bus_in_file T true len) bus_fits (bus_connect T pid len name) /\
  returns bus_fits (bus_connect T pid len name) (fun res =>
    forall s, res = Ok s -> safe (bus_in_file T (sub_bounded s) len) bus_fits (bus_session n s)).
Proof.
  intros Hsz Hpid. destruct (rb_connect T pid len Hsz Hpid name) as [Hs Hr]. split; [done|].
  eapply returns_weaken; [exact Hr|]. intros res Hres s Hok.
  destruct (Hres s Hok) as (rs & Hp & Hlen & Hsub). pose proof (is_power_of_two_pos _ Hp).
  eapply safe_mono; [intros c; by eapply bus_valid_in_file|]. by eapply rb_bus_session.
Qed.

Lemma bus_hostile_subscriber_witness :
  safe (bus_in_file (mkPod 2 1) true 1216) bus_fits (bus_connect (mkPod 2 1) 10 1216 [98]) /\
  returns bus_fits (bus_connect (mkPod 2 1) 10 1216 [98]) (fun res =>
    forall s, res = Ok s -> safe (bus_in_file (mkPod 2 1) (sub_bounded s) 1216) bus_fits (bus_session 3 s)).
Proof. apply (bus_hostile_subscriber (mkPod 2 1) 10 1216 [98] 3); [cbn; lia|unfold in_u32; lia]. Defined.

(** ** Publisher *)

Section BusPublisher.
Context (T : Pod) (bounded : bool) (rs : Z) (os : os_process).
Hypothesis (Hsz : 0 <= size_of T < 2 ^ 32) (Hrs : is_power_of_two rs = true) (Hrs32 : rs < 2 ^ 32).

Local Abbreviation robust := (robust (bus_valid T bounded rs) bus_fits).

Definition bus_pub_ok (b : PodBus) : Prop :=
  bus_mask b = rs - 1 /\ (bus_has_slots b = true -> bounded = true).

(** A value of the type. *)
Definition bus_value_ok (v : bytes) : Prop := bytes_ok v /\ blen v = size_of T.
Definition bus_cmd_ok (c : bus_cmd) : Prop :=
  match c with BPublish v | BTryPublish v => bus_value_ok v | BHeartbeat => True end.

Lemma rb_store_value i j v :
  0 <= i < rs -> 0 <= j -> bytes_ok v -> j + blen v <= size_of T ->
  robust (store_value i j v) (fun _ => True).
Proof.
  revert j. induction v as [|x v IH]; intros j Hi Hj Hb Hl; cbn [store_value]; [by apply rb_ret|].
  apply Forall_cons in Hb as [Hx Hb]. unfold blen in *. cbn [length] in Hl.
  eapply rb_bind; [apply rb_store; [cbn; lia|exact Hx]|]. intros _ _. apply IH; [done|lia|done|lia].
Qed.

Lemma rb_touch : robust bus_touch (fun _ => True).
Proof.
  unfold bus_touch. eapply rb_bind; [apply rb_bus_now|]. intros [now|e] Hn; [|by apply rb_ret].
  apply rb_bus_store8; [done|done|by apply Hn].
Qed.

Lemma rb_publish_unchecked b v :
  bus_pub_ok b -> bus_value_ok v -> robust (publish_unchecked b v) (fun _ => True).
Proof.
  intros [Hm _] [Hb Hl]. unfold publish_unchecked. rewrite Hm.
  eapply rb_bind; [by apply rb_bus_load|]. intros ws Hws. apply bus_fits8_inv in Hws; [|done].
  pose proof (idx_range rs Hrs ws Hws) as Hi. set (idx := Z.land ws (rs - 1)) in *.
  eapply rb_bind with (P := fun _ => True); [destruct (_ =? 0); [apply rb_touch|by apply rb_ret]|]. intros _ _.
  eapply rb_bind; [apply rb_bus_store8; [done|done|apply wrap64_range]|]. intros _ _.
  eapply rb_bind; [apply rb_store_value; [done|lia|done|lia]|]. intros _ _.
  eapply rb_bind; [apply rb_bus_store8; [done|done|apply wrap64_range]|]. intros _ _.
  apply rb_bus_store8; [done|done|apply wrap64_range].
Qed.

Lemma rb_scan_slot acc i :
  bounded = true -> 0 <= i < MAX_SUBSCRIBER_SLOTS -> robust (scan_slot os acc i) (fun _ => True).
Proof.
  intros Hb Hi. unfold scan_slot. eapply rb_bind; [by apply rb_bus_load|]. intros packed _. cbv zeta.
  assert (Hfree : forall a : Z * bool, robust (store (SSPid i) 0 ;;; Ret a) (fun _ => True)).
  { intros a. eapply rb_bind; [by apply rb_store|]. intros _ _. by apply rb_ret. }
  destruct (_ =? STATE_CLAIMING).
  - eapply rb_bind; [apply rb_clock|]. intros [now|e] _; [|by apply rb_ret].
    destruct (_ <? _); [|by apply rb_ret]. eapply rb_bind; [apply rb_cas; [done|by apply bus_fits8]|].
    intros [ok v] _. destruct ok; [apply Hfree|by apply rb_ret].
  - destruct (_ =? STATE_ACTIVE); [|by apply rb_ret].
    eapply rb_bind; [by apply rb_bus_load|]. intros pid _.
    eapply rb_bind with (P := fun _ => True); [destruct (pid =? 0); by split|]. intros dead _.
    destruct dead; [|by apply rb_ret].
    eapply rb_bind; [by apply rb_bus_store8|]. intros _ _. apply Hfree.
Qed.

Lemma rb_slowest b : bus_pub_ok b -> robust (slowest_subscriber_cursor os b) (fun _ => True).
Proof.
  intros [_ Hb]. unfold slowest_subscriber_cursor. destruct (bus_has_slots b); cbn [negb]; [|by apply rb_ret].
  assert (Hall : forall l acc, (forall i, i ∈ l -> 0 <= i < MAX_SUBSCRIBER_SLOTS) ->
    robust (scan_all os l acc) (fun _ => True)).
  { induction l as [|i l IH]; intros acc Hl; cbn [scan_all]; [by apply rb_ret|].
    eapply rb_bind; [apply rb_scan_slot; [by apply Hb|apply Hl; set_solver]|]. intros acc' _.
    apply IH. set_solver. }
  eapply rb_bind; [apply Hall; intros i; by apply elem_of_seqZ_0|]. intros [mn ha] _. by apply rb_ret.
Qed.

Lemma rb_try_publish b v :
  bus_pub_ok b -> bus_value_ok v -> robust (try_publish os b v) (fun x => bus_pub_ok x.1).
Proof.
  intros Hb Hv. unfold try_publish.
  assert (Hpub : forall b', bus_pub_ok b' ->
    robust (publish_unchecked b' v ;;; Ret (b', Ok tt : result unit Error)) (fun x => bus_pub_ok x.1)).
  { intros b' Hb'. eapply rb_bind; [by apply rb_publish_unchecked|]. intros _ _. by apply rb_ret. }
  destruct (bus_watermark b) as [wm|]; [|by apply Hpub].
  eapply rb_bind; [by apply rb_bus_load|]. intros ws _. cbv zeta. destruct (_ <=? _); [|by apply Hpub].
  eapply rb_bind; [by apply rb_slowest|]. intros [c|] _; [|by apply Hpub].
  destruct (_ <=? _); [by apply rb_ret|by apply Hpub].
Qed.

Lemma rb_publish_spin fuel b v spins :
  bus_pub_ok b -> bus_value_ok v -> robust (publish_spin os fuel b v spins) bus_pub_ok.
Proof.
  revert b spins. induction fuel as [|fuel IH]; intros b spins Hb Hv; cbn [publish_spin]; [done|].
  eapply rb_bind; [by apply rb_try_publish|]. intros [b' [u|e]] Hb'; [by apply rb_ret|]. cbv zeta.
  eapply rb_bind with (P := fun _ => True); [destruct (_ =? 0); [apply rb_touch|by apply rb_ret]|].
  intros _ _. by apply IH.
Qed.

Lemma rb_bus_publisher fuel cmds b acc :
  bus_pub_ok b -> Forall bus_cmd_ok cmds -> robust (bus_publisher os fuel cmds b acc) (fun _ => True).
Proof.
  intros Hb Hc. revert b acc Hb.
  induction Hc as [|[v|v|] cmds Hv Hc IH]; intros b acc Hb; cbn [bus_publisher]; [by apply rb_ret| | |].
  - eapply rb_bind with (P := bus_pub_ok); [|by intros b'; apply IH]. unfold bus_publish.
    destruct (bus_watermark b); [by apply rb_publish_spin|].
    eapply rb_bind; [by apply rb_publish_unchecked|]. intros _ _. by apply rb_ret.
  - eapply rb_bind; [by apply rb_try_publish|]. intros [b' [u|e]] Hb'; by apply IH.
  - eapply rb_bind with (P := fun _ => True); [|intros _ _; by apply IH]. unfold bus_heartbeat.
    eapply rb_bind; [apply rb_bus_now|]. intros [now|e] Hn; [|by apply rb_ret].
    eapply rb_bind; [apply rb_bus_store8; [done|done|by apply Hn]|]. intros _ _. by apply rb_ret.
Qed.

Lemma rb_header_store c v :
  match c with SSPid _ | SSState _ | Stamp _ | Data _ _ => False | _ => True end ->
  bus_fits c v -> robust (store c v) (fun _ => True).
Proof. intros Hc Hv. apply rb_store; [by destruct c|done]. Qed.

Lemma rb_create pid name wm :
  in_u64 pid -> (wm <> None -> bounded = true) ->
  robust (bus_create_inner T pid name rs wm) (fun res => forall b, res = Ok b -> bus_pub_ok b).
Proof.
  intros Hpid Hw. unfold bus_create_inner. destruct (negb _); [done|].
  destruct (validate_name name); [|by apply rb_ret]. destruct (check_alignment T); [|by apply rb_ret]. cbv zeta.
  eapply rb_bind; [by apply rb_header_store|]; intros _ _.
  eapply rb_bind; [by apply rb_header_store; [|destruct wm]|]; intros _ _.
  do 3 (eapply rb_bind; [apply rb_header_store; [done|apply wrap32_range]|]; intros _ _).
  eapply rb_bind; [by apply rb_header_store|]; intros _ _.
  eapply rb_bind; [by apply rb_header_store|]; intros _ _.
  eapply rb_bind; [apply rb_header_store; [done|apply wrap32_range]|]; intros _ _.
  eapply rb_bind with (P := fun _ => True).
  { destruct wm as [x|]; [|by apply rb_ret]. apply rb_for_each. intros i Hi%elem_of_seqZ_0.
    assert (Hb : bounded = true) by by apply Hw.
    eapply rb_bind; [by apply rb_store|]. intros _ _. by apply rb_store. }
  intros _ _. eapply rb_bind; [apply rb_for_each; intros i Hi%elem_of_seqZ_0; by apply rb_store|]. intros _ _.
  eapply rb_bind; [apply rb_bus_now|]. intros [now|e] Hn; [|by apply rb_ret].
  eapply rb_bind; [apply rb_bus_store8; [done|done|by apply Hn]|]. intros _ _.
  apply rb_ret. intros b [= <-]. split; [done|]. cbn. destruct wm; [intros _; by apply Hw|done].
Qed.

End BusPublisher.

(** C8. The publisher of a bus is memory safe against hostile subscribers: creating the
    bus in a file of the size the code computes, and then publishing values of the type
    (blocking or not), scanning and reclaiming cursor words and refreshing the
    heartbeat, access only bytes of the file, whatever other processes write into the
    shared words. *)
Theorem bus_hostile_publisher T pid name rs wm os fuel cmds :
  let bounded := match wm with Some _ => true | None => false end in
  let len := region_size_for_version T rs (version_of bounded) in
  0 <= size_of T < 2 ^ 32 -> is_power_of_two rs = true -> rs < 2 ^ 32 -> in_u64 pid ->
  Forall (bus_cmd_ok T) cmds ->
  safe (bus_in_file T bounded len) bus_fits (bus_create_inner T pid name rs wm) /\
  returns bus_fits (bus_create_inner T pid name rs wm) (fun res =>
    forall b, res = Ok b -> safe (bus_in_file T bounded len) bus_fits (bus_publisher os fuel cmds b [])).
Proof.
  intros bounded len Hsz Hrs Hrs32 Hpid Hc. pose proof (is_power_of_two_pos _ Hrs).
  assert (Hin : forall c, bus_valid T bounded rs c -> bus_in_file T bounded len c).
  { intros c. apply bus_valid_in_file; [lia|done|]. unfold len. rewrite region_size_exact by done. done. }
  destruct (rb_create T bounded rs pid name wm Hpid) as [Hs Hr]; [by destruct wm|]. split.
  - eapply safe_mono; [exact Hin|exact Hs].
  - eapply returns_weaken; [exact Hr|]. intros res Hres b Hb. eapply safe_mono; [exact Hin|].
    eapply rb_bus_publisher; [done..|by apply Hres|done].
Qed.

Lemma bus_hostile_publisher_witness :
  safe (bus_in_file (mkPod 2 1) true 1216) bus_fits (bus_create_inner (mkPod 2 1) 9 [98] 2 (Some 1)).
Proof.
  refine (proj1 (bus_hostile_publisher (mkPod 2 1) 9 [98] 2 (Some 1) (WindowsProcess (fun _ _ _ pid => pid)) 3
    [BPublish [1; 2]; BHeartbeat; BTryPublish [3; 4]] _ _ _ _ _)).
  - cbn. lia.
  - reflexivity.
  - reflexivity.
  - unfold in_u64. lia.
  - repeat constructor; cbn; unfold in_u8; lia.
Defined.
