(* ===== verification/Registry.v ===== *)
(** * Registry: the discovery registry (src/src/platform/registry.rs)

    A shared file of 256 fixed-size entries in which publishers announce their
    topics. The cells are the fields of the file; the fixed-size strings are cells
    of one byte. [from_utf8_lossy] is the standard library's conversion. *)

From S2P Require Import Prelude Errors Layout Atomics.

(** ** Layout *)

(** [XREG_ZC\0]. *)
Definition REG_MAGIC : bytes := [88; 82; 69; 71; 95; 90; 67; 0].
Definition REG_VERSION : Z := 1.
Definition REG_HEADER_SIZE : Z := 64.
Definition REG_ENTRY_SIZE : Z := 128.
Definition REG_MAX_ENTRIES : Z := 256.
Definition REG_TOTAL_SIZE : Z := REG_HEADER_SIZE + REG_MAX_ENTRIES * REG_ENTRY_SIZE.
Definition RE_REGION_NAME_MAX : nat := 48.
Definition RE_TOPIC_URI_MAX : nat := 64.
Definition RE_STATE_FREE : Z := 0.
Definition RE_STATE_ACTIVE : Z := 1.

Inductive rcell : Type :=
| RHMagic | RHVersion | RHEntryCount | RHMaxEntries
| REActive (i : Z) | REPid (i : Z) | RETimestamp (i : Z)
| RERegionName (i j : Z) | RETopicUri (i j : Z).

#[export] Instance rcell_eq_dec : EqDecision rcell.
Proof. solve_decision. Defined.

(** Byte offset and width of a field. *)
Definition entry_ptr (i : Z) : Z := REG_HEADER_SIZE + i * REG_ENTRY_SIZE.

Definition reg_field (c : rcell) : Z * Z :=
  match c with
  | RHMagic => (0, 8)
  | RHVersion => (8, 4)
  | RHEntryCount => (12, 4)
  | RHMaxEntries => (16, 4)
  | REActive i => (entry_ptr i, 4)
  | REPid i => (entry_ptr i + 4, 4)
  | RETimestamp i => (entry_ptr i + 8, 8)
  | RERegionName i j => (entry_ptr i + 16 + j, 1)
  | RETopicUri i j => (entry_ptr i + 64 + j, 1)
  end.

Record DiscoveredTopic : Type := mkDiscovered {
  dt_region : bytes;
  dt_uri : bytes;
  dt_pid : Z;
  dt_timestamp_us : Z
}.

#[export] Instance DiscoveredTopic_eq_dec : EqDecision DiscoveredTopic.
Proof. solve_decision. Defined.

(** ** UTF-8 *)

Definition between (lo x hi : Z) : bool := (lo <=? x) && (x <=? hi).
Definition is_cont (x : Z) : bool := between 0x80 x 0xBF.

(** The second bytes allowed after a leading byte of a sequence of three or four. *)
Definition second3 (b x : Z) : bool :=
  (b =? 0xE0) && between 0xA0 x 0xBF || between 0xE1 b 0xEC && is_cont x ||
  (b =? 0xED) && between 0x80 x 0x9F || between 0xEE b 0xEF && is_cont x.
Definition second4 (b x : Z) : bool :=
  (b =? 0xF0) && between 0x90 x 0xBF || between 0xF1 b 0xF3 && is_cont x ||
  (b =? 0xF4) && between 0x80 x 0x8F.

(** The next chunk: how many bytes it has, and whether they are a character. *)
Definition utf8_chunk (b : Z) (rest : bytes) : nat * bool :=
  if b <? 0x80 then (1%nat, true)
  else if between 0xC2 b 0xDF then
    match rest with
    | x :: _ => if is_cont x then (2%nat, true) else (1%nat, false)
    | [] => (1%nat, false)
    end
  else if between 0xE0 b 0xEF then
    match rest with
    | x :: rest' =>
        if second3 b x then
          match rest' with
          | y :: _ => if is_cont y then (3%nat, true) else (2%nat, false)
          | [] => (2%nat, false)
          end
        else (1%nat, false)
    | [] => (1%nat, false)
    end
  else if between 0xF0 b 0xF4 then
    match rest with
    | x :: rest' =>
        if second4 b x then
          match rest' with
          | y :: rest'' =>
              if is_cont y then
                match rest'' with
                | z :: _ => if is_cont z then (4%nat, true) else (3%nat, false)
                | [] => (3%nat, false)
                end
              else (2%nat, false)
          | [] => (2%nat, false)
          end
        else (1%nat, false)
    | [] => (1%nat, false)
    end
  else (1%nat, false).

(** U+FFFD. *)
Definition REPLACEMENT : bytes := [0xEF; 0xBF; 0xBD].

(** Every ill-formed chunk is replaced; [fuel] is at least the number of bytes. *)
Fixpoint lossy (fuel : nat) (bs : bytes) : bytes :=
  match fuel, bs with
  | S fuel', b :: rest =>
      let '(n, ok) := utf8_chunk b rest in
      (if ok then take n bs else REPLACEMENT) ++ lossy fuel' (drop n bs)
  | _, _ => []
  end.

Definition from_utf8_lossy (bs : bytes) : bytes := lossy (length bs) bs.

(** What a [&str] holds. *)
Fixpoint utf8_ok_from (fuel : nat) (bs : bytes) : bool :=
  match fuel, bs with
  | _, [] => true
  | O, _ => false
  | S fuel', b :: rest =>
      let '(n, ok) := utf8_chunk b rest in ok && utf8_ok_from fuel' (drop n bs)
  end.
Definition utf8_ok (bs : bytes) : bool := utf8_ok_from (length bs) bs.

(** ** Fixed-size strings *)

Fixpoint fixed_len (c : Z -> rcell) (len : Z) (n : nat) : prog rcell Z :=
  match n with
  | O => Ret len
  | S n' =>
      let* b := load (c len) in
      if b =? 0 then Ret len else fixed_len c (len + 1) n'
  end.

Fixpoint load_bytes (c : Z -> rcell) (i : Z) (n : nat) : prog rcell bytes :=
  match n with
  | O => Ret []
  | S n' =>
      let* b := load (c i) in
      let* rest := load_bytes c (i + 1) n' in
      Ret (b :: rest)
  end.

Fixpoint store_bytes (c : Z -> rcell) (i : Z) (bs : bytes) : prog rcell unit :=
  match bs with
  | [] => Ret tt
  | b :: bs' => store (c i) b ;;; store_bytes c (i + 1) bs'
  end.

Definition read_fixed_str (c : Z -> rcell) (max_len : nat) : prog rcell bytes :=
  let* len := fixed_len c 0 max_len in
  let* slice := load_bytes c 0 (Z.to_nat len) in
  Ret (from_utf8_lossy slice).

Definition write_fixed_str (c : Z -> rcell) (s : bytes) (max_len : nat) : prog rcell unit :=
  let copy_len := Nat.min (length s) (max_len - 1) in
  store_bytes c 0 (take copy_len s) ;;;
  store (c (Z.of_nat copy_len)) 0 ;;;
  if (copy_len + 1 <? max_len)%nat
  then store_bytes c (Z.of_nat copy_len + 1) (repeat 0 (max_len - copy_len - 1))
  else Ret tt.

(** ** Operations *)

Definition reg_now_micros : prog rcell (option Z) :=
  let* t := system_now in
  Ret (match t with Some ns => Some (wrap64 (duration_as_micros ns)) | None => None end).

(** The checks of [try_open_existing] on a file of [len] bytes, once it is open. *)
Definition try_open_existing (len : Z) : prog rcell (result unit Error) :=
  if len <? REG_TOTAL_SIZE then Ret (Err (InvalidRegion RegistryTooSmall))
  else
    let* magic := load RHMagic in
    if negb (magic =? le_decode REG_MAGIC) then Ret (Err (InvalidRegion BadMagic))
    else
      let* ver := load RHVersion in
      if negb (ver =? REG_VERSION) then Ret (Err (InvalidRegion (BadVersion ver)))
      else Ret (Ok tt).

(** The header [create_new] writes into the truncated, zero-filled file. *)
Definition create_new : prog rcell unit :=
  store RHMagic (le_decode REG_MAGIC) ;;;
  store RHVersion REG_VERSION ;;;
  store RHMaxEntries REG_MAX_ENTRIES.

(** ** Opening *)

(** The registry's file, its length and contents, if it exists. *)
Abbreviation reg_file := (option (Z * cellmem rcell)).

(** [try_open_existing] on the file there is. *)
Definition opens (file : reg_file) : bool :=
  match file with
  | None => false
  | Some (len, m) =>
      match (run (try_open_existing len) (mkWorld m None 0 [])).1 with Done (Ok _) => true | _ => false end
  end.

(** [open_at], one effect on the file at a time: look at the file there is; otherwise
    open it with [create] and [truncate], set its length, write its header. There is no
    lock. *)
Inductive open_stage : Type := Look | Truncate | SetLen | WriteHeader | Opened.

Definition open_step (stage : open_stage) (file : reg_file) : open_stage * reg_file :=
  match stage with
  | Look => (if opens file then Opened else Truncate, file)
  | Truncate => (SetLen, Some (0, fun _ => 0))
  | SetLen => (WriteHeader, option_map (fun '(_, m) => (REG_TOTAL_SIZE, m)) file)
  | WriteHeader =>
      (Opened, option_map (fun '(len, m) => (len, w_mem (run create_new (mkWorld m None 0 [])).2)) file)
  | Opened => (Opened, file)
  end.

(** [open_at] alone: the contents of the mapping. *)
Definition open_at (file : reg_file) : cellmem rcell :=
  if opens file then match file with Some (_, m) => m | None => fun _ => 0 end
  else w_mem (run create_new (mkWorld (fun _ => 0) None 0 [])).2.

Lemma open_at_steps file :
  exists n len, Nat.iter n (fun x => open_step x.1 x.2) (Look, file) = (Opened, Some (len, open_at file)).
Proof.
  unfold open_at. destruct (opens file) eqn:E.
  - destruct file as [[len m]|]; [|done]. exists 1%nat, len. cbn [Nat.iter nat_rect open_step fst snd]. by rewrite E.
  - exists 4%nat, REG_TOTAL_SIZE. cbn [Nat.iter nat_rect fst snd open_step]. by rewrite E.
Qed.

(** A [for i in 0..REG_MAX_ENTRIES]. *)
Definition entries : list Z := seqZ 0 REG_MAX_ENTRIES.

(** First loop of [register]: refresh the entry if it is there. *)
Definition find_registered (region uri : bytes) (pid ts i : Z) : prog rcell (option (result unit Error)) :=
  let* active := load (REActive i) in
  if negb (active =? RE_STATE_ACTIVE) then Ret None
  else
    let* existing_pid := load (REPid i) in
    if negb (existing_pid =? pid) then Ret None
    else
      let* existing_region := read_fixed_str (RERegionName i) RE_REGION_NAME_MAX in
      let* existing_uri := read_fixed_str (RETopicUri i) RE_TOPIC_URI_MAX in
      if bool_decide (existing_region = region) && bool_decide (existing_uri = uri)
      then store (RETimestamp i) ts ;;; Ret (Some (Ok tt))
      else Ret None.

(** Second loop: claim a free entry and fill it. *)
Definition claim_entry (region uri : bytes) (pid ts i : Z) : prog rcell (option (result unit Error)) :=
  let* (ok, _) := compare_exchange (REActive i) RE_STATE_FREE RE_STATE_ACTIVE in
  if ok : bool then
    store (REPid i) pid ;;;
    store (RETimestamp i) ts ;;;
    write_fixed_str (RERegionName i) region RE_REGION_NAME_MAX ;;;
    write_fixed_str (RETopicUri i) uri RE_TOPIC_URI_MAX ;;;
    fetch_add32 RHEntryCount 1 ;;;
    Ret (Some (Ok tt))
  else Ret None.

Definition reg_register (region uri : bytes) (pid : Z) : prog rcell (result unit Error) :=
  if (RE_REGION_NAME_MAX <=? length region)%nat || (RE_TOPIC_URI_MAX <=? length uri)%nat then Ret (Ok tt)
  else
    let* now := reg_now_micros in
    let ts := default 0 now in
    for_return entries (find_registered region uri pid ts)
      (for_return entries (claim_entry region uri pid ts) (Ret (Ok tt))).

(** Frees an active entry; only one process succeeds and decrements. *)
Definition free_entry (i : Z) : prog rcell unit :=
  let* (ok, _) := compare_exchange (REActive i) RE_STATE_ACTIVE RE_STATE_FREE in
  if ok : bool then
    let* prev := fetch_sub32 RHEntryCount 1 in
    if prev =? 0 then store RHEntryCount 0 else Ret tt
  else Ret tt.

Definition unregister_entry (region : bytes) (pid i : Z) : prog rcell unit :=
  let* active := load (REActive i) in
  if negb (active =? RE_STATE_ACTIVE) then Ret tt
  else
    let* existing_pid := load (REPid i) in
    if negb (existing_pid =? pid) then Ret tt
    else
      let* existing_region := read_fixed_str (RERegionName i) RE_REGION_NAME_MAX in
      if negb (bool_decide (existing_region = region)) then Ret tt
      else free_entry i.

Definition unregister (region : bytes) (pid : Z) : prog rcell unit :=
  for_each entries (unregister_entry region pid).

(** [strip_suffix('*')]: the prefix, and whether the pattern has a wildcard. *)
Definition split_pattern (pattern : bytes) : bytes * bool :=
  match last pattern with
  | Some x => if x =? 42 then (take (length pattern - 1) pattern, true) else (pattern, false)
  | None => (pattern, false)
  end.

Definition uri_matches (pattern uri : bytes) : bool :=
  let '(prefix, is_wildcard) := split_pattern pattern in
  if is_wildcard : bool then bool_decide (prefix `prefix_of` uri) else bool_decide (uri = pattern).

(** One iteration of [discover]. *)
Definition discover_entry (pattern : bytes) (i : Z) : prog rcell (option DiscoveredTopic) :=
  let* active := load (REActive i) in
  if negb (active =? RE_STATE_ACTIVE) then Ret None
  else
    let* uri := read_fixed_str (RETopicUri i) RE_TOPIC_URI_MAX in
    if uri_matches pattern uri then
      let* region := read_fixed_str (RERegionName i) RE_REGION_NAME_MAX in
      let* pid := load (REPid i) in
      let* timestamp_us := load (RETimestamp i) in
      Ret (Some (mkDiscovered region uri pid timestamp_us))
    else Ret None.

(** One iteration of [discover_since]. *)
Definition discover_since_entry (pattern : bytes) (since_us i : Z) : prog rcell (option DiscoveredTopic) :=
  let* active := load (REActive i) in
  if negb (active =? RE_STATE_ACTIVE) then Ret None
  else
    let* timestamp_us := load (RETimestamp i) in
    if timestamp_us <=? since_us then Ret None
    else
      let* uri := read_fixed_str (RETopicUri i) RE_TOPIC_URI_MAX in
      if uri_matches pattern uri then
        let* region := read_fixed_str (RERegionName i) RE_REGION_NAME_MAX in
        let* pid := load (REPid i) in
        Ret (Some (mkDiscovered region uri pid timestamp_us))
      else Ret None.

(** The loop that pushes the hits. *)
Fixpoint collect {A} (l : list Z) (body : Z -> prog rcell (option A)) (results : list A)
    : prog rcell (list A) :=
  match l with
  | [] => Ret results
  | i :: l' =>
      let* o := body i in
      collect l' body (match o with Some x => results ++ [x] | None => results end)
  end.

Definition discover (pattern : bytes) : prog rcell (list DiscoveredTopic) :=
  collect entries (discover_entry pattern) [].

Definition discover_since (pattern : bytes) (since_us : Z) : prog rcell (list DiscoveredTopic) :=
  collect entries (discover_since_entry pattern since_us) [].

Definition prune_entry (cutoff i : Z) : prog rcell unit :=
  let* active := load (REActive i) in
  if negb (active =? RE_STATE_ACTIVE) then Ret tt
  else
    let* ts := load (RETimestamp i) in
    if ts <? cutoff then free_entry i else Ret tt.

Definition prune_stale (stale_timeout : Z) : prog rcell unit :=
  let* now := reg_now_micros in
  match now with
  | None => Ret tt
  | Some now =>
      let cutoff := saturating_sub now (wrap64 (duration_as_micros stale_timeout)) in
      for_each entries (prune_entry cutoff)
  end.

(** [crossbar::discover] of lib.rs, on the open registry: entries older than 10
    seconds are pruned first. *)
Definition lib_discover (pattern : bytes) : prog rcell (list DiscoveredTopic) :=
  prune_stale (10 * 10 ^ 9) ;;;
  discover pattern.

(** A sample run: two publishers announce themselves, one leaves. *)
Example registry_demo :
  let m0 := open_at None in
  (run (reg_register [112] [47; 97] 7 ;;;
        reg_register [113] [47; 97; 98] 8 ;;;
        let* all := discover [47; 42] in
        unregister [112] 7 ;;;
        let* rest := discover [47; 42] in
        let* one := discover [47; 97] in
        Ret (all, rest, one)) (mkWorld m0 (Some 5000) 0 [])).1 =
  Done ([mkDiscovered [112] [47; 97] 7 5; mkDiscovered [113] [47; 97; 98] 8 5],
        [mkDiscovered [113] [47; 97; 98] 8 5], []).
Proof. vm_compute. reflexivity. Qed.
