(* ===== verification/RegistryProof.v ===== *)
(** * RegistryProof: the discovery registry refines a table of announcements

    The abstract registry is a table of 256 entries, each empty or an announced
    topic. Used by one process at a time, the code's operations on the shared bytes
    have exactly the results of the abstract operations; used by two at once, they
    do not, and the interleaving that shows it is executed at the end. *)

From S2P Require Import Prelude Errors Layout Atomics Rely Registry.

Local Abbreviation rworld := (world rcell (cellmem rcell)).

(** ** Strings *)

(** What a stored string is assumed to be: the bytes of a [&str] without NUL. *)
Definition str_ok (s : bytes) : Prop := utf8_ok s = true /\ Forall (fun b => b <> 0) s.

Lemma utf8_chunk_pos b rest : (1 <= (utf8_chunk b rest).1)%nat.
Proof.
  unfold utf8_chunk.
  repeat match goal with
  | |- context [if ?b then _ else _] => destruct b
  | |- context [match ?l with [] => _ | _ => _ end] => destruct l
  end; cbn; lia.
Qed.

(** Well-formed text is unchanged by the lossy conversion. *)
Lemma lossy_id fuel bs : utf8_ok_from fuel bs = true -> lossy fuel bs = bs.
Proof.
  revert bs. induction fuel as [|fuel IH]; intros [|b rest]; cbn; try done.
  destruct (utf8_chunk b rest) as [n ok] eqn:Hc. intros [-> Hr]%andb_true_iff.
  rewrite IH by done. apply (take_drop n (b :: rest)).
Qed.

Lemma from_utf8_lossy_id bs : utf8_ok bs = true -> from_utf8_lossy bs = bs.
Proof. apply lossy_id. Qed.

(** [s] is stored at the byte cells [c], NUL-terminated within [max]. *)
Definition fixed_repr (m : cellmem rcell) (c : Z -> rcell) (max : nat) (s : bytes) : Prop :=
  str_ok s /\ (length s < max)%nat /\ m (c (blen s)) = 0 /\
  forall j x, s !! j = Some x -> m (c (Z.of_nat j)) = x.

Lemma fixed_repr_frame m m' c max s :
  (forall j, m' (c j) = m (c j)) -> fixed_repr m c max s -> fixed_repr m' c max s.
Proof.
  intros Hf (H1 & H2 & H3 & H4). split; [done|]. split; [done|]. rewrite Hf. split; [done|].
  intros j x Hx. rewrite Hf. by apply H4.
Qed.

Lemma fixed_len_run c s k n (w : rworld) :
  Forall (fun b => b <> 0) s -> (length s < n)%nat -> w_mem w (c (k + blen s)) = 0 ->
  (forall j x, s !! j = Some x -> w_mem w (c (k + Z.of_nat j)) = x) ->
  run (fixed_len c k n) w = (Done (k + blen s), w).
Proof.
  revert k n. induction s as [|b s IH]; intros k [|n] Hnz Hn Hz Hs; cbn [length] in Hn; try lia;
    cbn [fixed_len]; run_simpl.
  - unfold blen in *. cbn in *. rewrite Z.add_0_r in *. by rewrite Hz.
  - apply Forall_cons in Hnz as [Hb Hnz]. pose proof (Hs 0%nat b eq_refl) as H0. cbn in H0.
    rewrite Z.add_0_r in H0. rewrite H0. destruct (Z.eqb_spec b 0); [done|].
    unfold blen in *. cbn [length] in *. replace (k + Z.of_nat (S (length s))) with (k + 1 + Z.of_nat (length s)) in * by lia.
    apply IH; [done|lia|done|]. intros j x Hx. rewrite <- (Hs (S j) x Hx). do 2 f_equal. lia.
Qed.

Lemma load_bytes_run c s k (w : rworld) :
  (forall j x, s !! j = Some x -> w_mem w (c (k + Z.of_nat j)) = x) ->
  run (load_bytes c k (length s)) w = (Done s, w).
Proof.
  revert k. induction s as [|b s IH]; intros k Hs; cbn [load_bytes length]; [done|]. run_simpl.
  pose proof (Hs 0%nat b eq_refl) as H0. cbn in H0. rewrite Z.add_0_r in H0. rewrite run_bind, IH.
  - cbn. by rewrite H0.
  - intros j x Hx. rewrite <- (Hs (S j) x Hx). do 2 f_equal. lia.
Qed.

Lemma read_fixed_run c max s (w : rworld) :
  fixed_repr (w_mem w) c max s -> run (read_fixed_str c max) w = (Done s, w).
Proof.
  intros ([Hu Hn] & Hl & Hz & Hs). unfold read_fixed_str. rewrite run_bind, (fixed_len_run c s) by done.
  rewrite run_bind. replace (Z.to_nat (0 + blen s)) with (length s) by (unfold blen; lia).
  rewrite load_bytes_run by done. cbn. by rewrite from_utf8_lossy_id.
Qed.

Lemma store_bytes_run c s k (w : rworld) :
  (forall j j', c j = c j' -> j = j') ->
  exists m', run (store_bytes c k s) w = (Done tt, set_mem w m') /\
    (forall j x, s !! j = Some x -> m' (c (k + Z.of_nat j)) = x) /\
    (forall x, (forall j, k <= j < k + blen s -> x <> c j) -> m' x = w_mem w x).
Proof.
  intros Hinj. revert k w. induction s as [|b s IH]; intros k w; cbn [store_bytes].
  { exists (w_mem w). split; [by destruct w|]. by split. }
  run_simpl. destruct (IH (k + 1) (set_mem w (upd (w_mem w) (c k) b))) as (m' & Hr & H1 & H2).
  exists m'. split; [exact Hr|]. cbn [w_mem set_mem] in H2. unfold blen in *. cbn [length].
  split.
  - intros [|j] x Hx; cbn in Hx.
    + injection Hx as <-. rewrite Z.add_0_r, H2, upd_eq; [done|]. intros j Hj He%Hinj. lia.
    + rewrite <- (H1 j x Hx). do 2 f_equal. lia.
  - intros x Hx. rewrite H2, upd_ne; [done| |].
    + intros He. apply (Hx k); [lia|done].
    + intros j Hj. apply Hx. lia.
Qed.

Lemma write_fixed_run c max s (w : rworld) :
  (forall j j', c j = c j' -> j = j') -> str_ok s -> (length s < max)%nat ->
  exists m', run (write_fixed_str c s max) w = (Done tt, set_mem w m') /\ fixed_repr m' c max s /\
    (forall x, (forall j, x <> c j) -> m' x = w_mem w x).
Proof.
  intros Hinj Hs Hl. unfold write_fixed_str. cbv zeta.
  replace (Nat.min (length s) (max - 1)) with (length s) by lia. rewrite firstn_all, run_bind.
  destruct (store_bytes_run c s 0 w Hinj) as (m1 & -> & A1 & A2). run_simpl.
  set (m2 := upd m1 (c (Z.of_nat (length s))) 0).
  assert (Hrep : fixed_repr m2 c max s).
  { split; [done|]. split; [done|]. unfold m2, blen. rewrite upd_eq. split; [done|].
    intros j x Hx. rewrite upd_ne; [by apply (A1 j x)|]. intros He%Hinj. apply lookup_lt_Some in Hx. lia. }
  assert (Hfr : forall x, (forall j, x <> c j) -> m2 x = w_mem w x).
  { intros x Hx. unfold m2. rewrite upd_ne by (intros ?; by apply (Hx (Z.of_nat (length s)))).
    apply A2. intros j _. apply Hx. }
  destruct (length s + 1 <? max)%nat; [|by exists m2].
  destruct (store_bytes_run c (repeat 0 (max - length s - 1)) (Z.of_nat (length s) + 1)
    (set_mem (set_mem w m1) m2) Hinj) as (m3 & Hr & B1 & B2).
  exists m3. split; [exact Hr|]. cbn [w_mem set_mem] in B2. split.
  - destruct Hrep as (R1 & R2 & R3 & R4). split; [done|]. split; [done|]. unfold blen in *. split.
    + rewrite B2; [done|]. intros j Hj He%Hinj. lia.
    + intros j x Hx. rewrite B2; [by apply R4|]. intros j' Hj' He%Hinj. apply lookup_lt_Some in Hx. lia.
  - intros x Hx. rewrite B2; [by apply Hfr|]. intros j _. apply Hx.
Qed.

(** ** Specification *)

Module RegSpec.

Definition table : Type := Z -> option DiscoveredTopic.

Definition empty : table := fun _ => None.
Definition set (tbl : table) (i : Z) (o : option DiscoveredTopic) : table :=
  fun i' => if decide (i = i') then o else tbl i'.

Definition same (tbl : table) (region uri : bytes) (pid i : Z) : option Z :=
  match tbl i with
  | Some t => if decide (dt_pid t = pid /\ dt_region t = region /\ dt_uri t = uri) then Some i else None
  | None => None
  end.
Definition vacant (tbl : table) (i : Z) : option Z := match tbl i with None => Some i | Some _ => None end.

Definition register (tbl : table) (region uri : bytes) (pid ts : Z) : table :=
  if decide (length region < RE_REGION_NAME_MAX /\ length uri < RE_TOPIC_URI_MAX)%nat then
    match first (same tbl region uri pid) entries with
    | Some i => set tbl i (Some (mkDiscovered region uri pid ts))
    | None =>
        match first (vacant tbl) entries with
        | Some i => set tbl i (Some (mkDiscovered region uri pid ts))
        | None => tbl
        end
    end
  else tbl.

(** Keep the announcements that satisfy [p]. *)
Definition keep (p : DiscoveredTopic -> bool) (tbl : table) : table :=
  fun i => match tbl i with Some t => if p t then Some t else None | None => None end.

Definition listing (p : DiscoveredTopic -> bool) (tbl : table) : list DiscoveredTopic :=
  omap (keep p tbl) entries.

End RegSpec.
Import RegSpec.

(** The operations, and what they do to the table at time [now]. *)
Inductive reg_op : Type :=
| OpRegister (region uri : bytes) (pid : Z)
| OpUnregister (region : bytes) (pid : Z)
| OpPrune (stale_timeout : Z)
| OpDiscover (pattern : bytes)
| OpDiscoverSince (pattern : bytes) (since_us : Z).

Definition micros (now : option Z) : option Z := (fun ns => wrap64 (duration_as_micros ns)) <$> now.

Definition spec_op (now : option Z) (op : reg_op) (tbl : table) : list DiscoveredTopic * table :=
  match op with
  | OpRegister region uri pid => ([], register tbl region uri pid (default 0 (micros now)))
  | OpUnregister region pid =>
      ([], keep (fun t => negb (bool_decide (dt_pid t = pid /\ dt_region t = region))) tbl)
  | OpPrune timeout =>
      ([], match micros now with
           | Some t => keep (fun e => saturating_sub t (wrap64 (duration_as_micros timeout)) <=? dt_timestamp_us e) tbl
           | None => tbl
           end)
  | OpDiscover pattern => (listing (fun t => uri_matches pattern (dt_uri t)) tbl, tbl)
  | OpDiscoverSince pattern since =>
      (listing (fun t => (since <? dt_timestamp_us t) && uri_matches pattern (dt_uri t)) tbl, tbl)
  end.

(** The code of an operation; the ones without a list report none. *)
Definition op_prog (op : reg_op) : prog rcell (list DiscoveredTopic) :=
  match op with
  | OpRegister region uri pid => reg_register region uri pid ;;; Ret []
  | OpUnregister region pid => unregister region pid ;;; Ret []
  | OpPrune timeout => prune_stale timeout ;;; Ret []
  | OpDiscover pattern => discover pattern
  | OpDiscoverSince pattern since => discover_since pattern since
  end.

Definition op_ok (op : reg_op) : Prop :=
  match op with
  | OpRegister region uri _ => str_ok region /\ str_ok uri
  | _ => True
  end.

(** ** Representation *)

Definition rentry_repr (m : cellmem rcell) (i : Z) (o : option DiscoveredTopic) : Prop :=
  match o with
  | None => m (REActive i) = RE_STATE_FREE
  | Some t =>
      m (REActive i) = RE_STATE_ACTIVE /\ m (REPid i) = dt_pid t /\ m (RETimestamp i) = dt_timestamp_us t /\
      fixed_repr m (RERegionName i) RE_REGION_NAME_MAX (dt_region t) /\
      fixed_repr m (RETopicUri i) RE_TOPIC_URI_MAX (dt_uri t)
  end.

Definition active_count (tbl : table) : Z := Z.of_nat (length (omap tbl entries)).

Record reg_repr (m : cellmem rcell) (tbl : table) : Prop := {
  rr_entries : forall i, i ∈ entries -> rentry_repr m i (tbl i);
  rr_count : m RHEntryCount = active_count tbl;
  rr_header : m RHMagic = le_decode REG_MAGIC /\ m RHVersion = REG_VERSION
}.

(** The cells of entry [i]. *)
Definition cell_entry (c : rcell) : option Z :=
  match c with
  | REActive i | REPid i | RETimestamp i | RERegionName i _ | RETopicUri i _ => Some i
  | _ => None
  end.

Lemma rentry_repr_frame m m' i o :
  (forall c, cell_entry c = Some i -> m' c = m c) -> rentry_repr m i o -> rentry_repr m' i o.
Proof.
  intros Hf. destruct o as [t|]; cbn; [|by rewrite Hf].
  intros (H1 & H2 & H3 & H4 & H5). rewrite !Hf by done. repeat (split; [done|]).
  split; eapply fixed_repr_frame; [|exact H4| |exact H5]; intros j; by apply Hf.
Qed.

Lemma set_eq tbl i o : set tbl i o i = o.
Proof. unfold set. by case_decide. Qed.
Lemma set_ne tbl i j o : i <> j -> set tbl i o j = tbl j.
Proof. intros. unfold set. by case_decide. Qed.

Definition one (o : option DiscoveredTopic) : Z := match o with Some _ => 1 | None => 0 end.

Lemma count_set_list (l : list Z) tbl i o :
  NoDup l -> i ∈ l ->
  Z.of_nat (length (omap (set tbl i o) l)) = Z.of_nat (length (omap tbl l)) - one (tbl i) + one o.
Proof.
  intros Hnd. induction Hnd as [|j l Hj Hnd IH]; [by intros ?%elem_of_nil|].
  assert (Hlen : forall t : table, Z.of_nat (length (omap t (j :: l))) = one (t j) + Z.of_nat (length (omap t l))).
  { intros t. cbn. destruct (t j); cbn [length one]; lia. }
  intros Hi. rewrite !Hlen. destruct (decide (i = j)) as [->|Hne].
  - rewrite set_eq. replace (omap (set tbl j o) l) with (omap tbl l); [lia|].
    apply list_omap_ext, Forall2_same_length_lookup. split; [done|].
    intros k x y Hx Hy. assert (x = y) as <- by congruence. symmetry. apply set_ne.
    intros ->. apply Hj. by eapply list_elem_of_lookup_2.
  - rewrite set_ne by done. rewrite IH; [lia|]. by apply elem_of_cons in Hi as [?|?].
Qed.

Lemma count_set tbl i o :
  i ∈ entries -> active_count (set tbl i o) = active_count tbl - one (tbl i) + one o.
Proof. apply count_set_list, NoDup_seqZ. Qed.

Lemma active_count_range tbl : 0 <= active_count tbl <= REG_MAX_ENTRIES.
Proof.
  unfold active_count. pose proof (length_omap_le tbl entries) as H.
  unfold entries in *. rewrite length_seqZ in H. unfold REG_MAX_ENTRIES in *. lia.
Qed.

(** Changing one entry. *)
Lemma reg_repr_set m m' tbl i o :
  i ∈ entries -> reg_repr m tbl -> rentry_repr m' i o ->
  (forall c, c <> RHEntryCount -> cell_entry c <> Some i -> m' c = m c) ->
  m' RHEntryCount = active_count (set tbl i o) -> reg_repr m' (set tbl i o).
Proof.
  intros Hi [H1 H2 H3] He Hf Hc. split; [|done|by rewrite !Hf by done]. intros j Hj.
  destruct (decide (i = j)) as [<-|Hne]; [by rewrite set_eq|]. rewrite set_ne by done.
  eapply rentry_repr_frame; [|by apply H1]. intros c Hcj. apply Hf; [by intros ->|]. congruence.
Qed.

(** ** Registering *)

Lemma str_eqb (a b : bytes) : bool_decide (a = b) = true <-> a = b.
Proof. apply bool_decide_eq_true. Qed.

Lemma entry_active m tbl i t :
  reg_repr m tbl -> i ∈ entries -> tbl i = Some t -> rentry_repr m i (Some t).
Proof. intros Hr Hi Ht. rewrite <- Ht. by apply Hr. Qed.

Lemma entry_free m tbl i : reg_repr m tbl -> i ∈ entries -> tbl i = None -> m (REActive i) = RE_STATE_FREE.
Proof. intros Hr Hi Ht. pose proof (rr_entries _ _ Hr i Hi) as H. by rewrite Ht in H. Qed.

Section Ops.
Context (w : rworld) (tbl : table).
Hypothesis (Hr : reg_repr (w_mem w) tbl).

Lemma find_registered_run region uri pid ts i :
  i ∈ entries ->
  run (find_registered region uri pid ts i) w =
    match same tbl region uri pid i with
    | Some _ => (Done (Some (Ok tt)), set_mem w (upd (w_mem w) (RETimestamp i) ts))
    | None => (Done None, w)
    end.
Proof.
  intros Hi. unfold find_registered, same. run_simpl. destruct (tbl i) as [t|] eqn:Ht.
  2:{ by rewrite (entry_free _ _ i Hr Hi Ht). }
  destruct (entry_active _ _ i t Hr Hi Ht) as (-> & Hp & _ & Hg & Hu).
  change (negb (RE_STATE_ACTIVE =? RE_STATE_ACTIVE)) with false. cbn match. run_simpl. rewrite Hp.
  destruct (Z.eqb_spec (dt_pid t) pid) as [<-|Hne]; cbn [negb]; run_simpl.
  2:{ rewrite decide_False; [done|naive_solver]. }
  rewrite run_bind, (read_fixed_run _ _ _ _ Hg), run_bind, (read_fixed_run _ _ _ _ Hu).
  destruct (decide (dt_region t = region /\ dt_uri t = uri)) as [[<- <-]|Hne].
  - rewrite !bool_decide_true by done. by rewrite decide_True.
  - rewrite decide_False by naive_solver.
    destruct (bool_decide (dt_region t = region)) eqn:E1; [|done].
    destruct (bool_decide (dt_uri t = uri)) eqn:E2; [|done].
    apply str_eqb in E1, E2. naive_solver.
Qed.

Lemma claim_entry_run region uri pid ts i :
  i ∈ entries -> str_ok region -> str_ok uri -> (length region < RE_REGION_NAME_MAX)%nat ->
  (length uri < RE_TOPIC_URI_MAX)%nat ->
  match vacant tbl i with
  | Some _ => exists m', run (claim_entry region uri pid ts i) w = (Done (Some (Ok tt)), set_mem w m') /\
      reg_repr m' (set tbl i (Some (mkDiscovered region uri pid ts)))
  | None => run (claim_entry region uri pid ts i) w = (Done None, w)
  end.
Proof.
  intros Hi Hg Hu Hgl Hul. unfold claim_entry, vacant. run_simpl. destruct (tbl i) as [t|] eqn:Ht.
  { by destruct (entry_active _ _ i t Hr Hi Ht) as (-> & _). }
  rewrite (entry_free _ _ i Hr Hi Ht). change (RE_STATE_FREE =? RE_STATE_FREE) with true. cbn match. run_simpl.
  rewrite run_bind. match goal with |- context [run (write_fixed_str (RERegionName i) _ _) ?w0] => set (w1 := w0) end.
  assert (E1 : w_mem w1 = upd (upd (upd (w_mem w) (REActive i) RE_STATE_ACTIVE) (REPid i) pid) (RETimestamp i) ts)
    by reflexivity.
  destruct (write_fixed_run (RERegionName i) RE_REGION_NAME_MAX region w1) as (m2 & -> & A1 & A2);
    [congruence|done|done|].
  rewrite run_bind.
  destruct (write_fixed_run (RETopicUri i) RE_TOPIC_URI_MAX uri (set_mem w1 m2)) as (m3 & -> & B1 & B2);
    [congruence|done|done|].
  cbn [w_mem set_mem] in B2. run_simpl. eexists. split; [reflexivity|].
  pose proof (active_count_range tbl) as Hcr. unfold REG_MAX_ENTRIES in Hcr.
  assert (Hm3 : forall c, (forall j, c <> RERegionName i j) -> (forall j, c <> RETopicUri i j) ->
    m3 c = w_mem w1 c) by (intros c H1 H2; rewrite B2, A2; done).
  apply (reg_repr_set (w_mem w)); [done|done| | |].
  - cbn. rewrite !upd_ne by done. rewrite !Hm3, E1 by done.
    rewrite upd_ne, upd_ne, upd_eq by done. rewrite upd_ne, upd_eq by done. rewrite upd_eq.
    repeat (split; [done|]). split.
    + eapply fixed_repr_frame; [|exact A1]. intros j. by rewrite upd_ne, B2 by done.
    + eapply fixed_repr_frame; [|exact B1]. intros j. by rewrite upd_ne by done.
  - intros c Hc Hne. rewrite upd_ne, Hm3, E1; [|by intros j ->|by intros j ->|done].
    rewrite !upd_ne; [done|..]; by intros <-.
  - rewrite upd_eq, Hm3, E1, !upd_ne, (rr_count _ _ Hr), count_set, Ht by done. cbn [one].
    rewrite wrap32_small by lia. lia.
Qed.

Lemma refresh_repr region uri pid ts i :
  i ∈ entries -> same tbl region uri pid i = Some i ->
  reg_repr (upd (w_mem w) (RETimestamp i) ts) (set tbl i (Some (mkDiscovered region uri pid ts))).
Proof.
  intros Hi Hs. unfold same in Hs. destruct (tbl i) as [t|] eqn:Ht; [|done]. case_decide as Hd; [|done].
  destruct Hd as (Hpid & Hreg & Huri). destruct (entry_active _ _ i t Hr Hi Ht) as (E1 & E2 & E3 & E4 & E5).
  eapply reg_repr_set; [done|done| | |].
  - cbn. rewrite upd_eq, !upd_ne by done. split; [done|]. split; [congruence|]. split; [done|].
    rewrite <- Hreg, <- Huri. split; (eapply fixed_repr_frame; [|eassumption]); intros j; by rewrite upd_ne.
  - intros c _ Hc. rewrite upd_ne; [done|]. by intros <-.
  - rewrite upd_ne, (rr_count _ _ Hr), count_set, Ht by done. cbn [one]. lia.
Qed.

Lemma register_run region uri pid :
  str_ok region -> str_ok uri ->
  exists m', run (reg_register region uri pid) w = (Done (Ok tt), set_mem w m') /\
    reg_repr m' (register tbl region uri pid (default 0 (micros (w_now w)))).
Proof.
  intros Hg Hu. unfold reg_register, register.
  assert (Hsame : exists m', (Done (Ok tt : result unit Error), w) = (Done (Ok tt), set_mem w m') /\ reg_repr m' tbl)
    by (exists (w_mem w); split; [by destruct w|done]).
  destruct (decide (length region < RE_REGION_NAME_MAX /\ length uri < RE_TOPIC_URI_MAX)%nat) as [[Hgl Hul]|Hn].
  2:{ replace (_ || _) with true; [exact Hsame|]. symmetry. apply orb_true_iff.
      rewrite !Nat.leb_le. lia. }
  replace (_ || _) with false by (symmetry; apply orb_false_iff; rewrite !Nat.leb_gt; lia).
  unfold reg_now_micros. run_simpl. fold (micros (w_now w)).
  replace (match w_now w with Some ns => Some (wrap64 (duration_as_micros ns)) | None => None end)
    with (micros (w_now w)) by by destruct (w_now w).
  set (ts := default 0 (micros (w_now w))).
  rewrite (run_for_return_hit (same tbl region uri pid)).
  2:{ intros i Hi. rewrite find_registered_run by done. unfold same.
      destruct (tbl i) as [t|]; [|done]. case_decide; [|done]. eauto. }
  destruct (first (same tbl region uri pid) entries) as [i|] eqn:Hf.
  - destruct (first_some _ _ _ Hf) as (i' & Hi & Hs).
    assert (i' = i) as -> by (unfold same in Hs; destruct (tbl i') as [t|]; [|done]; case_decide; congruence).
    rewrite find_registered_run, Hs by done. eexists. split; [reflexivity|]. by apply refresh_repr.
  - rewrite (run_for_return_hit (vacant tbl)).
    2:{ intros i Hi. pose proof (claim_entry_run region uri pid ts i Hi Hg Hu Hgl Hul) as Hc.
        unfold vacant in *. destruct (tbl i); [done|]. destruct Hc as (m' & Hc & _). eauto. }
    destruct (first (vacant tbl) entries) as [i|] eqn:Hv; [|exact Hsame].
    destruct (first_some _ _ _ Hv) as (i' & Hi & Hs).
    assert (i' = i) as -> by (unfold vacant in Hs; destruct (tbl i'); congruence).
    pose proof (claim_entry_run region uri pid ts i Hi Hg Hu Hgl Hul) as Hc. rewrite Hs in Hc.
    destruct Hc as (m' & -> & Hc). eauto.
Qed.

(** ** Freeing *)

Lemma free_entry_run i t :
  i ∈ entries -> tbl i = Some t ->
  exists m', run (free_entry i) w = (Done tt, set_mem w m') /\ reg_repr m' (set tbl i None).
Proof.
  intros Hi Ht. unfold free_entry. run_simpl. destruct (entry_active _ _ i t Hr Hi Ht) as (Ha & _).
  rewrite Ha. change (RE_STATE_ACTIVE =? RE_STATE_ACTIVE) with true. cbn match. run_simpl.
  rewrite upd_ne, (rr_count _ _ Hr) by done. pose proof (active_count_range tbl) as Hc. unfold REG_MAX_ENTRIES in Hc.
  pose proof (count_set tbl i None Hi) as Hcs. rewrite Ht in Hcs. cbn [one] in Hcs.
  pose proof (active_count_range (set tbl i None)) as Hc'.
  replace (active_count tbl =? 0) with false by lia. cbn match. run_simpl.
  eexists. split; [reflexivity|]. apply (reg_repr_set (w_mem w)); [done|done| | |].
  - cbn. by rewrite upd_ne, upd_eq by done.
  - intros c H1 H2. rewrite !upd_ne; [done|..]; by intros <-.
  - rewrite upd_eq, wrap32_small by lia. lia.
Qed.

End Ops.

Lemma reg_repr_ext m tbl tbl' :
  (forall i, i ∈ entries -> tbl i = tbl' i) -> reg_repr m tbl -> reg_repr m tbl'.
Proof.
  intros He [H1 H2 H3]. split; [| |done].
  - intros i Hi. rewrite <- He by done. by apply H1.
  - rewrite H2. unfold active_count. do 2 f_equal. apply list_omap_ext, Forall2_same_length_lookup.
    split; [done|]. intros k x y Hx Hy. assert (x = y) as <- by congruence. apply He.
    by eapply list_elem_of_lookup_2.
Qed.

(** A loop that frees the entries that fail [p]. *)
Lemma sweep_run (p : DiscoveredTopic -> bool) (body : Z -> prog rcell unit) (w : rworld) tbl :
  (forall i m tbl', i ∈ entries -> reg_repr m tbl' ->
     match tbl' i with
     | Some t => if p t then run (body i) (set_mem w m) = (Done tt, set_mem w m)
                 else run (body i) (set_mem w m) = run (free_entry i) (set_mem w m)
     | None => run (body i) (set_mem w m) = (Done tt, set_mem w m)
     end) ->
  reg_repr (w_mem w) tbl ->
  exists m', run (for_each entries body) w = (Done tt, set_mem w m') /\ reg_repr m' (keep p tbl).
Proof.
  intros Hb Hr.
  destruct (run_for_each entries body (fun dn w' => exists m', w' = set_mem w m' /\
    reg_repr m' (fun i => if decide (i ∈ dn) then keep p tbl i else tbl i)) w) as (w' & Hrun & m' & -> & Hm).
  - intros pre i post w0 Hl (m & -> & Hm).
    assert (Hi : i ∈ entries) by (rewrite Hl; set_solver).
    assert (Hnd : NoDup (pre ++ i :: post)) by (rewrite <- Hl; apply NoDup_seqZ).
    apply NoDup_app in Hnd as (_ & Hnin & _). assert (Hpre : i ∉ pre) by (intros Hin; apply (Hnin i Hin); set_solver).
    specialize (Hb i m _ Hi Hm). cbv beta in Hb. rewrite decide_False in Hb by done.
    assert (Hext : forall m1 o, o = keep p tbl i ->
      reg_repr m1 (set (fun j => if decide (j ∈ pre) then keep p tbl j else tbl j) i o) ->
      exists m', set_mem w m1 = set_mem w m' /\
        reg_repr m' (fun j => if decide (j ∈ pre ++ [i]) then keep p tbl j else tbl j)).
    { intros m1 o -> Hs. exists m1. split; [done|]. eapply reg_repr_ext; [|exact Hs]. intros j Hj.
      unfold set. destruct (decide (i = j)) as [<-|Hne]; [by rewrite decide_True by set_solver|].
      destruct (decide (j ∈ pre)); [by rewrite decide_True by set_solver|by rewrite decide_False by set_solver]. }
    assert (Hsame : forall o, o = tbl i -> reg_repr m (set (fun j => if decide (j ∈ pre) then keep p tbl j else tbl j) i o)).
    { intros o ->. eapply reg_repr_ext; [|exact Hm]. intros j Hj. unfold set.
      destruct (decide (i = j)) as [<-|]; [by rewrite decide_False|done]. }
    unfold keep in Hext at 1. destruct (tbl i) as [t|] eqn:Ht; [destruct (p t)|].
    + exists (set_mem w m). split; [exact Hb|]. eapply Hext; [reflexivity|by apply Hsame].
    + destruct (free_entry_run (set_mem w m) _ Hm i t Hi) as (m1 & Hr1 & Hm1); [by rewrite decide_False|].
      exists (set_mem w m1). split; [by rewrite Hb, Hr1|]. by eapply Hext.
    + exists (set_mem w m). split; [exact Hb|]. eapply Hext; [reflexivity|by apply Hsame].
  - exists (w_mem w). split; [by destruct w|]. eapply reg_repr_ext; [|exact Hr].
    intros i _. by rewrite decide_False by set_solver.
  - exists m'. split; [done|]. eapply reg_repr_ext; [|exact Hm]. intros i Hi. cbv beta. by rewrite decide_True by exact Hi.
Qed.

Lemma unregister_run region pid (w : rworld) tbl :
  reg_repr (w_mem w) tbl ->
  exists m', run (unregister region pid) w = (Done tt, set_mem w m') /\
    reg_repr m' (keep (fun t => negb (bool_decide (dt_pid t = pid /\ dt_region t = region))) tbl).
Proof.
  apply sweep_run. intros i m tbl' Hi Hm. unfold unregister_entry. run_simpl.
  destruct (tbl' i) as [t|] eqn:Ht.
  2:{ by rewrite (entry_free _ _ i Hm Hi Ht). }
  destruct (entry_active _ _ i t Hm Hi Ht) as (Ha & Hp & _ & Hg & _).
  rewrite Ha. change (negb (RE_STATE_ACTIVE =? RE_STATE_ACTIVE)) with false. cbn match. run_simpl. rewrite Hp.
  destruct (Z.eqb_spec (dt_pid t) pid) as [<-|Hne]; cbn [negb]; run_simpl.
  2:{ rewrite bool_decide_false; [done|naive_solver]. }
  rewrite run_bind, (read_fixed_run _ _ _ (set_mem w m) Hg).
  destruct (decide (dt_region t = region)) as [He|Hne].
  - rewrite !bool_decide_true by done. done.
  - rewrite !bool_decide_false by naive_solver. done.
Qed.

Lemma prune_run timeout (w : rworld) tbl :
  reg_repr (w_mem w) tbl ->
  exists m', run (prune_stale timeout) w = (Done tt, set_mem w m') /\
    reg_repr m' (spec_op (w_now w) (OpPrune timeout) tbl).2.
Proof.
  intros Hr. unfold prune_stale, reg_now_micros. cbn [spec_op snd]. run_simpl.
  destruct (w_now w) as [ns|] eqn:Hn; cbn [micros fmap option_fmap option_map];
    [|exists (w_mem w); split; [by destruct w|done]].
  apply sweep_run; [|done]. intros i m tbl' Hi Hm. unfold prune_entry. run_simpl.
  destruct (tbl' i) as [t|] eqn:Ht.
  2:{ by rewrite (entry_free _ _ i Hm Hi Ht). }
  destruct (entry_active _ _ i t Hm Hi Ht) as (Ha & _ & Hts & _).
  rewrite Ha. change (negb (RE_STATE_ACTIVE =? RE_STATE_ACTIVE)) with false. cbn match. run_simpl. rewrite Hts.
  rewrite Z.leb_antisym. by destruct (_ <? _).
Qed.

(** ** Discovering *)

Lemma collect_run {A} (f : Z -> option A) (l : list Z) (body : Z -> prog rcell (option A)) acc (w : rworld) :
  (forall i, i ∈ l -> run (body i) w = (Done (f i), w)) ->
  run (collect l body acc) w = (Done (acc ++ omap f l), w).
Proof.
  revert acc. induction l as [|i l IH]; intros acc Hb; cbn [collect].
  - by rewrite app_nil_r.
  - rewrite run_bind, Hb by set_solver. cbn. rewrite IH by set_solver.
    destruct (f i); [by rewrite <- app_assoc|done].
Qed.

Lemma discover_run pattern (w : rworld) tbl :
  reg_repr (w_mem w) tbl ->
  run (discover pattern) w = (Done (listing (fun t => uri_matches pattern (dt_uri t)) tbl), w).
Proof.
  intros Hr. unfold discover, listing. rewrite (collect_run (keep (fun t => uri_matches pattern (dt_uri t)) tbl));
    [done|]. intros i Hi. unfold discover_entry, keep. run_simpl.
  destruct (tbl i) as [t|] eqn:Ht.
  2:{ by rewrite (entry_free _ _ i Hr Hi Ht). }
  destruct (entry_active _ _ i t Hr Hi Ht) as (-> & Hp & Hts & Hg & Hu).
  change (negb (RE_STATE_ACTIVE =? RE_STATE_ACTIVE)) with false. cbn match.
  rewrite run_bind, (read_fixed_run _ _ _ _ Hu). destruct (uri_matches _ _); [|done].
  rewrite run_bind, (read_fixed_run _ _ _ _ Hg). run_simpl. rewrite Hp, Hts. by destruct t.
Qed.

Lemma discover_since_run pattern since (w : rworld) tbl :
  reg_repr (w_mem w) tbl ->
  run (discover_since pattern since) w =
    (Done (listing (fun t => (since <? dt_timestamp_us t) && uri_matches pattern (dt_uri t)) tbl), w).
Proof.
  intros Hr. unfold discover_since, listing.
  rewrite (collect_run (keep (fun t => (since <? dt_timestamp_us t) && uri_matches pattern (dt_uri t)) tbl));
    [done|]. intros i Hi. unfold discover_since_entry, keep. run_simpl.
  destruct (tbl i) as [t|] eqn:Ht.
  2:{ by rewrite (entry_free _ _ i Hr Hi Ht). }
  destruct (entry_active _ _ i t Hr Hi Ht) as (-> & Hp & Hts & Hg & Hu).
  change (negb (RE_STATE_ACTIVE =? RE_STATE_ACTIVE)) with false. cbn match. run_simpl.
  rewrite Hts, (Z.leb_antisym since). destruct (since <? dt_timestamp_us t); cbn [negb andb]; [|done]. run_simpl.
  rewrite run_bind, (read_fixed_run _ _ _ _ Hu). destruct (uri_matches _ _); [|done].
  rewrite run_bind, (read_fixed_run _ _ _ _ Hg). run_simpl. rewrite Hp. by destruct t.
Qed.

Lemma op_run op (w : rworld) tbl :
  op_ok op -> reg_repr (w_mem w) tbl ->
  exists m', run (op_prog op) w = (Done (spec_op (w_now w) op tbl).1, set_mem w m') /\
    reg_repr m' (spec_op (w_now w) op tbl).2.
Proof.
  intros Hok Hr. assert (Hsame : w = set_mem w (w_mem w)) by by destruct w.
  destruct op as [region uri pid|region pid|timeout|pattern|pattern since]; cbn [op_prog].
  - destruct Hok as [Hg Hu]. rewrite run_bind.
    destruct (register_run w tbl Hr region uri pid Hg Hu) as (m' & -> & Hm).
    exists m'. split; [reflexivity|exact Hm].
  - rewrite run_bind. destruct (unregister_run region pid w tbl Hr) as (m' & -> & Hm).
    exists m'. split; [reflexivity|exact Hm].
  - rewrite run_bind. destruct (prune_run timeout w tbl Hr) as (m' & -> & Hm).
    exists m'. split; [reflexivity|exact Hm].
  - rewrite (discover_run pattern w tbl Hr). exists (w_mem w). rewrite <- Hsame.
    cbn [spec_op fst snd]. split; [reflexivity|exact Hr].
  - rewrite (discover_since_run pattern since w tbl Hr). exists (w_mem w). rewrite <- Hsame.
    cbn [spec_op fst snd]. split; [reflexivity|exact Hr].
Qed.

(** ** Sequences of operations, each at its own time *)

Fixpoint run_ops (ops : list (option Z * reg_op)) (m : cellmem rcell)
    : option (list (list DiscoveredTopic) * cellmem rcell) :=
  match ops with
  | [] => Some ([], m)
  | (now, op) :: ops' =>
      match run (op_prog op) (mkWorld m now 0 []) with
      | (Done r, w) =>
          match run_ops ops' (w_mem w) with
          | Some (rs, m') => Some (r :: rs, m')
          | None => None
          end
      | _ => None
      end
  end.

Fixpoint spec_ops (ops : list (option Z * reg_op)) (tbl : table) : list (list DiscoveredTopic) * table :=
  match ops with
  | [] => ([], tbl)
  | (now, op) :: ops' =>
      let '(r, tbl') := spec_op now op tbl in
      let '(rs, tbl'') := spec_ops ops' tbl' in (r :: rs, tbl'')
  end.

Lemma run_ops_refines ops m tbl :
  reg_repr m tbl -> Forall (fun x => op_ok x.2) ops ->
  exists m', run_ops ops m = Some ((spec_ops ops tbl).1, m') /\ reg_repr m' (spec_ops ops tbl).2.
Proof.
  revert m tbl. induction ops as [|[now op] ops IH]; intros m tbl Hr Hok; [by exists m|].
  apply Forall_cons in Hok as [Ho Hok]. cbn [run_ops spec_ops].
  destruct (op_run op (mkWorld m now 0 []) tbl Ho Hr) as (m1 & -> & H1). cbn [w_now] in *.
  destruct (spec_op now op tbl) as [r tbl1]. cbn [fst snd w_mem set_mem] in *.
  destruct (IH m1 tbl1 H1 Hok) as (m2 & -> & H2). destruct (spec_ops ops tbl1) as [rs tbl2]. by exists m2.
Qed.

(** A fresh registry is empty. *)
Lemma open_fresh : reg_repr (open_at None) empty.
Proof.
  assert (Hz : forall i, open_at None (REActive i) = 0).
  { intros i. unfold open_at, opens, create_new. cbv iota. run_simpl. by rewrite !upd_ne by done. }
  split; [intros i _; apply Hz| |]; unfold open_at, opens, create_new; cbv iota; run_simpl.
  2:{ rewrite !upd_ne, upd_eq by done. by rewrite upd_ne, upd_eq by done. }
  rewrite !upd_ne by done. unfold active_count. by replace (omap empty entries) with ([] : list DiscoveredTopic) by (vm_compute; reflexivity).
Qed.

Lemma reopen m tbl len : reg_repr m tbl -> REG_TOTAL_SIZE <= len -> open_at (Some (len, m)) = m.
Proof.
  intros [_ _ [H1 H2]] Hl. unfold open_at, opens, try_open_existing. replace (len <? REG_TOTAL_SIZE) with false by lia.
  run_simpl. rewrite H1, Z.eqb_refl. cbn [negb]. run_simpl. by rewrite H2.
Qed.

(** C22. The registry refines its table of announcements: starting from a registry
    that [open] has just created, any sequence of register, unregister, prune,
    discover and discover_since, each at its own clock reading and with registered
    region names and URIs that are valid UTF-8 without NUL bytes (the fields are
    NUL-terminated; the code does not check this), terminates without panic with
    exactly the results of the abstract table (announcements are found in entry order,
    by exact URI or by prefix; re-registering refreshes the timestamp instead of
    duplicating; full or over-long announcements are ignored), leaves the bytes and
    the entry counter describing that table, and a later [open] of the file finds it
    again. *)
Theorem registry_refines ops len :
  Forall (fun x => op_ok x.2) ops -> REG_TOTAL_SIZE <= len ->
  exists m', run_ops ops (open_at None) = Some ((spec_ops ops empty).1, m') /\
    reg_repr m' (spec_ops ops empty).2 /\ open_at (Some (len, m')) = m'.
Proof.
  intros Hok Hl. destruct (run_ops_refines ops (open_at None) empty open_fresh Hok) as (m' & H1 & H2).
  exists m'. split; [done|]. split; [done|]. by eapply reopen.
Qed.

(** Two publishers, a refresh, wildcard and incremental discovery, a stale entry. *)
Definition demo_ops : list (option Z * reg_op) :=
  [(Some 1000000, OpRegister [112] [47; 97] 7); (Some 2000000, OpRegister [113] [47; 98] 8);
   (Some 3000000, OpRegister [112] [47; 97] 7); (Some 3000000, OpDiscover [47; 42]);
   (Some 3000000, OpDiscoverSince [47; 42] 2000); (Some 4000000, OpPrune 1500000); (None, OpDiscover [42]);
   (None, OpUnregister [112] 7); (None, OpDiscover [42])].

Lemma registry_refines_witness :
  (spec_ops demo_ops empty).1 =
    [[]; []; []; [mkDiscovered [112] [47; 97] 7 3000; mkDiscovered [113] [47; 98] 8 2000];
     [mkDiscovered [112] [47; 97] 7 3000]; []; [mkDiscovered [112] [47; 97] 7 3000]; []; []] /\
  exists m', run_ops demo_ops (open_at None) = Some ((spec_ops demo_ops empty).1, m') /\
    reg_repr m' (spec_ops demo_ops empty).2 /\ open_at (Some (REG_TOTAL_SIZE, m')) = m'.
Proof.
  split; [vm_compute; reflexivity|].
  apply (registry_refines demo_ops REG_TOTAL_SIZE); [|reflexivity].
  repeat constructor; vm_compute; congruence.
Defined.

(** ** The lifetime of an announcement *)

Definition same_key (t : DiscoveredTopic) (region uri : bytes) (pid : Z) : Prop :=
  dt_pid t = pid /\ dt_region t = region /\ dt_uri t = uri.

(** No two entries announce the same topic of the same region and process. *)
Definition distinct (tbl : table) : Prop :=
  forall i j t t', i ∈ entries -> j ∈ entries -> tbl i = Some t -> tbl j = Some t' ->
    same_key t' (dt_region t) (dt_uri t) (dt_pid t) -> i = j.

Definition announces (tbl : table) (t : DiscoveredTopic) : Prop := exists i, i ∈ entries /\ tbl i = Some t.

Lemma same_some tbl region uri pid i j :
  same tbl region uri pid i = Some j <-> j = i /\ exists t, tbl i = Some t /\ same_key t region uri pid.
Proof.
  unfold same, same_key. destruct (tbl i) as [t|]; [|naive_solver]. case_decide; naive_solver.
Qed.

Lemma vacant_some tbl i j : vacant tbl i = Some j <-> j = i /\ tbl i = None.
Proof. unfold vacant. destruct (tbl i); naive_solver. Qed.

(** Where [register] writes: over the announcement it renews, or, when there is none,
    into a free entry. *)
Lemma register_at tbl region uri pid ts :
  register tbl region uri pid ts = tbl \/
  exists i, i ∈ entries /\
    register tbl region uri pid ts = set tbl i (Some (mkDiscovered region uri pid ts)) /\
    ((exists t, tbl i = Some t /\ same_key t region uri pid) \/
     (tbl i = None /\ forall j t, j ∈ entries -> tbl j = Some t -> ~ same_key t region uri pid)).
Proof.
  unfold register. case_decide; [|by left].
  destruct (first (same tbl region uri pid) entries) as [i|] eqn:Hs.
  - right. exists i. destruct (first_some _ _ _ Hs) as (i' & Hi & [-> Ht]%same_some). eauto.
  - destruct (first (vacant tbl) entries) as [i|] eqn:Hv; [|by left]. right. exists i.
    destruct (first_some _ _ _ Hv) as (i' & Hi & [-> Ht]%vacant_some). split; [done|]. split; [done|].
    right. split; [done|]. intros j t Hj Hjt Hk.
    pose proof (first_none _ _ Hs j Hj) as Hn. assert (same tbl region uri pid j = Some j); [|congruence].
    apply same_some. eauto.
Qed.

Lemma register_announces tbl region uri pid ts :
  (length region < RE_REGION_NAME_MAX)%nat -> (length uri < RE_TOPIC_URI_MAX)%nat ->
  (exists i, i ∈ entries /\ tbl i = None) ->
  announces (register tbl region uri pid ts) (mkDiscovered region uri pid ts).
Proof.
  intros Hg Hu (i0 & Hi0 & Hfree). unfold register. rewrite decide_True by done.
  destruct (first (same tbl region uri pid) entries) as [i|] eqn:Hs.
  - destruct (first_some _ _ _ Hs) as (i' & Hi & [-> _]%same_some). exists i'. by rewrite set_eq.
  - destruct (first (vacant tbl) entries) as [i|] eqn:Hv.
    + destruct (first_some _ _ _ Hv) as (i' & Hi & [-> _]%vacant_some). exists i'. by rewrite set_eq.
    + pose proof (first_none _ _ Hv i0 Hi0) as Hn.
      rewrite (proj2 (vacant_some tbl i0 i0) (conj eq_refl Hfree)) in Hn. congruence.
Qed.

Lemma keep_some p tbl i t : keep p tbl i = Some t <-> tbl i = Some t /\ p t = true.
Proof.
  unfold keep. destruct (tbl i) as [t'|]; [|naive_solver]. destruct (p t') eqn:E; split.
  - by intros [= ->].
  - by intros [[= ->] _].
  - done.
  - intros [[= ->] Hp]. congruence.
Qed.

Lemma distinct_keep p tbl : distinct tbl -> distinct (keep p tbl).
Proof. intros Hd i j t t' Hi Hj [Ht _]%keep_some [Ht' _]%keep_some. by eapply Hd. Qed.

Lemma distinct_register tbl region uri pid ts : distinct tbl -> distinct (register tbl region uri pid ts).
Proof.
  intros Hd. destruct (register_at tbl region uri pid ts) as [->|(i & Hi & -> & Hcase)]; [done|].
  assert (Hnew : forall j t, j ∈ entries -> tbl j = Some t -> same_key t region uri pid -> i = j).
  { intros j t Hj Ht Hk. destruct Hcase as [(t0 & Ht0 & H1 & H2 & H3)|[_ Hno]]; [|by destruct (Hno j t)].
    subst. by eapply Hd. }
  intros j k t t' Hj Hk. unfold set. repeat case_decide; subst; try done; intros Ht Ht' Hkey; simplify_eq.
  - by eapply Hnew.
  - symmetry. eapply (Hnew j t Hj Ht). destruct Hkey as (? & ? & ?). cbn in *. by subst.
  - by eapply Hd.
Qed.

Lemma distinct_ops ops tbl : distinct tbl -> distinct (spec_ops ops tbl).2.
Proof.
  revert tbl. induction ops as [|[now op] ops IH]; intros tbl Hd; [done|]. cbn [spec_ops].
  assert (H1 : distinct (spec_op now op tbl).2).
  { destruct op; cbn [spec_op snd]; try done.
    - by apply distinct_register.
    - by apply distinct_keep.
    - destruct (micros now); [by apply distinct_keep|done]. }
  destruct (spec_op now op tbl) as [r tbl1]. cbn [snd] in H1. specialize (IH tbl1 H1).
  by destruct (spec_ops ops tbl1).
Qed.

(** The operation neither renews, nor withdraws, nor prunes announcement [t]. *)
Definition spares (t : DiscoveredTopic) (x : option Z * reg_op) : Prop :=
  match x.2 with
  | OpRegister region uri pid => ~ same_key t region uri pid
  | OpUnregister region pid => ~ (dt_pid t = pid /\ dt_region t = region)
  | OpPrune timeout =>
      match micros x.1 with
      | Some now => saturating_sub now (wrap64 (duration_as_micros timeout)) <= dt_timestamp_us t
      | None => True
      end
  | _ => True
  end.

Lemma announces_keep p tbl t : p t = true -> announces tbl t -> announces (keep p tbl) t.
Proof. intros Hp (i & Hi & Ht). exists i. split; [done|]. by apply keep_some. Qed.

Lemma announces_ops ops tbl t :
  Forall (spares t) ops -> announces tbl t -> announces (spec_ops ops tbl).2 t.
Proof.
  revert tbl. induction ops as [|[now op] ops IH]; intros tbl Hsp Ha; [done|].
  apply Forall_cons in Hsp as [Hs Hsp]. cbn [spec_ops].
  assert (H1 : announces (spec_op now op tbl).2 t).
  { destruct op as [region uri pid|region pid|timeout|pattern|pattern since];
      unfold spares in Hs; cbn [spec_op fst snd] in *; try done.
    - destruct (register_at tbl region uri pid (default 0 (micros now))) as [->|(i & Hi & -> & Hcase)]; [done|].
      destruct Ha as (j & Hj & Ht). exists j. split; [done|]. rewrite set_ne; [done|]. intros ->.
      destruct Hcase as [(t0 & Ht0 & Hk)|[Hn _]]; [|congruence]. rewrite Ht in Ht0. by simplify_eq.
    - apply announces_keep; [|done]. by rewrite bool_decide_false.
    - destruct (micros now) as [n|]; [|done]. apply announces_keep; [|done]. by apply Z.leb_le. }
  destruct (spec_op now op tbl) as [r tbl1]. cbn [snd] in H1. specialize (IH tbl1 Hsp H1).
  by destruct (spec_ops ops tbl1).
Qed.

Lemma elem_of_listing p tbl t : t ∈ listing p tbl <-> announces (keep p tbl) t.
Proof. unfold listing, announces. by rewrite list_elem_of_omap. Qed.

Lemma spec_ops_app ops ops' tbl :
  (spec_ops (ops ++ ops') tbl).2 = (spec_ops ops' (spec_ops ops tbl).2).2.
Proof.
  revert tbl. induction ops as [|[now op] ops IH]; intros tbl; [done|]. cbn [spec_ops app].
  destruct (spec_op now op tbl) as [r tbl1]. specialize (IH tbl1).
  destruct (spec_ops (ops ++ ops') tbl1), (spec_ops ops tbl1). exact IH.
Qed.

(** [crossbar::discover], on any registry: the announcements of the last 10 seconds
    that match. *)
Lemma lib_discover_run pattern m ns tbl :
  reg_repr m tbl ->
  exists m', run (lib_discover pattern) (mkWorld m (Some ns) 0 []) =
    (Done (listing (fun t => uri_matches pattern (dt_uri t))
       (keep (fun t => saturating_sub (wrap64 (duration_as_micros ns)) 10000000 <=? dt_timestamp_us t) tbl)),
     mkWorld m' (Some ns) 0 []).
Proof.
  intros Hm. destruct (prune_run (10 * 10 ^ 9) (mkWorld m (Some ns) 0 []) _ Hm) as (m' & Hp & Hm').
  exists m'. unfold lib_discover. rewrite run_bind, Hp.
  match goal with |- context [set_mem ?w m'] => change (set_mem w m') with (mkWorld m' (Some ns) 0 [] : rworld) end.
  cbn [spec_op snd w_now micros fmap option_fmap option_map] in Hm'.
  by rewrite (discover_run pattern (mkWorld m' (Some ns) 0 []) _ Hm').
Qed.

(** C34. An announcement lives 10 seconds, whatever else the registry holds: take any
    history of operations on a registry, then a registration (region and URI valid UTF-8
    without NUL bytes, shorter than their fields) while some entry is free, then any
    operations that neither renew it, nor unregister its region, nor prune it.
    [crossbar::discover] then finds the topic, with the timestamp of its registration and
    no other, exactly when its pattern matches and at most 10 seconds have passed since.
    Nothing but registering again refreshes the timestamp, so a live publisher disappears
    from discovery. *)
Theorem announcement_lifetime before after region uri pid pattern ns ns' :
  Forall (fun x => op_ok x.2) (before ++ after) -> str_ok region -> str_ok uri ->
  (length region < RE_REGION_NAME_MAX)%nat -> (length uri < RE_TOPIC_URI_MAX)%nat ->
  (exists i, i ∈ entries /\ (spec_ops before empty).2 i = None) ->
  let ts := wrap64 (duration_as_micros ns) in
  let now := wrap64 (duration_as_micros ns') in
  Forall (spares (mkDiscovered region uri pid ts)) after ->
  exists rs m found m',
    run_ops (before ++ (Some ns, OpRegister region uri pid) :: after) (open_at None) = Some (rs, m) /\
    run (lib_discover pattern) (mkWorld m (Some ns') 0 []) = (Done found, mkWorld m' (Some ns') 0 []) /\
    forall ts', mkDiscovered region uri pid ts' ∈ found <->
      ts' = ts /\ saturating_sub now 10000000 <= ts /\ uri_matches pattern uri = true.
Proof.
  intros [Hb Ha]%Forall_app Hg Hu Hgl Hul Hroom ts now Hsp.
  set (ops := before ++ (Some ns, OpRegister region uri pid) :: after).
  destruct (run_ops_refines ops _ empty open_fresh) as (m & Hr & Hm).
  { apply Forall_app. split; [done|]. by constructor. }
  set (tbl := (spec_ops ops empty).2) in *.
  assert (Hd : distinct tbl) by (apply distinct_ops; by intros i j t t' _ _ ?).
  assert (Hann : announces tbl (mkDiscovered region uri pid ts)).
  { unfold tbl, ops. rewrite spec_ops_app. cbn [spec_ops spec_op].
    match goal with |- context [spec_ops after ?t] => set (tbl1 := t) end.
    assert (H1 : announces tbl1 (mkDiscovered region uri pid ts)) by (by apply register_announces).
    pose proof (announces_ops after tbl1 _ Hsp H1) as H2. by destruct (spec_ops after tbl1). }
  destruct (lib_discover_run pattern m ns' tbl Hm) as (m' & Hdisc).
  eexists _, m, _, m'. split; [exact Hr|]. split; [exact Hdisc|]. intros ts'. rewrite elem_of_listing. split.
  - intros (i & Hi & [[Ht Hp]%keep_some Hpat]%keep_some). destruct Hann as (j & Hj & Ht').
    assert (j = i) as -> by by eapply Hd. rewrite Ht in Ht'. simplify_eq. split; [done|].
    split; [by apply Z.leb_le in Hp|done].
  - intros (-> & Hle & Hpat). apply announces_keep; [done|]. apply announces_keep; [|done]. by apply Z.leb_le.
Qed.

(** The third of four announcements, with a refresh, a discovery and a prune afterwards:
    it is found after 10 seconds, and not a microsecond later. *)
Lemma announcement_lifetime_witness :
  exists rs m found m' found' m'',
    run_ops ([(Some 1000, OpRegister [113] [47; 98] 8); (Some 1000, OpRegister [112] [47; 98] 7)] ++
      (Some 1000, OpRegister [112] [47; 97] 7) ::
      [(Some 2000, OpRegister [113] [47; 98] 8); (Some 3000, OpRegister [113] [47; 99] 8);
       (Some 3000, OpDiscover [42]); (Some 9000000000, OpPrune 10000000000)]) (open_at None) = Some (rs, m) /\
    run (lib_discover [42]) (mkWorld m (Some 10000001000) 0 []) = (Done found, mkWorld m' (Some 10000001000) 0 []) /\
    mkDiscovered [112] [47; 97] 7 1 ∈ found /\
    run (lib_discover [42]) (mkWorld m (Some 10000002000) 0 []) = (Done found', mkWorld m'' (Some 10000002000) 0 []) /\
    (mkDiscovered [112] [47; 97] 7 1 ∉ found').
Proof.
  pose (before := [(Some 1000, OpRegister [113] [47; 98] 8); (Some 1000, OpRegister [112] [47; 98] 7)]).
  pose (after := [(Some 2000, OpRegister [113] [47; 98] 8); (Some 3000, OpRegister [113] [47; 99] 8);
       (Some 3000, OpDiscover [42]); (Some 9000000000, OpPrune 10000000000)]).
  assert (H : forall ns', exists rs m found m',
    run_ops (before ++ (Some 1000, OpRegister [112] [47; 97] 7) :: after) (open_at None) = Some (rs, m) /\
    run (lib_discover [42]) (mkWorld m (Some ns') 0 []) = (Done found, mkWorld m' (Some ns') 0 []) /\
    forall ts', mkDiscovered [112] [47; 97] 7 ts' ∈ found <->
      ts' = 1 /\ saturating_sub (wrap64 (duration_as_micros ns')) 10000000 <= 1 /\ uri_matches [42] [47; 97] = true).
  { intros ns'. apply (announcement_lifetime before after [112] [47; 97] 7 [42] 1000 ns').
    - repeat constructor; vm_compute; congruence.
    - split; [reflexivity|repeat constructor; lia].
    - split; [reflexivity|repeat constructor; lia].
    - unfold RE_REGION_NAME_MAX. cbn. lia.
    - unfold RE_TOPIC_URI_MAX. cbn. lia.
    - exists 2. split; [apply (bool_decide_unpack _); vm_compute; exact I|vm_compute; reflexivity].
    - repeat constructor; vm_compute; intuition congruence. }
  destruct (H 10000001000) as (rs & m & found & m' & H1 & H2 & H3).
  destruct (H 10000002000) as (rs' & m1 & found' & m'' & H1' & H2' & H3').
  rewrite H1 in H1'. injection H1' as <- <-.
  exists rs, m, found, m', found', m''. split; [exact H1|]. split; [exact H2|].
  split; [apply H3; vm_compute; intuition congruence|]. split; [exact H2'|].
  intros Hin. apply H3' in Hin as (_ & Hle & _). vm_compute in Hle. congruence.
Defined.

(** ** Layout *)

(** The fields the code accesses. *)
Definition reg_valid (c : rcell) : Prop :=
  match c with
  | REActive i | REPid i | RETimestamp i => i ∈ entries
  | RERegionName i j => i ∈ entries /\ 0 <= j < Z.of_nat RE_REGION_NAME_MAX
  | RETopicUri i j => i ∈ entries /\ 0 <= j < Z.of_nat RE_TOPIC_URI_MAX
  | _ => True
  end.

(** C33. The registry's layout is sound: every field lies inside the file, no two fields
    overlap, and the atomic words and the timestamps are naturally aligned. *)
Theorem registry_layout c c' :
  reg_valid c -> reg_valid c' ->
  let '(off, width) := reg_field c in
  let '(off', width') := reg_field c' in
  0 <= off /\ off + width <= REG_TOTAL_SIZE /\ off mod width = 0 /\
  (c <> c' -> off + width <= off' \/ off' + width' <= off).
Proof.
  destruct c as [| | | |i|i|i|i j|i j]; destruct c' as [| | | |i'|i'|i'|i' j'|i' j'];
    cbn [reg_field reg_valid]; unfold entries, entry_ptr, REG_TOTAL_SIZE, REG_HEADER_SIZE, REG_ENTRY_SIZE,
    REG_MAX_ENTRIES, RE_REGION_NAME_MAX, RE_TOPIC_URI_MAX; rewrite ?elem_of_seqZ_0; intros Hc Hc';
    (split; [lia|]; split; [lia|]; split; [Z.div_mod_to_equations; lia|]; intros Hne);
    first [done | lia |
      match goal with
      | Hne : ?f ?x <> ?f ?y |- _ => destruct (Z.eq_dec x y) as [->|]; [done|lia]
      | Hne : ?f ?x ?a <> ?f ?y ?b |- _ =>
          destruct (Z.eq_dec x y) as [->|]; [destruct (Z.eq_dec a b) as [->|]; [done|lia]|lia]
      end].
Qed.

Lemma registry_layout_witness :
  let '(off, width) := reg_field (RETopicUri 255 63) in
  let '(off', width') := reg_field (REActive 255) in
  0 <= off /\ off + width <= REG_TOTAL_SIZE /\ off mod width = 0 /\
  (RETopicUri 255 63 <> REActive 255 -> off + width <= off' \/ off' + width' <= off).
Proof.
  apply (registry_layout (RETopicUri 255 63) (REActive 255));
    unfold reg_valid, entries; rewrite elem_of_seqZ_0; unfold REG_MAX_ENTRIES, RE_TOPIC_URI_MAX; lia.
Defined.

(** ** Two processes at once *)

Module RegRace.

(** Process 7 announces a topic and withdraws it. *)
Definition history : list (option Z * reg_op) :=
  [(Some 5000, OpRegister [112] [47; 97] 7); (Some 6000, OpUnregister [112] 7)].
Definition memory : cellmem rcell :=
  match run_ops history (open_at None) with Some (_, m) => m | None => open_at None end.

(** Process 8 announces another topic while process 9 lists all topics. *)
Definition threads : list (prog rcell (list DiscoveredTopic)) :=
  [op_prog (OpRegister [113] [47; 98] 8); op_prog (OpDiscover [42])].
Definition schedule : list (nat * nat) := [(0, 258); (1, 600)]%nat.
Definition final : list (prog rcell (list DiscoveredTopic)) * hstate rcell :=
  exec (fun _ => None) (Some 7000) schedule threads (h_init memory).

(** Two processes open the registry: the stage of each, and the file. *)
Record opening : Type := mkOpening { op_stages : list open_stage; op_file : reg_file }.

(** A process takes the next step of opening, or, once it has opened the file, performs
    an operation on it. *)
Inductive rstep : opening -> opening -> Prop :=
| rs_open i stage stages file :
    stages !! i = Some stage ->
    rstep (mkOpening stages file)
          (mkOpening (<[i := (open_step stage file).1]> stages) (open_step stage file).2)
| rs_op i op now stages len m r w :
    stages !! i = Some Opened -> run (op_prog op) (mkWorld m now 0 []) = (Done r, w) ->
    rstep (mkOpening stages (Some (len, m))) (mkOpening stages (Some (len, w_mem w))).

(** The first process opens the registry and announces "/a"; the second had looked for
    the file before. *)
Definition announced : cellmem rcell :=
  match run_ops [(Some 5000, OpRegister [112] [47; 97] 7)] (open_at None) with
  | Some (_, m) => m
  | None => open_at None
  end.

Definition listed (m : cellmem rcell) : outcome (list DiscoveredTopic) :=
  (run (discover [42]) (mkWorld m None 0 [])).1.

Lemma both_look : rtc rstep (mkOpening [Look; Look] None)
  (mkOpening [Opened; Truncate] (Some (REG_TOTAL_SIZE, announced))).
Proof.
  eapply rtc_l; [by apply (rs_open 1 Look)|]. eapply rtc_l; [by apply (rs_open 0 Look)|].
  eapply rtc_l; [by apply (rs_open 0 Truncate)|]. eapply rtc_l; [by apply (rs_open 0 SetLen)|].
  eapply rtc_l; [by apply (rs_open 0 WriteHeader)|].
  eapply rtc_l; [|apply rtc_refl].
  destruct (op_run (OpRegister [112] [47; 97] 7) (mkWorld (open_at None) (Some 5000) 0 []) empty)
    as (m' & Hr & _); [repeat constructor; done|exact open_fresh|].
  assert (Ha : announced = m') by (unfold announced; cbn [run_ops]; by rewrite Hr).
  rewrite Ha. exact (rs_op 0 _ (Some 5000) [Opened; Truncate] REG_TOTAL_SIZE (open_at None) _ _ eq_refl Hr).
Qed.

End RegRace.

(** C35. The registry is not safe for concurrent use. (1) An entry is marked active before
    its fields are written, so a process that lists topics while another one registers
    can report an announcement that was withdrawn before either operation began (here
    the topic "/a" of process 7, from an abstractly empty registry to which only process
    8 is adding "/b"). (2) Opening takes no lock: when two processes both find no
    registry, the second one truncates the file that the first has created and mapped,
    so for a moment the first one's mapping lies beyond the end of the file, and then the
    announcements made through it are gone, although nobody withdrew them. *)
Theorem discover_race :
  (listing (fun _ => true) (spec_ops RegRace.history empty).2 = [] /\
   exists ps s, rtc (cstep (fun _ => None)) (RegRace.threads, h_init RegRace.memory) (ps, s) /\
     ps !! 1%nat = Some (Ret [mkDiscovered [112] [47; 97] 7 5])) /\
  exists m0 m1 m2,
    rtc RegRace.rstep (RegRace.mkOpening [Look; Look] None)
      (RegRace.mkOpening [Opened; Truncate] (Some (REG_TOTAL_SIZE, m0))) /\
    RegRace.listed m0 = Done [mkDiscovered [112] [47; 97] 7 5] /\
    RegRace.rstep (RegRace.mkOpening [Opened; Truncate] (Some (REG_TOTAL_SIZE, m0)))
      (RegRace.mkOpening [Opened; SetLen] (Some (0, m1))) /\
    rtc RegRace.rstep (RegRace.mkOpening [Opened; SetLen] (Some (0, m1)))
      (RegRace.mkOpening [Opened; Opened] (Some (REG_TOTAL_SIZE, m2))) /\
    RegRace.listed m2 = Done [].
Proof.
  split; [split; [vm_compute; reflexivity|]|].
  - exists RegRace.final.1, RegRace.final.2. split; [|vm_compute; reflexivity].
    pose proof (exec_sound (fun _ => None) (Some 7000) RegRace.schedule RegRace.threads (h_init RegRace.memory)) as H.
    unfold RegRace.final in *. by destruct (exec _ _ _ _ _).
  - exists RegRace.announced, (fun _ => 0), (open_at None). split; [apply RegRace.both_look|].
    split; [vm_compute; reflexivity|]. split; [by apply (RegRace.rs_open 1 Truncate)|].
    split; [|vm_compute; reflexivity].
    eapply rtc_l; [by apply (RegRace.rs_open 1 SetLen)|]. apply rtc_once. by apply (RegRace.rs_open 1 WriteHeader).
Qed.
