(* ===== verification/RingSeq.v ===== *)
(** * RingSeq: the window of a ring, run alone

    What a subscriber gets when nothing interferes: the ring keeps the last
    [ring_depth] messages of a topic, a receive returns the oldest one not yet
    received that is still there, and a commit extends the window by one. *)

From S2P Require Import Prelude Errors Layout Atomics ShmBytes Pool Ring Wait Subscription Loan.

Local Abbreviation cworld := (world cell (cellmem cell)).

(** Slot of message [q] holds block [b] with [len] bytes. *)
Record slot_holds (config : Config) (m : cellmem cell) (ti q b len : Z) : Prop := {
  sh_seq : m (RESeq ti (ring_slot config q)) = q;
  sh_idx : m (REBlockIdx ti (ring_slot config q)) = b;
  sh_len : m (REDataLen ti (ring_slot config q)) = len;
  sh_block : block_ok config b;
  sh_fits : 0 <= len <= block_size config - BLOCK_DATA_OFFSET;
  sh_live : 0 < m (BKRefcount b)
}.

(** The messages still in the ring after [ws] commits. *)
Definition in_ring (config : Config) (ws q : Z) : Prop :=
  1 <= q <= ws /\ ws - ring_depth config < q.

Record window (config : Config) (m : cellmem cell) (ti ws : Z) (msg : Z -> Z * Z) : Prop := {
  wi_seq : m (TEWriteSeq ti) = ws;
  wi_range : 0 <= ws < SEQ_WRITING - 1;
  wi_slot : forall q, in_ring config ws q -> slot_holds config m ti q (msg q).1 (msg q).2;
  wi_empty : forall q, ws < q <= ring_depth config ->
    m (REBlockIdx ti (ring_slot config q)) = NO_BLOCK;
  wi_inj : forall q q', in_ring config ws q -> in_ring config ws q' -> (msg q).1 = (msg q').1 -> q = q'
}.

(** The next message for a reader that has received up to [last]. *)
Definition next_seq (config : Config) (last ws : Z) : Z := Z.max (last + 1) (ws - ring_depth config + 1).

Section Receive.
Context (config : Config).
Hypothesis (Hcfg : config_u32 config).
Hypothesis (Hpow : is_power_of_two (ring_depth config) = true).
Hypothesis (Hbs : BLOCK_DATA_OFFSET + 1 <= block_size config).
Context (r : Region) (Hr : rg_config r = config).

Lemma capacity_eq : data_capacity r = block_size config - BLOCK_DATA_OFFSET.
Proof.
  unfold data_capacity. rewrite Hr. unfold config_u32, in_u32, BLOCK_DATA_OFFSET in *.
  apply wrap64_small. lia.
Qed.

(** Taking a reference, as memory. *)
Definition add_ref (m : cellmem cell) (b : Z) : cellmem cell :=
  upd m (BKRefcount b) (wrap32 (m (BKRefcount b) + 1)).

Lemma read_slot_hit fuel st q b len (w : cworld) :
  st_region st = r -> slot_holds config (w_mem w) (st_topic_idx st) q b len ->
  run (try_read_slot_raw (S fuel) st q) w =
    (Done (Some (set_last_seq st q, mkSlotRead b len)), set_mem w (add_ref (w_mem w) b)).
Proof.
  intros Hst [H1 H2 H3 H4 H5 H6]. unfold try_read_slot_raw. rewrite Hst, Hr. run_simpl.
  rewrite H1, Z.eqb_refl. cbn [negb]. run_simpl. rewrite H2, H3.
  pose proof (block_ok_not_none _ _ Hcfg H4). pose proof H4 as H4'. unfold block_ok in H4'.
  rewrite capacity_eq. zb_rewrite. unfold block_refcount_checked, block_ptr_checked. rewrite Hr.
  zb_rewrite. cbn [mbind option_bind acquire_ref]. run_simpl. zb_rewrite. run_simpl.
  rewrite Z.eqb_refl. run_simpl. cbn [negb]. run_simpl. rewrite upd_ne by done. rewrite H1, Z.eqb_refl. done.
Qed.

Lemma scan_start_next last ws :
  0 <= last < ws -> ws < 2 ^ 64 ->
  scan_start (ring_depth config) last ws = next_seq config last ws.
Proof.
  intros Hl Hw. pose proof (is_power_of_two_pos _ Hpow). unfold scan_start, next_seq.
  rewrite wrap64_small by lia. destruct (Z.leb_spec (ring_depth config) (ws - (last + 1))); lia.
Qed.

Lemma next_in_ring last ws : 0 <= last < ws -> in_ring config ws (next_seq config last ws).
Proof. pose proof (is_power_of_two_pos _ Hpow). unfold in_ring, next_seq. lia. Qed.

Lemma scan_hit fuel st ws msg (w : cworld) :
  st_region st = r -> window config (w_mem w) (st_topic_idx st) ws msg ->
  0 <= st_last_seq st < ws ->
  run (scan_slots (S fuel) st) w =
    let q := next_seq config (st_last_seq st) ws in
    (Done (Some (set_last_seq st q, mkSlotRead (msg q).1 (msg q).2)),
     set_mem w (add_ref (w_mem w) (msg q).1)).
Proof.
  intros Hst Hw Hl. destruct Hw as [W1 W2 W3 W5 W4]. unfold SEQ_WRITING, u64_max in W2.
  unfold scan_slots. rewrite Hst, Hr. run_simpl. rewrite W1. zb_rewrite.
  rewrite scan_start_next by lia. set (q := next_seq config (st_last_seq st) ws).
  pose proof (next_in_ring (st_last_seq st) ws Hl) as Hin. fold q in Hin.
  rewrite seqZ_cons by (unfold in_ring in Hin; lia). cbn [for_return].
  rewrite run_bind, run_bind, (read_slot_hit fuel st q _ _ w Hst (W3 q Hin)). done.
Qed.

(** Several receives in a row. *)
Fixpoint recv_n (fuel n : nat) (st : Stream) : prog cell (Stream * list Sample) :=
  match n with
  | O => Ret (st, [])
  | S n' =>
      let* (st1, o) := try_recv fuel st in
      match o with
      | None => Ret (st1, [])
      | Some s =>
          let* (st2, rest) := recv_n fuel n' st1 in
          Ret (st2, s :: rest)
      end
  end.

Definition sample_of (msg : Z -> Z * Z) (q : Z) : Sample := mkSample r (msg q).1 (msg q).2.

(** References still fit their 32 bits after [n] more. *)
Definition room (m : cellmem cell) (n : nat) : Prop :=
  forall b, 0 <= m (BKRefcount b) + Z.of_nat n < 2 ^ 32 /\ 0 <= m (BKRefcount b).

Lemma add_ref_window m ti ws msg b n :
  room m (S n) -> window config m ti ws msg ->
  window config (add_ref m b) ti ws msg /\ room (add_ref m b) n.
Proof.
  intros Hroom [W1 W2 W3 W5 W4]. unfold room in *. split.
  - split; try done. intros q Hq. destruct (W3 q Hq) as [A1 A2 A3 A4 A5 A6]. split; try done.
    unfold add_ref, upd. case_decide as Hd; [|done]. destruct (Hroom b).
    rewrite wrap32_small by lia. lia.
  - intros b'. destruct (Hroom b'), (Hroom b). unfold add_ref, upd.
    case_decide as Hd; [|lia]. injection Hd as <-. rewrite wrap32_small by lia. lia.
Qed.

Lemma recv_n_run fuel n st ws msg (w : cworld) :
  st_region st = r -> window config (w_mem w) (st_topic_idx st) ws msg -> room (w_mem w) n ->
  0 <= st_last_seq st <= ws -> 0 < ws ->
  next_seq config (st_last_seq st) ws + Z.of_nat n <= ws + 1 ->
  exists w', run (recv_n (S fuel) n st) w =
    (Done (match n with O => st | _ => set_last_seq st (next_seq config (st_last_seq st) ws + Z.of_nat n - 1) end,
           map (sample_of msg) (seqZ (next_seq config (st_last_seq st) ws) (Z.of_nat n))), w').
Proof.
  revert st w. induction n as [|n IH]; intros st w Hst Hw Hroom Hl Hpos Hn.
  { exists w. done. }
  set (q := next_seq config (st_last_seq st) ws) in *.
  pose proof (is_power_of_two_pos _ Hpow) as Hd.
  assert (Hlt : st_last_seq st < ws) by (unfold q, next_seq in Hn; lia).
  cbn [recv_n]. rewrite run_bind. unfold try_recv at 1. rewrite run_bind.
  rewrite (scan_hit fuel st ws msg w Hst Hw (conj (proj1 Hl) Hlt)). cbn zeta. fold q.
  cbn [run sr_block_idx sr_data_len fst snd]. rewrite run_bind.
  destruct (add_ref_window _ _ _ _ (msg q).1 n Hroom Hw) as [Hw' Hroom'].
  assert (Hq' : n <> 0%nat -> next_seq config q ws = q + 1).
  { intros Hn0. unfold next_seq. unfold q, next_seq. unfold q, next_seq in Hn. lia. }
  destruct (decide (n = 0%nat)) as [->|Hn0].
  { cbn. rewrite Hst. exists (set_mem w (add_ref (w_mem w) (msg q).1)). rewrite seqZ_cons by lia. cbn.
    change (Z.of_nat 1) with 1. by replace (q + 1 - 1) with q by lia. }
  destruct (IH (set_last_seq st q) (set_mem w (add_ref (w_mem w) (msg q).1))) as (w' & Hr').
  - done.
  - done.
  - done.
  - cbn. unfold q, next_seq in *. lia.
  - done.
  - cbn [set_last_seq st_last_seq]. rewrite Hq' by done. lia.
  - exists w'. rewrite Hr'. cbn [run set_last_seq st_last_seq]. rewrite Hq' by done.
    rewrite (seqZ_cons q) by lia. replace (Z.succ q) with (q + 1) by lia.
    replace (Z.pred (Z.of_nat (S n))) with (Z.of_nat n) by lia. cbn [map].
    destruct n as [|n]; [done|].
    replace (q + 1 + Z.of_nat (S n) - 1) with (q + Z.of_nat (S (S n)) - 1) by lia.
    unfold set_last_seq, sample_of. cbn [st_region st_topic_idx st_type_size]. by rewrite Hst.
Qed.

End Receive.

Section CommitSeq.
Context (config : Config).
Hypothesis (Hcfg : config_u32 config).
Hypothesis (Hpow : is_power_of_two (ring_depth config) = true).
Context (r : Region) (Hr : rg_config r = config).
Context (ti : Z).

(** The blocks a commit of [b] may touch are where they should be: [b] is not in the
    pool, the ring's blocks are neither in the pool nor [b], and the recycled block
    is none of them. *)
Record commit_pre (m : cellmem cell) (ws : Z) (msg : Z -> Z * Z) (l : list Z) (b len : Z) : Prop := {
  cp_window : window config m ti ws msg;
  cp_pool : pool_repr config m l;
  cp_block : block_ok config b;
  cp_len : 0 <= len <= block_size config - BLOCK_DATA_OFFSET;
  cp_fresh : forall q, in_ring config ws q -> (msg q).1 <> b /\ (msg q).1 ∉ l;
  cp_recycled : m (LastFreed (rg_handle r)) = NO_BLOCK \/
    (block_ok config (m (LastFreed (rg_handle r))) /\ (m (LastFreed (rg_handle r)) ∉ l) /\
     forall q, in_ring config ws q -> (msg q).1 <> m (LastFreed (rg_handle r)))
}.

Lemma slot_inj ws q q' :
  0 <= ws -> in_ring config ws q -> in_ring config ws q' ->
  ring_slot config q = ring_slot config q' -> q = q'.
Proof.
  intros Hws Hq Hq'. unfold in_ring in *. pose proof (is_power_of_two_pos _ Hpow).
  rewrite !ring_slot_mod by (done || lia). intros He.
  destruct (Z.le_ge_cases q q').
  - apply (mod_window_inj _ _ (ring_depth config)); try done. lia.
  - symmetry. apply (mod_window_inj _ _ (ring_depth config)); try done. lia.
Qed.

(** The memory after steps 1 to 6. *)
Definition installed_mem (m : cellmem cell) (q b len : Z) : cellmem cell :=
  let s := ring_slot config q in
  upd (upd (upd (upd (upd (upd m (TEWriteSeq ti) q) (RESeq ti s) SEQ_WRITING) (BKRefcount b) 1)
         (REBlockIdx ti s) b) (REDataLen ti s) len) (RESeq ti s) q.

Lemma installed_slot m q b len :
  block_ok config b -> 0 <= len <= block_size config - BLOCK_DATA_OFFSET ->
  slot_holds config (installed_mem m q b len) ti q b len.
Proof.
  intros Hb Hl. unfold installed_mem.
  split; try done; rewrite ?upd_ne by done; rewrite ?upd_eq; try done;
    repeat (rewrite upd_ne by done); rewrite ?upd_eq; done.
Qed.

Lemma installed_other m q b len c :
  c <> TEWriteSeq ti -> c <> RESeq ti (ring_slot config q) -> c <> BKRefcount b ->
  c <> REBlockIdx ti (ring_slot config q) -> c <> REDataLen ti (ring_slot config q) ->
  installed_mem m q b len c = m c.
Proof. intros. unfold installed_mem. by rewrite !upd_ne by congruence. Qed.

(** The cells a reader of the window looks at. *)
Definition reader_cell (c : cell) : bool :=
  match c with RESeq _ _ | REBlockIdx _ _ | REDataLen _ _ | TEWriteSeq _ | BKData _ _ => true | _ => false end.

(** The recycled block as a list: the free list gets it when another one takes its place. *)
Definition recycled (lf : Z) : list Z := if lf =? NO_BLOCK then [] else [lf].

(** The ring's reference to [ob] is gone: its count is one lower; when that was the last
    reference, [ob] is the handle's recycled block and the one recycled before is at the
    head of the free list, otherwise neither changed. *)
Record released (m m' : cellmem cell) (l : list Z) (ob : Z) : Prop := {
  re_count : m' (BKRefcount ob) = wrap32 (m (BKRefcount ob) - 1);
  re_last : m (BKRefcount ob) = 1 ->
    m' (LastFreed (rg_handle r)) = ob /\
    pool_repr config m' (recycled (m (LastFreed (rg_handle r))) ++ l);
  re_shared : m (BKRefcount ob) <> 1 ->
    m' (LastFreed (rg_handle r)) = m (LastFreed (rg_handle r)) /\ pool_repr config m' l
}.

(** Dropping the replaced block [ob] releases it and touches nothing a reader looks at. *)
Lemma release_old_run fuel l ob (w : cworld) :
  pool_repr config (w_mem w) l ->
  let lf := w_mem w (LastFreed (rg_handle r)) in
  lf = NO_BLOCK \/ (block_ok config lf /\ (lf ∉ l)) ->
  exists w', run (release_old r (S fuel) ob) w = (Done tt, w') /\
    (forall c, reader_cell c = true -> w_mem w' c = w_mem w c) /\
    (forall b', b' <> ob -> w_mem w' (BKRefcount b') = w_mem w (BKRefcount b')) /\
    (block_ok config ob -> released (w_mem w) (w_mem w') l ob) /\
    (ob = NO_BLOCK -> w' = w).
Proof.
  intros Hp lf Hlf. unfold release_old. rewrite Hr.
  destruct (negb (ob =? NO_BLOCK) && (ob <? block_count config)) eqn:Hcond.
  2:{ exists w. do 3 (split; [done|]). split; [|done]. intros Hok.
      pose proof (block_ok_not_none _ _ Hcfg Hok). unfold block_ok in Hok.
      apply andb_false_iff in Hcond as [Hc|Hc]; [|lia]. apply negb_false_iff in Hc. lia. }
  assert (Hnone : ob <> NO_BLOCK) by (intros ->; done).
  run_simpl. destruct (Z.eqb_spec (w_mem w (BKRefcount ob)) 1) as [H1|H1]; run_simpl.
  2:{ eexists. split; [done|]. cbn [w_mem set_mem]. split; [|split; [|split; [|done]]].
      - intros c Hc. rewrite upd_ne; [done|]. by intros <-.
      - intros b' Hne. by rewrite upd_ne by congruence.
      - intros _. split; [by rewrite upd_eq|done|]. intros _. rewrite upd_ne by done.
        split; [done|]. eapply pool_repr_frame; [| |exact Hp]; intros; by rewrite upd_ne. }
  rewrite upd_ne by done. fold lf. set (w1 := set_mem _ _).
  assert (Hw1 : forall c, c <> BKRefcount ob -> c <> LastFreed (rg_handle r) ->
    w_mem w1 c = w_mem w c) by (intros; unfold w1; cbn; by rewrite !upd_ne by congruence).
  assert (Hread : forall c, reader_cell c = true -> w_mem w1 c = w_mem w c).
  { intros c Hc. apply Hw1; by intros ->. }
  assert (Hcnt : w_mem w1 (BKRefcount ob) = wrap32 (w_mem w (BKRefcount ob) - 1)).
  { unfold w1. cbn. by rewrite upd_ne, upd_eq by done. }
  assert (Hlast : w_mem w1 (LastFreed (rg_handle r)) = ob) by (unfold w1; cbn; by rewrite upd_eq).
  assert (Hp1 : pool_repr config (w_mem w1) l)
    by (eapply pool_repr_frame; [| |exact Hp]; intros; by apply Hw1).
  clearbody w1.
  destruct (Z.eqb_spec lf NO_BLOCK) as [He|He]; cbn [negb].
  { exists w1. split; [done|]. split; [done|]. split; [intros b' Hne; apply Hw1; congruence|].
    split; [|done]. intros _. split; [done| |done]. intros _. split; [done|].
    fold lf. unfold recycled. by rewrite He, Z.eqb_refl. }
  destruct Hlf as [Hlf|[Hok Hnin]]; [done|].
  destruct (free_block_spec r) with (fuel := fuel) (w := w1) (l := l) (b := lf)
    as (w2 & Hrun & Hp2 & Hsame & _); [by rewrite Hr|by rewrite Hr|by rewrite Hr|done|].
  exists w2. split; [exact Hrun|]. split; [|split; [|split; [|done]]].
  - intros c Hc. rewrite Hsame; [by apply Hread|]. by destruct c; set_solver.
  - intros b' Hne. rewrite Hsame by set_solver. apply Hw1; congruence.
  - intros _. split; [by rewrite Hsame by set_solver| |done]. intros _.
    split; [by rewrite Hsame by set_solver|]. fold lf. unfold recycled.
    rewrite (proj2 (Z.eqb_neq _ _) He). rewrite Hr in Hp2. exact Hp2.
Qed.

Lemma smart_wake_run wake (w : cworld) :
  exists w', run (smart_wake wake ti) w = (Done tt, w') /\ w_mem w' = w_mem w.
Proof.
  unfold smart_wake. destruct wake; [|by exists w]. run_simpl.
  destruct (0 <? _); run_simpl; eexists; done.
Qed.

(** The block of the message that commit [ws + 1] replaces, once the ring is full. *)
Definition oldest (ws : Z) (msg : Z -> Z * Z) : option Z :=
  if ws + 1 <=? ring_depth config then None else Some (msg (ws + 1 - ring_depth config)).1.

Lemma replaced_block m ws msg :
  window config m ti ws msg ->
  m (REBlockIdx ti (ring_slot config (ws + 1))) = default NO_BLOCK (oldest ws msg).
Proof.
  intros [W1 W2 W3 W5 W4]. pose proof (is_power_of_two_pos _ Hpow) as Hd. unfold oldest.
  destruct (Z.leb_spec (ws + 1) (ring_depth config)) as [Hle|Hgt]; [apply W5; lia|].
  assert (Hold : in_ring config ws (ws + 1 - ring_depth config)) by (unfold in_ring; lia).
  destruct (W3 _ Hold) as [_ Hidx _ _ _ _]. cbn. rewrite <- Hidx. do 2 f_equal.
  rewrite !ring_slot_mod by (done || lia).
  replace (ws + 1 - ring_depth config) with (ws + 1 + (-1) * ring_depth config) by lia.
  by rewrite Z.mod_add by lia.
Qed.

Lemma oldest_in_ring m ws msg ob :
  window config m ti ws msg -> oldest ws msg = Some ob ->
  exists q, in_ring config ws q /\ q = ws + 1 - ring_depth config /\ (msg q).1 = ob.
Proof.
  intros [W1 W2 _ _ _]. pose proof (is_power_of_two_pos _ Hpow) as Hd. unfold oldest.
  destruct (Z.leb_spec (ws + 1) (ring_depth config)) as [Hle|Hgt]; [done|]. intros [= <-].
  eexists. split; [|done]. unfold in_ring. lia.
Qed.

(** The references after the commit: one on [b], one less on the block of the message
    that was replaced, if any, the others as before. *)
Record references (m m' : cellmem cell) (ws : Z) (msg : Z -> Z * Z) (l : list Z) (b : Z) : Prop := {
  rf_new : m' (BKRefcount b) = 1;
  rf_old : match oldest ws msg with
    | Some ob => released m m' l ob
    | None => m' (LastFreed (rg_handle r)) = m (LastFreed (rg_handle r)) /\ pool_repr config m' l
    end;
  rf_others : forall b', b' <> b -> oldest ws msg <> Some b' ->
    m' (BKRefcount b') = m (BKRefcount b')
}.

(** The block the slot of the next message held is no block of the new window. *)
Lemma old_block m ws msg l b len :
  commit_pre m ws msg l b len ->
  let ob := m (REBlockIdx ti (ring_slot config (ws + 1))) in
  forall q, in_ring config (ws + 1) q -> q <> ws + 1 -> (msg q).1 <> ob.
Proof.
  intros [Hwin C2 C3 C4 C5 C6] ob q Hq Hne. unfold ob. rewrite (replaced_block _ _ _ Hwin).
  pose proof Hwin as [W1 W2 W3 W5 W4]. unfold in_ring in Hq.
  assert (Hq' : in_ring config ws q) by (unfold in_ring; lia).
  destruct (oldest ws msg) as [o|] eqn:Ho; cbn.
  - destruct (oldest_in_ring _ _ _ _ Hwin Ho) as (q0 & Hin & -> & <-). intros Heq.
    pose proof (W4 _ _ Hq' Hin Heq). lia.
  - destruct (W3 q Hq') as [_ _ _ Hok _ _]. by eapply block_ok_not_none.
Qed.

Definition add_msg (msg : Z -> Z * Z) (q b len : Z) : Z -> Z * Z :=
  fun q' => if decide (q' = q) then (b, len) else msg q'.

(** From the installed slot to the new window. *)
Lemma window_after m m' ws msg l b len :
  commit_pre m ws msg l b len -> 0 <= ws + 1 < SEQ_WRITING - 1 ->
  (forall c, reader_cell c = true -> m' c = installed_mem m (ws + 1) b len c) ->
  (forall b', b' <> m (REBlockIdx ti (ring_slot config (ws + 1))) ->
     m' (BKRefcount b') = installed_mem m (ws + 1) b len (BKRefcount b')) ->
  window config m' ti (ws + 1) (add_msg msg (ws + 1) b len).
Proof.
  intros Hpre Hmax Hrd Hrc. pose proof (old_block _ _ _ _ _ _ Hpre) as Hold.
  pose proof Hpre as [[W1 W2 W3 W5 W4] C2 C3 C4 C5 C6]. pose proof (is_power_of_two_pos _ Hpow) as Hd.
  set (q := ws + 1) in *. set (ob := m (REBlockIdx ti (ring_slot config q))) in *.
  assert (Hin : forall q', in_ring config q q' -> q' <> q -> in_ring config ws q')
    by (unfold in_ring; intros; lia).
  assert (Hqin : in_ring config q q) by (unfold in_ring; lia).
  assert (Hslot : forall q', in_ring config q q' -> q' <> q -> ring_slot config q' <> ring_slot config q).
  { intros q' Hq' Hne He. apply Hne. by apply (slot_inj q); [lia|..]. }
  split.
  - rewrite Hrd by done. unfold installed_mem. rewrite !upd_ne by done. by rewrite upd_eq.
  - done.
  - intros q' Hq'. unfold add_msg. case_decide as Hdq.
    + subst q'. cbn [fst snd]. destruct (installed_slot m q b len C3 C4) as [S1 S2 S3 S4 S5 S6].
      split; rewrite ?Hrd by done; try done. rewrite Hrc; [done|].
      unfold ob, q. rewrite (replaced_block _ _ _ (cp_window _ _ _ _ _ _ Hpre)).
      destruct (oldest ws msg) as [o|] eqn:Ho; cbn; [|by eapply block_ok_not_none].
      destruct (oldest_in_ring _ _ _ _ (cp_window _ _ _ _ _ _ Hpre) Ho) as (q0 & Hq0 & _ & <-).
      destruct (C5 _ Hq0) as [Hne _]. congruence.
    + destruct (W3 q' (Hin q' Hq' Hdq)) as [S1 S2 S3 S4 S5 S6].
      pose proof (Hslot q' Hq' Hdq). destruct (C5 q' (Hin q' Hq' Hdq)) as [Hne _].
      split; rewrite ?Hrd by done; rewrite ?installed_other by congruence; try done.
      rewrite Hrc by (by apply Hold). by rewrite installed_other by congruence.
  - intros q' Hq'. rewrite Hrd by done. rewrite installed_other; try done; [apply W5; lia|].
    intros [= He]. rewrite !ring_slot_mod in He by (done || lia).
    assert (q = q') by (apply (mod_window_inj _ _ (ring_depth config)); [lia|lia|congruence]). lia.
  - intros q1 q2 H1 H2. unfold add_msg. repeat case_decide; subst; cbn [fst]; intros He; try done.
    + by destruct (C5 q2) as [? _]; [apply Hin|congruence].
    + by destruct (C5 q1) as [? _]; [apply Hin|congruence].
    + apply W4; auto.
Qed.

(** From the installed slot and the released block to the new references. *)
Lemma references_after m ws msg l b len m' :
  commit_pre m ws msg l b len ->
  let ob := m (REBlockIdx ti (ring_slot config (ws + 1))) in
  let m6 := installed_mem m (ws + 1) b len in
  pool_repr config m6 l ->
  (forall b', b' <> ob -> m' (BKRefcount b') = m6 (BKRefcount b')) ->
  (block_ok config ob -> released m6 m' l ob) -> (ob = NO_BLOCK -> m' = m6) ->
  references m m' ws msg l b.
Proof.
  intros [Hwin C2 C3 C4 C5 C6] ob m6 Hp6 Hrc Hrel Hnone. unfold ob in *. clear ob.
  rewrite (replaced_block _ _ _ Hwin) in *.
  assert (Hnew : m6 (BKRefcount b) = 1)
    by (unfold m6, installed_mem; rewrite ?upd_ne by done; by rewrite upd_eq).
  assert (Hlf : m6 (LastFreed (rg_handle r)) = m (LastFreed (rg_handle r))) by by apply installed_other.
  assert (Hcnt : forall b', b' <> b -> m6 (BKRefcount b') = m (BKRefcount b'))
    by (intros; apply installed_other; congruence).
  destruct (oldest ws msg) as [o|] eqn:Ho; cbn in *.
  - destruct (oldest_in_ring _ _ _ _ Hwin Ho) as (q0 & Hin & _ & <-).
    destruct (C5 _ Hin) as [Hne _]. destruct (wi_slot _ _ _ _ _ Hwin _ Hin) as [_ _ _ Hok _ _].
    destruct (Hrel Hok) as [R1 R2 R3]. rewrite Hcnt, ?Hlf in * by done.
    split; [by rewrite Hrc by congruence| |].
    + rewrite Ho. split; done.
    + intros b' H1 H2. rewrite Hrc by congruence. by apply Hcnt.
  - rewrite (Hnone eq_refl). split; [done| |auto]. rewrite Ho. by rewrite Hlf.
Qed.

Lemma commit_window_run fuel ws msg l b len wake (w : cworld) :
  commit_pre (w_mem w) ws msg l b len -> ws + 1 < SEQ_WRITING - 1 ->
  exists w', run (commit_to_ring r (S fuel) b len ti wake true) w = (Done tt, w') /\
    window config (w_mem w') ti (ws + 1) (add_msg msg (ws + 1) b len) /\
    references (w_mem w) (w_mem w') ws msg l b /\
    (forall b' i, w_mem w' (BKData b' i) = w_mem w (BKData b' i)).
Proof.
  intros Hpre Hmax. pose proof (fun m' => references_after (w_mem w) ws msg l b len m' Hpre) as Href.
  pose proof Hpre as [[W1 W2 W3 W5 W4] C2 C3 C4 C5 C6].
  unfold SEQ_WRITING, u64_max in W2, Hmax. unfold commit_to_ring. rewrite Hr. run_simpl.
  rewrite W1. rewrite !wrap64_small by lia. set (q := ws + 1). set (s := ring_slot config q).
  set (ob := w_mem w (REBlockIdx ti s)).
  assert (Hob : upd (upd (w_mem w) (TEWriteSeq ti) q) (RESeq ti s) SEQ_WRITING (REBlockIdx ti s) = ob)
    by (rewrite !upd_ne by done; done).
  rewrite Hob. rewrite run_bind.
  match goal with |- context [run (release_old _ _ _) ?x] => set (w6 := x) end.
  assert (Hm6 : w_mem w6 = installed_mem (w_mem w) q b len) by reflexivity. clearbody w6.
  assert (Hlf : w_mem w6 (LastFreed (rg_handle r)) = w_mem w (LastFreed (rg_handle r)))
    by (rewrite Hm6; by apply installed_other).
  assert (Hp6 : pool_repr config (w_mem w6) l).
  { eapply pool_repr_frame; [| |exact C2]; intros; rewrite Hm6; by apply installed_other. }
  destruct (release_old_run fuel l ob w6 Hp6) as (w7 & -> & Hrd & Hrc & Hrel & Hnone).
  { rewrite Hlf. destruct C6 as [?|(? & ? & _)]; auto. }
  destruct (smart_wake_run wake w7) as (w8 & -> & Hm8). exists w8. split; [done|]. rewrite Hm8.
  rewrite Hm6 in Hrd, Hrc, Hrel, Hp6.
  split; [|split; [|intros; rewrite Hrd by done; by apply installed_other]].
  - apply window_after with (m := w_mem w) (l := l); try done. unfold SEQ_WRITING, u64_max. lia.
  - apply Href; try done. intros Hno. by rewrite (Hnone Hno), Hm6.
Qed.

End CommitSeq.

(** ** Properties *)

(** C17. Nothing in the window is lost and order is kept: from any state whose ring
    holds the last [ring_depth] messages, [n] receives by a reader at [last] return
    the messages [q, q + 1, ..., q + n - 1], where [q] is the oldest message that is
    both newer than [last] and still in the ring, as long as that many exist. *)
Theorem recv_in_order fuel n config size r st ws msg (w : cworld) :
  layout_ok config size -> is_power_of_two (ring_depth config) = true -> rg_config r = config ->
  st_region st = r -> window config (w_mem w) (st_topic_idx st) ws msg -> room (w_mem w) n ->
  0 <= st_last_seq st <= ws -> 0 < ws ->
  next_seq config (st_last_seq st) ws + Z.of_nat n <= ws + 1 ->
  exists st' w', run (recv_n (S fuel) n st) w =
    (Done (st', map (sample_of r msg) (seqZ (next_seq config (st_last_seq st) ws) (Z.of_nat n))), w').
Proof.
  intros [L1 L2 L3] Hp Hr Hst Hw Hroom Hl Hpos Hn.
  destruct (recv_n_run config L1 Hp L2 r Hr fuel n st ws msg w Hst Hw Hroom Hl Hpos Hn) as (w' & Hrun).
  eauto.
Qed.

(** A ring of depth 4 holding messages 1 and 2, and the free list [0; 1]. *)
Definition demo_mem : cellmem cell := fun c =>
  match c with
  | TEWriteSeq 0 => 2
  | RESeq 0 1 => 1 | REBlockIdx 0 1 => 5 | REDataLen 0 1 => 3
  | RESeq 0 2 => 2 | REBlockIdx 0 2 => 6 | REDataLen 0 2 => 1
  | REBlockIdx _ _ => NO_BLOCK
  | BKRefcount 5 => 1 | BKRefcount 6 => 1
  | BKNext 0 => 1 | BKNext 1 => NO_BLOCK
  | LastFreed _ => NO_BLOCK
  | _ => 0
  end.

Definition demo_msg (q : Z) : Z * Z := if q =? 1 then (5, 3) else (6, 1).

Definition demo_region : Region :=
  {| rg_base := 4096; rg_config := config_small; rg_pool_offset := 0; rg_handle := 0 |}.

Definition demo_stream : Stream :=
  {| st_region := demo_region; st_topic_idx := 0; st_last_seq := 0; st_type_size := 0 |}.

Definition demo_ring : cworld := mkWorld demo_mem None 0 [].

Lemma demo_window : window config_small demo_mem 0 2 demo_msg.
Proof.
  assert (Hq : forall q, in_ring config_small 2 q -> q = 1 \/ q = 2)
    by (unfold in_ring; cbn; intros; lia).
  split.
  - reflexivity.
  - vm_compute. intuition congruence.
  - intros q [-> | ->]%Hq; split; vm_compute; intuition congruence.
  - intros q H. cbn in H. assert (q = 3 \/ q = 4) as [-> | ->] by lia; reflexivity.
  - intros q q' [-> | ->]%Hq [-> | ->]%Hq; vm_compute; congruence.
Defined.

Lemma demo_room : room demo_mem 2.
Proof.
  intros b. assert (demo_mem (BKRefcount b) = 0 \/ demo_mem (BKRefcount b) = 1) by
    (unfold demo_mem; repeat case_match; auto). lia.
Defined.

Lemma recv_in_order_witness :
  exists st' w', run (recv_n 1 2 demo_stream) demo_ring =
    (Done (st', [mkSample demo_region 5 3; mkSample demo_region 6 1]), w').
Proof.
  apply (recv_in_order 0 2 config_small 704 demo_region demo_stream 2 demo_msg demo_ring);
    [exact config_small_ok | reflexivity | reflexivity | reflexivity | exact demo_window
    | exact demo_room | vm_compute; intuition congruence | lia | vm_compute; congruence].
Defined.

(** C18. A commit extends the window and releases what it replaces: from a state whose
    ring holds the last [ring_depth] messages in blocks that are neither free nor recycled,
    the single publisher's commit of a block that is not in the ring
    terminates in one attempt, makes it message [ws + 1] with one reference, keeps every
    younger message of the window and the contents of every block. A full ring gives up
    its reference to the block of its oldest message: when that was the last one, the
    block becomes the handle's recycled block and the block recycled before goes back to
    the free list. No other reference count changes, and a ring that is not full changes
    neither the recycled block nor the free list. *)
Theorem commit_extends_window fuel config r ti ws msg l b len wake (w : cworld) :
  config_u32 config -> is_power_of_two (ring_depth config) = true -> rg_config r = config ->
  commit_pre config r ti (w_mem w) ws msg l b len -> ws + 1 < SEQ_WRITING - 1 ->
  exists w', run (commit_to_ring r (S fuel) b len ti wake true) w = (Done tt, w') /\
    window config (w_mem w') ti (ws + 1) (add_msg msg (ws + 1) b len) /\
    references config r (w_mem w) (w_mem w') ws msg l b /\
    (forall b' i, w_mem w' (BKData b' i) = w_mem w (BKData b' i)).
Proof. intros Hc Hp Hr. by apply commit_window_run. Qed.

(** A full ring: messages 1 to 4 in blocks 4 to 7, block 3 recycled, the free list [0; 1]. *)
Definition full_mem : cellmem cell := fun c =>
  match c with
  | TEWriteSeq 0 => 4
  | RESeq 0 0 => 4 | RESeq 0 s => s
  | REBlockIdx 0 0 => 7 | REBlockIdx 0 s => s + 3
  | REDataLen 0 _ => 1
  | BKRefcount 4 | BKRefcount 5 | BKRefcount 6 | BKRefcount 7 => 1
  | BKNext 0 => 1 | BKNext 1 => NO_BLOCK
  | LastFreed _ => 3
  | _ => 0
  end.

Definition full_msg (q : Z) : Z * Z := (q + 3, 1).

Lemma full_commit_pre : commit_pre config_small demo_region 0 full_mem 4 full_msg [0; 1] 2 5.
Proof.
  assert (Hq : forall q, in_ring config_small 4 q -> q = 1 \/ q = 2 \/ q = 3 \/ q = 4)
    by (unfold in_ring; cbn; intros; lia).
  split.
  - split.
    + reflexivity.
    + vm_compute. intuition congruence.
    + intros q [-> | [-> | [-> | ->]]]%Hq; split; vm_compute; intuition congruence.
    + intros q H. cbn in H. lia.
    + intros q q' _ _. unfold full_msg. cbn. lia.
  - split.
    + exists 0. vm_compute. intuition congruence.
    + vm_compute. intuition congruence.
    + apply (bool_decide_unpack _). vm_compute. exact I.
    + repeat constructor; vm_compute; congruence.
  - vm_compute. intuition congruence.
  - vm_compute. intuition congruence.
  - intros q [-> | [-> | [-> | ->]]]%Hq;
      (split; [vm_compute; congruence|]; apply (bool_decide_unpack _); vm_compute; exact I).
  - right. split; [vm_compute; intuition congruence|].
    split; [apply (bool_decide_unpack _); vm_compute; exact I|].
    intros q [-> | [-> | [-> | ->]]]%Hq; vm_compute; congruence.
Defined.

(** Committing block 2 to it recycles block 4 and frees block 3. *)
Lemma commit_extends_window_witness :
  exists w', run (commit_to_ring demo_region 1 2 5 0 true true) (mkWorld full_mem None 0 []) = (Done tt, w') /\
    window config_small (w_mem w') 0 5 (add_msg full_msg 5 2 5) /\
    w_mem w' (BKRefcount 4) = 0 /\ w_mem w' (LastFreed 0) = 4 /\
    pool_repr config_small (w_mem w') [3; 0; 1].
Proof.
  destruct (commit_extends_window 0 config_small demo_region 0 4 full_msg [0; 1] 2 5 true
    (mkWorld full_mem None 0 [])) as (w' & Hrun & Hwin & [_ Hold _] & _);
    [exact (lo_u32 _ _ config_small_ok) | reflexivity | reflexivity | exact full_commit_pre
    | vm_compute; reflexivity|].
  cbn in Hold. destruct Hold as [Hc Hl _]. destruct (Hl eq_refl) as [H1 H2].
  exists w'. auto.
Defined.
