(* ===== verification/Payload.v ===== *)
(** * Payload: what is written into a loan is what a sample reads
    (src/src/platform/loan.rs, src/src/platform/subscription.rs)

    Sequential specifications of the writes into a loaned block and of the reads
    from a sample: plain and streaming copies, [io::Write], and the structured
    layout of a header followed by an array. *)

From S2P Require Import Prelude Errors Layout Atomics ShmBytes Pool Ring Wait Subscription Loan.

Local Abbreviation cworld := (world cell (cellmem cell)).

(** Block [b] contains [bs] from offset [i]. *)
Definition block_at (m : cellmem cell) (b i : Z) (bs : bytes) : Prop :=
  forall k x, bs !! k = Some x -> m (BKData b (i + Z.of_nat k)) = x.

Lemma store_block_run b i bs (w : cworld) :
  exists m', run (store_block b i bs) w = (Done tt, set_mem w m') /\ block_at m' b i bs /\
    (forall c, (forall k, i <= k < i + blen bs -> c <> BKData b k) -> m' c = w_mem w c).
Proof.
  revert i w. induction bs as [|v bs IH]; intros i w; cbn [store_block].
  - exists (w_mem w). split; [by destruct w|]. split; [by intros k x|done].
  - cbn [bind store run mstore cellmem_memory].
    destruct (IH (i + 1) (set_mem w (upd (w_mem w) (BKData b i) v))) as (m' & Hr & H1 & H2).
    exists m'. split; [exact Hr|]. split.
    + intros [|k] x Hx; cbn in Hx.
      * simplify_eq. rewrite Z.add_0_r, H2; [cbn [w_mem set_mem]; by rewrite upd_eq|].
        intros k Hk [=]. lia.
      * replace (i + Z.of_nat (S k)) with (i + 1 + Z.of_nat k) by lia. by apply H1.
    + intros c Hc. unfold blen in *. cbn [length] in Hc. rewrite H2 by (intros k Hk; apply Hc; lia).
      cbn [w_mem set_mem]. rewrite upd_ne; [done|]. intros <-. apply (Hc i); [lia|done].
Qed.

Lemma load_block_run b i bs (w : cworld) :
  block_at (w_mem w) b i bs -> run (load_block b i (length bs)) w = (Done bs, w).
Proof.
  revert i. induction bs as [|v bs IH]; intros i Hb; cbn [load_block length]; [done|].
  cbn [bind load run mload cellmem_memory]. rewrite run_bind, IH.
  - cbn [run]. pose proof (Hb 0%nat v eq_refl) as H0. rewrite Z.add_0_r in H0. by rewrite H0.
  - intros k x Hx. replace (i + 1 + Z.of_nat k) with (i + Z.of_nat (S k)) by lia. by apply Hb.
Qed.

Lemma block_at_app m b i l1 l2 :
  block_at m b i (l1 ++ l2) <-> block_at m b i l1 /\ block_at m b (i + blen l1) l2.
Proof.
  unfold block_at, blen. split.
  - intros H. split; intros k x Hx.
    + apply H. by apply lookup_app_l_Some.
    + replace (i + Z.of_nat (length l1) + Z.of_nat k) with (i + Z.of_nat (length l1 + k)) by lia.
      apply H. rewrite lookup_app_r by lia. by replace (length l1 + k - length l1)%nat with k by lia.
  - intros [H1 H2] k x [Hx|[Hge Hx]]%lookup_app_Some; [by apply H1|].
    replace (i + Z.of_nat k) with (i + Z.of_nat (length l1) + Z.of_nat (k - length l1)) by lia.
    by apply H2.
Qed.

Lemma block_at_frame m m' b i bs :
  (forall k, i <= k < i + blen bs -> m' (BKData b k) = m (BKData b k)) ->
  block_at m b i bs -> block_at m' b i bs.
Proof.
  intros Hf Hb k x Hx. rewrite Hf; [by apply Hb|]. unfold blen.
  apply lookup_lt_Some in Hx. lia.
Qed.

(** ** Loans *)

(** [set_data]: data larger than the block is rejected with the exact sizes and
    nothing is written; otherwise the block holds the data from offset 0, whether the
    plain or the 16-byte streaming copy was used and however the block is aligned, the
    length is set, and no other cell changes. *)
Lemma set_data_spec l data (w : cworld) :
  if ln_capacity l <? blen data
  then run (set_data l data) w =
    (Done (l, Err (DataTooLarge (blen data) (ln_capacity l))), w)
  else exists m', run (set_data l data) w =
      (Done (ln_set_len l (blen data), Ok tt), set_mem w m') /\
    block_at m' (ln_block_idx l) 0 data /\
    (forall c, (forall k, 0 <= k < blen data -> c <> BKData (ln_block_idx l) k) ->
       m' c = w_mem w c).
Proof.
  unfold set_data. destruct (ln_capacity l <? blen data); [done|].
  destruct (store_block_run (ln_block_idx l) 0 data w) as (m' & Hr & H1 & H2).
  exists m'. rewrite nontemporal_copy_eq.
  destruct (_ <=? _); (rewrite run_bind, Hr; split; [done|split; [done|exact H2]]).
Qed.

(** What a loan has accumulated through [io::Write]. *)
Definition written (l : Loan) (bs : bytes) (m : cellmem cell) : Prop :=
  ln_len l = blen bs /\ blen bs <= ln_capacity l /\ block_at m (ln_block_idx l) 0 bs.

(** C31. [io::Write] appends: each call adds the longest prefix of the buffer that still
    fits after what was written before and returns its length, which is positive unless
    the buffer is empty; a full block reports [WriteZero] instead of writing nothing. *)
Theorem io_write_appends l bs buf (w : cworld) :
  ln_capacity l < 2 ^ 64 -> written l bs (w_mem w) ->
  if (blen bs =? ln_capacity l) && negb (blen buf =? 0)
  then run (io_write l buf) w = (Done (l, None), w)
  else
    let n := Z.min (blen buf) (ln_capacity l - blen bs) in
    exists m', run (io_write l buf) w = (Done (ln_set_len l (blen bs + n), Some n), set_mem w m') /\
      written (ln_set_len l (blen bs + n)) (bs ++ take (Z.to_nat n) buf) m' /\
      (0 < blen buf -> 0 < n).
Proof.
  intros Hcap (Hlen & Hfit & Hb). unfold io_write.
  assert (0 <= blen bs) by (unfold blen; lia). assert (0 <= blen buf) by (unfold blen; lia).
  rewrite Hlen, wrap64_small by lia.
  destruct (Z.eqb_spec (blen bs) (ln_capacity l)) as [He|He].
  - replace (ln_capacity l - blen bs =? 0) with true by lia. cbn [andb].
    destruct (Z.eqb_spec (blen buf) 0) as [Hz|Hz]; cbn [negb]; [|done].
    replace (Z.min (blen buf) (ln_capacity l - blen bs)) with 0 by lia.
    exists (w_mem w). change (take (Z.to_nat 0) buf) with (@nil Z). cbn [store_block].
    run_simpl. unfold uadd. rewrite wrap64_small by lia.
    split; [by destruct w|]. rewrite app_nil_r, Z.add_0_r. split; [by split|lia].
  - replace (ln_capacity l - blen bs =? 0) with false by lia. cbn [andb].
    set (n := Z.min (blen buf) (ln_capacity l - blen bs)).
    destruct (store_block_run (ln_block_idx l) (blen bs) (take (Z.to_nat n) buf) w)
      as (m' & Hr & H1 & H2).
    exists m'. rewrite run_bind, Hr. cbn [run]. unfold uadd. rewrite wrap64_small by lia.
    split; [done|]. split; [|lia].
    assert (Ht : blen (take (Z.to_nat n) buf) = n).
    { unfold blen in *. rewrite length_take. lia. }
    unfold written. cbn [ln_set_len ln_len ln_capacity ln_block_idx].
    assert (Happ : blen (bs ++ take (Z.to_nat n) buf) = blen bs + n).
    { unfold blen in *. rewrite length_app. lia. }
    rewrite Happ. split; [done|]. split; [lia|].
    apply block_at_app. rewrite Z.add_0_l. split; [|done].
    eapply block_at_frame; [|exact Hb]. intros k Hk. apply H2. intros k' Hk' [=]. lia.
Qed.

Definition demo_loan : Loan := {|
  ln_region := {| rg_base := 4096; rg_config := config_small; rg_pool_offset := 640; rg_handle := 0 |};
  ln_capacity := 16; ln_len := 0; ln_block_idx := 3; ln_topic_idx := 0; ln_single_publisher := true
|}.

Definition zero : cworld := mkWorld (fun _ => 0) None 0 [].

Lemma io_write_appends_witness :
  written demo_loan [] (w_mem zero) /\
  exists m', run (io_write demo_loan [1; 2; 3]) zero =
      (Done (ln_set_len demo_loan 3, Some 3), set_mem zero m') /\
    written (ln_set_len demo_loan 3) [1; 2; 3] m'.
Proof.
  assert (Hw : written demo_loan [] (w_mem zero)).
  { split; [reflexivity|]. split; [vm_compute; congruence|]. intros k x Hx. vm_compute in Hx. congruence. }
  split; [exact Hw|].
  destruct (io_write_appends demo_loan [] [1; 2; 3] zero) as (m' & H1 & H2 & _);
    [vm_compute; congruence | exact Hw |].
  exists m'. split; [exact H1 | exact H2].
Defined.

(** ** Structured data *)

Definition structured (header entries : bytes) (count : Z) : bytes :=
  header ++ entries ++ le_encode 4 count.

(** What the types and the slice guarantee of the arguments of [write_structured]. *)
Definition structured_args (T E : Pod) (l : Loan) (header entries : bytes) (count : Z) : Prop :=
  blen header = size_of T /\ 0 <= size_of E /\ 0 <= count < 2 ^ 32 /\
  blen entries = count * size_of E /\ ln_capacity l < 2 ^ 64 /\
  blen (structured header entries count) <= ln_capacity l.

Lemma structured_len header entries count :
  blen (structured header entries count) = blen header + blen entries + 4.
Proof. unfold structured, blen. rewrite !length_app, length_le_encode. lia. Qed.

(** The three copies write one contiguous run of bytes. *)
Lemma structured_copies {A} b header entries count sz (k : prog cell A) :
  blen entries = count * sz ->
  (store_block b 0 header ;;;
   (if negb (count =? 0) then store_block b (blen header) entries else Ret tt) ;;;
   store_block b (blen header + blen entries) (le_encode 4 count) ;;; k) =
  (store_block b 0 (structured header entries count) ;;; k).
Proof.
  intros He. unfold structured. rewrite !store_block_app.
  etransitivity; [|symmetry; apply (store_block_bind b 0 header)].
  rewrite Z.add_0_l.
  f_equal. destruct (Z.eqb_spec count 0) as [->|Hz]; cbn [negb]; [|by rewrite store_block_bind].
  assert (entries = []) as -> by (destruct entries; [done|unfold blen in He; cbn in He; lia]).
  done.
Qed.

Lemma write_structured_eq T E l header entries count :
  structured_args T E l header entries count ->
  write_structured T E l header entries count =
    (store_block (ln_block_idx l) 0 (structured header entries count) ;;;
     Ret (ln_set_len l (blen (structured header entries count)), Ok tt)).
Proof.
  intros (Hh & HE & Hc & He & Hcap & Hfit). pose proof (structured_len header entries count) as Hl.
  unfold write_structured, uadd. rewrite <- Hh, <- He.
  assert (0 <= blen header) by (unfold blen; lia). assert (0 <= blen entries) by (unfold blen; lia).
  rewrite !wrap64_small by (rewrite ?wrap64_small; lia).
  rewrite <- Hl. replace (_ <? _) with false by lia.
  assert (Hc4 : blen (le_encode 4 (wrap32 count)) = 4) by (unfold blen; by rewrite length_le_encode).
  unfold write_slice, set_len. rewrite Hc4. replace (_ <? _) with false by lia.
  replace (_ <? _) with false by lia. rewrite wrap32_small by lia.
  by apply (structured_copies _ _ _ _ (size_of E)).
Qed.

(** A pinned loan is written the same way: as by one bounded copy of the whole. *)
Lemma pinned_write_structured_eq T E l header entries count :
  blen header = size_of T -> 0 <= count < 2 ^ 32 -> blen entries = count * size_of E ->
  blen header + blen entries + 4 < 2 ^ 64 ->
  pinned_write_structured T E l header entries count = pinned_set_data l (structured header entries count).
Proof.
  intros Hh Hc He Hlen. pose proof (structured_len header entries count) as Hl.
  unfold pinned_write_structured, pinned_set_data, uadd. rewrite <- Hh, <- He.
  assert (0 <= blen header) by (unfold blen; lia). assert (0 <= blen entries) by (unfold blen; lia).
  rewrite !wrap64_small by (rewrite ?wrap64_small; lia). rewrite <- Hl.
  destruct (Z.ltb_spec (pl_capacity l) (blen (structured header entries count))) as [|Hfit]; [done|].
  unfold pinned_set_len. replace (_ <? _) with false by lia. rewrite wrap32_small by lia.
  by apply (structured_copies _ _ _ _ (size_of E)).
Qed.

(** What is written into a loan. *)
Inductive payload : Type :=
| Raw (data : bytes)
| Structured (T E : Pod) (header entries : bytes) (count : Z).

Definition payload_bytes (f : payload) : bytes :=
  match f with
  | Raw data => data
  | Structured _ _ header entries count => structured header entries count
  end.

(** What the types of a structured payload guarantee; the count is stored in 32 bits. *)
Definition payload_ok (f : payload) : Prop :=
  match f with
  | Raw _ => True
  | Structured T E header entries count =>
      blen header = size_of T /\ 0 <= size_of E /\ 0 <= count < 2 ^ 32 /\
      blen entries = count * size_of E /\ blen header + blen entries + 4 < 2 ^ 64
  end.

Definition sample_aligned (T E : Pod) (s : Sample) : Prop :=
  is_multiple_of (block_data_addr (sm_region s) (sm_block_idx s)) (align_of T) = true /\
  is_multiple_of (block_data_addr (sm_region s) (sm_block_idx s) + size_of T) (align_of E) = true.

(** C30. A structured message survives the round trip: [write_structured] fills the block
    and sets the length to header, array and count; in any later memory in which those
    bytes are still there, a sample of that block and length reads back exactly the
    header and exactly the array, provided the block is aligned for both types. *)
Theorem structured_roundtrip T E l header entries count (w : cworld) s :
  structured_args T E l header entries count ->
  sm_block_idx s = ln_block_idx l ->
  sm_len s = blen (structured header entries count) ->
  sample_aligned T E s ->
  exists m', run (write_structured T E l header entries count) w =
      (Done (ln_set_len l (sm_len s), Ok tt), set_mem w m') /\
    forall w' : cworld,
      (forall k, 0 <= k < sm_len s -> w_mem w' (BKData (sm_block_idx s) k) = m' (BKData (sm_block_idx s) k)) ->
      run (read_header T s) w' = (Done (Some header), w') /\
      run (read_array T E s) w' = (Done (Some entries), w').
Proof.
  intros Hargs Hs Hlen [HaT HaE]. rewrite write_structured_eq by done.
  pose proof (structured_len header entries count) as Hl.
  destruct Hargs as (Hh & HE & Hc & He & Hcap & Hfit).
  destruct (store_block_run (ln_block_idx l) 0 (structured header entries count) w)
    as (m' & Hr & Hb & _).
  exists m'. rewrite run_bind, Hr, Hlen. split; [done|]. intros w' Hw'.
  assert (Hb' : block_at (w_mem w') (sm_block_idx s) 0 (structured header entries count)).
  { rewrite Hs in *. eapply block_at_frame; [|exact Hb]. intros k Hk. apply Hw'. lia. }
  unfold structured in Hb'. rewrite !block_at_app in Hb'. destruct Hb' as (H1 & H2 & H3).
  assert (0 <= blen header) by (unfold blen; lia). assert (0 <= blen entries) by (unfold blen; lia).
  assert (Hdec : le_decode (le_encode 4 count) = count) by (apply le_decode_encode; lia).
  unfold read_header, read_array, uadd, umul. rewrite HaT, HaE, Hlen, Hl, <- Hh.
  rewrite (wrap64_small (blen header + 4)) by lia.
  replace (_ <? _) with false by lia. replace (_ <? _) with false by lia. cbn [negb].
  split.
  - rewrite run_bind. unfold blen. rewrite Nat2Z.id, load_block_run by done. done.
  - replace (blen header + blen entries + 4 - 4) with (0 + blen header + blen entries) by lia.
    rewrite run_bind, (load_block_run _ _ (le_encode 4 count)) by done.
    rewrite Hdec, <- He, (wrap64_small (blen entries)) by lia.
    rewrite (wrap64_small (blen header + blen entries)), wrap64_small by lia.
    rewrite Z.eqb_refl. cbn [negb]. rewrite run_bind. unfold blen at 2.
    rewrite Nat2Z.id, <- (Z.add_0_l (blen header)), load_block_run by done. done.
Qed.

Lemma structured_roundtrip_witness :
  let T := mkPod 4 4 in
  let E := mkPod 2 2 in
  let s := mkSample (ln_region demo_loan) 3 12 in
  exists m', run (write_structured T E demo_loan [1; 2; 3; 4] [5; 6; 7; 8] 2) zero =
      (Done (ln_set_len demo_loan 12, Ok tt), set_mem zero m') /\
    run (read_array T E s) (set_mem zero m') = (Done (Some [5; 6; 7; 8]), set_mem zero m').
Proof.
  intros T E s.
  destruct (structured_roundtrip T E demo_loan [1; 2; 3; 4] [5; 6; 7; 8] 2 zero s)
    as (m' & H1 & H2).
  - repeat split; vm_compute; congruence.
  - reflexivity.
  - reflexivity.
  - split; reflexivity.
  - exists m'. split; [exact H1|]. apply H2. reflexivity.
Defined.
