(* ===== verification/Blocking.v ===== *)
(** * Blocking: a blocked receive returns (src/src/platform/subscription.rs)

    When nothing is published, a blocking receive ends with [PublisherDead] once the
    heartbeat is older than the stale timeout: within 1024 attempts if it is stale
    already, and for the sleeping strategies after enough timed waits otherwise. *)

From S2P Require Import Prelude Errors Layout Atomics ShmBytes Pool Ring Wait Subscription.

Local Abbreviation cworld := (world cell (cellmem cell)).

(** Microseconds of the system clock. *)
Definition clock_us (w : cworld) : option Z := fmap (fun ns => wrap64 (duration_as_micros ns)) (w_now w).

Definition stale_us (st : Stream) : Z :=
  wrap64 (duration_as_micros (stale_timeout (rg_config (st_region st)))).

(** Nothing newer than the cursor was published; the last heartbeat was [hb]. *)
Record quiet (st : Stream) (hb : Z) (m : cellmem cell) : Prop := {
  q_idle : m (TEWriteSeq (st_topic_idx st)) <= st_last_seq st;
  q_hb : m GHHeartbeat = hb;
  q_waiters : in_u32 (m (TEWaiters (st_topic_idx st)))
}.

(** The heartbeat is older than the stale timeout. *)
Definition stale (st : Stream) (hb : Z) (w : cworld) : Prop :=
  exists us, clock_us w = Some us /\ stale_us st < us - hb.

Lemma try_recv_quiet fuel st hb (w : cworld) :
  quiet st hb (w_mem w) -> run (try_recv fuel st) w = (Done (st, None), w).
Proof.
  intros [Hi _ _]. unfold try_recv, scan_slots. run_simpl. by replace (_ <=? _) with true by lia.
Qed.

Section Quiet.
Context `{Os : OsPlatform, !OsLaws Os} (fuel pf : nat) (st : Stream) (hb : Z).
Local Abbreviation loop := (blocking_loop (try_recv fuel) pf).

Lemma or_dead_stale (w : cworld) k :
  quiet st hb (w_mem w) -> 0 <= hb -> 0 <= stale_us st -> stale st hb w ->
  run (or_dead (A := Sample) st k) w = (Done (st, Err PublisherDead), w).
Proof.
  intros [_ Hhb _] H0 Hs0 (us & Hus & Hst). unfold clock_us in Hus.
  unfold or_dead, check_heartbeat, now_micros. run_simpl. rewrite Hhb.
  destruct (w_now w) as [ns|]; [|done]. cbn in Hus. injection Hus as <-.
  fold (stale_us st). unfold saturating_sub.
  replace (_ <? hb) with false by lia. by replace (stale_us st <? _) with true by lia.
Qed.

Lemma or_dead_alive (w : cworld) k us :
  quiet st hb (w_mem w) -> clock_us w = Some us -> us - hb <= stale_us st -> 0 <= stale_us st ->
  run (or_dead (A := Sample) st k) w = run k w.
Proof.
  intros [_ Hhb _] Hus Hst H0. unfold clock_us in Hus.
  unfold or_dead, check_heartbeat, now_micros. run_simpl. rewrite Hhb.
  destruct (w_now w) as [ns|]; [|done]. cbn in Hus. injection Hus as <-.
  fold (stale_us st). unfold saturating_sub.
  destruct (_ <? hb) eqn:?; by replace (stale_us st <? _) with false by lia.
Qed.

(** One spin iteration. *)
Lemma spin_step n strategy iter (w : cworld) :
  quiet st hb (w_mem w) -> 0 <= iter < u32_max ->
  match strategy with Adaptive si yi => iter < saturating_add32 si yi | _ => True end ->
  run (loop (S n) strategy iter st) w =
    run (if (iter + 1) mod 1024 =? 0 then or_dead st (loop n strategy (iter + 1) st)
         else loop n strategy (iter + 1) st) w.
Proof.
  intros Hq Hi Hs. cbn [blocking_loop]. rewrite run_bind, (try_recv_quiet _ _ hb) by done.
  assert (Hsat : saturating_add32 iter 1 = iter + 1) by (unfold saturating_add32; lia).
  rewrite Hsat. destruct strategy; try done. by replace (_ <=? iter) with false by lia.
Qed.

(** Spinning without a heartbeat check. *)
Lemma spin_phase k n strategy iter (w : cworld) :
  quiet st hb (w_mem w) -> 0 <= iter -> iter + Z.of_nat k < 1024 ->
  match strategy with Adaptive si yi => iter + Z.of_nat k <= saturating_add32 si yi | _ => True end ->
  run (loop (k + n) strategy iter st) w = run (loop n strategy (iter + Z.of_nat k) st) w.
Proof.
  revert iter. induction k as [|k IH]; intros iter Hq Hi Hk Hs.
  - by rewrite Z.add_0_r.
  - cbn [Nat.add]. rewrite spin_step; [|done|unfold u32_max; lia|destruct strategy; try done; lia].
    replace ((iter + 1) mod 1024 =? 0) with false by (rewrite Z.mod_small; lia).
    rewrite IH; [|done|lia|lia|destruct strategy; try done; lia]. do 2 f_equal. lia.
Qed.

Lemma poll_pos : 1 <= poll_ms st <= 50.
Proof. unfold poll_ms. lia. Qed.

(** One sleep: the memory is unchanged, the clock moves on by at least the poll
    interval, and the heartbeat is checked. *)
Lemma sleep_step n si yi iter (w : cworld) ns :
  (51 <= pf)%nat -> quiet st hb (w_mem w) -> w_now w = Some ns ->
  saturating_add32 si yi <= iter ->
  exists w', quiet st hb (w_mem w') /\
    (exists ns', w_now w' = Some ns' /\ ns + duration_from_millis (poll_ms st) <= ns' <= ns + 70000000) /\
    run (loop (S n) (Adaptive si yi) iter st) w =
      run (or_dead st (loop n (Adaptive si yi) iter st)) w'.
Proof.
  intros Hpf Hq Hns Hi. pose proof poll_pos as Hp. set (t := st_topic_idx st).
  cbn [blocking_loop]. rewrite run_bind, (try_recv_quiet _ _ hb) by done.
  replace (_ <=? iter) with true by lia. unfold os_sleep. fold t.
  rewrite run_bind. unfold load_low32 at 1. run_simpl.
  rewrite run_bind, (try_recv_quiet _ _ hb) by done. run_simpl. rewrite run_bind.
  set (w1 := set_mem w _). unfold wait_until_not. run_simpl.
  set (chunk := Z.min _ _).
  assert (Hq1 : w_mem w1 (TEWriteSeq t) = w_mem w (TEWriteSeq t)) by (cbn; by rewrite upd_ne).
  destruct (park_loop_timeout (pred pf) (TEWriteSeq t) (wrap32 (w_mem w (TEWriteSeq t))) chunk
    (w_mono w1 + duration_from_millis (poll_ms st)) w1) as (d & Hd0 & Hd & Hr).
  { cbn [mload cellmem_memory]. by rewrite Hq1. }
  { unfold chunk, duration_from_millis. lia. }
  { unfold duration_from_millis. lia. }
  replace (S (pred pf)) with pf in Hr by lia.
  rewrite Hr. run_simpl.
  eexists. split; [|split; [|reflexivity]]; cbn [w_mem set_mem w_now].
  - destruct Hq as [H1 H2 H3]. split.
    + rewrite upd_ne by done. fold t in H1. fold t. by rewrite Hq1.
    + rewrite upd_ne by done. cbn. by rewrite upd_ne.
    + rewrite upd_eq. apply wrap32_range.
  - exists (ns + d). cbn [w1 pass_time set_mem w_now w_mono] in *. rewrite Hns. split; [done|].
    unfold duration_from_millis in *. lia.
Qed.

(** Sleeping until the heartbeat is stale: [S n] rounds are enough. *)
Lemma sleep_phase n x si yi iter (w : cworld) ns :
  (51 <= pf)%nat -> quiet st hb (w_mem w) -> 0 <= hb -> w_now w = Some ns -> 0 <= ns ->
  ns + Z.of_nat (S n) * 70000000 < 2 ^ 64 * 1000 ->
  saturating_add32 si yi <= iter ->
  stale_us st + hb < duration_as_micros (ns + Z.of_nat (S n) * duration_from_millis (poll_ms st)) ->
  exists w', run (loop (S n + x) (Adaptive si yi) iter st) w = (Done (st, Err PublisherDead), w').
Proof.
  intros Hpf. revert w ns. induction n as [|n IH]; intros w ns Hq H0 Hns Hn0 Hbig Hi Hst;
    [destruct (sleep_step x si yi iter w ns Hpf Hq Hns Hi) as (w' & Hq' & (ns' & Hns' & Hlo) & Hr)
    |destruct (sleep_step (S n + x) si yi iter w ns Hpf Hq Hns Hi) as (w' & Hq' & (ns' & Hns' & Hlo) & Hr)];
    cbn [Nat.add] in Hr |- *; rewrite Hr; pose proof (wrap64_range (duration_as_micros (stale_timeout (rg_config (st_region st)))))
      as [Hs0 _]; fold (stale_us st) in Hs0; pose proof poll_pos as Hp;
    (assert (Hus : clock_us w' = Some (duration_as_micros ns'));
      [unfold clock_us, duration_as_micros, duration_from_millis in *; rewrite Hns'; cbn; f_equal;
       apply wrap64_small; unfold in_u64; split; [apply Z.div_pos; lia | apply Z.div_lt_upper_bound; lia]|]).
  - rewrite or_dead_stale; [by eexists|done|done|done|]. exists (duration_as_micros ns'). split; [done|].
    assert (Hm : duration_as_micros (ns + Z.of_nat 1 * duration_from_millis (poll_ms st)) <=
      duration_as_micros ns') by (apply Z.div_le_mono; lia). lia.
  - destruct (Z.lt_ge_cases (stale_us st) (duration_as_micros ns' - hb)) as [Hd|Ha].
    + rewrite or_dead_stale; [by eexists|done|done|done|]. by exists (duration_as_micros ns').
    + rewrite (or_dead_alive w' _ (duration_as_micros ns')) by done.
      apply (IH w' ns'); try done; try (unfold duration_from_millis in *; lia).
      assert (Hm : duration_as_micros (ns + Z.of_nat (S (S n)) * duration_from_millis (poll_ms st)) <=
        duration_as_micros (ns' + Z.of_nat (S n) * duration_from_millis (poll_ms st)))
        by (apply Z.div_le_mono; lia). lia.
Qed.

End Quiet.

(** A strategy whose counters are [u32]s. *)
Definition strategy_ok (strategy : WaitStrategy) : Prop :=
  match strategy with Adaptive si yi => in_u32 si /\ in_u32 yi | _ => True end.

(** A clock reading that is far from the end of 64-bit microseconds. *)
Definition clock_ok (rounds : nat) (w : cworld) (ns : Z) : Prop :=
  w_now w = Some ns /\ 0 <= ns /\ ns + Z.of_nat rounds * 70000000 < 2 ^ 64 * 1000.

Lemma recv_enters `{Os : OsPlatform} fuel pf strategy st hb (w : cworld) :
  quiet st hb (w_mem w) ->
  run (recv_with fuel pf strategy st) w =
    run (blocking_loop (try_recv fuel) pf fuel strategy 0 st) w.
Proof. intros Hq. unfold recv_with, blocking_recv. by rewrite run_bind, (try_recv_quiet _ _ hb). Qed.

(** Strategies that spin at least 1024 times check the heartbeat at the 1024th. *)
Lemma spin_detects `{Os : OsPlatform, !OsLaws Os} fuel pf f strategy st hb (w : cworld) :
  quiet st hb (w_mem w) -> 0 <= hb -> stale st hb w ->
  match strategy with Adaptive si yi => 1024 <= saturating_add32 si yi | _ => True end ->
  run (blocking_loop (try_recv fuel) pf (1024 + f) strategy 0 st) w =
    (Done (st, Err PublisherDead), w).
Proof.
  intros Hq H0 Hst Hs. replace (1024 + f)%nat with (1023 + S f)%nat by lia.
  rewrite (spin_phase _ _ _ hb) by (try done; destruct strategy; try done; lia).
  rewrite (spin_step _ _ _ hb) by (try done; destruct strategy; try done; lia).
  change ((0 + Z.of_nat 1023 + 1) mod 1024 =? 0) with true. cbv iota.
  rewrite (or_dead_stale _ hb); try done. apply wrap64_range.
Qed.

(** The others fall asleep and check after each timed wait. *)
Lemma sleep_detects `{Os : OsPlatform, !OsLaws Os} fuel pf n f si yi st hb ns (w : cworld) :
  quiet st hb (w_mem w) -> 0 <= hb -> in_u32 si -> in_u32 yi -> si + yi < 1024 -> (51 <= pf)%nat ->
  clock_ok (S n) w ns ->
  stale_us st + hb < duration_as_micros (ns + Z.of_nat (S n) * duration_from_millis (poll_ms st)) ->
  (Z.to_nat (si + yi) + S n <= f)%nat ->
  exists w', run (blocking_loop (try_recv fuel) pf f (Adaptive si yi) 0 st) w =
    (Done (st, Err PublisherDead), w').
Proof.
  intros Hq H0 Hs1 Hs2 Hlt Hpf (Hns & Hn0 & Hbig) Hst Hf.
  replace f with (Z.to_nat (si + yi) + (S n + (f - (Z.to_nat (si + yi) + S n))))%nat by lia.
  assert (Hsat : saturating_add32 si yi = si + yi).
  { unfold saturating_add32, in_u32, u32_max in *. lia. }
  unfold in_u32 in *. rewrite (spin_phase _ _ _ hb) by (try done; rewrite ?Hsat; lia).
  eapply sleep_phase; try done; rewrite ?Hsat; lia.
Qed.

(** If the heartbeat is stale already, every strategy finds out within 1024 attempts. *)
Lemma dead_detected `{Os : OsPlatform, !OsLaws Os} fuel pf strategy st hb ns (w : cworld) :
  quiet st hb (w_mem w) -> 0 <= hb -> strategy_ok strategy -> (51 <= pf)%nat ->
  clock_ok 1 w ns -> stale_us st + hb < duration_as_micros ns -> (1024 <= fuel)%nat ->
  exists w', run (recv_with fuel pf strategy st) w = (Done (st, Err PublisherDead), w').
Proof.
  intros Hq H0 Hs Hpf Hck Hst Hf. rewrite (recv_enters _ _ _ _ hb) by done.
  assert (Hsw : stale st hb w).
  { exists (duration_as_micros ns). destruct Hck as (Hns & Hn0 & Hbig). unfold clock_us. rewrite Hns.
    split; [|lia]. cbn. f_equal. apply wrap64_small. unfold in_u64, duration_as_micros.
    split; [apply Z.div_pos; lia | apply Z.div_lt_upper_bound; lia]. }
  assert (Hspin : match strategy with Adaptive si yi => 1024 <= saturating_add32 si yi | _ => True end ->
    exists w', run (blocking_loop (try_recv fuel) pf fuel strategy 0 st) w =
      (Done (st, Err PublisherDead), w')).
  { intros Hge. exists w. replace fuel with (1024 + (fuel - 1024))%nat at 2 by lia.
    by apply (spin_detects _ _ _ _ _ hb). }
  destruct strategy as [| | |si yi]; try by apply Hspin. destruct Hs as [Hs1 Hs2].
  destruct (Z.lt_ge_cases (si + yi) 1024) as [Hlt|Hge].
  - apply (sleep_detects fuel pf 0 fuel si yi st hb ns w); try done; unfold in_u32 in *; [|lia].
    pose proof (poll_pos st).
    assert (duration_as_micros ns <=
      duration_as_micros (ns + Z.of_nat 1 * duration_from_millis (poll_ms st)));
      [apply Z.div_le_mono; unfold duration_from_millis; lia | lia].
  - apply Hspin. unfold saturating_add32, in_u32, u32_max in *. lia.
Qed.

(** C29. A blocked receive outlives its publisher, on every back end of the operating
    system's wait: if nothing new is published, [recv_with] returns [PublisherDead], and
    leaves the stream as it was, within 1024 attempts under every wait strategy if the
    heartbeat is already older than the stale timeout; and under a sleeping strategy
    (such as the default one), whatever the age of the heartbeat is now, after at most
    the timed waits that make it stale. *)
Theorem recv_outlives_publisher `{Os : OsPlatform, !OsLaws Os} fuel pf n strategy st hb ns (w : cworld) :
  quiet st hb (w_mem w) -> 0 <= hb -> strategy_ok strategy -> (51 <= pf)%nat -> clock_ok (S n) w ns ->
  (stale_us st + hb < duration_as_micros ns /\ (1024 <= fuel)%nat) \/
  (exists si yi, strategy = Adaptive si yi /\ si + yi < 1024 /\ (Z.to_nat (si + yi) + S n <= fuel)%nat /\
     stale_us st + hb < duration_as_micros (ns + Z.of_nat (S n) * duration_from_millis (poll_ms st))) ->
  exists w', run (recv_with fuel pf strategy st) w = (Done (st, Err PublisherDead), w').
Proof.
  intros Hq H0 Hs Hpf Hck [[Hst Hf]|(si & yi & -> & Hlt & Hf & Hst)].
  - apply (dead_detected fuel pf strategy st hb ns); try done. destruct Hck as (? & ? & ?). split; [done|lia].
  - destruct Hs as [Hs1 Hs2]. rewrite (recv_enters _ _ _ _ hb) by done.
    by apply (sleep_detects fuel pf n fuel si yi st hb ns w).
Qed.

(** A stream on an empty topic; the last heartbeat is at 1 s. *)
Definition quiet_stream : Stream :=
  mkStream (mkRegion 4096 config_small 576 0) 0 0 0.
Definition quiet_world (now : Z) : cworld :=
  mkWorld (upd (fun _ => 0) GHHeartbeat 1000000) (Some now) 7 [].

(** A busy receiver on Windows when the heartbeat is stale, and a sleeping one on Linux
    that waits for it to become stale. *)
Lemma recv_outlives_publisher_witness :
  (exists w', run (recv_with (Os := os_windows) 1024 51 BusySpin quiet_stream) (quiet_world 9000000000) =
    (Done (quiet_stream, Err PublisherDead), w')) /\
  exists w', run (recv_with 300 51 wait_strategy_default quiet_stream) (quiet_world 1000000000) =
    (Done (quiet_stream, Err PublisherDead), w').
Proof.
  split.
  - apply (recv_outlives_publisher (Os := os_windows) (OsLaws0 := os_windows_laws) 1024 51 0 BusySpin quiet_stream
             1000000 9000000000 (quiet_world 9000000000));
      [split; vm_compute; intuition congruence | lia | exact I | lia
      | split; [reflexivity|split; vm_compute; congruence] | left; split; [vm_compute; reflexivity | lia]].
  - apply (recv_outlives_publisher 300 51 100 wait_strategy_default quiet_stream 1000000 1000000000
             (quiet_world 1000000000));
      [split; vm_compute; intuition congruence | lia | vm_compute; intuition congruence | lia
      | split; [reflexivity|split; vm_compute; congruence] |].
    right. exists 100, 10. split; [reflexivity|]. split; [lia|]. split; [lia|vm_compute; reflexivity].
Defined.
