(* ===== verification/Ghost.v ===== *)
(** * Ghost: the invariant of a region shared by publishers and subscribers

    Every topic has at most one thread that publishes on it ([Publishers]); the other
    threads are subscribers. The ghost state
    gives every block a role (free, owned by a thread, or live with a version, the
    publisher's own reference and the subscribers that hold it), and records per
    ring slot which version its block index and its length belong to, and per
    topic the messages published so far. [Inv] ties it to the memory; [RelyT] is
    what a thread may assume of the others. The transition lemmas show that the
    steps of the block pool and of the reference counts preserve both. *)

From S2P Require Import Prelude Errors Layout Atomics Rely ShmBytes Pool Ring.

(** Topic, sequence number and contents of a published message. *)
Abbreviation version := (Z * Z * bytes)%type.

Inductive role : Type :=
| RFree
| ROwned (t : nat)
| RLive (v : version) (slot : bool) (holders : gset nat).

Record ghost : Type := mkGhost {
  g_free : list Z;
  g_role : Z -> role;
  g_log : Z -> list bytes;
  g_idxver : Z -> Z -> Z;
  g_lenver : Z -> Z -> Z
}.

Definition set_role (g : ghost) (b : Z) (ro : role) : ghost :=
  mkGhost (g_free g) (fun b' => if decide (b = b') then ro else g_role g b')
          (g_log g) (g_idxver g) (g_lenver g).
Definition set_free (g : ghost) (l : list Z) : ghost :=
  mkGhost l (g_role g) (g_log g) (g_idxver g) (g_lenver g).

Definition push_log (g : ghost) (ti : Z) (bs : bytes) : ghost :=
  mkGhost (g_free g) (g_role g)
          (fun ti' => if decide (ti = ti') then g_log g ti' ++ [bs] else g_log g ti')
          (g_idxver g) (g_lenver g).

Definition at2 (f : Z -> Z -> Z) (t s v : Z) : Z -> Z -> Z :=
  fun t' s' => if decide (t = t' /\ s = s') then v else f t' s'.

Definition set_idxver (g : ghost) (t s q : Z) : ghost :=
  mkGhost (g_free g) (g_role g) (g_log g) (at2 (g_idxver g) t s q) (g_lenver g).
Definition set_lenver (g : ghost) (t s q : Z) : ghost :=
  mkGhost (g_free g) (g_role g) (g_log g) (g_idxver g) (at2 (g_lenver g) t s q).

Lemma at2_eq f t s v : at2 f t s v t s = v.
Proof. unfold at2. by rewrite decide_True. Qed.
Lemma at2_ne f t s v t' s' : ~ (t = t' /\ s = s') -> at2 f t s v t' s' = f t' s'.
Proof. intros. unfold at2. by rewrite decide_False. Qed.

Definition gstate : Type := ghost * hstate cell.
Definition mem (σ : gstate) : cellmem cell := hs_mem σ.2.
Definition roleof (σ : gstate) (b : Z) : role := g_role σ.1 b.
Definition cas_count (σ : gstate) : Z := hs_cas σ.2 GHPoolHead.
Definition seen_count (t : nat) (σ : gstate) : Z := hs_seen σ.2 t GHPoolHead.

Lemma role_set_eq g b ro : g_role (set_role g b ro) b = ro.
Proof. cbn. by rewrite decide_True. Qed.
Lemma role_set_ne g b b' ro : b <> b' -> g_role (set_role g b ro) b' = g_role g b'.
Proof. intros. cbn. by rewrite decide_False. Qed.

(** The pool head carries a 32-bit generation: a compare-exchange of it is safe
    while fewer than 2^32 exchanges happened since the thread read it. *)
Definition pool_window (c : cell) : option Z :=
  if decide (c = GHPoolHead) then Some (2 ^ 32) else None.

(** The thread that publishes on a topic, and the one that recycles blocks through a
    handle. *)
Class Publishers : Type := { pub_of : Z -> nat; rec_of : Z -> nat }.

Section Ghost.
Context `{Pubs : Publishers}.
Context (config : Config) (nthreads : nat) (sent : Z -> list bytes).

(** ** References *)

Definition role_held (t : nat) (v : version) (ro : role) : Prop :=
  match ro with RLive v' _ hs => v' = v /\ t ∈ hs | _ => False end.

(** The publisher's reference, dropped when the slot is overwritten. *)
Definition role_pub (v : version) (ro : role) : Prop :=
  match ro with RLive v' true _ => v' = v | _ => False end.

Definition held_as (t : nat) (b : Z) (v : version) (σ : gstate) : Prop :=
  role_held t v (roleof σ b).
Definition pubref (b : Z) (v : version) (σ : gstate) : Prop := role_pub v (roleof σ b).

Definition slot_count (sl : bool) : Z := if sl then 1 else 0.
Definition refs (sl : bool) (hs : gset nat) : Z := slot_count sl + Z.of_nat (size hs).

(** ** Invariant *)

Record inv_pool (σ : gstate) : Prop := {
  ip_head : mem σ GHPoolHead = pack (wrap32 (cas_count σ)) (head_idx (g_free σ.1));
  ip_cas : 0 <= cas_count σ;
  ip_linked : linked (mem σ) (g_free σ.1);
  ip_nodup : NoDup (g_free σ.1);
  ip_free : forall b, b ∈ g_free σ.1 -> block_ok config b /\ roleof σ b = RFree
}.

Definition inv_next (σ : gstate) (b : Z) : Prop :=
  mem σ (BKNext b) = NO_BLOCK \/ block_ok config (mem σ (BKNext b)).

Definition block_holds (m : cellmem cell) (b : Z) (bs : bytes) : Prop :=
  forall i x, bs !! i = Some x -> m (BKData b (Z.of_nat i)) = x.

Definition inv_block (σ : gstate) (b : Z) : Prop :=
  match roleof σ b with
  | RFree | ROwned _ => mem σ (BKRefcount b) = 0
  | RLive (t, q, bs) sl hs =>
      mem σ (BKRefcount b) = refs sl hs /\ 0 < refs sl hs /\
      (forall x, x ∈ hs -> (x < nthreads)%nat) /\
      block_holds (mem σ) b bs /\ 1 <= q /\ g_log σ.1 t !! Z.to_nat (q - 1) = Some bs
  end.

Record inv_slot (σ : gstate) (t s : Z) : Prop := {
  is_idx0 : g_idxver σ.1 t s = 0 -> mem σ (REBlockIdx t s) = NO_BLOCK;
  is_idx : 0 < g_idxver σ.1 t s ->
    block_ok config (mem σ (REBlockIdx t s)) /\ ring_slot config (g_idxver σ.1 t s) = s /\
    exists bs, pubref (mem σ (REBlockIdx t s)) (t, g_idxver σ.1 t s, bs) σ;
  is_range : 0 <= g_lenver σ.1 t s <= g_idxver σ.1 t s /\
    g_idxver σ.1 t s <= Z.of_nat (length (g_log σ.1 t));
  is_len : 0 < g_lenver σ.1 t s ->
    exists bs, g_log σ.1 t !! Z.to_nat (g_lenver σ.1 t s - 1) = Some bs /\
      mem σ (REDataLen t s) = Z.of_nat (length bs);
  is_seq : mem σ (RESeq t s) = SEQ_WRITING \/
    (mem σ (RESeq t s) = g_idxver σ.1 t s /\ g_lenver σ.1 t s = g_idxver σ.1 t s)
}.

Definition inv_topic (σ : gstate) (t : Z) : Prop :=
  Z.of_nat (length (g_log σ.1 t)) <= mem σ (TEWriteSeq t)
    <= Z.of_nat (length (g_log σ.1 t)) + 1 /\
  g_log σ.1 t `sublist_of` sent t /\
  Forall (fun bs => Z.of_nat (length bs) <= block_size config - BLOCK_DATA_OFFSET) (g_log σ.1 t).

Record Inv (σ : gstate) : Prop := {
  inv_p : inv_pool σ;
  inv_n : forall b, block_ok config b -> inv_next σ b;
  inv_b : forall b, block_ok config b -> inv_block σ b;
  inv_s : forall t s, topic_ok config t -> 0 <= s < ring_depth config -> inv_slot σ t s;
  inv_t : forall t, topic_ok config t -> inv_topic σ t
}.

(** ** Rely *)

(** The cells only a publisher writes, and the one that does. *)
Definition pub_cell (c : cell) : bool :=
  match c with
  | TEWriteSeq _ | RESeq _ _ | REBlockIdx _ _ | REDataLen _ _ | LastFreed _ => true
  | _ => false
  end.

Definition owner_of (c : cell) : option nat :=
  match c with
  | TEWriteSeq ti | RESeq ti _ | REBlockIdx ti _ | REDataLen ti _ => Some (pub_of ti)
  | LastFreed hd => Some (rec_of hd)
  | _ => None
  end.

Record pub_same (σ σ' : gstate) : Prop := {
  ps_log : g_log σ'.1 = g_log σ.1;
  ps_idx : g_idxver σ'.1 = g_idxver σ.1;
  ps_len : g_lenver σ'.1 = g_lenver σ.1;
  ps_ref : forall b v, pubref b v σ' <-> pubref b v σ;
  ps_mem : forall c, pub_cell c = true -> mem σ' c = mem σ c
}.

(** What a thread may assume of the topics it publishes on. *)
Record own_same (t : nat) (σ σ' : gstate) : Prop := {
  os_log : forall ti, pub_of ti = t -> g_log σ'.1 ti = g_log σ.1 ti;
  os_idx : forall ti s, pub_of ti = t -> g_idxver σ'.1 ti s = g_idxver σ.1 ti s;
  os_len : forall ti s, pub_of ti = t -> g_lenver σ'.1 ti s = g_lenver σ.1 ti s;
  os_ref : forall b ti q bs, pub_of ti = t -> pubref b (ti, q, bs) σ' <-> pubref b (ti, q, bs) σ;
  os_mem : forall c, owner_of c = Some t -> mem σ' c = mem σ c
}.

(** What every thread may assume of the publishers. *)
Record mono (σ σ' : gstate) : Prop := {
  mo_log : forall t, g_log σ.1 t `prefix_of` g_log σ'.1 t;
  mo_idx : forall t s, g_idxver σ.1 t s <= g_idxver σ'.1 t s;
  mo_cell : forall t s, g_idxver σ'.1 t s = g_idxver σ.1 t s ->
    mem σ' (REBlockIdx t s) = mem σ (REBlockIdx t s);
  mo_len : forall t s, g_lenver σ.1 t s <= g_lenver σ'.1 t s
}.

Definition ext (t : nat) (σ σ' : gstate) : Prop := own_same t σ σ' /\ mono σ σ'.

(** The cells of a block that only its owner writes. *)
Definition own_cell (b : Z) (c : cell) : bool :=
  match c with BKNext b' | BKData b' _ => b =? b' | _ => false end.

Record RelyT (t : nat) (σ σ' : gstate) : Prop := {
  r_cas : cas_count σ <= cas_count σ';
  r_cas_eq : cas_count σ' = cas_count σ -> g_free σ'.1 = g_free σ.1;
  r_seen : seen_count t σ' = seen_count t σ;
  r_owned : forall b, roleof σ b = ROwned t ->
    roleof σ' b = ROwned t /\ forall c, own_cell b c = true -> mem σ' c = mem σ c;
  r_held : forall b v, held_as t b v σ' <-> held_as t b v σ;
  r_ext : ext t σ σ'
}.

Definition GuarT (t : nat) (σ σ' : gstate) : Prop := forall t', t' <> t -> RelyT t' σ σ'.

#[export] Instance pub_same_pre : PreOrder pub_same.
Proof.
  split.
  - by split.
  - intros x y z [A1 A2 A3 A4 A5] [B1 B2 B3 B4 B5]. split; try congruence.
    + intros. by rewrite B4.
    + intros c Hc. by rewrite B5, A5.
Qed.

#[export] Instance mono_pre : PreOrder mono.
Proof.
  split.
  - intros x. by split; intros; reflexivity || apply prefix_refl.
  - intros x y z [A1 A2 A3 A4] [B1 B2 B3 B4]. split.
    + intros t. transitivity (g_log y.1 t); auto.
    + intros t s. pose proof (A2 t s). pose proof (B2 t s). lia.
    + intros t s He. pose proof (A2 t s). pose proof (B2 t s).
      rewrite B3, A3 by lia. done.
    + intros t s. pose proof (A4 t s). pose proof (B4 t s). lia.
Qed.

#[export] Instance own_same_pre t : PreOrder (own_same t).
Proof.
  split.
  - by split.
  - intros x y z [A1 A2 A3 A4 A5] [B1 B2 B3 B4 B5]. split; intros.
    + by rewrite B1, A1.
    + by rewrite B2, A2.
    + by rewrite B3, A3.
    + by rewrite B4, A4.
    + by rewrite B5, A5.
Qed.

#[export] Instance ext_pre t : PreOrder (ext t).
Proof.
  split.
  - intros x. by split.
  - intros x y z [A1 A2] [B1 B2]. split; by etransitivity.
Qed.

#[export] Instance RelyT_pre t : PreOrder (RelyT t).
Proof.
  split.
  - intros σ. split; try done; reflexivity.
  - intros x y z [A1 A2 A3 A4 A5 A6] [B1 B2 B3 B4 B5 B6]. split; try lia.
    + intros He. rewrite B2, A2 by lia. done.
    + intros b Hb. destruct (A4 b Hb) as [Hb' Hc]. destruct (B4 b Hb') as [Hb'' Hc'].
      split; [done|]. intros c Ho. by rewrite Hc', Hc.
    + intros. by rewrite B5.
    + by etransitivity.
Qed.

Lemma GuarT_RelyT t t' σ σ' : t <> t' -> GuarT t σ σ' -> RelyT t' σ σ'.
Proof. intros Hne Hg. by apply Hg. Qed.

Lemma pub_same_mono σ σ' : pub_same σ σ' -> mono σ σ'.
Proof.
  intros [H1 H2 H3 H4 H5]. split; intros; rewrite ?H1, ?H2, ?H3; try done.
  by apply H5.
Qed.

Lemma owner_pub_cell c t : owner_of c = Some t -> pub_cell c = true.
Proof. by destruct c. Qed.

Lemma pub_same_ext t σ σ' : pub_same σ σ' -> ext t σ σ'.
Proof.
  intros Hs. split; [|by apply pub_same_mono]. destruct Hs as [H1 H2 H3 H4 H5].
  split; intros; rewrite ?H1, ?H2, ?H3; try done. by eapply H5, owner_pub_cell.
Qed.

(** Slots and topics only depend on the publisher's part. *)
Lemma inv_slot_pub σ σ' t s : pub_same σ σ' -> inv_slot σ t s -> inv_slot σ' t s.
Proof.
  intros [H1 H2 H3 H4 H5] [A1 A2 A3 A4 A5].
  split; rewrite ?H1, ?H2, ?H3, ?H5 by done; try done.
  intros Hpos. destruct (A2 Hpos) as (Hb & Hs & bs & Hp).
  split; [done|]. split; [done|]. exists bs. by apply H4.
Qed.

Lemma inv_topic_pub σ σ' t : pub_same σ σ' -> inv_topic σ t -> inv_topic σ' t.
Proof. intros [H1 H2 H3 H4 H5] HT. unfold inv_topic. by rewrite H1, H5. Qed.

Lemma Inv_pub σ σ' :
  Inv σ -> pub_same σ σ' -> inv_pool σ' ->
  (forall b, block_ok config b -> inv_next σ' b) ->
  (forall b, block_ok config b -> inv_block σ' b) -> Inv σ'.
Proof.
  intros Hi Hp ???. split; try done; intros.
  - eapply inv_slot_pub; [done|]. by apply Hi.
  - eapply inv_topic_pub; [done|]. by apply Hi.
Qed.

(** ** Steps that change the role of one block *)

Record role_step (t : nat) (σ : gstate) (b : Z) (ro : role) (l : list Z) (s' : hstate cell)
    : Prop := {
  rs_other : forall t', t' <> t -> roleof σ b <> ROwned t';
  rs_held : forall t' v, t' <> t -> role_held t' v ro <-> held_as t' b v σ;
  rs_pub : forall v, role_pub v ro <-> pubref b v σ;
  rs_cas : cas_count σ <= hs_cas s' GHPoolHead;
  rs_cas_eq : hs_cas s' GHPoolHead = cas_count σ -> l = g_free σ.1;
  rs_seen : forall t', t' <> t -> hs_seen s' t' GHPoolHead = seen_count t' σ;
  rs_cell : forall c, pub_cell c = true -> hs_mem s' c = mem σ c;
  rs_own : forall b' t' c, t' <> t -> roleof σ b' = ROwned t' -> own_cell b' c = true ->
    hs_mem s' c = mem σ c
}.

Definition after_role (σ : gstate) (b : Z) (ro : role) (l : list Z) (s' : hstate cell) : gstate :=
  (set_role (set_free σ.1 l) b ro, s').

Lemma roleof_after σ b ro l s' b' :
  roleof (after_role σ b ro l s') b' = if decide (b = b') then ro else roleof σ b'.
Proof. reflexivity. Qed.

Lemma role_step_pub t σ b ro l s' :
  role_step t σ b ro l s' -> pub_same σ (after_role σ b ro l s').
Proof.
  intros Hs. split; try done.
  - intros b' v. unfold pubref. rewrite roleof_after. case_decide; [subst|done]. apply Hs.
  - apply Hs.
Qed.

Lemma role_step_guar t σ b ro l s' :
  role_step t σ b ro l s' -> GuarT t σ (after_role σ b ro l s').
Proof.
  intros Hs t' Hne. pose proof (role_step_pub _ _ _ _ _ _ Hs) as Hp.
  destruct Hs as [H1 H2 H3 H4 H5 H6 H7 H8]. split.
  - done.
  - done.
  - by apply H6.
  - intros b' Hb'. rewrite roleof_after. split.
    + case_decide; [subst|done]. by destruct (H1 t' Hne).
    + intros c Hc. by apply (H8 b' t').
  - intros b' v. unfold held_as. rewrite roleof_after. case_decide; [subst|done]. by apply H2.
  - by apply pub_same_ext.
Qed.

End Ghost.

(** The invariant depends on the layout only. *)
Lemma Inv_layout c c' n sent σ : same_layout c c' -> Inv c n sent σ <-> Inv c' n sent σ.
Proof.
  destruct c, c'. unfold same_layout. cbn. intros (-> & -> & -> & ->).
  split; intros [[P1 P2 P3 P4 P5] I2 I3 I4 I5]; split; try done.
  - intros t s Ht Hs. by destruct (I4 t s Ht Hs).
  - intros t s Ht Hs. by destruct (I4 t s Ht Hs).
Qed.
