(* ===== verification/Ownership.v ===== *)
(** * Ownership: concurrent specifications of the block pool and of the
    reference counts

    Hoare triples over the rely-guarantee logic. [K t owned held E] is what thread
    [t] knows: the blocks it owns, the published blocks it holds a reference to,
    and a fact [E] about the publisher's part of the state. Allocation moves a
    block into [owned], freeing moves it out, taking a reference adds to [held],
    releasing removes from it; nothing else changes. *)

From S2P Require Import Prelude Errors Layout Atomics Rely ShmBytes Pool Ring Wait Subscription.
From S2P Require Import Waiting Loan Ghost.

Section Triples.
Context `{Pubs : Publishers}.
Context (config : Config) (nthreads : nat) (sent : Z -> list bytes).
Local Abbreviation Inv := (Inv config nthreads sent).

Definition stable : nat -> (gstate -> Prop) -> Prop := kept RelyT.

Definition triple {A} (t : nat) (P : gstate -> Prop) (p : prog cell A)
    (Q : A -> gstate -> Prop) : Prop :=
  hoare pool_window Inv RelyT GuarT t P p Q.

Lemma triple_bind {A B} t P (p : prog cell A) (f : A -> prog cell B) R Q :
  triple t P p R -> (forall a, triple t (R a) (f a) Q) -> triple t P (bind p f) Q.
Proof. apply hoare_bind, _. Qed.

Lemma triple_pre {A} t (P P' : gstate -> Prop) (p : prog cell A) Q :
  triple t P' p Q -> (forall σ, P σ -> P' σ) -> triple t P p Q.
Proof. apply hoare_pre. Qed.

Lemma triple_post {A} t P (p : prog cell A) (Q Q' : A -> gstate -> Prop) :
  triple t P p Q -> (forall a σ, Q a σ -> Q' a σ) -> triple t P p Q'.
Proof. apply hoare_post. Qed.

Lemma triple_ret {A} t P (a : A) (Q : A -> gstate -> Prop) :
  stable t P -> (forall σ, P σ -> Inv σ -> Q a σ) -> triple t P (Ret a) Q.
Proof. apply hoare_ret. Qed.

Lemma triple_false {A} t P (p : prog cell A) Q : (forall σ, ~ P σ) -> triple t P p Q.
Proof. intros Hf σ Hσ. by destruct (Hf σ). Qed.

Lemma triple_pure {A} t (φ : Prop) P (p : prog cell A) Q :
  (φ -> triple t P p Q) -> triple t (fun σ => φ /\ P σ) p Q.
Proof. apply hoare_pure. Qed.

Lemma triple_exists {A X} t (P : X -> gstate -> Prop) (p : prog cell A) Q :
  (forall x, triple t (P x) p Q) -> triple t (fun σ => exists x, P x σ) p Q.
Proof. apply hoare_exists. Qed.

(** Facts of the invariant that are stable may be assumed. *)
Lemma triple_inv {A} t (P P' : gstate -> Prop) (p : prog cell A) Q :
  stable t P -> (forall σ, P σ -> Inv σ -> P' σ) -> triple t P' p Q -> triple t P p Q.
Proof.
  intros Hs Hi Ht σ Hσ. apply wp_later; [apply _|]. intros σ' Hr Hv. apply Ht, Hi; [|done].
  by eapply Hs.
Qed.

(** ** Reading *)

Definition see (t : nat) (c : cell) (σ : gstate) : gstate := (σ.1, h_see t c σ.2).

Lemma see_inv t c σ : Inv σ -> Inv (see t c σ).
Proof.
  intros [H1 H2 H3 H4 H5]. split; try done.
  - by destruct H1.
  - intros ti s Ht Hs. by destruct (H4 ti s Ht Hs).
Qed.

Lemma see_count_ne t t' c σ : t <> t' \/ c <> GHPoolHead ->
  seen_count t' (see t c σ) = seen_count t' σ.
Proof. unfold seen_count. cbn. intros. case_decide; [naive_solver|done]. Qed.

Lemma see_rely t t' c σ : t <> t' \/ c <> GHPoolHead -> RelyT t' σ (see t c σ).
Proof.
  intros Hne. split; try done. by apply see_count_ne.
Qed.

Lemma see_guar t c σ : GuarT t σ (see t c σ).
Proof. intros t' Hne. apply see_rely. auto. Qed.

Lemma triple_load {A} t c (k : Z -> prog cell A) P P' Q :
  stable t P -> (forall σ, P σ -> Inv σ -> P' (mem σ c) (see t c σ)) ->
  (forall v, triple t (P' v) (k v) Q) -> triple t P (ALoad c k) Q.
Proof.
  intros Hs HP Hk σ0 H0 σ Hr Hi. exists σ.1. fold (see t c σ).
  split; [apply see_guar|]. split; [by apply see_inv|].
  apply Hk, HP; [by eapply Hs | done].
Qed.

(** Any cell but the pool head. *)
Lemma triple_load_ne {A} t c (k : Z -> prog cell A) P P' Q :
  c <> GHPoolHead -> stable t P -> (forall v, stable t (P' v)) ->
  (forall σ, P σ -> Inv σ -> P' (mem σ c) σ) ->
  (forall v, triple t (P' v) (k v) Q) -> triple t P (ALoad c k) Q.
Proof.
  intros Hc Hs Hs' HP Hk. eapply triple_load; [done| |done]. intros σ Hσ Hi.
  eapply Hs'; [by apply HP | apply see_rely; auto].
Qed.

(** ** Writing *)

(** From [σ], going to memory [s'], some ghost state re-establishes everything. *)
Definition goes (t : nat) (σ : gstate) (s' : hstate cell) (P' : gstate -> Prop) : Prop :=
  moves Inv GuarT t σ s' P'.

Lemma goes_weaken t σ s' (P P' : gstate -> Prop) :
  goes t σ s' P -> (forall σ', P σ' -> P' σ') -> goes t σ s' P'.
Proof. intros (g' & Hg & Hi & Hp) HP. exists g'. auto. Qed.

Lemma triple_store {A} t c v (k : prog cell A) P P' Q :
  stable t P -> (forall σ, P σ -> Inv σ -> goes t σ (h_set c v σ.2) P') ->
  triple t P' k Q -> triple t P (AStore c v k) Q.
Proof. apply hoare_store. Qed.

Lemma triple_rmw {A} t c f (k : Z -> prog cell A) P P' Q :
  stable t P ->
  (forall σ, P σ -> Inv σ -> goes t σ (h_set c (f (mem σ c)) σ.2) (P' (mem σ c))) ->
  (forall v, triple t (P' v) (k v) Q) -> triple t P (ARmw c f k) Q.
Proof. apply hoare_rmw. Qed.

Lemma triple_cas {A} t wk c old new (k : bool -> Z -> prog cell A) P P1 P2 Q :
  stable t P ->
  (forall σ, P σ -> Inv σ -> mem σ c = old -> in_window pool_window t c σ.2 ->
     goes t σ (h_cas c new σ.2) P1) ->
  (forall σ, P σ -> Inv σ -> P2 (mem σ c) (see t c σ)) ->
  triple t P1 (k true old) Q -> (forall v, triple t (P2 v) (k false v) Q) ->
  triple t P (ACas wk c old new k) Q.
Proof.
  intros Hs H1 H2 Hk1 Hk2 σ0 H0 σ Hr Hi. assert (Hσ : P σ) by by eapply Hs. split.
  - intros Ho Hw. destruct (H1 σ Hσ Hi Ho Hw) as (g' & Hg & Hi' & Hp'). exists g'. auto.
  - exists σ.1. fold (see t c σ).
    split; [apply see_guar|]. split; [by apply see_inv|]. by apply Hk2, H2.
Qed.

(** Exchanges of other cells than the pool head are stores to the invariant. *)
Lemma goes_cas t σ c v P :
  c <> GHPoolHead -> stable t P -> goes t σ (h_set c v σ.2) P -> goes t σ (h_cas c v σ.2) P.
Proof.
  intros Hc HP (g' & Hg & Hi & Hp).
  assert (Hcount : cas_count (g', h_cas c v σ.2) = cas_count (g', h_set c v σ.2))
    by (unfold cas_count; cbn; by rewrite decide_False).
  assert (Hr : forall t', RelyT t' (g', h_set c v σ.2) (g', h_cas c v σ.2))
    by (intros t'; split; rewrite ?Hcount; try done; by apply pub_same_ext).
  exists g'. split; [intros t' Hne; etransitivity; [by apply Hg|apply Hr]|].
  split; [|by eapply HP]. destruct Hi as [[P1 P2 P3 P4 P5] I2 I3 I4 I5].
  split; [split; rewrite ?Hcount; done|done|done| |done].
  intros ti s Ht Hs. by destruct (I4 ti s Ht Hs).
Qed.

(** A cell no part of the invariant depends on. *)
Definition idle_cell (c : cell) : bool :=
  match c with
  | GHPoolHead | TEWriteSeq _ | RESeq _ _ | REBlockIdx _ _ | REDataLen _ _ | LastFreed _
  | BKNext _ | BKRefcount _ | BKData _ _ => false
  | _ => true
  end.

Lemma linked_ext m m' l : (forall b, m' (BKNext b) = m (BKNext b)) -> linked m l -> linked m' l.
Proof. intros He. apply linked_frame. auto. Qed.

Lemma idle_same σ c v c' : idle_cell c = true -> idle_cell c' = false ->
  mem (σ.1, h_set c v σ.2) c' = mem σ c'.
Proof. intros H1 H2. unfold mem. cbn. rewrite upd_ne; [done|]. congruence. Qed.

Lemma idle_rely t σ c v : idle_cell c = true -> RelyT t σ (σ.1, h_set c v σ.2).
Proof.
  intros Hc. assert (Hm : forall c', idle_cell c' = false -> mem (σ.1, h_set c v σ.2) c' = mem σ c')
    by (intros; by apply idle_same).
  split; try done.
  - intros b Hb. split; [done|]. intros c' Ho. apply Hm. by destruct c'.
  - apply pub_same_ext. split; try done. intros c' Ho. apply Hm. by destruct c'.
Qed.

Lemma idle_inv σ c v : idle_cell c = true -> Inv σ -> Inv (σ.1, h_set c v σ.2).
Proof.
  intros Hc Hi. assert (Hm : forall c', idle_cell c' = false -> mem (σ.1, h_set c v σ.2) c' = mem σ c')
    by (intros; by apply idle_same).
  assert (Hp : pub_same σ (σ.1, h_set c v σ.2))
    by (split; try done; intros c' Ho; apply Hm; by destruct c').
  destruct (inv_p _ _ _ _ Hi) as [P1 P2 P3 P4 P5].
  apply (Inv_pub _ _ _ _ _ Hi Hp).
  - split; try done. by rewrite Hm. eapply linked_ext; [|done]. intros. by apply Hm.
  - intros b Hb. unfold inv_next. rewrite Hm by done. by apply Hi.
  - intros b Hb. pose proof (inv_b _ _ _ _ Hi b Hb) as Hbk. unfold inv_block, roleof in *.
    cbn [fst] in *. destruct (g_role σ.1 b) as [| |[[ti q] bs] sl hs]; rewrite ?Hm by done; try done.
    destruct Hbk as (A1 & A2 & A3 & A4 & A5). repeat split; try done; try apply A5.
    intros i x Hx. rewrite Hm by done. by apply A4.
Qed.

Lemma triple_idle_rmw {A} t c f (k : Z -> prog cell A) P Q :
  idle_cell c = true -> stable t P -> (forall v, triple t P (k v) Q) ->
  triple t P (ARmw c f k) Q.
Proof.
  intros Hc Hs Hk. eapply triple_rmw; [done| |exact Hk]. intros σ Hσ Hi. exists σ.1.
  split; [by intros t' _; apply idle_rely|]. split; [by apply idle_inv|].
  eapply Hs; [done | by apply idle_rely].
Qed.

Lemma triple_load_any {A} t c (k : Z -> prog cell A) P Q :
  c <> GHPoolHead -> stable t P -> (forall v, triple t P (k v) Q) -> triple t P (ALoad c k) Q.
Proof. intros. eapply (triple_load_ne _ _ _ P (fun _ => P)); auto. Qed.

Lemma triple_now {A} t (k : option Z -> prog cell A) P Q :
  stable t P -> (forall v, triple t P (k v) Q) -> triple t P (ANow k) Q.
Proof. apply hoare_now. Qed.

Lemma triple_instant {A} t (k : Z -> prog cell A) P Q :
  stable t P -> (forall v, triple t P (k v) Q) -> triple t P (AMono k) Q.
Proof. apply hoare_instant. Qed.

Lemma triple_wake {A} t c (k : prog cell A) P Q :
  stable t P -> triple t P k Q -> triple t P (AWake c k) Q.
Proof. apply hoare_wake. Qed.

(** A stable assertion survives looking at words and counting as a waiter. *)
Lemma stable_undisturbed t P : stable t P -> undisturbed Inv RelyT GuarT t P.
Proof.
  intros Hs. split; [exact Hs| |]; intros.
  - exists σ.1. fold (see t c σ). split; [apply see_guar|]. split; [by apply see_inv|].
    eapply Hs; [done|]. apply see_rely. auto.
  - exists σ.1. split; [by intros t' _; apply idle_rely|]. split; [by apply idle_inv|].
    eapply Hs; [done|by apply idle_rely].
Qed.

End Triples.

(** ** What a thread knows *)

Definition ext_closed `{Pubs : Publishers} (t : nat) (E : gstate -> Prop) : Prop :=
  forall σ σ', E σ -> ext t σ σ' -> E σ'.

Definition K (config : Config) (t : nat) (owned : gset Z) (held : gmap Z version)
    (E : gstate -> Prop) (σ : gstate) : Prop :=
  (forall b, b ∈ owned -> block_ok config b /\ roleof σ b = ROwned t) /\
  (forall b v, held_as t b v σ <-> held !! b = Some v) /\ E σ.

Lemma K_stable `{Pubs : Publishers} config t owned held E : ext_closed t E -> stable t (K config t owned held E).
Proof.
  intros HE σ σ' (Ho & Hh & He) Hr. split; [|split].
  - intros b Hb. destruct (Ho b Hb) as [Hok Hro]. split; [done|]. by apply (r_owned _ _ _ Hr).
  - intros b v. by rewrite (r_held _ _ _ Hr).
  - eapply HE; [done | apply Hr].
Qed.

Lemma stable_and `{Pubs : Publishers} t P P' : stable t P -> stable t P' -> stable t (fun σ => P σ /\ P' σ).
Proof. intros H1 H2 σ σ' [A B] Hr. split; eauto. Qed.

Lemma stable_pure `{Pubs : Publishers} t (φ : Prop) : stable t (fun _ => φ).
Proof. by intros σ σ' H _. Qed.

#[export] Hint Resolve K_stable stable_and stable_pure : crossbar.

Section PoolOps.
Context `{Pubs : Publishers}.
Context (config : Config) (nthreads : nat) (sent : Z -> list bytes).
Hypothesis (Hcfg : config_u32 config).
Hypothesis (Hthreads : Z.of_nat nthreads < 2 ^ 32 - 2).
Context (t : nat) (Ht : (t < nthreads)%nat).
Context (r : Region) (Hr : rg_config r = config).
Local Abbreviation Inv := (Inv config nthreads sent).
Local Abbreviation triple := (triple config nthreads sent t).
Local Abbreviation K := (K config t).

(** ** The head of the free list *)

Definition idx_ok (i : Z) : Prop := i = NO_BLOCK \/ block_ok config i.

Lemma idx_ok_u32 i : idx_ok i -> in_u32 i.
Proof. intros [->|Hb]; eauto with crossbar. Qed.

(** The thread read [pack gen i] from the pool head, and the head has not moved
    since if no exchange happened. *)
Definition knows_head (gen i : Z) (σ : gstate) : Prop :=
  gen = wrap32 (seen_count t σ) /\ 0 <= seen_count t σ <= cas_count σ /\ idx_ok i /\
  (cas_count σ = seen_count t σ -> head_idx (g_free σ.1) = i).

Lemma knows_head_stable gen i : stable t (knows_head gen i).
Proof.
  intros σ σ' (H1 & H2 & H3 & H4) Hrel. pose proof (r_cas _ _ _ Hrel).
  unfold knows_head. rewrite (r_seen _ _ _ Hrel). repeat split; try done; try lia.
  intros He. rewrite (r_cas_eq _ _ _ Hrel) by lia. apply H4. lia.
Qed.

Lemma inv_head_ok σ : Inv σ -> idx_ok (head_idx (g_free σ.1)).
Proof.
  intros Hi. pose proof (ip_free _ _ (inv_p _ _ _ _ Hi)) as Hf.
  destruct (g_free σ.1) as [|b l]; [by left|]. right. apply Hf. set_solver.
Qed.

Lemma see_head_count σ : seen_count t (see t GHPoolHead σ) = cas_count σ.
Proof. unfold seen_count. cbn. by rewrite decide_True. Qed.

Lemma see_head σ : Inv σ ->
  knows_head (wrap32 (cas_count σ)) (head_idx (g_free σ.1)) (see t GHPoolHead σ).
Proof.
  intros Hi. unfold knows_head. rewrite see_head_count.
  pose proof (ip_cas _ _ (inv_p _ _ _ _ Hi)). change (cas_count (see t GHPoolHead σ)) with (cas_count σ).
  repeat split; try done; try lia. by apply inv_head_ok.
Qed.

Lemma see_K c owned held E σ : ext_closed t E -> K owned held E σ -> K owned held E (see t c σ).
Proof.
  intros HE (Ho & Hh & He). split; [done|]. split; [done|]. eapply HE; [done|].
  apply pub_same_ext. by split.
Qed.

(** Reading the head, by a load or by a failed exchange. *)
Definition head_read (P : gstate -> Prop) (v : Z) (σ : gstate) : Prop :=
  exists gen i, v = pack gen i /\ P σ /\ knows_head gen i σ.

Lemma head_read_stable P v : stable t P -> stable t (head_read P v).
Proof.
  intros Hs σ σ' (gen & i & Hv & Hp & Hk) Hrel. exists gen, i.
  split; [done|]. split; [by eapply Hs | by eapply knows_head_stable].
Qed.

Lemma see_head_read owned held E σ :
  ext_closed t E -> Inv σ -> K owned held E σ ->
  head_read (K owned held E) (mem σ GHPoolHead) (see t GHPoolHead σ).
Proof.
  intros HE Hi HK. exists (wrap32 (cas_count σ)), (head_idx (g_free σ.1)).
  split; [apply (inv_p _ _ _ _ Hi)|]. split; [by apply see_K | by apply see_head].
Qed.

(** A successful exchange within the window: nothing was exchanged in between. *)
Lemma window_exact gen i σ :
  Inv σ -> knows_head gen i σ -> mem σ GHPoolHead = pack gen i ->
  in_window pool_window t GHPoolHead σ.2 ->
  cas_count σ = seen_count t σ /\ head_idx (g_free σ.1) = i.
Proof.
  intros Hi (Hg & Hle & Hok & Hf) Hm Hw. unfold in_window, pool_window in Hw.
  rewrite decide_True in Hw by done. fold (cas_count σ) in Hw. fold (seen_count t σ) in Hw.
  rewrite (ip_head _ _ (inv_p _ _ _ _ Hi)) in Hm.
  apply pack_inj in Hm as [Hgen Hidx];
    [|apply wrap32_range|by eapply idx_ok_u32, inv_head_ok|subst gen; apply wrap32_range
     |by apply idx_ok_u32].
  assert (seen_count t σ = cas_count σ) by
    (apply (mod_window_inj _ _ (2 ^ 32)); [lia|lia|unfold wrap32 in *; congruence]).
  split; [done | by apply Hf].
Qed.

Lemma wrap32_succ n : wrap32 (wrap32 n + 1) = wrap32 (n + 1).
Proof. unfold wrap32. by rewrite Zplus_mod_idemp_l. Qed.

(** Blocks whose role and cells a step does not touch keep their invariant. *)
Lemma inv_block_frame σ σ' b :
  roleof σ' b = roleof σ b -> g_log σ'.1 = g_log σ.1 ->
  mem σ' (BKRefcount b) = mem σ (BKRefcount b) ->
  (forall i, mem σ' (BKData b i) = mem σ (BKData b i)) ->
  inv_block nthreads σ b -> inv_block nthreads σ' b.
Proof.
  intros H1 H2 H3 H4. unfold inv_block. rewrite H1, H2, H3.
  destruct (roleof σ b) as [| |[[ti q] bs] sl hs]; try done.
  intros (A1 & A2 & A3 & A4 & A5). repeat split; try done; try apply A5.
  intros i x Hx. rewrite H4. by apply A4.
Qed.

(** ** Popping a block *)

Definition pop_state (σ : gstate) (b : Z) (l : list Z) (h : Z) : gstate :=
  after_role σ b (ROwned t) l (h_cas GHPoolHead h σ.2).

Lemma pop_step σ b l h : Inv σ -> g_free σ.1 = b :: l ->
  role_step t σ b (ROwned t) l (h_cas GHPoolHead h σ.2).
Proof.
  intros Hi Hf. destruct (ip_free _ _ (inv_p _ _ _ _ Hi) b) as [Hok Hro]; [rewrite Hf; set_solver|].
  split; unfold held_as, pubref, cas_count; try rewrite Hro; try done; cbn.
  - rewrite decide_True by done. lia.
  - rewrite decide_True by done. lia.
  - intros c Hc. rewrite upd_ne; [done|]. by intros <-.
  - intros b' t' c _ _ Hc. rewrite upd_ne; [done|]. by intros <-.
Qed.

Lemma pop_inv σ b l :
  Inv σ -> g_free σ.1 = b :: l ->
  Inv (pop_state σ b l (pack (wrap32 (cas_count σ + 1)) (head_idx l))).
Proof.
  intros Hi Hf. pose proof (inv_p _ _ _ _ Hi) as [P1 P2 P3 P4 P5].
  rewrite Hf in *. apply NoDup_cons in P4 as [Hnin Hnd]. destruct P3 as [Hl1 Hl2].
  eapply Inv_pub; [done|by eapply role_step_pub, pop_step| | |].
  - split; cbn [pop_state after_role fst set_role set_free g_free].
    + unfold mem, cas_count. cbn. by rewrite upd_eq, decide_True.
    + unfold cas_count in *. cbn. rewrite decide_True by done. lia.
    + eapply linked_frame; [|done]. intros. unfold mem. cbn. by rewrite upd_ne.
    + done.
    + intros b' Hb'. destruct (P5 b') as [Hok Hro]; [set_solver|]. split; [done|].
      unfold pop_state. rewrite roleof_after, decide_False; [done|]. by intros <-.
  - intros b' Hb'. pose proof (inv_n _ _ _ _ Hi b' Hb'). unfold inv_next, mem in *. cbn.
    by rewrite upd_ne.
  - intros b' Hb'. destruct (decide (b = b')) as [<-|Hne].
    + pose proof (inv_b _ _ _ _ Hi b Hb') as Hb. destruct (P5 b) as [_ Hro]; [set_solver|].
      unfold inv_block in *. rewrite Hro in Hb. unfold pop_state.
      rewrite roleof_after, decide_True by done. unfold mem in *. cbn. by rewrite upd_ne.
    + eapply inv_block_frame; [| | | |by apply Hi]; intros; try done.
      unfold roleof. cbn. by rewrite decide_False.
Qed.

(** The rest of what a thread knows survives its own change of one block. *)
Lemma K_after owned owned' held held' E σ b ro l s' :
  ext_closed t E -> role_step t σ b ro l s' -> K owned held E σ ->
  (forall b', b' ∈ owned' -> b' <> b -> b' ∈ owned) ->
  (b ∈ owned' -> block_ok config b /\ ro = ROwned t) ->
  (forall v, role_held t v ro <-> held' !! b = Some v) ->
  (forall b', b' <> b -> held' !! b' = held !! b') ->
  K owned' held' E (after_role σ b ro l s').
Proof.
  intros HE Hs (Ho & Hh & He) H1 H2 H3 H4. split; [|split].
  - intros b' Hb'. rewrite roleof_after. case_decide as Hd; [subst b'; by apply H2|].
    apply Ho, H1; congruence.
  - intros b' v. unfold held_as. rewrite roleof_after. case_decide as Hd; [subst b'; by apply H3|].
    rewrite H4 by congruence. apply Hh.
  - eapply HE; [done|]. apply pub_same_ext. by eapply role_step_pub.
Qed.

(** Facts about the free list as long as the head has not moved. *)
Definition knows_next (i next : Z) (σ : gstate) : Prop :=
  idx_ok next /\
  (cas_count σ = seen_count t σ -> exists l, g_free σ.1 = i :: l /\ head_idx l = next).

Lemma knows_next_stable gen i next :
  stable t (fun σ => knows_head gen i σ /\ knows_next i next σ).
Proof.
  intros σ σ' [Hh [Hn Hl]] Hrel. split; [by eapply knows_head_stable|]. split; [done|].
  destruct Hh as (_ & Hle & _ & _). pose proof (r_cas _ _ _ Hrel).
  rewrite (r_seen _ _ _ Hrel). intros He. rewrite (r_cas_eq _ _ _ Hrel) by lia. apply Hl. lia.
Qed.

Lemma read_next gen b σ : Inv σ -> block_ok config b -> knows_head gen b σ ->
  knows_next b (mem σ (BKNext b)) σ.
Proof.
  intros Hi Hb (_ & _ & _ & Hf). split; [by apply (inv_n _ _ _ _ Hi)|].
  intros He. specialize (Hf He). pose proof (ip_linked _ _ (inv_p _ _ _ _ Hi)) as Hl.
  destruct (g_free σ.1) as [|b' l]; cbn [head_idx] in Hf.
  - subst b. by destruct (block_ok_not_none _ _ Hcfg Hb).
  - subst b'. destruct Hl as [Hl _]. eauto.
Qed.

Definition alloc_post (owned : gset Z) (held : gmap Z version) (E : gstate -> Prop)
    (res : result (option Z) unit) (σ : gstate) : Prop :=
  match res with
  | Ok (Some b) => ((b ∉ owned) /\ block_ok config b) /\ K ({[b]} ∪ owned) held E σ
  | Ok None => K owned held E σ
  | Err _ => False
  end.

Lemma pop_goes gen b next owned held E σ :
  ext_closed t E -> Inv σ -> K owned held E σ -> knows_head gen b σ -> knows_next b next σ ->
  mem σ GHPoolHead = pack gen b -> in_window pool_window t GHPoolHead σ.2 ->
  goes config nthreads sent t σ (h_cas GHPoolHead (pack (wrap32 (gen + 1)) next) σ.2)
    (fun σ' => ((b ∉ owned) /\ block_ok config b) /\ K ({[b]} ∪ owned) held E σ').
Proof.
  intros HE Hi HK Hh [_ Hn] Hm Hw. destruct (window_exact _ _ _ Hi Hh Hm Hw) as [Hc _].
  destruct (Hn Hc) as (l & Hf & <-). destruct Hh as (-> & _). rewrite wrap32_succ, <- Hc.
  destruct (ip_free _ _ (inv_p _ _ _ _ Hi) b) as [Hok Hro]; [rewrite Hf; set_solver|].
  pose proof (pop_step σ b l (pack (wrap32 (cas_count σ + 1)) (head_idx l)) Hi Hf) as Hs.
  eexists. split; [by eapply role_step_guar|]. split; [by apply pop_inv|].
  assert (Hnin : b ∉ owned).
  { intros Hin. destruct HK as (Ho & _). destruct (Ho b Hin). congruence. }
  split; [done|]. eapply K_after; [done|done|exact HK| | | |done].
  - set_solver.
  - done.
  - intros v. cbn. destruct HK as (_ & Hh & _). rewrite <- Hh. unfold held_as. by rewrite Hro.
Qed.

Lemma alloc_loop_triple fuel head owned held E :
  ext_closed t E ->
  triple (head_read (K owned held E) head) (alloc_block_loop r fuel head)
    (alloc_post owned held E).
Proof.
  intros HE. revert head. induction fuel as [|fuel IH]; intros head; [by intros σ Hσ|].
  apply triple_exists. intros gen. apply triple_exists. intros i. apply triple_pure. intros ->.
  apply (triple_inv _ _ _ _ _ (fun σ => (in_u32 gen /\ idx_ok i) /\ (K owned held E σ /\ knows_head gen i σ))).
  { apply stable_and; [by apply K_stable | apply knows_head_stable]. }
  { intros σ [HK Hh] _. split; [|done]. destruct Hh as (-> & _ & Hi & _).
    split; [apply wrap32_range | done]. }
  apply triple_pure. intros [Hg Hi]. cbn [alloc_block_loop].
  rewrite unpack_pack by (done || by apply idx_ok_u32).
  assert (HsK : stable t (fun σ => K owned held E σ /\ knows_head gen i σ)).
  { apply stable_and; [by apply K_stable | apply knows_head_stable]. }
  destruct Hi as [->|Hb].
  - rewrite Z.eqb_refl. apply triple_ret; [done|]. by intros σ [? _].
  - pose proof (block_ok_not_none _ _ Hcfg Hb) as Hnn. pose proof Hb as Hb'. unfold block_ok in Hb'.
    rewrite Hr. zb_rewrite. cbn [bind load].
    eapply (triple_load_ne _ _ _ _ _ _ _
      (fun next σ => K owned held E σ /\ (knows_head gen i σ /\ knows_next i next σ)));
      [done|done| | |].
    { intros next. apply stable_and; [by apply K_stable | apply knows_next_stable]. }
    { intros σ [HK Hh] Hinv. split; [done|]. split; [done|]. by eapply read_next. }
    intros next. apply (triple_inv _ _ _ _ _ (fun σ => idx_ok next /\
      (K owned held E σ /\ (knows_head gen i σ /\ knows_next i next σ)))).
    { apply stable_and; [by apply K_stable | apply knows_next_stable]. }
    { intros σ (HK & Hh & Hn) _. split; [apply Hn | done]. }
    apply triple_pure. intros Hnext.
    replace (negb (next =? NO_BLOCK) && (block_count config <=? next)) with false.
    2:{ destruct Hnext as [->|Hn]; [done|]. unfold block_ok in Hn.
        replace (block_count config <=? next) with false by lia. by rewrite andb_false_r. }
    cbn [bind compare_exchange_weak]. eapply triple_cas.
    { apply stable_and; [by apply K_stable | apply knows_next_stable]. }
    { intros σ (HK & Hh & Hn) Hinv Hm Hw. by eapply pop_goes. }
    { intros σ (HK & _) Hinv. by apply (see_head_read owned held E). }
    { apply triple_ret; [|by auto]. apply stable_and; [apply stable_pure | by apply K_stable]. }
    intros v. apply IH.
Qed.

Lemma alloc_block_triple fuel owned held E :
  ext_closed t E ->
  triple (K owned held E) (alloc_block r fuel) (alloc_post owned held E).
Proof.
  intros HE. unfold alloc_block. cbn [bind load]. eapply triple_load.
  - by apply K_stable.
  - intros σ HK Hi. by apply (see_head_read owned held E).
  - intros v. by apply alloc_loop_triple.
Qed.

(** ** Writing to an owned block *)

Lemma own_cell_ne b b' c : own_cell b c = true -> own_cell b' c = true -> b' = b.
Proof. destruct c; cbn; try done; lia. Qed.

Lemma own_not_pub b c : own_cell b c = true -> pub_cell c = false.
Proof. by destruct c. Qed.

Lemma own_rely t' σ b c v :
  t' <> t -> roleof σ b = ROwned t -> own_cell b c = true ->
  RelyT t' σ (σ.1, h_set c v σ.2).
Proof.
  intros Hne Hro Hc. split; try done.
  - intros b' Hb'. split; [done|]. intros c' Hc'. unfold mem. cbn. rewrite upd_ne; [done|].
    intros <-. rewrite (own_cell_ne _ _ _ Hc Hc') in Hb'. congruence.
  - apply pub_same_ext. split; try done. intros c' Hp. unfold mem. cbn. rewrite upd_ne; [done|].
    intros <-. by rewrite (own_not_pub _ _ Hc) in Hp.
Qed.

Lemma own_pub σ b c v : own_cell b c = true -> pub_same σ (σ.1, h_set c v σ.2).
Proof.
  intros Hc. split; try done. intros c' Hp. unfold mem. cbn. rewrite upd_ne; [done|].
  intros <-. by rewrite (own_not_pub _ _ Hc) in Hp.
Qed.

Lemma own_inv σ b c v :
  Inv σ -> roleof σ b = ROwned t -> own_cell b c = true ->
  (c = BKNext b -> idx_ok v) -> Inv (σ.1, h_set c v σ.2).
Proof.
  intros Hi Hro Hc Hv. eapply Inv_pub; [done|by eapply own_pub| | |].
  - destruct (inv_p _ _ _ _ Hi) as [P1 P2 P3 P4 P5]. split; try done.
    + unfold mem in *. cbn. rewrite upd_ne by (by intros ->). done.
    + eapply linked_frame; [|done]. intros b' Hin. unfold mem. cbn. rewrite upd_ne; [done|].
      intros ->. cbn in Hc. assert (b = b') by lia. subst b'.
      destruct (P5 b Hin) as [_ Hf]. congruence.
  - intros b' Hb'. pose proof (inv_n _ _ _ _ Hi b' Hb') as Hn. unfold inv_next, mem in *. cbn.
    unfold upd. case_decide as Hd; [|done]. subst c. cbn in Hc.
    assert (b = b') by lia. subst b'. by apply Hv.
  - intros b' Hb'. destruct (decide (b = b')) as [<-|Hne].
    + pose proof (inv_b _ _ _ _ Hi b Hb') as Hb. unfold inv_block in *.
      change (roleof (σ.1, h_set c v σ.2) b) with (roleof σ b). rewrite Hro in *.
      unfold mem in *. cbn. rewrite upd_ne; [done|]. by intros ->.
    + eapply inv_block_frame; [| | | |by apply Hi]; intros; try done; unfold mem; cbn.
      * rewrite upd_ne; [done|]. by intros ->.
      * rewrite upd_ne; [done|]. intros ->. cbn in Hc. lia.
Qed.

Lemma own_K owned held E σ b c v :
  ext_closed t E -> own_cell b c = true -> K owned held E σ ->
  K owned held E (σ.1, h_set c v σ.2).
Proof.
  intros HE Hc (Ho & Hh & He). split; [done|]. split; [done|].
  eapply HE; [done|]. apply pub_same_ext. by eapply own_pub.
Qed.

Lemma triple_own_store {A} b c v (k : prog cell A) owned held E P P' Q :
  ext_closed t E -> stable t P -> b ∈ owned -> own_cell b c = true ->
  (c = BKNext b -> idx_ok v) ->
  (forall σ, P σ -> Inv σ -> K owned held E σ) ->
  (forall σ, P σ -> Inv σ -> K owned held E (σ.1, h_set c v σ.2) -> P' (σ.1, h_set c v σ.2)) ->
  triple P' k Q -> triple P (AStore c v k) Q.
Proof.
  intros HE Hs Hb Hc Hv HK HP Hk. eapply triple_store; [done| |exact Hk].
  intros σ Hσ Hi. pose proof (HK σ Hσ Hi) as HKσ.
  destruct HKσ as (Ho & Hrest). destruct (Ho b Hb) as [Hok Hro].
  exists σ.1. split; [intros t' Hne; by eapply own_rely|]. split; [by eapply own_inv|].
  apply HP; [done|done|]. by eapply own_K.
Qed.

(** ** Pushing a block *)

Lemma push_step σ b h : roleof σ b = ROwned t ->
  role_step t σ b RFree (b :: g_free σ.1) (h_cas GHPoolHead h σ.2).
Proof.
  intros Hro. split; unfold held_as, pubref, cas_count; try rewrite Hro; try done; cbn.
  - congruence.
  - rewrite decide_True by done. lia.
  - rewrite decide_True by done. lia.
  - intros c Hc. rewrite upd_ne; [done|]. by intros <-.
  - intros b' t' c _ _ Hc. rewrite upd_ne; [done|]. by intros <-.
Qed.

Lemma push_inv σ b :
  Inv σ -> block_ok config b -> roleof σ b = ROwned t ->
  mem σ (BKNext b) = head_idx (g_free σ.1) ->
  Inv (after_role σ b RFree (b :: g_free σ.1)
         (h_cas GHPoolHead (pack (wrap32 (cas_count σ + 1)) b) σ.2)).
Proof.
  intros Hi Hok Hro Hn. pose proof (inv_p _ _ _ _ Hi) as [P1 P2 P3 P4 P5].
  assert (Hnin : b ∉ g_free σ.1). { intros Hin. destruct (P5 b Hin). congruence. }
  eapply Inv_pub; [done|by eapply role_step_pub, push_step| | |].
  - split; cbn [after_role fst set_role set_free g_free].
    + unfold mem, cas_count. cbn. by rewrite upd_eq, decide_True.
    + unfold cas_count in *. cbn. rewrite decide_True by done. lia.
    + cbn [linked]. split; [done|]. eapply linked_frame; [|done]. done.
    + by constructor.
    + intros b' [->|Hb']%elem_of_cons.
      * rewrite roleof_after, decide_True; done.
      * destruct (P5 b' Hb') as [Hok' Hro']. split; [done|].
        rewrite roleof_after, decide_False; [done|]. by intros <-.
  - intros b' Hb'. by apply (inv_n _ _ _ _ Hi b' Hb').
  - intros b' Hb'. destruct (decide (b = b')) as [<-|Hne].
    + pose proof (inv_b _ _ _ _ Hi b Hb') as Hb. unfold inv_block in *. rewrite Hro in Hb.
      by rewrite roleof_after, decide_True.
    + eapply inv_block_frame; [| | | |by apply Hi]; intros; try done.
      unfold roleof. cbn. by rewrite decide_False.
Qed.

Lemma push_goes gen b i owned held E σ :
  ext_closed t E -> Inv σ -> K owned held E σ -> b ∈ owned -> knows_head gen i σ ->
  mem σ (BKNext b) = i ->
  mem σ GHPoolHead = pack gen i -> in_window pool_window t GHPoolHead σ.2 ->
  goes config nthreads sent t σ (h_cas GHPoolHead (pack (wrap32 (gen + 1)) b) σ.2)
    (K (owned ∖ {[b]}) held E).
Proof.
  intros HE Hi HK Hb Hh Hn Hm Hw. destruct (window_exact _ _ _ Hi Hh Hm Hw) as [Hc Hf].
  destruct Hh as (-> & _). rewrite wrap32_succ, <- Hc. pose proof HK as (Ho & Hhd & _).
  destruct (Ho b Hb) as [Hok Hro].
  pose proof (push_step σ b (pack (wrap32 (cas_count σ + 1)) b) Hro) as Hs.
  eexists. split; [by eapply role_step_guar|]. split; [apply push_inv; congruence|].
  eapply K_after; [done|done|exact HK|set_solver|set_solver| |done].
  intros v. cbn. rewrite <- Hhd. unfold held_as. by rewrite Hro.
Qed.

Definition linked_own (b i : Z) (σ : gstate) : Prop :=
  roleof σ b = ROwned t /\ mem σ (BKNext b) = i.

Lemma linked_own_stable b i : stable t (linked_own b i).
Proof.
  intros σ σ' [H1 H2] Hrel. destruct (r_owned _ _ _ Hrel b H1) as [H3 H4].
  split; [done|]. rewrite H4; [done|]. cbn. lia.
Qed.

Lemma free_loop_triple fuel head b owned held E :
  ext_closed t E -> b ∈ owned ->
  triple (head_read (K owned held E) head) (free_block_loop r fuel b head)
    (fun _ => K (owned ∖ {[b]}) held E).
Proof.
  intros HE Hb. revert head. induction fuel as [|fuel IH]; intros head; [by intros σ Hσ|].
  apply triple_exists. intros gen. apply triple_exists. intros i. apply triple_pure. intros ->.
  assert (HsK : stable t (fun σ => K owned held E σ /\ knows_head gen i σ)).
  { apply stable_and; [by apply K_stable | apply knows_head_stable]. }
  apply (triple_inv _ _ _ _ _ (fun σ => (in_u32 gen /\ idx_ok i) /\ (K owned held E σ /\ knows_head gen i σ))).
  { done. }
  { intros σ [HK Hh] _. split; [|done]. destruct Hh as (-> & _ & Hi & _).
    split; [apply wrap32_range | done]. }
  apply triple_pure. intros [Hg Hi]. cbn [free_block_loop].
  rewrite unpack_pack by (done || by apply idx_ok_u32). cbn [bind store compare_exchange_weak].
  eapply (triple_own_store b (BKNext b) i _ owned held E _
    (fun σ => (K owned held E σ /\ knows_head gen i σ) /\ linked_own b i σ));
    [done|done|done|cbn; lia|done|by intros σ [? _]| |].
  { intros σ [HK Hh] Hinv HK'. split; [split; [done|]|].
    - exact Hh.
    - destruct HK' as (Ho & _). split; [by apply Ho|]. unfold mem. cbn. by rewrite upd_eq. }
  eapply triple_cas.
  { apply stable_and; [done | apply linked_own_stable]. }
  { intros σ [[HK Hh] [_ Hn]] Hinv Hm Hw. by eapply push_goes. }
  { intros σ [[HK _] _] Hinv. by apply (see_head_read owned held E). }
  { apply triple_ret; [by apply K_stable | by auto]. }
  intros v. apply IH.
Qed.

Lemma free_block_triple fuel b owned held E :
  ext_closed t E -> b ∈ owned ->
  triple (K owned held E) (free_block r fuel b) (fun _ => K (owned ∖ {[b]}) held E).
Proof.
  intros HE Hb. apply (triple_inv _ _ _ _ _ (fun σ => block_ok config b /\ K owned held E σ)).
  { by apply K_stable. }
  { intros σ HK _. split; [|done]. destruct HK as (Ho & _). by apply Ho. }
  apply triple_pure. intros Hok. unfold block_ok in Hok. unfold free_block. rewrite Hr. zb_rewrite.
  cbn [bind load]. eapply triple_load.
  - by apply K_stable.
  - intros σ HK Hi. by apply (see_head_read owned held E).
  - intros v. by apply free_loop_triple.
Qed.

(** ** References *)

Lemma refs_bound sl hs :
  (forall x, x ∈ hs -> (x < nthreads)%nat) -> 0 <= refs sl hs <= 1 + Z.of_nat nthreads.
Proof.
  intros Hx. unfold refs, slot_count.
  assert (size hs <= nthreads)%nat; [|destruct sl; lia].
  rewrite <- (size_set_seq (C := gset nat) 0 nthreads). apply subseteq_size.
  intros x Hin. apply elem_of_set_seq. specialize (Hx x Hin). lia.
Qed.

(** A reference count that is not zero belongs to a live block. *)
Lemma live_of_count σ b :
  Inv σ -> block_ok config b -> mem σ (BKRefcount b) <> 0 ->
  exists v sl hs, roleof σ b = RLive v sl hs /\ mem σ (BKRefcount b) = refs sl hs.
Proof.
  intros Hi Hb Hne. pose proof (inv_b _ _ _ _ Hi b Hb) as Hk. unfold inv_block in Hk.
  destruct (roleof σ b) as [| |[[ti q] bs] sl hs]; try done.
  destruct Hk as [Hk _]. eauto.
Qed.

Lemma live_inv σ b v sl hs :
  Inv σ -> block_ok config b -> roleof σ b = RLive v sl hs ->
  mem σ (BKRefcount b) = refs sl hs /\ 0 < refs sl hs /\
  (forall x, x ∈ hs -> (x < nthreads)%nat) /\ block_holds (mem σ) b v.2 /\
  1 <= v.1.2 /\ g_log σ.1 v.1.1 !! Z.to_nat (v.1.2 - 1) = Some v.2.
Proof.
  intros Hi Hb Hro. pose proof (inv_b _ _ _ _ Hi b Hb) as Hk. unfold inv_block in Hk.
  rewrite Hro in Hk. by destruct v as [[ti q] bs].
Qed.

(** Changing the count and the role of a live block. *)
Definition set_count (σ : gstate) (b : Z) (ro : role) (s' : hstate cell) : gstate :=
  after_role σ b ro (g_free σ.1) s'.

Lemma count_inv σ b v sl hs ro s' :
  Inv σ -> block_ok config b -> roleof σ b = RLive v sl hs ->
  role_step t σ b ro (g_free σ.1) s' ->
  (forall c, c <> BKRefcount b -> hs_mem s' c = mem σ c) ->
  hs_cas s' GHPoolHead = cas_count σ ->
  inv_block nthreads (set_count σ b ro s') b ->
  Inv (set_count σ b ro s').
Proof.
  intros Hi Hb Hro Hs Hm Hc Hbk. eapply Inv_pub; [done|by eapply role_step_pub| | |].
  - destruct (inv_p _ _ _ _ Hi) as [P1 P2 P3 P4 P5].
    assert (Hcc : cas_count (set_count σ b ro s') = cas_count σ) by exact Hc.
    split; rewrite ?Hcc; try done.
    + unfold mem. cbn. by rewrite Hm.
    + eapply linked_frame; [|done]. intros. unfold mem. cbn. by rewrite Hm.
    + intros b' Hin. destruct (P5 b' Hin) as [Hok' Hro']. split; [done|].
      unfold set_count. rewrite roleof_after, decide_False; [done|]. intros <-. congruence.
  - intros b' Hb'. pose proof (inv_n _ _ _ _ Hi b' Hb') as Hn. unfold inv_next, mem in *. cbn.
    by rewrite Hm.
  - intros b' Hb'. destruct (decide (b = b')) as [<-|Hne]; [done|].
    eapply inv_block_frame; [| | | |by apply Hi]; intros; try done;
      unfold roleof, mem; cbn; rewrite ?Hm by congruence; try done. by rewrite decide_False.
Qed.

(** The cells other threads rely on are not reference counts. *)
Ltac count_step :=
  try match goal with sl : bool |- _ => by destruct sl end; try set_solver;
  try (intros c Hc; rewrite upd_ne; [done|]; by intros <-);
  try (intros b' t' c _ _ Hc; rewrite upd_ne; [done|]; by intros <-);
  try (rewrite decide_False by done; lia).

Lemma acquire_step σ b v sl hs z :
  roleof σ b = RLive v sl hs ->
  role_step t σ b (RLive v sl ({[t]} ∪ hs)) (g_free σ.1) (h_cas (BKRefcount b) z σ.2).
Proof.
  intros Hro. split; unfold held_as, pubref, cas_count; try rewrite Hro; try done; cbn; count_step.
Qed.

Lemma acquire_inv σ b v sl hs :
  Inv σ -> block_ok config b -> roleof σ b = RLive v sl hs -> t ∉ hs ->
  Inv (set_count σ b (RLive v sl ({[t]} ∪ hs))
         (h_cas (BKRefcount b) (wrap32 (refs sl hs + 1)) σ.2)).
Proof.
  intros Hi Hb Hro Hnin. destruct (live_inv _ _ _ _ _ Hi Hb Hro) as (H1 & H2 & H3 & H4 & H5 & H6).
  pose proof (refs_bound sl hs H3) as Hbd.
  eapply count_inv; [done|done|done|by apply acquire_step| |done|].
  - intros c Hc. cbn. by rewrite upd_ne.
  - unfold inv_block, set_count. rewrite roleof_after, decide_True by done.
    destruct v as [[ti q] bs]. cbn [fst snd] in *.
    assert (Hrf : refs sl ({[t]} ∪ hs) = refs sl hs + 1).
    { unfold refs. rewrite size_union by set_solver. rewrite size_singleton. lia. }
    unfold mem. cbn. rewrite upd_eq, Hrf. rewrite wrap32_small by lia.
    repeat split; try done; try lia.
    intros x [->%elem_of_singleton|Hx]%elem_of_union; auto.
Qed.

Lemma acquire_goes b (E : gstate -> Prop) (E' : version -> gstate -> Prop) owned held rc σ :
  (forall v, ext_closed t (E' v)) ->
  (forall σ v sl hs, Inv σ -> E σ -> roleof σ b = RLive v sl hs -> E' v σ) ->
  block_ok config b -> held !! b = None -> rc <> 0 ->
  Inv σ -> K owned held E σ -> mem σ (BKRefcount b) = rc ->
  goes config nthreads sent t σ (h_cas (BKRefcount b) (wrap32 (rc + 1)) σ.2)
    (fun σ' => exists v, K owned (<[b := v]> held) (E' v) σ').
Proof.
  intros HE' Hlink Hb Hfresh Hnz Hi HK <-.
  destruct (live_of_count σ b Hi Hb Hnz) as (v & sl & hs & Hro & Hrc). rewrite Hrc.
  pose proof HK as (Ho & Hh & He).
  assert (Hnin : t ∉ hs).
  { intros Hin. assert (Hhd : held_as t b v σ) by (unfold held_as; rewrite Hro; done).
    apply Hh in Hhd. congruence. }
  pose proof (acquire_step σ b v sl hs (wrap32 (refs sl hs + 1)) Hro) as Hs.
  exists (set_role (set_free σ.1 (g_free σ.1)) b (RLive v sl ({[t]} ∪ hs))).
  split; [by eapply role_step_guar|]. split; [by eapply acquire_inv|].
  exists v. eapply K_after; [by apply HE'|done| | | | |].
  - split; [exact Ho|]. split; [exact Hh|]. by eapply Hlink.
  - done.
  - intros Hin. destruct (Ho b Hin). congruence.
  - intros v'. cbn. rewrite lookup_insert_eq. split; [by intros [-> _] | intros [= ->]; set_solver].
  - intros b' Hne. by rewrite lookup_insert_ne.
Qed.

(** Taking a reference: the version it refers to is whatever is current then. *)
Lemma acquire_ref_triple fuel b owned held (E : gstate -> Prop) (E' : version -> gstate -> Prop) :
  ext_closed t E -> (forall v, ext_closed t (E' v)) ->
  (forall σ v sl hs, Inv σ -> E σ -> roleof σ b = RLive v sl hs -> E' v σ) ->
  block_ok config b -> held !! b = None ->
  triple (K owned held E) (acquire_ref fuel (BKRefcount b))
    (fun res σ => if res : bool then exists v, K owned (<[b := v]> held) (E' v) σ
                  else K owned held E σ).
Proof.
  intros HE HE' Hlink Hb Hfresh. induction fuel as [|fuel IH]; [by intros σ Hσ|].
  cbn [acquire_ref bind load]. apply triple_load_any; [done|by apply K_stable|].
  intros rc. destruct (Z.eqb_spec rc 0) as [->|Hnz]; [apply triple_ret; [by apply K_stable|done]|].
  cbn [bind compare_exchange_weak].
  eapply (triple_cas _ _ _ _ _ _ _ _ _ _ _ (fun _ => K owned held E)).
  - by apply K_stable.
  - intros σ HK Hi Hm _. by eapply acquire_goes.
  - intros σ HK Hi. by apply (see_K (BKRefcount b) owned held E).
  - apply triple_ret; [|done]. intros σ σ' [v HK] Hrel. exists v.
    by eapply (K_stable _ _ _ _ _ (HE' v)).
  - intros _. apply IH.
Qed.

(** Dropping a reference: the last one makes the block the thread's own. *)
Definition release_role (v : version) (sl : bool) (hs : gset nat) : role :=
  if refs sl hs =? 1 then ROwned t else RLive v sl (hs ∖ {[t]}).

Lemma last_ref sl hs : t ∈ hs -> refs sl hs = 1 -> sl = false /\ hs = {[t]}.
Proof.
  intros Hin. assert (Hpos : (0 < size hs)%nat).
  { assert (size hs <> 0%nat); [|lia]. intros H0%size_empty_inv. set_solver. }
  unfold refs, slot_count. destruct sl; [lia|]. intros H1.
  split; [done|]. assert (H1' : size hs = 1%nat) by lia.
  apply size_1_elem_of in H1' as [x Hx]. set_solver.
Qed.

Lemma release_step σ b v sl hs z :
  roleof σ b = RLive v sl hs -> t ∈ hs ->
  role_step t σ b (release_role v sl hs) (g_free σ.1) (h_set (BKRefcount b) z σ.2).
Proof.
  intros Hro Hin. unfold release_role.
  destruct (Z.eqb_spec (refs sl hs) 1) as [H1|H1];
    split; unfold held_as, pubref, cas_count; try rewrite Hro; try done; cbn;
    try (by destruct sl); try (destruct (last_ref _ _ Hin H1) as [-> ->]); count_step.
Qed.

Lemma release_inv σ b v sl hs :
  Inv σ -> block_ok config b -> roleof σ b = RLive v sl hs -> t ∈ hs ->
  Inv (set_count σ b (release_role v sl hs)
         (h_set (BKRefcount b) (wrap32 (refs sl hs - 1)) σ.2)).
Proof.
  intros Hi Hb Hro Hin. destruct (live_inv _ _ _ _ _ Hi Hb Hro) as (H1 & H2 & H3 & H4 & H5 & H6).
  pose proof (refs_bound sl hs H3) as Hbd.
  eapply count_inv; [done|done|done|by apply release_step| |done|].
  - intros c Hc. cbn. by rewrite upd_ne.
  - unfold inv_block, set_count. rewrite roleof_after, decide_True by done.
    unfold release_role, mem. cbn. rewrite upd_eq, wrap32_small by lia.
    destruct (Z.eqb_spec (refs sl hs) 1) as [He|He]; [lia|].
    destruct v as [[ti q] bs]. cbn [fst snd] in *.
    assert (Hrf : refs sl (hs ∖ {[t]}) = refs sl hs - 1).
    { unfold refs. rewrite size_difference by set_solver. rewrite size_singleton.
      assert (size hs <> 0%nat) by (intros H0%size_empty_inv; set_solver). lia. }
    rewrite Hrf. repeat split; try done; try lia. set_solver.
Qed.

Lemma held_role owned held E σ b v :
  K owned held E σ -> held !! b = Some v -> exists sl hs, roleof σ b = RLive v sl hs /\ t ∈ hs.
Proof.
  intros (_ & Hh & _) Hb. apply Hh in Hb. unfold held_as, role_held in Hb.
  destruct (roleof σ b) as [| |v' sl hs]; try done. destruct Hb as [-> Hin]. eauto.
Qed.

Lemma release_block_triple fuel b v owned held E :
  ext_closed t E -> block_ok config b -> held !! b = Some v ->
  triple (K owned held E) (release_block r fuel b) (fun _ => K owned (delete b held) E).
Proof.
  intros HE Hb Hhd. unfold release_block, block_refcount_checked, block_ptr_checked. rewrite Hr.
  pose proof Hb as Hb'. unfold block_ok in Hb'. zb_rewrite. cbn [mbind option_bind bind fetch_sub32].
  eapply (triple_rmw _ _ _ _ _ _ _ _ (fun prev σ =>
    if prev =? 1 then (b ∉ owned) /\ K ({[b]} ∪ owned) (delete b held) E σ
    else K owned (delete b held) E σ)); [by apply K_stable| |].
  - intros σ HK Hi. destruct (held_role _ _ _ _ _ _ HK Hhd) as (sl & hs & Hro & Hin).
    destruct (live_inv _ _ _ _ _ Hi Hb Hro) as (H1 & _). rewrite H1.
    exists (set_role (set_free σ.1 (g_free σ.1)) b (release_role v sl hs)).
    pose proof (release_step σ b v sl hs (wrap32 (refs sl hs - 1)) Hro Hin) as Hs.
    split; [by eapply role_step_guar|]. split; [by eapply release_inv|].
    assert (Hno : b ∉ owned).
    { intros Hbo. destruct HK as (Ho & _). destruct (Ho b Hbo). congruence. }
    assert (Hdel : forall b', b' <> b -> delete b held !! b' = held !! b').
    { intros b' Hne. by rewrite lookup_delete_ne. }
    unfold release_role in *. destruct (refs sl hs =? 1).
    + split; [done|]. eapply K_after; [done|done|exact HK|set_solver|done| |done].
      intros v'. cbn. rewrite lookup_delete_eq. done.
    + eapply K_after; [done|done|exact HK|done|done| |done].
      intros v'. cbn. rewrite lookup_delete_eq. set_solver.
  - intros prev. destruct (prev =? 1).
    + apply triple_pure. intros Hno. eapply triple_post; [apply free_block_triple; [done|set_solver]|].
      intros [] σ HK. by replace (({[b]} ∪ owned) ∖ {[b]}) with owned in HK by set_solver.
    + apply triple_ret; [by apply K_stable | done].
Qed.

(** Reading a held block gives the bytes of its version. *)
Lemma load_block_triple b v owned held E (i : nat) (n : nat) :
  ext_closed t E -> block_ok config b -> held !! b = Some v ->
  (i + n <= length v.2)%nat ->
  triple (K owned held E) (load_block b (Z.of_nat i) n)
    (fun res σ => res = take n (drop i v.2) /\ K owned held E σ).
Proof.
  intros HE Hb Hhd. revert i. induction n as [|n IH]; intros i Hlen; cbn [load_block].
  - apply triple_ret; [by apply K_stable|]. intros σ HK _. by rewrite take_0.
  - destruct (lookup_lt_is_Some_2 v.2 i) as [x Hx]; [lia|].
    cbn [bind load]. apply (triple_load_ne _ _ _ _ _ _ _
      (fun w σ => w = x /\ K owned held E σ)); [done|by apply K_stable| | |].
    { intros w. apply stable_and; [apply stable_pure | by apply K_stable]. }
    { intros σ HK Hi. split; [|done].
      destruct (held_role _ _ _ _ _ _ HK Hhd) as (sl & hs & Hro & _).
      destruct (live_inv _ _ _ _ _ Hi Hb Hro) as (_ & _ & _ & H4 & _). by apply H4. }
    intros w. apply triple_pure. intros ->.
    replace (Z.of_nat i + 1) with (Z.of_nat (S i)) by lia.
    eapply triple_bind; [apply IH; lia|]. intros rest. apply triple_pure. intros ->.
    apply triple_ret; [by apply K_stable|]. intros σ HK _. split; [|done].
    by rewrite (drop_S v.2 x i Hx).
Qed.

End PoolOps.
