(* ===== verification/SubscriberProof.v ===== *)
(** * SubscriberProof: what a subscriber receives under concurrency

    [try_read_slot_raw] against any interleaving: when it succeeds, the block it
    returns is referenced by this thread and its contents are the message with
    that sequence number; when it fails, it leaves no reference behind. [try_recv]
    delivers in increasing sequence order. *)

From S2P Require Import Prelude Errors Layout Atomics Rely ShmBytes Pool Ring Wait Subscription.
From S2P Require Import Waiting Loan Ghost Ownership.

(** ** A subscriber's client

    Any sequence of receives (also blocking ones), reads of samples received before and not yet
    dropped, and drops. The result lists which sample was read and the bytes. *)

Inductive sub_cmd : Type :=
| CRecv
| CRecvWait (strategy : WaitStrategy) (park_fuel : nat)
| CRecvTyped (T : Pod)
| CRecvTypedWait (T : Pod) (strategy : WaitStrategy) (park_fuel : nat)
| CRead (k : nat)
| CDrop (k : nat).

(** A typed sample is read and dropped like a sample of the size of its type. *)
Definition typed_view (s : TypedSample) : Sample :=
  mkSample (ts_region s) (ts_block_idx s) (size_of (ts_type s)).

Lemma typed_view_deref s : sample_to_vec (typed_view s) = typed_sample_deref s.
Proof. reflexivity. Qed.

Lemma typed_view_drop fuel s : sample_drop fuel (typed_view s) = typed_sample_drop fuel s.
Proof. reflexivity. Qed.

Fixpoint subscriber `{Os : OsPlatform} (fuel : nat) (cmds : list sub_cmd) (st : Stream)
    (rcv : list (option Sample)) (out : list (nat * bytes)) : prog cell (list (nat * bytes)) :=
  match cmds with
  | [] => Ret out
  | CRecv :: cmds' =>
      let* (st', o) := try_recv fuel st in
      match o with
      | Some s => subscriber fuel cmds' st' (rcv ++ [Some s]) out
      | None => subscriber fuel cmds' st' rcv out
      end
  | CRecvWait strategy park_fuel :: cmds' =>
      let* (st', res) := recv_with fuel park_fuel strategy st in
      match res with
      | Ok s => subscriber fuel cmds' st' (rcv ++ [Some s]) out
      | Err _ => subscriber fuel cmds' st' rcv out
      end
  | CRecvTyped T :: cmds' =>
      let* (st', o) := try_recv_typed fuel T st in
      match o with
      | Some s => subscriber fuel cmds' st' (rcv ++ [Some (typed_view s)]) out
      | None => subscriber fuel cmds' st' rcv out
      end
  | CRecvTypedWait T strategy park_fuel :: cmds' =>
      let* (st', res) := recv_typed_with fuel park_fuel T strategy st in
      match res with
      | Ok s => subscriber fuel cmds' st' (rcv ++ [Some (typed_view s)]) out
      | Err _ => subscriber fuel cmds' st' rcv out
      end
  | CRead k :: cmds' =>
      match rcv !! k with
      | Some (Some s) =>
          let* bs := sample_to_vec s in
          subscriber fuel cmds' st rcv (out ++ [(k, bs)])
      | _ => subscriber fuel cmds' st rcv out
      end
  | CDrop k :: cmds' =>
      match rcv !! k with
      | Some (Some s) =>
          sample_drop fuel s ;;;
          subscriber fuel cmds' st (<[k := None]> rcv) out
      | _ => subscriber fuel cmds' st rcv out
      end
  end.

(** A typed receive is for the type of all messages of the topic. *)
Definition sub_cmd_ok (sent : list bytes) (c : sub_cmd) : Prop :=
  match c with
  | CRecvTyped T | CRecvTypedWait T _ _ => Forall (fun bs => blen bs = size_of T) sent
  | _ => True
  end.

Section Subscriber.
Context `{Pubs : Publishers} `{Os : OsPlatform, !OsLaws Os}.
Context (config : Config) (nthreads : nat) (sent : Z -> list bytes).
Hypothesis (Hcfg : config_u32 config).
Hypothesis (Hpow : is_power_of_two (ring_depth config) = true).
Hypothesis (Hbs : BLOCK_DATA_OFFSET + 1 <= block_size config).
Hypothesis (Hthreads : Z.of_nat nthreads < 2 ^ 32 - 2).
Hypothesis (Hsent : forall ti, Z.of_nat (length (sent ti)) < 2 ^ 63).
Context (t : nat) (Ht : (t < nthreads)%nat).
Context (r : Region) (Hr : rg_config r = config).
Context (tp : Z) (Htp : topic_ok config tp).
Local Abbreviation Inv := (Inv config nthreads sent).
Local Abbreviation triple := (triple config nthreads sent t).
Local Abbreviation K := (K config t).

(** ** Facts a subscriber keeps about a slot *)

Definition at_least (s q : Z) (σ : gstate) : Prop :=
  q <= g_idxver σ.1 tp s /\ q <= g_lenver σ.1 tp s.

Definition idx_is (s q b : Z) (σ : gstate) : Prop :=
  g_idxver σ.1 tp s = q -> mem σ (REBlockIdx tp s) = b.

Definition len_is (s q len : Z) (σ : gstate) : Prop :=
  g_idxver σ.1 tp s = q ->
  exists bs, g_log σ.1 tp !! Z.to_nat (q - 1) = Some bs /\ len = Z.of_nat (length bs).

Definition ver_is (s q len : Z) (v : version) (σ : gstate) : Prop :=
  g_idxver σ.1 tp s = q -> v.1 = (tp, q) /\ len = Z.of_nat (length v.2).

Lemma ext_and E E' : ext_closed t E -> ext_closed t E' -> ext_closed t (fun σ => E σ /\ E' σ).
Proof. intros H1 H2 σ σ' [A B] Hx. split; eauto. Qed.

Lemma at_least_closed s q : ext_closed t (at_least s q).
Proof.
  intros σ σ' [H1 H2] [_ Hx]. pose proof (mo_idx _ _ Hx tp s). pose proof (mo_len _ _ Hx tp s).
  split; lia.
Qed.

Lemma idx_is_closed s q b : ext_closed t (fun σ => at_least s q σ /\ idx_is s q b σ).
Proof.
  intros σ σ' [H1 H2] Hx. split; [by eapply at_least_closed|]. intros He. destruct Hx as [_ Hx].
  pose proof (mo_idx _ _ Hx tp s). destruct H1. rewrite (mo_cell _ _ Hx) by lia. apply H2. lia.
Qed.

Lemma len_is_closed s q len : ext_closed t (fun σ => at_least s q σ /\ len_is s q len σ).
Proof.
  intros σ σ' [H1 H2] Hx. split; [by eapply at_least_closed|]. intros He. destruct Hx as [_ Hx].
  pose proof (mo_idx _ _ Hx tp s). destruct H1. destruct H2 as (bs & Hl & Hlen); [lia|].
  exists bs. split; [|done]. eapply prefix_lookup_Some; [done | apply Hx].
Qed.

Lemma ver_is_closed s q len v : ext_closed t (fun σ => at_least s q σ /\ ver_is s q len v σ).
Proof.
  intros σ σ' [H1 H2] Hx. split; [by eapply at_least_closed|]. intros He. destruct Hx as [_ Hx].
  pose proof (mo_idx _ _ Hx tp s). destruct H1. apply H2. lia.
Qed.

(** ** Reading the slot's words *)

Section Slot.
Context (st : Stream) (seq : Z).
Hypothesis (Hst : st_region st = r /\ st_topic_idx st = tp).
Hypothesis (Hseq : 1 <= seq < SEQ_WRITING /\ st_last_seq st < seq).
Local Abbreviation s := (ring_slot config seq).

Lemma slot_inv σ : Inv σ -> inv_slot config σ tp s.
Proof. intros Hi. apply Hi; [done|]. apply ring_slot_range; [done|done|lia]. Qed.

Lemma read_seq σ : Inv σ -> mem σ (RESeq tp s) = seq ->
  g_idxver σ.1 tp s = seq /\ g_lenver σ.1 tp s = seq.
Proof. intros Hi Hm. destruct (is_seq _ _ _ _ (slot_inv σ Hi)) as [Hw|[H1 H2]]; [lia|]. lia. Qed.

(** The versions this thread holds were received before. *)
Definition held_low (held : gmap Z version) : Prop :=
  forall b v, held !! b = Some v -> v.1.1 = tp /\ v.1.2 <= st_last_seq st.

Lemma read_idx owned held E σ :
  held_low held -> Inv σ -> K owned held E σ -> at_least s seq σ ->
  block_ok config (mem σ (REBlockIdx tp s)) /\ held !! mem σ (REBlockIdx tp s) = None.
Proof.
  intros Hlow Hi HK [H1 _]. destruct (is_idx _ _ _ _ (slot_inv σ Hi)) as (Hb & _ & bs & Hp); [lia|].
  split; [done|]. destruct (held !! _) as [v|] eqn:Hh; [|done]. exfalso.
  destruct (Hlow _ _ Hh) as [_ Hle].
  destruct (held_role _ _ _ _ _ _ _ _ HK Hh) as (sl & hs & Hro & _).
  unfold pubref, role_pub in Hp. rewrite Hro in Hp. destruct sl; [|done]. subst v. cbn in Hle. lia.
Qed.

Lemma read_len σ : Inv σ -> at_least s seq σ -> len_is s seq (mem σ (REDataLen tp s)) σ.
Proof.
  intros Hi [H1 H2] He. pose proof (slot_inv σ Hi) as Hs.
  pose proof (is_range _ _ _ _ Hs). destruct (is_len _ _ _ _ Hs) as (bs & Hl & Hlen); [lia|].
  replace (g_lenver σ.1 tp s) with seq in Hl by lia. eauto.
Qed.

(** At the time the reference is taken. *)
Lemma read_ver σ b len v sl hs :
  Inv σ -> (at_least s seq σ /\ idx_is s seq b σ) /\ len_is s seq len σ ->
  block_ok config b -> roleof σ b = RLive v sl hs -> ver_is s seq len v σ.
Proof.
  intros Hi [[H1 H2] H3] Hb Hro He. destruct (H3 He) as (bs & Hl & ->).
  destruct (is_idx _ _ _ _ (slot_inv σ Hi)) as (_ & _ & bs' & Hp); [lia|].
  rewrite (H2 He) in Hp. unfold pubref, role_pub in Hp. rewrite Hro, He in Hp.
  destruct sl; [|done]. subst v. split; [done|].
  destruct (live_inv config nthreads sent _ _ _ _ _ Hi Hb Hro) as (_ & _ & _ & _ & _ & Hlog).
  cbn [fst snd] in *. rewrite Hl in Hlog. by simplify_eq.
Qed.

(** What [try_read_slot_raw] promises. *)
Definition slot_post (owned : gset Z) (held : gmap Z version) (E : gstate -> Prop)
    (o : option (Stream * SlotRead)) (σ : gstate) : Prop :=
  match o with
  | None => K owned held E σ
  | Some (st', sr) =>
      exists bs, (st' = set_last_seq st seq /\ sr_data_len sr = Z.of_nat (length bs) /\
                  block_ok config (sr_block_idx sr) /\ held !! sr_block_idx sr = None) /\
        K owned (<[sr_block_idx sr := (tp, seq, bs)]> held) E σ
  end.

Lemma K_weaken owned held (E E' : gstate -> Prop) σ :
  (E σ -> E' σ) -> K owned held E σ -> K owned held E' σ.
Proof. intros HE (H1 & H2 & H3). split; [done|]. split; [done|]. auto. Qed.

(** After the reference was taken: the second check of the sequence number. *)
Lemma confirm_triple fuel b len v owned held E :
  ext_closed t E -> block_ok config b -> held !! b = None ->
  triple (K owned (<[b := v]> held) (fun σ => E σ /\ (at_least s seq σ /\ ver_is s seq len v σ)))
    (let* s2 := load (RESeq tp s) in
     if negb (s2 =? seq) then release_block r fuel b ;;; Ret None
     else Ret (Some (set_last_seq st seq, mkSlotRead b len)))
    (slot_post owned held E).
Proof.
  intros HE Hb Hfresh. pose proof (ver_is_closed s seq len v) as HV.
  cbn [bind load].
  eapply (triple_load_ne _ _ _ _ _ _ _ (fun w σ =>
    (w = seq -> v.1 = (tp, seq) /\ len = Z.of_nat (length v.2)) /\
    K owned (<[b := v]> held) E σ)); [done| | | |].
  - apply K_stable. by apply ext_and.
  - intros w. apply stable_and; [apply stable_pure | by apply K_stable].
  - intros σ HK Hi. pose proof HK as (_ & _ & He & Ha & Hv). split.
    + intros Hm. apply Hv. by apply read_seq.
    + by eapply K_weaken.
  - intros w. apply triple_pure. intros Hw. destruct (Z.eqb_spec w seq) as [->|Hne]; cbn [negb].
    + apply triple_ret; [by apply K_stable|]. intros σ HK _. destruct (Hw eq_refl) as [Hv Hl].
      exists v.2. cbn [sr_data_len sr_block_idx]. destruct v as [[ti q] bs]. cbn in *.
      simplify_eq. done.
    + eapply triple_bind; [eapply release_block_triple; try done; apply lookup_insert_eq|].
      intros []. apply triple_ret; [by apply K_stable|]. intros σ HK _.
      cbn [slot_post]. by rewrite delete_insert_id in HK.
Qed.

(** After the three words were read: the bounds checks and the reference. *)
Lemma take_triple fuel b len owned held E :
  ext_closed t E -> held_low held -> block_ok config b -> held !! b = None ->
  triple (K owned held (fun σ => E σ /\ ((at_least s seq σ /\ idx_is s seq b σ) /\
                                         (at_least s seq σ /\ len_is s seq len σ))))
    (if b =? NO_BLOCK then Ret None
     else if block_count config <=? b then Ret None
     else if data_capacity r <? len then Ret None
     else
       match block_refcount_checked r b with
       | None => Ret None
       | Some refcount =>
           let* acquired := acquire_ref fuel refcount in
           if negb acquired then Ret None
           else
             let* s2 := load (RESeq tp s) in
             if negb (s2 =? seq) then release_block r fuel b ;;; Ret None
             else Ret (Some (set_last_seq st seq, mkSlotRead b len))
       end)
    (slot_post owned held E).
Proof.
  intros HE Hlow Hb Hfresh.
  assert (HEE : ext_closed t (fun σ => E σ /\ ((at_least s seq σ /\ idx_is s seq b σ) /\
                                   (at_least s seq σ /\ len_is s seq len σ)))).
  { apply ext_and; [done|]. apply ext_and; [apply idx_is_closed | apply len_is_closed]. }
  assert (Hnone : triple (K owned held (fun σ => E σ /\ ((at_least s seq σ /\ idx_is s seq b σ) /\
                                   (at_least s seq σ /\ len_is s seq len σ))))
            (Ret None) (slot_post owned held E)).
  { apply triple_ret; [by apply K_stable|]. intros σ HK _. eapply K_weaken; [|done]. by intros []. }
  pose proof (block_ok_not_none _ _ Hcfg Hb). pose proof Hb as Hb'. unfold block_ok in Hb'.
  zb_rewrite. destruct (_ <? len); [done|].
  unfold block_refcount_checked, block_ptr_checked. rewrite Hr. zb_rewrite. cbn [mbind option_bind].
  eapply triple_bind.
  { eapply acquire_ref_triple with
      (E' := fun v σ => E σ /\ (at_least s seq σ /\ ver_is s seq len v σ)); try done.
    - intros v. apply ext_and; [done | apply ver_is_closed].
    - intros σ v sl hs Hi (He & Ha & Hl) Hro. split; [done|]. split; [apply Ha|].
      eapply read_ver; [done| |done|done]. split; [done | apply Hl]. }
  intros []; cbn [negb]; [|done].
  apply triple_exists. intros v. by apply confirm_triple.
Qed.

Lemma try_read_slot_triple fuel owned held E :
  ext_closed t E -> held_low held ->
  triple (K owned held E) (try_read_slot_raw fuel st seq) (slot_post owned held E).
Proof.
  intros HE Hlow. unfold try_read_slot_raw. destruct Hst as [-> ->]. rewrite Hr. cbn [bind load].
  eapply (triple_load_ne _ _ _ _ _ _ _ (fun w σ =>
    K owned held (fun σ => E σ /\ (w = seq -> at_least s seq σ)) σ)); [done|by apply K_stable| | |].
  { intros w. apply K_stable. apply ext_and; [done|]. intros σ σ' H1 Hx Hw.
    eapply at_least_closed; eauto. }
  { intros σ HK Hi. eapply K_weaken; [|done]. intros He. split; [done|]. intros Hm.
    destruct (read_seq σ Hi Hm). split; lia. }
  intros w. destruct (Z.eqb_spec w seq) as [->|Hne]; cbn [negb].
  2:{ apply triple_ret; [|intros σ HK _; eapply K_weaken; [|done]; by intros []].
      apply K_stable. apply ext_and; [done|]. by intros ? ? ? ? ?. }
  eapply (triple_load_ne _ _ _ _ _ _ _ (fun b σ =>
    (block_ok config b /\ held !! b = None) /\
    K owned held (fun σ => E σ /\ (at_least s seq σ /\ idx_is s seq b σ)) σ)); [done| | | |].
  { apply K_stable. apply ext_and; [done|]. intros σ σ' H1 Hx _. eapply at_least_closed; eauto. }
  { intros b. apply stable_and; [apply stable_pure|]. apply K_stable, ext_and; [done|].
    apply idx_is_closed. }
  { intros σ HK Hi. pose proof HK as (_ & _ & He & Ha). specialize (Ha eq_refl).
    split; [by eapply read_idx|]. eapply K_weaken; [|done]. intros _. split; [done|].
    split; [done|]. by intros _. }
  intros b. apply triple_pure. intros [Hb Hfresh].
  eapply (triple_load_ne _ _ _ _ _ _ _ (fun len σ =>
    K owned held (fun σ => E σ /\ ((at_least s seq σ /\ idx_is s seq b σ) /\
                                   (at_least s seq σ /\ len_is s seq len σ))) σ)); [done| | | |].
  { apply K_stable, ext_and; [done|]. apply idx_is_closed. }
  { intros len. apply K_stable, ext_and; [done|].
    apply ext_and; [apply idx_is_closed | apply len_is_closed]. }
  { intros σ HK Hi. pose proof HK as (_ & _ & He & Ha & Hx). eapply K_weaken; [|done].
    intros _. split; [done|]. split; [done|]. split; [done|]. by apply read_len. }
  intros len. by apply take_triple.
Qed.

End Slot.

(** ** Receiving *)

Lemma triple_for_return {X B} (l : list X) (body : X -> prog cell (option B)) after
    (P : gstate -> Prop) (Q : B -> gstate -> Prop) :
  (forall b, stable t (Q b)) ->
  (forall x, x ∈ l -> triple P (body x) (fun o σ => match o with None => P σ | Some b => Q b σ end)) ->
  triple P after Q -> triple P (for_return l body after) Q.
Proof.
  intros Hs Hb Ha. induction l as [|x l IH]; cbn [for_return]; [done|].
  eapply triple_bind; [apply Hb; set_solver|]. intros [b|].
  - apply triple_ret; [apply Hs | done].
  - apply IH. intros. apply Hb. set_solver.
Qed.

(** A successful receive: a later message than all before, referenced by this
    thread. *)
Definition recv_post (st : Stream) (owned : gset Z) (held : gmap Z version) (E : gstate -> Prop)
    (st' : Stream) (b len : Z) (σ : gstate) : Prop :=
  exists seq bs, (st' = set_last_seq st seq /\ st_last_seq st < seq /\ 1 <= seq /\
                  len = Z.of_nat (length bs) /\ block_ok config b /\ held !! b = None) /\
    K owned (<[b := (tp, seq, bs)]> held) E σ.

Definition scan_post (st : Stream) (owned : gset Z) (held : gmap Z version) (E : gstate -> Prop)
    (o : option (Stream * SlotRead)) (σ : gstate) : Prop :=
  match o with
  | None => K owned held E σ
  | Some (st', sr) => recv_post st owned held E st' (sr_block_idx sr) (sr_data_len sr) σ
  end.

Lemma recv_post_stable st owned held E st' b len :
  ext_closed t E -> stable t (recv_post st owned held E st' b len).
Proof.
  intros HE σ σ' (seq & bs & Hp & HK) Hrel. exists seq, bs. split; [done|].
  by eapply (K_stable config).
Qed.

Lemma scan_post_stable st owned held E o : ext_closed t E -> stable t (scan_post st owned held E o).
Proof.
  intros HE. destruct o as [[st' sr]|]; cbn [scan_post]; [by apply recv_post_stable|].
  by apply K_stable.
Qed.

(** The scan starts after the last message received. *)
Lemma scan_start_range depth last cur :
  0 < depth -> 0 <= last < cur -> cur < 2 ^ 64 ->
  last < scan_start depth last cur <= cur.
Proof.
  intros Hd Hl Hc. unfold scan_start. rewrite wrap64_small by lia.
  destruct (Z.leb_spec depth (cur - (last + 1))); lia.
Qed.

Lemma scan_slots_triple fuel st owned held E :
  st_region st = r -> st_topic_idx st = tp -> 0 <= st_last_seq st ->
  ext_closed t E -> held_low st held ->
  triple (K owned held E) (scan_slots fuel st) (scan_post st owned held E).
Proof.
  intros Hreg Htop H0 HE Hlow. unfold scan_slots. rewrite Hreg, Htop, Hr. cbn [bind load].
  eapply (triple_load_ne _ _ _ _ _ _ _ (fun cur σ => 0 <= cur < SEQ_WRITING /\ K owned held E σ));
    [done|by apply K_stable| | |].
  { intros cur. apply stable_and; [apply stable_pure | by apply K_stable]. }
  { intros σ HK Hi. split; [|done]. destruct (inv_t _ _ _ _ Hi tp Htp) as (Hw & Hsub & _).
    apply sublist_length in Hsub. pose proof (Hsent tp). unfold SEQ_WRITING, u64_max. lia. }
  intros cur. apply triple_pure. intros Hcur. unfold SEQ_WRITING, u64_max in Hcur.
  destruct (Z.leb_spec cur (st_last_seq st)); [apply triple_ret; [by apply K_stable|done]|].
  pose proof (is_power_of_two_pos _ Hpow) as Hd.
  pose proof (scan_start_range (ring_depth config) (st_last_seq st) cur Hd ltac:(lia) ltac:(lia)).
  apply triple_for_return.
  - intros o. by apply scan_post_stable.
  - intros seq [Hlo Hhi]%elem_of_seqZ. eapply triple_bind.
    { apply (try_read_slot_triple st seq); try done. unfold SEQ_WRITING, u64_max. lia. }
    intros [[st' sr]|].
    + apply (triple_pre _ _ _ _ _ (scan_post st owned held E (Some (st', sr)))).
      { apply triple_ret; [by apply scan_post_stable|]. by intros σ HP _. }
      intros σ (bs & (-> & Hlen & Hb & Hf) & HK). exists seq, bs.
      split; [|exact HK]. repeat (split; [first [done | lia]|]). done.
    + apply triple_ret; [by apply K_stable | done].
  - apply triple_ret; [by apply K_stable | done].
Qed.

Definition try_recv_post (st : Stream) (owned : gset Z) (held : gmap Z version)
    (E : gstate -> Prop) (res : Stream * option Sample) (σ : gstate) : Prop :=
  match res.2 with
  | None => res.1 = st /\ K owned held E σ
  | Some s => sm_region s = r /\ recv_post st owned held E res.1 (sm_block_idx s) (sm_len s) σ
  end.

Lemma try_recv_triple fuel st owned held E :
  st_region st = r -> st_topic_idx st = tp -> 0 <= st_last_seq st ->
  ext_closed t E -> held_low st held ->
  triple (K owned held E) (try_recv fuel st) (try_recv_post st owned held E).
Proof.
  intros Hreg Htop H0 HE Hlow. unfold try_recv.
  eapply triple_bind; [by apply scan_slots_triple|]. intros o.
  apply triple_ret; [by apply scan_post_stable|]. intros σ HP _.
  destruct o as [[st' sr]|]; cbn; [split; done | done].
Qed.

(** The message of a sample is one of those to be sent. *)
Lemma held_sent st owned held E st' b len σ :
  Inv σ -> recv_post st owned held E st' b len σ ->
  exists bs, bs ∈ sent tp /\ len = Z.of_nat (length bs).
Proof.
  intros Hi (seq & bs & (_ & _ & _ & Hlen & Hb & _) & HK). exists bs. split; [|done].
  destruct (held_role config t _ _ _ _ b (tp, seq, bs) HK) as (sl & hs & Hro & _); [apply lookup_insert_eq|].
  destruct (live_inv config nthreads sent _ _ _ _ _ Hi Hb Hro) as (_ & _ & _ & _ & _ & Hlog).
  destruct (inv_t _ _ _ _ Hi tp Htp) as (_ & Hsub & _).
  apply list_elem_of_lookup_2 in Hlog. by eapply sublist_elem.
Qed.

Lemma try_recv_typed_triple fuel T st owned held E :
  st_region st = r -> st_topic_idx st = tp -> 0 <= st_last_seq st ->
  ext_closed t E -> held_low st held -> Forall (fun bs => blen bs = size_of T) (sent tp) ->
  triple (K owned held E) (try_recv_typed fuel T st)
    (fun res => try_recv_post st owned held E (res.1, typed_view <$> res.2)).
Proof.
  intros Hreg Htop H0 HE Hlow HT. unfold try_recv_typed.
  destruct (_ && _); [apply triple_ret; [by apply K_stable|done]|].
  eapply triple_bind; [by apply scan_slots_triple|]. intros o.
  apply triple_ret; [by apply scan_post_stable|]. intros σ HP Hi.
  destruct o as [[st' sr]|]; cbn in *; [|done]. split; [done|].
  destruct (held_sent _ _ _ _ _ _ _ _ Hi HP) as (bs & Hin & Hlen).
  rewrite Forall_forall in HT. specialize (HT bs Hin). unfold blen in HT. by rewrite <- HT, <- Hlen.
Qed.

(** A blocking receive ends like the receive it repeats: with a sample, or with the
    stream as it was. *)
Section BlockingTriples.
Context {A : Type} (view : A -> Sample) (try_fn : Stream -> prog cell (Stream * option A)).
Context (owned : gset Z) (held : gmap Z version) (E : gstate -> Prop) (st : Stream).
Hypothesis (HE : ext_closed t E).
Hypothesis (Htry : triple (K owned held E) (try_fn st)
  (fun res => try_recv_post st owned held E (res.1, view <$> res.2))).

Definition recv_result (res : Stream * result A Error) : Stream * option Sample :=
  (res.1, match res.2 with Ok s => Some (view s) | Err _ => None end).

Definition blocking_post (res : Stream * result A Error) : gstate -> Prop :=
  try_recv_post st owned held E (recv_result res).

Lemma blocking_post_stable res : stable t (blocking_post res).
Proof.
  destruct res as [st' [s|e]]; unfold blocking_post, try_recv_post; cbn [recv_result fst snd].
  - apply stable_and; [apply stable_pure|by apply recv_post_stable].
  - apply stable_and; [apply stable_pure|by apply K_stable].
Qed.

Lemma blocking_recv_triple pf strategy m :
  triple (K owned held E) (blocking_recv try_fn pf m strategy st) blocking_post.
Proof.
  apply (tri_blocking_recv pool_window Inv RelyT GuarT t try_fn (K owned held E) blocking_post st).
  - by apply stable_undisturbed, K_stable.
  - intros st1 g. apply (blocking_post_stable (st1, Ok g)).
  - by intros e σ Hσ.
  - eapply triple_post; [exact Htry|]. by intros [st1 [g|]] σ H.
Qed.

End BlockingTriples.

(** ** The client keeps its samples intact *)

Definition vseq (v : version) : Z := v.1.2.

Record sub_ok (st : Stream) (rcv : list (option Sample)) (out : list (nat * bytes))
    (vs : list version) (held : gmap Z version) : Prop := {
  so_stream : st_region st = r /\ st_topic_idx st = tp /\ 0 <= st_last_seq st;
  so_length : length vs = length rcv;
  so_low : forall v, v ∈ vs -> v.1.1 = tp /\ 1 <= vseq v <= st_last_seq st;
  so_sorted : StronglySorted (fun v w => vseq v < vseq w) vs;
  so_held : forall b v, held !! b = Some v -> v ∈ vs;
  so_sample : forall k s, rcv !! k = Some (Some s) ->
    exists v, vs !! k = Some v /\ held !! sm_block_idx s = Some v /\
      sm_len s = Z.of_nat (length v.2) /\ sm_region s = r /\ block_ok config (sm_block_idx s);
  so_out : forall k bs, (k, bs) ∈ out -> exists v, vs !! k = Some v /\ v.2 = bs
}.

(** The received messages are in the log. *)
Definition logged (vs : list version) (σ : gstate) : Prop :=
  forall v, v ∈ vs -> g_log σ.1 tp !! Z.to_nat (vseq v - 1) = Some v.2.

Lemma logged_closed vs : ext_closed t (logged vs).
Proof. intros σ σ' Hl [_ Hx] v Hv. eapply prefix_lookup_Some; [by apply Hl | apply Hx]. Qed.

(** What the client's output says. *)
Definition delivered (out : list (nat * bytes)) (σ : gstate) : Prop :=
  exists ms, ms `sublist_of` g_log σ.1 tp /\ forall k bs, (k, bs) ∈ out -> ms !! k = Some bs.

Lemma sub_ok_delivered st rcv out vs held σ :
  sub_ok st rcv out vs held -> logged vs σ -> delivered out σ.
Proof.
  intros Hok Hl. exists (map snd vs). split.
  - apply (sublist_sorted _ (fun v => Z.to_nat (vseq v - 1)) snd vs 0).
    + eapply StronglySorted_impl; [|apply Hok]. intros v w Hv Hw Hlt. cbn in Hlt.
      destruct (so_low _ _ _ _ _ Hok v Hv). lia.
    + intros v Hv. split; [lia | by apply Hl].
  - intros k bs Hin. destruct (so_out _ _ _ _ _ Hok k bs Hin) as (v & Hv & <-).
    apply list_lookup_fmap_Some. eauto.
Qed.

(** A new sample. *)
Lemma sub_ok_recv st rcv out vs held seq bs s :
  sub_ok st rcv out vs held ->
  st_last_seq st < seq -> 1 <= seq -> sm_len s = Z.of_nat (length bs) -> sm_region s = r ->
  block_ok config (sm_block_idx s) -> held !! sm_block_idx s = None ->
  sub_ok (set_last_seq st seq) (rcv ++ [Some s]) out (vs ++ [(tp, seq, bs)])
    (<[sm_block_idx s := (tp, seq, bs)]> held).
Proof.
  intros [(S1 & S2 & S3) Hlen Hlow Hsort Hheld Hsam Hout] Hlt H1 Hl Hreg Hb Hf. split; cbn.
  - repeat split; try done. lia.
  - rewrite !length_app. cbn. lia.
  - intros v [Hv| ->%list_elem_of_singleton]%elem_of_app; [|cbn; lia].
    destruct (Hlow v Hv). split; [done|lia].
  - apply StronglySorted_snoc; [done|]. intros w Hw. destruct (Hlow w Hw). cbn. lia.
  - intros b v. destruct (decide (b = sm_block_idx s)) as [->|Hne].
    + rewrite lookup_insert_eq. intros [= <-]. set_solver.
    + rewrite lookup_insert_ne by congruence. intros Hv. apply elem_of_app. left. eauto.
  - intros k s' [Hk|[Hge Hk]]%lookup_app_Some.
    + destruct (Hsam k s' Hk) as (v & Hv & Hh & Hrest). exists v.
      split; [by apply lookup_app_l_Some|]. split; [|done].
      rewrite lookup_insert_ne; [done|]. intros He. congruence.
    + apply list_lookup_singleton_Some in Hk as [Hk [= <-]].
      exists (tp, seq, bs). rewrite lookup_app_r by lia.
      replace (k - length vs)%nat with 0%nat by lia. rewrite lookup_insert_eq. done.
  - intros k bs' Hin. destruct (Hout k bs' Hin) as (v & Hv & <-). exists v.
    split; [by apply lookup_app_l_Some|done].
Qed.

(** Dropping a sample leaves the others alone: their versions differ. *)
Lemma sub_ok_drop st rcv out vs held k s :
  sub_ok st rcv out vs held -> rcv !! k = Some (Some s) ->
  sub_ok st (<[k := None]> rcv) out vs (delete (sm_block_idx s) held).
Proof.
  intros [Hstr Hlen Hlow Hsort Hheld Hsam Hout] Hk. split; try done.
  - by rewrite length_insert.
  - intros b v [_ Hv]%lookup_delete_Some. eauto.
  - intros j s' Hj. destruct (decide (k = j)) as [<-|Hne].
    { rewrite list_lookup_insert_eq in Hj by (by eapply lookup_lt_Some). done. }
    rewrite list_lookup_insert_ne in Hj by done.
    destruct (Hsam j s' Hj) as (v & Hv & Hh & Hrest). exists v. split; [done|].
    split; [|done]. rewrite lookup_delete_ne; [done|]. intros He.
    destruct (Hsam k s Hk) as (w & Hw & Hhw & _). rewrite He, Hh in Hhw. simplify_eq.
    assert (Hlt : forall a b : nat, (a < b)%nat -> vs !! a = Some w -> vs !! b = Some w -> False).
    { intros a b Hab Ha Hb. pose proof (StronglySorted_app_1_elem_of
        (fun v w => vseq v < vseq w) (take b vs) (drop b vs) w w) as HS.
      rewrite take_drop in HS. specialize (HS Hsort). enough (vseq w < vseq w) by lia. apply HS.
      - apply (list_elem_of_lookup_2 _ a). by rewrite lookup_take_lt by lia.
      - apply (list_elem_of_lookup_2 _ 0%nat). by rewrite lookup_drop, Nat.add_0_r. }
    destruct (Nat.lt_total k j) as [?|[?|?]]; eauto.
Qed.

Lemma sub_ok_out st rcv out vs held k s v :
  sub_ok st rcv out vs held -> rcv !! k = Some (Some s) -> vs !! k = Some v ->
  sub_ok st rcv (out ++ [(k, v.2)]) vs held.
Proof.
  intros [Hstr Hlen Hlow Hsort Hheld Hsam Hout] Hk Hv. split; try done.
  intros j bs [Hin|[= -> ->]%list_elem_of_singleton]%elem_of_app; eauto.
Qed.

Lemma sub_ok_held_low st rcv out vs held : sub_ok st rcv out vs held -> held_low st held.
Proof.
  intros Hok b v Hv. destruct (so_low _ _ _ _ _ Hok v) as [H1 [_ H2]]; [by eapply Hok|]. done.
Qed.

(** What follows a receive, given the rest of the client for every state it may lead to. *)
Lemma after_recv_triple {B} st rcv out vs held st' o (k : list (option Sample) -> prog cell B) Q :
  sub_ok st rcv out vs held ->
  (forall rcv' vs' held', sub_ok st' rcv' out vs' held' -> triple (K ∅ held' (logged vs')) (k rcv') Q) ->
  triple (try_recv_post st ∅ held (logged vs) (st', o))
    (k (match o with Some s => rcv ++ [Some s] | None => rcv end)) Q.
Proof.
  intros Hok Hk. destruct o as [s|]; cbn [try_recv_post fst snd].
  - apply triple_pure. intros Hreg. apply triple_exists. intros seq. apply triple_exists.
    intros bs. apply triple_pure. intros (Hst' & Hlt & H1 & Hlen & Hb & Hf). cbn in Hst'. subst st'.
    eapply triple_inv; [apply K_stable, logged_closed| |
      apply Hk; by apply (sub_ok_recv st rcv out vs held seq bs s)].
    intros σ HK Hi. eapply K_weaken; [|exact HK]. intros Hl v.
    intros [Hv| ->%list_elem_of_singleton]%elem_of_app; [by apply Hl|].
    destruct (held_role config t _ _ _ _ (sm_block_idx s) (tp, seq, bs) HK)
      as (sl & hs & Hro & _); [apply lookup_insert_eq|].
    by destruct (live_inv config nthreads sent _ _ _ _ _ Hi Hb Hro) as (_ & _ & _ & _ & _ & Hlog).
  - apply triple_pure. cbn [fst]. intros ->. by apply Hk.
Qed.

Lemma subscriber_triple fuel cmds st rcv out vs held :
  Forall (sub_cmd_ok (sent tp)) cmds -> sub_ok st rcv out vs held ->
  triple (K ∅ held (logged vs)) (subscriber fuel cmds st rcv out) (fun out' => delivered out').
Proof.
  intros Hcmds. revert st rcv out vs held. induction Hcmds as [|c cmds Hc _ IH]; intros st rcv out vs held Hok.
  { apply triple_ret; [apply K_stable, logged_closed|]. intros σ (_ & _ & Hl) _.
    by eapply sub_ok_delivered. }
  destruct (so_stream _ _ _ _ _ Hok) as (S1 & S2 & S3). pose proof (sub_ok_held_low _ _ _ _ _ Hok) as Hlow.
  pose proof (logged_closed vs) as HE. 
  assert (Hafter : forall st' o, triple (try_recv_post st ∅ held (logged vs) (st', o))
    (subscriber fuel cmds st' (match o with Some s => rcv ++ [Some s] | None => rcv end) out) delivered).
  { intros st' o. apply (after_recv_triple st rcv out vs held st' o (fun rcv' => subscriber fuel cmds st' rcv' out));
      [done|]. intros. by apply IH. }
  destruct c as [|strategy pf|T|T strategy pf|k|k]; cbn [subscriber].
  - eapply triple_bind; [by apply try_recv_triple|].
    intros [st' [s|]]; [apply (Hafter st' (Some s)) | apply (Hafter st' None)].
  - eapply triple_bind; [apply (blocking_recv_triple id); [done..|]; eapply triple_post; [by apply try_recv_triple|]; by intros [st' [s|]] σ HP|].
    intros [st' [s|e]]; [apply (Hafter st' (Some s)) | apply (Hafter st' None)].
  - eapply triple_bind; [by apply try_recv_typed_triple|].
    intros [st' [s|]]; [apply (Hafter st' (Some (typed_view s))) | apply (Hafter st' None)].
  - eapply triple_bind; [apply (blocking_recv_triple typed_view); [done..|]; by apply try_recv_typed_triple|].
    intros [st' [s|e]]; [apply (Hafter st' (Some (typed_view s))) | apply (Hafter st' None)].
  - destruct (rcv !! k) as [[s|]|] eqn:Hk; [|by apply IH|by apply IH].
    destruct (so_sample _ _ _ _ _ Hok k s Hk) as (v & Hv & Hh & Hlen & Hreg & Hb).
    unfold sample_to_vec. rewrite Hlen, Nat2Z.id. eapply triple_bind.
    { eapply load_block_triple with (i := 0%nat) (v := v); done. }
    intros bs. apply triple_pure. rewrite drop_0, firstn_all. intros ->.
    apply IH. by eapply sub_ok_out.
  - destruct (rcv !! k) as [[s|]|] eqn:Hk; [|by apply IH|by apply IH].
    destruct (so_sample _ _ _ _ _ Hok k s Hk) as (v & Hv & Hh & Hlen & Hreg & Hb).
    unfold sample_drop. rewrite Hreg. eapply triple_bind.
    { by eapply release_block_triple. }
    intros []. apply IH. by apply sub_ok_drop.
Qed.

End Subscriber.
