(* ===== verification/PublisherProof.v ===== *)
(** * PublisherProof: a publisher under concurrency

    A publisher of a region, its owner or a secondary one, against any number of
    subscribers and of publishers of other topics: its allocations, its writes into
    owned blocks and its commits keep the invariant, and what it appends to the log of
    a topic is what it was asked to publish. *)

From S2P Require Import Prelude Errors Layout Atomics Rely ShmBytes Pool Ring Wait Subscription.
From S2P Require Import Loan Publisher Payload Ghost Ownership.

(** ** The publisher's client *)

(** Writes a payload into a loan. *)
Definition fill (l : Loan) (f : payload) : prog cell (Loan * result unit Error) :=
  match f with
  | Raw data => set_data l data
  | Structured T E header entries count => write_structured T E l header entries count
  end.

(** Loan, write, and publish with or without waking the subscribers; [publish] is the
    case of raw data with a wake. *)
Definition publish_loaned (fuel : nat) (p : Publisher) (handle : Topic) (f : payload) (wake : bool)
    : prog cell (Publisher * result unit Error) :=
  let* (p1, res) := loan fuel p handle in
  match res with
  | Err e => Ret (p1, Err e)
  | Ok l =>
      let* (l1, res1) := fill l f in
      match res1 with
      | Err e => loan_drop fuel l1 ;;; Ret (p1, Err e)
      | Ok _ => (if wake then loan_publish fuel l1 else loan_publish_silent fuel l1) ;;; Ret (p1, Ok tt)
      end
  end.

Inductive pub_cmd : Type :=
| PPublish (handle : Topic) (data : bytes)
| PLoan (handle : Topic) (f : payload) (wake : bool)
| PTyped (T : Pod) (handle : Topic) (value : bytes)
| PLoanDrop (handle : Topic)
| PHeartbeat.

(** Errors are ignored: a failed publish sends nothing. *)
Fixpoint publisher_client (fuel : nat) (cmds : list pub_cmd) (p : Publisher)
    : prog cell (list (nat * bytes)) :=
  match cmds with
  | [] => Ret []
  | PPublish handle data :: cmds' =>
      let* (p', _) := publish fuel p handle data in
      publisher_client fuel cmds' p'
  | PLoan handle f wake :: cmds' =>
      let* (p', _) := publish_loaned fuel p handle f wake in
      publisher_client fuel cmds' p'
  | PTyped T handle value :: cmds' =>
      let* (p', _) := publish_typed fuel T p handle value in
      publisher_client fuel cmds' p'
  | PLoanDrop handle :: cmds' =>
      let* (p', res) := loan fuel p handle in
      match res with
      | Ok l => loan_drop fuel l ;;; publisher_client fuel cmds' p'
      | Err _ => publisher_client fuel cmds' p'
      end
  | PHeartbeat :: cmds' =>
      let* (p', _) := heartbeat p in
      publisher_client fuel cmds' p'
  end.

Definition cmd_message (c : pub_cmd) : option (Topic * bytes) :=
  match c with
  | PPublish handle data => Some (handle, data)
  | PLoan handle f _ => Some (handle, payload_bytes f)
  | PTyped _ handle value => Some (handle, value)
  | PLoanDrop _ | PHeartbeat => None
  end.

(** The messages a client asks to publish on topic [ti]. *)
Definition requested (cmds : list pub_cmd) (ti : Z) : list bytes :=
  omap (fun c => match cmd_message c with
                 | Some (handle, data) => if decide (tp_topic_idx handle = ti) then Some data else None
                 | None => None
                 end) cmds.

(** A client publishes on topics of the region; a typed value fits a block, which
    [publish_typed] does not check. *)
Definition cmd_ok (config : Config) (c : pub_cmd) : Prop :=
  match c with
  | PPublish handle _ => topic_ok config (tp_topic_idx handle)
  | PLoan handle f _ => topic_ok config (tp_topic_idx handle) /\ payload_ok f
  | PTyped T handle value =>
      topic_ok config (tp_topic_idx handle) /\ blen value = size_of T /\
      size_of T <= block_size config - BLOCK_DATA_OFFSET
  | PLoanDrop _ | PHeartbeat => True
  end.

Lemma publish_is_loaned fuel p handle data :
  publish fuel p handle data = publish_loaned fuel p handle (Raw data) true.
Proof. reflexivity. Qed.

(** Every payload is one bounded copy. *)
Lemma fill_eq l f :
  payload_ok f -> ln_capacity l < 2 ^ 64 ->
  fill l f =
    if ln_capacity l <? blen (payload_bytes f)
    then Ret (l, Err (DataTooLarge (blen (payload_bytes f)) (ln_capacity l)))
    else store_block (ln_block_idx l) 0 (payload_bytes f) ;;;
         Ret (ln_set_len l (blen (payload_bytes f)), Ok tt).
Proof.
  destruct f as [data|T E header entries count]; cbn [fill payload_ok payload_bytes].
  - intros _ _. unfold set_data. rewrite nontemporal_copy_eq.
    destruct (ln_capacity l <? blen data); [done|]. by destruct (_ <=? _).
  - intros (Hh & HE & Hc & He & Hlen) Hcap. destruct (Z.ltb_spec (ln_capacity l) (blen (structured header entries count))) as [Hbig|Hfit].
    + rewrite structured_len in *. unfold write_structured, uadd. rewrite <- Hh, <- He.
      rewrite !wrap64_small by (rewrite ?wrap64_small; unfold blen in *; lia).
      by replace (_ <? _) with true by lia.
    + by apply write_structured_eq.
Qed.

Section PublisherProof.
Context `{Pubs : Publishers}.
Context (config : Config) (nthreads : nat) (sent : Z -> list bytes).
Hypothesis (Hcfg : config_u32 config).
Hypothesis (Hpow : is_power_of_two (ring_depth config) = true).
Hypothesis (Hbs : BLOCK_DATA_OFFSET + 1 <= block_size config).
Hypothesis (Hthreads : Z.of_nat nthreads < 2 ^ 32 - 2).
Hypothesis (Hsent : forall ti, Z.of_nat (length (sent ti)) < 2 ^ 63).
Context (t : nat) (Ht : (t < nthreads)%nat).
Context (r : Region) (Hr : rg_config r = config) (Hrec : rec_of (rg_handle r) = t).
(** Whether the publisher is the region's owner, which skips the claim of a slot. *)
Context (single : bool).
Local Abbreviation Inv := (Inv config nthreads sent).
Local Abbreviation triple := (triple config nthreads sent t).
Local Abbreviation K := (K config t).
Local Abbreviation h := (rg_handle r).

(** ** Steps on the cells only the publisher writes *)

(** An owned block with known contents. *)
Definition filled (b : Z) (bs : bytes) (σ : gstate) : Prop :=
  roleof σ b = ROwned t /\ block_holds (mem σ) b bs.

Lemma filled_stable b bs : stable t (filled b bs).
Proof.
  intros σ σ' [H1 H2] Hrel. destruct (r_owned _ _ _ Hrel b H1) as [H3 H4].
  split; [done|]. intros i x Hx. rewrite H4; [by apply H2|]. cbn. lia.
Qed.

Lemma pub_cell_mem σ g' c v c' : c <> c' -> mem (g', h_set c v σ.2) c' = mem σ c'.
Proof. intros. unfold mem. cbn. by rewrite upd_ne. Qed.

Lemma pub_cell_mem_eq (σ : gstate) g' c v : mem (g', h_set c v σ.2) c = v.
Proof. unfold mem. cbn. by rewrite upd_eq. Qed.

Lemma pub_cell_not c c' : pub_cell c = true -> pub_cell c' = false -> c <> c'.
Proof. congruence. Qed.

(** The parts of the invariant that a publisher's step does not touch. *)
Lemma pub_step_inv σ c v g' :
  Inv σ -> pub_cell c = true -> g_role g' = g_role σ.1 -> g_free g' = g_free σ.1 ->
  (forall ti, g_log σ.1 ti `prefix_of` g_log g' ti) ->
  (forall ti s, topic_ok config ti -> 0 <= s < ring_depth config ->
     inv_slot config (g', h_set c v σ.2) ti s) ->
  (forall ti, topic_ok config ti -> inv_topic config sent (g', h_set c v σ.2) ti) ->
  Inv (g', h_set c v σ.2).
Proof.
  intros Hi Hc Hro Hf Hlog Hs Htp.
  assert (Hm : forall c', pub_cell c' = false -> mem (g', h_set c v σ.2) c' = mem σ c').
  { intros c' Hc'. apply pub_cell_mem. by apply pub_cell_not. }
  split; [| | |done|done].
  - destruct (inv_p _ _ _ _ Hi) as [P1 P2 P3 P4 P5].
    split; cbn [fst]; rewrite ?Hf, ?Hm by done; try done.
    + eapply linked_ext; [|done]. intros. by apply Hm.
    + intros b Hb. unfold roleof. cbn. rewrite Hro. by apply P5.
  - intros b Hb. unfold inv_next. rewrite Hm by done. by apply Hi.
  - intros b Hb. pose proof (inv_b _ _ _ _ Hi b Hb) as Hk. unfold inv_block, roleof in *.
    cbn [fst] in *. rewrite Hro, Hm by done.
    destruct (g_role σ.1 b) as [| |[[ti q] bs] sl hs]; try done.
    destruct Hk as (A1 & A2 & A3 & A4 & A5 & A6). repeat split; try done.
    + intros i x Hx. rewrite Hm by done. by apply A4.
    + eapply prefix_lookup_Some; [done | apply Hlog].
Qed.

(** Only the topics of this thread change. *)
Definition own_step (σ : gstate) (g' : ghost) : Prop :=
  forall ti, pub_of ti <> t -> g_log g' ti = g_log σ.1 ti /\
    forall s, g_idxver g' ti s = g_idxver σ.1 ti s /\ g_lenver g' ti s = g_lenver σ.1 ti s.

Lemma own_step_refl σ : own_step σ σ.1.
Proof. by intros ti _. Qed.

Lemma own_step_same σ g' c v t' :
  t' <> t -> own_step σ g' -> owner_of c = Some t -> g_role g' = g_role σ.1 ->
  own_same t' σ (g', h_set c v σ.2).
Proof.
  intros Hne Hs Hc Hro.
  split; cbn [fst]; [intros ti Hti|intros ti s Hti|intros ti s Hti|intros b ti q bs Hti|intros c' Hc'].
  1-3: destruct (Hs ti) as (H1 & H2); [congruence|]; try apply H2; done.
  - unfold pubref, roleof. cbn. by rewrite Hro.
  - apply pub_cell_mem. congruence.
Qed.

Lemma pub_step_guar σ c v g' :
  owner_of c = Some t -> own_step σ g' -> g_role g' = g_role σ.1 -> g_free g' = g_free σ.1 ->
  mono σ (g', h_set c v σ.2) -> GuarT t σ (g', h_set c v σ.2).
Proof.
  intros Hc Hs Hro Hf Hmo t' Hne. split; try done.
  - intros b Hb. split; [unfold roleof in *; cbn; by rewrite Hro|].
    intros c' Hc'. apply pub_cell_mem. apply pub_cell_not; [by eapply owner_pub_cell | by eapply own_not_pub].
  - intros b ver. unfold held_as, roleof. cbn. by rewrite Hro.
  - split; [by apply own_step_same|done].
Qed.

(** A publisher's store: what has to be shown about the slots, and what it keeps. *)
Lemma pub_goes σ c v g' owned (E E' : gstate -> Prop) :
  Inv σ -> K owned ∅ E σ -> owner_of c = Some t -> own_step σ g' ->
  g_role g' = g_role σ.1 -> g_free g' = g_free σ.1 ->
  mono σ (g', h_set c v σ.2) ->
  (forall ti s, topic_ok config ti -> 0 <= s < ring_depth config ->
     inv_slot config (g', h_set c v σ.2) ti s) ->
  (forall ti, topic_ok config ti -> inv_topic config sent (g', h_set c v σ.2) ti) ->
  E' (g', h_set c v σ.2) ->
  goes config nthreads sent t σ (h_set c v σ.2)
    (fun σ' => K owned ∅ E' σ' /\ forall b bs, filled b bs σ -> filled b bs σ').
Proof.
  intros Hi HK Ho' Hst Hro Hf Hmo Hs Htp HE. pose proof (owner_pub_cell _ _ Ho') as Hc. exists g'.
  split; [by apply pub_step_guar|]. split; [apply pub_step_inv; try done; apply Hmo|].
  destruct HK as (Ho & Hh & _). split; [split; [|split; [|done]]|].
  - intros b Hb. unfold roleof. cbn. rewrite Hro. by apply Ho.
  - intros b ver. unfold held_as, roleof. cbn. rewrite Hro. apply Hh.
  - intros b bs [F1 F2]. split; [unfold roleof; cbn; by rewrite Hro|].
    intros i x Hx. rewrite pub_cell_mem; [by apply F2|]. by apply pub_cell_not.
Qed.

(** A slot whose words and versions did not change. *)
Lemma inv_slot_frame σ σ' ti s :
  inv_slot config σ ti s ->
  g_idxver σ'.1 ti s = g_idxver σ.1 ti s -> g_lenver σ'.1 ti s = g_lenver σ.1 ti s ->
  g_log σ.1 ti `prefix_of` g_log σ'.1 ti ->
  (forall bs, pubref (mem σ (REBlockIdx ti s)) (ti, g_idxver σ.1 ti s, bs) σ ->
     pubref (mem σ (REBlockIdx ti s)) (ti, g_idxver σ.1 ti s, bs) σ') ->
  mem σ' (RESeq ti s) = mem σ (RESeq ti s) ->
  mem σ' (REBlockIdx ti s) = mem σ (REBlockIdx ti s) ->
  mem σ' (REDataLen ti s) = mem σ (REDataLen ti s) ->
  inv_slot config σ' ti s.
Proof.
  intros [A1 A2 A3 A4 A5] Hi Hl Hlog Hp H1 H2 H3. pose proof (prefix_length _ _ Hlog).
  split; rewrite ?Hi, ?Hl, ?H1, ?H2, ?H3; try done; try lia.
  - intros Hpos. destruct (A2 Hpos) as (Hb & Hs & bs & Hr'). eauto 6.
  - intros Hpos. destruct (A4 Hpos) as (bs & Hlk & Hlen). exists bs.
    split; [|done]. by eapply prefix_lookup_Some.
Qed.

(** ** The publisher's part of the state *)

(** [claimed]: the topic and sequence number being committed; [opened]: the slot
    marked as being written; [lf]: the recycled block; [rem]: what the client has
    still to publish. *)
Record pst (claimed opened : option (Z * Z)) (lf : Z) (rem : Z -> list bytes) (σ : gstate)
    : Prop := {
  pt_ws : forall ti, topic_ok config ti -> pub_of ti = t -> (forall q, claimed <> Some (ti, q)) ->
    mem σ (TEWriteSeq ti) = Z.of_nat (length (g_log σ.1 ti));
  pt_claim : forall ti q, claimed = Some (ti, q) -> pub_of ti = t -> mem σ (TEWriteSeq ti) = q;
  pt_closed : forall ti s, topic_ok config ti -> pub_of ti = t -> 0 <= s < ring_depth config ->
    opened <> Some (ti, s) -> mem σ (RESeq ti s) <> SEQ_WRITING;
  pt_open : forall ti s, opened = Some (ti, s) -> pub_of ti = t -> mem σ (RESeq ti s) = SEQ_WRITING;
  pt_lf : mem σ (LastFreed h) = lf;
  pt_rem : forall ti, topic_ok config ti -> pub_of ti = t -> g_log σ.1 ti ++ rem ti `sublist_of` sent ti
}.

Abbreviation idle := (pst None None).

Lemma pst_closed claimed opened lf rem : ext_closed t (pst claimed opened lf rem).
Proof.
  intros σ σ' [A1 A2 A3 A4 A5 A6] [Hx _].
  assert (Hm : forall c, owner_of c = Some t -> mem σ' c = mem σ c) by apply Hx.
  split; intros; rewrite ?Hm, ?(os_log _ _ _ Hx) by (cbn; congruence); eauto.
Qed.

Section Commit.
Context (ti q : Z) (Hti : topic_ok config ti) (Hpt : pub_of ti = t).
Local Abbreviation s := (ring_slot config q).

(** The message being committed, once its block is live. *)
Definition current (b : Z) (bs : bytes) (σ : gstate) : Prop :=
  Z.of_nat (length (g_log σ.1 ti)) = q /\ g_log σ.1 ti !! Z.to_nat (q - 1) = Some bs /\
  pubref b (ti, q, bs) σ.

(** The block the slot held before. *)
Definition replaced (ob : Z) (σ : gstate) : Prop :=
  ob = NO_BLOCK \/
  (block_ok config ob /\ exists q0 bs0, pubref ob (ti, q0, bs0) σ /\ q0 < q /\
     ring_slot config q0 = s).

Lemma current_closed b bs : ext_closed t (current b bs).
Proof.
  intros σ σ' (H1 & H2 & H3) [Hx _]. unfold current. rewrite (os_log _ _ _ Hx) by done.
  split; [done|]. split; [done|]. by apply Hx.
Qed.

Lemma replaced_closed ob : ext_closed t (replaced ob).
Proof.
  intros σ σ' [->|(Hb & q0 & bs0 & Hp & Hrest)] [Hx _]; [by left|]. right. split; [done|].
  exists q0, bs0. split; [by apply Hx | done].
Qed.

Lemma ext_and0 E E' : ext_closed t E -> ext_closed t E' -> ext_closed t (fun σ => E σ /\ E' σ).
Proof. intros H1 H2 σ σ' [A B] Hx. split; eauto. Qed.

Lemma log_bound σ : Inv σ -> 0 <= Z.of_nat (length (g_log σ.1 ti)) < 2 ^ 63.
Proof.
  intros Hi. destruct (inv_t _ _ _ _ Hi ti Hti) as (_ & Hsub & _).
  apply sublist_length in Hsub. pose proof (Hsent ti). lia.
Qed.

(** Step 1: claim the next sequence number. *)
Lemma claim_goes owned lf rem σ :
  Inv σ -> K owned ∅ (idle lf rem) σ -> mem σ (TEWriteSeq ti) = q - 1 ->
  goes config nthreads sent t σ (h_set (TEWriteSeq ti) (wrap64 (mem σ (TEWriteSeq ti) + 1)) σ.2)
    (fun σ' => K owned ∅ (fun σ => pst (Some (ti, q)) None lf rem σ /\
                                   Z.of_nat (length (g_log σ.1 ti)) = q - 1) σ' /\
               forall b bs, filled b bs σ -> filled b bs σ').
Proof.
  intros Hi HK Hq. pose proof HK as (_ & _ & [A1 A2 A3 A4 A5 A6]). pose proof (log_bound σ Hi).
  rewrite A1 in * by done. rewrite wrap64_small by lia.
  eapply (pub_goes σ (TEWriteSeq ti) _ σ.1); [done|exact HK|cbn; congruence|apply own_step_refl|done|done| | | |].
  - by split; intros.
  - intros t' s' Ht' Hs'. eapply inv_slot_frame; [by apply Hi|done..| | |]; by apply pub_cell_mem.
  - intros t' Ht'. destruct (inv_t _ _ _ _ Hi t' Ht') as (B1 & B2 & B3).
    unfold inv_topic. cbn [fst]. destruct (decide (t' = ti)) as [->|Hne].
    + rewrite pub_cell_mem_eq. split; [lia|done].
    + rewrite pub_cell_mem by congruence. done.
  - split; [|cbn; lia]. split.
    + intros t' Ht' Hp' Hne. rewrite pub_cell_mem; [by apply A1|]. intros [= ->]. by apply (Hne q).
    + intros t' q' [= <- <-] _. rewrite pub_cell_mem_eq. lia.
    + intros t' s' Ht' Hp' Hs' _. rewrite pub_cell_mem by done. by apply A3.
    + done.
    + by rewrite pub_cell_mem.
    + done.
Qed.

Hypothesis (Hq : 1 <= q < 2 ^ 63 + 1).

Lemma slot_range : 0 <= s < ring_depth config.
Proof. apply ring_slot_range; [done|done|lia]. Qed.

(** Step 2: mark the slot. *)
Lemma open_goes owned lf rem σ :
  Inv σ ->
  K owned ∅ (fun σ => pst (Some (ti, q)) None lf rem σ /\
                      Z.of_nat (length (g_log σ.1 ti)) = q - 1) σ ->
  goes config nthreads sent t σ (h_set (RESeq ti s) SEQ_WRITING σ.2)
    (fun σ' => K owned ∅ (fun σ => pst (Some (ti, q)) (Some (ti, s)) lf rem σ /\
                                   Z.of_nat (length (g_log σ.1 ti)) = q - 1) σ' /\
               forall b bs, filled b bs σ -> filled b bs σ').
Proof.
  intros Hi HK. pose proof HK as (_ & _ & [A1 A2 A3 A4 A5 A6] & Hlen).
  eapply (pub_goes σ (RESeq ti s) _ σ.1); [done|exact HK|cbn; congruence|apply own_step_refl|done|done| | | |].
  - by split; intros.
  - intros t' s' Ht' Hs'. destruct (decide (RESeq t' s' = RESeq ti s)) as [[= -> ->]|Hne].
    + destruct (inv_s _ _ _ _ Hi ti s Hti slot_range) as [B1 B2 B3 B4 B5].
      split; rewrite ?pub_cell_mem by done; try done. left. apply pub_cell_mem_eq.
    + eapply inv_slot_frame; [by apply Hi|done..| | |]; apply pub_cell_mem; congruence.
  - intros t' Ht'. pose proof (inv_t _ _ _ _ Hi t' Ht') as HT. unfold inv_topic.
    by rewrite pub_cell_mem.
  - split; [|done]. split.
    + intros t' Ht' Hp' Hne. rewrite pub_cell_mem by done. by apply A1.
    + intros t' q' He. rewrite pub_cell_mem by done. by apply A2.
    + intros t' s' Ht' Hp' Hs' Hne. rewrite pub_cell_mem by congruence. by apply A3.
    + intros t' s' [= <- <-] _. apply pub_cell_mem_eq.
    + by rewrite pub_cell_mem.
    + done.
Qed.

(** Step 3: the block the slot held. *)
Lemma read_replaced σ :
  Inv σ -> Z.of_nat (length (g_log σ.1 ti)) = q - 1 -> replaced (mem σ (REBlockIdx ti s)) σ.
Proof.
  intros Hi Hlen. destruct (inv_s _ _ _ _ Hi ti s Hti slot_range) as [B1 B2 B3 B4 B5].
  destruct (decide (g_idxver σ.1 ti s = 0)) as [H0|H0]; [left; auto|].
  destruct B2 as (Hb & Hs & bs & Hp); [lia|]. right. split; [done|].
  exists (g_idxver σ.1 ti s), bs. split; [done|]. split; [lia|done].
Qed.

Definition older (σ : gstate) : Prop := g_idxver σ.1 ti s < q.
Definition installed (σ : gstate) : Prop := g_idxver σ.1 ti s = q.

Lemma older_closed : ext_closed t older.
Proof. intros σ σ' H [Hx _]. unfold older. by rewrite (os_idx _ _ _ Hx). Qed.
Lemma installed_closed : ext_closed t installed.
Proof. intros σ σ' H [Hx _]. unfold installed. by rewrite (os_idx _ _ _ Hx). Qed.

Lemma read_older σ : Inv σ -> Z.of_nat (length (g_log σ.1 ti)) = q - 1 -> older σ.
Proof.
  intros Hi Hlen. pose proof (is_range _ _ _ _ (inv_s _ _ _ _ Hi ti s Hti slot_range)).
  unfold older. lia.
Qed.

(** Step 4: the block goes live with one reference, and the message is logged. *)
Definition live_state (σ : gstate) (b : Z) (bs : bytes) : gstate :=
  (push_log (set_role σ.1 b (RLive (ti, q, bs) true ∅)) ti bs, h_set (BKRefcount b) 1 σ.2).

Lemma live_role σ b bs b' :
  roleof (live_state σ b bs) b' =
    if decide (b = b') then RLive (ti, q, bs) true ∅ else roleof σ b'.
Proof. reflexivity. Qed.

Lemma live_mem σ b bs c : c <> BKRefcount b -> mem (live_state σ b bs) c = mem σ c.
Proof. intros. unfold mem. cbn. by rewrite upd_ne. Qed.

Lemma live_log σ b bs ti' :
  g_log (live_state σ b bs).1 ti' = if decide (ti = ti') then g_log σ.1 ti' ++ [bs] else g_log σ.1 ti'.
Proof. reflexivity. Qed.

Lemma live_log_prefix σ b bs ti' : g_log σ.1 ti' `prefix_of` g_log (live_state σ b bs).1 ti'.
Proof. rewrite live_log. case_decide; [by apply prefix_app_r | done]. Qed.

Lemma live_guar σ b bs : roleof σ b = ROwned t -> GuarT t σ (live_state σ b bs).
Proof.
  intros Hro t' Hne. split; try done.
  - intros b' Hb'. rewrite live_role. split; [case_decide; [congruence|done]|].
    intros c Hc. apply live_mem. by intros ->.
  - intros b' v. unfold held_as. rewrite live_role. case_decide; [subst|done].
    rewrite Hro. cbn. set_solver.
  - split; [split; try done|split; intros; try done; apply live_log_prefix].
    + intros ti' Hti'. rewrite live_log, decide_False; [done|congruence].
    + intros b' ti' q' bs' Hti'. unfold pubref. rewrite live_role. case_decide as Hd; [|done].
      subst b'. rewrite Hro. split; [intros [=]; congruence|done].
    + intros c Hc. apply live_mem. by intros ->.
Qed.

Lemma live_pubref σ b bs b' v :
  roleof σ b = ROwned t -> pubref b' v σ -> pubref b' v (live_state σ b bs).
Proof.
  intros Hro. unfold pubref. rewrite live_role. case_decide; [subst; by rewrite Hro | done].
Qed.

Lemma live_inv_state σ b bs :
  Inv σ -> block_ok config b -> roleof σ b = ROwned t -> block_holds (mem σ) b bs ->
  Z.of_nat (length (g_log σ.1 ti)) = q - 1 -> mem σ (TEWriteSeq ti) = q ->
  g_log σ.1 ti ++ [bs] `sublist_of` sent ti ->
  Z.of_nat (length bs) <= block_size config - BLOCK_DATA_OFFSET ->
  Inv (live_state σ b bs).
Proof.
  intros Hi Hb Hro Hh Hlen Hws Hsub Hcap. split.
  - destruct (inv_p _ _ _ _ Hi) as [P1 P2 P3 P4 P5]. split; [exact P1|exact P2| |exact P4|].
    + eapply linked_ext; [|done]. intros. by rewrite live_mem.
    + intros b' Hin. destruct (P5 b' Hin) as [Hok' Hro']. split; [done|].
      rewrite live_role, decide_False; [done|]. congruence.
  - intros b' Hb'. unfold inv_next. rewrite live_mem by done. by apply Hi.
  - intros b' Hb'. pose proof (inv_b _ _ _ _ Hi b' Hb') as Hk. unfold inv_block in *.
    rewrite live_role. case_decide as Hd.
    + subst b'. unfold refs. cbn [slot_count]. rewrite size_empty. unfold mem. cbn.
      rewrite upd_eq, decide_True by done. split; [lia|]. split; [lia|].
      split; [set_solver|]. split; [done|]. split; [lia|].
      replace (Z.to_nat (q - 1)) with (length (g_log σ.1 ti)) by lia. by rewrite list_lookup_middle.
    + rewrite live_mem by congruence. destruct (roleof σ b') as [| |[[t' q'] bs'] sl hs]; try done.
      destruct Hk as (A1 & A2 & A3 & A4 & A5 & A6). repeat split; try done.
      eapply prefix_lookup_Some; [done | apply live_log_prefix].
  - intros t' s' Ht' Hs'. eapply inv_slot_frame; [by apply Hi|done|done|apply live_log_prefix| |..];
      try (by apply live_mem). intros bs'. by apply live_pubref.
  - intros t' Ht'. destruct (inv_t _ _ _ _ Hi t' Ht') as (B1 & B2 & B3). unfold inv_topic.
    rewrite live_log, live_mem by done. case_decide as Hd; [subst t'|done].
    rewrite length_app. cbn [length]. split; [lia|]. split; [done|].
    apply Forall_app. split; [done|]. by constructor.
Qed.

Lemma live_goes owned lf rem rem' b bs ob σ :
  rem ti = bs :: rem' ti -> (forall t', t' <> ti -> rem t' = rem' t') ->
  Z.of_nat (length bs) <= block_size config - BLOCK_DATA_OFFSET -> b ∈ owned ->
  Inv σ -> filled b bs σ ->
  K owned ∅ (fun σ => pst (Some (ti, q)) (Some (ti, s)) lf rem σ /\
      (Z.of_nat (length (g_log σ.1 ti)) = q - 1 /\ (replaced ob σ /\ older σ))) σ ->
  goes config nthreads sent t σ (h_set (BKRefcount b) 1 σ.2)
    (K (owned ∖ {[b]}) ∅ (fun σ => pst (Some (ti, q)) (Some (ti, s)) lf rem' σ /\
      (current b bs σ /\ (replaced ob σ /\ older σ)))).
Proof.
  intros Hrem Hrem' Hcap Hb Hi [Hro Hfill] HK.
  pose proof HK as (Ho & Hh & [A1 A2 A3 A4 A5 A6] & Hlen & Hrep & Hold).
  destruct (Ho b Hb) as [Hok _].
  exists (live_state σ b bs).1.
  change ((live_state σ b bs).1, h_set (BKRefcount b) 1 σ.2) with (live_state σ b bs).
  split; [by apply live_guar|]. split.
  { apply live_inv_state; try done.
    - by apply A2.
    - specialize (A6 ti Hti Hpt). rewrite Hrem in A6.
      etransitivity; [|exact A6]. apply sublist_app; [done|]. apply sublist_skip, sublist_nil_l. }
  split; [|split; [|split; [|split; [|split]]]].
  - intros b' Hb'. rewrite live_role, decide_False by set_solver. apply Ho. set_solver.
  - intros b' v. unfold held_as. rewrite live_role. rewrite <- Hh. unfold held_as.
    case_decide as Hd; [|done]. subst b'. rewrite Hro. cbn. set_solver.
  - split.
    + intros t' Ht' Hp' Hne. rewrite live_mem, live_log, decide_False by (done || (intros <-; by apply (Hne q))).
      by apply A1.
    + intros t' q' He. rewrite live_mem by done. by apply A2.
    + intros t' s' Ht' Hp' Hs' Hne. rewrite live_mem by done. by apply A3.
    + intros t' s' He. rewrite live_mem by done. by apply A4.
    + by rewrite live_mem.
    + intros t' Ht' Hp'. rewrite live_log. specialize (A6 t' Ht' Hp'). case_decide as Hd.
      * subst t'. rewrite Hrem in A6. by rewrite <- app_assoc.
      * rewrite <- Hrem' by congruence. done.
  - unfold current. rewrite live_log, decide_True, length_app by done. cbn [length].
    split; [lia|]. split.
    + replace (Z.to_nat (q - 1)) with (length (g_log σ.1 ti)) by lia. by rewrite list_lookup_middle.
    + unfold pubref. by rewrite live_role, decide_True.
  - destruct Hrep as [->|(Hb' & q0 & bs0 & Hp & Hrest)]; [by left|]. right. split; [done|].
    exists q0, bs0. split; [by apply live_pubref|done].
  - done.
Qed.

(** A store to the slot leaves the rest of the publisher's part alone. *)
Lemma pst_slot_store claimed opened lf rem σ g' c v :
  g_log g' = g_log σ.1 -> (c = REBlockIdx ti s \/ c = REDataLen ti s) ->
  pst claimed opened lf rem σ -> pst claimed opened lf rem (g', h_set c v σ.2).
Proof.
  intros Hl Hc [A1 A2 A3 A4 A5 A6].
  assert (Hm : forall c', (forall t' s', c' <> REBlockIdx t' s' /\ c' <> REDataLen t' s') ->
    mem (g', h_set c v σ.2) c' = mem σ c').
  { intros c' Hne. destruct (Hne ti s). apply pub_cell_mem. destruct Hc; congruence. }
  split; intros; cbn [fst]; rewrite ?Hl, ?Hm by (intros; split; done); eauto.
Qed.

Lemma current_store b bs σ g' c v :
  g_log g' = g_log σ.1 -> g_role g' = g_role σ.1 ->
  current b bs σ -> current b bs (g', h_set c v σ.2).
Proof.
  intros Hl Hro (H1 & H2 & H3). unfold current, pubref, roleof. cbn [fst]. by rewrite Hl, Hro.
Qed.

Lemma replaced_store ob σ g' c v :
  g_role g' = g_role σ.1 -> replaced ob σ -> replaced ob (g', h_set c v σ.2).
Proof. intros Hro. unfold replaced, pubref, roleof. cbn [fst]. by rewrite Hro. Qed.

(** Other slots are not affected by a step on this one. *)
Lemma other_slot σ g' c v t' s' :
  Inv σ -> topic_ok config t' -> 0 <= s' < ring_depth config -> ~ (ti = t' /\ s = s') ->
  (c = RESeq ti s \/ c = REBlockIdx ti s \/ c = REDataLen ti s) ->
  g_role g' = g_role σ.1 -> g_log g' = g_log σ.1 ->
  g_idxver g' t' s' = g_idxver σ.1 t' s' -> g_lenver g' t' s' = g_lenver σ.1 t' s' ->
  inv_slot config (g', h_set c v σ.2) t' s'.
Proof.
  intros Hi Ht' Hs' Hne Hc Hro Hl Hx Hn.
  eapply inv_slot_frame; [by apply Hi|done|done|cbn; by rewrite Hl| |..].
  - intros bs. unfold pubref, roleof. cbn. by rewrite Hro.
  - apply pub_cell_mem. naive_solver.
  - apply pub_cell_mem. naive_solver.
  - apply pub_cell_mem. naive_solver.
Qed.

Lemma topics_kept σ g' c v t' :
  Inv σ -> topic_ok config t' -> g_log g' = g_log σ.1 -> c <> TEWriteSeq t' ->
  inv_topic config sent (g', h_set c v σ.2) t'.
Proof.
  intros Hi Ht' Hl Hc. pose proof (inv_t _ _ _ _ Hi t' Ht') as HT. unfold inv_topic. cbn [fst].
  by rewrite Hl, pub_cell_mem.
Qed.

Lemma own_step_idx σ : own_step σ (set_idxver σ.1 ti s q).
Proof. intros t' Hne. split; [done|]. intros s'. cbn. by rewrite at2_ne by naive_solver. Qed.
Lemma own_step_len σ : own_step σ (set_lenver σ.1 ti s q).
Proof. intros t' Hne. split; [done|]. intros s'. cbn. by rewrite at2_ne by naive_solver. Qed.

(** Step 5a: the slot's block index. *)
Lemma install_goes owned lf rem b bs ob σ :
  Inv σ -> block_ok config b ->
  K owned ∅ (fun σ => pst (Some (ti, q)) (Some (ti, s)) lf rem σ /\
      (current b bs σ /\ (replaced ob σ /\ older σ))) σ ->
  goes config nthreads sent t σ (h_set (REBlockIdx ti s) b σ.2)
    (fun σ' => K owned ∅ (fun σ => pst (Some (ti, q)) (Some (ti, s)) lf rem σ /\
      (current b bs σ /\ (replaced ob σ /\ installed σ))) σ' /\
      forall b bs, filled b bs σ -> filled b bs σ').
Proof.
  intros Hi Hb HK. pose proof HK as (_ & _ & Hp & Hcur & Hrep & Hold). unfold older in Hold.
  eapply (pub_goes σ _ _ (set_idxver σ.1 ti s q)); [done|exact HK|cbn; congruence|apply own_step_idx|done|done| | | |].
  - split; cbn [fst set_idxver g_idxver g_log g_lenver]; [done| | |done].
    + intros t' s'. destruct (decide (ti = t' /\ s = s')) as [[<- <-]|Hne]; [rewrite at2_eq; lia|].
      rewrite at2_ne by done. lia.
    + intros t' s'. destruct (decide (ti = t' /\ s = s')) as [[<- <-]|Hne]; [rewrite at2_eq; lia|].
      intros _. apply pub_cell_mem. naive_solver.
  - intros t' s' Ht' Hs'. destruct (decide (ti = t' /\ s = s')) as [[<- <-]|Hne].
    + destruct (inv_s _ _ _ _ Hi ti s Hti slot_range) as [B1 B2 B3 B4 B5].
      destruct Hcur as (Hlen & Hlk & Hpr).
      split; cbn [fst set_idxver g_idxver g_lenver g_log]; rewrite ?at2_eq, ?pub_cell_mem_eq.
      * lia.
      * intros _. split; [done|]. split; [done|]. by exists bs.
      * lia.
      * intros Hpos. rewrite pub_cell_mem by done. by apply B4.
      * left. rewrite pub_cell_mem by done. by apply (pt_open _ _ _ _ _ Hp ti s).
    + apply other_slot; try done; auto. cbn. by rewrite at2_ne.
  - intros t' Ht'. by apply topics_kept.
  - split; [apply pst_slot_store; auto|]. split; [by apply current_store|].
    split; [by apply replaced_store|]. unfold installed. cbn. by rewrite at2_eq.
Qed.

(** Step 5b: its length. *)
Lemma length_goes owned lf rem b bs ob σ :
  Inv σ ->
  K owned ∅ (fun σ => pst (Some (ti, q)) (Some (ti, s)) lf rem σ /\
      (current b bs σ /\ (replaced ob σ /\ installed σ))) σ ->
  goes config nthreads sent t σ (h_set (REDataLen ti s) (Z.of_nat (length bs)) σ.2)
    (fun σ' => K owned ∅ (fun σ => pst (Some (ti, q)) (Some (ti, s)) lf rem σ /\
      (current b bs σ /\ (replaced ob σ /\ (installed σ /\ g_lenver σ.1 ti s = q)))) σ' /\
      forall b bs, filled b bs σ -> filled b bs σ').
Proof.
  intros Hi HK. pose proof HK as (_ & _ & Hp & Hcur & Hrep & Hin). unfold installed in Hin.
  destruct (inv_s _ _ _ _ Hi ti s Hti slot_range) as [B1 B2 B3 B4 B5].
  eapply (pub_goes σ _ _ (set_lenver σ.1 ti s q)); [done|exact HK|cbn; congruence|apply own_step_len|done|done| | | |].
  - split; cbn [fst set_lenver g_idxver g_log g_lenver]; [done|done|done|].
    intros t' s'. destruct (decide (ti = t' /\ s = s')) as [[<- <-]|Hne]; [rewrite at2_eq; lia|].
    rewrite at2_ne by done. lia.
  - intros t' s' Ht' Hs'. destruct (decide (ti = t' /\ s = s')) as [[<- <-]|Hne].
    + destruct Hcur as (Hlen & Hlk & Hpr).
      split; cbn [fst set_lenver g_idxver g_lenver g_log]; rewrite ?at2_eq, ?pub_cell_mem_eq.
      * lia.
      * intros _. rewrite pub_cell_mem by done. apply B2. lia.
      * lia.
      * intros _. by exists bs.
      * left. rewrite pub_cell_mem by done. by apply (pt_open _ _ _ _ _ Hp ti s).
    + apply other_slot; try done; auto. cbn. by rewrite at2_ne.
  - intros t' Ht'. by apply topics_kept.
  - split; [apply pst_slot_store; auto|]. split; [by apply current_store|].
    split; [by apply replaced_store|]. split; [done|]. cbn. by rewrite at2_eq.
Qed.

(** Step 6: close the slot. *)
Lemma close_goes owned lf rem b bs ob σ :
  Inv σ ->
  K owned ∅ (fun σ => pst (Some (ti, q)) (Some (ti, s)) lf rem σ /\
      (current b bs σ /\ (replaced ob σ /\ (installed σ /\ g_lenver σ.1 ti s = q)))) σ ->
  goes config nthreads sent t σ (h_set (RESeq ti s) q σ.2)
    (fun σ' => K owned ∅ (fun σ => idle lf rem σ /\ (replaced ob σ /\ installed σ)) σ' /\
      forall b bs, filled b bs σ -> filled b bs σ').
Proof.
  intros Hi HK. pose proof HK as (_ & _ & Hp & Hcur & Hrep & Hin & Hln). unfold installed in Hin.
  destruct Hcur as (Hlen & _). pose proof Hp as [A1 A2 A3 A4 A5 A6].
  eapply (pub_goes σ _ _ σ.1); [done|exact HK|cbn; congruence|apply own_step_refl|done|done| | | |].
  - by split; intros.
  - intros t' s' Ht' Hs'. destruct (decide (ti = t' /\ s = s')) as [[<- <-]|Hne].
    + destruct (inv_s _ _ _ _ Hi ti s Hti slot_range) as [B1 B2 B3 B4 B5].
      split; rewrite ?pub_cell_mem_eq; try done. right. cbn [fst]. lia.
    + apply other_slot; try done; auto.
  - intros t' Ht'. by apply topics_kept.
  - split; [|split; [by apply replaced_store|done]]. split.
    + intros t' Ht' Hp' _. rewrite pub_cell_mem by done. cbn [fst].
      destruct (decide (t' = ti)) as [->|Hne]; [rewrite (A2 ti q eq_refl Hpt); lia|].
      apply A1; [done|done|]. congruence.
    + done.
    + intros t' s' Ht' Hp' Hs' _. destruct (decide (ti = t' /\ s = s')) as [[<- <-]|Hne].
      * rewrite pub_cell_mem_eq. unfold SEQ_WRITING, u64_max. lia.
      * rewrite pub_cell_mem by naive_solver. apply A3; [done|done|done|]. naive_solver.
    + done.
    + by rewrite pub_cell_mem.
    + done.
Qed.

(** ** Step 7: the replaced block *)

Definition unref_role (v : version) (hs : gset nat) : role :=
  if refs true hs =? 1 then ROwned t else RLive v false hs.

Definition unref_state (σ : gstate) (ob : Z) (v : version) (hs : gset nat) : gstate :=
  (set_role σ.1 ob (unref_role v hs), h_set (BKRefcount ob) (wrap32 (refs true hs - 1)) σ.2).

Lemma unref_roleof σ ob v hs b' :
  roleof (unref_state σ ob v hs) b' = if decide (ob = b') then unref_role v hs else roleof σ b'.
Proof. reflexivity. Qed.

Lemma unref_mem σ ob v hs c : c <> BKRefcount ob -> mem (unref_state σ ob v hs) c = mem σ c.
Proof. intros. unfold mem. cbn. by rewrite upd_ne. Qed.

Lemma refs_true_1 hs : refs true hs = 1 -> hs = ∅.
Proof.
  unfold refs. cbn [slot_count]. intros H. assert (Hs : size hs = 0%nat) by lia.
  apply size_empty_inv in Hs. by apply leibniz_equiv.
Qed.

Lemma unref_guar σ ob v hs :
  pub_of v.1.1 = t -> roleof σ ob = RLive v true hs -> GuarT t σ (unref_state σ ob v hs).
Proof.
  intros Hv Hro t' Hne. split; try done.
  - intros b' Hb'. rewrite unref_roleof. split; [case_decide; [congruence|done]|].
    intros c Hc. apply unref_mem. by intros ->.
  - intros b' v'. unfold held_as. rewrite unref_roleof. case_decide; [subst b'|done].
    rewrite Hro. unfold unref_role. destruct (Z.eqb_spec (refs true hs) 1) as [H1|H1]; [|done].
    rewrite (refs_true_1 hs H1). cbn. set_solver.
  - split; [split; try done|by split; intros].
    + intros b' ti' q' bs' Hti'. unfold pubref. rewrite unref_roleof. case_decide as Hd; [|done].
      subst b'. rewrite Hro. unfold unref_role. destruct (_ =? 1); cbn.
      * split; [done|intros ->; cbn in Hv; congruence].
      * split; [done|intros ->; cbn in Hv; congruence].
    + intros c Hc. apply unref_mem. by intros ->.
Qed.

(** No slot refers to the replaced block any more. *)
Lemma replaced_unreferenced σ ob q0 bs0 t' s' :
  Inv σ -> installed σ -> pubref ob (ti, q0, bs0) σ -> q0 < q -> ring_slot config q0 = s ->
  topic_ok config t' -> 0 <= s' < ring_depth config -> 0 < g_idxver σ.1 t' s' ->
  mem σ (REBlockIdx t' s') <> ob.
Proof.
  intros Hi Hin Hp Hlt Hs Ht' Hs' Hpos He.
  destruct (is_idx _ _ _ _ (inv_s _ _ _ _ Hi t' s' Ht' Hs') Hpos) as (_ & Hsl & bs & Hp').
  rewrite He in Hp'. unfold pubref, role_pub in *. destruct (roleof σ ob) as [| |v [] hs]; try done.
  rewrite Hp in Hp'. injection Hp' as Htt Hq' _. unfold installed in Hin. subst t'.
  rewrite <- Hq', Hs in Hsl. rewrite <- Hsl in Hq'. lia.
Qed.

Lemma unref_inv σ ob q0 bs0 hs :
  Inv σ -> installed σ -> block_ok config ob -> roleof σ ob = RLive (ti, q0, bs0) true hs ->
  q0 < q -> ring_slot config q0 = s -> Inv (unref_state σ ob (ti, q0, bs0) hs).
Proof.
  intros Hi Hin Hb Hro Hlt Hs.
  destruct (live_inv config nthreads sent _ _ _ _ _ Hi Hb Hro) as (H1 & H2 & H3 & H4 & H5 & H6).
  pose proof (refs_bound nthreads t Ht true hs H3) as Hbd.
  assert (Hpub : pubref ob (ti, q0, bs0) σ) by (unfold pubref; by rewrite Hro).
  split.
  - destruct (inv_p _ _ _ _ Hi) as [P1 P2 P3 P4 P5]. split; [exact P1|exact P2| |exact P4|].
    + eapply linked_ext; [|done]. intros. by rewrite unref_mem.
    + intros b' Hin'. destruct (P5 b' Hin') as [Hok' Hro']. split; [done|].
      rewrite unref_roleof, decide_False; [done|]. congruence.
  - intros b' Hb'. unfold inv_next. rewrite unref_mem by done. by apply Hi.
  - intros b' Hb'. destruct (decide (ob = b')) as [<-|Hne].
    + unfold inv_block. rewrite unref_roleof, decide_True by done. unfold unref_role, mem. cbn.
      rewrite upd_eq, wrap32_small by lia.
      destruct (Z.eqb_spec (refs true hs) 1) as [He|He]; [lia|].
      assert (Hrf : refs false hs = refs true hs - 1) by (unfold refs; cbn; lia).
      rewrite Hrf. repeat split; try done; lia.
    + eapply (inv_block_frame nthreads σ); [| | | |by apply Hi]; intros; try done;
        rewrite ?unref_roleof, ?decide_False by done; try done. apply unref_mem. congruence.
  - intros t' s' Ht' Hs'. eapply inv_slot_frame; [by apply Hi|done|done|done| |..];
      try (by apply unref_mem). intros bs Hp. unfold pubref. rewrite unref_roleof, decide_False; [done|].
    intros He. destruct (decide (0 < g_idxver σ.1 t' s')) as [Hpos|Hpos].
    + by eapply (replaced_unreferenced σ ob q0 bs0 t' s').
    + rewrite <- He in Hp. unfold pubref in Hp. rewrite Hro in Hp. cbn in Hp, H5.
      injection Hp as _ Hq0 _. lia.
  - intros t' Ht'. by apply (inv_t _ _ _ _ Hi t' Ht').
Qed.

(** What stays true of the publisher's blocks across a commit. *)
Definition recycled (owned owned' : gset Z) (lf lf' : Z) : Prop :=
  (forall c, c ∈ owned -> c <> lf -> c ∈ owned' /\ c <> lf') /\
  (lf' = NO_BLOCK \/ lf' ∈ owned').

Lemma unref_goes owned lf rem ob q0 bs0 hs σ :
  Inv σ -> K owned ∅ (fun σ => idle lf rem σ /\ (replaced ob σ /\ installed σ)) σ ->
  block_ok config ob -> roleof σ ob = RLive (ti, q0, bs0) true hs -> q0 < q ->
  ring_slot config q0 = s ->
  goes config nthreads sent t σ (h_set (BKRefcount ob) (wrap32 (mem σ (BKRefcount ob) - 1)) σ.2)
    (fun σ' => if mem σ (BKRefcount ob) =? 1
               then (ob ∉ owned) /\ K ({[ob]} ∪ owned) ∅ (idle lf rem) σ'
               else K owned ∅ (idle lf rem) σ').
Proof.
  intros Hi HK Hb Hro Hlt Hs.
  pose proof HK as (Ho & Hh & Hid & _ & Hin).
  destruct (live_inv config nthreads sent _ _ _ _ _ Hi Hb Hro) as (H1 & _). rewrite H1.
  exists (unref_state σ ob (ti, q0, bs0) hs).1.
  change ((unref_state σ ob (ti, q0, bs0) hs).1, h_set (BKRefcount ob) (wrap32 (refs true hs - 1)) σ.2)
    with (unref_state σ ob (ti, q0, bs0) hs).
  split; [by apply unref_guar|]. split; [by apply unref_inv|].
  assert (Hno : ob ∉ owned). { intros Hbo. destruct (Ho ob Hbo). congruence. }
  assert (Hid' : idle lf rem (unref_state σ ob (ti, q0, bs0) hs)).
  { destruct Hid as [A1 A2 A3 A4 A5 A6]. split; intros; rewrite ?unref_mem by done; eauto. }
  assert (Hh' : forall b v, held_as t b v (unref_state σ ob (ti, q0, bs0) hs) <->
    (∅ : gmap Z version) !! b = Some v).
  { intros b v. rewrite <- Hh. unfold held_as. rewrite unref_roleof. case_decide; [subst b|done].
    rewrite Hro. unfold unref_role. destruct (Z.eqb_spec (refs true hs) 1) as [He|He]; [|done].
    rewrite (refs_true_1 hs He). cbn. set_solver. }
  unfold unref_role in *. destruct (Z.eqb_spec (refs true hs) 1) as [He|He].
  - split; [done|]. split; [|done]. intros b Hb'. rewrite unref_roleof. unfold unref_role.
    rewrite He. cbn [Z.eqb Pos.eqb]. case_decide as Hd; [by subst b|]. apply Ho. set_solver.
  - split; [|done]. intros b Hb'. rewrite unref_roleof, decide_False; [by apply Ho|]. congruence.
Qed.

(** [LastFreed] is the publisher's own. *)
Lemma lf_goes owned lf rem x σ :
  Inv σ -> K owned ∅ (idle lf rem) σ ->
  goes config nthreads sent t σ (h_set (LastFreed h) x σ.2) (K owned ∅ (idle x rem)).
Proof.
  intros Hi HK. pose proof HK as (_ & _ & [A1 A2 A3 A4 A5 A6]).
  destruct (pub_goes σ (LastFreed h) x σ.1 owned (idle lf rem) (idle x rem)) as (g' & Hg & Hi' & HK' & _);
    [done|done|cbn; congruence|apply own_step_refl|done|done| | | | |by exists g'].
  - by split; intros.
  - intros t' s' Ht' Hs'. eapply inv_slot_frame; [by apply Hi|done..| | |]; by apply pub_cell_mem.
  - intros t' Ht'. by apply topics_kept.
  - split; try done. apply pub_cell_mem_eq.
Qed.

Definition after_commit (owned : gset Z) (lf : Z) (rem : Z -> list bytes) (σ : gstate) : Prop :=
  exists owned' lf', recycled owned owned' lf lf' /\ K owned' ∅ (idle lf' rem) σ.

Lemma after_commit_stable owned lf rem : stable t (after_commit owned lf rem).
Proof.
  intros σ σ' (owned' & lf' & Hp & HK) Hrel. exists owned', lf'. split; [done|].
  by eapply (K_stable config); [apply pst_closed|..].
Qed.

Lemma idle_after_commit owned lf rem σ :
  lf = NO_BLOCK \/ lf ∈ owned -> K owned ∅ (idle lf rem) σ -> after_commit owned lf rem σ.
Proof. intros Hlf HK. exists owned, lf. by split. Qed.

(** Keep the replaced block for reuse; the one kept before goes to the pool. *)
Lemma recycle_triple fuel owned lf rem ob :
  lf = NO_BLOCK \/ lf ∈ owned -> ob ∉ owned ->
  triple (K ({[ob]} ∪ owned) ∅ (idle lf rem))
    (let* old_recycled := swap (LastFreed h) ob in
     if negb (old_recycled =? NO_BLOCK) then free_block r fuel old_recycled else Ret tt)
    (fun _ => after_commit owned lf rem).
Proof.
  intros Hlf Hno. cbn [bind swap].
  eapply (triple_rmw _ _ _ _ _ _ _ _ (fun v σ => v = lf /\ K ({[ob]} ∪ owned) ∅ (idle ob rem) σ)).
  { apply K_stable, pst_closed. }
  { intros σ HK Hi. destruct (lf_goes _ lf rem ob σ Hi HK) as (g' & Hg & Hi' & HK').
    exists g'. split; [done|]. split; [done|]. split; [|done].
    destruct HK as (_ & _ & Hid). apply Hid. }
  intros v. apply triple_pure. intros ->.
  destruct (Z.eqb_spec lf NO_BLOCK) as [->|Hne]; cbn [negb].
  - apply triple_ret; [apply K_stable, pst_closed|]. intros σ HK _.
    exists ({[ob]} ∪ owned), ob. split; [|done]. split; [|right; set_solver].
    intros c Hc _. split; [set_solver|]. by intros ->.
  - destruct Hlf as [|Hlf]; [done|].
    eapply triple_post; [eapply free_block_triple; try done; [apply pst_closed|set_solver]|].
    intros [] σ HK. exists (({[ob]} ∪ owned) ∖ {[lf]}), ob. split; [|done].
    split; [set_solver|]. right. set_solver.
Qed.

Lemma release_old_triple fuel owned lf rem ob :
  lf = NO_BLOCK \/ lf ∈ owned ->
  triple (K owned ∅ (fun σ => idle lf rem σ /\ (replaced ob σ /\ installed σ)))
    (release_old r fuel ob) (fun _ => after_commit owned lf rem).
Proof.
  intros Hlf.
  assert (HE : ext_closed t (fun σ => idle lf rem σ /\ (replaced ob σ /\ installed σ))).
  { apply ext_and0; [apply pst_closed|]. apply ext_and0; [apply replaced_closed|apply installed_closed]. }
  apply (triple_inv _ _ _ _ _ (fun σ => (ob = NO_BLOCK \/ block_ok config ob) /\
    K owned ∅ (fun σ => idle lf rem σ /\ (replaced ob σ /\ installed σ)) σ)).
  { by apply K_stable. }
  { intros σ HK _. split; [|done]. destruct HK as (_ & _ & _ & [->|[Hb _]] & _); auto. }
  apply triple_pure. intros Hob. unfold release_old. rewrite Hr.
  destruct Hob as [->|Hb].
  { apply triple_ret; [by apply K_stable|]. intros σ (Ho & Hh & Hid & _) _.
    by apply idle_after_commit. }
  pose proof (block_ok_not_none _ _ Hcfg Hb) as Hnn. pose proof Hb as Hb'. unfold block_ok in Hb'.
  zb_rewrite. cbn [negb andb bind fetch_sub32].
  eapply (triple_rmw _ _ _ _ _ _ _ _ (fun prev σ =>
    if prev =? 1 then (ob ∉ owned) /\ K ({[ob]} ∪ owned) ∅ (idle lf rem) σ
    else K owned ∅ (idle lf rem) σ)).
  { by apply K_stable. }
  { intros σ HK Hi. pose proof HK as (_ & _ & _ & Hrep & _).
    destruct Hrep as [->|(_ & q0 & bs0 & Hp & Hlt & Hs)]; [done|].
    unfold pubref, role_pub in Hp. destruct (roleof σ ob) as [| |v [] hs] eqn:Hro; try done.
    subst v. by eapply unref_goes. }
  intros prev. destruct (prev =? 1).
  - apply triple_pure. intros Hno. by apply recycle_triple.
  - apply triple_ret; [apply K_stable, pst_closed|]. intros σ HK _. by apply idle_after_commit.
Qed.

Lemma smart_wake_triple wake P : stable t P -> triple P (smart_wake wake ti) (fun _ => P).
Proof.
  intros Hs. unfold smart_wake. destruct wake; [|by apply triple_ret].
  cbn [bind load]. apply triple_load_any; [done|done|]. intros w.
  destruct (0 <? w); [|by apply triple_ret]. cbn [wake_all].
  apply triple_wake; [done|]. by apply triple_ret.
Qed.

Lemma length_closed n : ext_closed t (fun σ => Z.of_nat (length (g_log σ.1 ti)) = n).
Proof. intros σ σ' H [Hx _]. by rewrite (os_log _ _ _ Hx). Qed.

Lemma lenver_closed : ext_closed t (fun σ => g_lenver σ.1 ti s = q).
Proof. intros σ σ' H [Hx _]. by rewrite (os_len _ _ _ Hx). Qed.

Ltac closed :=
  repeat first [apply pst_closed | apply current_closed | apply replaced_closed
    | apply older_closed | apply installed_closed | apply length_closed | apply lenver_closed
    | apply ext_and0].
Ltac kstable :=
  repeat first [apply filled_stable | apply K_stable; closed | apply stable_and].

(** Step 2, by the owner's store or by the claim loop: nobody else writes the slots of
    this topic, so the slot is not marked and the loop ends with its first exchange
    that does not fail spuriously. *)
Definition marked (opened : option (Z * Z)) (owned : gset Z) (lf : Z) (rem : Z -> list bytes) (b : Z)
    (bs : bytes) (σ : gstate) : Prop :=
  K owned ∅ (fun σ => pst (Some (ti, q)) opened lf rem σ /\
                      Z.of_nat (length (g_log σ.1 ti)) = q - 1) σ /\ filled b bs σ.

Lemma marked_stable opened owned lf rem b bs : stable t (marked opened owned lf rem b bs).
Proof. unfold marked. kstable. Qed.

Lemma mark_goes owned lf rem b bs σ :
  marked None owned lf rem b bs σ -> Inv σ ->
  goes config nthreads sent t σ (h_set (RESeq ti s) SEQ_WRITING σ.2)
    (marked (Some (ti, s)) owned lf rem b bs).
Proof.
  intros [HK Hf] Hi. destruct (open_goes owned lf rem σ Hi HK) as (g' & Hg & Hi' & HK' & Hf').
  exists g'. split; [done|]. split; [done|]. split; auto.
Qed.

Lemma claim_slot_triple fuel spins owned lf rem b bs :
  triple (marked None owned lf rem b bs) (claim_slot fuel (RESeq ti s) spins)
    (fun _ => marked (Some (ti, s)) owned lf rem b bs).
Proof.
  revert spins. induction fuel as [|fuel IH]; intros spins; cbn [claim_slot]; [by intros σ Hσ σ' _ _|].
  cbn [bind load].
  eapply (triple_load_ne _ _ _ _ _ _ _ (fun v σ => v <> SEQ_WRITING /\ marked None owned lf rem b bs σ));
    [done|apply marked_stable|intros v; apply stable_and; [apply stable_pure|apply marked_stable]| |].
  { intros σ Hm Hi. split; [|done]. destruct Hm as [(_ & _ & Hp & _) _].
    by apply (pt_closed _ _ _ _ _ Hp); [| |apply slot_range|]. }
  intros v. apply triple_pure. intros Hv. replace (v =? SEQ_WRITING) with false by lia.
  cbn [bind compare_exchange_weak].
  eapply (triple_cas _ _ _ _ _ _ _ _ _ _ _ (fun _ => marked None owned lf rem b bs)); [apply marked_stable| | | |].
  - intros σ Hm Hi _ _. apply goes_cas; [done|apply marked_stable|by apply mark_goes].
  - intros σ Hm Hi. eapply marked_stable; [exact Hm|]. by apply see_rely; right.
  - apply triple_ret; [apply marked_stable|done].
  - intros v'. apply IH.
Qed.

Lemma mark_triple fuel owned lf rem b bs :
  triple (marked None owned lf rem b bs)
    (if single then store (RESeq ti s) SEQ_WRITING else claim_slot fuel (RESeq ti s) 0)
    (fun _ => marked (Some (ti, s)) owned lf rem b bs).
Proof.
  destruct single; [|apply claim_slot_triple].
  eapply triple_store; [apply marked_stable|intros σ Hm Hi; by apply mark_goes|].
  apply triple_ret; [apply marked_stable|done].
Qed.

(** Steps 2 to 8, once sequence number [q] is claimed. *)
Lemma commit_rest_triple fuel owned lf rem rem' b bs wake :
  rem ti = bs :: rem' ti -> (forall t', t' <> ti -> rem t' = rem' t') ->
  Z.of_nat (length bs) <= block_size config - BLOCK_DATA_OFFSET ->
  b ∈ owned -> b <> lf -> lf = NO_BLOCK \/ lf ∈ owned ->
  triple (marked None owned lf rem b bs)
    ((if single then store (RESeq ti s) SEQ_WRITING else claim_slot fuel (RESeq ti s) 0) ;;;
     let* old_block_idx := load (REBlockIdx ti s) in
     store (BKRefcount b) 1 ;;;
     store (REBlockIdx ti s) b ;;;
     store (REDataLen ti s) (Z.of_nat (length bs)) ;;;
     store (RESeq ti s) q ;;;
     release_old r fuel old_block_idx ;;;
     smart_wake wake ti)
    (fun _ => after_commit (owned ∖ {[b]}) lf rem').
Proof.
  intros Hrem Hrem' Hcap Hb Hblf Hlf.
  eapply triple_bind; [apply mark_triple|]. intros []. unfold marked. cbn [bind store load].
  eapply (triple_load_ne _ _ _ _ _ _ _ (fun ob σ =>
    K owned ∅ (fun σ => pst (Some (ti, q)) (Some (ti, s)) lf rem σ /\
      (Z.of_nat (length (g_log σ.1 ti)) = q - 1 /\ (replaced ob σ /\ older σ))) σ /\ filled b bs σ));
    [done|kstable|intros ob; kstable| |].
  { intros σ [(Ho & Hh & Hp & Hl) Hf] Hi. split; [|done]. split; [done|]. split; [done|].
    split; [done|]. split; [done|]. split; [by apply read_replaced | by apply read_older]. }
  intros ob.
  apply (triple_inv _ _ _ _ _ (fun σ => block_ok config b /\
    (K owned ∅ (fun σ => pst (Some (ti, q)) (Some (ti, s)) lf rem σ /\
      (Z.of_nat (length (g_log σ.1 ti)) = q - 1 /\ (replaced ob σ /\ older σ))) σ /\
     filled b bs σ))); [kstable| |].
  { intros σ [HK Hf] _. split; [|done]. destruct HK as (Ho & _). by apply Ho. }
  apply triple_pure. intros Hok.
  eapply triple_store; [kstable|intros σ [HK Hf] Hi; by eapply live_goes|].
  eapply (triple_store _ _ _ _ _ _ _ _ (K (owned ∖ {[b]}) ∅ (fun σ =>
    pst (Some (ti, q)) (Some (ti, s)) lf rem' σ /\
    (current b bs σ /\ (replaced ob σ /\ installed σ))))); [kstable| |].
  { intros σ HK Hi. eapply goes_weaken; [by eapply install_goes|]. by intros σ' []. }
  eapply (triple_store _ _ _ _ _ _ _ _ (K (owned ∖ {[b]}) ∅ (fun σ =>
    pst (Some (ti, q)) (Some (ti, s)) lf rem' σ /\
    (current b bs σ /\ (replaced ob σ /\ (installed σ /\ g_lenver σ.1 ti s = q)))))); [kstable| |].
  { intros σ HK Hi. eapply goes_weaken; [by eapply length_goes|]. by intros σ' []. }
  eapply (triple_store _ _ _ _ _ _ _ _ (K (owned ∖ {[b]}) ∅ (fun σ =>
    idle lf rem' σ /\ (replaced ob σ /\ installed σ)))); [kstable| |].
  { intros σ HK Hi. eapply goes_weaken; [by eapply close_goes|]. by intros σ' []. }
  eapply triple_bind; [apply release_old_triple; set_solver|].
  intros []. apply smart_wake_triple, after_commit_stable.
Qed.

End Commit.

(** ** Commit *)

Lemma commit_to_ring_triple fuel ti owned lf rem rem' b bs wake :
  topic_ok config ti -> pub_of ti = t ->
  rem ti = bs :: rem' ti -> (forall t', t' <> ti -> rem t' = rem' t') ->
  Z.of_nat (length bs) <= block_size config - BLOCK_DATA_OFFSET ->
  b ∈ owned -> b <> lf -> lf = NO_BLOCK \/ lf ∈ owned ->
  triple (fun σ => K owned ∅ (idle lf rem) σ /\ filled b bs σ)
    (commit_to_ring r fuel b (Z.of_nat (length bs)) ti wake single)
    (fun _ => after_commit (owned ∖ {[b]}) lf rem').
Proof.
  intros Hti Hpt Hrem Hrem' Hcap Hb Hblf Hlf. unfold commit_to_ring. cbn [bind fetch_add64].
  eapply (triple_rmw _ _ _ _ _ _ _ _ (fun v σ => 0 <= v < 2 ^ 63 /\
    (K owned ∅ (fun σ => pst (Some (ti, v + 1)) None lf rem σ /\
                         Z.of_nat (length (g_log σ.1 ti)) = v) σ /\ filled b bs σ))).
  { apply stable_and; [apply K_stable, pst_closed | apply filled_stable]. }
  { intros σ [HK Hf] Hi.
    assert (Hw : mem σ (TEWriteSeq ti) = Z.of_nat (length (g_log σ.1 ti))).
    { destruct HK as (_ & _ & Hid). by apply Hid. }
    pose proof (log_bound ti Hti Hpt σ Hi).
    eapply goes_weaken; [apply (claim_goes ti (mem σ (TEWriteSeq ti) + 1)); [done|done|done|exact HK|lia]|].
    intros σ' [(Ho & Hh & Hp & Hl) Hf']. split; [lia|]. split; [|by apply Hf'].
    split; [done|]. split; [done|]. split; [done|lia]. }
  intros v. apply triple_pure. intros Hv. cbv zeta. rewrite Hr, wrap64_small by lia.
  eapply triple_pre; [apply (commit_rest_triple ti (v + 1)); try done; lia|].
  intros σ [(Ho & Hh & Hp & Hl) Hf]. split; [|done]. split; [done|]. split; [done|].
  split; [done|lia].
Qed.

(** ** Filling a block *)

Lemma store_block_from b pre bs owned E :
  ext_closed t E -> b ∈ owned ->
  triple (fun σ => K owned ∅ E σ /\ filled b pre σ) (store_block b (Z.of_nat (length pre)) bs)
    (fun _ σ => K owned ∅ E σ /\ filled b (pre ++ bs) σ).
Proof.
  intros HE Hb. revert pre. induction bs as [|x bs IH]; intros pre; cbn [store_block].
  - apply triple_ret; [apply stable_and; [by apply K_stable|apply filled_stable]|].
    intros σ HP _. by rewrite app_nil_r.
  - cbn [bind store]. eapply triple_own_store with (b := b) (owned := owned) (held := ∅) (E := E)
      (P' := fun σ => K owned ∅ E σ /\ filled b (pre ++ [x]) σ);
      [done|done|apply stable_and; [by apply K_stable|apply filled_stable]|done|cbn; lia|done
      |by intros σ [? _]| |].
    { intros σ [HK [F1 F2]] _ HK'. split; [done|]. split; [done|].
      intros i y [Hy|[Hge Hy]]%lookup_app_Some.
      - unfold mem. cbn. pose proof (lookup_lt_Some _ _ _ Hy). rewrite upd_ne; [by apply F2|].
        intros [=]. lia.
      - apply list_lookup_singleton_Some in Hy as [Hi <-].
        replace i with (length pre) by lia. unfold mem. cbn. by rewrite upd_eq. }
    replace (Z.of_nat (length pre) + 1) with (Z.of_nat (length (pre ++ [x])))
      by (rewrite length_app; cbn; lia).
    replace (pre ++ x :: bs) with ((pre ++ [x]) ++ bs) by (by rewrite <- app_assoc).
    apply IH.
Qed.

Lemma store_block_triple b bs owned E :
  ext_closed t E -> b ∈ owned ->
  triple (K owned ∅ E) (store_block b 0 bs) (fun _ σ => K owned ∅ E σ /\ filled b bs σ).
Proof.
  intros HE Hb. eapply triple_pre; [by apply (store_block_from b [] bs)|].
  intros σ HK. split; [done|]. destruct HK as (Ho & _). split; [by apply Ho|]. done.
Qed.

(** ** The publisher's blocks *)

Record pub_ok (p : Publisher) (owned : gset Z) (lf : Z) : Prop := {
  po_region : pb_region p = r /\ pb_is_owner p = single;
  po_len : length (pb_block_cache p) = 8%nat /\ 0 <= pb_cache_len p <= 8;
  po_lf : lf = NO_BLOCK \/ lf ∈ owned;
  po_cache : forall c, c ∈ take (Z.to_nat (pb_cache_len p)) (pb_block_cache p) -> c ∈ owned /\ c <> lf;
  po_nodup : NoDup (take (Z.to_nat (pb_cache_len p)) (pb_block_cache p));
  po_blocks : forall c, c ∈ owned -> block_ok config c
}.

Definition pub_known (rem : Z -> list bytes) (p : Publisher) (σ : gstate) : Prop :=
  exists owned lf, pub_ok p owned lf /\ K owned ∅ (idle lf rem) σ.

(** One block more than the publisher's own bookkeeping. *)
Definition pub_extra (rem : Z -> list bytes) (p : Publisher) (b : Z) (σ : gstate) : Prop :=
  exists owned lf, (pub_ok p (owned ∖ {[b]}) lf /\ b ∈ owned /\ b <> lf) /\
    K owned ∅ (idle lf rem) σ.

Lemma pub_known_stable rem p : stable t (pub_known rem p).
Proof.
  intros σ σ' (owned & lf & Hp & HK) Hrel. exists owned, lf. split; [done|].
  by eapply (K_stable config); [apply pst_closed|..].
Qed.

Lemma pub_extra_stable rem p b : stable t (pub_extra rem p b).
Proof.
  intros σ σ' (owned & lf & Hp & HK) Hrel. exists owned, lf. split; [done|].
  by eapply (K_stable config); [apply pst_closed|..].
Qed.

(** ** Allocation *)

Definition alloc_known (rem : Z -> list bytes) (x : Publisher * result (option Z) Error)
    (σ : gstate) : Prop :=
  match x with
  | (p, Ok (Some b)) => pub_extra rem p b σ
  | (p, Ok None) => pub_known rem p σ
  | (_, Err _) => False
  end.

Lemma pub_ok_pop p owned lf n idx :
  pub_ok p owned lf -> pb_cache_len p = Z.of_nat (S n) -> pb_block_cache p !! n = Some idx ->
  pub_ok (with_cache p (pb_block_cache p) (Z.of_nat n)) (owned ∖ {[idx]}) lf /\
  idx ∈ owned /\ idx <> lf.
Proof.
  intros [Hreg [Hlen Hcl] Hlf Hcache Hnd Hbl] Hn Hidx. rewrite Hn, Nat2Z.id in *.
  rewrite (take_S_r _ _ _ Hidx) in *. apply NoDup_app in Hnd as (Hnd & Hdis & _).
  destruct (Hcache idx) as [Hin Hne]; [set_solver|]. split; [|done].
  split; cbn [with_cache pb_region pb_is_owner pb_block_cache pb_cache_len]; rewrite ?Nat2Z.id.
  - done.
  - split; [done|lia].
  - destruct Hlf as [->|]; [by left|right; set_solver].
  - intros c Hc. destruct (Hcache c) as [H1 H2]; [set_solver|].
    assert (c <> idx) by (intros ->; apply (Hdis idx Hc); set_solver). set_solver.
  - done.
  - set_solver.
Qed.

Lemma pop_cache_triple rem p :
  triple (pub_known rem p) (pop_cache p) (alloc_known rem).
Proof.
  apply triple_exists. intros owned. apply triple_exists. intros lf. apply triple_pure. intros Hok.
  unfold pop_cache. destruct (Z.ltb_spec 0 (pb_cache_len p)) as [Hpos|Hz].
  - destruct (po_len _ _ _ Hok) as [Hlen Hcl].
    set (n := Z.to_nat (pb_cache_len p - 1)).
    assert (Hn : pb_cache_len p = Z.of_nat (S n)) by (unfold n; lia).
    destruct (lookup_lt_is_Some_2 (pb_block_cache p) n) as [idx Hidx]; [lia|]. rewrite Hidx.
    apply triple_ret; [apply K_stable, pst_closed|]. intros σ HK _.
    replace (pb_cache_len p - 1) with (Z.of_nat n) by lia.
    exists owned, lf. split; [by apply pub_ok_pop | done].
  - apply triple_ret; [apply K_stable, pst_closed|]. intros σ HK _. by exists owned, lf.
Qed.

Lemma pub_ok_push p owned lf b :
  pub_ok p owned lf -> pb_cache_len p < 8 -> b ∉ owned -> block_ok config b ->
  pub_ok (with_cache p (<[Z.to_nat (pb_cache_len p) := b]> (pb_block_cache p)) (pb_cache_len p + 1))
    ({[b]} ∪ owned) lf.
Proof.
  intros [Hreg [Hlen Hcl] Hlf Hcache Hnd Hbl] Hlt Hb Hok.
  set (n := Z.to_nat (pb_cache_len p)) in *.
  assert (Htake : take (Z.to_nat (pb_cache_len p + 1)) (<[n := b]> (pb_block_cache p)) =
    take n (pb_block_cache p) ++ [b]).
  { replace (Z.to_nat (pb_cache_len p + 1)) with (S n) by (unfold n; lia).
    rewrite (take_S_r _ _ b) by (apply list_lookup_insert_eq; lia).
    by rewrite take_insert_ge by lia. }
  pose proof (block_ok_not_none _ _ Hcfg Hok).
  split; cbn [with_cache pb_region pb_is_owner pb_block_cache pb_cache_len]; rewrite ?Htake.
  - done.
  - rewrite length_insert. split; [done|lia].
  - destruct Hlf as [->|]; [by left|right; set_solver].
  - intros c [Hc| ->%list_elem_of_singleton]%elem_of_app.
    + destruct (Hcache c Hc). set_solver.
    + split; [set_solver|]. destruct Hlf as [->|Hlf]; [done|]. by intros ->.
  - apply NoDup_app. split; [done|]. split; [|apply NoDup_singleton].
    intros c Hc ->%list_elem_of_singleton. by destruct (Hcache b Hc).
  - set_solver.
Qed.

Lemma refill_cache_triple fuel n rem p :
  triple (pub_known rem p) (refill_cache fuel n p)
    (fun x σ => x.2 = Ok tt /\ pub_known rem x.1 σ).
Proof.
  revert p. induction n as [|n IH]; intros p; cbn [refill_cache];
    apply triple_exists; intros owned; apply triple_exists; intros lf; apply triple_pure; intros Hok;
    destruct (po_len _ _ _ Hok) as [Hlen Hcl]; rewrite Hlen;
    destruct (Z.leb_spec (Z.of_nat 8) (pb_cache_len p)).
  1,3: apply triple_ret; [apply K_stable, pst_closed|]; intros σ HK _; split; [done|by exists owned, lf].
  { by intros σ Hσ. }
  destruct (po_region _ _ _ Hok) as [Hreg _]. rewrite Hreg. eapply triple_bind.
  { eapply alloc_block_triple; try done. apply pst_closed. }
  intros [[b|]|e]; cbn [alloc_post].
  - apply triple_pure. intros [Hb Hbok]. eapply triple_pre; [apply IH|].
    intros σ HK. exists ({[b]} ∪ owned), lf. split; [|done]. by apply pub_ok_push.
  - apply triple_ret; [apply K_stable, pst_closed|]. intros σ HK _. split; [done|by exists owned, lf].
  - apply triple_false. by intros σ [].
Qed.

Lemma pub_ok_recycle p owned lf :
  pub_ok p owned lf -> lf ∈ owned -> lf <> NO_BLOCK ->
  pub_ok p (owned ∖ {[lf]}) NO_BLOCK /\ lf ∈ owned /\ lf <> NO_BLOCK.
Proof.
  intros [Hreg Hlen Hlf Hcache Hnd Hbl] Hin Hne. split; [|done]. split; try done.
  - by left.
  - intros c Hc. destruct (Hcache c Hc) as [H1 H2]. split; [set_solver|].
    eapply block_ok_not_none; [done|by apply Hbl].
  - set_solver.
Qed.

Lemma alloc_cached_triple fuel rem p :
  triple (pub_known rem p) (alloc_cached fuel p) (alloc_known rem).
Proof.
  apply triple_exists. intros owned. apply triple_exists. intros lf. apply triple_pure. intros Hok.
  destruct (po_region _ _ _ Hok) as [Hreg _].
  unfold alloc_cached, alloc_recycled. rewrite Hreg. cbn [bind swap].
  eapply (triple_rmw _ _ _ _ _ _ _ _ (fun v σ => v = lf /\ K owned ∅ (idle NO_BLOCK rem) σ)).
  { apply K_stable, pst_closed. }
  { intros σ HK Hi. eapply goes_weaken; [by eapply lf_goes|]. intros σ' HK'. split; [|done].
    destruct HK as (_ & _ & Hid). apply Hid. }
  intros v. apply triple_pure. intros ->.
  destruct (Z.eqb_spec lf NO_BLOCK) as [->|Hne]; cbn [negb].
  - assert (Hkn : triple (pub_known rem p)
      (if 0 <? pb_cache_len p then pop_cache p
       else let* (p1, res) := refill_cache fuel 9 p in
            match res with Ok _ => pop_cache p1 | Err e => Ret (p1, Err e) end) (alloc_known rem)).
    { destruct (0 <? pb_cache_len p); [apply pop_cache_triple|].
      eapply triple_bind; [apply refill_cache_triple|]. intros [p1 res]. apply triple_pure.
      cbn [fst snd]. intros ->. apply pop_cache_triple. }
    eapply triple_pre; [exact Hkn|]. intros σ HK. by exists owned, NO_BLOCK.
  - apply triple_ret; [apply K_stable, pst_closed|]. intros σ HK _. exists owned, NO_BLOCK.
    split; [|done]. apply pub_ok_recycle; [done| |done]. by destruct (po_lf _ _ _ Hok).
Qed.

(** ** Loans and publishing *)

Lemma pub_known_ext rem p p' :
  pb_region p' = pb_region p -> pb_is_owner p' = pb_is_owner p ->
  pb_block_cache p' = pb_block_cache p -> pb_cache_len p' = pb_cache_len p ->
  forall σ, pub_known rem p σ -> pub_known rem p' σ.
Proof.
  intros H1 H2 H3 H4 σ (owned & lf & [Hreg Hlen Hlf Hcache Hnd Hbl] & HK). exists owned, lf.
  split; [|done]. split; rewrite ?H1, ?H2, ?H3, ?H4; done.
Qed.

Lemma update_heartbeat_triple P : stable t P -> triple P update_heartbeat (fun _ => P).
Proof.
  intros Hs. unfold update_heartbeat, now_micros. cbn [bind system_now].
  apply triple_now; [done|]. intros [ns|]; cbn [bind]; [|by apply triple_ret].
  cbn [bind fetch_max]. apply triple_idle_rmw; [done|done|]. intros v. by apply triple_ret.
Qed.

Lemma loan_heartbeat_triple rem p :
  triple (pub_known rem p) (loan_heartbeat p) (fun p' => pub_known rem p').
Proof.
  unfold loan_heartbeat. set (p1 := with_loan_count p _).
  apply (triple_pre _ _ _ _ _ (pub_known rem p1)); [|by apply pub_known_ext].
  assert (Hret : triple (pub_known rem p1) (Ret p1) (fun p' => pub_known rem p')).
  { apply triple_ret; [apply pub_known_stable|done]. }
  destruct (_ =? 0); [|done]. cbn [bind instant_now].
  apply triple_instant; [apply pub_known_stable|]. intros now.
  destruct (_ <=? _); [|done].
  eapply triple_bind; [apply update_heartbeat_triple, pub_known_stable|].
  intros [u|e]; [|done]. cbn [bind instant_now].
  apply triple_instant; [apply pub_known_stable|]. intros now'.
  apply triple_ret; [apply pub_known_stable|]. intros σ Hk _. by eapply pub_known_ext; [..|exact Hk].
Qed.

Definition loan_known (rem : Z -> list bytes) (handle : Topic)
    (x : Publisher * result Loan Error) (σ : gstate) : Prop :=
  match x with
  | (p, Ok l) =>
      l = {| ln_region := r; ln_capacity := data_capacity r; ln_len := 0;
             ln_block_idx := ln_block_idx l; ln_topic_idx := tp_topic_idx handle;
             ln_single_publisher := single |} /\ pub_extra rem p (ln_block_idx l) σ
  | (p, Err _) => pub_known rem p σ
  end.

Definition preamble_known (rem : Z -> list bytes) (handle : Topic)
    (x : Publisher * result (Z * Z) Error) (σ : gstate) : Prop :=
  match x with
  | (p, Ok (b, ti)) => ti = tp_topic_idx handle /\ pub_extra rem p b σ
  | (p, Err _) => pub_known rem p σ
  end.

Lemma loan_preamble_triple fuel rem p handle :
  triple (pub_known rem p) (loan_preamble fuel p handle) (preamble_known rem handle).
Proof.
  unfold loan_preamble. destruct (negb _).
  { apply triple_ret; [apply pub_known_stable|done]. }
  eapply triple_bind; [apply loan_heartbeat_triple|]. intros p1.
  eapply triple_bind; [apply alloc_cached_triple|]. intros [p2 [[b|]|e]]; cbn [alloc_known].
  - apply triple_ret; [apply pub_extra_stable|done].
  - apply triple_ret; [apply pub_known_stable|done].
  - apply triple_false. by intros σ [].
Qed.

(** The handle of the publisher is the region of the proof. *)
Lemma pub_known_region {A} rem p (q : prog cell A) Q :
  (pb_region p = r -> pb_is_owner p = single -> triple (pub_known rem p) q Q) ->
  triple (pub_known rem p) q Q.
Proof.
  intros Hq. apply (triple_inv _ _ _ _ _ (fun σ => (pb_region p = r /\ pb_is_owner p = single) /\ pub_known rem p σ)).
  { apply pub_known_stable. }
  { intros σ Hk _. split; [|done]. destruct Hk as (owned & lf & Hok & _). apply Hok. }
  apply triple_pure. intros [??]. by apply Hq.
Qed.

Lemma loan_triple fuel rem p handle :
  triple (pub_known rem p) (loan fuel p handle) (loan_known rem handle).
Proof.
  apply pub_known_region. intros Hreg Hown. unfold loan. rewrite Hreg, Hown.
  eapply triple_bind; [apply loan_preamble_triple|]. intros [p1 [[b ti]|e]]; cbn [preamble_known].
  - apply triple_pure. intros ->. apply triple_ret; [apply pub_extra_stable|]. by intros σ Hk _.
  - apply triple_ret; [apply pub_known_stable|done].
Qed.

(** Giving the block back. *)
Lemma loan_drop_triple fuel rem p b l :
  ln_region l = r -> ln_block_idx l = b ->
  triple (pub_extra rem p b) (loan_drop fuel l) (fun _ => pub_known rem p).
Proof.
  intros Hreg Hb. apply triple_exists. intros owned. apply triple_exists. intros lf.
  apply triple_pure. intros (Hok & Hin & Hne). unfold loan_drop. rewrite Hreg, Hb.
  eapply triple_post; [eapply free_block_triple; try done; apply pst_closed|].
  intros [] σ HK. by exists (owned ∖ {[b]}), lf.
Qed.

Lemma pst_rem_weaken claimed opened lf rem rem' σ :
  (forall ti, rem' ti `sublist_of` rem ti) -> pst claimed opened lf rem σ ->
  pst claimed opened lf rem' σ.
Proof.
  intros Hrem [A1 A2 A3 A4 A5 A6]. split; try done. intros ti Hti Hpt.
  etransitivity; [|by apply A6]. by apply sublist_app.
Qed.

Lemma pub_known_weaken rem rem' p σ :
  (forall ti, rem' ti `sublist_of` rem ti) -> pub_known rem p σ -> pub_known rem' p σ.
Proof.
  intros Hrem (owned & lf & Hok & Ho & Hh & Hp). exists owned, lf. split; [done|].
  split; [done|]. split; [done|]. by eapply pst_rem_weaken.
Qed.

Lemma data_capacity_eq : data_capacity r = block_size config - BLOCK_DATA_OFFSET.
Proof.
  unfold data_capacity. rewrite Hr. unfold config_u32, in_u32, BLOCK_DATA_OFFSET in *.
  apply wrap64_small. lia.
Qed.

Section Publish.
Context (fuel : nat) (rem rem' : Z -> list bytes) (handle : Topic) (data : bytes).
Hypothesis (Hti : topic_ok config (tp_topic_idx handle)) (Hpt : pub_of (tp_topic_idx handle) = t).
Hypothesis (Hrem : rem (tp_topic_idx handle) = data :: rem' (tp_topic_idx handle)).
Hypothesis (Hrem' : forall ti, ti <> tp_topic_idx handle -> rem ti = rem' ti).

(** Nothing was sent. *)
Lemma unsent_triple p (res : result unit Error) :
  triple (pub_known rem p) (Ret (p, res)) (fun x => pub_known rem' x.1).
Proof.
  apply triple_ret; [apply pub_known_stable|]. intros σ Hk _. eapply pub_known_weaken; [|done].
  intros ti. destruct (decide (ti = tp_topic_idx handle)) as [->|Hne].
  - rewrite Hrem. by apply sublist_cons.
  - by rewrite Hrem'.
Qed.

(** Copying the message into the allocated block and committing it. *)
Lemma send_triple p b wake :
  blen data <= block_size config - BLOCK_DATA_OFFSET ->
  triple (pub_extra rem p b)
    (store_block b 0 data ;;; commit_to_ring r fuel b (blen data) (tp_topic_idx handle) wake single ;;;
     Ret (p, @Ok unit Error tt))
    (fun x => pub_known rem' x.1).
Proof.
  intros Hcap. apply triple_exists. intros owned. apply triple_exists. intros lf.
  apply triple_pure. intros (Hok & Hin & Hne).
  eapply triple_bind; [apply (store_block_triple b data owned (idle lf rem)); [apply pst_closed|done]|].
  intros []. eapply triple_bind; [apply (commit_to_ring_triple fuel _ owned lf rem rem'); try done|].
  { destruct (po_lf _ _ _ Hok); [by left|right; set_solver]. }
  intros []. apply triple_ret; [apply after_commit_stable|].
  intros σ (owned' & lf' & Hrc & HK) _. exists owned', lf'. split; [|done].
  destruct Hok as [Hreg Hln Hlf Hcache Hnd Hbl]. destruct Hrc as [Hrc Hrl]. split; try done.
  - intros c Hc. destruct (Hcache c Hc). by apply Hrc.
  - intros c Hc. destruct HK as (Ho & _). by apply Ho.
Qed.

Lemma data_len_u32 : blen data <= block_size config - BLOCK_DATA_OFFSET -> 0 <= blen data <= u32_max.
Proof. unfold config_u32, in_u32, BLOCK_DATA_OFFSET, u32_max, blen in *. lia. Qed.

Lemma publish_loaned_triple p f wake :
  payload_bytes f = data -> payload_ok f ->
  triple (pub_known rem p) (publish_loaned fuel p handle f wake) (fun x => pub_known rem' x.1).
Proof.
  intros Hf Hfok. unfold publish_loaned. eapply triple_bind; [apply loan_triple|].
  intros [p1 [l|e]]; cbn [loan_known]; [|apply unsent_triple].
  apply triple_pure. intros Hl.
  assert (Hc : ln_capacity l = block_size config - BLOCK_DATA_OFFSET).
  { rewrite Hl. apply data_capacity_eq. }
  rewrite fill_eq by (try done; unfold config_u32, in_u32, BLOCK_DATA_OFFSET in *; lia).
  rewrite Hf, Hc. destruct (Z.ltb_spec (block_size config - BLOCK_DATA_OFFSET) (blen data)) as [Hbig|Hfit].
  - rewrite bind_ret. eapply triple_bind; [apply (loan_drop_triple fuel rem p1 (ln_block_idx l) l); [by rewrite Hl|done]|].
    intros []. apply unsent_triple.
  - pose proof (data_len_u32 Hfit). rewrite store_block_bind, bind_ret. cbv match.
    unfold loan_publish, loan_publish_silent, loan_commit. rewrite Hl.
    cbn [ln_set_len ln_len ln_region ln_block_idx ln_topic_idx ln_single_publisher].
    replace (blen data <=? u32_max) with true by lia.
    rewrite wrap32_small by (unfold u32_max in *; lia).
    destruct wake; by apply send_triple.
Qed.

Lemma publish_typed_triple T p :
  blen data = size_of T -> size_of T <= block_size config - BLOCK_DATA_OFFSET ->
  triple (pub_known rem p) (publish_typed fuel T p handle data) (fun x => pub_known rem' x.1).
Proof.
  intros Hsz Hfit. rewrite <- Hsz in Hfit. pose proof (data_len_u32 Hfit).
  apply pub_known_region. intros Hreg Hown. unfold publish_typed, loan_typed. rewrite Hreg, Hown.
  eapply (triple_bind _ _ _ _ _ _ _ (fun x σ => match x with
    | (p1, Ok l) => l = mkTypedLoan r (tl_block_idx l) (tp_topic_idx handle) single T /\
        pub_extra rem p1 (tl_block_idx l) σ
    | (p1, Err _) => pub_known rem p1 σ
    end)).
  - eapply triple_bind; [apply loan_preamble_triple|]. intros [p1 [[b ti]|e]]; cbn [preamble_known].
    + apply triple_pure. intros ->. apply triple_ret; [apply pub_extra_stable|]. by intros σ Hk _.
    + apply triple_ret; [apply pub_known_stable|done].
  - intros [p1 [l|e]]; [|apply unsent_triple]. apply triple_pure. intros ->.
    unfold typed_send, typed_commit. cbn [tl_region tl_block_idx tl_topic_idx tl_single_publisher tl_type].
    rewrite <- Hsz, wrap32_small, store_block_bind by (unfold u32_max in *; lia). by apply send_triple.
Qed.

End Publish.

(** The whole client. *)
Definition cmd_mine (c : pub_cmd) : Prop :=
  match cmd_message c with Some (handle, _) => pub_of (tp_topic_idx handle) = t | None => True end.

Lemma requested_cons c handle data cmds ti :
  cmd_message c = Some (handle, data) ->
  requested (c :: cmds) ti =
    if decide (tp_topic_idx handle = ti) then data :: requested cmds ti else requested cmds ti.
Proof. intros Hc. unfold requested. cbn [omap list_omap]. rewrite Hc. by case_decide. Qed.

Lemma requested_none c cmds ti : cmd_message c = None -> requested (c :: cmds) ti = requested cmds ti.
Proof. intros Hc. unfold requested. cbn [omap list_omap]. by rewrite Hc. Qed.

Lemma publisher_client_triple fuel cmds p :
  Forall (cmd_ok config) cmds -> Forall cmd_mine cmds ->
  triple (pub_known (requested cmds) p) (publisher_client fuel cmds p) (fun _ _ => True).
Proof.
  intros Hok. revert p. induction Hok as [|c cmds Hc Hcmds IH]; intros p Hmine; cbn [publisher_client].
  { apply triple_ret; [apply pub_known_stable|done]. }
  apply Forall_cons in Hmine as [Hm Hmine]. specialize (fun p => IH p Hmine).
  assert (Hreq : forall handle data, cmd_message c = Some (handle, data) ->
    requested (c :: cmds) (tp_topic_idx handle) = data :: requested cmds (tp_topic_idx handle) /\
    forall ti, ti <> tp_topic_idx handle -> requested (c :: cmds) ti = requested cmds ti).
  { intros handle data Hmsg. split; [|intros ti Hne]; rewrite (requested_cons c handle data) by done.
    - by rewrite decide_True.
    - by rewrite decide_False. }
  destruct c as [handle data|handle f wake|T handle value|handle|]; cbn [cmd_mine cmd_message cmd_ok] in *.
  - destruct (Hreq handle data) as [Hr1 Hr2]; [done|]. rewrite publish_is_loaned.
    eapply triple_bind; [by eapply publish_loaned_triple|]. intros [p' res]. apply IH.
  - destruct (Hreq handle (payload_bytes f)) as [Hr1 Hr2]; [done|]. destruct Hc as [Hc1 Hc2].
    eapply triple_bind; [by eapply publish_loaned_triple|]. intros [p' res]. apply IH.
  - destruct (Hreq handle value) as [Hr1 Hr2]; [done|]. destruct Hc as (Hc1 & Hc2 & Hc3).
    eapply triple_bind; [by eapply publish_typed_triple|]. intros [p' res]. apply IH.
  - eapply triple_bind; [apply loan_triple|]. intros [p' [l|e]]; cbn [loan_known].
    + apply triple_pure. intros Hl. eapply triple_bind.
      { apply (loan_drop_triple fuel _ p' (ln_block_idx l) l); [by rewrite Hl|done]. }
      intros []. apply IH.
    + apply IH.
  - eapply (triple_bind _ _ _ _ _ _ _ (fun x => pub_known (requested cmds) x.1)); [|intros [p' res]; apply IH].
    unfold heartbeat. eapply triple_bind; [apply update_heartbeat_triple, pub_known_stable|].
    intros [u|e]; [|apply triple_ret; [apply pub_known_stable|done]].
    cbn [bind instant_now]. apply triple_instant; [apply pub_known_stable|]. intros now.
    apply triple_ret; [apply pub_known_stable|]. intros σ Hk _. by eapply pub_known_ext; [..|exact Hk].
Qed.

End PublisherProof.
