(* ===== verification/Delivery.v ===== *)
(** * Delivery: end-to-end guarantees of a region

    Any number of publishers, no two of which publish on one topic, and any number of
    subscribers run on a fresh region, one atomic access at a time, in any order. Subscribers see only messages that were
    published, whole, in order and without duplicates, and every sample keeps its
    contents until it is dropped; no thread panics; the pool and the reference
    counts stay consistent. *)

From S2P Require Import Prelude Errors Layout Atomics Rely ShmBytes Pool Ring Wait Subscription.
From S2P Require Import Loan Publisher Ghost Ownership SubscriberProof PublisherProof.

(** ** A fresh region *)

(** As [create] leaves it, with the publisher's handle [h]. *)
Record fresh_region (config : Config) (h : Z) (m : cellmem cell) : Prop := {
  fr_head : m GHPoolHead = pack 0 (head_idx (seqZ 0 (block_count config)));
  fr_linked : linked m (seqZ 0 (block_count config));
  fr_next : forall b, block_ok config b ->
    m (BKNext b) = NO_BLOCK \/ block_ok config (m (BKNext b));
  fr_count : forall b, block_ok config b -> m (BKRefcount b) = 0;
  fr_slot : forall ti s, topic_ok config ti -> 0 <= s < ring_depth config ->
    m (RESeq ti s) = 0 /\ m (REBlockIdx ti s) = NO_BLOCK;
  fr_topic : forall ti, topic_ok config ti -> m (TEWriteSeq ti) = 0;
  fr_lf : m (LastFreed h) = NO_BLOCK
}.

(** A publisher and a subscriber: handle, topic and what the client does. *)
Record pub_client : Type := mkPub { pc_pub : Publisher; pc_cmds : list pub_cmd }.
Record sub_client : Type := mkSub {
  sb_region : Region; sb_topic : Z; sb_type_size : Z; sb_cmds : list sub_cmd
}.

Definition pub_thread (fuel : nat) (c : pub_client) : prog cell (list (nat * bytes)) :=
  publisher_client fuel (pc_cmds c) (pc_pub c).

Definition sub_thread `{Os : OsPlatform} (fuel : nat) (c : sub_client) : prog cell (list (nat * bytes)) :=
  subscriber fuel (sb_cmds c)
    {| st_region := sb_region c; st_topic_idx := sb_topic c; st_last_seq := 0;
       st_type_size := sb_type_size c |}
    [] [].

(** The publishers come first. *)
Definition region_threads `{Os : OsPlatform} (fuel : nat) (pubs : list pub_client) (subs : list sub_client)
    : list (prog cell (list (nat * bytes))) :=
  map (pub_thread fuel) pubs ++ map (sub_thread fuel) subs.

Definition pub_handle (c : pub_client) : Z := rg_handle (pb_region (pc_pub c)).

(** What all clients ask to publish on a topic. *)
Definition all_requested (pubs : list pub_client) (ti : Z) : list bytes :=
  concat (map (fun c => requested (pc_cmds c) ti) pubs).

(** A subscriber of a topic of the region; if it receives typed values, the topic
    carries values of that type. *)
Definition sub_client_ok (config : Config) (sent : Z -> list bytes) (c : sub_client) : Prop :=
  same_layout (rg_config (sb_region c)) config /\ topic_ok config (sb_topic c) /\
  Forall (sub_cmd_ok (sent (sb_topic c))) (sb_cmds c).

(** What is assumed of the configuration, the publishers and the subscribers. The
    publishers are new, the owner or not; a topic has one publisher. *)
Record region_setup (config : Config) (size : Z) (pubs : list pub_client) (subs : list sub_client)
    (m : cellmem cell) : Prop := {
  rs_layout : layout_ok config size;
  rs_depth : is_power_of_two (ring_depth config) = true;
  rs_some : pubs <> [];
  rs_fresh : Forall (fun c => fresh_region config (pub_handle c) m) pubs;
  rs_pubs : Forall (fun c => exists r name is_owner id now,
    same_layout (rg_config r) config /\ pc_pub c = new_publisher r name is_owner id now) pubs;
  rs_handles : forall i j c d, pubs !! i = Some c -> pubs !! j = Some d ->
    pub_handle c = pub_handle d -> i = j;
  rs_topics : forall i j c d ti, pubs !! i = Some c -> pubs !! j = Some d ->
    requested (pc_cmds c) ti <> [] -> requested (pc_cmds d) ti <> [] -> i = j;
  rs_cmds : Forall (fun c => Forall (cmd_ok config) (pc_cmds c)) pubs;
  rs_length : Z.of_nat (length (concat (map pc_cmds pubs))) < 2 ^ 63;
  rs_subs : Forall (sub_client_ok config (all_requested pubs)) subs;
  rs_threads : Z.of_nat (length pubs + length subs) < 2 ^ 32 - 2
}.

(** A state reached from the start by any interleaving in which no thread exchanges
    the pool head after 2^32 other exchanges since it read it. *)
Definition region_reachable `{Os : OsPlatform} (fuel : nat) (pubs : list pub_client) (subs : list sub_client)
    (m : cellmem cell) (ps : list (prog cell (list (nat * bytes)))) (s : hstate cell) : Prop :=
  rtc (cstep pool_window) (region_threads fuel pubs subs, h_init m) (ps, s).

(** ** Which thread publishes what *)

Definition index {A} (P : A -> Prop) `{forall x, Decision (P x)} (l : list A) : nat :=
  default 0%nat (fst <$> list_find P l).

Lemma index_unique {A} (P : A -> Prop) `{forall x, Decision (P x)} l i x :
  l !! i = Some x -> P x -> (forall j y, l !! j = Some y -> P y -> j = i) -> index P l = i.
Proof.
  intros Hi Hx Hu. unfold index. destruct (list_find P l) as [[j y]|] eqn:E; cbn.
  - apply list_find_Some in E as (Hj & Hy & _). by eapply Hu.
  - apply list_find_None in E. rewrite Forall_lookup in E. by destruct (E i x Hi).
Qed.

Definition publishers_of (pubs : list pub_client) : Publishers := {|
  pub_of ti := index (fun c => requested (pc_cmds c) ti <> []) pubs;
  rec_of hd := index (fun c => pub_handle c = hd) pubs
|}.

(** ** The initial state is verified *)

Definition ghost_init (config : Config) : ghost :=
  mkGhost (seqZ 0 (block_count config)) (fun _ => RFree) (fun _ => []) (fun _ _ => 0) (fun _ _ => 0).

Lemma requested_length cmds ti : (length (requested cmds ti) <= length cmds)%nat.
Proof.
  unfold requested. induction cmds as [|c cmds IH]; cbn; [done|].
  destruct (cmd_message c) as [[handle data]|]; [case_decide; cbn|]; lia.
Qed.

Lemma all_requested_length pubs ti :
  (length (all_requested pubs ti) <= length (concat (map pc_cmds pubs)))%nat.
Proof.
  unfold all_requested. induction pubs as [|c pubs IH]; cbn; [done|]. rewrite !length_app.
  pose proof (requested_length (pc_cmds c) ti). lia.
Qed.

Lemma requested_all pubs i c ti :
  pubs !! i = Some c -> requested (pc_cmds c) ti `sublist_of` all_requested pubs ti.
Proof.
  unfold all_requested. revert i. induction pubs as [|d pubs IH]; intros [|i] Hc; cbn in *; simplify_eq.
  - by apply sublist_inserts_r.
  - apply sublist_inserts_l. by eapply IH.
Qed.

Lemma requested_in c handle data cmds :
  c ∈ cmds -> cmd_message c = Some (handle, data) -> requested cmds (tp_topic_idx handle) <> [].
Proof.
  intros Hin Hc He. assert (Hd : data ∈ requested cmds (tp_topic_idx handle)).
  { unfold requested. apply list_elem_of_omap. exists c. split; [done|].
    by rewrite Hc, decide_True. }
  rewrite He in Hd. by apply elem_of_nil in Hd.
Qed.

Lemma layout_ok_same c c' sz : same_layout c c' -> layout_ok c' sz -> layout_ok c sz.
Proof.
  destruct c, c'. unfold same_layout. cbn. intros (-> & -> & -> & ->) [L1 L2 L3]. by split.
Qed.

Section Delivery.
Context `{Os : OsPlatform, !OsLaws Os} (fuel : nat) (config : Config) (size : Z) (pubs : list pub_client)
  (subs : list sub_client) (m : cellmem cell).
Hypothesis (Hsu : region_setup config size pubs subs m).
#[local] Instance the_publishers : Publishers := publishers_of pubs.
Local Abbreviation n := (length pubs + length subs)%nat.
Local Abbreviation σ0 := (ghost_init config, h_init m).
Local Abbreviation inv := (Inv config n (all_requested pubs)).

Lemma fresh_some : exists hd, fresh_region config hd m.
Proof.
  destruct Hsu as [_ _ H3 H4 _ _ _ _ _ _ _]. destruct pubs as [|c l]; [done|].
  apply Forall_cons in H4 as [H4 _]. eauto.
Qed.

Lemma fresh_inv : inv σ0.
Proof.
  destruct fresh_some as (hd & [F1 F2 F3 F4 F5 F6 F7]). split.
  - split; cbn; try done.
    + apply NoDup_seqZ.
    + intros b Hb%elem_of_seqZ_0. done.
  - intros b Hb. by apply F3.
  - intros b Hb. by apply F4.
  - intros ti s Ht Hs. destruct (F5 ti s Ht Hs). split; cbn; try lia; auto.
  - intros ti Ht. unfold inv_topic, mem. cbn. rewrite F6 by done.
    split; [lia|]. split; [apply sublist_nil_l|done].
Qed.

Lemma sent_bound ti : Z.of_nat (length (all_requested pubs ti)) < 2 ^ 63.
Proof. pose proof (all_requested_length pubs ti). pose proof (rs_length _ _ _ _ _ Hsu). lia. Qed.

Lemma cmds_mine i c : pubs !! i = Some c -> Forall (cmd_mine i) (pc_cmds c).
Proof.
  intros Hc. apply Forall_forall. intros cmd Hin. unfold cmd_mine.
  destruct (cmd_message cmd) as [[handle data]|] eqn:Hm; [|done].
  apply (index_unique _ _ _ c Hc); [by eapply requested_in|].
  intros j d Hd Hreq. eapply (rs_topics _ _ _ _ _ Hsu); [done|done|done|by eapply requested_in].
Qed.

(** What each thread's result must satisfy. *)
Definition post (t : nat) (out : list (nat * bytes)) (σ : gstate) : Prop :=
  forall i c, t = (length pubs + i)%nat -> subs !! i = Some c -> delivered (sb_topic c) out σ.

Lemma publisher_start i c :
  pubs !! i = Some c ->
  wp pool_window inv RelyT GuarT i (pub_thread fuel c) (post i) σ0.
Proof.
  intros Hc. pose proof (lookup_lt_Some _ _ _ Hc) as Hlt.
  pose proof (rs_pubs _ _ _ _ _ Hsu) as Hp. rewrite Forall_lookup in Hp.
  destruct (Hp i c Hc) as (r & name & is_owner & id & now & Hreg & Hnew).
  pose proof (rs_fresh _ _ _ _ _ Hsu) as Hf. rewrite Forall_lookup in Hf.
  destruct (Hf i c Hc) as [F1 F2 F3 F4 F5 F6 F7]. unfold pub_handle in F7. rewrite Hnew in F7. cbn in F7.
  eapply wp_inv; [intros σ; by apply (Inv_layout _ _ _ _ _ Hreg)|].
  pose proof (layout_ok_same _ _ _ Hreg (rs_layout _ _ _ _ _ Hsu)) as [L1 L2 L3].
  assert (Hok : forall ti, topic_ok (rg_config r) ti -> topic_ok config ti).
  { destruct Hreg as (E1 & _). unfold topic_ok. by rewrite E1. }
  assert (Hdepth : ring_depth (rg_config r) = ring_depth config) by apply Hreg.
  unfold pub_thread. eapply wp_mono;
    [eapply (publisher_client_triple (rg_config r) n (all_requested pubs)) with (r := r) (single := is_owner); try done|].
  - rewrite Hdepth. apply Hsu.
  - apply Hsu.
  - apply sent_bound.
  - lia.
  - apply (index_unique _ _ _ c Hc); [unfold pub_handle; by rewrite Hnew|]. intros j d Hd Hh.
    eapply (rs_handles _ _ _ _ _ Hsu); [done|done|]. rewrite Hh. unfold pub_handle. by rewrite Hnew.
  - pose proof (rs_cmds _ _ _ _ _ Hsu) as Hcm. rewrite Forall_lookup in Hcm.
    eapply Forall_impl; [by apply (Hcm i c)|]. destruct Hreg as (E1 & _ & E3 & _). unfold cmd_ok, topic_ok. by rewrite E1, E3.
  - by apply cmds_mine.
  - rewrite Hnew. exists ∅, NO_BLOCK. split.
    + split; cbn; [done|lia|by left|set_solver|constructor|set_solver].
    + split; [set_solver|]. split; [by intros b v|]. split; cbn; try done.
      * intros ti Ht _ _. unfold mem. cbn. by rewrite F6 by auto.
      * intros ti s Ht _ Hs _. unfold mem. cbn. rewrite Hdepth in Hs. by destruct (F5 ti s) as [-> _]; auto.
      * intros ti _ _. by eapply requested_all.
  - intros out σ _ j c' -> _. lia.
Qed.

Lemma subscriber_start i c :
  subs !! i = Some c ->
  wp pool_window inv RelyT GuarT (length pubs + i) (sub_thread fuel c) (post (length pubs + i)) σ0.
Proof.
  intros Hc. pose proof (rs_subs _ _ _ _ _ Hsu) as Hall. rewrite Forall_lookup in Hall.
  destruct (Hall i c Hc) as (Hreg & Htop & Hcmds).
  eapply wp_inv; [intros σ; by apply (Inv_layout _ _ _ _ _ Hreg)|].
  pose proof (layout_ok_same _ _ _ Hreg (rs_layout _ _ _ _ _ Hsu)) as [L1 L2 L3].
  destruct Hreg as (E1 & E2 & E3 & E4).
  eapply wp_mono; [eapply (subscriber_triple (rg_config (sb_region c)) n (all_requested pubs)) with
    (r := sb_region c) (tp := sb_topic c) (vs := []) (held := ∅); try done|].
  - rewrite E4. apply Hsu.
  - apply Hsu.
  - apply sent_bound.
  - apply lookup_lt_Some in Hc. lia.
  - unfold topic_ok. by rewrite E1.
  - split; cbn; try done; try set_solver. constructor.
  - split; [set_solver|]. split; [by intros b v|]. intros v. set_solver.
  - intros out σ Hd j c' Hj Hc'. assert (j = i) as -> by lia. by simplify_eq.
Qed.

Lemma start_ok : pool_ok pool_window inv RelyT GuarT post (region_threads fuel pubs subs) σ0.
Proof.
  split; [apply fresh_inv|]. intros t q Hq. unfold region_threads in Hq.
  apply lookup_app_Some in Hq as [Hq|[Hge Hq]].
  - apply list_lookup_fmap_Some in Hq as (c & -> & Hc). by apply publisher_start.
  - rewrite length_map in *. apply list_lookup_fmap_Some in Hq as (c & -> & Hc).
    replace t with (length pubs + (t - length pubs))%nat by lia. by apply subscriber_start.
Qed.

Lemma reach ps s :
  region_reachable fuel pubs subs m ps s ->
  exists g, inv (g, s) /\
    (forall t out, ps !! t = Some (Ret out) -> post t out (g, s)) /\
    (forall t, ps !! t <> Some Panic).
Proof.
  intros Hr. eapply (wp_sound pool_window _ RelyT GuarT GuarT_RelyT post); [exact start_ok|exact Hr].
Qed.

(** What a subscriber's client has read when it returns. *)
Lemma reach_delivered ps s i c out :
  region_reachable fuel pubs subs m ps s -> subs !! i = Some c ->
  ps !! (length pubs + i)%nat = Some (Ret out) ->
  exists ms, ms `sublist_of` all_requested pubs (sb_topic c) /\
    forall k bs, (k, bs) ∈ out -> ms !! k = Some bs.
Proof.
  intros Hr Hc Hp. destruct (reach ps s Hr) as (g & Hi & Hq & _).
  destruct (Hq _ out Hp i c eq_refl Hc) as (ms & Hsub & Hout). exists ms. split; [|done].
  etransitivity; [exact Hsub|].
  pose proof (rs_subs _ _ _ _ _ Hsu) as Hall. rewrite Forall_lookup in Hall.
  destruct (Hall i c Hc) as (_ & Ht & _). by destruct (inv_t _ _ _ _ Hi (sb_topic c) Ht) as (_ & H & _).
Qed.

End Delivery.

(** ** One publisher *)

(** The region of a channel endpoint, whose owner is the only publisher. *)
Record setup (config : Config) (size : Z) (cmds : list pub_cmd) (p : Publisher)
    (subs : list sub_client) (m : cellmem cell) : Prop := {
  su_layout : layout_ok config size;
  su_depth : is_power_of_two (ring_depth config) = true;
  su_fresh : fresh_region config (rg_handle (pb_region p)) m;
  su_publisher : exists name id now r, rg_config r = config /\ p = new_publisher r name true id now;
  su_cmds : Forall (cmd_ok config) cmds;
  su_length : Z.of_nat (length cmds) < 2 ^ 63;
  su_subs : Forall (sub_client_ok config (requested cmds)) subs;
  su_threads : Z.of_nat (S (length subs)) < 2 ^ 32 - 2
}.

Lemma all_requested_single p cmds ti : all_requested [mkPub p cmds] ti = requested cmds ti.
Proof. unfold all_requested. cbn. by rewrite app_nil_r. Qed.

Lemma setup_region config size cmds p subs m :
  setup config size cmds p subs m -> region_setup config size [mkPub p cmds] subs m.
Proof.
  intros [S1 S2 S3 (name & id & now & r & Hr & Hp) S5 S6 S7 S8]. split; try done.
  - by constructor.
  - constructor; [|done]. exists r, name, true, id, now. split; [by rewrite Hr|done].
  - intros [|i] [|j] c d Hc Hd; by simplify_eq.
  - intros [|i] [|j] c d ti Hc Hd; by simplify_eq.
  - by constructor.
  - cbn. by rewrite app_nil_r.
  - eapply Forall_impl; [exact S7|]. intros c (H1 & H2 & H3). split; [done|]. split; [done|].
    by rewrite all_requested_single.
Qed.
