(* ===== verification/Startup.v ===== *)
(** * Startup: creating, opening and joining a region

    Sequential behaviour of [create], [open_and_validate_region], [register] and
    [subscribe]: what [create] writes is a fresh region that [connect] accepts with
    the same configuration; whatever header a hostile file holds, an accepted
    configuration lies inside the mapping; a registered topic can be found. *)

From S2P Require Import Prelude Errors Layout Atomics Rely ShmBytes Pool Ring Wait Subscription.
From S2P Require Import Loan Publisher Ghost Ownership SubscriberProof PublisherProof Delivery.

(** ** Validation *)

Lemma create_validate_ok name config size :
  config_u32 config -> create_validate name config = Ok size ->
  is_valid_segment_name name = true /\ layout_ok config size /\
  is_power_of_two (ring_depth config) = true /\ 0 < block_count config /\ 0 < max_topics config.
Proof.
  intros Hc. unfold create_validate, validate_name.
  destruct (is_valid_segment_name name); cbn [negb]; [|done].
  destruct (Z.ltb_spec (block_size config) (BLOCK_DATA_OFFSET + 1)); [done|].
  destruct (is_power_of_two (ring_depth config)); cbn [negb]; [|done].
  destruct (Z.eqb_spec (block_count config) 0); [done|].
  destruct (Z.eqb_spec (max_topics config) 0); [done|].
  destruct (region_size_checked config) as [sz|] eqn:Hs; [|done]. intros [= ->].
  unfold config_u32, in_u32 in Hc. repeat split; try done; lia.
Qed.

Lemma validate_config_ok len config :
  config_u32 config -> validate_config len config = Ok tt ->
  exists size, layout_ok config size /\ size <= len /\
    is_power_of_two (ring_depth config) = true /\ 0 < block_count config /\
    0 < max_topics config <= MAX_TOPICS_LIMIT.
Proof.
  intros Hc. unfold validate_config.
  destruct (Z.ltb_spec (block_size config) (BLOCK_DATA_OFFSET + 1)); [done|].
  destruct (is_power_of_two (ring_depth config)); cbn [negb orb]; [|done].
  destruct (Z.eqb_spec (ring_depth config) 0); [done|].
  destruct (Z.eqb_spec (block_count config) 0); [done|].
  destruct (Z.eqb_spec (max_topics config) 0); [done|].
  destruct (Z.ltb_spec MAX_TOPICS_LIMIT (max_topics config)); [done|].
  destruct (region_size_checked config) as [sz|] eqn:Hs; [|done].
  destruct (Z.ltb_spec len sz); [done|]. intros _. exists sz.
  unfold config_u32, in_u32 in Hc. repeat split; try done; lia.
Qed.

(** The converse, for the checks shared with [create]. *)
Lemma validate_config_created name config size len :
  config_u32 config -> create_validate name config = Ok size -> size <= len ->
  validate_config len config = if MAX_TOPICS_LIMIT <? max_topics config
    then Err (InvalidRegion (MaxTopicsLimit (max_topics config))) else Ok tt.
Proof.
  intros Hc Hv Hlen. destruct (create_validate_ok _ _ _ Hc Hv) as (_ & [L1 L2 L3] & H1 & H2 & H3).
  unfold validate_config. rewrite H1, L3. pose proof (is_power_of_two_pos _ H1).
  replace (block_size config <? BLOCK_DATA_OFFSET + 1) with false by lia. cbn [negb orb].
  replace (ring_depth config =? 0) with false by lia.
  replace (block_count config =? 0) with false by lia.
  replace (max_topics config =? 0) with false by lia.
  by replace (len <? size) with false by lia.
Qed.

Lemma validate_config_create name config size len :
  config_u32 config -> create_validate name config = Ok size -> size <= len ->
  max_topics config <= MAX_TOPICS_LIMIT -> validate_config len config = Ok tt.
Proof.
  intros Hc Hv Hlen Hmt. rewrite (validate_config_created name config size) by done.
  by replace (MAX_TOPICS_LIMIT <? max_topics config) with false by lia.
Qed.

(** ** What [create] writes *)

Local Abbreviation cworld := (world cell (cellmem cell)).

Definition header_written (config : Config) (pid : Z) (m : cellmem cell) : Prop :=
  m GHMagic = le_decode MAGIC /\ m GHVersion = VERSION /\
  m GHMaxTopics = max_topics config /\ m GHBlockCount = block_count config /\
  m GHBlockSize = block_size config /\ m GHRingDepth = ring_depth config /\ m GHPid = pid /\
  m GHStaleTimeoutUs = wrap64 (duration_as_micros (stale_timeout config)).

Definition header_cell (c : cell) : bool :=
  match c with
  | GHMagic | GHVersion | GHMaxTopics | GHBlockCount | GHBlockSize | GHRingDepth | GHPid
  | GHStaleTimeoutUs => true
  | _ => false
  end.

Lemma header_written_frame config pid m m' :
  (forall c, header_cell c = true -> m' c = m c) ->
  header_written config pid m -> header_written config pid m'.
Proof. intros Hf H. unfold header_written. by rewrite !Hf. Qed.

Lemma write_header_run config pid (w : cworld) :
  exists w', run (write_header config pid) w = (Done tt, w') /\
    header_written config pid (w_mem w') /\
    (forall c, header_cell c = false -> w_mem w' c = w_mem w c) /\
    w_now w' = w_now w /\ w_mono w' = w_mono w.
Proof.
  unfold write_header. run_simpl. eexists. split; [done|]. cbn [w_mem w_now w_mono set_mem].
  split; [|split; [|done]].
  - unfold header_written. repeat split; rewrite ?upd_ne by done; by rewrite upd_eq.
  - intros c Hc. rewrite !upd_ne; [done|..]; by intros <-.
Qed.

Definition ring_cell (c : cell) : bool :=
  match c with RESeq _ _ | REBlockIdx _ _ | REDataLen _ _ => true | _ => false end.

Definition slot_empty (m : cellmem cell) (t s : Z) : Prop :=
  m (RESeq t s) = 0 /\ m (REBlockIdx t s) = NO_BLOCK /\ m (REDataLen t s) = 0.

(** The ring cells of slot [(t, s)]. *)
Definition slot_cell (t s : Z) (c : cell) : Prop :=
  c = RESeq t s \/ c = REBlockIdx t s \/ c = REDataLen t s.

Lemma slot_empty_frame m m' t s :
  (forall c, slot_cell t s c -> m' c = m c) -> slot_empty m t s -> slot_empty m' t s.
Proof. unfold slot_empty, slot_cell. intros Hf (H1 & H2 & H3). rewrite !Hf by auto. done. Qed.

Lemma init_ring_entry_run t s (w : cworld) :
  exists w', run (init_ring_entry t s) w = (Done tt, w') /\ slot_empty (w_mem w') t s /\
    (forall c, ~ slot_cell t s c -> w_mem w' c = w_mem w c) /\
    w_now w' = w_now w /\ w_mono w' = w_mono w.
Proof.
  unfold init_ring_entry. run_simpl. eexists. split; [done|]. cbn [w_mem w_now w_mono set_mem].
  split; [|split; [|done]].
  - unfold slot_empty. repeat split; rewrite ?upd_ne by done; by rewrite upd_eq.
  - intros c Hc. unfold slot_cell in Hc. rewrite !upd_ne; [done|..]; naive_solver.
Qed.

Lemma init_ring_run t n (w : cworld) :
  exists w', run (for_each (seqZ 0 n) (fun s => init_ring_entry t s)) w = (Done tt, w') /\
    (forall s, 0 <= s < n -> slot_empty (w_mem w') t s) /\
    (forall c, (forall s, ~ slot_cell t s c) -> w_mem w' c = w_mem w c) /\
    w_now w' = w_now w /\ w_mono w' = w_mono w.
Proof.
  destruct (run_for_each (C := cell) (M := cellmem cell) (seqZ 0 n) (fun s => init_ring_entry t s)
    (fun pre w1 => (forall s, s ∈ pre -> slot_empty (w_mem w1) t s) /\
      (forall c, (forall s, ~ slot_cell t s c) -> w_mem w1 c = w_mem w c) /\
      w_now w1 = w_now w /\ w_mono w1 = w_mono w) w) as (w' & Hr & H1 & H2 & H3 & H4).
  - intros pre s post w0 _ (P1 & P2 & P3 & P4).
    destruct (init_ring_entry_run t s w0) as (w1 & Hr & Q1 & Q2 & Q3 & Q4).
    exists w1. split; [done|]. split; [|split; [|split; congruence]].
    + intros s' [Hs'| ->%list_elem_of_singleton]%elem_of_app; [|done].
      destruct (decide (s' = s)) as [->|Hne]; [done|].
      eapply slot_empty_frame; [|by apply P1]. intros c Hc. apply Q2.
      unfold slot_cell in *. naive_solver.
    + intros c Hc. rewrite Q2 by apply Hc. by apply P2.
  - cbn. split; [set_solver|done].
  - exists w'. split; [done|]. split; [|done]. intros s Hs. by apply H1, elem_of_seqZ_0.
Qed.

Lemma init_rings_run config (w : cworld) :
  exists w', run (init_rings config) w = (Done tt, w') /\
    (forall t s, topic_ok config t -> 0 <= s < ring_depth config -> slot_empty (w_mem w') t s) /\
    (forall c, ring_cell c = false -> w_mem w' c = w_mem w c) /\
    w_now w' = w_now w /\ w_mono w' = w_mono w.
Proof.
  unfold init_rings. set (body := fun t => for_each (seqZ 0 (ring_depth config)) (fun s => init_ring_entry t s)).
  destruct (run_for_each (C := cell) (M := cellmem cell) (seqZ 0 (max_topics config)) body
    (fun pre w1 => (forall t s, t ∈ pre -> 0 <= s < ring_depth config -> slot_empty (w_mem w1) t s) /\
      (forall c, ring_cell c = false -> w_mem w1 c = w_mem w c) /\
      w_now w1 = w_now w /\ w_mono w1 = w_mono w) w) as (w' & Hr & H1 & H2 & H3 & H4).
  - intros pre t post w0 _ (P1 & P2 & P3 & P4).
    destruct (init_ring_run t (ring_depth config) w0) as (w1 & Hr & Q1 & Q2 & Q3 & Q4).
    exists w1. split; [done|]. split; [|split; [|split; congruence]].
    + intros t' s [Ht'| ->%list_elem_of_singleton]%elem_of_app Hs; [|by apply Q1].
      destruct (decide (t' = t)) as [->|Hne]; [by apply Q1|].
      eapply slot_empty_frame; [|by apply P1]. intros c Hc. apply Q2. intros s'.
      unfold slot_cell in *. naive_solver.
    + intros c Hc. rewrite Q2; [by apply P2|]. intros s. unfold slot_cell. intros [-> | [-> | ->]]; done.
  - cbn. split; [set_solver|done].
  - exists w'. split; [done|]. split; [|done]. intros t s Ht Hs. apply H1; [|done].
    by apply elem_of_seqZ_0.
Qed.

Definition region_of (handle base : Z) (config : Config) : Region :=
  {| rg_base := base; rg_config := config; rg_pool_offset := block_pool_offset config;
     rg_handle := handle |}.

(** The state [create] leaves, from a zero-filled file. *)
Record created (handle pid : Z) (config : Config) (now : Z) (m : cellmem cell) : Prop := {
  cr_header : header_written config pid m;
  cr_fresh : fresh_region config handle m;
  cr_heartbeat : m GHHeartbeat = wrap64 (duration_as_micros now);
  cr_topics : forall t, topic_ok config t -> m (TEActive t) = TE_STATE_FREE
}.

Lemma pool_repr_next config m n :
  (forall b, block_ok config b -> b ∈ seqZ 0 n) -> n = block_count config ->
  linked m (seqZ 0 n) ->
  forall b, block_ok config b -> m (BKNext b) = NO_BLOCK \/ block_ok config (m (BKNext b)).
Proof.
  intros Hin -> Hl b Hb. specialize (Hin b Hb).
  assert (Hsub : forall x, x ∈ seqZ 0 (block_count config) -> block_ok config x)
    by (intros x Hx; by apply elem_of_seqZ_0).
  revert Hl Hin Hsub. generalize (seqZ 0 (block_count config)). intros l.
  induction l as [|x l IH]; intros Hl Hin Hsub; [set_solver|]. destruct Hl as [Hx Hl].
  apply elem_of_cons in Hin as [->|Hin]; [|apply IH; set_solver].
  rewrite Hx. destruct l as [|y l]; [by left|]. right. apply Hsub. set_solver.
Qed.

Lemma create_run handle base pid id name config size now (w : cworld) :
  config_u32 config -> create_validate name config = Ok size -> w_now w = Some now ->
  0 <= duration_as_micros now ->
  (forall c, in_shm config c = true -> w_mem w c = 0) ->
  exists w', run (create handle base pid id name config) w =
      (Done (Ok (new_publisher (region_of handle base config) name true id (w_mono w))), w') /\
    created handle pid config now (w_mem w') /\ w_now w' = w_now w /\ w_mono w' = w_mono w.
Proof.
  intros Hc Hv Hnow Hpos Hzero.
  destruct (create_validate_ok _ _ _ Hc Hv) as (_ & Hlay & Hpow & Hbc & Hmt).
  unfold create. rewrite Hv. rewrite run_bind.
  destruct (write_header_run config pid w) as (w1 & -> & Hh1 & Hf1 & Hn1 & Hm1).
  unfold from_raw. run_simpl. rewrite run_bind. fold (region_of handle base config).
  set (w2 := set_mem w1 (upd (w_mem w1) (LastFreed handle) NO_BLOCK)).
  destruct (init_free_list_spec (region_of handle base config) Hc w2 Hbc)
    as (w3 & -> & Hpool & Hrc & Hf3 & Hhd & Hw3). cbn [region_of rg_config] in *.
  assert (Hnow3 : w_now w3 = Some now) by (rewrite Hw3; cbn; congruence).
  assert (Hmono3 : w_mono w3 = w_mono w) by (rewrite Hw3; cbn; congruence).
  unfold update_heartbeat, now_micros. run_simpl. rewrite Hnow3. run_simpl. rewrite run_bind.
  set (w4 := set_mem w3 _).
  destruct (init_rings_run config w4) as (w5 & -> & Hslots & Hf5 & Hnow5 & Hmono5).
  run_simpl. rewrite Hmono5. change (w_mono w4) with (w_mono w3). rewrite Hmono3.
  exists w5. split; [done|]. split; [|rewrite Hnow5, Hmono5; cbn; split; congruence].
  (* cells nothing but the header write touched *)
  assert (Hkeep : forall c, ring_cell c = false -> c <> GHHeartbeat -> c <> GHPoolHead ->
    (forall b, c <> BKNext b /\ c <> BKRefcount b) -> (forall hd, c <> LastFreed hd) ->
    w_mem w5 c = w_mem w1 c).
  { intros c H1 H2 H3 H4 H5. rewrite Hf5 by done. unfold w4. cbn. rewrite upd_ne by congruence.
    rewrite Hf3 by (intros; auto). unfold w2. cbn. by rewrite upd_ne by congruence. }
  assert (Hpl : forall c, ring_cell c = false -> c <> GHHeartbeat -> w_mem w5 c = w_mem w3 c).
  { intros c H1 H2. rewrite Hf5 by done. unfold w4. cbn. by rewrite upd_ne by congruence. }
  split.
  - eapply header_written_frame; [|exact Hh1]. intros c Hcell. apply Hkeep; by destruct c.
  - destruct Hpool as [_ Hlk Hnd Hrg]. split.
    + rewrite Hpl by done. rewrite Hhd, seqZ_cons by lia. done.
    + eapply linked_ext; [|exact Hlk]. intros. by apply Hpl.
    + apply (pool_repr_next config _ (block_count config)); [|done|].
      * intros b Hb. by apply elem_of_seqZ_0.
      * eapply linked_ext; [|exact Hlk]. intros. by apply Hpl.
    + intros b Hb. rewrite Hpl by done. by apply Hrc.
    + intros t s Ht Hs. destruct (Hslots t s Ht Hs) as (A & B & _). done.
    + intros t Ht. rewrite Hkeep by done. rewrite Hf1 by done. apply Hzero.
      unfold topic_ok in Ht. cbn. zb_rewrite. done.
    + rewrite Hpl by done. rewrite Hf3 by done. unfold w2. cbn. by rewrite upd_eq.
  - rewrite Hf5 by done. unfold w4. cbn. rewrite upd_eq, Hf3 by done. unfold w2. cbn.
    rewrite upd_ne, Hf1, Hzero by done. pose proof (wrap64_range (duration_as_micros now)). lia.
  - intros t Ht. rewrite Hkeep by done. rewrite Hf1 by done. rewrite Hzero; [done|].
    unfold topic_ok in Ht. cbn. by zb_rewrite.
Qed.

(** The words a fresh region is made of, for the publisher with handle [h]. *)
Definition fresh_word (h : Z) (c : cell) : bool :=
  match c with
  | GHPoolHead | BKNext _ | BKRefcount _ | RESeq _ _ | REBlockIdx _ _ | TEWriteSeq _ => true
  | LastFreed x => x =? h
  | _ => false
  end.

Lemma fresh_region_frame config h m m' :
  (forall c, fresh_word h c = true -> m' c = m c) -> fresh_region config h m -> fresh_region config h m'.
Proof.
  intros Hf [F1 F2 F3 F4 F5 F6 F7]. split; intros; rewrite ?Hf by (cbn; done || apply Z.eqb_refl); auto.
  eapply linked_ext; [|exact F2]. intros. by apply Hf.
Qed.

(** A further handle leaves the region fresh for all. *)
Lemma fresh_region_join config h h' m :
  fresh_region config h m ->
  fresh_region config h (upd m (LastFreed h') NO_BLOCK) /\
  fresh_region config h' (upd m (LastFreed h') NO_BLOCK).
Proof.
  intros Hf. assert (Hlf : m (LastFreed h) = NO_BLOCK) by apply Hf.
  assert (H1 : fresh_region config h (upd m (LastFreed h') NO_BLOCK)).
  { destruct (decide (h' = h)) as [->|Hne]; (eapply fresh_region_frame; [|exact Hf]); intros c Hc; unfold upd;
      case_decide as Hd; try done; subst c; [done|cbn in Hc; lia]. }
  split; [done|]. destruct H1 as [F1 F2 F3 F4 F5 F6 F7]. split; try done. apply upd_eq.
Qed.

(** ** Opening *)

(** The configuration a process reads back from the header. *)
Definition header_config (config : Config) : Config := {|
  max_topics := max_topics config; block_count := block_count config;
  block_size := block_size config; ring_depth := ring_depth config;
  heartbeat_interval := heartbeat_interval config_default;
  stale_timeout := duration_from_micros (wrap64 (duration_as_micros (stale_timeout config)))
|}.

Lemma region_size_header config :
  region_size_checked (header_config config) = region_size_checked config.
Proof. reflexivity. Qed.

Lemma validate_config_header len config :
  validate_config len (header_config config) = validate_config len config.
Proof. reflexivity. Qed.

Lemma as_micros_from us : duration_as_micros (duration_from_micros us) = us.
Proof. unfold duration_as_micros, duration_from_micros. by rewrite Z.div_mul. Qed.

(** The publisher counts as alive: its last heartbeat, at [hb], is recent at [now]. *)
Definition alive (config : Config) (hb now : Z) : Prop :=
  saturating_sub (wrap64 (duration_as_micros now)) (wrap64 (duration_as_micros hb))
    <= wrap64 (duration_as_micros (stale_timeout config)).

Lemma read_header_config_run config pid (w : cworld) :
  header_written config pid (w_mem w) ->
  run read_header_config w = (Done (header_config config), w).
Proof.
  intros (H1 & H2 & H3 & H4 & H5 & H6 & H7 & H8). unfold read_header_config. run_simpl.
  by rewrite H3, H4, H5, H6, H8.
Qed.

Lemma open_region_run pid config hb now len handle' base' name size (w : cworld) :
  config_u32 config -> create_validate name config = Ok size -> size <= len ->
  max_topics config <= MAX_TOPICS_LIMIT ->
  header_written config pid (w_mem w) -> w_mem w GHHeartbeat = wrap64 (duration_as_micros hb) ->
  w_now w = Some now -> alive config hb now ->
  is_valid_segment_name name = true /\
  run (open_and_validate_region handle' base' len) w =
    (Done (Ok (region_of handle' base' (header_config config))),
     set_mem w (upd (w_mem w) (LastFreed handle') NO_BLOCK)).
Proof.
  intros Hc Hv Hlen Hmt Hh Hhb Hnow Hal.
  destruct (create_validate_ok _ _ _ Hc Hv) as (Hname & Hlay & _).
  pose proof (size_exact _ _ Hlay) as [Hsz _]. pose proof (config_nonneg _ _ Hlay).
  split; [done|]. unfold open_and_validate_region, HEADER_SIZE.
  replace (len <? 128) with false by nia. run_simpl.
  pose proof Hh as (H1 & H2 & _). rewrite H1, Z.eqb_refl. cbn [negb]. run_simpl.
  rewrite H2, Z.eqb_refl. cbn [negb]. rewrite run_bind.
  rewrite (read_header_config_run config pid w Hh).
  rewrite validate_config_header, (validate_config_create name config size) by done.
  unfold from_raw, check_heartbeat, now_micros. run_simpl. rewrite upd_ne by done.
  rewrite Hnow, Hhb. fold (region_of handle' base' (header_config config)).
  cbn [region_of rg_config stale_timeout header_config]. rewrite as_micros_from.
  unfold alive in Hal.
  rewrite (wrap64_small (wrap64 _)) by apply wrap64_range.
  by replace (wrap64 (duration_as_micros (stale_timeout config)) <?
    saturating_sub (wrap64 (duration_as_micros now)) (wrap64 (duration_as_micros hb))) with false by lia.
Qed.

(** More topics than a reader accepts: the checks that come before it pass, so this is
    the error every open of the region returns. *)
Lemma open_region_limit pid config len handle' base' name size (w : cworld) :
  config_u32 config -> create_validate name config = Ok size -> size <= len ->
  MAX_TOPICS_LIMIT < max_topics config -> header_written config pid (w_mem w) ->
  is_valid_segment_name name = true /\
  run (open_and_validate_region handle' base' len) w =
    (Done (Err (InvalidRegion (MaxTopicsLimit (max_topics config)))), w).
Proof.
  intros Hc Hv Hlen Hmt Hh.
  destruct (create_validate_ok _ _ _ Hc Hv) as (Hname & Hlay & _).
  pose proof (size_exact _ _ Hlay) as [Hsz _]. pose proof (config_nonneg _ _ Hlay).
  split; [done|]. unfold open_and_validate_region, HEADER_SIZE.
  replace (len <? 128) with false by nia. run_simpl.
  pose proof Hh as (H1 & H2 & _). rewrite H1, Z.eqb_refl. cbn [negb]. run_simpl.
  rewrite H2, Z.eqb_refl. cbn [negb]. rewrite run_bind, (read_header_config_run config pid w Hh).
  rewrite validate_config_header, (validate_config_created name config size) by done.
  by replace (MAX_TOPICS_LIMIT <? max_topics config) with true by lia.
Qed.

Section Joining.
Context (pid : Z) (config : Config) (hb now len handle base : Z) (name : bytes) (size : Z) (w : cworld).
Hypothesis (Hc : config_u32 config) (Hv : create_validate name config = Ok size) (Hlen : size <= len).
Hypothesis (Hmt : max_topics config <= MAX_TOPICS_LIMIT) (Hh : header_written config pid (w_mem w)).
Hypothesis (Hhb : w_mem w GHHeartbeat = wrap64 (duration_as_micros hb)).
Hypothesis (Hnow : w_now w = Some now) (Hal : alive config hb now).

Lemma connect_run :
  run (connect handle base len name) w =
    (Done (Ok (region_of handle base (header_config config))),
     set_mem w (upd (w_mem w) (LastFreed handle) NO_BLOCK)).
Proof.
  destruct (open_region_run pid config hb now len handle base name size w) as [Hn Hr]; try done.
  unfold connect, validate_name. by rewrite Hn.
Qed.

Lemma open_run id :
  run (open handle base len id name) w =
    (Done (Ok (new_publisher (region_of handle base (header_config config)) name false id (w_mono w))),
     set_mem w (upd (w_mem w) (LastFreed handle) NO_BLOCK)).
Proof.
  destruct (open_region_run pid config hb now len handle base name size w) as [Hn Hr]; try done.
  unfold open, validate_name. rewrite Hn. cbn [negb]. rewrite run_bind, Hr. by run_simpl.
Qed.

End Joining.

(** C23. Create/open round trip: on a zero-filled file, [create] with an accepted
    configuration succeeds and leaves a fresh region (every block free, every ring
    slot empty, every topic unregistered). With at most [MAX_TOPICS_LIMIT] topics, a later
    [connect] or [open], while the heartbeat is recent, succeeds and reads back the same
    configuration (the heartbeat interval is not stored, the stale timeout is kept in
    microseconds), and a publisher that opened the region finds it fresh, as the owner
    still does. [create] does not check that limit: with more topics it succeeds as well,
    and every later [connect] and [open] fails with the limit error. *)
Theorem create_connect handle base pid id name config size len now handle' base' (w : cworld) :
  config_u32 config -> create_validate name config = Ok size -> size <= len ->
  w_now w = Some now -> 0 <= duration_as_micros now ->
  (forall c, in_shm config c = true -> w_mem w c = 0) ->
  exists w1, run (create handle base pid id name config) w =
      (Done (Ok (new_publisher (region_of handle base config) name true id (w_mono w))), w1) /\
    fresh_region config handle (w_mem w1) /\
    (max_topics config <= MAX_TOPICS_LIMIT -> forall now' mono wakes, alive config now now' ->
      let wj := mkWorld (w_mem w1) (Some now') mono wakes in exists w2,
      run (connect handle' base' len name) wj =
        (Done (Ok (region_of handle' base' (header_config config))), w2) /\
      (forall id', run (open handle' base' len id' name) wj =
        (Done (Ok (new_publisher (region_of handle' base' (header_config config)) name false id' mono)), w2)) /\
      fresh_region config handle (w_mem w2) /\ fresh_region config handle' (w_mem w2)) /\
    (MAX_TOPICS_LIMIT < max_topics config -> forall now' mono wakes,
      let wj := mkWorld (w_mem w1) now' mono wakes in
      let limit := InvalidRegion (MaxTopicsLimit (max_topics config)) in
      run (connect handle' base' len name) wj = (Done (Err limit), wj) /\
      forall id', run (open handle' base' len id' name) wj = (Done (Err limit), wj)).
Proof.
  intros Hc Hv Hlen Hnow H0 Hz.
  destruct (create_run handle base pid id name config size now w Hc Hv Hnow H0 Hz)
    as (w1 & Hr & [C1 C2 C3 C4] & _). exists w1. split; [done|]. split; [done|]. split.
  - intros Hmt now' mono wakes Hal wj. eexists. split; [by eapply connect_run|].
    split; [intros id'; by eapply open_run|]. by apply fresh_region_join.
  - intros Hmt now' mono wakes wj limit. unfold connect, open, validate_name.
    destruct (open_region_limit pid config len handle' base' name size wj) as [-> Hrun]; try done.
    cbn [negb]. split; [done|]. intros id'. by rewrite run_bind, Hrun.
Qed.

(** A zero-filled file and a running clock. *)
Definition zero_world : cworld := mkWorld (fun _ => 0) (Some 1000000000) 5 [].

Definition config_topics (n : Z) : Config := {|
  max_topics := n; block_count := 1; block_size := 64; ring_depth := 1;
  heartbeat_interval := 0; stale_timeout := 1000000000 |}.

Lemma create_connect_witness :
  (exists w1, run (create 0 4096 77 42 [112; 98] config_small) zero_world =
      (Done (Ok (new_publisher (region_of 0 4096 config_small) [112; 98] true 42 5)), w1) /\
    fresh_region config_small 0 (w_mem w1) /\
    exists w2, run (open 1 8192 704 43 [112; 98]) (mkWorld (w_mem w1) (Some 1000000000) 6 []) =
      (Done (Ok (new_publisher (region_of 1 8192 (header_config config_small)) [112; 98] false 43 6)), w2) /\
      fresh_region config_small 1 (w_mem w2)) /\
  (exists size p w1, run (create 0 4096 77 42 [112; 98] (config_topics 1000000)) zero_world = (Done (Ok p), w1) /\
    run (connect 1 8192 size [112; 98]) w1 =
      (Done (Err (InvalidRegion (MaxTopicsLimit 1000000))), w1)).
Proof.
  split.
  - destruct (create_connect 0 4096 77 42 [112; 98] config_small 704 704 1000000000 1 8192
      zero_world) as (w1 & H1 & H2 & H3 & _); [vm_compute; intuition congruence | reflexivity | lia
      | reflexivity | vm_compute; congruence | reflexivity |].
    exists w1. split; [exact H1|]. split; [exact H2|].
    destruct (H3 ltac:(vm_compute; congruence) 1000000000 6 [] ltac:(vm_compute; congruence))
      as (w2 & _ & H4 & _ & H5). exists w2. split; [exact (H4 43)|exact H5].
  - destruct (create_validate [112; 98] (config_topics 1000000)) as [size|] eqn:Hv;
      [|vm_compute in Hv; congruence].
    destruct (create_connect 0 4096 77 42 [112; 98] (config_topics 1000000) size size 1000000000 1 8192
      zero_world) as (w1 & H1 & _ & _ & H3); [vm_compute; intuition congruence | exact Hv | lia
      | reflexivity | vm_compute; congruence | reflexivity |].
    destruct w1 as [m1 n1 mono1 wakes1]. eexists size, _, _. split; [exact H1|].
    exact (proj1 (H3 ltac:(vm_compute; congruence) n1 mono1 wakes1)).
Defined.

(** A hostile or damaged file cannot make a process use an unsound layout:
    whatever values the header words hold, and even if they change between the reads,
    a configuration that [open_and_validate_region] accepts has a layout that lies
    inside the mapping, with a power-of-two ring, at least one block and topic, and
    the pool offset the region uses is the layout's. *)
Lemma open_accepts_layout handle base len config0 :
  returns (cell_fits config0) (open_and_validate_region handle base len)
    (fun res => forall r, res = Ok r ->
       rg_pool_offset r = block_pool_offset (rg_config r) /\
       exists size, layout_ok (rg_config r) size /\ size <= len /\
         is_power_of_two (ring_depth (rg_config r)) = true /\
         0 < block_count (rg_config r) /\ 0 < max_topics (rg_config r) <= MAX_TOPICS_LIMIT).
Proof.
  unfold open_and_validate_region. destruct (_ <? _); [done|].
  cbn [bind load returns]. intros magic _. destruct (negb _); [done|]. cbn [returns].
  intros ver _. destruct (negb _); [done|]. unfold read_header_config. cbn [bind load returns].
  intros mt [Hmt _] bc [Hbc _] bs [Hb _] rd [Hrd _] us [Hus _].
  set (config := {| max_topics := mt |}).
  destruct (validate_config len config) as [[]|e] eqn:Hv; [|done].
  assert (Hc : config_u32 config) by (unfold config_u32, in_u32; cbn in *; lia).
  destruct (validate_config_ok len config Hc Hv) as (size & H).
  unfold from_raw, check_heartbeat, now_micros. cbn [bind load store system_now returns].
  intros hb _ t. destruct t as [ns|]; cbn [bind]; [|done].
  destruct (_ <? _); [done|]. intros r [= <-]. cbn. split; [done|]. by exists size.
Qed.
