(* ===== verification/Pinned.v ===== *)
(** * Pinned: pinned topics under every interleaving
    (src/src/platform/loan.rs, src/src/platform/subscription.rs, src/src/platform/shm.rs)

    A pinned topic has one block that the publisher overwrites in place. A word per
    topic counts the readers, or holds a sentinel while the publisher writes. The
    publisher (thread 0) loans, writes and publishes the block; the other threads
    receive, blocking or not, read and drop guards. The ghost state is the log of published messages
    and the set of threads that are counted as readers. *)

From S2P Require Import Prelude Errors Layout Atomics Rely ShmBytes Pool Ring Wait Subscription.
From S2P Require Import Waiting Loan Publisher Payload Ghost Startup.

(** ** Clients *)

Inductive pin_cmd : Type :=
| PinPublish (f : payload)
| PinCancel.

Inductive pin_out : Type :=
| PinSent (accepted : list bytes)
| PinGot (reads : list (nat * bytes)).

(** Writes a payload into a pinned loan. *)
Definition pinned_fill (l : PinnedLoan) (f : payload) : prog cell (PinnedLoan * result unit Error) :=
  match f with
  | Raw data => pinned_set_data l data
  | Structured T E header entries count => pinned_write_structured T E l header entries count
  end.

Lemma pinned_fill_eq l f : payload_ok f -> pinned_fill l f = pinned_set_data l (payload_bytes f).
Proof.
  destruct f as [data|T E header entries count]; [done|].
  intros (Hh & _ & Hc & He & Hlen). by apply pinned_write_structured_eq.
Qed.

(** Publishes, or takes a loan and drops it untouched. A refused loan is skipped. *)
Fixpoint pinned_client (fuel : nat) (cmds : list pin_cmd) (p : Publisher) (handle : Topic)
    (acc : list bytes) : prog cell pin_out :=
  match cmds with
  | [] => Ret (PinSent acc)
  | c :: cmds' =>
      let* (p1, res) := loan_pinned fuel p handle in
      match res with
      | Err _ => pinned_client fuel cmds' p1 handle acc
      | Ok l =>
          match c with
          | PinCancel => pinned_loan_drop l ;;; pinned_client fuel cmds' p1 handle acc
          | PinPublish f =>
              let* (l1, res1) := pinned_fill l f in
              match res1 with
              | Err _ => pinned_loan_drop l1 ;;; pinned_client fuel cmds' p1 handle acc
              | Ok _ => pinned_publish l1 ;;; pinned_client fuel cmds' p1 handle (acc ++ [payload_bytes f])
              end
          end
      end
  end.

Definition pin_requested (cmds : list pin_cmd) : list bytes :=
  omap (fun c => match c with PinPublish f => Some (payload_bytes f) | PinCancel => None end) cmds.

Definition pin_cmd_ok (c : pin_cmd) : Prop :=
  match c with PinPublish f => payload_ok f | PinCancel => True end.

(** Reads a guard [k] times; [i] is the number of the guard. *)
Fixpoint read_guard (k : nat) (g : PinnedGuard) (i : nat) (out : list (nat * bytes))
    : prog cell (list (nat * bytes)) :=
  match k with
  | O => Ret out
  | S k' => let* bs := pinned_guard_deref g in read_guard k' g i (out ++ [(i, bs)])
  end.

(** A reader's command: receive, without or with waiting, and read the guard [reads]
    times. *)
Inductive pin_read : Type :=
| PinTry (reads : nat)
| PinWait (strategy : WaitStrategy) (park_fuel : nat) (reads : nat).

Definition pin_reads (c : pin_read) : nat :=
  match c with PinTry k | PinWait _ _ k => k end.

Definition pin_receive `{Os : OsPlatform} (fuel : nat) (c : pin_read) (st : Stream)
    : prog cell (Stream * option PinnedGuard) :=
  match c with
  | PinTry _ => try_recv_pinned fuel st
  | PinWait strategy park_fuel _ =>
      let* (st', res) := recv_pinned_with fuel park_fuel strategy st in
      Ret (st', match res with Ok g => Some g | Err _ => None end)
  end.

(** Every guard received is read and then dropped. *)
Fixpoint pinned_reader `{Os : OsPlatform} (fuel : nat) (cmds : list pin_read) (st : Stream) (i : nat)
    (out : list (nat * bytes)) : prog cell pin_out :=
  match cmds with
  | [] => Ret (PinGot out)
  | c :: cmds' =>
      let* (st', o) := pin_receive fuel c st in
      match o with
      | None => pinned_reader fuel cmds' st' i out
      | Some g =>
          let* out' := read_guard (pin_reads c) g i out in
          pinned_guard_drop g ;;;
          pinned_reader fuel cmds' st' (S i) out'
      end
  end.

(** ** Invariant *)

Definition pin_state : Type := (list bytes * gset nat) * hstate cell.
Definition pmem (σ : pin_state) : cellmem cell := hs_mem σ.2.
Definition plog (σ : pin_state) : list bytes := σ.1.1.
Definition holders (σ : pin_state) : gset nat := σ.1.2.
Definition pin_window (_ : cell) : option Z := None.

(** The sequence word that announces the last message. *)
Definition pin_word (log : list bytes) : Z :=
  match last log with
  | None => 0
  | Some v => Z.of_nat (length log) * 2 ^ 32 + blen v
  end.

Section Pinned.
Context (tp b : Z) (nthreads : nat) (req : list bytes).
Hypothesis (Hthreads : Z.of_nat nthreads < PINNED_WRITER_ACTIVE).
Hypothesis (Hreq : Z.of_nat (length req) < 2 ^ 32).

Record PInv (σ : pin_state) : Prop := {
  pi_block : pmem σ (TEPinnedBlock tp) = b;
  pi_seq : pmem σ (TEPinnedSeq tp) = pin_word (plog σ);
  pi_sizes : Forall (fun v => blen v < 2 ^ 32) (plog σ);
  pi_req : plog σ `sublist_of` req;
  pi_threads : forall t, t ∈ holders σ -> (1 <= t < nthreads)%nat;
  pi_readers :
    (pmem σ (TEPinnedReaders tp) = PINNED_WRITER_ACTIVE /\ holders σ = ∅) \/
    (pmem σ (TEPinnedReaders tp) = Z.of_nat (size (holders σ)) /\
     forall v, last (plog σ) = Some v -> block_holds (pmem σ) b v)
}.

Definition writing (σ : pin_state) : Prop := pmem σ (TEPinnedReaders tp) = PINNED_WRITER_ACTIVE.

Record PRely (t : nat) (σ σ' : pin_state) : Prop := {
  pr_log : plog σ `prefix_of` plog σ';
  pr_in : t ∈ holders σ' <-> t ∈ holders σ;
  pr_hold : t ∈ holders σ -> plog σ' = plog σ;
  pr_pub : t = 0%nat -> plog σ' = plog σ /\ (writing σ' <-> writing σ) /\
    pmem σ' (TEWriteSeq tp) = pmem σ (TEWriteSeq tp) /\
    forall j, pmem σ' (BKData b j) = pmem σ (BKData b j)
}.

Definition PGuar (t : nat) (σ σ' : pin_state) : Prop := forall t', t' <> t -> PRely t' σ σ'.

#[export] Instance PRely_pre t : PreOrder (PRely t).
Proof.
  split.
  - intros σ. by split.
  - intros σ1 σ2 σ3 [A1 A2 A3 A4] [B1 B2 B3 B4]. split.
    + by etransitivity.
    + by rewrite B2.
    + intros H. rewrite B3 by (by apply A2). by apply A3.
    + intros Ht. destruct (A4 Ht) as (E1 & E2 & E3 & E4). destruct (B4 Ht) as (F1 & F2 & F3 & F4).
      split; [congruence|]. split; [tauto|]. split; [congruence|]. intros j. by rewrite F4.
Qed.

Lemma PGuar_PRely t t' σ σ' : t <> t' -> PGuar t σ σ' -> PRely t' σ σ'.
Proof. intros Hne Hg. by apply Hg. Qed.

Local Abbreviation tri := (hoare pin_window PInv PRely PGuar).
Local Abbreviation kept := (kept PRely).

Lemma ptri_bind {A B} t P (p : prog cell A) (f : A -> prog cell B) R Q :
  tri t P p R -> (forall a, tri t (R a) (f a) Q) -> tri t P (bind p f) Q.
Proof. apply hoare_bind. apply _. Qed.

(** Reading changes nothing. *)
Lemma see_moves t c σ (P : pin_state -> Prop) :
  P (σ.1, h_see t c σ.2) -> PInv σ -> moves PInv PGuar t σ (h_see t c σ.2) P.
Proof.
  intros HP Hi. exists σ.1. split; [by intros t' _; split|]. split; [|done].
  destruct Hi as [H1 H2 H3 H4 H5 H6]. by split.
Qed.

Lemma ptri_load {A} t c (k : Z -> prog cell A) (P : pin_state -> Prop) (P' : Z -> pin_state -> Prop) Q :
  kept t P -> (forall v, kept t (P' v)) -> (forall σ, P σ -> PInv σ -> P' (pmem σ c) σ) ->
  (forall v, tri t (P' v) (k v) Q) -> tri t P (ALoad c k) Q.
Proof.
  intros Hk Hk' HP Hc. eapply hoare_load; [done| |exact Hc]. intros σ Hσ Hi.
  apply see_moves; [|done]. eapply Hk'; [by apply HP|]. by split.
Qed.

Lemma ptri_load_any {A} t c (k : Z -> prog cell A) P Q :
  kept t P -> (forall v, tri t P (k v) Q) -> tri t P (ALoad c k) Q.
Proof. intros Hk Hc. by apply (ptri_load t c k P (fun _ => P)). Qed.

(** The memory after a store or an exchange. *)
Definition stored (σ : pin_state) (c : cell) (v : Z) (s' : hstate cell) : Prop :=
  hs_mem s' = upd (pmem σ) c v.

Lemma stored_set σ c v : stored σ c v (h_set c v σ.2).
Proof. done. Qed.
Lemma stored_cas σ c v : stored σ c v (h_cas c v σ.2).
Proof. done. Qed.

Lemma pmem_eq g σ c v s' : stored σ c v s' -> pmem (g, s') c = v.
Proof. unfold pmem, stored. cbn. intros ->. apply upd_eq. Qed.
Lemma pmem_ne g σ c v s' c' : stored σ c v s' -> c <> c' -> pmem (g, s') c' = pmem σ c'.
Proof. unfold pmem at 1, stored. cbn. intros -> Hne. by apply upd_ne. Qed.

Lemma block_holds_frame g σ c v s' bs :
  stored σ c v s' -> (forall j, c <> BKData b j) ->
  block_holds (pmem σ) b bs -> block_holds (pmem (g, s')) b bs.
Proof. intros Hs Hc Hb i x Hx. rewrite (pmem_ne _ _ _ _ _ _ Hs) by apply Hc. by apply Hb. Qed.

(** ** The publisher *)

(** Thread 0 changes the log and the words while it holds the sentinel. *)
Lemma publisher_guar σ log s' :
  holders σ = ∅ -> plog σ `prefix_of` log -> PGuar 0 σ ((log, ∅), s').
Proof.
  intros Hh Hl t' Ht. split; [done| | |done].
  - by rewrite Hh.
  - rewrite Hh. by intros ?%not_elem_of_empty.
Qed.

Lemma writing_empty σ : PInv σ -> writing σ -> holders σ = ∅.
Proof.
  intros Hi Hw. destruct (pi_readers _ Hi) as [[_ H]|[H _]]; [done|].
  assert (Hsz : (size (holders σ) <= nthreads)%nat).
  { transitivity (size (set_seq (C := gset nat) 0 nthreads)); [|by rewrite size_set_seq].
    apply subseteq_size. intros t Ht%(pi_threads _ Hi). apply elem_of_set_seq. lia. }
  unfold writing in Hw. lia.
Qed.

Lemma holders_size σ : PInv σ -> Z.of_nat (size (holders σ)) < Z.of_nat nthreads \/ holders σ = ∅.
Proof.
  intros Hi. destruct (decide (holders σ = ∅)) as [|Hne]; [by right|left].
  assert (Hsz : (size (holders σ) <= nthreads - 1)%nat).
  { transitivity (size (set_seq (C := gset nat) 1 (nthreads - 1))); [|by rewrite size_set_seq].
    apply subseteq_size. intros t Ht%(pi_threads _ Hi). apply elem_of_set_seq. lia. }
  apply set_choose_L in Hne as [t Ht]. pose proof (pi_threads _ Hi t Ht). lia.
Qed.

(** Between two loans. *)
Definition p_idle (acc : list bytes) (σ : pin_state) : Prop :=
  plog σ = acc /\ ~ writing σ /\ pmem σ (TEWriteSeq tp) = Z.of_nat (length acc).

(** Holding the sentinel, [k] bytes of [v] written, the sequence counter at [q]. *)
Definition p_busy (acc : list bytes) (v : bytes) (k : nat) (q : Z) (σ : pin_state) : Prop :=
  plog σ = acc /\ writing σ /\ pmem σ (TEWriteSeq tp) = q /\
  forall j x, (j < k)%nat -> v !! j = Some x -> pmem σ (BKData b (Z.of_nat j)) = x.

(** A loan that was not written to. *)
Definition p_claimed (acc : list bytes) (σ : pin_state) : Prop :=
  p_busy acc [] 0 (Z.of_nat (length acc)) σ /\ forall v, last acc = Some v -> block_holds (pmem σ) b v.

Lemma kept_idle acc : kept 0%nat (p_idle acc).
Proof.
  intros σ σ' (H1 & H2 & H3) Hr. destruct (pr_pub _ _ _ Hr eq_refl) as (E1 & E2 & E3 & E4).
  split; [congruence|]. split; [tauto|congruence].
Qed.

Lemma kept_busy acc v k q : kept 0%nat (p_busy acc v k q).
Proof.
  intros σ σ' (H1 & H2 & H3 & H4) Hr. destruct (pr_pub _ _ _ Hr eq_refl) as (E1 & E2 & E3 & E4).
  split; [congruence|]. split; [tauto|]. split; [congruence|]. intros j x Hj Hx. rewrite E4. by apply H4.
Qed.

Lemma kept_claimed acc : kept 0%nat (p_claimed acc).
Proof.
  intros σ σ' [H1 H2] Hr. split; [by eapply kept_busy|].
  destruct (pr_pub _ _ _ Hr eq_refl) as (_ & _ & _ & E4).
  intros v Hv i x Hx. rewrite E4. by apply (H2 v).
Qed.

(** The loan's exchange: no readers, so the set is empty. *)
Lemma claim_moves acc σ :
  p_idle acc σ -> PInv σ -> pmem σ (TEPinnedReaders tp) = 0 ->
  moves PInv PGuar 0 σ (h_cas (TEPinnedReaders tp) PINNED_WRITER_ACTIVE σ.2) (p_claimed acc).
Proof.
  intros (H1 & H2 & H3) Hi H0. pose proof (stored_cas σ (TEPinnedReaders tp) PINNED_WRITER_ACTIVE) as Hs.
  destruct (pi_readers _ Hi) as [[Hw _]|[Hsz Hb]]; [by destruct H2|].
  assert (Hh : holders σ = ∅) by (apply leibniz_equiv, size_empty_inv; lia).
  exists (acc, ∅). split; [apply publisher_guar; [done|by rewrite H1]|]. split.
  - destruct Hi as [I1 I2 I3 I4 I5 I6]. rewrite H1 in *. split; rewrite ?(pmem_ne _ _ _ _ _ _ Hs) by done; try done.
    left. by rewrite (pmem_eq _ _ _ _ _ Hs).
  - split.
    + split; [done|]. unfold writing. rewrite (pmem_eq _ _ _ _ _ Hs), (pmem_ne _ _ _ _ _ _ Hs) by done.
      split; [done|]. split; [done|]. intros j x Hj. lia.
    + intros v Hv. eapply block_holds_frame; [exact Hs|done|]. apply Hb. by rewrite H1.
Qed.

(** A store by the publisher that keeps the sentinel and the log. *)
Lemma busy_moves acc v k k' q q' c x σ :
  p_busy acc v k q σ -> PInv σ -> c <> TEPinnedBlock tp -> c <> TEPinnedSeq tp -> c <> TEPinnedReaders tp ->
  p_busy acc v k' q' ((acc, ∅), h_set c x σ.2) ->
  moves PInv PGuar 0 σ (h_set c x σ.2) (p_busy acc v k' q').
Proof.
  intros (H1 & H2 & H3 & H4) Hi C1 C2 C3 Hb. pose proof (stored_set σ c x) as Hs.
  pose proof (writing_empty σ Hi H2) as Hh. exists (acc, ∅).
  split; [apply publisher_guar; [done|by rewrite H1]|]. split; [|done].
  destruct Hi as [I1 I2 I3 I4 I5 I6]. rewrite H1 in *.
  split; rewrite ?(pmem_ne _ _ _ _ _ _ Hs) by done; try done. left. done.
Qed.

(** Announcing the message. *)
Lemma announce_moves acc v σ :
  p_busy acc v (length v) (Z.of_nat (length acc) + 1) σ -> PInv σ ->
  blen v < 2 ^ 32 -> acc ++ [v] `sublist_of` req ->
  moves PInv PGuar 0 σ (h_set (TEPinnedSeq tp) (pin_word (acc ++ [v])) σ.2) (p_claimed (acc ++ [v])).
Proof.
  intros (H1 & H2 & H3 & H4) Hi Hv Hsub. pose proof (stored_set σ (TEPinnedSeq tp) (pin_word (acc ++ [v]))) as Hs.
  pose proof (writing_empty σ Hi H2) as Hh. exists (acc ++ [v], ∅).
  split; [apply publisher_guar; [done|rewrite H1; by apply prefix_app_r]|]. split.
  - destruct Hi as [I1 I2 I3 I4 I5 I6]. rewrite H1 in *.
    split; rewrite ?(pmem_eq _ _ _ _ _ Hs), ?(pmem_ne _ _ _ _ _ _ Hs) by done; try done.
    + apply Forall_app. split; [done|]. by apply Forall_singleton.
    + by left.
  - split; [split; [done|]|].
    + unfold writing. rewrite !(pmem_ne _ _ _ _ _ _ Hs) by done. split; [done|]. rewrite length_app. cbn [length].
      split; [lia|]. intros j x Hj. lia.
    + intros v' Hv'. rewrite last_snoc in Hv'. injection Hv' as <-. intros i x Hx.
      rewrite (pmem_ne _ _ _ _ _ _ Hs) by done. apply H4; [|done]. by eapply lookup_lt_Some.
Qed.

(** Giving the block back to the readers. *)
Lemma release_moves acc σ :
  p_claimed acc σ -> PInv σ ->
  moves PInv PGuar 0 σ (h_set (TEPinnedReaders tp) 0 σ.2) (p_idle acc).
Proof.
  intros [(H1 & H2 & H3 & _) H4] Hi. pose proof (stored_set σ (TEPinnedReaders tp) 0) as Hs.
  pose proof (writing_empty σ Hi H2) as Hh. exists (acc, ∅).
  split; [apply publisher_guar; [done|by rewrite H1]|]. split.
  - destruct Hi as [I1 I2 I3 I4 I5 I6]. rewrite H1 in *. split; rewrite ?(pmem_ne _ _ _ _ _ _ Hs) by done; try done.
    right. rewrite (pmem_eq _ _ _ _ _ Hs). split; [done|]. intros v Hv.
    eapply block_holds_frame; [exact Hs|done|]. by apply H4.
  - split; [done|]. unfold writing. rewrite (pmem_eq _ _ _ _ _ Hs), (pmem_ne _ _ _ _ _ _ Hs) by done. done.
Qed.

Section Client.
Context (fuel : nat) (p : Publisher) (handle : Topic).
Hypothesis (Hid : tp_publisher_id handle = pb_id p) (Htp : tp_topic_idx handle = tp).
Hypothesis (Htp0 : 0 <= tp < Z.of_nat (length (pb_pinned_blocks p))).
Hypothesis (Hpin : pb_pinned_blocks p !! Z.to_nat tp = Some b) (Hb : b <> NO_BLOCK).
Hypothesis (Hcap : data_capacity (pb_region p) < 2 ^ 32).

Definition the_loan (len : Z) : PinnedLoan :=
  {| pl_region := pb_region p; pl_block_idx := b; pl_capacity := data_capacity (pb_region p);
     pl_len := len; pl_topic_idx := tp |}.

Lemma ptri_loan acc :
  tri 0%nat (p_idle acc) (loan_pinned fuel p handle)
    (fun x σ => x.1 = p /\
       match x.2 with Ok l => l = the_loan 0 /\ p_claimed acc σ | Err _ => p_idle acc σ end).
Proof.
  unfold loan_pinned, pinned_block_of. rewrite Hid, Z.eqb_refl, Htp, Hpin. cbn [negb].
  replace (_ <=? tp) with false by lia. replace (b =? NO_BLOCK) with false by lia.
  cbn [negb bind compare_exchange].
  apply (hoare_cas _ _ _ _ _ _ _ _ _ _ (p_idle acc) (p_claimed acc) (fun _ => p_idle acc)).
  - apply kept_idle.
  - intros σ Hσ Hi H0. by apply claim_moves.
  - intros σ Hσ Hi. by apply see_moves.
  - apply hoare_ret; [apply kept_claimed|]. by intros σ Hσ _.
  - intros v. apply hoare_ret; [apply kept_idle|]. by intros σ Hσ _.
Qed.

Lemma ptri_store_block {A} acc v k rest q (c : prog cell A) Q :
  v = take k v ++ rest -> (k <= length v)%nat ->
  tri 0%nat (p_busy acc v (length v) q) c Q ->
  tri 0%nat (p_busy acc v k q) (store_block b (Z.of_nat k) rest ;;; c) Q.
Proof.
  revert k. induction rest as [|x rest IH]; intros k Hv Hk Hc; cbn [store_block bind store].
  - rewrite app_nil_r in Hv. assert (k = length v) as ->; [|done].
    apply (f_equal length) in Hv. rewrite length_take in Hv. lia.
  - assert (Hx : v !! k = Some x).
    { rewrite Hv. rewrite lookup_app_r; rewrite length_take; [|lia].
      by replace (k - k `min` length v)%nat with 0%nat by lia. }
    eapply hoare_store; [apply kept_busy|intros σ Hσ Hi; eapply (busy_moves acc v k (S k) q q); try done|].
    + pose proof (stored_set σ (BKData b (Z.of_nat k)) x) as Hs. destruct Hσ as (H1 & H2 & H3 & H4).
      split; [done|]. unfold writing. rewrite !(pmem_ne _ _ _ _ _ _ Hs) by done.
      split; [done|]. split; [done|]. intros j y Hj Hy. destruct (decide (j = k)) as [->|Hne].
      * rewrite (pmem_eq _ _ _ _ _ Hs). congruence.
      * rewrite (pmem_ne _ _ _ _ _ _ Hs) by (intros [= He]; lia). apply H4; [lia|done].
    + replace (Z.of_nat k + 1) with (Z.of_nat (S k)) by lia. apply IH; [|by apply lookup_lt_Some in Hx|done].
      rewrite (take_S_r _ _ x), <- app_assoc by done. exact Hv.
Qed.

Lemma ptri_set_data acc v :
  tri 0%nat (p_claimed acc) (pinned_set_data (the_loan 0) v)
    (fun x σ => match x.2 with
       | Ok _ => (x.1 = the_loan (blen v) /\ blen v < 2 ^ 32) /\ p_busy acc v (length v) (Z.of_nat (length acc)) σ
       | Err _ => x.1 = the_loan 0 /\ p_claimed acc σ
       end).
Proof.
  unfold pinned_set_data. cbn [pl_capacity the_loan pl_block_idx].
  destruct (Z.ltb_spec (data_capacity (pb_region p)) (blen v)) as [Hlt|Hge].
  - apply hoare_ret; [apply kept_claimed|]. by intros σ Hσ _.
  - eapply hoare_pre; [apply (ptri_store_block acc v 0 v)|].
    + by rewrite take_0.
    + lia.
    + apply hoare_ret; [apply kept_busy|]. intros σ Hσ _. cbn. split; [|exact Hσ]. split; [done|lia].
    + intros σ [(H1 & H2 & H3 & _) _]. split; [done|]. split; [done|]. split; [done|]. intros j x Hj. lia.
Qed.

Lemma packed_word acc v :
  blen v < 2 ^ 32 -> acc ++ [v] `sublist_of` req ->
  Z.lor (wrap64 (Z.shiftl (Z.land (wrap64 (Z.of_nat (length acc) + 1)) 0xFFFFFFFF) 32)) (wrap32 (blen v)) =
    pin_word (acc ++ [v]).
Proof.
  intros Hv Hsub. apply sublist_length in Hsub. rewrite length_app in Hsub. cbn [length] in Hsub.
  unfold pin_word. rewrite last_snoc, length_app. cbn [length].
  assert (0 <= blen v) by (unfold blen; lia).
  rewrite (wrap64_small (_ + 1)), (wrap32_small (blen v)) by lia.
  change 0xFFFFFFFF with (Z.ones 32). rewrite Z.land_ones, Z.mod_small by lia.
  rewrite (wrap64_small (Z.shiftl _ _)) by (rewrite Z.shiftl_mul_pow2 by lia; lia).
  rewrite lor_shiftl_add by lia. lia.
Qed.

Lemma ptri_publish acc v :
  blen v < 2 ^ 32 -> acc ++ [v] `sublist_of` req ->
  tri 0%nat (p_busy acc v (length v) (Z.of_nat (length acc))) (pinned_publish (the_loan (blen v)))
    (fun _ => p_idle (acc ++ [v])).
Proof.
  intros Hv Hsub. unfold pinned_publish. cbn [the_loan pl_len pl_topic_idx].
  replace (blen v <=? u32_max) with true by (unfold u32_max; lia).
  unfold commit_pinned, smart_wake. cbn [bind fetch_add64 load store wake_all].
  eapply hoare_rmw with (P' := fun w σ => w = Z.of_nat (length acc) /\
    p_busy acc v (length v) (Z.of_nat (length acc) + 1) σ); [apply kept_busy| |].
  { intros σ Hσ Hi. pose proof Hσ as (H1 & H2 & H3 & H4). change (hs_mem σ.2) with (pmem σ). rewrite H3.
    apply sublist_length in Hsub. rewrite length_app in Hsub. cbn [length] in Hsub.
    rewrite wrap64_small by lia.
    destruct (busy_moves acc v (length v) (length v) _ (Z.of_nat (length acc) + 1) (TEWriteSeq tp)
      (Z.of_nat (length acc) + 1) σ Hσ Hi) as (g & A1 & A2 & A3); try done.
    - pose proof (stored_set σ (TEWriteSeq tp) (Z.of_nat (length acc) + 1)) as Hs.
      split; [done|]. unfold writing. rewrite (pmem_eq _ _ _ _ _ Hs), (pmem_ne _ _ _ _ _ _ Hs) by done.
      split; [done|]. split; [done|]. intros j x Hj Hx. rewrite (pmem_ne _ _ _ _ _ _ Hs) by done. by apply H4.
    - exists g. split; [done|]. split; [done|]. by split. }
  intros w. apply hoare_pure. intros ->. cbv zeta. rewrite packed_word by done.
  eapply hoare_store; [apply kept_busy|intros σ Hσ Hi; by apply announce_moves|].
  apply ptri_load_any; [apply kept_claimed|]. intros waiters.
  assert (Hend : tri 0%nat (p_claimed (acc ++ [v])) (AStore (TEPinnedReaders tp) 0 (Ret tt))
    (fun _ => p_idle (acc ++ [v]))).
  { eapply hoare_store; [apply kept_claimed|intros σ Hσ Hi; by apply release_moves|].
    apply hoare_ret; [apply kept_idle|done]. }
  destruct (0 <? waiters); cbn [bind]; [apply hoare_wake; [apply kept_claimed|]|]; exact Hend.
Qed.

Lemma ptri_drop_loan acc len :
  tri 0%nat (p_claimed acc) (pinned_loan_drop (the_loan len)) (fun _ => p_idle acc).
Proof.
  unfold pinned_loan_drop. eapply hoare_store; [apply kept_claimed|intros σ Hσ Hi; by apply release_moves|].
  apply hoare_ret; [apply kept_idle|done].
Qed.

Lemma ptri_client cmds acc dn :
  Forall pin_cmd_ok cmds -> req = dn ++ pin_requested cmds -> acc `sublist_of` dn ->
  tri 0%nat (p_idle acc) (pinned_client fuel cmds p handle acc) (fun out σ => out = PinSent (plog σ)).
Proof.
  intros Hok. revert acc dn. induction Hok as [|c cmds Hc _ IH]; intros acc dn Hr Hsub; cbn [pinned_client].
  { apply hoare_ret; [apply kept_idle|]. by intros σ (-> & _) _. }
  set (dn' := dn ++ pin_requested [c]).
  assert (Hr' : req = dn' ++ pin_requested cmds).
  { unfold dn'. rewrite <- app_assoc, Hr. f_equal. by destruct c. }
  assert (Hsub' : acc `sublist_of` dn') by (unfold dn'; etransitivity; [exact Hsub|by apply sublist_inserts_r]).
  eapply ptri_bind; [apply ptri_loan|]. intros [p1 [l|e]]; cbn [fst snd].
  2:{ apply hoare_pure. intros ->. by apply (IH _ dn'). }
  apply hoare_pure. intros ->. apply hoare_pure. intros ->. destruct c as [f|].
  2:{ eapply ptri_bind; [apply ptri_drop_loan|]. intros u. by apply (IH _ dn'). }
  rewrite pinned_fill_eq by done. set (v := payload_bytes f) in *.
  eapply ptri_bind; [apply ptri_set_data|]. intros [l1 [u|e]]; cbn [fst snd].
  2:{ apply hoare_pure. intros ->. eapply ptri_bind; [apply ptri_drop_loan|]. intros u. by apply (IH _ dn'). }
  apply hoare_pure. intros [-> Hv].
  assert (Hsv : acc ++ [v] `sublist_of` dn') by (by apply sublist_app).
  eapply ptri_bind; [apply ptri_publish; [done|]|intros w; by apply (IH _ dn')].
  rewrite Hr'. etransitivity; [exact Hsv|]. by apply sublist_inserts_r.
Qed.

End Client.

(** ** Readers *)

Section Reader.
Context (t : nat) (r : Region).
Hypothesis (Ht : (1 <= t < nthreads)%nat).

Definition outside (σ : pin_state) : Prop := t ∉ holders σ.

(** Thread [t] is counted as a reader of message number [q], which is [v]. *)
Definition holding (q : Z) (v : bytes) (σ : pin_state) : Prop :=
  t ∈ holders σ /\ Z.of_nat (length (plog σ)) = q /\ last (plog σ) = Some v.

Definition inside (σ : pin_state) : Prop := t ∈ holders σ.

Lemma kept_outside : kept t outside.
Proof. intros σ σ' H Hr. unfold outside. by rewrite (pr_in _ _ _ Hr). Qed.
Lemma kept_inside : kept t inside.
Proof. intros σ σ' H Hr. unfold inside. by rewrite (pr_in _ _ _ Hr). Qed.
Lemma kept_holding q v : kept t (holding q v).
Proof.
  intros σ σ' (H1 & H2 & H3) Hr. unfold holding. by rewrite (pr_in _ _ _ Hr), (pr_hold _ _ _ Hr H1).
Qed.

(** A reader changes only the count and its own membership. *)
Lemma reader_guar σ H' x s' :
  stored σ (TEPinnedReaders tp) x s' -> ~ writing σ -> x <> PINNED_WRITER_ACTIVE ->
  (forall t', t' <> t -> t' ∈ H' <-> t' ∈ holders σ) -> PGuar t σ ((plog σ, H'), s').
Proof.
  intros Hs Hw Hx HH t' Ht'. split; [done|by apply HH|done|]. intros _. unfold writing.
  rewrite (pmem_eq _ _ _ _ _ Hs), !(pmem_ne _ _ _ _ _ _ Hs) by done. split; [done|]. split; [tauto|].
  split; [done|]. intros j. by rewrite (pmem_ne _ _ _ _ _ _ Hs).
Qed.

Lemma reader_inv σ H' s' :
  PInv σ -> stored σ (TEPinnedReaders tp) (Z.of_nat (size H')) s' -> ~ writing σ ->
  (forall t', t' ∈ H' -> t' ∈ holders σ \/ t' = t) -> PInv ((plog σ, H'), s').
Proof.
  intros [I1 I2 I3 I4 I5 I6] Hs Hw HH.
  split; rewrite ?(pmem_eq _ _ _ _ _ Hs), ?(pmem_ne _ _ _ _ _ _ Hs) by done; try done.
  - intros t' Ht'. destruct (HH t' Ht') as [Hin| ->]; [by apply I5|done].
  - right. split; [done|]. intros v Hv. destruct I6 as [[I6 _]|[_ I6]]; [by destruct Hw|].
    eapply block_holds_frame; [exact Hs|done|]. by apply I6.
Qed.

Lemma enter_moves σ :
  outside σ -> PInv σ -> ~ writing σ ->
  moves PInv PGuar t σ (h_cas (TEPinnedReaders tp) (wrap32 (pmem σ (TEPinnedReaders tp) + 1)) σ.2) inside.
Proof.
  intros Ho Hi Hw. destruct (pi_readers _ Hi) as [[Hc _]|[Hc _]]; [by destruct Hw|].
  pose proof (holders_size σ Hi) as Hsz.
  assert (Hlt : Z.of_nat (size (holders σ)) + 1 < PINNED_WRITER_ACTIVE).
  { destruct Hsz as [Hsz|Hsz]; [lia|]. rewrite Hsz, size_empty. done. }
  rewrite Hc, wrap32_small by (unfold PINNED_WRITER_ACTIVE, u32_max in Hlt; lia).
  assert (Hn : Z.of_nat (size (holders σ)) + 1 = Z.of_nat (size ({[t]} ∪ holders σ))).
  { rewrite size_union, size_singleton by (apply disjoint_singleton_l; exact Ho). lia. }
  rewrite Hn in Hlt |- *. pose proof (stored_cas σ (TEPinnedReaders tp) (Z.of_nat (size ({[t]} ∪ holders σ)))) as Hs.
  exists (plog σ, {[t]} ∪ holders σ). split; [|split].
  - eapply reader_guar; [exact Hs|done|lia|]. intros t' Hne. set_solver.
  - apply (reader_inv σ _ _ Hi Hs Hw). set_solver.
  - unfold inside, holders. cbn. set_solver.
Qed.

Lemma leave_moves σ :
  inside σ -> PInv σ ->
  moves PInv PGuar t σ (h_set (TEPinnedReaders tp) (wrap32 (pmem σ (TEPinnedReaders tp) - 1)) σ.2) outside.
Proof.
  intros Hin Hi. assert (Hw : ~ writing σ).
  { intros Hw. apply (writing_empty σ Hi) in Hw. unfold inside in Hin. by rewrite Hw in Hin. }
  destruct (pi_readers _ Hi) as [[Hc _]|[Hc _]]; [by destruct Hw|].
  assert (Hn : Z.of_nat (size (holders σ)) - 1 = Z.of_nat (size (holders σ ∖ {[t]}))).
  { rewrite size_difference by set_solver. rewrite size_singleton.
    assert (size (holders σ) <> 0)%nat by (intros E%size_empty_inv; set_solver). lia. }
  destruct (holders_size σ Hi) as [Hsz|Hsz]; [|unfold inside in Hin; by rewrite Hsz in Hin].
  unfold PINNED_WRITER_ACTIVE, u32_max in Hthreads.
  rewrite Hc, Hn, wrap32_small by lia.
  pose proof (stored_set σ (TEPinnedReaders tp) (Z.of_nat (size (holders σ ∖ {[t]})))) as Hs.
  exists (plog σ, holders σ ∖ {[t]}). split; [|split].
  - eapply reader_guar; [exact Hs|done| |]; [unfold PINNED_WRITER_ACTIVE, u32_max; lia|]. intros t' Hne. set_solver.
  - apply (reader_inv σ _ _ Hi Hs Hw). set_solver.
  - unfold outside, holders. cbn. set_solver.
Qed.

Lemma ptri_enter fuel :
  tri t outside (enter_readers fuel (TEPinnedReaders tp))
    (fun e σ => if e : bool then inside σ else outside σ).
Proof.
  induction fuel as [|fuel IH]; cbn [enter_readers]; [apply hoare_diverge|]. cbn [bind load].
  apply ptri_load_any; [apply kept_outside|]. intros current.
  destruct (Z.eqb_spec current PINNED_WRITER_ACTIVE) as [|Hne].
  { apply hoare_ret; [apply kept_outside|done]. }
  cbn [bind compare_exchange_weak].
  apply (hoare_cas _ _ _ _ _ _ _ _ _ _ outside inside (fun _ => outside)).
  - apply kept_outside.
  - intros σ Hσ Hi Hc. change (hs_mem σ.2) with (pmem σ) in Hc. rewrite <- Hc. apply enter_moves; [done|done|].
    unfold writing. congruence.
  - intros σ Hσ Hi. by apply see_moves.
  - apply hoare_ret; [apply kept_inside|done].
  - intros v. exact IH.
Qed.

Lemma ptri_leave (P : pin_state -> Prop) :
  (forall σ, P σ -> inside σ) -> kept t P ->
  tri t P (fetch_sub32 (TEPinnedReaders tp) 1) (fun _ => outside).
Proof.
  intros HP Hk. eapply hoare_rmw with (P' := fun _ => outside); [done| |].
  - intros σ Hσ Hi. apply leave_moves; [by apply HP|done].
  - intros v. apply hoare_ret; [apply kept_outside|done].
Qed.

(** What the sequence word tells a counted reader. *)
Lemma word_decode log :
  Forall (fun v => blen v < 2 ^ 32) log -> Z.of_nat (length log) < 2 ^ 32 -> pin_word log <> 0 ->
  exists v, last log = Some v /\ Z.shiftr (pin_word log) 32 = Z.of_nat (length log) /\
    wrap32 (pin_word log) = blen v.
Proof.
  intros Hs Hl. unfold pin_word. destruct (last log) as [v|] eqn:Hv; [|done]. intros _.
  assert (Hb : 0 <= blen v < 2 ^ 32).
  { apply last_Some in Hv as [l' ->]. apply Forall_app in Hs as [_ Hs%Forall_inv].
    split; [unfold blen; lia|exact Hs]. }
  exists v. split; [done|]. rewrite Z.shiftr_div_pow2 by lia. unfold wrap32. split.
  - rewrite Z.add_comm, Z.div_add by lia. rewrite Z.div_small by lia. lia.
  - rewrite Z.add_comm, Z.mod_add by lia. by apply Z.mod_small.
Qed.

Lemma plog_bound σ : PInv σ -> Z.of_nat (length (plog σ)) < 2 ^ 32.
Proof. intros Hi. pose proof (sublist_length _ _ (pi_req _ Hi)). lia. Qed.

Definition recv_ok (st : Stream) (x : Stream * option PinnedGuard) (σ : pin_state) : Prop :=
  match x.2 with
  | None => x.1 = st /\ outside σ
  | Some g => exists q v, (x.1 = set_last_seq st q /\ g = mkPinnedGuard r tp b (blen v) /\ st_last_seq st < q) /\
      holding q v σ
  end.

Lemma ptri_try_recv fuel st :
  st_region st = r -> st_topic_idx st = tp ->
  tri t outside (try_recv_pinned fuel st) (recv_ok st).
Proof.
  intros Hr Htp. unfold try_recv_pinned, pinned_block. rewrite Hr, Htp. cbn [bind load].
  assert (Hnone : tri t outside (Ret (st, None)) (recv_ok st))
    by (apply hoare_ret; [apply kept_outside|done]).
  apply ptri_load_any; [apply kept_outside|]. intros packed.
  destruct (Z.eqb_spec packed 0) as [|H0]; [exact Hnone|]. cbv zeta.
  destruct (Z.leb_spec (Z.shiftr packed 32) (st_last_seq st)) as [|Hlast]; [exact Hnone|]. cbn [bind].
  apply (ptri_load _ _ _ _ (fun bi σ => bi = b /\ outside σ)); [apply kept_outside| | |].
  { intros bi σ σ' [H1 H2] Hrel. split; [done|]. by eapply kept_outside. }
  { intros σ Hσ Hi. split; [apply (pi_block _ Hi)|done]. }
  intros bi. apply hoare_pure. intros ->.
  destruct (_ =? NO_BLOCK); [exact Hnone|]. destruct (_ <=? b); [exact Hnone|].
  eapply ptri_bind; [apply ptri_enter|]. intros [|]; cbn [negb]; [|exact Hnone]. cbn [bind load].
  apply (ptri_load _ _ _ _ (fun packed2 σ => inside σ /\ (packed2 = packed -> exists q v,
    (Z.shiftr packed 32 = q /\ wrap32 packed = blen v) /\ holding q v σ))); [apply kept_inside| | |].
  { intros p2 σ σ' [H1 H2] Hrel. split; [by eapply kept_inside|]. intros E. destruct (H2 E) as (q & v & H3 & H4).
    exists q, v. split; [done|]. by eapply kept_holding. }
  { intros σ Hσ Hi. split; [done|]. intros E. rewrite (pi_seq _ Hi) in E.
    destruct (word_decode (plog σ) (pi_sizes _ Hi) (plog_bound _ Hi)) as (v & Hv & Hq & Hl); [by rewrite E|].
    exists (Z.of_nat (length (plog σ))), v. rewrite <- E. done. }
  intros packed2. destruct (Z.eqb_spec packed2 packed) as [->|Hne]; cbn [negb].
  - intros σ [_ Hσ]. destruct (Hσ eq_refl) as (q & v & [E1 E2] & Hh). rewrite E2. revert σ Hh Hσ.
    assert (Hret : tri t (holding q v) (Ret (set_last_seq st (Z.shiftr packed 32),
      Some (mkPinnedGuard r tp b (blen v)))) (recv_ok st)).
    { apply hoare_ret; [apply kept_holding|]. intros σ' Hσ' _. exists q, v. split; [|done]. rewrite E1.
      split; [done|]. split; [done|]. lia. }
    intros σ Hh _. by apply Hret.
  - eapply ptri_bind; [apply ptri_leave; [by intros σ [H _]|]|intros u; exact Hnone].
    intros σ σ' [H1 H2] Hrel. split; [by eapply kept_inside|]. intros E. by destruct Hne.
Qed.

(** Waiting does not disturb a reader that holds no guard. *)
Lemma outside_undisturbed : undisturbed PInv PRely PGuar t outside.
Proof.
  split; [apply kept_outside| |].
  - intros c σ _ Hσ Hi. by apply see_moves.
  - intros ti v σ Hσ []. exists σ.1. split; [by intros t' _; split|]. by split.
Qed.

Lemma kept_recv_ok st x : kept t (recv_ok st x).
Proof.
  destruct x as [st' [g|]]; intros σ σ' H Hr; unfold recv_ok in *; cbn in *.
  - destruct H as (q & v & H1 & H2). exists q, v. split; [done|]. by eapply kept_holding.
  - destruct H as [H1 H2]. split; [done|]. by eapply kept_outside.
Qed.

Lemma ptri_receive `{Os : OsPlatform, !OsLaws Os} fuel c st :
  st_region st = r -> st_topic_idx st = tp -> tri t outside (pin_receive fuel c st) (recv_ok st).
Proof.
  intros Hr Htp. destruct c as [k|strategy pf k]; cbn [pin_receive]; [by apply ptri_try_recv|].
  eapply ptri_bind.
  - apply (tri_blocking_recv pin_window PInv PRely PGuar t (try_recv_pinned fuel) outside
      (fun res => recv_ok st (res.1, match res.2 with Ok g => Some g | Err _ => None end)) st).
    + apply outside_undisturbed.
    + intros st1 g. apply kept_recv_ok.
    + done.
    + eapply hoare_post; [by apply ptri_try_recv|]. by intros [st1 [g|]] σ H.
  - intros [st' res]. apply hoare_ret; [apply kept_recv_ok|done].
Qed.

(** Reading a guard's bytes. *)
Lemma ptri_load_block q v n k :
  (k + n <= length v)%nat ->
  tri t (holding q v) (load_block b (Z.of_nat k) n)
    (fun bs σ => bs = take n (drop k v) /\ holding q v σ).
Proof.
  revert k. induction n as [|n IH]; intros k Hk; cbn [load_block].
  { apply hoare_ret; [apply kept_holding|done]. }
  destruct (lookup_lt_is_Some_2 v k) as [x Hx]; [lia|]. cbn [bind load].
  apply (ptri_load _ _ _ _ (fun w σ => w = x /\ holding q v σ)); [apply kept_holding| | |].
  { intros w σ σ' [H1 H2] Hrel. split; [done|]. by eapply kept_holding. }
  { intros σ (H1 & H2 & H3) Hi. split; [|done].
    destruct (pi_readers _ Hi) as [[_ Hh]|[_ Hb]]; [by rewrite Hh in H1|]. by apply (Hb v H3 k x). }
  intros w. apply hoare_pure. intros ->. replace (Z.of_nat k + 1) with (Z.of_nat (S k)) by lia.
  eapply ptri_bind; [apply (IH (S k)); lia|]. intros rest. apply hoare_pure. intros ->.
  apply hoare_ret; [apply kept_holding|]. intros σ Hσ _. split; [|done]. by rewrite (drop_S v x k Hx).
Qed.

Lemma ptri_deref q v :
  tri t (holding q v) (pinned_guard_deref (mkPinnedGuard r tp b (blen v)))
    (fun bs σ => bs = v /\ holding q v σ).
Proof.
  unfold pinned_guard_deref. cbn [pg_block_idx pg_len]. unfold blen. rewrite Nat2Z.id.
  eapply hoare_post; [apply (ptri_load_block q v (length v) 0); lia|].
  intros bs σ [-> H]. split; [|done]. by rewrite drop_0, firstn_all.
Qed.

Lemma ptri_read_guard q v k i out :
  tri t (holding q v) (read_guard k (mkPinnedGuard r tp b (blen v)) i out)
    (fun out' σ => out' = out ++ replicate k (i, v) /\ holding q v σ).
Proof.
  revert out. induction k as [|k IH]; intros out; cbn [read_guard].
  { apply hoare_ret; [apply kept_holding|]. intros σ Hσ _. by rewrite app_nil_r. }
  eapply ptri_bind; [apply ptri_deref|]. intros bs. apply hoare_pure. intros ->.
  eapply hoare_post; [apply IH|]. intros o σ [-> H]. split; [|done]. by rewrite <- app_assoc.
Qed.

(** What a reader that has seen [last] reports: its guards were messages of the log,
    in order, and each read of a guard gave its message. *)
Definition seen_in (vs : list (Z * bytes)) (log : list bytes) : Prop :=
  Forall (fun x => 1 <= x.1 /\ log !! Z.to_nat (x.1 - 1) = Some x.2) vs.

Definition reader_log (last : Z) (vs : list (Z * bytes)) (out : list (nat * bytes)) : Prop :=
  StronglySorted (fun x y => x.1 < y.1) vs /\ Forall (fun x => x.1 <= last) vs /\
  forall i bs, (i, bs) ∈ out -> exists q, vs !! i = Some (q, bs).

Lemma kept_seen_in vs t' : kept t' (fun σ => seen_in vs (plog σ)).
Proof.
  intros σ σ' H Hr. eapply Forall_impl; [exact H|]. intros x [H1 H2]. split; [done|].
  eapply prefix_lookup_Some; [exact H2|]. apply (pr_log _ _ _ Hr).
Qed.

Lemma reader_log_snoc last vs out q v k :
  reader_log last vs out -> last < q ->
  reader_log q (vs ++ [(q, v)]) (out ++ replicate k (length vs, v)).
Proof.
  intros (H1 & H2 & H3) Hq. split; [|split].
  - apply StronglySorted_snoc; [done|]. intros x Hx.
    rewrite Forall_forall in H2. specialize (H2 x Hx). cbn. lia.
  - apply Forall_app. split; [eapply Forall_impl; [exact H2|]; cbn; intros x Hx; lia|]. repeat constructor. done.
  - intros i bs [Hin|Hin]%elem_of_app; [|apply elem_of_replicate_inv in Hin as [= -> ->]].
    + destruct (H3 i bs Hin) as [q' Hq']. exists q'. by apply lookup_app_l_Some.
    + exists q. rewrite lookup_app_r by lia. by rewrite Nat.sub_diag.
Qed.

Definition reader_post (o : pin_out) (σ : pin_state) : Prop :=
  exists last vs out, o = PinGot out /\ reader_log last vs out /\ seen_in vs (plog σ).

Lemma holding_seen q v σ : holding q v σ -> seen_in [(q, v)] (plog σ).
Proof.
  intros (_ & H1 & H2). apply Forall_singleton. cbn. apply last_Some in H2 as [l' Hl].
  rewrite Hl in H1 |- *. rewrite length_app in H1. cbn [length] in H1. split; [lia|].
  rewrite lookup_app_r by lia. by replace (Z.to_nat (q - 1) - length l')%nat with 0%nat by lia.
Qed.

Lemma ptri_reader `{Os : OsPlatform, !OsLaws Os} fuel cmds st vs out :
  st_region st = r -> st_topic_idx st = tp -> reader_log (st_last_seq st) vs out ->
  tri t (fun σ => outside σ /\ seen_in vs (plog σ)) (pinned_reader fuel cmds st (length vs) out) reader_post.
Proof.
  revert st vs out. induction cmds as [|c cmds IH]; intros st vs out Hr Htp Hlog; cbn [pinned_reader].
  { apply hoare_ret; [apply kept_conj; [apply kept_outside|apply kept_seen_in]|].
    intros σ [_ Hs] _. by exists (st_last_seq st), vs, out. }
  eapply ptri_bind.
  { apply hoare_frame; [apply PGuar_PRely|intros t'; apply kept_seen_in|by apply ptri_receive]. }
  set (k := pin_reads c).
  intros [st' [g|]]; unfold recv_ok; cbn [fst snd].
  2:{ intros σ [[-> Ho] Hs]. by apply IH. }
  intros σ [(q & v & (-> & -> & Hq) & Hh) Hs].
  pose proof (reader_log_snoc _ _ _ q v k Hlog Hq) as Hlog'.
  assert (Hbody : tri t (fun σ => holding q v σ /\ seen_in vs (plog σ))
    (let* out' := read_guard k (mkPinnedGuard r tp b (blen v)) (length vs) out in
     pinned_guard_drop (mkPinnedGuard r tp b (blen v)) ;;;
     pinned_reader fuel cmds (set_last_seq st q) (S (length vs)) out') reader_post); [|by apply Hbody].
  eapply ptri_bind.
  { apply hoare_frame; [apply PGuar_PRely|intros t'; apply kept_seen_in|apply ptri_read_guard]. }
  intros out'. eapply hoare_pre with (P' := fun σ => out' = out ++ replicate k (length vs, v) /\
    (holding q v σ /\ seen_in (vs ++ [(q, v)]) (plog σ))).
  2:{ intros σ' [[-> H1] H2]. split; [done|]. split; [done|]. apply Forall_app. split; [exact H2|].
      by apply holding_seen. }
  apply hoare_pure. intros ->. unfold pinned_guard_drop. cbn [pg_topic_idx].
  eapply ptri_bind.
  { apply hoare_frame; [apply PGuar_PRely|intros t'; apply kept_seen_in|].
    eapply ptri_bind; [apply ptri_leave; [by intros σ' [H _]|apply kept_holding]|].
    intros u. apply (hoare_ret _ _ _ _ _ _ _ (fun _ => outside)); [apply kept_outside|done]. }
  intros u. replace (S (length vs)) with (length (vs ++ [(q, v)])) by (rewrite length_app; cbn; lia).
  by apply IH.
Qed.

End Reader.

End Pinned.

(** ** The system *)

(** Readers are streams with what their clients do. *)
Definition pin_threads `{Os : OsPlatform} (fuel : nat) (cmds : list pin_cmd) (p : Publisher) (handle : Topic)
    (rds : list (Stream * list pin_read)) : list (prog cell pin_out) :=
  pinned_client fuel cmds p handle [] :: map (fun rd => pinned_reader fuel rd.2 rd.1 0 []) rds.

(** A topic whose pinned block [b] has been allocated and nothing published on it, the
    publisher's handle of it, and the streams of the subscribers. *)
Record pin_setup (b : Z) (cmds : list pin_cmd) (p : Publisher) (handle : Topic)
    (rds : list (Stream * list pin_read)) (m : cellmem cell) : Prop := {
  pst_handle : tp_publisher_id handle = pb_id p;
  pst_topic : 0 <= tp_topic_idx handle;
  pst_block : pb_pinned_blocks p !! Z.to_nat (tp_topic_idx handle) = Some b;
  pst_real : b <> NO_BLOCK;
  pst_capacity : data_capacity (pb_region p) < 2 ^ 32;
  pst_mem_block : m (TEPinnedBlock (tp_topic_idx handle)) = b;
  pst_mem_seq : m (TEPinnedSeq (tp_topic_idx handle)) = 0;
  pst_mem_write : m (TEWriteSeq (tp_topic_idx handle)) = 0;
  pst_mem_readers : m (TEPinnedReaders (tp_topic_idx handle)) = 0;
  pst_streams : Forall (fun rd => st_topic_idx rd.1 = tp_topic_idx handle) rds;
  pst_count : Z.of_nat (length rds) < PINNED_WRITER_ACTIVE - 1;
  pst_messages : Z.of_nat (length (pin_requested cmds)) < 2 ^ 32;
  pst_payloads : Forall pin_cmd_ok cmds
}.

Section System.
Context (b : Z) (cmds : list pin_cmd) (p : Publisher) (handle : Topic).
Context (rds : list (Stream * list pin_read)) (m : cellmem cell) (fuel : nat).
Context `{Os : OsPlatform, !OsLaws Os}.
Hypothesis (Hsu : pin_setup b cmds p handle rds m).

Local Abbreviation tp := (tp_topic_idx handle).
Local Abbreviation nthreads := (S (length rds)).
Local Abbreviation inv := (PInv tp b nthreads (pin_requested cmds)).
Local Abbreviation verified := (wp pin_window inv (PRely tp b) (PGuar tp b)).

Definition pin_state0 : pin_state := (([], ∅), h_init m).

Definition pin_post (t : nat) (o : pin_out) (σ : pin_state) : Prop :=
  match t with O => o = PinSent (plog σ) | S _ => reader_post o σ end.

Lemma pin_fresh_inv : inv pin_state0.
Proof.
  destruct Hsu. split; try done.
  - apply sublist_nil_l.
  - right. split; [|done]. by unfold pmem.
Qed.

Lemma pin_publisher_start : verified 0%nat (pinned_client fuel cmds p handle []) (pin_post 0) pin_state0.
Proof.
  destruct Hsu as [S1 S2 S3 S4 S5 S6 S7 S8 S9 S10 S11 S12 S13].
  pose proof (lookup_lt_Some _ _ _ S3). apply (ptri_client tp b nthreads (pin_requested cmds)) with (dn := []);
    try done; try lia.
  split; [done|]. unfold writing, pmem. cbn. by rewrite S8, S9.
Qed.

Lemma pin_reader_start i rd :
  rds !! i = Some rd -> verified (S i) (pinned_reader fuel rd.2 rd.1 0 []) (pin_post (S i)) pin_state0.
Proof.
  intros Hst. destruct Hsu as [S1 S2 S3 S4 S5 S6 S7 S8 S9 S10 S11 S12 S13].
  rewrite Forall_lookup in S10. pose proof (lookup_lt_Some _ _ _ Hst).
  apply (ptri_reader tp b nthreads (pin_requested cmds)) with (vs := []) (r := st_region rd.1); try done; try lia.
  - by apply (S10 i).
  - split; [constructor|]. split; [constructor|]. by intros ? ? ?%elem_of_nil.
  - split; [by apply not_elem_of_empty|constructor].
Qed.

Lemma pin_start_ok :
  pool_ok pin_window inv (PRely tp b) (PGuar tp b) pin_post (pin_threads fuel cmds p handle rds) pin_state0.
Proof.
  split; [apply pin_fresh_inv|]. intros [|i] q Hq; unfold pin_threads in Hq; cbn in Hq.
  - injection Hq as <-. apply pin_publisher_start.
  - apply list_lookup_fmap_Some in Hq as (rd & -> & Hrd). by apply pin_reader_start.
Qed.

Lemma pin_reach ps s :
  rtc (cstep pin_window) (pin_threads fuel cmds p handle rds, h_init m) (ps, s) ->
  exists g, inv (g, s) /\ (forall t o, ps !! t = Some (Ret o) -> pin_post t o (g, s)) /\
    (forall t, ps !! t <> Some Panic).
Proof.
  intros Hr. eapply (wp_sound _ _ _ _ (PGuar_PRely tp b) pin_post); [exact pin_start_ok|exact Hr].
Qed.

End System.

Lemma reader_log_sublist last vs out log :
  reader_log last vs out -> seen_in vs log -> vs.*2 `sublist_of` log.
Proof.
  intros (H1 & _ & _) H2. rewrite <- (drop_0 log).
  apply (sublist_sorted log (fun x => Z.to_nat (x.1 - 1)) snd vs 0).
  - assert (Hge : Forall (fun x => 1 <= x.1) vs) by (eapply Forall_impl; [exact H2|]; by intros x [H _]).
    clear H2. induction H1 as [|x l Hs IH Hx]; constructor.
    + apply IH. by apply Forall_cons in Hge as [_ Hge].
    + apply Forall_cons in Hge as [Hx1 Hge]. rewrite Forall_forall in Hx, Hge |- *. intros y Hy.
      specialize (Hx y Hy). specialize (Hge y Hy). lia.
  - intros x Hx. unfold seen_in in H2. rewrite Forall_forall in H2. split; [lia|]. by apply H2.
Qed.

(** C9. Pinned topics: in every interleaving of the publisher, which loans, overwrites
    (raw or structured data) and publishes the topic's one block in place or gives a loan
    back untouched, with any number of readers that receive guards (without waiting or
    with any strategy and any back end), read them repeatedly and drop them, there is
    one log of published messages, a sublist of what the client asked for and exactly
    what the publisher reports; every read of a reader's i-th guard gives the i-th
    element of one list of messages, and that list is a sublist of the log. So a guard's
    bytes are never torn by, or changed under, the in-place writes. No thread panics. *)
Theorem pinned_delivery `{Os : OsPlatform, !OsLaws Os} b cmds p handle rds m fuel ps s :
  pin_setup b cmds p handle rds m ->
  rtc (cstep pin_window) (pin_threads fuel cmds p handle rds, h_init m) (ps, s) ->
  (forall t, ps !! t <> Some Panic) /\
  exists log, log `sublist_of` pin_requested cmds /\
    (forall o, ps !! 0%nat = Some (Ret o) -> o = PinSent log) /\
    forall i o, ps !! S i = Some (Ret o) ->
      exists reads ms, o = PinGot reads /\ ms `sublist_of` log /\
        forall j bs, (j, bs) ∈ reads -> ms !! j = Some bs.
Proof.
  intros Hsu Hr. destruct (pin_reach _ _ _ _ _ _ _ Hsu ps s Hr) as (g & Hi & Hq & Hnp).
  split; [done|]. exists (plog (g, s)). split; [apply (pi_req _ _ _ _ _ Hi)|]. split; [apply (Hq 0%nat)|].
  intros i o Ho. destruct (Hq (S i) o Ho) as (last & vs & out & -> & Hl & Hs). exists out, vs.*2.
  split; [done|]. split; [by eapply reader_log_sublist|]. intros j bs Hin. destruct Hl as (_ & _ & Hl).
  destruct (Hl j bs Hin) as [q Hj]. by rewrite list_lookup_fmap, Hj.
Qed.

(** ** A loan that is written and dropped *)

(** Publishes [first]; writes [second] into the next loan and drops it; then [st]
    receives and reads. *)
Definition drop_after_write (fuel : nat) (first second : bytes) (p : Publisher) (handle : Topic) (st : Stream)
    : prog cell (option bytes) :=
  let* (p1, r1) := loan_pinned fuel p handle in
  match r1 with
  | Err _ => Ret None
  | Ok l =>
      let* (l1, _) := pinned_set_data l first in
      pinned_publish l1 ;;;
      let* (_, r2) := loan_pinned fuel p1 handle in
      match r2 with
      | Err _ => Ret None
      | Ok l2 =>
          let* (l3, _) := pinned_set_data l2 second in
          pinned_loan_drop l3 ;;;
          let* (_, o) := try_recv_pinned fuel st in
          match o with
          | None => Ret None
          | Some g => let* bs := pinned_guard_deref g in Ret (Some bs)
          end
      end
  end.

(** [second] written over the start of [first], in as many bytes as [first] has. *)
Definition overwritten (first second : bytes) : bytes :=
  take (length first) second ++ drop (length second) first.

Section Exposure.
Local Abbreviation cworld := (world cell (cellmem cell)).
Context (b ws : Z) (p : Publisher) (handle : Topic) (st : Stream).

(** The topic's pinned block is allocated, no guard is held, [ws] messages were
    published, and the stream has received none after [ws]. *)
Record pin_ready (m : cellmem cell) : Prop := {
  pr_handle : tp_publisher_id handle = pb_id p;
  pr_topic : 0 <= tp_topic_idx handle;
  pr_block : pb_pinned_blocks p !! Z.to_nat (tp_topic_idx handle) = Some b;
  pr_real : 0 <= b < block_count (rg_config (st_region st));
  pr_config : block_count (rg_config (st_region st)) <= NO_BLOCK;
  pr_capacity : data_capacity (pb_region p) < 2 ^ 32;
  pr_stream : st_topic_idx st = tp_topic_idx handle;
  pr_behind : st_last_seq st <= ws;
  pr_count : 0 <= ws < 2 ^ 32 - 1;
  pr_mem_block : m (TEPinnedBlock (tp_topic_idx handle)) = b;
  pr_mem_write : m (TEWriteSeq (tp_topic_idx handle)) = ws;
  pr_mem_readers : m (TEPinnedReaders (tp_topic_idx handle)) = 0
}.

Local Abbreviation tp := (tp_topic_idx handle).
Local Abbreviation cap := (data_capacity (pb_region p)).
Local Abbreviation loan_of len := (mkPinnedLoan (pb_region p) b cap len tp).

Lemma loan_pinned_run fuel (w : cworld) :
  tp_publisher_id handle = pb_id p -> 0 <= tp -> pb_pinned_blocks p !! Z.to_nat tp = Some b -> b <> NO_BLOCK ->
  w_mem w (TEPinnedReaders tp) = 0 ->
  run (loan_pinned fuel p handle) w =
    (Done (p, Ok (loan_of 0)), set_mem w (upd (w_mem w) (TEPinnedReaders tp) PINNED_WRITER_ACTIVE)).
Proof.
  intros Hh Ht Hb Hr Hz. unfold loan_pinned. rewrite Hh, Z.eqb_refl. cbn [negb].
  pose proof (lookup_lt_Some _ _ _ Hb) as Hlen.
  replace (Z.of_nat (length (pb_pinned_blocks p)) <=? tp) with false by lia.
  unfold pinned_block_of. rewrite Hb. replace (b =? NO_BLOCK) with false by lia. cbn [negb].
  run_simpl. rewrite Hz. cbn [Z.eqb]. by run_simpl.
Qed.

Lemma pinned_set_data_run data (w : cworld) :
  blen data <= cap ->
  exists m', run (pinned_set_data (loan_of 0) data) w = (Done (loan_of (blen data), Ok tt), set_mem w m') /\
    block_at m' b 0 data /\
    (forall c, (forall k, 0 <= k < blen data -> c <> BKData b k) -> m' c = w_mem w c).
Proof.
  intros Hd. unfold pinned_set_data. cbn [pl_capacity pl_block_idx].
  replace (cap <? blen data) with false by lia. rewrite run_bind.
  destruct (store_block_run b 0 data w) as (m' & -> & H1 & H2). by exists m'.
Qed.

Lemma pinned_publish_run len (w : cworld) :
  0 <= ws < 2 ^ 32 - 1 -> 0 <= len < 2 ^ 32 -> w_mem w (TEWriteSeq tp) = ws ->
  exists w', run (pinned_publish (loan_of len)) w = (Done tt, w') /\
    w_mem w' (TEPinnedSeq tp) = (ws + 1) * 2 ^ 32 + len /\ w_mem w' (TEPinnedReaders tp) = 0 /\
    (forall c, c <> TEWriteSeq tp -> c <> TEPinnedSeq tp -> c <> TEPinnedReaders tp -> w_mem w' c = w_mem w c).
Proof.
  intros Hws Hlen Hw. unfold pinned_publish. cbn [pl_len pl_topic_idx].
  replace (len <=? u32_max) with true by (unfold u32_max; lia).
  unfold commit_pinned, smart_wake. run_simpl. rewrite Hw.
  rewrite (wrap64_small (ws + 1)), (wrap32_small len) by lia.
  change 0xFFFFFFFF with (Z.ones 32). rewrite Z.land_ones, Z.mod_small by lia.
  rewrite (wrap64_small (Z.shiftl _ _)) by (rewrite Z.shiftl_mul_pow2 by lia; lia).
  rewrite lor_shiftl_add by lia.
  destruct (0 <? _); run_simpl; eexists; (split; [reflexivity|]); cbn [w_mem set_mem];
    (split; [by rewrite upd_ne, upd_eq by done|]); (split; [by rewrite upd_eq|]);
    intros c H1 H2 H3; by rewrite !upd_ne by congruence.
Qed.

Lemma try_recv_pinned_run fuel len (w : cworld) :
  st_topic_idx st = tp -> 0 <= b < block_count (rg_config (st_region st)) -> b <> NO_BLOCK ->
  st_last_seq st <= ws -> 0 <= ws -> 0 <= len < 2 ^ 32 ->
  w_mem w (TEPinnedSeq tp) = (ws + 1) * 2 ^ 32 + len -> w_mem w (TEPinnedBlock tp) = b ->
  w_mem w (TEPinnedReaders tp) = 0 ->
  run (try_recv_pinned (S fuel) st) w =
    (Done (set_last_seq st (ws + 1), Some (mkPinnedGuard (st_region st) tp b len)),
     set_mem w (upd (w_mem w) (TEPinnedReaders tp) 1)).
Proof.
  intros Ht Hb Hr Hl Hws Hlen H1 H2 H3. unfold try_recv_pinned. rewrite Ht. run_simpl. rewrite H1.
  replace ((ws + 1) * 2 ^ 32 + len =? 0) with false by lia.
  assert (Hseq : Z.shiftr ((ws + 1) * 2 ^ 32 + len) 32 = ws + 1).
  { rewrite Z.shiftr_div_pow2 by lia. rewrite Z.div_add_l by lia. rewrite Z.div_small by lia. lia. }
  assert (Hdl : wrap32 ((ws + 1) * 2 ^ 32 + len) = len).
  { unfold wrap32. rewrite Z.add_comm, Z.mod_add by lia. by apply Z.mod_small. }
  rewrite Hseq, Hdl. replace (ws + 1 <=? st_last_seq st) with false by lia.
  unfold pinned_block. run_simpl. rewrite H2. replace (b =? NO_BLOCK) with false by lia.
  replace (block_count (rg_config (st_region st)) <=? b) with false by lia.
  cbn [enter_readers]. run_simpl. rewrite H3.
  change (0 =? PINNED_WRITER_ACTIVE) with false. cbv iota. run_simpl. rewrite H3, Z.eqb_refl. run_simpl. cbn [negb]. run_simpl.
  rewrite upd_ne, H1, Z.eqb_refl by done. by cbn [negb].
Qed.

(** The block after both writes: what was written second, then the rest of the first. *)
Lemma block_overwritten m m' first second :
  block_at m b 0 first -> block_at m' b 0 second ->
  (forall k, blen second <= k -> m' (BKData b k) = m (BKData b k)) ->
  block_at m' b 0 (overwritten first second).
Proof.
  intros H1 H2 Hf k x. unfold overwritten, blen in *. intros [Hx|[Hge Hx]]%lookup_app_Some.
  - apply H2. apply lookup_take_Some in Hx. tauto.
  - rewrite length_take in *. rewrite lookup_drop in Hx. pose proof (lookup_lt_Some _ _ _ Hx).
    replace (length second + (k - length first `min` length second))%nat with k in Hx by lia.
    rewrite Hf by lia. by apply H1.
Qed.

Lemma length_overwritten first second : length (overwritten first second) = length first.
Proof. unfold overwritten. rewrite length_app, length_take, length_drop. lia. Qed.

Lemma drop_after_write_run fuel first second (w : cworld) :
  pin_ready (w_mem w) -> blen first <= cap -> blen second <= cap ->
  exists w', run (drop_after_write (S fuel) first second p handle st) w =
    (Done (Some (overwritten first second)), w').
Proof.
  intros [R1 R2 R3 R4 R5 R6 R7 R8 R9 R10 R11 R12] Hf Hs. unfold drop_after_write.
  assert (Hnb : b <> NO_BLOCK) by lia. rewrite run_bind, loan_pinned_run by done.
  rewrite run_bind. set (w1 := set_mem _ _).
  destruct (pinned_set_data_run first w1 Hf) as (m2 & -> & B2 & F2). rewrite run_bind.
  destruct (pinned_publish_run (blen first) (set_mem w1 m2)) as (w3 & -> & P1 & P2 & F3);
    [done|unfold blen in *; lia|cbn; by rewrite F2|].
  rewrite run_bind, loan_pinned_run by done. rewrite run_bind. set (w4 := set_mem w3 _).
  destruct (pinned_set_data_run second w4 Hs) as (m5 & -> & B5 & F5). rewrite run_bind.
  unfold pinned_loan_drop. cbn [pl_topic_idx]. run_simpl. rewrite run_bind.
  match goal with |- context [run (try_recv_pinned _ _) ?x] => set (w6 := x) end.
  assert (F6 : forall c, c <> TEPinnedReaders tp -> (forall k, 0 <= k < blen second -> c <> BKData b k) ->
    w_mem w6 c = w_mem w3 c).
  { intros c H1 H2. unfold w6. cbn. rewrite upd_ne by done. rewrite F5 by done. unfold w4. cbn. by rewrite upd_ne. }
  rewrite (try_recv_pinned_run fuel (blen first) w6); [|done|done|done|done|lia|unfold blen in *; lia| | |].
  2:{ rewrite F6; done. }
  2:{ rewrite F6, F3 by done. cbn. rewrite F2 by done. unfold w1. cbn. by rewrite upd_ne. }
  2:{ unfold w6. cbn. by rewrite upd_eq. }
  unfold pinned_guard_deref. cbn [pg_block_idx pg_len]. rewrite run_bind. unfold blen. rewrite Nat2Z.id.
  rewrite <- (length_overwritten first second), load_block_run; [by eexists|].
  cbn [w_mem set_mem]. apply (block_at_frame m5).
  { intros k _. rewrite upd_ne by done. unfold w6. cbn. by rewrite upd_ne. }
  apply (block_overwritten m2); [done|done|]. intros k Hk. rewrite F5 by (intros k' Hk' [= ->]; lia).
  unfold w4. cbn. rewrite upd_ne by done. rewrite F3 by done. done.
Qed.

End Exposure.

(** ** An instance: two readers, one waiting when the first message is published, the
    other in the middle of a guard when the publisher asks for the next loan *)

Module PinnedDemo.

(** Creates a region, registers a topic, allocates its pinned block with a first loan
    that is given back, and subscribes. *)
Definition pin_start : prog cell (option (Publisher * Topic * Stream)) :=
  let* r := create 0 4096 77 42 [112; 98] config_small in
  match r with
  | Err _ => Ret None
  | Ok p =>
      let* r1 := register p [116] in
      match r1 with
      | Err _ => Ret None
      | Ok handle =>
          let* (p1, r2) := loan_pinned 5 p handle in
          match r2 with
          | Err _ => Ret None
          | Ok l =>
              pinned_loan_drop l ;;;
              let* r3 := subscribe (region_of 1 8192 config_small) [116] in
              Ret (match r3 with Ok st => Some (p1, handle, st) | Err _ => None end)
          end
      end
  end.

Definition started : outcome (option (Publisher * Topic * Stream)) * _ := run pin_start zero_world.
Definition handles : Publisher * Topic * Stream :=
  match started.1 with
  | Done (Some x) => x
  | _ => (new_publisher (region_of 0 4096 config_small) [] true 0 0, mkTopic 0 0,
          mkStream (region_of 0 4096 config_small) 0 0 0)
  end.

Definition publisher : Publisher := handles.1.1.
Definition topic : Topic := handles.1.2.
Definition waiting : WaitStrategy := Adaptive 0 0.
Definition readers : list (Stream * list pin_read) :=
  [(handles.2, [PinTry 2; PinWait waiting 3 2]); (handles.2, [PinWait waiting 3 2; PinTry 2])].
Definition memory : cellmem cell := w_mem started.2.
Definition cmds : list pin_cmd :=
  [PinPublish (Raw [1; 2]); PinPublish (Raw [3; 4]); PinCancel;
   PinPublish (Structured (mkPod 1 1) (mkPod 2 1) [5] [6; 7] 1)].

Definition schedule : list (nat * nat) := 
  [(2, 7); (0, 8); (1, 6); (0, 1); (2, 13); (1, 4); (2, 4); (0, 60); (1, 60); (2, 60)]%nat.
Definition final : list (prog cell pin_out) * hstate cell :=
  exec pin_window (Some 0) schedule (pin_threads 5 cmds publisher topic readers) (h_init memory).

Lemma pin_setup_ok : pin_setup 7 cmds publisher topic readers memory.
Proof.
  split.
  13: { repeat constructor; cbn; unfold blen; cbn; lia. }
  10: { repeat constructor. }
  all: vm_compute; congruence || reflexivity.
Defined.

Lemma pin_final_reachable :
  rtc (cstep pin_window) (pin_threads 5 cmds publisher topic readers, h_init memory) (final.1, final.2).
Proof.
  pose proof (exec_sound pin_window (Some 0) schedule (pin_threads 5 cmds publisher topic readers)
    (h_init memory)) as H.
  unfold final in *. by destruct (exec _ _ _ _ _).
Defined.

End PinnedDemo.

Lemma pinned_delivery_witness :
  PinnedDemo.final.1 = [Ret (PinSent [[1; 2]; [5; 6; 7; 1; 0; 0; 0]]);
    Ret (PinGot [(0%nat, [1; 2]); (0%nat, [1; 2]); (1%nat, [5; 6; 7; 1; 0; 0; 0]); (1%nat, [5; 6; 7; 1; 0; 0; 0])]);
    Ret (PinGot [(0%nat, [1; 2]); (0%nat, [1; 2])])] /\
  exists log, log `sublist_of` pin_requested PinnedDemo.cmds /\ PinSent [[1; 2]; [5; 6; 7; 1; 0; 0; 0]] = PinSent log /\
    exists reads ms, PinGot [(0%nat, [1; 2]); (0%nat, [1; 2]); (1%nat, [5; 6; 7; 1; 0; 0; 0]); (1%nat, [5; 6; 7; 1; 0; 0; 0])] = PinGot reads /\
      ms `sublist_of` log /\ forall j bs, (j, bs) ∈ reads -> ms !! j = Some bs.
Proof.
  assert (Hf : PinnedDemo.final.1 = [Ret (PinSent [[1; 2]; [5; 6; 7; 1; 0; 0; 0]]);
    Ret (PinGot [(0%nat, [1; 2]); (0%nat, [1; 2]); (1%nat, [5; 6; 7; 1; 0; 0; 0]); (1%nat, [5; 6; 7; 1; 0; 0; 0])]);
    Ret (PinGot [(0%nat, [1; 2]); (0%nat, [1; 2])])]) by (vm_compute; reflexivity).
  split; [exact Hf|].
  destruct (pinned_delivery 7 PinnedDemo.cmds PinnedDemo.publisher PinnedDemo.topic PinnedDemo.readers
    PinnedDemo.memory 5 PinnedDemo.final.1 PinnedDemo.final.2 PinnedDemo.pin_setup_ok
    PinnedDemo.pin_final_reachable) as (_ & log & H1 & H2 & H3).
  exists log. split; [exact H1|]. split; [apply H2; rewrite Hf; reflexivity|].
  apply (H3 0%nat). rewrite Hf. reflexivity.
Defined.

(** C36. A pinned loan that was written to and then dropped without publishing is not
    without effect. For every topic whose pinned block is allocated, every published
    message [first] and every abandoned [second] that fit the block: a stream that had not
    yet read [first] receives it after the drop, and the bytes it reads are those of
    [second] over the start of [first], in [first]'s length; nobody published them unless
    they happen to be those of [first]. *)
Theorem pinned_drop_exposes fuel first second b ws p handle st (w : world cell (cellmem cell)) :
  pin_ready b ws p handle st (w_mem w) ->
  blen first <= data_capacity (pb_region p) -> blen second <= data_capacity (pb_region p) ->
  (exists w', run (drop_after_write (S fuel) first second p handle st) w =
    (Done (Some (overwritten first second)), w')) /\
  (overwritten first second = first <-> take (length first) second `prefix_of` first).
Proof.
  intros Hp H1 H2. split; [by apply (drop_after_write_run b ws)|]. unfold overwritten. split.
  - intros He. rewrite <- He at 2. by apply prefix_app_r.
  - intros [rest Hr]. destruct (decide (length first <= length second)%nat) as [Hle|Hgt].
    + rewrite (drop_ge first) by lia. rewrite app_nil_r.
      assert (length rest = 0%nat) by (apply (f_equal length) in Hr; rewrite length_app, length_take in Hr; lia).
      destruct rest; [|done]. by rewrite app_nil_r in Hr.
    + rewrite take_ge in * by lia. rewrite Hr at 1. by rewrite drop_app_length.
Qed.

Lemma pinned_drop_exposes_witness :
  exists w', run (drop_after_write 1 [1; 2; 3] [9; 8] PinnedDemo.publisher PinnedDemo.topic PinnedDemo.handles.2)
    (set_mem zero_world PinnedDemo.memory) = (Done (Some [9; 8; 3]), w').
Proof.
  apply (pinned_drop_exposes 0 [1; 2; 3] [9; 8] 7 0 PinnedDemo.publisher PinnedDemo.topic PinnedDemo.handles.2
    (set_mem zero_world PinnedDemo.memory)); [|vm_compute; congruence|vm_compute; congruence].
  split; vm_compute; intuition congruence.
Defined.
