(* ===== verification/Guarantees.v ===== *)
(** * Guarantees: the end-to-end theorems of a region

    The concurrent theorems of Delivery, stated without ghost state, and instances
    that run the code: two publishers and two subscribers interleaved on the region
    that [create] writes and [open] joins. *)

From S2P Require Import Prelude Errors Layout Atomics Rely ShmBytes Pool Ring Wait Subscription.
From S2P Require Import Loan Publisher Payload Ghost Ownership SubscriberProof PublisherProof Delivery.
From S2P Require Import Startup.

(** ** An instance: two publishers, two subscribers, an interleaved schedule *)

Module Demo.

Definition config : Config := {|
  max_topics := 2; block_count := 24; block_size := 24; ring_depth := 4;
  heartbeat_interval := duration_from_millis 100;
  stale_timeout := duration_from_millis 5000
|}.
Definition name : bytes := [112; 98].

(** The owner publishes raw data and then, without a wake, a structured message on
    topic 0, a secondary publisher typed values on topic 1. *)
Definition publisher : Publisher := new_publisher (region_of 0 4096 config) name true 42 5.
Definition second : Publisher := new_publisher (region_of 1 8192 (header_config config)) name false 43 5.

Definition cmds : list pub_cmd :=
  [PPublish (mkTopic 0 42) [7; 8]; PLoanDrop (mkTopic 0 42); PLoan (mkTopic 0 42) (Structured (mkPod 1 1) (mkPod 1 1) [4] [5; 6] 2) false].
Definition cmds2 : list pub_cmd :=
  [PTyped (mkPod 2 2) (mkTopic 1 43) [3; 1]; PTyped (mkPod 2 2) (mkTopic 1 43) [3; 2]].
Definition pubs : list pub_client := [mkPub publisher cmds; mkPub second cmds2].

Definition subs : list sub_client :=
  [mkSub (region_of 2 12288 (header_config config)) 0 0 [CRecv; CRecv; CRead 0; CRead 1; CDrop 0; CRead 1];
   mkSub (region_of 3 16384 (header_config config)) 1 2
     [CRecvTyped (mkPod 2 2); CRead 0; CDrop 0; CRecvTyped (mkPod 2 2); CRead 1]].

(** The memory [create] and [open] leave. *)
Definition start : cellmem cell :=
  w_mem (run (create 0 4096 77 42 name config ;;; open 1 8192 1088 43 name) zero_world).2.

(** The owner commits its first message, the others start in the middle, all finish. *)
Definition schedule : list (nat * nat) :=
  [(0, 40); (1, 20); (2, 5); (0, 5); (1, 20); (2, 2); (3, 2); (0, 300); (1, 300); (2, 300); (3, 300)]%nat.

Definition final : list (prog cell (list (nat * bytes))) * hstate cell :=
  exec pool_window (Some 0) schedule (region_threads 10 pubs subs) (h_init start).

Lemma start_fresh : fresh_region config 0 start /\ fresh_region config 1 start.
Proof.
  unfold start.
  destruct (create_run 0 4096 77 42 name config 1088 1000000000 zero_world)
    as (w' & Hr & [C1 C2 C3 _] & Hn & _); [vm_compute; intuition congruence|reflexivity|reflexivity
    |vm_compute; congruence|reflexivity|].
  rewrite run_bind, Hr, (open_run 77 config 1000000000 1000000000 1088 1 8192 name 1088 w');
    [|vm_compute; intuition congruence|reflexivity|lia|vm_compute; congruence|done|done|done|vm_compute; congruence].
  by apply fresh_region_join.
Defined.

Lemma setup_ok : region_setup config 1088 pubs subs start.
Proof.
  destruct start_fresh as [F0 F1]. split.
  - split; vm_compute; intuition congruence.
  - reflexivity.
  - done.
  - constructor; [exact F0|constructor; [exact F1|constructor]].
  - constructor; [|constructor; [|constructor]]; eexists _, _, _, _, _; (split; [|reflexivity]); repeat split.
  - intros [|[|i]] [|[|j]] c d Hc Hd Hh; cbn in Hc, Hd; simplify_eq; try reflexivity; vm_compute in Hh; congruence.
  - intros [|[|i]] [|[|j]] c d ti Hc Hd H1 H2; cbn in Hc, Hd; simplify_eq; try reflexivity; exfalso.
    + destruct (decide (ti = 0)) as [->|Hne]; [by apply H2|]. apply H1. cbn. by rewrite !decide_False by congruence.
    + destruct (decide (ti = 0)) as [->|Hne]; [by apply H1|]. apply H2. cbn. by rewrite !decide_False by congruence.
  - repeat constructor; vm_compute; congruence.
  - vm_compute. congruence.
  - repeat constructor; vm_compute; congruence.
  - vm_compute. congruence.
Defined.

Lemma final_reachable : region_reachable 10 pubs subs start final.1 final.2.
Proof. unfold region_reachable, final. rewrite <- surjective_pairing. apply exec_sound. Defined.

End Demo.

(** C1. End-to-end delivery: in every interleaving of any number of publishers (the
    owner of the region and secondary ones, each topic served by one of them, sending
    raw data, structured messages or typed values, waking or not) with any number of
    subscribers, which receive bytes or typed values (of the type of the topic's
    messages), blocking or not, what a subscriber's client reads from the k-th sample it
    received, at any time before it drops it, is the k-th element of one fixed
    list of messages, and that list is a sublist (in order, without duplicates or
    inventions) of the messages the topic's publisher was asked to publish on the
    subscriber's topic. So reads are never torn, mixed, reordered, repeated or
    overwritten by the reuse of a block. *)
Theorem delivery `{Os : OsPlatform, !OsLaws Os} fuel config size pubs subs m ps s i c out :
  region_setup config size pubs subs m ->
  region_reachable fuel pubs subs m ps s ->
  subs !! i = Some c -> ps !! (length pubs + i)%nat = Some (Ret out) ->
  exists ms, ms `sublist_of` all_requested pubs (sb_topic c) /\
    forall k bs, (k, bs) ∈ out -> ms !! k = Some bs.
Proof.
  intros Hsu. by apply (reach_delivered fuel config size pubs subs m Hsu).
Qed.

Lemma delivery_witness :
  Demo.final.1 !! 2%nat = Some (Ret [(0%nat, [7; 8]); (1%nat, [4; 5; 6; 2; 0; 0; 0]); (1%nat, [4; 5; 6; 2; 0; 0; 0])]) /\
  Demo.final.1 !! 3%nat = Some (Ret [(0%nat, [3; 1]); (1%nat, [3; 2])]) /\
  exists ms, ms `sublist_of` [[3; 1]; [3; 2]] /\
    forall k bs, (k, bs) ∈ [(0%nat, [3; 1]); (1%nat, [3; 2])] -> ms !! k = Some bs.
Proof.
  split; [vm_compute; reflexivity|]. split; [vm_compute; reflexivity|].
  exact (delivery 10 Demo.config 1088 Demo.pubs Demo.subs Demo.start
    Demo.final.1 Demo.final.2 1 _ _ Demo.setup_ok Demo.final_reachable eq_refl
    ltac:(vm_compute; reflexivity)).
Defined.

(** C2. Block safety: in every reachable state of the same system the free list is
    well formed and without duplicates, free blocks have no references, and the
    block of every committed slot is referenced, hence not free: no block is ever
    handed out while a slot or a sample uses it. No thread panics. *)
Theorem blocks_safe `{Os : OsPlatform, !OsLaws Os} fuel config size pubs subs m ps s :
  region_setup config size pubs subs m ->
  region_reachable fuel pubs subs m ps s ->
  (forall t, ps !! t <> Some Panic) /\
  exists l, pool_repr config (hs_mem s) l /\
    (forall b, b ∈ l -> hs_mem s (BKRefcount b) = 0) /\
    (forall ti sl, topic_ok config ti -> 0 <= sl < ring_depth config ->
       hs_mem s (RESeq ti sl) <> SEQ_WRITING -> hs_mem s (RESeq ti sl) <> 0 ->
       let b := hs_mem s (REBlockIdx ti sl) in
       block_ok config b /\ (b ∉ l) /\ 1 <= hs_mem s (BKRefcount b)).
Proof.
  intros Hsu Hr. destruct (reach fuel config size pubs subs m Hsu ps s Hr) as (g & Hi & _ & Hnp).
  split; [done|]. exists (g_free g). destruct (inv_p _ _ _ _ Hi) as [P1 P2 P3 P4 P5].
  assert (Hfree : forall b, b ∈ g_free g -> hs_mem s (BKRefcount b) = 0).
  { intros b Hb. destruct (P5 b Hb) as [Hok Hro]. pose proof (inv_b _ _ _ _ Hi b Hok) as Hk.
    unfold inv_block in Hk. by rewrite Hro in Hk. }
  split; [|split; [done|]].
  - split; [|done|done|].
    + exists (wrap32 (cas_count (g, s))). split; [apply wrap32_range | exact P1].
    + apply Forall_forall. intros b Hb. by apply P5.
  - intros ti sl Ht Hs H1 H2 b. destruct (inv_s _ _ _ _ Hi ti sl Ht Hs) as [B1 B2 B3 B4 B5].
    unfold mem in *. cbn [fst snd] in *. destruct B5 as [?|[Hx Hy]]; [done|].
    destruct B2 as (Hb & _ & bs & Hp); [lia|]. fold b in Hb, Hp.
    unfold pubref, role_pub in Hp. destruct (roleof (g, s) b) as [| |v [] hs] eqn:Hro; try done.
    destruct (live_inv config _ _ _ _ _ _ _ Hi Hb Hro) as (Hc & Hpos & _).
    unfold mem in Hc. cbn [snd] in Hc. split; [done|]. split; [|lia].
    intros Hin. specialize (Hfree b Hin). lia.
Qed.

Lemma blocks_safe_witness :
  exists l, pool_repr Demo.config (hs_mem Demo.final.2) l /\
    hs_mem Demo.final.2 (RESeq 0 1) = 1 /\ (hs_mem Demo.final.2 (REBlockIdx 0 1) ∉ l).
Proof.
  destruct (blocks_safe 10 Demo.config 1088 Demo.pubs Demo.subs Demo.start
    Demo.final.1 Demo.final.2 Demo.setup_ok Demo.final_reachable) as (_ & l & H1 & _ & H3).
  exists l. split; [exact H1|]. split; [vm_compute; reflexivity|].
  apply (H3 0 1); vm_compute; intuition congruence.
Defined.

(** C19. Committed slots: in every reachable state the messages committed on a topic so
    far are one list [log], in the order the clients asked to publish them (some may have
    been given up), with the topic's counter at its length or one ahead of it. Every slot
    whose sequence word is closed at [q > 0] is the slot of [q] and holds message number
    [q] of that list: its block contains exactly those bytes and its length word is their
    number. *)
Theorem slots_hold_messages `{Os : OsPlatform, !OsLaws Os} fuel config size pubs subs m ps s ti :
  region_setup config size pubs subs m ->
  region_reachable fuel pubs subs m ps s ->
  topic_ok config ti ->
  exists log, log `sublist_of` all_requested pubs ti /\
    Z.of_nat (length log) <= hs_mem s (TEWriteSeq ti) <= Z.of_nat (length log) + 1 /\
    forall sl, 0 <= sl < ring_depth config ->
      let q := hs_mem s (RESeq ti sl) in
      q <> SEQ_WRITING -> q <> 0 ->
      ring_slot config q = sl /\ 1 <= q /\
      exists bs, log !! Z.to_nat (q - 1) = Some bs /\
        hs_mem s (REDataLen ti sl) = blen bs /\
        block_holds (hs_mem s) (hs_mem s (REBlockIdx ti sl)) bs.
Proof.
  intros Hsu Hr Ht.
  destruct (reach fuel config size pubs subs m Hsu ps s Hr) as (g & Hi & _).
  destruct (inv_t _ _ _ _ Hi ti Ht) as (Hws & Hsub & _). unfold mem in Hws. cbn [fst snd] in Hws, Hsub.
  exists (g_log g ti). split; [done|]. split; [done|]. intros sl Hs q H1 H2.
  destruct (inv_s _ _ _ _ Hi ti sl Ht Hs) as [B1 B2 B3 B4 B5].
  unfold mem in *. cbn [fst snd] in *. destruct B5 as [?|[Hx Hy]]; [done|]. fold q in Hx.
  destruct B2 as (Hb & Hsl & bs & Hp); [lia|]. destruct B4 as (bs' & Hlk & Hlen); [lia|].
  unfold pubref, role_pub in Hp.
  destruct (roleof (g, s) (hs_mem s (REBlockIdx ti sl))) as [| |v [] hs] eqn:Hro; try done.
  destruct (live_inv config _ _ _ _ _ _ _ Hi Hb Hro) as (_ & _ & _ & Hh & _ & Hlog). subst v.
  cbn [fst snd] in *. rewrite Hy, Hlog in Hlk. simplify_eq. rewrite <- Hx in *.
  split; [done|]. split; [lia|]. by exists bs'.
Qed.

Lemma slots_hold_messages_witness :
  exists log bs, log `sublist_of` all_requested Demo.pubs 0 /\ log !! 0%nat = Some bs /\
    hs_mem Demo.final.2 (REDataLen 0 1) = blen bs /\
    block_holds (hs_mem Demo.final.2) (hs_mem Demo.final.2 (REBlockIdx 0 1)) bs.
Proof.
  destruct (slots_hold_messages 10 Demo.config 1088 Demo.pubs Demo.subs Demo.start
    Demo.final.1 Demo.final.2 0 Demo.setup_ok Demo.final_reachable) as (log & Hsub & _ & Hsl);
    [vm_compute; intuition congruence|].
  destruct (Hsl 1) as (_ & _ & bs & Hlk & Hrest);
    [vm_compute; intuition congruence | vm_compute; congruence | vm_compute; congruence|].
  exists log, bs. split; [exact Hsub|]. split; [|exact Hrest]. exact Hlk.
Defined.
