(* ===== verification/Topics.v ===== *)
(** * Topics: the topic table (src/src/platform/shm.rs)

    [TopicSpec] is the abstract table: each entry is free, being initialised, or
    active with a URI. Registering a URI returns its entry if it has one and
    otherwise claims the first free entry; subscribing finds the first entry with
    that URI. The code compares hashes before lengths before bytes; the refinement
    shows that collisions cannot confuse two URIs. *)

From S2P Require Import Prelude Errors Layout Atomics ShmBytes Pool Ring Wait Subscription Loan.
From S2P Require Import Publisher.

Module TopicSpec.

Inductive entry : Type :=
| Free
| Initialising
| Active (uri : bytes) (type_size : Z).

Definition table : Type := Z -> entry.

Definition holds (tbl : table) (uri : bytes) (t : Z) : option Z :=
  match tbl t with
  | Active u _ => if decide (u = uri) then Some t else None
  | _ => None
  end.

Definition free (tbl : table) (t : Z) : option Z :=
  match tbl t with Free => Some t | _ => None end.

Definition find (n : Z) (tbl : table) (uri : bytes) : option Z := first (holds tbl uri) (seqZ 0 n).

Definition set (tbl : table) (t : Z) (e : entry) : table :=
  fun t' => if decide (t = t') then e else tbl t'.

(** The entry and the new table, or [None] if the table is full. *)
Definition register (n : Z) (tbl : table) (uri : bytes) (type_size : Z) : option (Z * table) :=
  match find n tbl uri with
  | Some t => Some (t, tbl)
  | None =>
      match first (free tbl) (seqZ 0 n) with
      | Some t => Some (t, set tbl t (Active uri type_size))
      | None => None
      end
  end.

End TopicSpec.
Import TopicSpec.

(** ** Representation *)

Definition entry_repr (m : cellmem cell) (t : Z) (e : entry) : Prop :=
  match e with
  | Free => m (TEActive t) = TE_STATE_FREE
  | Initialising => m (TEActive t) = TE_STATE_INIT
  | Active uri type_size =>
      m (TEActive t) = TE_STATE_ACTIVE /\ m (TEUriHash t) = uri_hash uri /\
      m (TEUriLen t) = blen uri /\ blen uri <= TE_URI_MAX /\
      (forall i x, uri !! i = Some x -> m (TEUri t (Z.of_nat i)) = x) /\
      m (TETypeSize t) = type_size
  end.

Definition table_repr (config : Config) (m : cellmem cell) (tbl : table) : Prop :=
  forall t, topic_ok config t -> entry_repr m t (tbl t).

Local Abbreviation cworld := (world cell (cellmem cell)).

Lemma load_uri_run (w : cworld) t i n :
  run (load_uri t i n) w = (Done (map (fun j => w_mem w (TEUri t (i + Z.of_nat j))) (seq 0 n)), w).
Proof.
  revert i. induction n as [|n IH]; intros i; cbn [load_uri]; [done|].
  cbn [bind load run mload cellmem_memory]. rewrite run_bind, IH. cbn.
  f_equal. f_equal. f_equal; [by rewrite Z.add_0_r|].
  rewrite <- seq_shift, map_map. apply map_ext. intros j. do 2 f_equal. lia.
Qed.

(** Comparing a stored URI with a given one, collisions or not. *)
Lemma entry_matches_run (w : cworld) t uri u ts :
  entry_repr (w_mem w) t (Active u ts) ->
  run (entry_matches t (uri_hash uri) uri) w = (Done (bool_decide (u = uri)), w).
Proof.
  intros (_ & Hh & Hl & Hmax & Hb & _). unfold entry_matches. run_simpl. rewrite Hh.
  destruct (Z.eqb_spec (uri_hash u) (uri_hash uri)) as [He|He]; cbn [negb]; run_simpl.
  2:{ rewrite bool_decide_false; [done|]. congruence. }
  rewrite Hl. destruct (Z.eqb_spec (blen u) (blen uri)) as [Hle|Hle]; cbn [negb]; run_simpl.
  2:{ rewrite bool_decide_false; [done|]. congruence. }
  rewrite run_bind, load_uri_run. cbn [run].
  replace (map _ _) with u; [done|]. symmetry. unfold blen. rewrite Nat2Z.id.
  apply map_seq_lookup. intros i x Hx. by apply Hb.
Qed.

Section Table.
Context (config : Config).

Lemma find_existing_run (w : cworld) tbl id uri t :
  table_repr config (w_mem w) tbl -> topic_ok config t ->
  run (find_existing id (uri_hash uri) uri t) w =
    (Done (match holds tbl uri t with Some t => Some (Ok (mkTopic t id)) | None => None end), w).
Proof.
  intros Ht Hok. specialize (Ht t Hok). unfold find_existing, holds. run_simpl.
  destruct (tbl t) as [| |u ts]; cbn [entry_repr] in Ht.
  - by rewrite Ht.
  - by rewrite Ht.
  - pose proof Ht as (-> & _). rewrite Z.eqb_refl, run_bind, (entry_matches_run w t uri u ts Ht).
    cbn [run]. by destruct (decide (u = uri)); [rewrite bool_decide_true|rewrite bool_decide_false].
Qed.

Lemma subscribe_entry_miss (w : cworld) tbl r uri t :
  table_repr config (w_mem w) tbl -> topic_ok config t -> holds tbl uri t = None ->
  run (subscribe_entry r (uri_hash uri) uri t) w = (Done None, w).
Proof.
  intros Ht Hok Hm. specialize (Ht t Hok). unfold subscribe_entry, holds in *. run_simpl.
  destruct (tbl t) as [| |u ts]; cbn [entry_repr] in Ht.
  - by rewrite Ht.
  - by rewrite Ht.
  - pose proof Ht as (-> & _). rewrite Z.eqb_refl. cbn [negb].
    rewrite run_bind, (entry_matches_run w t uri u ts Ht).
    destruct (decide (u = uri)); [done|]. by rewrite bool_decide_false.
Qed.

(** The stream a subscription returns. *)
Definition new_stream (r : Region) (m : cellmem cell) (t : Z) : Stream :=
  {| st_region := r; st_topic_idx := t; st_last_seq := m (TEWriteSeq t);
     st_type_size := m (TETypeSize t) |}.

Lemma subscribe_entry_hit (w : cworld) tbl r uri t :
  table_repr config (w_mem w) tbl -> topic_ok config t -> holds tbl uri t = Some t ->
  run (subscribe_entry r (uri_hash uri) uri t) w =
    (Done (Some (Ok (new_stream r (w_mem w) t))),
     set_mem w (upd (w_mem w) (TESubscriberCount t) (wrap32 (w_mem w (TESubscriberCount t) + 1)))).
Proof.
  intros Ht Hok Hm. specialize (Ht t Hok). unfold subscribe_entry, holds in *. run_simpl.
  destruct (tbl t) as [| |u ts]; cbn [entry_repr] in Ht; try done.
  pose proof Ht as (-> & _). rewrite Z.eqb_refl. cbn [negb].
  rewrite run_bind, (entry_matches_run w t uri u ts Ht).
  destruct (decide (u = uri)); [|done]. rewrite bool_decide_true by done. cbn [negb]. by run_simpl.
Qed.

Lemma subscribe_scan (w : cworld) tbl r uri l :
  table_repr config (w_mem w) tbl -> (forall t, t ∈ l -> topic_ok config t) ->
  run (for_return l (subscribe_entry r (uri_hash uri) uri) (Ret (Err (TopicNotFound uri)))) w =
    match first (holds tbl uri) l with
    | Some t => (Done (Ok (new_stream r (w_mem w) t)),
        set_mem w (upd (w_mem w) (TESubscriberCount t) (wrap32 (w_mem w (TESubscriberCount t) + 1))))
    | None => (Done (Err (TopicNotFound uri)), w)
    end.
Proof.
  intros Ht. induction l as [|t l IH]; intros Hl; cbn [for_return first]; [done|].
  assert (Hok : topic_ok config t) by (apply Hl; set_solver).
  rewrite run_bind. destruct (holds tbl uri t) as [t'|] eqn:Hh.
  - assert (t' = t) as ->.
    { unfold holds in Hh. destruct (tbl t); try done. by case_decide; simplify_eq. }
    by rewrite (subscribe_entry_hit w tbl r uri t Ht Hok Hh).
  - rewrite (subscribe_entry_miss w tbl r uri t Ht Hok Hh). apply IH. set_solver.
Qed.

(** ** Claiming an entry *)

Lemma store_uri_run (w : cworld) t i uri :
  exists m', run (store_uri t i uri) w = (Done tt, set_mem w m') /\
    (forall k x, uri !! k = Some x -> m' (TEUri t (i + Z.of_nat k)) = x) /\
    (forall c, (forall j, i <= j -> c <> TEUri t j) -> m' c = w_mem w c).
Proof.
  revert i w. induction uri as [|v uri IH]; intros i w; cbn [store_uri].
  - exists (w_mem w). cbn. split; [by destruct w|]. split; [set_solver|done].
  - cbn [bind store run mstore cellmem_memory].
    destruct (IH (i + 1) (set_mem w (upd (w_mem w) (TEUri t i) v))) as (m' & Hr & H1 & H2).
    exists m'. split; [exact Hr|]. split.
    + intros [|k] x Hx; cbn in Hx.
      * simplify_eq. rewrite Z.add_0_r, H2; [cbn; by rewrite upd_eq|]. intros j Hj [=]. lia.
      * replace (i + Z.of_nat (S k)) with (i + 1 + Z.of_nat k) by lia. by apply H1.
    + intros c Hc. rewrite H2; [cbn; rewrite upd_ne; [done|]|intros j Hj; apply Hc; lia].
      intros <-. by apply (Hc i).
Qed.

(** The cells of topic entry [t]. *)
Definition entry_cell (t : Z) (c : cell) : bool :=
  match c with
  | TEActive t' | TEUriHash t' | TEUriLen t' | TEUri t' _ | TEWriteSeq t' | TETypeSize t' => t =? t'
  | _ => false
  end.

Lemma claim_topic_taken (w : cworld) id type_size uri t :
  w_mem w (TEActive t) <> TE_STATE_FREE ->
  run (claim_topic id (uri_hash uri) type_size uri t) w = (Done None, w).
Proof.
  intros Hm. unfold claim_topic. run_simpl. apply Z.eqb_neq in Hm. rewrite Hm. by run_simpl.
Qed.

Lemma claim_topic_free (w : cworld) id type_size uri t :
  w_mem w (TEActive t) = TE_STATE_FREE -> blen uri <= TE_URI_MAX ->
  exists m', run (claim_topic id (uri_hash uri) type_size uri t) w =
      (Done (Some (Ok (mkTopic t id))), set_mem w m') /\
    entry_repr m' t (Active uri type_size) /\ m' (TEWriteSeq t) = 0 /\
    (forall c, entry_cell t c = false -> m' c = w_mem w c).
Proof.
  intros Hm Hlen. unfold claim_topic. run_simpl. rewrite Hm, Z.eqb_refl. cbn [negb]. run_simpl.
  rewrite run_bind. set (w1 := set_mem _ _).
  destruct (store_uri_run w1 t 0 uri) as (m1 & -> & H1 & H2). run_simpl.
  eexists. split; [done|].
  assert (H0 : 0 <= blen uri) by (unfold blen; lia).
  assert (Hw : wrap32 (blen uri) = blen uri)
    by (apply wrap32_small; unfold TE_URI_MAX in Hlen; lia).
  split; [|split].
  - split; [by rewrite upd_eq|]. split; [|split; [|split; [done|split]]].
    + rewrite !upd_ne, H2 by done. unfold w1. cbn. by rewrite upd_ne, upd_eq by done.
    + rewrite !upd_ne, H2 by done. unfold w1. cbn. by rewrite upd_eq.
    + intros i x Hx. rewrite !upd_ne by done. by apply (H1 i).
    + rewrite upd_ne by done. by rewrite upd_eq.
  - rewrite !upd_ne by done. by rewrite upd_eq.
  - intros c Hc. rewrite !upd_ne by (intros <-; cbn in Hc; lia). rewrite H2.
    + unfold w1. cbn. rewrite !upd_ne by (intros <-; cbn in Hc; lia). done.
    + intros j _ ->. cbn in Hc. lia.
Qed.

Lemma entry_repr_frame m m' t e :
  (forall c, entry_cell t c = true -> m' c = m c) -> entry_repr m t e -> entry_repr m' t e.
Proof.
  assert (Ht : (t =? t) = true) by lia.
  intros Hf. destruct e as [| |u ts]; cbn; rewrite ?Hf by done; try done.
  intros (A & B & C & D & E & F). repeat split; try done.
  intros i x Hx. rewrite Hf by done. by apply E.
Qed.

Lemma table_repr_set m m' tbl t e :
  table_repr config m tbl -> entry_repr m' t e ->
  (forall c, entry_cell t c = false -> m' c = m c) -> table_repr config m' (set tbl t e).
Proof.
  intros Ht He Hf t' Hok. unfold set. case_decide as Hd; [by subst t'|].
  eapply entry_repr_frame; [|by apply Ht]. intros c Hc. apply Hf.
  destruct c; cbn in *; lia.
Qed.

Lemma claim_scan (w : cworld) tbl id type_size uri l :
  table_repr config (w_mem w) tbl -> (forall t, t ∈ l -> topic_ok config t) ->
  blen uri <= TE_URI_MAX ->
  match first (free tbl) l with
  | Some t =>
      exists m', run (for_return l (claim_topic id (uri_hash uri) type_size uri)
                        (Ret (Err MaxTopicsReached))) w = (Done (Ok (mkTopic t id)), set_mem w m') /\
        table_repr config m' (set tbl t (Active uri type_size)) /\ m' (TEWriteSeq t) = 0 /\
        (forall c, entry_cell t c = false -> m' c = w_mem w c)
  | None => run (for_return l (claim_topic id (uri_hash uri) type_size uri)
                   (Ret (Err MaxTopicsReached))) w = (Done (Err MaxTopicsReached), w)
  end.
Proof.
  intros Ht Hl Hlen. induction l as [|t l IH]; cbn [first for_return]; [done|].
  assert (Hok : topic_ok config t) by (apply Hl; set_solver). specialize (Ht t Hok) as He.
  rewrite run_bind. unfold free at 1. destruct (tbl t) as [| |u ts] eqn:Htb; cbn [entry_repr] in He.
  - destruct (claim_topic_free w id type_size uri t He Hlen) as (m' & -> & H1 & H2 & H3).
    exists m'. split; [done|]. split; [by eapply table_repr_set|done].
  - rewrite claim_topic_taken by (by rewrite He). apply IH. set_solver.
  - destruct He as [He _]. rewrite claim_topic_taken by (by rewrite He). apply IH. set_solver.
Qed.

End Table.

Lemma topics_range config t : t ∈ seqZ 0 (max_topics config) -> topic_ok config t.
Proof. by intros H%elem_of_seqZ_0. Qed.

(** [register_inner], with what it leaves alone. *)
Lemma topic_register_run p uri type_size tbl (w : cworld) :
  let config := rg_config (pb_region p) in
  table_repr config (w_mem w) tbl -> blen uri <= TE_URI_MAX ->
  match TopicSpec.register (max_topics config) tbl uri type_size with
  | Some (t, tbl') =>
      exists m', run (register_inner p uri type_size) w =
          (Done (Ok (mkTopic t (pb_id p))), set_mem w m') /\
        table_repr config m' tbl' /\ topic_ok config t /\
        (m' = w_mem w \/ m' (TEWriteSeq t) = 0) /\ forall c, entry_cell t c = false -> m' c = w_mem w c
  | None => run (register_inner p uri type_size) w = (Done (Err MaxTopicsReached), w)
  end.
Proof.
  intros config Ht Hlen. unfold register_inner. replace (TE_URI_MAX <? blen uri) with false by lia.
  unfold TopicSpec.register, find. fold config.
  rewrite (run_for_return (fun t => match holds tbl uri t with
             | Some t => Some (Ok (mkTopic t (pb_id p))) | None => None end)).
  2:{ intros t Hin. eapply find_existing_run; [done|by apply topics_range]. }
  assert (Hff : forall l, first (fun t => match holds tbl uri t with
      | Some t => Some (Ok (E := Error) (mkTopic t (pb_id p))) | None => None end) l =
    match first (holds tbl uri) l with Some t => Some (Ok (mkTopic t (pb_id p))) | None => None end).
  { induction l as [|x l IH]; cbn; [done|]. by destruct (holds tbl uri x). }
  rewrite Hff. destruct (first (holds tbl uri) _) as [t|] eqn:Hf.
  - exists (w_mem w). split; [by destruct w|]. split; [done|].
    apply first_some in Hf as (x & Hx & Hh). apply topics_range in Hx.
    unfold holds in Hh. destruct (tbl x); try done. case_decide; simplify_eq. by split; [|split; [left|]].
  - pose proof (claim_scan config w tbl (pb_id p) type_size uri (seqZ 0 (max_topics config)) Ht
      (topics_range config) Hlen) as Hc.
    destruct (first (free tbl) _) as [t|] eqn:Hfr; [|done].
    destruct Hc as (m' & Hr & H1 & H2 & H3). exists m'. split; [done|]. split; [done|].
    apply first_some in Hfr as (x & Hx & Hh). apply topics_range in Hx.
    unfold free in Hh. destruct (tbl x); simplify_eq. by split; [|split; [right|]].
Qed.

Lemma subscribe_run r uri tbl (w : cworld) :
  table_repr (rg_config r) (w_mem w) tbl ->
  run (subscribe r uri) w =
    match find (max_topics (rg_config r)) tbl uri with
    | Some t => (Done (Ok (new_stream r (w_mem w) t)),
        set_mem w (upd (w_mem w) (TESubscriberCount t) (wrap32 (w_mem w (TESubscriberCount t) + 1))))
    | None => (Done (Err (TopicNotFound uri)), w)
    end.
Proof.
  intros Ht. unfold subscribe, find. apply (subscribe_scan (rg_config r)); [done|].
  apply topics_range.
Qed.

(** C21. The topic table refines its abstract specification. [register_inner] of a
    URI of at most 64 bytes returns exactly the entry [TopicSpec.register] returns
    (the URI's entry if it is active, otherwise the first free one, otherwise
    [MaxTopicsReached]) and leaves the table it specifies; longer URIs are rejected
    without touching memory. [subscribe] returns a stream on the first active entry
    with that URI, positioned at the topic's current sequence number and with its type
    size, and counts the subscriber; without such an entry it fails with
    [TopicNotFound] and changes nothing. Two URIs with the same hash are never
    confused. *)
Theorem topic_table_refines p r uri type_size tbl (w : cworld) :
  let config := rg_config (pb_region p) in
  rg_config r = config -> table_repr config (w_mem w) tbl ->
  (if TE_URI_MAX <? blen uri
   then run (register_inner p uri type_size) w = (Done (Err (UriTooLong (blen uri) TE_URI_MAX)), w)
   else match TopicSpec.register (max_topics config) tbl uri type_size with
        | Some (t, tbl') =>
            exists m', run (register_inner p uri type_size) w =
                (Done (Ok (mkTopic t (pb_id p))), set_mem w m') /\
              table_repr config m' tbl' /\ topic_ok config t
        | None => run (register_inner p uri type_size) w = (Done (Err MaxTopicsReached), w)
        end) /\
  run (subscribe r uri) w =
    match find (max_topics config) tbl uri with
    | Some t => (Done (Ok (new_stream r (w_mem w) t)),
        set_mem w (upd (w_mem w) (TESubscriberCount t) (wrap32 (w_mem w (TESubscriberCount t) + 1))))
    | None => (Done (Err (TopicNotFound uri)), w)
    end.
Proof.
  intros config Hr Ht. split; [|rewrite <- Hr in *; by apply subscribe_run].
  destruct (Z.ltb_spec TE_URI_MAX (blen uri)) as [Hlen|Hlen].
  - unfold register_inner. by replace (TE_URI_MAX <? blen uri) with true by lia.
  - pose proof (topic_register_run p uri type_size tbl w Ht Hlen) as H. fold config in H.
    destruct (TopicSpec.register _ _ _ _) as [[t tbl']|]; [|exact H].
    destruct H as (m' & H1 & H2 & H3 & _). by exists m'.
Qed.

(** An empty table with two entries. *)
Definition demo_publisher : Publisher :=
  new_publisher {| rg_base := 4096; rg_config := config_small; rg_pool_offset := 0; rg_handle := 0 |}
    [112] true 42 0.
Definition demo_world : cworld := mkWorld (fun _ => 0) None 0 [].

(** The same table with a topic registered. *)
Definition demo_mem : cellmem cell := w_mem (run (register_inner demo_publisher [116] 0) demo_world).2.
Definition demo_table : table := set (fun _ => Free) 0 (Active [116] 0).

Lemma demo_repr : table_repr config_small demo_mem demo_table.
Proof.
  intros t [H1 H2]. cbn in H2. assert (t = 0 \/ t = 1) as [-> | ->] by lia.
  - vm_compute. repeat split; try congruence. intros [|[|i]] x Hx; vm_compute in Hx; congruence.
  - reflexivity.
Defined.

Lemma topic_table_refines_witness :
  (exists m', run (register_inner demo_publisher [116] 0) demo_world =
      (Done (Ok (mkTopic 0 42)), set_mem demo_world m') /\
    table_repr config_small m' demo_table /\ topic_ok config_small 0) /\
  run (subscribe (pb_region demo_publisher) [116]) (mkWorld demo_mem None 0 []) =
    (Done (Ok (new_stream (pb_region demo_publisher) demo_mem 0)),
     mkWorld (upd demo_mem (TESubscriberCount 0) 1) None 0 []).
Proof.
  split.
  - exact (proj1 (topic_table_refines demo_publisher (pb_region demo_publisher) [116] 0 (fun _ => Free)
      demo_world eq_refl (fun _ _ => eq_refl))).
  - rewrite (proj2 (topic_table_refines demo_publisher (pb_region demo_publisher) [116] 0 demo_table
      (mkWorld demo_mem None 0 []) eq_refl demo_repr)). reflexivity.
Defined.
