(* ===== verification/Registration.v ===== *)
(** * Registration: the topic table under every interleaving
    (src/src/platform/shm.rs)

    Any number of publishers register topics and any number of subscribers look them
    up, interleaved access by access. The ghost state is the abstract table of
    [Topics] and, for every entry claimed since the start, the thread that claimed
    it. The table keeps what it has, holds only whole URIs that were asked for, and
    answers agree with it. A URI occupies two entries only if two threads were asked
    to register it and their calls overlapped: a call that starts when the URI is in
    the table never adds it again. For that the ghost state also remembers the table
    of one moment of the past and the threads that were between two calls then. *)

From S2P Require Import Prelude Errors Layout Atomics Rely ShmBytes Pool Ring Wait Subscription Loan.
From S2P Require Import Publisher Topics.
Import TopicSpec.

(** ** Clients *)

Inductive topic_client : Type :=
| Registrar (p : Publisher) (reqs : list (bytes * Z))
| Finder (r : Region) (uris : list bytes).

Inductive topic_out : Type :=
| Registered (answers : list (bytes * Z * result Topic Error))
| Found (answers : list (bytes * result Stream Error)).

Fixpoint register_all (p : Publisher) (reqs : list (bytes * Z))
    (acc : list (bytes * Z * result Topic Error)) : prog cell topic_out :=
  match reqs with
  | [] => Ret (Registered acc)
  | (uri, type_size) :: reqs' =>
      let* r := register_inner p uri type_size in
      register_all p reqs' (acc ++ [(uri, type_size, r)])
  end.

Fixpoint subscribe_all (r : Region) (uris : list bytes) (acc : list (bytes * result Stream Error))
    : prog cell topic_out :=
  match uris with
  | [] => Ret (Found acc)
  | uri :: uris' =>
      let* s := subscribe r uri in
      subscribe_all r uris' (acc ++ [(uri, s)])
  end.

Definition topic_prog (c : topic_client) : prog cell topic_out :=
  match c with
  | Registrar p reqs => register_all p reqs []
  | Finder r uris => subscribe_all r uris []
  end.

Definition client_config (c : topic_client) : Config :=
  match c with Registrar p _ => rg_config (pb_region p) | Finder r _ => rg_config r end.

(** Thread [n] is asked to register [uri]. *)
Definition requests (clients : list topic_client) (n : nat) (uri : bytes) (type_size : Z) : Prop :=
  exists p reqs, clients !! n = Some (Registrar p reqs) /\ (uri, type_size) ∈ reqs.

(** Thread [n] has returned from some of its registrations, with the answers [acc], and
    has not started the next one. *)
Definition between_calls (clients : list topic_client) (ps : list (prog cell topic_out)) (n : nat) : Prop :=
  exists p acc rest, clients !! n = Some (Registrar p (acc.*1 ++ rest)) /\
    ps !! n = Some (register_all p rest acc).

(** Entry [t] is active and holds [uri]. *)
Definition listed (m : cellmem cell) (t : Z) (uri : bytes) : Prop :=
  exists type_size, entry_repr m t (Active uri type_size).

Definition any_window (_ : cell) : option Z := None.

(** ** Answers *)

Section Answers.
Context (config : Config) (tbl0 tbl : table).

(** What registering answers, given the table at the start and the table now. *)
Definition registered (id : Z) (uri : bytes) (r : result Topic Error) : Prop :=
  if TE_URI_MAX <? blen uri then r = Err (UriTooLong (blen uri) TE_URI_MAX)
  else match find (max_topics config) tbl0 uri with
       | Some t => r = Ok (mkTopic t id)
       | None =>
           match r with
           | Ok tp => tp_publisher_id tp = id /\ topic_ok config (tp_topic_idx tp) /\
               exists ts, tbl (tp_topic_idx tp) = Active uri ts
           | Err e => e = MaxTopicsReached /\ forall t, topic_ok config t -> tbl t <> Free
           end
       end.

(** What subscribing answers. *)
Definition found (r : Region) (uri : bytes) (s : result Stream Error) : Prop :=
  match s with
  | Ok st => st_region st = r /\ topic_ok config (st_topic_idx st) /\
      tbl (st_topic_idx st) = Active uri (st_type_size st) /\
      forall t, find (max_topics config) tbl0 uri = Some t -> st_topic_idx st = t
  | Err e => e = TopicNotFound uri /\ find (max_topics config) tbl0 uri = None
  end.

Definition answered (c : topic_client) (o : topic_out) : Prop :=
  match c, o with
  | Registrar p reqs, Registered l =>
      l.*1 = reqs /\ Forall (fun '(uri, _, r) => registered (pb_id p) uri r) l
  | Finder r uris, Found l => l.*1 = uris /\ Forall (fun '(uri, s) => found r uri s) l
  | _, _ => False
  end.

End Answers.

(** ** Invariant *)

(** The table; the thread that claimed each entry since the start; the table at some
    moment of the past and the threads that were between two calls then. *)
Definition reg_ghost : Type := table * (Z -> option nat) * (table * (nat -> bool)).
Definition reg_state : Type := reg_ghost * hstate cell.
Definition rmem (σ : reg_state) : cellmem cell := hs_mem σ.2.
Definition rtbl (σ : reg_state) : table := σ.1.1.1.
Definition rby (σ : reg_state) : Z -> option nat := σ.1.1.2.
Definition rpast (σ : reg_state) : table := σ.1.2.1.
Definition rlate (σ : reg_state) (n : nat) : bool := σ.1.2.2 n.

Section Registration.
Context (config : Config) (tbl0 : table) (req : nat -> bytes -> Z -> Prop).
Local Abbreviation lookup0 := (find (max_topics config) tbl0).

(** Thread [n], if between two calls at the remembered moment, may add [uri]. *)
Definition addable (n : nat) (uri : bytes) (σ : reg_state) : Prop :=
  rlate σ n = true -> find (max_topics config) (rpast σ) uri = None.

Record TInv (σ : reg_state) : Prop := {
  ti_repr : table_repr config (rmem σ) (rtbl σ);
  ti_init : forall t, rby σ t = None -> rtbl σ t = tbl0 t;
  ti_by : forall t n, rby σ t = Some n ->
    topic_ok config t /\ tbl0 t = Free /\
    (rtbl σ t = Initialising \/
     exists u ts, rtbl σ t = Active u ts /\ req n u ts /\ lookup0 u = None);
  ti_once : forall t t' n u ts ts', rby σ t = Some n -> rby σ t' = Some n ->
    rtbl σ t = Active u ts -> rtbl σ t' = Active u ts' -> t = t';
  ti_past : forall t u ts, rpast σ t = Active u ts -> rtbl σ t = Active u ts;
  ti_late : forall t n u ts, rby σ t = Some n -> rtbl σ t = Active u ts ->
    rpast σ t = Active u ts \/ addable n u σ
}.

Record TRely (n : nat) (σ σ' : reg_state) : Prop := {
  tr_active : forall t u ts, rtbl σ t = Active u ts -> rtbl σ' t = Active u ts;
  tr_taken : forall t, rtbl σ t <> Free -> rtbl σ' t <> Free;
  tr_by : forall t, rby σ' t = Some n <-> rby σ t = Some n;
  tr_mine : forall t, rby σ t = Some n -> rtbl σ' t = rtbl σ t;
  tr_cells : forall t c, rby σ t = Some n -> rtbl σ t = Initialising ->
    entry_cell t c = true -> rmem σ' c = rmem σ c;
  tr_late : rlate σ' n = rlate σ n;
  tr_past : rlate σ n = true -> rpast σ' = rpast σ
}.

Definition TGuar (n : nat) (σ σ' : reg_state) : Prop :=
  σ'.1.2 = σ.1.2 /\ forall n', n' <> n -> TRely n' σ σ'.

#[export] Instance TRely_pre n : PreOrder (TRely n).
Proof.
  split.
  - by intros σ; split.
  - intros σ1 σ2 σ3 [A1 A2 A3 A4 A5 A6 A7] [B1 B2 B3 B4 B5 B6 B7]. split; [by eauto..| | | |congruence|].
    + intros t. by rewrite B3.
    + intros t Ht. rewrite B4 by (by apply A3). by apply A4.
    + intros t c Ht Hi Hc. rewrite (B5 t); [by apply (A5 t)|by apply A3|by rewrite A4|done].
    + intros Hl. rewrite B7 by congruence. by apply A7.
Qed.

Lemma kept_addable n uri : kept TRely n (addable n uri).
Proof.
  intros σ σ' H Hr. unfold addable. rewrite (tr_late _ _ _ Hr). intros Hl. rewrite (tr_past _ _ _ Hr Hl).
  by apply H.
Qed.

Lemma TGuar_TRely n n' σ σ' : n <> n' -> TGuar n σ σ' -> TRely n' σ σ'.
Proof. intros Hne Hg. by apply Hg. Qed.

Local Abbreviation tri := (hoare any_window TInv TRely TGuar).
Local Abbreviation kept := (kept TRely).

(** A step that changes neither the ghost state nor an entry. *)
Lemma idle_moves n σ s' (P : reg_state -> Prop) :
  kept n P -> P σ -> TInv σ -> (forall t c, entry_cell t c = true -> hs_mem s' c = rmem σ c) ->
  moves TInv TGuar n σ s' P.
Proof.
  intros HP Hσ [I1 I2 I3 I4 I5 I6] Hc.
  assert (Hr : forall n', TRely n' σ (σ.1, s')).
  { intros n'. split; try done. intros t c _ _ Ht. by apply (Hc t). }
  exists σ.1. split; [by split|]. split; [|by eapply HP].
  split; try done. intros t Ht. eapply entry_repr_frame; [|by apply I1]. apply Hc.
Qed.

Lemma rtri_load {A} n c (k : Z -> prog cell A) (P : reg_state -> Prop) (φ : Z -> Prop) Q :
  kept n P -> (forall σ, P σ -> TInv σ -> φ (rmem σ c)) ->
  (forall v, φ v -> tri n P (k v) Q) -> tri n P (ALoad c k) Q.
Proof.
  intros HP Hφ Hk. eapply (hoare_load _ _ _ _ n c k P (fun v σ => φ v /\ P σ)); [done| |].
  - intros σ Hσ Hi. apply idle_moves; [|by split; [apply Hφ|]|done|done].
    intros σ1 σ2 [H1 H2] Hr. split; [done|by eapply HP].
  - intros v. apply hoare_pure, Hk.
Qed.

(** ** Reading an entry *)

Definition active_at (t : Z) (u : bytes) (ts : Z) (P : reg_state -> Prop) (σ : reg_state) : Prop :=
  rtbl σ t = Active u ts /\ P σ.

Lemma kept_active n t u ts P : kept n P -> kept n (active_at t u ts P).
Proof. intros HP σ σ' [H1 H2] Hr. split; [by eapply tr_active|by eapply HP]. Qed.

Lemma active_repr t u ts P σ :
  topic_ok config t -> active_at t u ts P σ -> TInv σ -> entry_repr (rmem σ) t (Active u ts).
Proof. intros Ht [H1 _] Hi. pose proof (ti_repr _ Hi t Ht) as He. by rewrite H1 in He. Qed.

Section Entry.
Context (n : nat) (t : Z) (P : reg_state -> Prop).
Hypothesis (Ht : topic_ok config t) (HP : kept n P).

Lemma rtri_load_uri u ts k i l :
  0 <= i -> length l = k -> (forall j x, l !! j = Some x -> u !! (Z.to_nat i + j)%nat = Some x) ->
  tri n (active_at t u ts P) (load_uri t i k) (fun bs σ => bs = l /\ active_at t u ts P σ).
Proof.
  pose proof (kept_active n t u ts P HP) as HA. revert i l.
  induction k as [|k IH]; intros i l Hi Hl Hu; cbn [load_uri].
  - destruct l; [|done]. by apply hoare_ret.
  - destruct l as [|x l]; [done|]. cbn [bind load].
    apply (rtri_load _ _ _ _ (fun v => v = x)); [done| |intros v ->].
    { intros σ Hσ Hi'. destruct (active_repr _ _ _ _ _ Ht Hσ Hi') as (_ & _ & _ & _ & Hb & _).
      replace i with (Z.of_nat (Z.to_nat i + 0)) by lia. apply Hb. by apply (Hu 0%nat). }
    eapply hoare_bind; [apply _|apply (IH (i + 1) l)|]; [lia|by injection Hl| |].
    + intros j y Hy. replace (Z.to_nat (i + 1) + j)%nat with (Z.to_nat i + S j)%nat by lia. by apply Hu.
    + intros bs. apply hoare_pure. intros ->. by apply hoare_ret.
Qed.

Lemma rtri_matches u ts uri :
  tri n (active_at t u ts P) (entry_matches t (uri_hash uri) uri)
    (fun b σ => b = bool_decide (u = uri) /\ active_at t u ts P σ).
Proof.
  pose proof (kept_active n t u ts P HP) as HA. unfold entry_matches. cbn [bind load].
  apply (rtri_load _ _ _ _ (fun v => v = uri_hash u)); [done| |intros v ->].
  { intros σ Hσ Hi. by destruct (active_repr _ _ _ _ _ Ht Hσ Hi) as (_ & Hh & _). }
  destruct (Z.eqb_spec (uri_hash u) (uri_hash uri)) as [He|He]; cbn [negb].
  2:{ apply hoare_ret; [done|]. intros σ Hσ _. split; [|done]. rewrite bool_decide_false; [done|congruence]. }
  apply (rtri_load _ _ _ _ (fun v => v = blen u)); [done| |intros v ->].
  { intros σ Hσ Hi. by destruct (active_repr _ _ _ _ _ Ht Hσ Hi) as (_ & _ & Hl & _). }
  destruct (Z.eqb_spec (blen u) (blen uri)) as [Hl|Hl]; cbn [negb].
  2:{ apply hoare_ret; [done|]. intros σ Hσ _. split; [|done]. rewrite bool_decide_false; [done|congruence]. }
  eapply hoare_bind; [apply _|apply (rtri_load_uri u ts _ 0 u); [lia|unfold blen; lia|done]|].
  intros bs. apply hoare_pure. intros ->. by apply hoare_ret.
Qed.

End Entry.

(** An entry that is active now was active at the start, or nobody had its URI then. *)
Lemma active_origin σ t u ts :
  TInv σ -> rtbl σ t = Active u ts -> tbl0 t = Active u ts \/ lookup0 u = None.
Proof.
  intros Hi Ha. destruct (rby σ t) as [n|] eqn:Hb.
  - destruct (ti_by _ Hi t n Hb) as (_ & _ & [H|(u' & ts' & H & _ & Hf)]); rewrite Ha in H; [done|].
    injection H as <- <-. by right.
  - left. by rewrite <- (ti_init _ Hi t Hb).
Qed.

Lemma start_active σ t u ts : TInv σ -> tbl0 t = Active u ts -> rtbl σ t = Active u ts.
Proof.
  intros Hi Ha. destruct (rby σ t) as [n|] eqn:Hb; [|by rewrite (ti_init _ Hi t Hb)].
  destruct (ti_by _ Hi t n Hb) as (_ & Hf & _). by rewrite Hf in Ha.
Qed.

Lemma holds_none tbl uri t : holds tbl uri t = None <-> forall ts, tbl t <> Active uri ts.
Proof.
  unfold holds. destruct (tbl t) as [| |u ts] eqn:E; [by split..|]. case_decide as Hd; split; try done.
  - intros H. destruct (H ts). by subst.
  - intros _ ts'. congruence.
Qed.

Lemma holds_some tbl uri t ts : tbl t = Active uri ts -> holds tbl uri t = Some t.
Proof. unfold holds. intros ->. by rewrite decide_True. Qed.

(** A scan that missed the entries before [t] and matched there. *)
Lemma table_scan_hit pre t post uri σ ts :
  TInv σ -> seqZ 0 (max_topics config) = pre ++ t :: post ->
  (forall x, x ∈ pre -> holds tbl0 uri x = None) -> rtbl σ t = Active uri ts ->
  lookup0 uri = None \/ lookup0 uri = Some t.
Proof.
  intros Hi Hl Hpre Ha. destruct (active_origin σ t uri ts Hi Ha) as [H0|]; [right|by left].
  unfold find. rewrite Hl. clear Hl. induction pre as [|x pre IH]; cbn [app first].
  - by rewrite (holds_some tbl0 uri t ts H0).
  - rewrite Hpre by set_solver. apply IH. set_solver.
Qed.

Lemma table_scan_miss tbl uri :
  (forall x, x ∈ seqZ 0 (max_topics config) -> holds tbl uri x = None) ->
  find (max_topics config) tbl uri = None.
Proof.
  intros H. unfold find. destruct (first _ _) as [b|] eqn:E; [|done].
  apply first_some in E as (x & Hx & Hh). by rewrite H in Hh.
Qed.

(** ** Looking for the URI *)

Section Scan.
Context (n : nat) (uri : bytes) (P : reg_state -> Prop).
Hypothesis (HP : kept n P).

(** The thread's own entries among [l] do not hold [uri], nor did any at the start or,
    if the thread began its call later, at the remembered moment. *)
Definition missed (l : list Z) (σ : reg_state) : Prop :=
  (forall x, x ∈ l -> holds tbl0 uri x = None) /\
  (forall x ts, x ∈ l -> rby σ x = Some n -> rtbl σ x <> Active uri ts) /\
  (rlate σ n = true -> forall x, x ∈ l -> holds (rpast σ) uri x = None) /\ P σ.

Lemma kept_missed l : kept n (missed l).
Proof.
  intros σ σ' (H1 & H2 & H3 & H4) Hr. split; [done|]. split; [|split; [|by eapply HP]].
  - intros x ts Hx Hb%(tr_by _ _ _ Hr). rewrite (tr_mine _ _ _ Hr x Hb). by apply H2.
  - rewrite (tr_late _ _ _ Hr). intros Hl. rewrite (tr_past _ _ _ Hr Hl). by apply H3.
Qed.

Lemma missed_snoc l t σ :
  TInv σ -> missed l σ -> (forall ts, rtbl σ t <> Active uri ts) -> missed (l ++ [t]) σ.
Proof.
  intros Hi (H1 & H2 & H3 & H4) Ht.
  assert (Hx : forall x, x ∈ l ++ [t] -> x ∈ l \/ x = t) by set_solver. split; [|split; [|split; [|done]]].
  - intros x [?| ->]%Hx; [by apply H1|]. apply holds_none. intros ts Ha. by apply (Ht ts), start_active.
  - intros x ts [?| ->]%Hx; [by apply H2|done].
  - intros Hl x [?| ->]%Hx; [by apply H3|]. apply holds_none. intros ts Ha. by apply (Ht ts), ti_past.
Qed.

(** The state word of an entry decides whether it is active. *)
Lemma rtri_active {A} l t (k : Z -> prog cell A) (Q : A -> reg_state -> Prop) :
  topic_ok config t ->
  (forall v, v <> TE_STATE_ACTIVE -> tri n (missed (l ++ [t])) (k v) Q) ->
  (forall u ts, tri n (active_at t u ts (missed l)) (k TE_STATE_ACTIVE) Q) ->
  tri n (missed l) (ALoad (TEActive t) k) Q.
Proof.
  intros Ht Hno Hyes.
  eapply (hoare_load _ _ _ _ n _ k (missed l) (fun v σ =>
    (v <> TE_STATE_ACTIVE /\ missed (l ++ [t]) σ) \/
    (v = TE_STATE_ACTIVE /\ exists u ts, active_at t u ts (missed l) σ))).
  - apply kept_missed.
  - intros σ Hσ Hi. pose proof (ti_repr _ Hi t Ht) as He. fold (rmem σ).
    destruct (rtbl σ t) as [| |u ts] eqn:Et; cbn [entry_repr] in He.
    1,2: rewrite He; apply idle_moves; [|left; split; [done|apply missed_snoc; [done|done|by rewrite Et]]|done|done];
         intros σ1 σ2 [[H1 H2]|[H1 _]] Hr; [left; split; [done|by eapply kept_missed]|done].
    destruct He as [-> _]. apply idle_moves; [|right; split; [done|by exists u, ts]|done|done].
    intros σ1 σ2 [[H1 _]|[_ (u' & ts' & H)]] Hr; [done|right]. split; [done|]. exists u', ts'.
    eapply kept_active; [apply kept_missed|done|done].
  - intros v σ [[Hv Hσ]|[-> (u & ts & Hσ)]]; [by apply Hno|by apply (Hyes u ts)].
Qed.

(** The comparison with a URI that differs is a miss. *)
Lemma mismatch l t u ts σ : TInv σ -> u <> uri -> active_at t u ts (missed l) σ -> missed (l ++ [t]) σ.
Proof. intros Hi Hu [Ha Hm]. apply missed_snoc; [done|done|]. rewrite Ha. congruence. Qed.

End Scan.

(** Answers stay right. *)
Lemma kept_registered n id uri r : kept n (fun σ => registered config tbl0 (rtbl σ) id uri r).
Proof.
  intros σ σ' H1 Hr. unfold registered in *.
  destruct (_ <? _); [done|]. destruct (find _ _ _); [done|]. destruct r as [tp|e].
  - destruct H1 as (A & B & ts & C). split; [done|]. split; [done|]. exists ts. by eapply tr_active.
  - destruct H1 as [A B]. split; [done|]. intros t Ht. eapply tr_taken; [done|by apply B].
Qed.

Lemma kept_found n r uri s : kept n (fun σ => found config tbl0 (rtbl σ) r uri s).
Proof.
  intros σ σ' H1 Hr. destruct s as [st|e]; [|done].
  destruct H1 as (A & B & C & D). split; [done|]. split; [done|]. split; [by eapply tr_active|done].
Qed.

Lemma kept_each {X} n (φ : X -> reg_state -> Prop) l :
  (forall x, kept n (φ x)) -> kept n (fun σ => Forall (fun x => φ x σ) l).
Proof. intros Hφ σ σ' H Hr. eapply Forall_impl; [exact H|]. intros x Hx. exact (Hφ x σ σ' Hx Hr). Qed.

(** ** Registering *)

Section Register.
Context (n : nat) (p : Publisher) (uri : bytes) (type_size : Z) (P : reg_state -> Prop).
Hypothesis (HP : forall n', kept n' P) (Hcfg : rg_config (pb_region p) = config).
Hypothesis (Hreq : req n uri type_size) (Hlen : blen uri <= TE_URI_MAX).

Definition reg_post (r : result Topic Error) (σ : reg_state) : Prop :=
  registered config tbl0 (rtbl σ) (pb_id p) uri r /\ P σ.

Lemma kept_reg_post r : kept n (reg_post r).
Proof. apply kept_conj; [apply kept_registered|apply HP]. Qed.

Lemma registered_hit σ t ts :
  topic_ok config t -> rtbl σ t = Active uri ts -> lookup0 uri = None \/ lookup0 uri = Some t ->
  registered config tbl0 (rtbl σ) (pb_id p) uri (Ok (mkTopic t (pb_id p))).
Proof.
  intros Ht Ha Hl. unfold registered. replace (_ <? _) with false by lia.
  destruct Hl as [-> | ->]; [|done]. cbn. eauto.
Qed.

Lemma rtri_find_existing pre t post :
  seqZ 0 (max_topics config) = pre ++ t :: post ->
  tri n (missed n uri P pre) (find_existing (pb_id p) (uri_hash uri) uri t)
    (fun r σ => match r with Some b => reg_post b σ | None => missed n uri P (pre ++ [t]) σ end).
Proof.
  intros Hl. assert (Ht : topic_ok config t) by (apply topics_range; rewrite Hl; set_solver).
  unfold find_existing. cbn [bind load]. apply rtri_active; [apply HP|done|..].
  - intros v Hv. apply Z.eqb_neq in Hv as ->. apply hoare_ret; [apply kept_missed, HP|done].
  - intros u ts. rewrite Z.eqb_refl.
    eapply hoare_bind; [apply _|apply rtri_matches; [done|apply kept_missed, HP]|].
    intros b. apply hoare_pure. intros ->. case_bool_decide as Hu; apply hoare_ret;
      try (apply kept_active; apply kept_missed, HP).
    + subst u. intros σ [Ha Hm] Hi. split; [|by destruct Hm as (_ & _ & _ & ?)].
      apply (registered_hit σ t ts Ht Ha). eapply table_scan_hit; [done|done|by destruct Hm|done].
    + intros σ Hσ Hi. by eapply mismatch.
Qed.

(** An entry the thread has claimed, with the cells [W] written so far. *)
Definition claimed (t : Z) (W : list (cell * Z)) (σ : reg_state) : Prop :=
  rby σ t = Some n /\ rtbl σ t = Initialising /\
  (forall x ts, rby σ x = Some n -> rtbl σ x <> Active uri ts) /\ addable n uri σ /\
  Forall (fun cv => entry_cell t cv.1 = true /\ cv.1 <> TEActive t /\ rmem σ cv.1 = cv.2) W /\ P σ.

Lemma kept_entry_claimed t W : kept n (claimed t W).
Proof.
  intros σ σ' (H1 & H2 & H3 & Ha & H4 & H5) Hr. split; [by apply (tr_by _ _ _ Hr)|].
  split; [by rewrite (tr_mine _ _ _ Hr)|]. split; [|split; [by eapply kept_addable|split; [|by eapply HP]]].
  - intros x ts Hb%(tr_by _ _ _ Hr). rewrite (tr_mine _ _ _ Hr x Hb). by apply H3.
  - eapply Forall_impl; [exact H4|]. intros [c v] (Hc & Hn & Hv). split; [done|]. split; [done|]. cbn in *.
    by rewrite (tr_cells _ _ _ Hr t c).
Qed.

Lemma P_own σ σ' : P σ -> TGuar n σ σ' -> P σ'.
Proof. intros Hσ Hg. apply (HP (S n) σ); [done|]. apply Hg. lia. Qed.

Lemma entry_cell_inj t t' c : entry_cell t c = true -> entry_cell t' c = true -> t = t'.
Proof. destruct c; cbn; lia. Qed.

Definition put (σ : reg_state) (t : Z) (e : entry) : reg_ghost :=
  (set (rtbl σ) t e, fun x => if decide (t = x) then Some n else rby σ x, σ.1.2).

(** A step that writes one cell of an entry and its ghost state; the entry is the
    thread's, or free and becomes the thread's. *)
Lemma entry_guar t e c v σ s' :
  hs_mem s' = upd (rmem σ) c v -> entry_cell t c = true ->
  (forall n', rby σ t = Some n' -> n' = n) -> e <> Free ->
  (forall u ts, rtbl σ t <> Active u ts) -> TGuar n σ (put σ t e, s').
Proof.
  intros Hs Hc Hb He Hna. split; [done|]. intros n' Hn. unfold put, set. split; unfold rtbl, rby; cbn [fst snd]; try done; intros x.
  - intros u ts Ha. case_decide; [|done]. subst. by destruct (Hna u ts).
  - intros Hx. by case_decide.
  - case_decide as Hd; [|done]. subst x. split; [congruence|]. intros H. by destruct Hn; apply Hb.
  - intros Hx. case_decide as Hd; [|done]. subst x. by destruct Hn; apply Hb.
  - intros c' Hx _ Hc'. unfold rmem at 1. cbn [snd]. rewrite Hs. apply upd_ne. intros <-.
    pose proof (entry_cell_inj _ _ _ Hc Hc') as <-. by destruct Hn; apply Hb.
Qed.

Lemma table_repr_step t e c v σ s' :
  hs_mem s' = upd (rmem σ) c v -> entry_cell t c = true -> TInv σ ->
  entry_repr (hs_mem s') t e -> table_repr config (hs_mem s') (set (rtbl σ) t e).
Proof.
  intros Hs Hc Hi He. eapply table_repr_set; [by apply ti_repr|done|].
  intros c' Hc'. rewrite Hs. apply upd_ne. intros <-. by rewrite Hc in Hc'.
Qed.

(** Taking a free entry. *)
Lemma take_entry_moves t σ :
  topic_ok config t -> missed n uri P (seqZ 0 (max_topics config)) σ -> TInv σ ->
  rmem σ (TEActive t) = TE_STATE_FREE ->
  moves TInv TGuar n σ (h_cas (TEActive t) TE_STATE_INIT σ.2) (claimed t []).
Proof.
  intros Ht (M1 & M2 & M4 & M3) Hi Hm. pose proof (ti_repr _ Hi t Ht) as He.
  assert (Hf : rtbl σ t = Free).
  { destruct (rtbl σ t); [done|..]; cbn [entry_repr] in He; [|destruct He as [He _]]; by rewrite He in Hm. }
  assert (Hb : rby σ t = None).
  { destruct (rby σ t) as [n'|] eqn:E; [|done].
    destruct (ti_by _ Hi t n' E) as (_ & _ & [H|(u & ts & H & _)]); by rewrite Hf in H. }
  assert (Hg : TGuar n σ (put σ t Initialising, h_cas (TEActive t) TE_STATE_INIT σ.2)).
  { apply (entry_guar t Initialising (TEActive t) TE_STATE_INIT); try done; [cbn; lia|..].
    - by rewrite Hb.
    - by rewrite Hf. }
  exists (put σ t Initialising). split; [exact Hg|]. unfold put in *. split.
  - split; unfold rtbl, rby, rmem; cbn [fst snd].
    + eapply table_repr_step; [done|cbn; lia|done|]. cbn. by rewrite upd_eq.
    + intros x. unfold set. case_decide; [done|]. apply (ti_init _ Hi).
    + intros x n'. unfold set. case_decide as Hd; [|apply (ti_by _ Hi)]. intros [= <-]. subst x.
      split; [done|]. split; [by rewrite <- (ti_init _ Hi t Hb)|by left].
    + intros x x' n' u ts ts'. unfold set. repeat case_decide; try done. apply (ti_once _ Hi).
    + intros x u ts Hp. unfold set. apply (ti_past _ Hi) in Hp. case_decide; [|done]. subst x. by rewrite Hf in Hp.
    + intros x n' u ts. unfold set. case_decide; [done|]. apply (ti_late _ Hi).
  - unfold claimed, rtbl, rby, set. cbn [fst snd]. rewrite !decide_True by done.
    split; [done|]. split; [done|]. split; [|split; [|split; [done|by eapply P_own]]].
    + intros x ts. case_decide; [done|]. intros Hx. apply M2; [|done].
      apply elem_of_seqZ_0. by destruct (ti_by _ Hi x n Hx) as [? _].
    + intros Hl. by apply table_scan_miss, M4.
Qed.

(** Writing a cell of the claimed entry. *)
Lemma rtri_store_own {A} t c v W (k : prog cell A) Q :
  topic_ok config t -> entry_cell t c = true -> c <> TEActive t -> Forall (fun cv => cv.1 <> c) W ->
  tri n (claimed t ((c, v) :: W)) k Q -> tri n (claimed t W) (AStore c v k) Q.
Proof.
  intros Ht Hc Hna HW Hk. eapply (hoare_store _ _ _ _ n c v k (claimed t W)); [apply kept_entry_claimed| |exact Hk].
  intros σ (H1 & H2 & H3 & Ha & H4 & H5) Hi.
  assert (Hg : TGuar n σ (σ.1, h_set c v σ.2)).
  { split; [done|]. intros n' Hn. split; try done. intros x c' Hx _ Hc'. apply upd_ne. intros <-.
    pose proof (entry_cell_inj _ _ _ Hc Hc') as <-. rewrite H1 in Hx. congruence. }
  exists σ.1. split; [done|]. split.
  - destruct Hi as [I1 I2 I3 I4 I5 I6]. split; try done. intros x Hx. specialize (I1 x Hx).
    destruct (decide (t = x)) as [<-|Hd].
    + unfold rtbl in *. cbn [fst]. rewrite H2 in *. cbn in *. unfold rmem. cbn. by rewrite upd_ne.
    + eapply entry_repr_frame; [|exact I1]. intros c' Hc'. apply upd_ne. intros <-.
      by apply Hd, (entry_cell_inj _ _ _ Hc).
  - do 4 (split; [done|]). split; [|by eapply P_own].
    constructor; [split; [done|]; split; [done|apply upd_eq]|]. apply Forall_forall. intros cv Hin.
    rewrite Forall_forall in HW, H4. destruct (H4 cv Hin) as (E1 & E2 & E3). split; [done|]. split; [done|].
    cbn. rewrite upd_ne; [done|]. intros E. by apply (HW cv Hin).
Qed.

Fixpoint uri_cells (t i : Z) (l : bytes) : list (cell * Z) :=
  match l with
  | [] => []
  | v :: l' => uri_cells t (i + 1) l' ++ [(TEUri t i, v)]
  end.

Lemma uri_cells_in t i l j x : l !! j = Some x -> (TEUri t (i + Z.of_nat j), x) ∈ uri_cells t i l.
Proof.
  revert i j. induction l as [|v l IH]; intros i [|j] Hx; cbn in *; simplify_eq; apply elem_of_app.
  - right. rewrite Z.add_0_r. by constructor.
  - left. replace (i + Z.of_nat (S j)) with (i + 1 + Z.of_nat j) by lia. by apply IH.
Qed.

Lemma uri_cells_ne t i l c : (forall j, TEUri t j <> c) -> Forall (fun cv => cv.1 <> c) (uri_cells t i l).
Proof.
  intros Hc. revert i. induction l as [|v l IH]; intros i; cbn [uri_cells]; [done|].
  apply Forall_app. split; [apply IH|]. apply Forall_singleton, Hc.
Qed.

Lemma rtri_store_uri t W i l :
  topic_ok config t -> Forall (fun cv => forall j, i <= j -> cv.1 <> TEUri t j) W ->
  tri n (claimed t W) (store_uri t i l) (fun _ σ => claimed t (uri_cells t i l ++ W) σ).
Proof.
  intros Ht. revert i W. induction l as [|v l IH]; intros i W HW; cbn [store_uri uri_cells].
  - apply hoare_ret; [apply kept_entry_claimed|done].
  - cbn [bind store]. apply rtri_store_own; [done|cbn; lia|done| |].
    + eapply Forall_impl; [exact HW|]. intros cv Hcv. apply Hcv. lia.
    + eapply hoare_post; [apply IH|by intros [] σ; rewrite <- app_assoc].
      constructor; [intros j Hj [=]; lia|]. eapply Forall_impl; [exact HW|]. intros cv Hcv j Hj. apply Hcv. lia.
Qed.

(** All cells of an entry for [uri]. *)
Definition entry_written (t : Z) : list (cell * Z) :=
  (TETypeSize t, type_size) :: (TEWriteSeq t, 0) ::
  uri_cells t 0 uri ++ [(TEUriLen t, wrap32 (blen uri)); (TEUriHash t, uri_hash uri)].

Lemma entry_written_repr t m :
  Forall (fun cv => m cv.1 = cv.2) (entry_written t) -> m (TEActive t) = TE_STATE_ACTIVE ->
  entry_repr m t (Active uri type_size).
Proof.
  rewrite Forall_forall. intros H Hact.
  assert (Hc : forall c v, (c, v) ∈ entry_written t -> m c = v) by (intros c v Hin; exact (H _ Hin)).
  assert (Hw : wrap32 (blen uri) = blen uri) by (apply wrap32_small; unfold TE_URI_MAX, blen in *; lia).
  split; [done|]. split; [apply Hc; unfold entry_written; set_solver|].
  split; [rewrite <- Hw; apply Hc; unfold entry_written; set_solver|]. split; [done|].
  split; [|apply Hc; unfold entry_written; set_solver].
  intros i x Hx. apply Hc. unfold entry_written. pose proof (uri_cells_in t 0 uri i x Hx) as Hin.
  rewrite Z.add_0_l in Hin. set_solver.
Qed.

(** Publishing the entry. *)
Lemma activate_moves t σ :
  topic_ok config t -> lookup0 uri = None -> claimed t (entry_written t) σ -> TInv σ ->
  moves TInv TGuar n σ (h_set (TEActive t) TE_STATE_ACTIVE σ.2)
    (fun σ' => rtbl σ' t = Active uri type_size /\ P σ').
Proof.
  intros Ht Hl (H1 & H2 & H3 & Hadd & H4 & H5) Hi.
  assert (Hg : TGuar n σ (put σ t (Active uri type_size), h_set (TEActive t) TE_STATE_ACTIVE σ.2)).
  { apply (entry_guar t _ (TEActive t) TE_STATE_ACTIVE); try done; [cbn; lia|congruence|by rewrite H2]. }
  exists (put σ t (Active uri type_size)). split; [exact Hg|]. unfold put in *. split.
  - split; unfold rtbl, rby, rmem; cbn [fst snd].
    + eapply table_repr_step; [done|cbn; lia|done|]. apply entry_written_repr; [|apply upd_eq].
      eapply Forall_impl; [exact H4|]. intros [c v] (Hc & Hn & Hv). cbn in *. by rewrite upd_ne.
    + intros x. unfold set. case_decide; [done|]. apply (ti_init _ Hi).
    + intros x n'. unfold set. case_decide as Hd; [|apply (ti_by _ Hi)]. intros [= <-]. subst x.
      destruct (ti_by _ Hi t n H1) as (_ & Hf & _). split; [done|]. split; [done|]. right. eauto.
    + intros x x' n' u ts ts'. unfold set. repeat case_decide; subst; try done.
      * intros [= <-] Hx' [= <- <-] Ha. by destruct (H3 x' ts').
      * intros Hx [= <-] Ha [= <- <-]. by destruct (H3 x ts).
      * apply (ti_once _ Hi).
    + intros x u ts Hp. unfold set. apply (ti_past _ Hi) in Hp. case_decide; [|done]. subst x. by rewrite H2 in Hp.
    + intros x n' u ts. unfold set. case_decide; [|apply (ti_late _ Hi)]. intros [= <-] [= <- <-]. by right.
  - unfold rtbl, set. cbn [fst]. rewrite decide_True by done. split; [done|by eapply P_own].
Qed.

(** The entries of [l] are taken. *)
Definition full (l : list Z) (σ : reg_state) : Prop :=
  missed n uri P (seqZ 0 (max_topics config)) σ /\ forall x, x ∈ l -> rtbl σ x <> Free.

Lemma kept_full l : kept n (full l).
Proof.
  intros σ σ' [H1 H2] Hr. split; [eapply kept_missed; [apply HP|done|done]|].
  intros x Hx. eapply tr_taken; [done|by apply H2].
Qed.

Lemma rtri_claim_topic pre t :
  topic_ok config t -> lookup0 uri = None ->
  tri n (full pre) (claim_topic (pb_id p) (uri_hash uri) type_size uri t)
    (fun r σ => match r with Some b => reg_post b σ | None => full (pre ++ [t]) σ end).
Proof.
  intros Ht Hl. unfold claim_topic. cbn [bind compare_exchange].
  apply (hoare_cas_fail _ _ _ _ n _ _ _ _ _ _ (claimed t []) (fun _ => full (pre ++ [t]))).
  - apply kept_full.
  - intros σ [Hm _] Hi Hf. by apply take_entry_moves.
  - intros σ [Hm Hfull] Hi [Hne|?]; [|done]. apply idle_moves; [apply kept_full| |done|done]. split; [done|].
    intros x [Hx|Hx]%elem_of_app; [by apply Hfull|]. apply list_elem_of_singleton in Hx as ->.
    intros Hf. pose proof (ti_repr _ Hi t Ht) as He. by rewrite Hf in He.
  - cbn [negb bind store].
    do 2 (apply rtri_store_own; [done|cbn; lia|done|by repeat constructor|]).
    eapply hoare_bind; [apply _|apply rtri_store_uri; [done|by repeat constructor]|].
    intros []. cbn [bind store].
    apply rtri_store_own; [done|cbn; lia|done|..].
    { apply Forall_app. split; [by apply uri_cells_ne|by repeat constructor]. }
    apply rtri_store_own; [done|cbn; lia|done|..].
    { constructor; [done|]. apply Forall_app. split; [by apply uri_cells_ne|by repeat constructor]. }
    eapply (hoare_store _ _ _ _ n _ _ _ (claimed t (entry_written t))); [apply kept_entry_claimed| |].
    { intros σ Hσ Hi. by apply activate_moves. }
    apply hoare_ret.
    + intros σ σ' [H1 H2] Hr. split; [by eapply tr_active|by eapply HP].
    + intros σ [H1 H2] Hi. split; [|done]. apply (registered_hit σ t type_size); auto.
  - intros v. cbn [negb]. apply hoare_ret; [apply kept_full|done].
Qed.

(** [register_inner], interleaved. *)
Lemma rtri_register : tri n P (register_inner p uri type_size) reg_post.
Proof.
  unfold register_inner. replace (TE_URI_MAX <? blen uri) with false by lia. rewrite Hcfg. cbv zeta.
  eapply hoare_pre with (P' := missed n uri P []); [|by intros σ Hσ; split; [|split; [|split]]; [set_solver..|]].
  apply (hoare_for_return _ _ _ _ n _ _ _ (missed n uri P)); [apply rtri_find_existing|apply kept_reg_post|].
  intros σ Hσ. pose proof (table_scan_miss tbl0 uri (proj1 Hσ)) as Hl. revert σ Hσ.
  eapply hoare_pre with (P' := full []); [|by intros σ Hσ; split; [|set_solver]].
  apply (hoare_for_return _ _ _ _ n _ _ _ full); [|apply kept_reg_post|].
  - intros pre t post Hs. apply rtri_claim_topic; [|done]. apply topics_range. rewrite Hs. set_solver.
  - apply hoare_ret; [apply kept_full|]. intros σ [(_ & _ & _ & Hp) Hf] Hi. split; [|done].
    unfold registered. replace (_ <? _) with false by lia. rewrite Hl. split; [done|].
    intros t Ht. apply Hf. by apply elem_of_seqZ_0.
Qed.

End Register.

(** ** Subscribing *)

Section Subscribe.
Context (n : nat) (r : Region) (uri : bytes) (P : reg_state -> Prop).
Hypothesis (HP : forall n', kept n' P) (Hcfg : rg_config r = config).

Definition sub_post (s : result Stream Error) (σ : reg_state) : Prop :=
  found config tbl0 (rtbl σ) r uri s /\ P σ.

Lemma kept_found_post s : kept n (sub_post s).
Proof. apply kept_conj; [apply kept_found|apply HP]. Qed.

Lemma rtri_subscribe_entry pre t post :
  seqZ 0 (max_topics config) = pre ++ t :: post ->
  tri n (missed n uri P pre) (subscribe_entry r (uri_hash uri) uri t)
    (fun o σ => match o with Some s => sub_post s σ | None => missed n uri P (pre ++ [t]) σ end).
Proof.
  intros Hl. assert (Ht : topic_ok config t) by (apply topics_range; rewrite Hl; set_solver).
  assert (HM : forall l, kept n (missed n uri P l)) by (intros l; apply kept_missed, HP).
  unfold subscribe_entry. cbn [bind load]. apply rtri_active; [apply HP|done|..].
  - intros v Hv. apply Z.eqb_neq in Hv as ->. by apply hoare_ret.
  - intros u ts. rewrite Z.eqb_refl. cbn [negb]. pose proof (kept_active n t u ts _ (HM pre)) as HA.
    eapply hoare_bind; [apply _|by apply rtri_matches|].
    intros b. apply hoare_pure. intros ->. case_bool_decide as Hu; cbn [negb].
    2:{ apply hoare_ret; [done|]. intros σ Hσ Hi. by eapply mismatch. }
    subst u. cbn [bind load fetch_add32]. apply (rtri_load _ _ _ _ (fun _ => True)); [done|done|intros current _].
    apply (rtri_load _ _ _ _ (fun v => v = ts)); [done| |intros v ->].
    { intros σ Hσ Hi. by destruct (active_repr _ _ _ _ _ Ht Hσ Hi) as (_ & _ & _ & _ & _ & Hs). }
    eapply (hoare_rmw _ _ _ _ n _ _ _ _ (fun _ => active_at t uri ts (missed n uri P pre))); [done| |].
    + intros σ Hσ Hi. apply idle_moves; [done|done|done|]. intros x c Hc. apply upd_ne. by intros <-.
    + intros v. apply hoare_ret; [done|]. intros σ [Ha Hm] Hi. destruct Hm as (M1 & _ & _ & M3). split; [|done].
      split; [done|]. split; [done|]. split; [done|]. intros t0 H0. cbn.
      destruct (table_scan_hit pre t post uri σ ts Hi Hl M1 Ha) as [E|E]; rewrite E in H0; [done|congruence].
Qed.

Lemma rtri_subscribe : tri n P (subscribe r uri) sub_post.
Proof.
  unfold subscribe. rewrite Hcfg.
  eapply hoare_pre with (P' := missed n uri P []); [|by intros σ Hσ; split; [|split; [|split]]; [set_solver..|]].
  apply (hoare_for_return _ _ _ _ n _ _ _ (missed n uri P)); [apply rtri_subscribe_entry|apply kept_found_post|].
  apply hoare_ret; [apply kept_missed, HP|]. intros σ (H1 & _ & _ & H3) Hi. split; [|done].
  split; [done|by apply table_scan_miss].
Qed.

End Subscribe.

(** ** Threads *)

Lemma rtri_register_all n p reqs acc :
  rg_config (pb_region p) = config -> (forall uri ts, (uri, ts) ∈ reqs -> req n uri ts) ->
  tri n (fun σ => Forall (fun a => registered config tbl0 (rtbl σ) (pb_id p) a.1.1 a.2) acc)
    (register_all p reqs acc)
    (fun o σ => answered config tbl0 (rtbl σ) (Registrar p (acc.*1 ++ reqs)) o).
Proof.
  intros Hcfg. assert (HK : forall n' l, kept n' (fun σ =>
      Forall (fun a : bytes * Z * result Topic Error => registered config tbl0 (rtbl σ) (pb_id p) a.1.1 a.2) l))
    by (intros n' l; apply kept_each; intros a; apply kept_registered).
  revert acc. induction reqs as [|[uri ts] reqs IH]; intros acc Hreq; cbn [register_all].
  - apply hoare_ret; [apply HK|]. intros σ Hσ _. split; [by rewrite app_nil_r|].
    eapply Forall_impl; [exact Hσ|]. by intros [[u ts] r].
  - eapply hoare_bind with (R := reg_post p uri _); [apply _| |].
    + destruct (Z.ltb_spec TE_URI_MAX (blen uri)) as [Hlen|Hlen].
      * unfold register_inner. replace (TE_URI_MAX <? blen uri) with true by lia.
        apply hoare_ret; [apply HK|]. intros σ Hσ _. split; [|exact Hσ].
        unfold registered. by replace (TE_URI_MAX <? blen uri) with true by lia.
      * apply rtri_register; [intros; apply HK|done|apply Hreq; set_solver|done].
    + intros r. eapply hoare_post; [eapply hoare_pre; [apply (IH (acc ++ [(uri, ts, r)])); set_solver|]|].
      * intros σ [H1 H2]. apply Forall_app. split; [done|by apply Forall_singleton].
      * intros o σ. rewrite fmap_app, <- app_assoc. done.
Qed.

Lemma rtri_subscribe_all n r uris acc :
  rg_config r = config ->
  tri n (fun σ => Forall (fun a => found config tbl0 (rtbl σ) r a.1 a.2) acc) (subscribe_all r uris acc)
    (fun o σ => answered config tbl0 (rtbl σ) (Finder r (acc.*1 ++ uris)) o).
Proof.
  intros Hcfg. assert (HK : forall n' l, kept n' (fun σ =>
      Forall (fun a : bytes * result Stream Error => found config tbl0 (rtbl σ) r a.1 a.2) l))
    by (intros n' l; apply kept_each; intros a; apply kept_found).
  revert acc. induction uris as [|uri uris IH]; intros acc; cbn [subscribe_all].
  - apply hoare_ret; [apply HK|]. intros σ Hσ _. split; [by rewrite app_nil_r|].
    eapply Forall_impl; [exact Hσ|]. by intros [u s].
  - eapply hoare_bind; [apply _|apply rtri_subscribe; [intros; apply HK|done]|].
    intros s. eapply hoare_post; [eapply hoare_pre; [apply (IH (acc ++ [(uri, s)]))|]|].
    + intros σ [H1 H2]. apply Forall_app. split; [done|by apply Forall_singleton].
    + intros o σ. rewrite fmap_app, <- app_assoc. done.
Qed.

(** A thread that goes on from between two calls. *)
Lemma rtri_register_rest n p reqs acc :
  rg_config (pb_region p) = config -> (forall uri ts, (uri, ts) ∈ reqs -> req n uri ts) ->
  tri n (fun _ => True) (register_all p reqs acc) (fun _ _ => True).
Proof.
  intros Hcfg. assert (HK : forall n', kept n' (fun _ => True)) by done.
  revert acc. induction reqs as [|[uri ts] reqs IH]; intros acc Hreq; cbn [register_all].
  - by apply hoare_ret.
  - eapply hoare_bind with (R := fun _ _ => True); [apply _| |intros r; apply IH; set_solver].
    destruct (Z.ltb_spec TE_URI_MAX (blen uri)) as [Hlen|Hlen].
    + unfold register_inner. replace (TE_URI_MAX <? blen uri) with true by lia. by apply hoare_ret.
    + eapply hoare_post; [by apply rtri_register; [..|apply Hreq; set_solver|]|done].
Qed.

(** Remembering the present moment, at which thread [n] is between two calls. *)
Definition remember (n : nat) (g : reg_ghost) : reg_ghost := (g.1, (g.1.1, fun x => bool_decide (x = n))).

Lemma remember_inv n g s : TInv (g, s) -> TInv (remember n g, s).
Proof. intros [I1 I2 I3 I4 _ _]. split; try done. intros t n' u ts _ Ha. by left. Qed.

Lemma remember_rely n n' g s : n' <> n -> (forall x, rlate (g, s) x = false) -> TRely n' (g, s) (remember n g, s).
Proof.
  intros Hne Hl. split; try done.
  - rewrite Hl. unfold rlate. cbn. by apply bool_decide_false.
  - by rewrite Hl.
Qed.

(** What a thread adds after it was between two calls was not in the table then. *)
Lemma late_entry n σ σ' t u ts :
  TInv σ -> TInv σ' -> TGuar n σ σ' -> rlate σ n = true -> rtbl σ t <> Active u ts -> rtbl σ' t = Active u ts ->
  find (max_topics config) (rpast σ) u = None.
Proof.
  intros Hi Hi' [Hm Hg] Hl Hno Ha. assert (Hl' : rlate σ' n = true) by (unfold rlate in *; by rewrite Hm).
  assert (Hp : rpast σ' = rpast σ) by (unfold rpast in *; by rewrite Hm).
  destruct (rby σ' t) as [n'|] eqn:Hb.
  - destruct (decide (n' = n)) as [->|Hne].
    + destruct (ti_late _ Hi' t n u ts Hb Ha) as [H|H]; rewrite <- Hp; [|by apply H].
      rewrite Hp in H. by apply (ti_past _ Hi) in H.
    + specialize (Hg n' Hne). apply (tr_by _ _ _ Hg) in Hb. rewrite (tr_mine _ _ _ Hg t Hb) in Ha. done.
  - rewrite (ti_init _ Hi' t Hb) in Ha. by apply (start_active _ _ _ _ Hi) in Ha.
Qed.

(** Two entries with one URI, one of them new, were claimed by different threads. *)
Lemma claimed_twice σ t t' u ts ts' :
  TInv σ -> t <> t' -> rtbl σ t = Active u ts -> rtbl σ t' = Active u ts' ->
  topic_ok config t -> topic_ok config t' ->
  (tbl0 t = Active u ts /\ tbl0 t' = Active u ts') \/
  exists n n', n <> n' /\ req n u ts /\ req n' u ts'.
Proof.
  intros Hi Hne Ha Ha' Ht Ht'.
  assert (Hnew : forall x n ts, rby σ x = Some n -> rtbl σ x = Active u ts -> req n u ts /\ lookup0 u = None).
  { intros x n ts0 Hb Hx. destruct (ti_by _ Hi x n Hb) as (_ & _ & [H|(u' & ts1 & H & Hr & Hl)]); [congruence|].
    rewrite Hx in H. injection H as <- <-. done. }
  assert (Hold : forall x ts, topic_ok config x -> rby σ x = None -> rtbl σ x = Active u ts -> lookup0 u <> None).
  { intros x ts0 Hx Hb Hr. rewrite (ti_init _ Hi x Hb) in Hr. intros Hl.
    destruct (first_exists (holds tbl0 u) (seqZ 0 (max_topics config)) x x) as [b Hb'];
      [by apply elem_of_seqZ_0|by eapply holds_some|]. unfold find in Hl. congruence. }
  destruct (rby σ t) as [n|] eqn:Hb, (rby σ t') as [n'|] eqn:Hb'.
  - right. exists n, n'. split; [|by split; eapply Hnew]. intros <-. apply Hne. by eapply (ti_once _ Hi).
  - destruct (Hold t' ts' Ht' Hb' Ha'). by eapply Hnew.
  - destruct (Hold t ts Ht Hb Ha). by eapply Hnew.
  - left. by rewrite <- (ti_init _ Hi t Hb), <- (ti_init _ Hi t' Hb').
Qed.

End Registration.

#[export] Instance entry_eq_dec : EqDecision entry.
Proof. solve_decision. Defined.

(** What a client's thread ends with, and the ghost state at the start. *)
Definition topic_post (config : Config) (tbl0 : table) (clients : list topic_client) (n : nat) (o : topic_out)
    (σ : reg_state) : Prop :=
  forall c, clients !! n = Some c -> answered config tbl0 (rtbl σ) c o.

Definition start_ghost (tbl0 : table) : reg_ghost := (tbl0, fun _ => None, (tbl0, fun _ => false)).

Section Runs.
Context (config : Config) (tbl0 : table) (clients : list topic_client) (m0 : cellmem cell).
Hypothesis (Hm : table_repr config m0 tbl0) (Hc : forall c, c ∈ clients -> client_config c = config).
Local Abbreviation Inv := (TInv config tbl0 (requests clients)).
Local Abbreviation ok := (pool_ok any_window Inv TRely TGuar).

Lemma clients_verified :
  ok (topic_post config tbl0 clients) (topic_prog <$> clients) (start_ghost tbl0, h_init m0).
Proof.
  split; [split; try done; by left|]. intros n p Hn. apply list_lookup_fmap_Some in Hn as (c & -> & Hcn).
  specialize (Hc c (list_elem_of_lookup_2 _ _ _ Hcn)). unfold topic_post.
  destruct c as [pb reqs|r uris]; cbn [topic_prog client_config] in *.
  - eapply wp_mono; [apply (rtri_register_all config tbl0 (requests clients) n pb reqs []); [done| |done]|].
    + intros uri ts Hin. by exists pb, reqs.
    + intros o σ Ho c' Hc'. rewrite Hcn in Hc'. injection Hc' as <-. exact Ho.
  - eapply wp_mono; [by apply (rtri_subscribe_all config tbl0 (requests clients) n r uris [])|].
    intros o σ Ho c' Hc'. rewrite Hcn in Hc'. injection Hc' as <-. exact Ho.
Qed.

(** The memory determines which entries are active, and for what. *)
Lemma repr_active σ t u ts :
  Inv σ -> topic_ok config t -> entry_repr (rmem σ) t (Active u ts) -> rtbl σ t = Active u ts.
Proof.
  intros Hi Ht (A1 & _ & A3 & _ & A5 & A6). pose proof (ti_repr _ _ _ _ Hi t Ht) as He.
  destruct (rtbl σ t) as [| |u' ts']; cbn [entry_repr] in He; [by rewrite A1 in He..|].
  destruct He as (_ & _ & B3 & _ & B5 & B6). f_equal; [|congruence].
  assert (Hl : length u' = length u) by (unfold blen in *; lia).
  apply list_eq_same_length with (n := length u); [done|done|]. intros i x y Hi' Hx Hy.
  rewrite <- (A5 i y Hy). symmetry. by apply B5.
Qed.

Lemma active_listed σ t u ts : Inv σ -> topic_ok config t -> rtbl σ t = Active u ts -> listed (rmem σ) t u.
Proof. intros Hi Ht Ha. exists ts. rewrite <- Ha. by apply (ti_repr _ _ _ _ Hi). Qed.

(** The guarantees keep the remembered moment. *)
Definition same_past (σ σ' : reg_state) : Prop := σ'.1.2 = σ.1.2.

#[local] Instance same_past_pre : PreOrder same_past.
Proof. split; unfold same_past; [done|intros ? ? ? -> ->; done]. Qed.

Lemma remember_verified n ps g s :
  ok (topic_post config tbl0 clients) ps (g, s) -> between_calls clients ps n ->
  (forall x, rlate (g, s) x = false) -> ok (fun _ _ _ => True) ps (remember n g, s).
Proof.
  intros [Hi Hw] (p & acc & rest & Hn & Hp) Hl. split; [by apply remember_inv|].
  intros n' q Hq. destruct (decide (n' = n)) as [->|Hne].
  - rewrite Hp in Hq. injection Hq as <-. apply rtri_register_rest; [|..|done].
    + apply (Hc (Registrar p (acc.*1 ++ rest))). by eapply list_elem_of_lookup_2.
    + intros uri ts Hin. exists p, (acc.*1 ++ rest). split; [done|]. set_solver.
  - eapply wp_rely; [apply _| |by apply remember_rely]. eapply wp_mono; [by apply Hw|done].
Qed.

(** A call that adds a URI was under way whenever the URI was already there. *)
Lemma added_under_way n ps1 s1 ps2 s2 ps s t t' u :
  rtc (cstep any_window) (topic_prog <$> clients, h_init m0) (ps1, s1) -> between_calls clients ps1 n ->
  topic_ok config t -> listed (hs_mem s1) t u ->
  rtc (cstep any_window) (ps1, s1) (ps2, s2) -> steps_of any_window n (ps2, s2) (ps, s) ->
  topic_ok config t' -> listed (hs_mem s) t' u -> listed (hs_mem s2) t' u.
Proof.
  intros H1 Hbc Ht [ts Hts] H2 H3 Ht' [ts' Hts'].
  assert (HG : forall n σ σ', TGuar n σ σ' -> same_past σ σ') by (intros ? ? ? [? _]; done).
  destruct (pool_ok_run any_window _ _ _ TGuar_TRely same_past _ _ _ _ _ _ HG clients_verified H1)
    as (g1 & Hok1 & R1).
  assert (Hl1 : forall x, rlate (g1, s1) x = false) by (intros x; unfold rlate; by rewrite R1).
  pose proof (remember_verified n ps1 g1 s1 Hok1 Hbc Hl1) as Hok1'.
  destruct (pool_ok_run any_window _ _ _ TGuar_TRely same_past _ _ _ _ _ _ HG Hok1' H2) as (g2 & Hok2 & R2).
  destruct (pool_ok_thread any_window _ _ _ TGuar_TRely _ n _ _ _ _ _ H3 Hok2) as (g & Hg & Hok3).
  destruct Hok2 as [Hi2 _], Hok3 as [Hi3 _], Hok1 as [Hi1 _].
  destruct (decide (rtbl (g2, s2) t' = Active u ts')) as [H|Hno]; [exact (active_listed (g2, s2) t' u ts' Hi2 Ht' H)|exfalso].
  pose proof (repr_active (g, s) t' u ts' Hi3 Ht' Hts') as Ha.
  destruct Hg as [Hg|E]; [|by rewrite E in Ha].
  assert (Hp : rpast (g2, s2) = rtbl (g1, s1)) by (unfold rpast; by rewrite R2).
  assert (Hl : rlate (g2, s2) n = true) by (unfold rlate; rewrite R2; cbn; by apply bool_decide_true).
  pose proof (late_entry _ _ _ n _ _ t' u ts' Hi2 Hi3 Hg Hl Hno Ha) as Hf. rewrite Hp in Hf.
  pose proof (repr_active (g1, s1) t u ts Hi1 Ht Hts) as H0.
  destruct (first_exists (holds (rtbl (g1, s1)) u) (seqZ 0 (max_topics config)) t t) as [b Hb];
    [by apply elem_of_seqZ_0|by eapply holds_some|]. unfold find in Hf. congruence.
Qed.

End Runs.

(** C10. The topic table under every interleaving of publishers that register and
    subscribers that look up: at every moment the table represents an abstract table
    in which what was registered at the start is unchanged, and every other entry
    holds a whole URI that a thread was asked to register and nobody had at the
    start. A URI holds two entries only if it did at the start or two threads were
    asked to register it and their calls overlapped: whenever a step of a thread makes
    an entry active for a URI that another entry already held at some earlier moment,
    the thread was inside a registration at that moment, not between two of them. A
    registration of a URI present at the start returns its first entry, another one an
    entry that holds the URI, or [MaxTopicsReached] when no entry is free; a
    subscription finds a URI present at the start at that entry and never returns an
    entry of another URI. No thread panics. *)
Theorem topic_table_safe config tbl0 clients m0 ps s :
  table_repr config m0 tbl0 -> (forall c, c ∈ clients -> client_config c = config) ->
  rtc (cstep any_window) (topic_prog <$> clients, h_init m0) (ps, s) ->
  exists tbl, table_repr config (hs_mem s) tbl /\
    (forall t u ts, tbl0 t = Active u ts -> tbl t = Active u ts) /\
    (forall t u ts, topic_ok config t -> tbl t = Active u ts ->
       tbl0 t = Active u ts \/
       find (max_topics config) tbl0 u = None /\ exists n, requests clients n u ts) /\
    (forall t t' u ts ts', topic_ok config t -> topic_ok config t' -> t <> t' ->
       tbl t = Active u ts -> tbl t' = Active u ts' ->
       (tbl0 t = Active u ts /\ tbl0 t' = Active u ts') \/
       exists n n', n <> n' /\ requests clients n u ts /\ requests clients n' u ts') /\
    (forall n ps1 s1 ps2 s2 t t' u, topic_ok config t -> topic_ok config t' ->
       rtc (cstep any_window) (topic_prog <$> clients, h_init m0) (ps1, s1) -> listed (hs_mem s1) t u ->
       rtc (cstep any_window) (ps1, s1) (ps2, s2) -> ~ listed (hs_mem s2) t' u ->
       steps_of any_window n (ps2, s2) (ps, s) -> listed (hs_mem s) t' u ->
       ~ between_calls clients ps1 n) /\
    (forall n c o, clients !! n = Some c -> ps !! n = Some (Ret o) -> answered config tbl0 tbl c o) /\
    (forall n, ps !! n <> Some Panic).
Proof.
  intros Hm Hc Hs. pose proof (clients_verified config tbl0 clients m0 Hm Hc) as Hok.
  destruct (wp_sound any_window _ _ _ TGuar_TRely _ _ _ ps s _ Hok Hs) as ([[tbl by'] past] & Hi & Hr & Hp).
  exists tbl. split; [exact (ti_repr _ _ _ _ Hi)|]. split; [|split; [|split; [|split; [|split]]]].
  - intros t u ts. apply (start_active _ _ _ _ t u ts Hi).
  - intros t u ts Ht Ha. destruct (by' t) as [n|] eqn:Hb.
    + destruct (ti_by _ _ _ _ Hi t n Hb) as (_ & _ & [H|(u' & ts' & H & Hq & Hl)]); unfold rtbl in H; cbn in H;
        [congruence|]. rewrite Ha in H. injection H as <- <-. eauto.
    + left. by rewrite <- (ti_init _ _ _ _ Hi t Hb).
  - intros t t' u ts ts' Ht Ht' Hne Ha Ha'. eapply claimed_twice; [exact Hi|..]; done.
  - intros n ps1 s1 ps2 s2 t t' u Ht Ht' H1 Hl H2 Hno H3 Hl' Hbc. apply Hno.
    eapply (added_under_way config tbl0 clients m0 Hm Hc n ps1 s1 ps2 s2 ps s t t' u); done.
  - intros n c o Hn Hp'. exact (Hr n o Hp' c Hn).
  - exact Hp.
Qed.

(** An instance: one entry is active, two publishers compete for the other while a
    subscriber looks both URIs up. *)
Module TopicsDemo.

Definition second : Publisher := new_publisher (pb_region demo_publisher) [112] false 43 0.
Definition clients : list topic_client :=
  [Registrar demo_publisher [([117], 4); ([116], 0)]; Registrar second [([118], 0); ([116], 0)];
   Finder (pb_region demo_publisher) [[116]; [117]]].
Definition final := exec any_window None [(0, 5); (1, 9); (2, 8); (0, 30); (2, 30); (1, 30)]%nat
  (topic_prog <$> clients) (h_init demo_mem).

End TopicsDemo.

Lemma topic_table_safe_witness :
  TopicsDemo.final.1 !! 1%nat =
    Some (Ret (Registered [([118], 0, Err MaxTopicsReached); ([116], 0, Ok (mkTopic 0 43))])) /\
  exists tbl, table_repr config_small (hs_mem TopicsDemo.final.2) tbl /\ tbl 0 = Active [116] 0 /\
    answered config_small demo_table tbl
      (Registrar TopicsDemo.second [([118], 0); ([116], 0)])
      (Registered [([118], 0, Err MaxTopicsReached); ([116], 0, Ok (mkTopic 0 43))]).
Proof.
  split; [vm_compute; reflexivity|].
  destruct (topic_table_safe config_small demo_table TopicsDemo.clients demo_mem
    TopicsDemo.final.1 TopicsDemo.final.2) as (tbl & H1 & H2 & _ & _ & _ & H5 & _).
  - exact demo_repr.
  - intros c Hc. unfold TopicsDemo.clients in Hc. rewrite !elem_of_cons in Hc.
    by destruct Hc as [-> |[-> |[-> |Hc]]]; [..|apply elem_of_nil in Hc].
  - unfold TopicsDemo.final. rewrite <- surjective_pairing. apply exec_sound.
  - exists tbl. split; [exact H1|]. split; [by apply H2|].
    apply (H5 1%nat); [reflexivity|vm_compute; reflexivity].
Defined.
