(* ===== verification/MultiPub.v ===== *)
(** * MultiPub: several publishers of one topic, executed
    (src/src/platform/shm.rs, src/src/protocol/region.rs)

    The owner creates a region, a second publisher opens it and a subscriber connects.
    Two schedules of their operations break what [Guarantees] shows for topics with one
    publisher: the owner skips the claim of a ring slot, so two publishers can release
    the same block, and registering is not atomic, so a URI can get two entries. *)

From S2P Require Import Prelude Errors Layout Atomics Rely ShmBytes Pool Ring Wait Subscription.
From S2P Require Import Loan Publisher Ghost Ownership SubscriberProof PublisherProof Delivery.
From S2P Require Import Startup Topics Registration.

Module TwoPublishers.

Definition config : Config := {|
  max_topics := 2; block_count := 24; block_size := 24; ring_depth := 2;
  heartbeat_interval := duration_from_millis 100;
  stale_timeout := duration_from_millis 5000
|}.
Definition name : bytes := [112; 98].
Definition uri : bytes := [116].

(** Create, open and connect, one after the other. *)
Definition join : prog cell (option (Publisher * Publisher * Region)) :=
  let* a := create 0 4096 77 42 name config in
  let* b := open 1 8192 1200 43 name in
  let* c := connect 2 12288 1200 name in
  Ret (match a, b, c with Ok a, Ok b, Ok c => Some (a, b, c) | _, _, _ => None end).

Definition joined : world cell (cellmem cell) := (run join zero_world).2.
Definition owner : Publisher := new_publisher (region_of 0 4096 config) name true 42 5.
Definition second : Publisher := new_publisher (region_of 1 8192 (header_config config)) name false 43 5.
Definition reader : Region := region_of 2 12288 (header_config config).

(** ** Both register one URI *)

Definition registering : list (prog cell topic_out) :=
  topic_prog <$> [Registrar owner [(uri, 0)]; Registrar second [(uri, 0)]].

(** The owner scans the table, the second publisher registers, the owner goes on. *)
Definition register_schedule : list (nat * nat) := [(0, 2); (1, 20); (0, 20)]%nat.
Definition registered_twice := exec any_window None register_schedule registering (h_init (w_mem joined)).

(** A subscriber looks the URI up, a publisher publishes under its handle. *)
Definition publish_and_receive (p : Publisher) (handle : Topic)
    : prog cell (option (result unit Error * option Sample)) :=
  let* s := subscribe reader uri in
  match s with
  | Err _ => Ret None
  | Ok st =>
      let* (_, sent) := publish 100 p handle [9] in
      let* (_, got) := try_recv 100 st in
      Ret (Some (sent, got))
  end.

(** ** Both commit to one slot *)

(** Both register the URI, one after the other, and get the same entry. *)
Definition handles : outcome (result Topic Error * result Topic Error) * world cell (cellmem cell) :=
  run (let* a := register owner uri in let* b := register second uri in Ret (a, b)) joined.
Definition handle (id : Z) : Topic := mkTopic 0 id.

Definition committing : list (prog cell (list (nat * bytes))) :=
  [publisher_client 10 (PPublish (handle 42) <$> [[1]; [2]; [4]; [5]; [6]; [7]; [8]; [9]]) owner;
   publisher_client 10 [PPublish (handle 43) [3]] second;
   sub_thread 10 (mkSub reader 0 0 [CRecv; CRecv; CRead 1; CRead 1])].

(** The second publisher stops after it has read the block it replaces; the owner
    replaces it too, reuses it for the message the subscriber takes, and goes on when
    the second publisher has released it once more. *)
Definition commit_schedule : list (nat * nat) :=
  [(0, 44); (1, 31); (0, 36); (2, 15); (1, 20); (0, 100); (2, 20)]%nat.
Definition committed := exec pool_window (Some 0) commit_schedule committing (h_init (w_mem handles.2)).

End TwoPublishers.

(** C39. Two publishers of one region, each following the interface: (1) if both
    register the same new URI at the same time, each may get an entry of its own;
    subscribers find the first, and what the other publisher publishes is never
    received, although publishing succeeds. (2) If both publish on one topic and the
    owner laps the other, the block of a slot is released twice: a sample that a
    subscriber holds is overwritten by a later message. *)
Theorem multi_publisher_races :
  (run TwoPublishers.join zero_world).1 =
    Done (Some (TwoPublishers.owner, TwoPublishers.second, TwoPublishers.reader)) /\
  (exists ps s,
     rtc (cstep any_window) (TwoPublishers.registering, h_init (w_mem TwoPublishers.joined)) (ps, s) /\
     ps = [Ret (Registered [(TwoPublishers.uri, 0, Ok (mkTopic 1 42))]);
           Ret (Registered [(TwoPublishers.uri, 0, Ok (mkTopic 0 43))])] /\
     (run (TwoPublishers.publish_and_receive TwoPublishers.owner (mkTopic 1 42))
        (mkWorld (hs_mem s) (Some 1000000000) 5 [])).1 = Done (Some (Ok tt, None))) /\
  TwoPublishers.handles.1 = Done (Ok (TwoPublishers.handle 42), Ok (TwoPublishers.handle 43)) /\
  exists ps s,
    rtc (cstep pool_window) (TwoPublishers.committing, h_init (w_mem TwoPublishers.handles.2)) (ps, s) /\
    ps !! 2%nat = Some (Ret [(1%nat, [6]); (1%nat, [9])]).
Proof.
  split; [vm_compute; reflexivity|]. split; [|split; [vm_compute; reflexivity|]].
  - exists TwoPublishers.registered_twice.1, TwoPublishers.registered_twice.2.
    split; [|split; vm_compute; reflexivity]. rewrite <- surjective_pairing. apply exec_sound.
  - exists TwoPublishers.committed.1, TwoPublishers.committed.2.
    split; [|vm_compute; reflexivity]. rewrite <- surjective_pairing. apply exec_sound.
Qed.
