(* ===== verification/ChannelProof.v ===== *)
(** * ChannelProof: the channel under every interleaving, and how it opens

    Both endpoints run at once over the pair of regions. An endpoint's program is a
    shuffle of a publisher of its own region and a subscriber of the peer's, so an
    execution of the pair projects to an execution of each region, and the guarantees
    of a region hold for each direction. *)

From S2P Require Import Prelude Errors Layout Atomics Rely ShmBytes Pool Ring Wait Subscription.
From S2P Require Import Loan Publisher Channel Ghost Ownership SubscriberProof PublisherProof.
From S2P Require Import Delivery Startup Guarantees Topics.

Abbreviation reads := (list (nat * bytes)).

(** ** Projecting an execution of the pair *)

Definition chan_window (c : chan_cell) : option Z := pool_window c.2.

(** The thread of the endpoint on side [s], and its thread in the region of side [r],
    where the owner's endpoint is thread 0. *)
Definition tid (s : side) : nat := match s with Srv => 0 | Cli => 1 end.
Definition role_in (s r : side) : nat := if decide (s = r) then 0 else 1.

(** The region of side [r] as the pair has it. *)
Definition sees (r : side) (h : hstate chan_cell) (u : hstate cell) : Prop :=
  (forall c, hs_mem h (r, c) = hs_mem u c) /\ (forall c, hs_cas h (r, c) = hs_cas u c) /\
  forall s c, hs_seen h (tid s) (r, c) = hs_seen u (role_in s r) c.

Lemma tid_inj s s' : tid s = tid s' -> s = s'.
Proof. by destruct s, s'. Qed.
Lemma role_in_inj s s' r : role_in s r = role_in s' r -> s = s'.
Proof. by destruct s, s', r. Qed.
Lemma peer_ne r : r <> peer r.
Proof. by destruct r. Qed.

Lemma sees_see s r c h u : sees r h u -> sees r (h_see (tid s) (r, c) h) (h_see (role_in s r) c u).
Proof.
  intros (H1 & H2 & H3). split; [done|]. split; [done|]. intros s' c'. cbn. rewrite H2, H3.
  destruct (decide (s = s' /\ c = c')) as [[-> ->]|Hne].
  - by rewrite !decide_True.
  - rewrite !decide_False; [done| |].
    + intros [?%role_in_inj ?]. naive_solver.
    + intros [?%tid_inj [= ?]]. naive_solver.
Qed.

Lemma upd_pair (m : cellmem chan_cell) (m' : cellmem cell) r c v :
  (forall c, m (r, c) = m' c) -> forall c', upd m (r, c) v (r, c') = upd m' c v c'.
Proof.
  intros H c'. unfold upd. rewrite H. destruct (decide (c = c')) as [->|Hne].
  - by rewrite decide_True.
  - rewrite decide_False; [done|]. by intros [= ?].
Qed.

Lemma sees_set r c v h u : sees r h u -> sees r (h_set (r, c) v h) (h_set c v u).
Proof. intros (H1 & H2 & H3). split; [|done]. intros c'. by apply upd_pair. Qed.

Lemma sees_cas r c v h u : sees r h u -> sees r (h_cas (r, c) v h) (h_cas c v u).
Proof.
  intros (H1 & H2 & H3). split; [intros c'; by apply upd_pair|]. split; [|done]. intros c'. cbn. rewrite !H2.
  destruct (decide (c = c')) as [->|Hne]; [by rewrite decide_True|]. rewrite decide_False; [done|].
  by intros [= ?].
Qed.

(** What happens in one region leaves the other alone. *)
Lemma sees_other r h h' u c v t :
  h' = h_see t (r, c) h \/ h' = h_set (r, c) v h \/ h' = h_cas (r, c) v h ->
  sees (peer r) h u -> sees (peer r) h' u.
Proof.
  intros Hh (H1 & H2 & H3). assert (Hne : forall c', (r, c) <> (peer r, c')) by by destruct r.
  destruct Hh as [->|[->| ->]]; (split; [|split]); cbn; intros; rewrite ?upd_ne by apply Hne; auto;
    rewrite decide_False; [auto|by intros [_ []%Hne]|auto|apply Hne].
Qed.

(** A step of a region's program in the pair is a step in the region. *)
Lemma on_step {A} s r (p : prog cell A) q h h' u :
  tstep chan_window (tid s) (on r p) h q h' -> sees r h u ->
  exists p' u', q = on r p' /\ tstep pool_window (role_in s r) p u p' u' /\ sees r h' u' /\
    forall v, sees (peer r) h v -> sees (peer r) h' v.
Proof.
  intros Hs Hu. pose proof Hu as (H1 & H2 & H3).
  destruct p as [a| | |c k|c v k|c f k|wk c old new k|k|k|c k|c e d k|d k]; cbn [on] in Hs;
    inversion Hs; simplify_eq.
  - eexists _, _. split; [done|]. rewrite H1. split; [apply ts_load|]. split; [by apply sees_see|].
    intros v. apply sees_other with (c := c) (v := 0) (t := tid s). by left.
  - eexists _, _. split; [done|]. split; [apply ts_store|]. split; [by apply sees_set|].
    intros v'. apply sees_other with (c := c) (v := v) (t := 0%nat). by right; left.
  - eexists _, _. split; [done|]. rewrite H1. split; [apply ts_rmw|]. split; [by apply sees_set|].
    intros v'. apply sees_other with (c := c) (v := f (hs_mem u c)) (t := 0%nat). by right; left.
  - eexists _, _. split; [done|]. split; [apply ts_cas_ok; [by rewrite H1|]|].
    + match goal with H : in_window _ _ _ _ |- _ => revert H end.
      unfold in_window, chan_window. cbn. by rewrite H2, H3.
    + split; [by apply sees_cas|]. intros v'. apply sees_other with (c := c) (v := new) (t := 0%nat). by right; right.
  - eexists _, _. split; [done|]. rewrite H1 in *. split; [by apply ts_cas_fail|]. split; [by apply sees_see|].
    intros v. apply sees_other with (c := c) (v := 0) (t := tid s). by left.
  - eexists _, u. split; [done|]. split; [apply ts_now|done].
  - eexists _, u. split; [done|]. split; [apply ts_mono|done].
  - eexists _, u. split; [done|]. split; [apply ts_wake|done].
  - eexists _, u. split; [done|]. split; [apply ts_park|done].
  - eexists _, u. split; [done|]. split; [apply ts_sleep|done].
Qed.

(** ** Shuffles *)

(** [p] on side [s] alternates between [a], in its own region, and [b], in the peer's. *)
Inductive shuffle (s : side) : prog chan_cell reads -> prog cell reads -> prog cell reads -> Prop :=
| sh_ret out : shuffle s (Ret out) (Ret []) (Ret out)
| sh_tx {X} (p : prog cell X) f g b :
    (forall x, shuffle s (f x) (g x) b) -> shuffle s (bind (on s p) f) (bind p g) b
| sh_rx {X} (p : prog cell X) f a g :
    (forall x, shuffle s (f x) a (g x)) -> shuffle s (bind (on (peer s) p) f) a (bind p g)
| sh_equiv p p' a a' b b' :
    p ≡ p' -> a ≡ a' -> b ≡ b' -> shuffle s p' a' b' -> shuffle s p a b.

Lemma role_own s : role_in s s = 0%nat.
Proof. by destruct s. Qed.
Lemma role_peer s : role_in s (peer s) = 1%nat.
Proof. by destruct s. Qed.
Lemma peer_peer s : peer (peer s) = s.
Proof. by destruct s. Qed.

Lemma on_ret {A} r (p : prog cell A) a : on r p = Ret a -> p = Ret a.
Proof. destruct p; cbn; congruence. Qed.

Lemma shuffle_step s p a b p' h h' u v :
  shuffle s p a b -> tstep chan_window (tid s) p h p' h' -> sees s h u -> sees (peer s) h v ->
  (exists a' u', tstep pool_window 0 a u a' u' /\ shuffle s p' a' b /\ sees s h' u' /\ sees (peer s) h' v) \/
  (exists b' v', tstep pool_window 1 b v b' v' /\ shuffle s p' a b' /\ sees s h' u /\ sees (peer s) h' v').
Proof.
  intros Hsh. revert p'. induction Hsh as [out|X p f g b Hf IH|X p f a g Hf IH|p q a a' b b' Hp Ha Hb _ IH];
    intros p1 Hs Hu Hv.
  - inversion Hs.
  - apply tstep_bind_inv in Hs as [(x & Hx & Hs)|(q & -> & Hs)].
    + apply on_ret in Hx as ->. by apply (IH x).
    + destruct (on_step _ _ _ _ _ _ _ Hs Hu) as (p' & u' & -> & Hst & Hu' & Hv'). rewrite role_own in Hst.
      left. exists (bind p' g), u'. split; [by apply tstep_bind|]. split; [by constructor|]. auto.
  - apply tstep_bind_inv in Hs as [(x & Hx & Hs)|(q & -> & Hs)].
    + apply on_ret in Hx as ->. by apply (IH x).
    + destruct (on_step _ _ _ _ _ _ _ Hs Hv) as (p' & v' & -> & Hst & Hv' & Hu'). rewrite role_peer in Hst.
      rewrite peer_peer in Hu'.
      right. exists (bind p' g), v'. split; [by apply tstep_bind|]. split; [by constructor|]. auto.
  - destruct (tstep_equiv _ _ _ _ _ _ _ Hp Hs) as (q1 & Hq & He).
    destruct (IH q1 Hq Hu Hv) as [(a1 & u1 & H1 & H2 & H3)|(b1 & v1 & H1 & H2 & H3)].
    + symmetry in Ha. destruct (tstep_equiv _ _ _ _ _ _ _ Ha H1) as (a2 & H4 & H5).
      left. exists a2, u1. split; [done|]. split; [|done]. by eapply sh_equiv; [| |exact Hb|exact H2].
    + symmetry in Hb. destruct (tstep_equiv _ _ _ _ _ _ _ Hb H1) as (b2 & H4 & H5).
      right. exists b2, v1. split; [done|]. split; [|done]. by eapply sh_equiv; [|exact Ha| |exact H2].
Qed.

Lemma shuffle_ret s out p a b :
  shuffle s p a b -> p = Ret out -> a = Ret [] /\ b = Ret out.
Proof.
  intros Hsh. induction Hsh as [out'|X p f g b Hf IH|X p f a g Hf IH|p q a a' b b' Hp Ha Hb _ IH]; intros E.
  - by injection E as ->.
  - destruct p; cbn in E; try done. cbn. by apply IH.
  - destruct p; cbn in E; try done. cbn. by apply IH.
  - subst p. inversion Hp; subst. destruct IH as [-> ->]; [done|]. inversion Ha; inversion Hb; by subst.
Qed.

Lemma shuffle_panic s p a b : shuffle s p a b -> p = Panic -> a = Panic \/ b = Panic.
Proof.
  intros Hsh. induction Hsh as [out'|X p f g b Hf IH|X p f a g Hf IH|p q a a' b b' Hp Ha Hb _ IH]; intros E.
  - done.
  - destruct p; cbn in E |- *; try done; [by apply IH|by left].
  - destruct p; cbn in E |- *; try done; [by apply IH|by right].
  - subst p. inversion Hp; subst. destruct IH as [-> | ->]; [done| |]; [left; by inversion Ha|right; by inversion Hb].
Qed.

(** ** Endpoints *)

Inductive chan_cmd : Type :=
| ChSend (data : bytes)
| ChLoanDrop
| ChHeartbeat
| ChTryRecv
| ChRecv (strategy : WaitStrategy) (park_fuel : nat)
| ChRead (k : nat)
| ChDrop (k : nat).

(** A client of one endpoint: it sends, receives (also blocking), reads samples received before and not
    yet dropped, and drops them. Failed sends are ignored. *)
Fixpoint endpoint `{Os : OsPlatform} (fuel : nat) (cmds : list chan_cmd) (ch : Channel) (rcv : list (option Sample))
    (out : reads) : prog chan_cell reads :=
  match cmds with
  | [] => Ret out
  | ChSend data :: cmds' =>
      let* (ch', _) := ch_send fuel ch data in endpoint fuel cmds' ch' rcv out
  | ChLoanDrop :: cmds' =>
      let* (ch', res) := ch_loan fuel ch in
      match res with
      | Ok l => on (ch_side ch) (loan_drop fuel l) ;;; endpoint fuel cmds' ch' rcv out
      | Err _ => endpoint fuel cmds' ch' rcv out
      end
  | ChHeartbeat :: cmds' =>
      let* (ch', _) := ch_heartbeat ch in endpoint fuel cmds' ch' rcv out
  | ChTryRecv :: cmds' =>
      let* (ch', o) := ch_try_recv fuel ch in
      match o with
      | Some s => endpoint fuel cmds' ch' (rcv ++ [Some s]) out
      | None => endpoint fuel cmds' ch' rcv out
      end
  | ChRecv strategy park_fuel :: cmds' =>
      let* (ch', res) := ch_recv_with fuel park_fuel strategy ch in
      match res with
      | Ok s => endpoint fuel cmds' ch' (rcv ++ [Some s]) out
      | Err _ => endpoint fuel cmds' ch' rcv out
      end
  | ChRead k :: cmds' =>
      match rcv !! k with
      | Some (Some s) =>
          let* bs := on (peer (ch_side ch)) (sample_to_vec s) in
          endpoint fuel cmds' ch rcv (out ++ [(k, bs)])
      | _ => endpoint fuel cmds' ch rcv out
      end
  | ChDrop k :: cmds' =>
      match rcv !! k with
      | Some (Some s) =>
          on (peer (ch_side ch)) (sample_drop fuel s) ;;;
          endpoint fuel cmds' ch (<[k := None]> rcv) out
      | _ => endpoint fuel cmds' ch rcv out
      end
  end.

(** What an endpoint does as the publisher of its region and as a subscriber of the
    peer's. *)
Definition tx_cmds (topic : Topic) (cmds : list chan_cmd) : list pub_cmd :=
  omap (fun c => match c with
                 | ChSend data => Some (PPublish topic data)
                 | ChLoanDrop => Some (PLoanDrop topic)
                 | ChHeartbeat => Some PHeartbeat
                 | _ => None
                 end) cmds.

Definition rx_cmds (cmds : list chan_cmd) : list sub_cmd :=
  omap (fun c => match c with
                 | ChTryRecv => Some CRecv
                 | ChRecv strategy park_fuel => Some (CRecvWait strategy park_fuel)
                 | ChRead k => Some (CRead k)
                 | ChDrop k => Some (CDrop k)
                 | _ => None
                 end) cmds.

(** An endpoint receives bytes. *)
Lemma rx_cmds_ok msgs cmds : Forall (sub_cmd_ok msgs) (rx_cmds cmds).
Proof. induction cmds as [|c cmds IH]; [constructor|]. destruct c; cbn; try exact IH; by constructor. Qed.

Definition sent (cmds : list chan_cmd) : list bytes :=
  omap (fun c => match c with ChSend data => Some data | _ => None end) cmds.

Lemma requested_tx topic cmds : requested (tx_cmds topic cmds) (tp_topic_idx topic) = sent cmds.
Proof.
  unfold requested, tx_cmds, sent. induction cmds as [|c cmds IH]; [done|].
  destruct c; cbn; try exact IH. rewrite decide_True by done. cbn. by f_equal.
Qed.

(** Both sides of a sequence in the pair. *)
Lemma shuffle_bind_equiv {X Y} s (p : prog chan_cell X) (f : X -> prog chan_cell Y) (k : Y -> prog chan_cell reads) a b :
  shuffle s (bind p (fun x => bind (f x) k)) a b -> shuffle s (bind (bind p f) k) a b.
Proof. apply sh_equiv; [apply bind_assoc|done|done]. Qed.

Lemma shuffle_pub_equiv {X Y} s q (p : prog cell X) (f : X -> prog cell Y) (k : Y -> prog cell reads) b :
  shuffle s q (bind p (fun x => bind (f x) k)) b -> shuffle s q (bind (bind p f) k) b.
Proof. apply sh_equiv; [done|apply bind_assoc|done]. Qed.

Lemma endpoint_shuffle `{Os : OsPlatform} fuel cmds ch rcv out :
  shuffle (ch_side ch) (endpoint fuel cmds ch rcv out)
    (publisher_client fuel (tx_cmds (ch_tx_topic ch) cmds) (ch_tx_pub ch))
    (subscriber fuel (rx_cmds cmds) (ch_rx ch) rcv out).
Proof.
  revert ch rcv out. induction cmds as [|c cmds IH]; intros ch rcv out; [apply sh_ret|].
  destruct c as [data| | | |strategy pf|k|k]; cbn [endpoint tx_cmds rx_cmds omap list_omap publisher_client subscriber].
  - unfold ch_send, publish. apply shuffle_bind_equiv, shuffle_pub_equiv, sh_tx. intros [p1 [l|e]];
      [|cbn [bind]; apply (IH (with_tx ch p1))].
    apply shuffle_bind_equiv, shuffle_pub_equiv, sh_tx. intros [l1 [u|e]];
      apply shuffle_bind_equiv, shuffle_pub_equiv, sh_tx; intros []; cbn [bind]; apply (IH (with_tx ch p1)).
  - unfold ch_loan. apply shuffle_bind_equiv, sh_tx. intros [p1 [l|e]]; cbn [bind].
    + apply sh_tx. intros []. apply (IH (with_tx ch p1)).
    + apply (IH (with_tx ch p1)).
  - unfold ch_heartbeat. apply shuffle_bind_equiv, sh_tx. intros [p1 r]. cbn [bind]. apply (IH (with_tx ch p1)).
  - unfold ch_try_recv. apply shuffle_bind_equiv, sh_rx. intros [st [s|]]; cbn [bind]; apply (IH (with_rx ch st)).
  - unfold ch_recv_with. apply shuffle_bind_equiv, sh_rx. intros [st [s|e]]; cbn [bind]; apply (IH (with_rx ch st)).
  - destruct (rcv !! k) as [[s|]|]; [|apply IH..]. apply sh_rx. intros bs. apply IH.
  - destruct (rcv !! k) as [[s|]|]; [|apply IH..]. apply sh_rx. intros []. apply IH.
Qed.

(** ** The pair of endpoints *)

Section Pair.
Context `{Os : OsPlatform} (fuel : nat) (ends : side -> Channel) (cmds : side -> list chan_cmd) (m : cellmem chan_cell).
Hypothesis (Hsides : forall s, ch_side (ends s) = s).

Definition chan_threads : list (prog chan_cell reads) :=
  [endpoint fuel (cmds Srv) (ends Srv) [] []; endpoint fuel (cmds Cli) (ends Cli) [] []].

(** The region of side [s] alone: its owner publishes, the peer subscribes. *)
Definition region_pool (s : side) : list (prog cell reads) :=
  [publisher_client fuel (tx_cmds (ch_tx_topic (ends s)) (cmds s)) (ch_tx_pub (ends s));
   subscriber fuel (rx_cmds (cmds (peer s))) (ch_rx (ends (peer s))) [] []].

Definition side_mem (s : side) : cellmem cell := fun c => m (s, c).

(** What holds of the pair: each region has been reached on its own. *)
Definition projects (ps : list (prog chan_cell reads)) (h : hstate chan_cell) : Prop :=
  exists (p : side -> prog chan_cell reads) (pub sub : side -> prog cell reads) (u : side -> hstate cell),
    ps = [p Srv; p Cli] /\
    forall s, rtc (cstep pool_window) (region_pool s, h_init (side_mem s)) ([pub s; sub s], u s) /\
      sees s h (u s) /\ shuffle s (p s) (pub s) (sub (peer s)).

Lemma projects_init : projects chan_threads (h_init m).
Proof.
  exists (fun s => endpoint fuel (cmds s) (ends s) [] []),
    (fun s => publisher_client fuel (tx_cmds (ch_tx_topic (ends s)) (cmds s)) (ch_tx_pub (ends s))),
    (fun s => subscriber fuel (rx_cmds (cmds (peer s))) (ch_rx (ends (peer s))) [] []),
    (fun s => h_init (side_mem s)).
  split; [done|]. intros s. split; [apply rtc_refl|]. split; [done|]. rewrite peer_peer.
  pose proof (endpoint_shuffle fuel (cmds s) (ends s) [] []) as H. by rewrite Hsides in H.
Qed.

(** Replacing the value at one side. *)
Definition side_set {X} (f : side -> X) (s : side) (x : X) : side -> X := fun r => if decide (s = r) then x else f r.

Lemma side_set_eq {X} (f : side -> X) s x : side_set f s x s = x.
Proof. unfold side_set. by rewrite decide_True. Qed.
Lemma side_set_ne {X} (f : side -> X) s x r : s <> r -> side_set f s x r = f r.
Proof. intros. unfold side_set. by rewrite decide_False. Qed.

Lemma pool_step (ps : list (prog cell reads)) u u' t q q' x :
  rtc (cstep pool_window) x (ps, u) -> ps !! t = Some q -> tstep pool_window t q u q' u' ->
  rtc (cstep pool_window) x (<[t := q']> ps, u').
Proof. intros Hr Hq Hs. eapply rtc_r; [exact Hr|]. by econstructor. Qed.

Lemma projects_step ps h ps' h' :
  projects ps h -> cstep chan_window (ps, h) (ps', h') -> projects ps' h'.
Proof.
  intros (p & pub & sub & u & -> & Hp) Hs. inversion Hs as [? ? t q q' ? Hq Ht]; subst.
  assert (exists s, t = tid s /\ q = p s) as (s & -> & ->).
  { destruct t as [|[|t]]; cbn in Hq; [exists Srv|exists Cli|done]; by injection Hq as <-. }
  assert (Hps : <[tid s := q']> [p Srv; p Cli] = [side_set p s q' Srv; side_set p s q' Cli]) by by destruct s.
  rewrite Hps. destruct (Hp s) as (R1 & S1 & Sh1). destruct (Hp (peer s)) as (R2 & S2 & Sh2).
  rewrite peer_peer in Sh2. pose proof (peer_ne s) as Hne.
  destruct (shuffle_step _ _ _ _ _ _ _ _ _ Sh1 Ht S1 S2) as [(a' & u' & T & Sh & O1 & O2)|(b' & v' & T & Sh & O1 & O2)].
  - exists (side_set p s q'), (side_set pub s a'), sub, (side_set u s u'). split; [done|]. intros r.
    destruct (decide (s = r)) as [<-|Hr].
    + rewrite !side_set_eq. split; [|done]. exact (pool_step _ _ _ 0 _ _ _ R1 eq_refl T).
    + assert (r = peer s) as -> by by destruct s, r. rewrite !side_set_ne, peer_peer by done. done.
  - exists (side_set p s q'), pub, (side_set sub (peer s) b'), (side_set u (peer s) v'). split; [done|]. intros r.
    destruct (decide (s = r)) as [<-|Hr].
    + rewrite !side_set_eq, !side_set_ne by done. done.
    + assert (r = peer s) as -> by by destruct s, r. rewrite peer_peer, !side_set_eq, !side_set_ne by done.
      split; [|done]. exact (pool_step _ _ _ 1 _ _ _ R2 eq_refl T).
Qed.

Lemma projects_reach ps h :
  rtc (cstep chan_window) (chan_threads, h_init m) (ps, h) -> projects ps h.
Proof.
  intros Hr. change (projects (ps, h).1 (ps, h).2). pose proof projects_init as H0.
  change (projects (chan_threads, h_init m).1 (chan_threads, h_init m).2) in H0. revert H0.
  induction Hr as [x|[ps1 h1] [ps2 h2] z Hs Hr IH]; intros H0; [exact H0|].
  apply IH. by eapply projects_step.
Qed.

End Pair.

(** What is assumed of an open channel: each side owns a fresh region, and the peer's
    stream is at the start of the topic it sends on. *)
Record chan_setup (config : side -> Config) (ends : side -> Channel) (cmds : side -> list chan_cmd)
    (m : cellmem chan_cell) : Prop := {
  cs_side : forall s, ch_side (ends s) = s;
  cs_stream : forall s, ch_rx (ends (peer s)) =
    mkStream (ch_rx_sub (ends (peer s))) (tp_topic_idx (ch_tx_topic (ends s))) 0 0;
  cs_region : forall s, exists size,
    setup (config s) size (tx_cmds (ch_tx_topic (ends s)) (cmds s)) (ch_tx_pub (ends s))
      [mkSub (ch_rx_sub (ends (peer s))) (tp_topic_idx (ch_tx_topic (ends s))) 0 (rx_cmds (cmds (peer s)))]
      (side_mem m s)
}.
