(* ===== verification/ChannelOpen.v ===== *)
(** * ChannelOpen: opening a channel, and its end-to-end theorems

    Waiting for the peer's region while other processes act during the pauses (the first
    attempt that succeeds is returned, and the wait ends after the timeout when none
    does), and the handshake from zero-filled files to a pair of
    endpoints that meet the assumptions of ChannelProof. *)

From S2P Require Import Prelude Errors Layout Atomics Rely ShmBytes Pool Ring Wait Subscription.
From S2P Require Import Loan Publisher Channel Ghost Ownership SubscriberProof PublisherProof.
From S2P Require Import Delivery Startup Topics ChannelProof.
Import TopicSpec.

Local Abbreviation cworld := (world cell (cellmem cell)).
Local Abbreviation pworld := (world chan_cell (cellmem chan_cell)).

(** ** Running a region's program in the pair *)

(** The region of side [s], and its clocks, as the pair has them. *)
Definition view (s : side) (w : pworld) (u : cworld) : Prop :=
  (forall c, w_mem w (s, c) = w_mem u c) /\ w_now w = w_now u /\ w_mono w = w_mono u.

(** The regions of the other side agree. *)
Definition kept_side (s : side) (w w' : pworld) : Prop := forall c, w_mem w' (s, c) = w_mem w (s, c).

#[export] Instance kept_side_pre s : PreOrder (kept_side s).
Proof. split; [by intros w c|]. intros x y z H1 H2 c. by rewrite H2. Qed.

Definition region_world (s : side) (w : pworld) : cworld :=
  mkWorld (fun c => w_mem w (s, c)) (w_now w) (w_mono w) [].

Lemma view_region s w : view s w (region_world s w).
Proof. done. Qed.

Lemma run_on {A} s (p : prog cell A) (w : pworld) (u : cworld) :
  view s w u ->
  (run (on s p) w).1 = (run p u).1 /\ view s (run (on s p) w).2 (run p u).2 /\
  kept_side (peer s) w (run (on s p) w).2.
Proof.
  assert (Hset : forall (w : pworld) u c v, view s w u ->
    view s (set_mem w (upd (w_mem w) (s, c) v)) (set_mem u (upd (w_mem u) c v)) /\
    kept_side (peer s) w (set_mem w (upd (w_mem w) (s, c) v))).
  { intros w0 u0 c v (H1 & H2 & H3). split; [split; [|done]|].
    - intros c'. cbn. by apply upd_pair.
    - intros c'. cbn. rewrite upd_ne; [done|]. by destruct s. }
  revert w u. induction p as
    [a| | |c k IH|c v k IH|c f k IH|wk c old new k IH|k IH|k IH|c k IH|c e d k IH|d k IH];
    intros w u Hv; pose proof Hv as (H1 & H2 & H3); cbn [on run fst snd mload mstore cellmem_memory];
    try (split; [done|split; [done|reflexivity]]).
  - rewrite H1. by apply IH.
  - destruct (Hset w u c v Hv) as [V1 V2]. destruct (IH _ _ V1) as (A1 & A2 & A3).
    split; [done|]. split; [done|]. by etransitivity.
  - rewrite H1. destruct (Hset w u c (f (w_mem u c)) Hv) as [V1 V2].
    destruct (IH (w_mem u c) _ _ V1) as (A1 & A2 & A3). split; [done|]. split; [done|]. by etransitivity.
  - rewrite H1. destruct (_ =? _); [|by apply IH]. destruct (Hset w u c new Hv) as [V1 V2].
    destruct (IH true old _ _ V1) as (A1 & A2 & A3). split; [done|]. split; [done|]. by etransitivity.
  - rewrite H2. by apply IH.
  - rewrite H3. by apply IH.
  - by apply (IH (add_wake w (s, c)) (add_wake u c)).
  - rewrite H1. destruct (_ =? _); [|by apply IH].
    apply (IH (pass_time w d) (pass_time u d)). split; [done|]. cbn. by rewrite H2, H3.
  - apply (IH (pass_time w d) (pass_time u d)). split; [done|]. cbn. by rewrite H2, H3.
Qed.

(** The form used below: what the region's run gives, the pair's run gives. *)
Lemma run_on_done {A} s (p : prog cell A) (w : pworld) a u' :
  run p (region_world s w) = (Done a, u') ->
  exists w', run (on s p) w = (Done a, w') /\ view s w' u' /\ kept_side (peer s) w w'.
Proof.
  intros Hr. destruct (run_on s p w _ (view_region s w)) as (H1 & H2 & H3). rewrite Hr in H1, H2.
  exists (run (on s p) w).2. split; [|done]. destruct (run (on s p) w). cbn in *. by subst.
Qed.

(** ** Programs that take no time *)

(** No loop without bound, no panic, no waiting: the program returns at once. *)
Fixpoint brief {C A} (p : prog C A) : Prop :=
  match p with
  | Ret _ => True
  | Diverge | Panic | APark _ _ _ _ | ASleep _ _ => False
  | ALoad _ k | ARmw _ _ k => forall v, brief (k v)
  | AStore _ _ k | AWake _ k => brief k
  | ACas _ _ _ _ k => forall b v, brief (k b v)
  | ANow k => forall t, brief (k t)
  | AMono k => forall t, brief (k t)
  end.

Lemma brief_bind {C A B} (p : prog C A) (f : A -> prog C B) :
  brief p -> (forall a, brief (f a)) -> brief (bind p f).
Proof. intros Hp Hf. induction p; cbn in *; auto. Qed.

Lemma brief_on {A} s (p : prog cell A) : brief p -> brief (on s p).
Proof. induction p; cbn; auto. Qed.

Lemma brief_for_return {C A B} (l : list A) (body : A -> prog C (option B)) after :
  (forall x, brief (body x)) -> brief after -> brief (for_return l body after).
Proof.
  intros Hb Ha. induction l as [|x l IH]; cbn; [done|]. apply brief_bind; [done|]. by intros [b|].
Qed.

Lemma brief_load_uri t i n : brief (load_uri t i n).
Proof. revert i. induction n as [|n IH]; intros i; cbn; [done|]. intros v. by apply brief_bind. Qed.

Lemma brief_subscribe r uri : brief (subscribe r uri).
Proof.
  apply brief_for_return; [|done]. intros t. unfold subscribe_entry. cbn [bind load brief].
  intros active. destruct (negb _); [done|]. apply brief_bind; [|by intros []].
  unfold entry_matches. cbn [bind load brief]. intros h. destruct (negb _); [done|]. cbn [brief].
  intros l. destruct (negb _); [done|]. apply brief_bind; [apply brief_load_uri|done].
Qed.

Lemma brief_connect handle base len name : brief (connect handle base len name).
Proof.
  unfold connect, open_and_validate_region. destruct (validate_name name); [|done].
  destruct (_ <? _); [done|]. cbn [bind load brief]. intros magic. destruct (negb _); [done|].
  cbn [brief]. intros ver. destruct (negb _); [done|]. unfold read_header_config. cbn [bind load brief].
  intros mt bc bs rd us. by destruct (validate_config _ _).
Qed.

Lemma brief_run {A} (p : prog chan_cell A) (w : pworld) :
  brief p -> exists a w', run p w = (Done a, w') /\ w_mono w' = w_mono w /\ w_now w' = w_now w.
Proof.
  revert w. induction p as
    [a| | |c k IH|c v k IH|c f k IH|wk c old new k IH|k IH|k IH|c k IH|c e d k IH|d k IH];
    intros w Hp; cbn [brief run] in *; try done.
  - by eexists _, _.
  - by apply IH.
  - by apply (IH (set_mem w _)).
  - by apply (IH _ (set_mem w _)).
  - destruct (_ =? _); [by apply (IH _ _ (set_mem w _))|by apply IH].
  - by apply IH.
  - by apply IH.
  - by apply (IH (add_wake w c)).
Qed.

(** ** Other processes at work during the pauses *)

Section Among.
(** What they do to the memory in a pause that begins at a given time. *)
Context (acts : Z -> cellmem chan_cell -> cellmem chan_cell).

Definition pause (w : pworld) (d : Z) : pworld := pass_time (set_mem w (acts (w_mono w) (w_mem w))) d.

Fixpoint run_among {A} (p : prog chan_cell A) (w : pworld) : outcome A * pworld :=
  match p with
  | Ret a => (Done a, w)
  | Diverge => (Looping, w)
  | Panic => (Panicked, w)
  | ALoad c k => run_among (k (w_mem w c)) w
  | AStore c v k => run_among k (set_mem w (upd (w_mem w) c v))
  | ARmw c f k => run_among (k (w_mem w c)) (set_mem w (upd (w_mem w) c (f (w_mem w c))))
  | ACas _ c old new k =>
      if w_mem w c =? old then run_among (k true old) (set_mem w (upd (w_mem w) c new))
      else run_among (k false (w_mem w c)) w
  | ANow k => run_among (k (w_now w)) w
  | AMono k => run_among (k (w_mono w)) w
  | AWake c k => run_among k (add_wake w c)
  | APark c e d k => run_among k (if wrap32 (w_mem w c) =? e then pause w d else w)
  | ASleep d k => run_among k (pause w d)
  end.

Lemma run_among_brief {A B} (p : prog chan_cell A) (f : A -> prog chan_cell B) (w : pworld) a w' :
  brief p -> run p w = (Done a, w') -> run_among (bind p f) w = run_among (f a) w'.
Proof.
  revert w. induction p as
    [x| | |c k IH|c v k IH|c g k IH|wk c old new k IH|k IH|k IH|c k IH|c e d k IH|d k IH];
    intros w Hp Hr; cbn [brief run bind run_among mload mstore cellmem_memory] in *; try done; auto.
  - by injection Hr as <- <-.
  - destruct (_ =? _); auto.
Qed.

End Among.

Lemma run_among_alone {A} (p : prog chan_cell A) (w : pworld) : run_among (fun _ m => m) p w = run p w.
Proof.
  revert w. induction p as
    [x| | |c k IH|c v k IH|c g k IH|wk c old new k IH|k IH|k IH|c k IH|c e d k IH|d k IH];
    intros w; cbn [run_among run mload mstore cellmem_memory]; auto.
Qed.

(** ** Waiting for the peer *)

Section Waiting.
Context (attach : nat -> option (Z * Z * Z)) (s : side) (name : bytes).

(** One attempt: open the region and subscribe. *)
Definition attempt (i : nat) : prog chan_cell (result (Region * Stream) Error) :=
  let* c := on s (connect_at attach i name) in
  match c with
  | Err e => Ret (Err e)
  | Ok sub =>
      let* r := on s (subscribe sub CH_URI) in
      Ret (match r with Err e => Err e | Ok rx => Ok (sub, set_last_seq rx 0) end)
  end.

Lemma brief_connect_at i : brief (on s (connect_at attach i name)).
Proof.
  apply brief_on. unfold connect_at. destruct (validate_name name); [|done].
  destruct (attach i) as [[[handle base] len]|]; [apply brief_connect|done].
Qed.

Lemma attempt_returns i (w : pworld) :
  exists res w', run (attempt i) w = (Done res, w') /\ w_mono w' = w_mono w /\ w_now w' = w_now w.
Proof.
  apply brief_run, brief_bind; [apply brief_connect_at|]. intros [sub|e]; [|done].
  apply brief_bind; [apply brief_on, brief_subscribe|done].
Qed.

(** The region is there, the topic is not: the attempt fails. *)
Lemma attempt_unregistered i (w : pworld) sub w1 tbl :
  run (on s (connect_at attach i name)) w = (Done (Ok sub), w1) ->
  table_repr (rg_config sub) (fun c => w_mem w1 (s, c)) tbl ->
  find (max_topics (rg_config sub)) tbl CH_URI = None ->
  exists w', run (attempt i) w = (Done (Err (TopicNotFound CH_URI)), w').
Proof.
  intros Hc Ht Hf. unfold attempt. rewrite run_bind, Hc, run_bind.
  pose proof (subscribe_run sub CH_URI tbl (region_world s w1) Ht) as Hs. rewrite Hf in Hs.
  destruct (run_on_done s _ w1 _ _ Hs) as (w2 & -> & _). by eexists.
Qed.

Section Retries.
Context (acts : Z -> cellmem chan_cell -> cellmem chan_cell).

(** [n] attempts from the [i]-th on fail, for whatever reason, each followed by a pause;
    [w'] is what the next attempt finds. *)
Inductive failing : nat -> nat -> pworld -> pworld -> Prop :=
| failing_none i w : failing i 0 w w
| failing_more i n e w w1 w' :
    run (attempt i) w = (Done (Err e), w1) -> failing (S i) n (pause acts w1 RETRY_SLEEP) w' ->
    failing i (S n) w w'.

(** One iteration of the loop. *)
Lemma wait_loop_attempt fuel i deadline (w : pworld) res w1 :
  run (attempt i) w = (Done res, w1) ->
  run_among acts (wait_loop attach (S fuel) i s name deadline) w =
    match res, deadline with
    | Ok x, _ => (Done (Ok x), w1)
    | Err e, None => (Done (Err e), w1)
    | Err e, Some d =>
        if w_mono w1 <? d
        then run_among acts (wait_loop attach fuel (S i) s name deadline) (pause acts w1 RETRY_SLEEP)
        else (Done (Err e), w1)
    end.
Proof.
  assert (Hretry : forall e, run_among acts
    (match deadline with
     | None => Ret (Err e)
     | Some d =>
         let* now := instant_now in
         if now <? d then sleep RETRY_SLEEP ;;; wait_loop attach fuel (S i) s name deadline else Ret (Err e)
     end) w1 =
    match deadline with
    | None => (Done (Err e), w1)
    | Some d => if w_mono w1 <? d
        then run_among acts (wait_loop attach fuel (S i) s name deadline) (pause acts w1 RETRY_SLEEP)
        else (Done (Err e), w1)
    end).
  { intros e. destruct deadline as [d|]; [|done]. cbn. by destruct (_ <? d). }
  unfold attempt. rewrite run_bind.
  destruct (brief_run _ w (brief_connect_at i)) as (c & w2 & Hc & _). rewrite Hc.
  cbn [wait_loop]. rewrite (run_among_brief _ _ _ _ _ _ (brief_connect_at i) Hc).
  destruct c as [sub|e]; [|intros [= <- <-]; apply Hretry].
  assert (Hb : brief (on s (subscribe sub CH_URI))) by apply brief_on, brief_subscribe.
  destruct (brief_run _ w2 Hb) as (r & w3 & Hr & _). rewrite run_bind, Hr.
  rewrite (run_among_brief _ _ _ _ _ _ Hb Hr). destruct r as [rx|e]; intros [= <- <-]; [done|apply Hretry].
Qed.

(** The loop with a deadline that is passed after [m] more pauses: the first attempt that
    succeeds, or the last one. *)
Lemma wait_loop_outcome fuel m i d (w : pworld) :
  w_mono w + (Z.of_nat m - 1) * RETRY_SLEEP < d <= w_mono w + Z.of_nat m * RETRY_SLEEP ->
  exists n w1 res w2, (n <= m)%nat /\ failing i n w w1 /\ run (attempt (i + n)) w1 = (Done res, w2) /\
    run_among acts (wait_loop attach (m + S fuel) i s name (Some d)) w = (Done res, w2) /\
    w_mono w2 = w_mono w + Z.of_nat n * RETRY_SLEEP /\ (forall e, res = Err e -> n = m).
Proof.
  assert (HR : 0 < RETRY_SLEEP) by done.
  revert i w. induction m as [|m IH]; intros i w Hd; destruct (attempt_returns i w) as (res & w1 & Hr & Hm & _).
  - exists 0%nat, w, res, w1. split; [lia|]. split; [constructor|]. rewrite Nat.add_0_r. split; [done|].
    cbn [Nat.add]. rewrite (wait_loop_attempt _ _ _ _ _ _ Hr). replace (w_mono w1 <? d) with false by lia.
    split; [by destruct res|]. split; [lia|done].
  - cbn [Nat.add]. rewrite (wait_loop_attempt _ _ _ _ _ _ Hr). destruct res as [x|e].
    { exists 0%nat, w, (Ok x), w1. split; [lia|]. split; [constructor|]. rewrite Nat.add_0_r.
      split; [done|]. split; [done|]. split; [lia|done]. }
    replace (w_mono w1 <? d) with true by nia.
    destruct (IH (S i) (pause acts w1 RETRY_SLEEP)) as (n & wn & res & w2 & H1 & H2 & H3 & H4 & H5 & H6).
    { cbn. lia. }
    exists (S n), wn, res, w2. split; [lia|]. split; [by econstructor|].
    replace (i + S n)%nat with (S i + n)%nat by lia. split; [done|]. split; [done|].
    cbn in H5. split; [lia|]. intros e' He. by rewrite (H6 e' He).
Qed.

(** The pauses until the timeout has passed. *)
Definition retries (timeout : Z) : nat := Z.to_nat ((timeout + RETRY_SLEEP - 1) / RETRY_SLEEP).

Lemma retries_bounds timeout :
  0 <= timeout -> timeout <= Z.of_nat (retries timeout) * RETRY_SLEEP < timeout + RETRY_SLEEP.
Proof.
  intros H. assert (HR : 0 < RETRY_SLEEP) by done. unfold retries.
  pose proof (Z.div_mod (timeout + RETRY_SLEEP - 1) RETRY_SLEEP ltac:(lia)) as E.
  pose proof (Z.mod_pos_bound (timeout + RETRY_SLEEP - 1) RETRY_SLEEP HR).
  pose proof (Z.div_pos (timeout + RETRY_SLEEP - 1) RETRY_SLEEP ltac:(lia) HR). nia.
Qed.

Lemma wait_outcome fuel timeout (w : pworld) :
  0 <= timeout -> w_mono w + timeout < 2 ^ 63 * 1000000000 ->
  exists n w1 res w2, (n <= retries timeout)%nat /\ failing 0 n w w1 /\ run (attempt n) w1 = (Done res, w2) /\
    run_among acts (wait_for_peer attach (retries timeout + S fuel) s name timeout) w = (Done res, w2) /\
    w_mono w2 = w_mono w + Z.of_nat n * RETRY_SLEEP /\ (forall e, res = Err e -> n = retries timeout).
Proof.
  intros H0 Hov. pose proof (retries_bounds timeout H0) as Hb. unfold wait_for_peer.
  destruct (Z.eqb_spec timeout 0) as [->|Hpos].
  - change (retries 0) with 0%nat. destruct (attempt_returns 0 w) as (res & w1 & Hr & Hm & _).
    exists 0%nat, w, res, w1. split; [lia|]. split; [constructor|]. split; [done|]. cbn [Nat.add].
    rewrite (wait_loop_attempt _ _ _ _ _ _ Hr). split; [by destruct res|]. split; [lia|done].
  - cbn [bind instant_now run_among]. unfold instant_add. replace (_ <=? _) with false by lia.
    cbn [bind run_among]. apply (wait_loop_outcome fuel (retries timeout) 0). lia.
Qed.

End Retries.

(** The attempt that finds the region. *)
Record peer_ready (config : Config) (pid hb len t : Z) (m : cellmem cell) : Prop := {
  pr_name : validate_name name = Ok tt;
  pr_u32 : config_u32 config;
  pr_size : exists size, create_validate name config = Ok size /\ size <= len;
  pr_topics : max_topics config <= MAX_TOPICS_LIMIT;
  pr_header : header_written config pid m;
  pr_heartbeat : m GHHeartbeat = wrap64 (duration_as_micros hb);
  pr_table : exists tbl, table_repr config m tbl /\ find (max_topics config) tbl CH_URI = Some t;
  pr_type : m (TETypeSize t) = 0
}.

(** What connecting and subscribing leave in the peer's region. *)
Definition joined (handle t : Z) (m m' : cellmem cell) : Prop :=
  forall c, c <> LastFreed handle -> c <> TESubscriberCount t -> m' c = m c.

Lemma attempt_ready i (w : pworld) config pid hb handle base len t now :
  attach i = Some (handle, base, len) ->
  peer_ready config pid hb len t (fun c => w_mem w (s, c)) ->
  w_now w = Some now -> alive config hb now ->
  let r := region_of handle base (header_config config) in
  exists w', run (attempt i) w = (Done (Ok (r, mkStream r t 0 0)), w') /\
    joined handle t (fun c => w_mem w (s, c)) (fun c => w_mem w' (s, c)) /\
    kept_side (peer s) w w' /\ w_now w' = w_now w /\ w_mono w' = w_mono w.
Proof.
  intros Ha [P0 P1 (size & P2 & P2') P3 P4 P5 (tbl & P6 & P7) P8] Hnow Hal r. unfold attempt.
  unfold connect_at. rewrite P0, Ha, run_bind.
  pose proof (connect_run pid config hb now len handle base name size (region_world s w) P1 P2 P2' P3 P4 P5 Hnow Hal) as Hc.
  destruct (run_on_done s _ w _ _ Hc) as (w1 & -> & V1 & K1). rewrite run_bind. fold r.
  pose proof V1 as (V1m & V1n & V1o). cbn in V1m.
  assert (Ht1 : table_repr config (w_mem (region_world s w1)) tbl).
  { intros t' Ht'. eapply entry_repr_frame; [|apply (P6 t' Ht')]. intros c Hc'. cbn. rewrite V1m.
    rewrite upd_ne; [done|]. by intros <-. }
  pose proof (subscribe_run r CH_URI tbl (region_world s w1) Ht1) as Hs.
  change (max_topics (rg_config r)) with (max_topics config) in Hs. rewrite P7 in Hs.
  destruct (run_on_done s _ w1 _ _ Hs) as (w2 & -> & V2 & K2). cbn [run].
  pose proof V2 as (V2m & V2n & V2o). cbn in V2m.
  exists w2. split.
  - unfold new_stream, set_last_seq. cbn. rewrite V1m, upd_ne by done. by rewrite P8.
  - split; [|split; [by etransitivity|]].
    + intros c C1 C2. rewrite V2m, upd_ne, V1m, upd_ne by done. done.
    + cbn in *. split; congruence.
Qed.

(** The first attempt finds it, whatever the timeout. *)
Lemma wait_connects fuel timeout (w : pworld) x w' :
  w_mono w + timeout < 2 ^ 63 * 1000000000 -> run (attempt 0) w = (Done (Ok x), w') ->
  run (wait_for_peer attach (S fuel) s name timeout) w = (Done (Ok x), w').
Proof.
  intros Hov Hr. rewrite <- run_among_alone. unfold wait_for_peer. destruct (timeout =? 0).
  - by rewrite (wait_loop_attempt _ _ _ _ _ _ _ Hr).
  - cbn [bind instant_now run_among]. unfold instant_add. replace (_ <=? _) with false by lia.
    cbn [bind run_among]. by rewrite (wait_loop_attempt _ _ _ _ _ _ _ Hr).
Qed.

End Waiting.

(** ** The handshake *)

(** One side's own half: its region is fresh, and ready for the peer. *)
Lemma open_tx_run fuel s handle base pid id name config size now (w : pworld) :
  config_u32 config -> create_validate (side_name name s) config = Ok size ->
  max_topics config <= MAX_TOPICS_LIMIT -> w_now w = Some now -> 0 <= duration_as_micros now ->
  (forall c, in_shm config c = true -> w_mem w (s, c) = 0) ->
  exists w', run (open_tx fuel s handle base pid id name config) w =
      (Done (Ok (new_publisher (region_of handle base config) (side_name name s) true id (w_mono w), mkTopic 0 id)), w') /\
    fresh_region config handle (fun c => w_mem w' (s, c)) /\
    peer_ready (side_name name s) config pid now size 0 (fun c => w_mem w' (s, c)) /\
    kept_side (peer s) w w' /\ w_now w' = w_now w /\ w_mono w' = w_mono w.
Proof.
  intros Hc Hv Hmt Hnow Hpos Hz. unfold open_tx. rewrite run_bind.
  destruct (create_validate_ok _ _ _ Hc Hv) as (_ & _ & _ & _ & Hmt0).
  destruct (create_run handle base pid id (side_name name s) config size now (region_world s w) Hc Hv Hnow Hpos Hz)
    as (u1 & Hr1 & [C1 C2 C3 C4] & Hn1 & Hm1).
  destruct (run_on_done s _ w _ _ Hr1) as (w1 & -> & (V1m & V1n & V1o) & K1). rewrite run_bind.
  set (p := new_publisher _ _ _ _ _). unfold Publisher.register.
  pose proof (topic_register_run p CH_URI 0 (fun _ => Free) (region_world s w1)) as Hreg. cbn zeta in Hreg.
  change (rg_config (pb_region p)) with config in Hreg.
  assert (Hfree : TopicSpec.register (max_topics config) (fun _ => Free) CH_URI 0 =
    Some (0, set (fun _ => Free) 0 (Active CH_URI 0))).
  { unfold TopicSpec.register, find. assert (Hn : forall l, first (holds (fun _ => Free) CH_URI) l = None)
      by (induction l; done). rewrite Hn. by rewrite seqZ_cons by lia. }
  rewrite Hfree in Hreg. destruct Hreg as (m' & Hr2 & R1 & R2 & R3 & R4).
  { intros t Ht. cbn. rewrite V1m. by apply C4. }
  { done. }
  destruct (run_on_done s _ w1 _ _ Hr2) as (w2 & -> & (V2m & V2n & V2o) & K2). cbn in V2m, V2n, V2o, R4, Hn1, Hm1.
  assert (Hfr : forall c, entry_cell 0 c = false -> w_mem w2 (s, c) = w_mem u1 c)
    by (intros c Hc'; by rewrite V2m, R4, V1m).
  assert (Hws : w_mem w2 (s, TEWriteSeq 0) = 0).
  { rewrite V2m. destruct R3 as [->|R3]; [|done]. cbn. rewrite V1m. apply C2. unfold topic_ok. lia. }
  exists w2. split; [reflexivity|]. split; [|split; [|split; [by etransitivity|split; congruence]]].
  - eapply fresh_region_frame; [|exact C2]. intros c Hcell. destruct (entry_cell 0 c) eqn:He; [|by apply Hfr].
    destruct c; try discriminate He; try discriminate Hcell. unfold entry_cell in He. apply Z.eqb_eq in He as <-.
    rewrite Hws. symmetry. apply C2. unfold topic_ok. lia.
  - split; [|done|by exists size|done| | | |].
    + destruct (create_validate_ok _ _ _ Hc Hv) as (Hn & _). unfold validate_name. by rewrite Hn.
    + eapply header_written_frame; [|exact C1]. intros c Hcell. apply Hfr. by destruct c.
    + by rewrite Hfr.
    + exists (set (fun _ => Free) 0 (Active CH_URI 0)). split.
      * intros t Ht. eapply entry_repr_frame; [|by apply R1]. intros c _. apply V2m.
      * unfold find. rewrite seqZ_cons by lia. reflexivity.
    + rewrite V2m. specialize (R1 0 R2). unfold set in R1. rewrite decide_True in R1 by done. apply R1.
Qed.

Lemma peer_ready_frame name config pid hb size len t m m' :
  (forall c, m' c = m c) -> size <= len ->
  peer_ready name config pid hb size t m -> peer_ready name config pid hb len t m'.
Proof.
  intros Hm Hlen [P0 P1 (sz & P2 & P2') P3 P4 P5 (tbl & P6 & P7) P8]. split; [done|done| |done| | | |].
  - exists sz. split; [done|lia].
  - eapply header_written_frame; [|exact P4]. intros c _. apply Hm.
  - by rewrite Hm.
  - exists tbl. split; [|done]. intros t' Ht'. eapply entry_repr_frame; [|by apply P6]. intros c _. apply Hm.
  - by rewrite Hm.
Qed.

Lemma alive_now config now : alive config now now.
Proof.
  unfold alive, saturating_sub. rewrite Z.ltb_irrefl, Z.sub_diag. pose proof (wrap64_range (duration_as_micros (stale_timeout config))). lia.
Qed.

Lemma joined_fresh config h handle t m m' :
  joined handle t m m' -> handle <> h -> fresh_region config h m -> fresh_region config h m'.
Proof.
  intros Hj Hne. apply fresh_region_frame. intros c Hc. apply Hj; intros ->; cbn in Hc; [lia|done].
Qed.

(** What the system gives each side: the handle and address of its own mapping, its pid
    and publisher id, and its mapping of the peer's region. *)
Record side_env : Type := mkEnv {
  ev_handle : Z; ev_base : Z; ev_pid : Z; ev_id : Z;
  ev_rx_handle : Z; ev_rx_base : Z; ev_rx_len : Z
}.

Definition attach_of (e : side_env) : nat -> option (Z * Z * Z) :=
  fun _ => Some (ev_rx_handle e, ev_rx_base e, ev_rx_len e).

(** The server's half, the client's [connect], then the server's wait. *)
Definition handshake (fuel : nat) (env : side -> side_env) (name : bytes) (config : side -> Config) (timeout : Z)
    : prog chan_cell (option (Channel * Channel)) :=
  let e := env Srv in
  let* tx := open_tx fuel Srv (ev_handle e) (ev_base e) (ev_pid e) (ev_id e) name (config Srv) in
  match tx with
  | Err _ => Ret None
  | Ok (tx_pub, tx_topic) =>
      let c := env Cli in
      let* r := ch_connect (attach_of c) fuel (ev_handle c) (ev_base c) (ev_pid c) (ev_id c) name (config Cli) timeout in
      match r with
      | Err _ => Ret None
      | Ok cli =>
          let* l := open_rx (attach_of e) fuel Srv name timeout tx_pub tx_topic in
          Ret (match l with Ok srv => Some (srv, cli) | Err _ => None end)
      end
  end.

(** The endpoint a side ends up with. *)
Definition opened (env : side -> side_env) (name : bytes) (config : side -> Config) (mono : Z) (s : side) : Channel :=
  let e := env s in
  let r := region_of (ev_rx_handle e) (ev_rx_base e) (header_config (config (peer s))) in
  mkChannel s (new_publisher (region_of (ev_handle e) (ev_base e) (config s)) (side_name name s) true (ev_id e) mono)
    (mkTopic 0 (ev_id e)) (mkStream r 0 0 0) r.

Record env_ok (env : side -> side_env) (name : bytes) (config : side -> Config) (size : side -> Z)
    (timeout now : Z) (w : pworld) : Prop := {
  eo_u32 : forall s, config_u32 (config s);
  eo_valid : forall s, create_validate (side_name name s) (config s) = Ok (size s);
  eo_topics : forall s, max_topics (config s) <= MAX_TOPICS_LIMIT;
  eo_len : forall s, size s <= ev_rx_len (env (peer s));
  eo_handle : forall s, ev_rx_handle (env (peer s)) <> ev_handle (env s);
  eo_now : w_now w = Some now;
  eo_epoch : 0 <= duration_as_micros now;
  eo_zero : forall s c, in_shm (config s) c = true -> w_mem w (s, c) = 0;
  eo_timeout : 0 <= timeout;
  eo_clock : w_mono w + timeout < 2 ^ 63 * 1000000000
}.

Section Handshake.
Context (env : side -> side_env) (name : bytes) (config : side -> Config) (size : side -> Z).
Context (timeout now : Z) (w : pworld).
Hypothesis (Hok : env_ok env name config size timeout now w).

(** The second half of side [s], once the peer's region is ready. *)
Lemma open_rx_run fuel s (w1 : pworld) p t :
  peer_ready (side_name name (peer s)) (config (peer s)) (ev_pid (env (peer s))) now (size (peer s)) 0
    (fun c => w_mem w1 (peer s, c)) ->
  w_now w1 = w_now w -> w_mono w1 = w_mono w ->
  let r := region_of (ev_rx_handle (env s)) (ev_rx_base (env s)) (header_config (config (peer s))) in
  exists w2, run (open_rx (attach_of (env s)) (S fuel) s name timeout p t) w1 =
      (Done (Ok (mkChannel s p t (mkStream r 0 0 0) r)), w2) /\
    joined (ev_rx_handle (env s)) 0 (fun c => w_mem w1 (peer s, c)) (fun c => w_mem w2 (peer s, c)) /\
    kept_side s w1 w2 /\ w_now w2 = w_now w /\ w_mono w2 = w_mono w.
Proof.
  intros Hp Hn Hm r. pose proof Hok as [E1 E2 E3 E4 E5 E6 E7 E8 E9 E10]. unfold open_rx. rewrite run_bind.
  destruct (attempt_ready (attach_of (env s)) (peer s) (side_name name (peer s)) 0 w1 (config (peer s))
    (ev_pid (env (peer s))) now (ev_rx_handle (env s)) (ev_rx_base (env s)) (ev_rx_len (env s)) 0 now)
    as (w2 & Hr & J & K & Hn2 & Hm2).
  - done.
  - eapply peer_ready_frame; [done| |exact Hp]. specialize (E4 (peer s)). by rewrite peer_peer in E4.
  - congruence.
  - apply alive_now.
  - rewrite (wait_connects _ _ _ fuel timeout w1 _ w2) by (done || by rewrite Hm). cbn [run]. exists w2.
    split; [done|]. split; [exact J|]. rewrite peer_peer in K. split; [exact K|]. split; congruence.
Qed.

(** Both halves, both sides. *)
Lemma handshake_run fuel :
  exists w', run (handshake (S fuel) env name config timeout) w =
      (Done (Some (opened env name config (w_mono w) Srv, opened env name config (w_mono w) Cli)), w') /\
    forall s, fresh_region (config s) (ev_handle (env s)) (fun c => w_mem w' (s, c)).
Proof.
  pose proof Hok as [E1 E2 E3 E4 E5 E6 E7 E8 E9 E10]. unfold handshake. rewrite run_bind.
  destruct (open_tx_run (S fuel) Srv (ev_handle (env Srv)) (ev_base (env Srv)) (ev_pid (env Srv)) (ev_id (env Srv)) name
    (config Srv) (size Srv) now w (E1 Srv) (E2 Srv) (E3 Srv) E6 E7 (E8 Srv)) as (w1 & -> & F1 & P1 & K1 & N1 & M1).
  unfold ch_connect, open_side. rewrite !run_bind.
  destruct (open_tx_run (S fuel) Cli (ev_handle (env Cli)) (ev_base (env Cli)) (ev_pid (env Cli)) (ev_id (env Cli)) name
    (config Cli) (size Cli) now w1 (E1 Cli) (E2 Cli) (E3 Cli)) as (w2 & -> & F2 & P2 & K2 & N2 & M2); [congruence|done| |].
  { intros c Hc. transitivity (w_mem w (Cli, c)); [apply (K1 c)|by apply E8]. }
  destruct (open_rx_run fuel Cli w2 (new_publisher (region_of (ev_handle (env Cli)) (ev_base (env Cli)) (config Cli))
    (side_name name Cli) true (ev_id (env Cli)) (w_mono w1)) (mkTopic 0 (ev_id (env Cli))))
    as (w3 & -> & J3 & K3 & N3 & M3); [|congruence|congruence|].
  { eapply peer_ready_frame; [intros c; apply (K2 c)|reflexivity|exact P1]. }
  cbn match. rewrite run_bind.
  destruct (open_rx_run fuel Srv w3
    (new_publisher (region_of (ev_handle (env Srv)) (ev_base (env Srv)) (config Srv))
      (side_name name Srv) true (ev_id (env Srv)) (w_mono w)) (mkTopic 0 (ev_id (env Srv))))
    as (w4 & -> & J4 & K4 & _); [|done|done|].
  { eapply peer_ready_frame; [intros c; apply (K3 c)|reflexivity|exact P2]. }
  exists w4. split; [unfold opened; by rewrite M1|]. intros [|].
  - eapply fresh_region_frame; [intros c _; apply (K4 c)|].
    eapply joined_fresh; [exact J3|apply (E5 Srv)|].
    eapply fresh_region_frame; [intros c _; apply (K2 c)|exact F1].
  - eapply joined_fresh; [exact J4|apply (E5 Cli)|].
    eapply fresh_region_frame; [intros c _; apply (K3 c)|exact F2].
Qed.

End Handshake.

Lemma handshake_opens fuel env name config size timeout now (w : pworld) :
  env_ok env name config size timeout now w ->
  let ends := opened env name config (w_mono w) in
  exists w', run (handshake (S fuel) env name config timeout) w = (Done (Some (ends Srv, ends Cli)), w') /\
    forall cmds, (forall s, Z.of_nat (length (cmds s)) < 2 ^ 63) -> chan_setup config ends cmds (w_mem w').
Proof.
  intros Hok ends. destruct (handshake_run _ _ _ _ _ _ _ Hok fuel) as (w' & Hr & Hf).
  exists w'. split; [exact Hr|]. intros cmds Hlen. split; [by intros []|by intros []|].
  intros s. exists (size s).
  destruct (create_validate_ok _ _ _ (eo_u32 _ _ _ _ _ _ _ Hok s) (eo_valid _ _ _ _ _ _ _ Hok s)) as (_ & L & Hp & _ & Hmt).
  assert (H0 : topic_ok (config s) 0) by (unfold topic_ok; lia).
  split; [exact L|exact Hp|apply Hf| | | | |done].
  - eexists _, _, _, _. split; [|reflexivity]. reflexivity.
  - unfold tx_cmds. clear Hlen. induction (cmds s) as [|c l IH]; [constructor|].
    destruct c; cbn; try exact IH; constructor; first [exact IH|exact H0|exact I].
  - unfold tx_cmds. pose proof (length_omap_le (fun c => match c with
      | ChSend data => Some (PPublish (ch_tx_topic (ends s)) data)
      | ChLoanDrop => Some (PLoanDrop (ch_tx_topic (ends s))) | ChHeartbeat => Some PHeartbeat
      | _ => None end) (cmds s)) as Hle. specialize (Hlen s). lia.
  - constructor; [|constructor]. split; [by destruct s|]. split; [exact H0|apply rx_cmds_ok].
Qed.

(** C25. Opening a channel: from zero-filled files for both directions, the server's
    [listen] and the client's [connect] (which runs once the server has registered its
    topic) both succeed, and the endpoints meet what delivery needs: each side owns a
    fresh region with its topic registered, and the peer's stream is on that topic, at
    its start. *)
Theorem channel_opens fuel env name config size timeout now (w : pworld) :
  env_ok env name config size timeout now w ->
  let ends := opened env name config (w_mono w) in
  exists w', run (handshake (S fuel) env name config timeout) w = (Done (Some (ends Srv, ends Cli)), w') /\
    forall cmds, (forall s, Z.of_nat (length (cmds s)) < 2 ^ 63) -> chan_setup config ends cmds (w_mem w').
Proof. apply handshake_opens. Qed.

(** C26. Waiting for the peer ends, with the first success or after the timeout. Let
    the other processes do anything to the regions during the pauses ([acts]), and let
    the file system show any file, or none, to each attempt ([attach]).
    [wait_for_peer] always returns (the deadline must fit the clock): it makes
    attempts 10 ms apart, goes on after every kind of failure (no file, a file that is
    not valid yet, a stale heartbeat, "/ch" not registered), and returns what the
    first attempt that succeeds gives; if none does, it returns the error of the
    attempt made when the timeout has passed, less than one pause late. With timeout 0
    it tries once. An attempt at a region with a valid header, a recent heartbeat and
    the topic "/ch" registered succeeds: it gives a subscriber with the configuration
    of that header and a stream at the start of the topic, whatever was published
    before, and changes only the topic's subscriber count and the process-local
    recycling word. *)
Theorem wait_for_peer_outcome attach acts s name fuel timeout (w : pworld) :
  0 <= timeout -> w_mono w + timeout < 2 ^ 63 * 1000000000 ->
  (exists n w1 res w2, (n <= retries timeout)%nat /\ failing attach s name acts 0 n w w1 /\
     run (attempt attach s name n) w1 = (Done res, w2) /\
     run_among acts (wait_for_peer attach (retries timeout + S fuel) s name timeout) w = (Done res, w2) /\
     w_mono w2 = w_mono w + Z.of_nat n * RETRY_SLEEP /\
     (forall e, res = Err e -> exists late, w_mono w2 = w_mono w + timeout + late /\ 0 <= late < RETRY_SLEEP)) /\
  (forall i (w1 : pworld) config pid hb handle base len t now,
     attach i = Some (handle, base, len) ->
     peer_ready name config pid hb len t (fun c => w_mem w1 (s, c)) ->
     w_now w1 = Some now -> alive config hb now ->
     let r := region_of handle base (header_config config) in
     exists w2, run (attempt attach s name i) w1 = (Done (Ok (r, mkStream r t 0 0)), w2) /\
       joined handle t (fun c => w_mem w1 (s, c)) (fun c => w_mem w2 (s, c)) /\ kept_side (peer s) w1 w2).
Proof.
  intros H0 Hov. split.
  - destruct (wait_outcome attach s name acts fuel timeout w H0 Hov) as (n & w1 & res & w2 & A1 & A2 & A3 & A4 & A5 & A6).
    exists n, w1, res, w2. do 5 (split; [done|]). intros e He. rewrite (A6 e He) in A5.
    pose proof (retries_bounds timeout H0).
    exists (Z.of_nat (retries timeout) * RETRY_SLEEP - timeout). split; lia.
  - intros i w1 config pid hb handle base len t now Ha Hp Hnow Hal r.
    destruct (attempt_ready attach s name i w1 config pid hb handle base len t now Ha Hp Hnow Hal)
      as (w2 & B1 & B2 & B3 & _). by exists w2.
Qed.

(** ** Delivery *)

Lemma channel_delivers `{Os : OsPlatform, !OsLaws Os} fuel config ends cmds m ps h :
  chan_setup config ends cmds m ->
  rtc (cstep chan_window) (chan_threads fuel ends cmds, h_init m) (ps, h) ->
  (forall t, ps !! t <> Some Panic) /\
  forall s out, ps !! tid s = Some (Ret out) ->
    exists ms, ms `sublist_of` sent (cmds (peer s)) /\ forall k bs, (k, bs) ∈ out -> ms !! k = Some bs.
Proof.
  intros [Hside Hst Hreg] Hr. destruct (projects_reach _ _ _ _ Hside _ _ Hr) as (p & pub & sub & u & -> & Hp).
  assert (Hps : forall t q, [p Srv; p Cli] !! t = Some q -> exists s, t = tid s /\ q = p s).
  { intros [|[|t]] q Hq; cbn in Hq; [exists Srv|exists Cli|done]; by injection Hq as <-. }
  assert (Hreach : forall s, region_reachable fuel
    [mkPub (ch_tx_pub (ends s)) (tx_cmds (ch_tx_topic (ends s)) (cmds s))]
    [mkSub (ch_rx_sub (ends (peer s))) (tp_topic_idx (ch_tx_topic (ends s))) 0 (rx_cmds (cmds (peer s)))]
    (side_mem m s) [pub s; sub s] (u s)).
  { intros s. destruct (Hp s) as [H _]. unfold region_pool in H. by rewrite Hst in H. }
  assert (Hnp : forall s t, [pub s; sub s] !! t <> Some Panic).
  { intros s. destruct (Hreg s) as [size Hsu%setup_region].
    by destruct (reach fuel _ _ _ _ _ Hsu _ _ (Hreach s)) as (g & _ & _ & H). }
  split.
  - intros t [s [-> E]]%Hps. destruct (Hp s) as (_ & _ & Hsh).
    destruct (shuffle_panic _ _ _ _ Hsh (eq_sym E)) as [Ha|Hb].
    + apply (Hnp s 0%nat). cbn. by rewrite Ha.
    + apply (Hnp (peer s) 1%nat). cbn. by rewrite Hb.
  - intros s out [s' [->%tid_inj E]]%Hps. destruct (Hp s') as (_ & _ & Hsh).
    destruct (shuffle_ret _ _ _ _ _ Hsh (eq_sym E)) as [_ Hb]. destruct (Hreg (peer s')) as [size Hsu%setup_region].
    rewrite <- (requested_tx (ch_tx_topic (ends (peer s')))), <- (all_requested_single (ch_tx_pub (ends (peer s')))).
    refine (reach_delivered fuel _ _ _ _ _ Hsu _ _ 0%nat _ out (Hreach (peer s')) eq_refl _).
    cbn. by rewrite Hb.
Qed.

(** C11. End-to-end delivery of a channel, in both directions at once: in every
    interleaving of the two endpoints, each of which sends, receives, reads and drops
    samples in any order, what an endpoint reads from the k-th sample it received is
    the k-th element of one list of messages, and that list is a sublist (in order,
    nothing repeated or invented) of what the other endpoint asked to send. The traffic
    of one direction never disturbs the other. No endpoint panics. *)
Theorem channel_delivery `{Os : OsPlatform, !OsLaws Os} fuel config ends cmds m ps h :
  chan_setup config ends cmds m ->
  rtc (cstep chan_window) (chan_threads fuel ends cmds, h_init m) (ps, h) ->
  (forall t, ps !! t <> Some Panic) /\
  forall s out, ps !! tid s = Some (Ret out) ->
    exists ms, ms `sublist_of` sent (cmds (peer s)) /\ forall k bs, (k, bs) ∈ out -> ms !! k = Some bs.
Proof. apply channel_delivers. Qed.

(** ** An instance: a client and a server that exchange messages *)

Module ChannelDemo.

Definition env (s : side) : side_env :=
  match s with
  | Srv => mkEnv 0 4096 70 7 1 20480 704
  | Cli => mkEnv 0 12288 80 8 1 28672 704
  end.
Definition config (_ : side) : Config := config_small.
Definition world0 : pworld := mkWorld (fun _ => 0) (Some 1000000000) 5 [].

Definition ends : side -> Channel := opened env [99] config 5.
Definition memory : cellmem chan_cell := w_mem (run (handshake 1 env [99] config 30) world0).2.

(** The client asks twice, the server answers and reads a request again at the end. *)
Definition cmds (s : side) : list chan_cmd :=
  match s with
  | Cli => [ChSend [1; 2]; ChSend [3]; ChTryRecv; ChRead 0]
  | Srv => [ChTryRecv; ChRead 0; ChSend [9; 9]; ChTryRecv; ChRead 1; ChDrop 1; ChHeartbeat; ChRead 0]
  end.

Definition schedule : list (nat * nat) := [(1, 41); (0, 13); (1, 3); (0, 100); (1, 200); (0, 100)]%nat.
Definition final : list (prog chan_cell reads) * hstate chan_cell :=
  exec chan_window (Some 0) schedule (chan_threads 10 ends cmds) (h_init memory).

Lemma chan_env_ok : env_ok env [99] config (fun _ => 704) 30 1000000000 world0.
Proof.
  split; try (intros s; destruct s; vm_compute; congruence); try (vm_compute; congruence); try done.
Defined.

Lemma chan_final_reachable :
  rtc (cstep chan_window) (chan_threads 10 ends cmds, h_init memory) (final.1, final.2).
Proof.
  pose proof (exec_sound chan_window (Some 0) schedule (chan_threads 10 ends cmds) (h_init memory)) as H.
  unfold final in *. by destruct (exec _ _ _ _ _).
Defined.

Lemma chan_setup_any cmds :
  (forall s, Z.of_nat (length (cmds s)) < 2 ^ 63) -> chan_setup config ends cmds memory.
Proof.
  destruct (handshake_opens 0 _ _ _ _ _ _ _ chan_env_ok) as (w' & Hr & Hs).
  unfold memory. rewrite Hr. apply Hs.
Qed.

Lemma chan_setup_ok : chan_setup config ends cmds memory.
Proof. apply chan_setup_any. intros []; vm_compute; reflexivity. Qed.

End ChannelDemo.

Lemma channel_opens_witness :
  exists w', run (handshake 1 ChannelDemo.env [99] ChannelDemo.config 30) ChannelDemo.world0 =
      (Done (Some (ChannelDemo.ends Srv, ChannelDemo.ends Cli)), w') /\
    chan_setup ChannelDemo.config ChannelDemo.ends ChannelDemo.cmds (w_mem w').
Proof.
  destruct (channel_opens 0 ChannelDemo.env [99] ChannelDemo.config (fun _ => 704) 30 1000000000
    ChannelDemo.world0 ChannelDemo.chan_env_ok) as (w' & H1 & H2).
  exists w'. split; [exact H1|]. apply H2. intros []; vm_compute; reflexivity.
Defined.

Lemma channel_delivery_witness :
  ChannelDemo.final.1 = [Ret [(0%nat, [1; 2]); (1%nat, [3]); (0%nat, [1; 2])]; Ret [(0%nat, [9; 9])]] /\
  (exists ms, ms `sublist_of` [[1; 2]; [3]] /\
    forall k bs, (k, bs) ∈ [(0%nat, [1; 2]); (1%nat, [3]); (0%nat, [1; 2])] -> ms !! k = Some bs) /\
  exists ms, ms `sublist_of` [[9; 9]] /\ forall k bs, (k, bs) ∈ [(0%nat, [9; 9])] -> ms !! k = Some bs.
Proof.
  assert (Hf : ChannelDemo.final.1 =
    [Ret [(0%nat, [1; 2]); (1%nat, [3]); (0%nat, [1; 2])]; Ret [(0%nat, [9; 9])]]) by (vm_compute; reflexivity).
  split; [exact Hf|].
  destruct (channel_delivery 10 ChannelDemo.config ChannelDemo.ends ChannelDemo.cmds ChannelDemo.memory
    ChannelDemo.final.1 ChannelDemo.final.2 ChannelDemo.chan_setup_ok ChannelDemo.chan_final_reachable) as [_ H].
  split; [apply (H Srv)|apply (H Cli)]; rewrite Hf; reflexivity.
Defined.

(** No file at the first attempt; at the second one the region without its topic; the
    client registers it in the pause after that, and the third attempt succeeds. Where no
    file ever appears, the wait of 25 ms ends with the I/O error after 30 ms. *)
Definition created_mem : cellmem chan_cell :=
  w_mem (run (on Cli (create 0 12288 80 8 (side_name [99] Cli) config_small)) ChannelDemo.world0).2.
Definition registered_mem : cellmem chan_cell :=
  w_mem (run (open_tx 1 Cli 0 12288 80 8 [99] config_small) ChannelDemo.world0).2.
Definition created_world : pworld := mkWorld created_mem (Some 1000000000) 5 [].
Definition appears (j : nat) : option (Z * Z * Z) := if (j <? 1)%nat then None else Some (1, 28672, 704).
Definition registers (t : Z) (m : cellmem chan_cell) : cellmem chan_cell :=
  if 10000000 <? t then registered_mem else m.

Lemma wait_for_peer_outcome_witness :
  (run (attempt appears Cli (side_name [99] Cli) 1) created_world).1 = Done (Err (TopicNotFound CH_URI)) /\
  (exists w1 w2, failing appears Cli (side_name [99] Cli) registers 0 2 created_world w1 /\
    run_among registers (wait_for_peer appears 4 Cli (side_name [99] Cli) 30000000) created_world =
      (Done (Ok (region_of 1 28672 (header_config config_small),
                 mkStream (region_of 1 28672 (header_config config_small)) 0 0 0)), w2)) /\
  exists w2, run_among (fun _ m => m) (wait_for_peer (fun _ => None) 4 Srv [99] 25000000) ChannelDemo.world0 =
      (Done (Err Io), w2) /\ w_mono w2 = 5 + 30000000.
Proof.
  split; [vm_compute; reflexivity|]. split.
  - destruct (wait_for_peer_outcome appears registers Cli (side_name [99] Cli) 0 30000000 created_world)
      as [(n & w1 & res & w2 & _ & Hf & _ & Hr & Hm & _) _]; [lia|vm_compute; reflexivity|].
    change (retries 30000000 + 1)%nat with 4%nat in Hr. pose proof (f_equal fst Hr) as Hres.
    pose proof (f_equal (fun x => w_mono x.2) Hr) as Hmono. vm_compute in Hres. cbv beta in Hmono.
    replace (w_mono (run_among registers (wait_for_peer appears 4 Cli (side_name [99] Cli) 30000000) created_world).2)
      with (5 + 20000000) in Hmono by (vm_compute; reflexivity).
    cbn [fst snd] in Hmono. rewrite Hm in Hmono. change (w_mono created_world) with 5 in Hmono.
    change RETRY_SLEEP with 10000000 in Hmono. assert (n = 2%nat) as -> by lia.
    exists w1, w2. split; [exact Hf|]. rewrite Hr. injection Hres as <-. reflexivity.
  - destruct (wait_for_peer_outcome (fun _ => None) (fun _ m => m) Srv [99] 0 25000000 ChannelDemo.world0)
      as [(n & w1 & res & w2 & _ & Hf & Ha & Hr & Hm & Hlate) _]; [lia|vm_compute; reflexivity|].
    change (retries 25000000 + 1)%nat with 4%nat in Hr. exists w2. split.
    + rewrite Hr. pose proof (f_equal fst Hr) as Hres. vm_compute in Hres. injection Hres as <-. reflexivity.
    + pose proof (f_equal (fun x => w_mono x.2) Hr) as Hmono. vm_compute in Hmono. exact (eq_sym Hmono).
Defined.
