(* ===== verification/Robust.v ===== *)
(** * Robust: memory safety against a hostile region

    Every process maps the region read-write, so another process may put any value
    into any shared word at any time. The API operations are shown to access only
    cells of the mapped file, to write only values of the cell's width, and to hand
    out only blocks and lengths inside the pool, whatever the loads return. The
    same judgement exhibits the operations whose checks are not enough. *)

From S2P Require Import Prelude Errors Layout Atomics Rely ShmBytes Pool Ring Wait Subscription.
From S2P Require Import Loan Publisher SubscriberProof PublisherProof Startup.

Section Robust.
Context (r : Region).
Local Abbreviation cfg := (rg_config r).
Hypothesis (Hcfg : config_u32 cfg).
Hypothesis (Hbs : BLOCK_DATA_OFFSET + 1 <= block_size cfg).
Hypothesis (Hpow : is_power_of_two (ring_depth cfg) = true).

Local Abbreviation valid := (cell_valid cfg).
Local Abbreviation fits := (cell_fits cfg).

Local Abbreviation robust := (robust valid fits).

(** ** Cells *)

Lemma topic_cell_valid t : topic_ok cfg t ->
  valid (TEActive t) /\ valid (TEWriteSeq t) /\ valid (TEWaiters t) /\ valid (TEUriLen t) /\
  valid (TEUriHash t) /\ valid (TETypeSize t) /\ valid (TEPinnedBlock t) /\
  valid (TEPinnedReaders t) /\ valid (TEPinnedSeq t) /\ valid (TESubscriberCount t).
Proof. unfold topic_ok, cell_valid. cbn. intros. zb_rewrite. done. Qed.

Lemma slot_cell_valid t q : topic_ok cfg t -> 0 <= q ->
  let s := ring_slot cfg q in
  valid (RESeq t s) /\ valid (REBlockIdx t s) /\ valid (REDataLen t s).
Proof.
  intros Ht Hq. cbv zeta. pose proof (ring_slot_range cfg q Hcfg Hpow Hq) as Hs.
  unfold topic_ok, cell_valid in *. cbn. zb_rewrite. done.
Qed.

Lemma capacity_value : data_capacity r = block_size cfg - BLOCK_DATA_OFFSET.
Proof.
  unfold data_capacity. apply wrap64_small.
  unfold config_u32, in_u32, in_u64, BLOCK_DATA_OFFSET in *. lia.
Qed.

Lemma data_cell_valid b i : block_ok cfg b -> 0 <= i < data_capacity r -> valid (BKData b i).
Proof.
  rewrite capacity_value. unfold block_ok, cell_valid. cbn. intros. zb_rewrite. done.
Qed.

Lemma fits32 c v : cell_size c = 4 -> fits c v -> in_u32 v.
Proof. intros Hs [Hv _]. by rewrite Hs in Hv. Qed.

Lemma fits64 c v : cell_size c = 8 -> fits c v -> in_u64 v.
Proof. intros Hs [Hv _]. by rewrite Hs in Hv. Qed.

(** ** Pool and ring *)

Lemma rb_alloc_block fuel :
  robust (alloc_block r fuel) (fun res => forall b, res = Ok (Some b) -> block_ok cfg b).
Proof. split; [by apply alloc_block_safe | by apply alloc_block_returns]. Qed.

Lemma rb_free_block fuel b : 0 <= b -> robust (free_block r fuel b) (fun _ => True).
Proof. intros. split; [by apply free_block_safe | apply returns_any]. Qed.

Lemma rb_release_block fuel b : 0 <= b -> robust (release_block r fuel b) (fun _ => True).
Proof. intros. split; [by apply release_block_safe | apply returns_any]. Qed.

Lemma fits_last_freed v : fits (LastFreed (rg_handle r)) v -> v = NO_BLOCK \/ block_ok cfg v.
Proof. intros [Hv [->|Hb]]; [by left|]. right. unfold block_ok. lia. Qed.

Lemma rb_alloc_recycled :
  robust (alloc_recycled r) (fun o => forall b, o = Some b -> block_ok cfg b).
Proof.
  unfold alloc_recycled, swap. eapply rb_bind.
  - apply rb_rmw; [done|]. intros v _. split; [split; vm_compute; congruence | by left].
  - intros v Hv%fits_last_freed. apply rb_ret. intros b.
    destruct (Z.eqb_spec v NO_BLOCK); cbn [negb]; [done|]. intros [= <-]. by destruct Hv.
Qed.

Lemma rb_claim_slot fuel c spins : valid c -> cell_size c = 8 ->
  robust (claim_slot fuel c spins) (fun _ => True).
Proof.
  intros Hc Hs. assert (fits c SEQ_WRITING).
  { apply fits_u64; [done|]. unfold in_u64, SEQ_WRITING, u64_max. lia. }
  revert spins. induction fuel as [|fuel IH]; intros spins; cbn [claim_slot]; [done|].
  eapply rb_bind; [by apply rb_load|]. intros v _. destruct (_ =? _).
  - destruct (_ <? _); [by apply rb_store | apply IH].
  - eapply rb_bind; [by apply rb_cas|]. intros [[] v'] _; [by apply rb_ret | apply IH].
Qed.

Lemma rb_fetch32 c (f : Z -> Z) : valid c -> cell_size c = 4 -> priv_of c = None ->
  robust (ARmw c (fun v => wrap32 (f v)) Ret) in_u32.
Proof.
  intros Hc Hs Hp. eapply rb_weaken; [apply rb_rmw; [done|]|].
  - intros v _. apply fits_u32; [done|done|apply wrap32_range].
  - intros v Hv. by eapply fits32.
Qed.

Lemma rb_release_old fuel b : in_u32 b -> robust (release_old r fuel b) (fun _ => True).
Proof.
  intros Hb. unfold release_old.
  destruct (Z.eqb_spec b NO_BLOCK); cbn [negb andb]; [by apply rb_ret|].
  destruct (Z.ltb_spec b (block_count cfg)); [|by apply rb_ret].
  assert (Hok : block_ok cfg b) by (unfold block_ok, in_u32 in *; lia).
  eapply rb_bind; [apply rb_fetch32; [by apply valid_block|done..]|]. intros prev _.
  destruct (_ =? _); [|by apply rb_ret]. unfold swap. eapply rb_bind.
  - apply rb_rmw; [done|]. intros v _. split; [done | by right].
  - intros v Hv%fits_last_freed. destruct (Z.eqb_spec v NO_BLOCK); cbn [negb]; [by apply rb_ret|].
    apply rb_free_block. destruct Hv as [|Hv]; [done | unfold block_ok in Hv; lia].
Qed.

Lemma rb_smart_wake wake t : topic_ok cfg t -> robust (smart_wake wake t) (fun _ => True).
Proof.
  intros Ht. destruct (topic_cell_valid t Ht) as (? & ? & ? & _).
  unfold smart_wake. destruct wake; [|by apply rb_ret].
  eapply rb_bind; [by apply rb_load|]. intros v _. destruct (_ <? _); [by apply rb_wake | by apply rb_ret].
Qed.

(** [rb_step] discharges the next access of a goal [robust (bind ..) _]. *)
Ltac rb_step := eapply rb_bind;
  [first [apply rb_load | apply rb_store | apply rb_fetch32 | apply rb_cas | apply rb_mono
         | apply rb_smart_wake]; eauto |].

Lemma rb_commit_to_ring fuel b len t wake single :
  block_ok cfg b -> in_u32 len -> topic_ok cfg t ->
  robust (commit_to_ring r fuel b len t wake single) (fun _ => True).
Proof.
  intros Hb Hl Ht. destruct (topic_cell_valid t Ht) as (_ & Hws & _).
  unfold commit_to_ring, fetch_add64. eapply rb_bind.
  { apply rb_rmw; [done|]. intros v _. apply fits_u64; [done|]. apply wrap64_range. }
  intros prev _. set (seq := wrap64 (prev + 1)).
  assert (Hseq : in_u64 seq) by apply wrap64_range.
  destruct (slot_cell_valid t seq Ht ltac:(apply Hseq)) as (H1 & H2 & H3).
  eapply rb_bind.
  { destruct single; [|by apply rb_claim_slot]. apply rb_store; [done|].
    apply fits_u64; [done|]. unfold in_u64, SEQ_WRITING, u64_max. lia. }
  intros _ _. rb_step. intros old Hold. apply fits32 in Hold; [|done].
  eapply rb_bind; [apply rb_store; [by apply valid_block | by apply fits_u32]|]. intros _ _.
  eapply rb_bind; [apply rb_store; [done | apply fits_u32; eauto with crossbar]|]. intros _ _.
  eapply rb_bind; [apply rb_store; [done | by apply fits_u32]|]. intros _ _.
  eapply rb_bind; [apply rb_store; [done | by apply fits_u64]|]. intros _ _.
  eapply rb_bind; [by apply rb_release_old|]. intros _ _. by apply rb_smart_wake.
Qed.

(** ** Subscriber *)

(** A stream of this region on a topic of the table. *)
Definition stream_ok (st : Stream) : Prop :=
  st_region st = r /\ topic_ok cfg (st_topic_idx st) /\ in_u64 (st_last_seq st).

Definition block_len_ok (b len : Z) : Prop := block_ok cfg b /\ 0 <= len <= data_capacity r.

Definition sample_ok (s : Sample) : Prop :=
  sm_region s = r /\ block_len_ok (sm_block_idx s) (sm_len s).

Lemma rb_acquire_ref fuel b : block_ok cfg b ->
  robust (acquire_ref fuel (BKRefcount b)) (fun _ => True).
Proof.
  intros Hb. assert (valid (BKRefcount b)) by by apply valid_block.
  induction fuel as [|fuel IH]; cbn [acquire_ref]; [done|].
  rb_step. intros rc _. destruct (_ =? _); [by apply rb_ret|].
  eapply rb_bind; [apply rb_cas; [done | apply fits_u32; [done|done|apply wrap32_range]]|].
  intros [[] v] _; [by apply rb_ret | apply IH].
Qed.

Definition slot_read_ok (o : Stream * SlotRead) : Prop :=
  stream_ok o.1 /\ block_len_ok (sr_block_idx o.2) (sr_data_len o.2).

Lemma rb_try_read_slot_raw fuel st q :
  stream_ok st -> in_u64 q ->
  robust (try_read_slot_raw fuel st q) (fun o => forall x, o = Some x -> slot_read_ok x).
Proof.
  intros (Hr & Ht & Hl) Hq. unfold try_read_slot_raw. rewrite Hr.
  destruct (slot_cell_valid _ q Ht ltac:(apply Hq)) as (H1 & H2 & H3).
  rb_step. intros s1 _. destruct (negb _); [by apply rb_ret|].
  rb_step. intros b Hb. apply fits32 in Hb; [|done].
  rb_step. intros len Hlen. apply fits32 in Hlen; [|done].
  destruct (_ =? _); [by apply rb_ret|].
  unfold block_refcount_checked, block_ptr_checked.
  destruct (Z.leb_spec (block_count cfg) b); [by apply rb_ret|].
  destruct (Z.ltb_spec (data_capacity r) len); [by apply rb_ret|].
  assert (Hok : block_ok cfg b) by (unfold block_ok, in_u32 in *; lia).
  cbn [mbind option_bind]. eapply rb_bind; [by apply rb_acquire_ref|].
  intros acq _. destruct (negb acq); [by apply rb_ret|].
  rb_step. intros s2 _. destruct (negb _).
  - eapply rb_bind; [apply rb_release_block; apply Hb|]. intros _ _. by apply rb_ret.
  - apply rb_ret. intros x [= <-]. unfold slot_read_ok, stream_ok, block_len_ok, in_u32 in *. cbn.
    split; [done|]. split; [done | lia].
Qed.

Lemma rb_scan_slots fuel st :
  stream_ok st -> robust (scan_slots fuel st) (fun o => forall x, o = Some x -> slot_read_ok x).
Proof.
  intros Hst. pose proof Hst as (Hr & Ht & Hl). unfold scan_slots.
  destruct (topic_cell_valid _ Ht) as (_ & Hws & _).
  rb_step. intros cur Hcur. apply fits64 in Hcur; [|done].
  destruct (_ <=? _); [by apply rb_ret|].
  set (first := scan_start _ _ _).
  assert (Hf : 0 <= first).
  { unfold first, scan_start. pose proof (wrap64_range (st_last_seq st + 1)) as [Hw _].
    destruct (Z.leb_spec (ring_depth (rg_config (st_region st))) (cur - wrap64 (st_last_seq st + 1)));
      lia. }
  apply rb_for_return; [|by apply rb_ret]. intros q Hq%elem_of_seqZ.
  eapply rb_bind; [apply rb_try_read_slot_raw; [done | unfold in_u64 in *; lia]|].
  intros o Ho. apply rb_ret. intros b Hb x Hx. destruct o as [g|]; simplify_eq. by apply Ho.
Qed.

Lemma rb_try_recv fuel st :
  stream_ok st ->
  robust (try_recv fuel st) (fun '(st', o) => stream_ok st' /\ forall s, o = Some s -> sample_ok s).
Proof.
  intros Hst. unfold try_recv. eapply rb_bind; [by apply rb_scan_slots|].
  intros [[st' sr]|] Ho; apply rb_ret; [|by split]. destruct (Ho _ eq_refl) as [H1 H2].
  split; [done|]. intros s [= <-]. split; [apply Hst | done].
Qed.

(** A type whose values fit a block. *)
Definition type_fits (T : Pod) : Prop := 0 <= size_of T <= data_capacity r.

Lemma rb_try_recv_typed fuel T st :
  type_fits T -> stream_ok st ->
  robust (try_recv_typed fuel T st)
    (fun '(st', o) => stream_ok st' /\ forall s, o = Some s -> sample_ok (typed_view s)).
Proof.
  intros HT Hst. unfold try_recv_typed. destruct (_ && _); [by apply rb_ret|].
  eapply rb_bind; [by apply rb_scan_slots|].
  intros [[st' sr]|] Ho; apply rb_ret; [|by split]. destruct (Ho _ eq_refl) as [H1 [H2 _]].
  split; [done|]. intros s [= <-]. split; [apply Hst|]. by split.
Qed.

Lemma rb_load_block b i n :
  block_ok cfg b -> 0 <= i -> i + Z.of_nat n <= data_capacity r ->
  robust (load_block b i n) (fun _ => True).
Proof.
  intros Hb. revert i. induction n as [|n IH]; intros i Hi Hn; cbn [load_block]; [by apply rb_ret|].
  eapply rb_bind; [apply rb_load, data_cell_valid; [done|lia]|]. intros v _.
  eapply rb_bind; [apply IH; lia|]. intros rest _. by apply rb_ret.
Qed.

Lemma rb_sample_to_vec s : sample_ok s -> robust (sample_to_vec s) (fun _ => True).
Proof. intros (_ & Hb & Hl). apply rb_load_block; [done|lia|lia]. Qed.

Lemma rb_sample_drop fuel s : sample_ok s -> robust (sample_drop fuel s) (fun _ => True).
Proof.
  intros (Hr & Hb & _). unfold sample_drop. rewrite Hr. apply rb_release_block.
  unfold block_ok in Hb. lia.
Qed.

(** ** Blocking receive *)

#[local] Instance region_stream_cells : StreamCells valid fits stream_ok.
Proof.
  split; [done| | |].
  - intros st (_ & Ht & _). apply (topic_cell_valid _ Ht).
  - intros st (_ & Ht & _). apply (topic_cell_valid _ Ht).
  - intros st v (_ & Ht & _). apply fits_u32; [done|done|apply wrap32_range].
Qed.

Lemma rb_recv_with `{Os : OsPlatform, !OsLaws Os} fuel pf strategy st :
  stream_ok st -> robust (recv_with fuel pf strategy st) (receive_ok stream_ok sample_ok).
Proof.
  apply rb_blocking_recv; [apply _|apply _|]. intros st1 Hst1. eapply rb_weaken; [by apply rb_try_recv|]. by intros [st2 o].
Qed.

Lemma rb_recv_typed_with `{Os : OsPlatform, !OsLaws Os} fuel pf T strategy st :
  type_fits T -> stream_ok st ->
  robust (recv_typed_with fuel pf T strategy st) (receive_ok stream_ok (fun s => sample_ok (typed_view s))).
Proof.
  intros HT. apply rb_blocking_recv; [apply _|apply _|]. intros st1 Hst1.
  eapply rb_weaken; [by apply rb_try_recv_typed|]. by intros [st2 o].
Qed.

Definition sub_cmd_fits (c : sub_cmd) : Prop :=
  match c with CRecvTyped T | CRecvTypedWait T _ _ => type_fits T | _ => True end.

Lemma snoc_samples_ok rcv s :
  (forall k s, rcv !! k = Some (Some s) -> sample_ok s) -> sample_ok s ->
  forall k s', (rcv ++ [Some s]) !! k = Some (Some s') -> sample_ok s'.
Proof.
  intros Hrcv Hs k s' [Hk|[_ Hk]]%lookup_app_Some; [by eapply Hrcv|].
  by apply list_lookup_singleton_Some in Hk as [_ [= <-]].
Qed.

Lemma rb_subscriber `{Os : OsPlatform, !OsLaws Os} fuel cmds st rcv out :
  Forall sub_cmd_fits cmds -> stream_ok st -> (forall k s, rcv !! k = Some (Some s) -> sample_ok s) ->
  robust (subscriber fuel cmds st rcv out) (fun _ => True).
Proof.
  intros Hcmds. revert st rcv out. induction Hcmds as [|c cmds Hc _ IH]; intros st rcv out Hst Hrcv;
    [by apply rb_ret|]. destruct c as [|strategy pf|T|T strategy pf|k|k]; cbn [subscriber].
  - eapply rb_bind; [by apply rb_try_recv|]. intros [st' [s|]] [Hst' Hs]; apply IH; try done.
    apply snoc_samples_ok; [done|]. by apply Hs.
  - eapply rb_bind; [by apply rb_recv_with|]. intros [st' [s|e]] [Hst' Hs]; apply IH; try done.
    apply snoc_samples_ok; [done|]. by apply Hs.
  - eapply rb_bind; [by apply rb_try_recv_typed|]. intros [st' [s|]] [Hst' Hs]; apply IH; try done.
    apply snoc_samples_ok; [done|]. by apply Hs.
  - eapply rb_bind; [by apply rb_recv_typed_with|]. intros [st' [s|e]] [Hst' Hs]; apply IH; try done.
    apply snoc_samples_ok; [done|]. by apply Hs.
  - destruct (rcv !! k) as [[s|]|] eqn:Hk; try by apply IH.
    eapply rb_bind; [by eapply rb_sample_to_vec, Hrcv|]. intros bs _. by apply IH.
  - destruct (rcv !! k) as [[s|]|] eqn:Hk; try by apply IH.
    eapply rb_bind; [by eapply rb_sample_drop, Hrcv|]. intros _ _. apply IH; [done|].
    intros k' s' Hk'. apply list_lookup_insert_Some in Hk' as [(_ & ? & _)|[_ Hk']]; [done|].
    by eapply Hrcv.
Qed.

(** ** The topic table *)

Lemma uri_cell_valid t i : topic_ok cfg t -> 0 <= i < TE_URI_MAX -> valid (TEUri t i).
Proof. unfold topic_ok, cell_valid. cbn. intros. zb_rewrite. done. Qed.

Lemma rb_load_uri t i n :
  topic_ok cfg t -> 0 <= i -> i + Z.of_nat n <= TE_URI_MAX ->
  robust (load_uri t i n) (fun _ => True).
Proof.
  intros Ht. revert i. induction n as [|n IH]; intros i Hi Hn; cbn [load_uri]; [by apply rb_ret|].
  eapply rb_bind; [apply rb_load, uri_cell_valid; [done|lia]|]. intros v _.
  eapply rb_bind; [apply IH; lia|]. intros rest _. by apply rb_ret.
Qed.

Lemma rb_store_uri t i uri :
  topic_ok cfg t -> bytes_ok uri -> 0 <= i -> i + blen uri <= TE_URI_MAX ->
  robust (store_uri t i uri) (fun _ => True).
Proof.
  intros Ht Hb. revert i. induction Hb as [|v uri Hv Hb IH]; intros i Hi Hn; cbn [store_uri];
    [by apply rb_ret|]. unfold blen in *. cbn [length] in Hn.
  eapply rb_bind; [apply rb_store; [apply uri_cell_valid; [done|lia] | by apply fits_u8]|].
  intros _ _. apply IH; lia.
Qed.

Lemma rb_entry_matches t hash uri :
  topic_ok cfg t -> blen uri <= TE_URI_MAX -> robust (entry_matches t hash uri) (fun _ => True).
Proof.
  intros Ht Hu. destruct (topic_cell_valid t Ht) as (? & ? & ? & ? & ? & _).
  unfold entry_matches. rb_step. intros h _. destruct (negb _); [by apply rb_ret|].
  rb_step. intros n Hn. apply fits32 in Hn; [|done].
  destruct (Z.eqb_spec n (blen uri)) as [->|]; cbn [negb]; [|by apply rb_ret].
  unfold in_u32 in Hn. eapply rb_bind; [apply rb_load_uri; [done|lia|lia]|].
  intros bs _. by apply rb_ret.
Qed.

Lemma in_topics t : t ∈ seqZ 0 (max_topics cfg) -> topic_ok cfg t.
Proof. by intros Ht%elem_of_seqZ_0. Qed.

Lemma rb_subscribe uri :
  blen uri <= TE_URI_MAX ->
  robust (subscribe r uri) (fun res => forall st, res = Ok st -> stream_ok st).
Proof.
  intros Hu. unfold subscribe. apply rb_for_return; [|by apply rb_ret].
  intros t Ht%in_topics. destruct (topic_cell_valid t Ht) as (? & ? & ? & ? & ? & ? & ? & ? & ? & ?).
  unfold subscribe_entry, fetch_add32. rb_step. intros a _. destruct (negb _); [by apply rb_ret|].
  eapply rb_bind; [by apply rb_entry_matches|]. intros same _.
  destruct (negb same); [by apply rb_ret|].
  rb_step. intros cur Hcur. apply fits64 in Hcur; [|done].
  rb_step. intros ts _. rb_step. intros n _. apply rb_ret.
  intros b [= <-] st [= <-]. done.
Qed.

(** A subscriber's session on a region: subscribe, receive, read and drop samples,
    drop the stream. *)
Definition subscriber_session `{Os : OsPlatform} (fuel : nat) (uri : bytes) (cmds : list sub_cmd)
    : prog cell (result (list (nat * bytes)) Error) :=
  let* res := subscribe r uri in
  match res with
  | Err e => Ret (Err e)
  | Ok st =>
      let* out := subscriber fuel cmds st [] [] in
      stream_drop st ;;;
      Ret (Ok out)
  end.

Lemma rb_subscriber_session `{Os : OsPlatform, !OsLaws Os} fuel uri cmds :
  blen uri <= TE_URI_MAX -> Forall sub_cmd_fits cmds ->
  robust (subscriber_session fuel uri cmds) (fun _ => True).
Proof.
  intros Hu Hcmds. unfold subscriber_session. eapply rb_bind; [by apply rb_subscribe|].
  intros [st|e] Hst; [|by apply rb_ret]. specialize (Hst st eq_refl).
  destruct (topic_cell_valid _ (proj1 (proj2 Hst))) as (_ & _ & _ & _ & _ & _ & _ & _ & _ & ?).
  eapply rb_bind; [apply rb_subscriber; [done|done|by intros k s]|]. intros out _.
  unfold stream_drop, fetch_sub32. eapply rb_bind; [rb_step; intros; by apply (rb_ret _ (fun _ => True))|].
  intros _ _. by apply rb_ret.
Qed.

(** ** Publisher *)

Record publisher_ok (p : Publisher) : Prop := {
  po_region : pb_region p = r;
  po_cache : length (pb_block_cache p) = 8%nat;
  po_len : 0 <= pb_cache_len p <= 8;
  po_blocks : forall i b, Z.of_nat i < pb_cache_len p -> pb_block_cache p !! i = Some b -> block_ok cfg b;
  po_pinned : forall b, b ∈ pb_pinned_blocks p -> b = NO_BLOCK \/ block_ok cfg b;
  po_topics : Z.of_nat (length (pb_pinned_blocks p)) = max_topics cfg
}.

Lemma rb_update_heartbeat : robust update_heartbeat (fun _ => True).
Proof.
  unfold update_heartbeat, now_micros. eapply rb_bind.
  - eapply rb_bind; [apply rb_now|]. intros t _.
    apply (rb_ret _ (fun o => forall v, o = Ok v -> in_u64 v)).
    destruct t; [intros v [= <-]; apply wrap64_range | done].
  - intros [v|e] Hv; [|by apply rb_ret]. specialize (Hv v eq_refl). unfold fetch_max.
    eapply rb_bind; [|intros x _; by apply rb_ret]. apply rb_rmw; [done|].
    intros x Hx%fits64; [|done]. apply fits_u64; [done|]. unfold in_u64 in *. lia.
Qed.

Lemma publisher_ok_heartbeat p now : publisher_ok p -> publisher_ok (with_heartbeat p now).
Proof. by intros []. Qed.

Lemma publisher_ok_count p n : publisher_ok p -> publisher_ok (with_loan_count p n).
Proof. by intros []. Qed.

Lemma rb_heartbeat p : publisher_ok p -> robust (heartbeat p) (fun '(p', _) => publisher_ok p').
Proof.
  intros Hp. unfold heartbeat. eapply rb_bind; [apply rb_update_heartbeat|].
  intros [x|e] _; [|by apply rb_ret]. eapply rb_bind; [apply rb_mono|]. intros now _.
  apply rb_ret. by apply publisher_ok_heartbeat.
Qed.

Definition alloc_ok (x : Publisher * result (option Z) Error) : Prop :=
  publisher_ok x.1 /\ forall b, x.2 = Ok (Some b) -> block_ok cfg b.

Lemma rb_pop_cache p : publisher_ok p -> robust (pop_cache p) alloc_ok.
Proof.
  intros Hp. unfold pop_cache. destruct (Z.ltb_spec 0 (pb_cache_len p)); [|by apply rb_ret].
  destruct (pb_block_cache p !! _) as [b|] eqn:Hb; [|done]. pose proof (po_len p Hp).
  apply rb_ret. split.
  - destruct Hp as [H1 H2 H3 H4 H5 H6]. split; try done; cbn; [lia|].
    intros i b' Hi. apply H4. lia.
  - intros b' [= <-]. eapply po_blocks; [exact Hp| |exact Hb]. lia.
Qed.

Lemma rb_refill_cache fuel n p :
  publisher_ok p -> robust (refill_cache fuel n p) (fun '(p', _) => publisher_ok p').
Proof.
  revert p. induction n as [|n IH]; intros p Hp; cbn [refill_cache];
    destruct (Z.leb_spec (Z.of_nat (length (pb_block_cache p))) (pb_cache_len p)) as [|Hlt];
    [by apply rb_ret|done|by apply rb_ret|].
  rewrite (po_region p Hp). eapply rb_bind; [apply rb_alloc_block|].
  intros [[b|]|[]] Hb; try by apply rb_ret. apply IH. specialize (Hb b eq_refl).
  destruct Hp as [H1 H2 H3 H4 H5 H6]. split; cbn; try done; [by rewrite length_insert|lia|].
  intros i b' Hi Hl. apply list_lookup_insert_Some in Hl as [(_ & <- & _)|[Hne Hl]]; [done|].
  apply (H4 i); [lia|done].
Qed.

Lemma rb_alloc_cached fuel p : publisher_ok p -> robust (alloc_cached fuel p) alloc_ok.
Proof.
  intros Hp. unfold alloc_cached. rewrite (po_region p Hp).
  eapply rb_bind; [apply rb_alloc_recycled|]. intros [b|] Hb.
  - apply rb_ret. split; [done|]. intros b' [= <-]. by apply Hb.
  - destruct (_ <? _); [by apply rb_pop_cache|].
    eapply rb_bind; [by apply rb_refill_cache|]. intros [p1 [x|e]] Hp1; [by apply rb_pop_cache|].
    by apply rb_ret.
Qed.

Lemma rb_loan_heartbeat p : publisher_ok p -> robust (loan_heartbeat p) publisher_ok.
Proof.
  intros Hp. unfold loan_heartbeat. set (p1 := with_loan_count _ _).
  assert (Hp1 : publisher_ok p1) by by apply publisher_ok_count.
  destruct (_ =? _); [|by apply rb_ret]. eapply rb_bind; [apply rb_mono|]. intros now _.
  destruct (_ <=? _); [|by apply rb_ret]. eapply rb_bind; [apply rb_update_heartbeat|].
  intros [x|e] _; [|by apply rb_ret]. eapply rb_bind; [apply rb_mono|]. intros now' _.
  apply rb_ret. by apply publisher_ok_heartbeat.
Qed.

Definition loan_ok (l : Loan) : Prop :=
  ln_region l = r /\ ln_capacity l = data_capacity r /\ block_ok cfg (ln_block_idx l) /\
  topic_ok cfg (ln_topic_idx l) /\ 0 <= ln_len l.

Lemma rb_loan_preamble fuel p h :
  publisher_ok p -> topic_ok cfg (tp_topic_idx h) ->
  robust (loan_preamble fuel p h) (fun '(p', res) => publisher_ok p' /\
    forall b t, res = Ok (b, t) -> block_ok cfg b /\ topic_ok cfg t).
Proof.
  intros Hp Ht. unfold loan_preamble. destruct (negb _); [by apply rb_ret|].
  eapply rb_bind; [by apply rb_loan_heartbeat|]. intros p1 Hp1.
  eapply rb_bind; [by apply rb_alloc_cached|]. intros [p2 res] [Hp2 Hb]. apply rb_ret.
  split; [done|]. intros b t. destruct res as [[b'|]|]; intros [= <- <-]. split; [by apply Hb | done].
Qed.

Lemma rb_loan fuel p h :
  publisher_ok p -> topic_ok cfg (tp_topic_idx h) ->
  robust (loan fuel p h) (fun '(p', res) => publisher_ok p' /\ forall l, res = Ok l -> loan_ok l).
Proof.
  intros Hp Ht. unfold loan. eapply rb_bind; [by apply rb_loan_preamble|].
  intros [p1 res] [Hp1 Hres]. apply rb_ret. split; [done|].
  intros l. destruct res as [[b t]|]; [|done]. intros [= <-]. destruct (Hres b t eq_refl).
  unfold loan_ok. cbn. by rewrite (po_region p Hp).
Qed.

Lemma rb_store_block b i bs :
  block_ok cfg b -> bytes_ok bs -> 0 <= i -> i + blen bs <= data_capacity r ->
  robust (store_block b i bs) (fun _ => True).
Proof.
  intros Hb Hall. revert i. induction Hall as [|v bs Hv Hall IH]; intros i Hi Hn; cbn [store_block];
    [by apply rb_ret|]. unfold blen in *. cbn [length] in Hn.
  eapply rb_bind; [apply rb_store; [apply data_cell_valid; [done|lia] | by apply fits_u8]|].
  intros _ _. apply IH; lia.
Qed.

Lemma rb_set_data l data :
  loan_ok l -> bytes_ok data -> robust (set_data l data) (fun '(l', _) => loan_ok l').
Proof.
  intros Hl Hd. pose proof Hl as (H1 & H2 & H3 & H4 & H5). unfold set_data.
  destruct (Z.ltb_spec (ln_capacity l) (blen data)); [by apply rb_ret|].
  assert (0 <= blen data) by (unfold blen; lia).
  rewrite nontemporal_copy_eq. destruct (_ <=? _);
    (eapply rb_bind; [apply rb_store_block; [done|done|lia|lia]|]; intros _ _; by apply rb_ret).
Qed.

Lemma rb_loan_commit fuel l wake : loan_ok l -> robust (loan_commit fuel l wake) (fun _ => True).
Proof.
  intros (H1 & H2 & H3 & H4 & H5). unfold loan_commit. rewrite H1.
  destruct (_ <=? _); [|done]. apply rb_commit_to_ring; [done|apply wrap32_range|done].
Qed.

Lemma rb_loan_drop fuel l : loan_ok l -> robust (loan_drop fuel l) (fun _ => True).
Proof.
  intros (H1 & H2 & H3 & H4 & H5). unfold loan_drop. rewrite H1. apply rb_free_block.
  unfold block_ok in H3. lia.
Qed.

Lemma rb_publish fuel p h data :
  publisher_ok p -> topic_ok cfg (tp_topic_idx h) -> bytes_ok data ->
  robust (publish fuel p h data) (fun '(p', _) => publisher_ok p').
Proof.
  intros Hp Ht Hd. unfold publish. eapply rb_bind; [by apply rb_loan|].
  intros [p1 [l|e]] [Hp1 Hl]; [|by apply rb_ret]. specialize (Hl l eq_refl).
  eapply rb_bind; [by apply rb_set_data|]. intros [l1 [x|e]] Hl1.
  - eapply rb_bind; [by apply rb_loan_commit|]. intros _ _. by apply rb_ret.
  - eapply rb_bind; [by apply rb_loan_drop|]. intros _ _. by apply rb_ret.
Qed.

(** ** Typed and pinned publishing *)

(** The missing check: the value must fit the block. *)
Lemma rb_publish_typed fuel T p h value :
  publisher_ok p -> topic_ok cfg (tp_topic_idx h) -> bytes_ok value ->
  blen value <= data_capacity r ->
  robust (publish_typed fuel T p h value) (fun '(p', _) => publisher_ok p').
Proof.
  intros Hp Ht Hv Hfit. unfold publish_typed, loan_typed.
  eapply rb_bind with (P := fun '(p', res) => publisher_ok p' /\ forall l, res = Ok l ->
    tl_region l = r /\ block_ok cfg (tl_block_idx l) /\ topic_ok cfg (tl_topic_idx l)).
  - eapply rb_bind; [by apply rb_loan_preamble|]. intros [p1 res] [Hp1 Hres]. apply rb_ret.
    split; [done|]. intros l. destruct res as [[b t]|]; [|done]. intros [= <-].
    destruct (Hres b t eq_refl). by rewrite (po_region p Hp).
  - intros [p1 [l|e]] [Hp1 Hl]; [|by apply rb_ret]. destruct (Hl l eq_refl) as (H1 & H2 & H3).
    unfold typed_send, typed_commit. eapply rb_bind; [|intros _ _; by apply rb_ret].
    eapply rb_bind; [apply rb_store_block; [done|done|lia|lia]|]. intros _ _. rewrite H1.
    apply rb_commit_to_ring; [done|apply wrap32_range|done].
Qed.

Definition pinned_loan_ok (l : PinnedLoan) : Prop :=
  pl_capacity l = data_capacity r /\ block_ok cfg (pl_block_idx l) /\
  topic_ok cfg (pl_topic_idx l).

Lemma rb_pinned_block_of fuel p t :
  publisher_ok p -> topic_ok cfg t ->
  robust (pinned_block_of fuel p t) (fun '(p', res) => publisher_ok p' /\
    forall b, res = Ok b -> block_ok cfg b).
Proof.
  intros Hp Ht. unfold pinned_block_of, set_pinned_block.
  destruct (topic_cell_valid t Ht) as (? & ? & ? & ? & ? & ? & ? & _).
  destruct (pb_pinned_blocks p !! _) as [b|] eqn:Hb; [|done].
  destruct (Z.eqb_spec b NO_BLOCK); cbn [negb].
  - eapply rb_bind; [by apply rb_alloc_cached|]. intros [p1 [[b'|]|e']] [Hp1 Hb']; try by apply rb_ret.
    specialize (Hb' b' eq_refl). cbn [fst] in Hp1.
    eapply rb_bind; [apply rb_store; [done | apply fits_u32; eauto with crossbar]|]. intros _ _.
    apply rb_ret. split; [|by intros x [= <-]].
    destruct Hp1 as [P1 P2 P3 P4 P5 P6]. split; cbn; try done; [|by rewrite length_insert].
    intros x [i Hx]%list_elem_of_lookup.
    apply list_lookup_insert_Some in Hx as [(_ & <- & _)|[_ Hx]]; [by right|].
    apply P5. by eapply list_elem_of_lookup_2.
  - apply rb_ret. split; [done|]. intros b' [= <-].
    destruct (po_pinned p Hp b) as [|]; [by eapply list_elem_of_lookup_2|done|done].
Qed.

Lemma rb_loan_pinned fuel p h :
  publisher_ok p -> topic_ok cfg (tp_topic_idx h) ->
  robust (loan_pinned fuel p h) (fun '(p', res) => publisher_ok p' /\
    forall l, res = Ok l -> pinned_loan_ok l).
Proof.
  intros Hp Ht. unfold loan_pinned.
  destruct (topic_cell_valid _ Ht) as (? & ? & ? & ? & ? & ? & ? & ? & _).
  destruct (negb _); [by apply rb_ret|]. destruct (_ <=? _); [by apply rb_ret|].
  eapply rb_bind; [by apply rb_pinned_block_of|]. intros [p1 [b|e]] [Hp1 Hb]; [|by apply rb_ret].
  eapply rb_bind; [apply rb_cas; [done|apply fits_u32; eauto with crossbar]|].
  intros [ok cur] _. destruct (negb ok); apply rb_ret; [by split|]. split; [done|].
  intros l [= <-]. unfold pinned_loan_ok. cbn. rewrite (po_region p Hp). auto.
Qed.

(** One pinned update: loan, write, publish (or drop, if the data does not fit). *)
Definition publish_pinned (fuel : nat) (p : Publisher) (h : Topic) (data : bytes)
    : prog cell (Publisher * result unit Error) :=
  let* (p1, res) := loan_pinned fuel p h in
  match res with
  | Err e => Ret (p1, Err e)
  | Ok l =>
      let* (l1, res1) := pinned_set_data l data in
      match res1 with
      | Err e => pinned_loan_drop l1 ;;; Ret (p1, Err e)
      | Ok _ => pinned_publish l1 ;;; Ret (p1, Ok tt)
      end
  end.

Lemma rb_commit_pinned len t : in_u32 len -> topic_ok cfg t ->
  robust (commit_pinned len t) (fun _ => True).
Proof.
  intros Hl Ht. destruct (topic_cell_valid t Ht) as (? & ? & ? & ? & ? & ? & ? & ? & ? & _).
  unfold commit_pinned, fetch_add64. eapply rb_bind.
  { apply rb_rmw; [done|]. intros v _. apply fits_u64; [done|]. apply wrap64_range. }
  intros prev _. eapply rb_bind; [apply rb_store; [done|]|intros _ _; by apply rb_smart_wake].
  apply fits_u64; [done|].
  change (Z.land (wrap64 (prev + 1)) 0xFFFFFFFF) with
    (Z.land (wrap64 (prev + 1)) (Z.ones 32)). rewrite Z.land_ones by lia.
  pose proof (Z.mod_pos_bound (wrap64 (prev + 1)) (2 ^ 32)) as Hm.
  rewrite wrap64_small by (unfold in_u64; rewrite Z.shiftl_mul_pow2 by lia; lia).
  apply pack_in_u64; [unfold in_u32; lia | done].
Qed.

Lemma rb_publish_pinned fuel p h data :
  publisher_ok p -> topic_ok cfg (tp_topic_idx h) -> bytes_ok data ->
  robust (publish_pinned fuel p h data) (fun '(p', _) => publisher_ok p').
Proof.
  intros Hp Ht Hd. unfold publish_pinned. eapply rb_bind; [by apply rb_loan_pinned|].
  intros [p1 [l|e]] [Hp1 Hl]; [|by apply rb_ret]. destruct (Hl l eq_refl) as (H1 & H2 & H3).
  destruct (topic_cell_valid _ H3) as (_ & _ & _ & _ & _ & _ & _ & Hrd & _).
  assert (Hz : robust (store (TEPinnedReaders (pl_topic_idx l)) 0) (fun _ => True)).
  { apply rb_store; [done|]. apply fits_u32; [done|done|unfold in_u32; lia]. }
  unfold pinned_set_data, pinned_loan_drop, pinned_publish.
  destruct (Z.ltb_spec (pl_capacity l) (blen data)).
  - cbn [bind]. eapply rb_bind; [exact Hz|]. intros _ _. by apply rb_ret.
  - assert (0 <= blen data) by (unfold blen; lia).
    eapply rb_bind with (P := fun '(l1, res1) => l1 = pl_with_len l (blen data) /\ res1 = Ok tt).
    + eapply rb_bind; [apply rb_store_block; [done|done|lia|lia]|]. intros _ _. by apply rb_ret.
    + intros [l1 res1] [-> ->]. cbn [pl_with_len pl_len pl_topic_idx].
      eapply rb_bind; [|intros _ _; by apply rb_ret]. destruct (_ <=? _); [|done].
      eapply rb_bind; [apply rb_commit_pinned; [apply wrap32_range|done]|]. intros _ _. exact Hz.
Qed.

(** ** Registration and the publisher's session *)

Lemma rb_register_inner p uri type_size :
  publisher_ok p -> bytes_ok uri -> in_u32 type_size ->
  robust (register_inner p uri type_size)
    (fun res => forall h, res = Ok h -> topic_ok cfg (tp_topic_idx h)).
Proof.
  intros Hp Hu Hts. unfold register_inner.
  destruct (Z.ltb_spec TE_URI_MAX (blen uri)) as [|Hlen]; [by apply rb_ret|].
  rewrite (po_region p Hp). apply rb_for_return.
  { intros t Ht%in_topics. destruct (topic_cell_valid t Ht) as (? & _).
    unfold find_existing. rb_step. intros a _. destruct (_ =? _); [|by apply rb_ret].
    eapply rb_bind; [by apply rb_entry_matches|]. intros [] _; apply rb_ret; [|done].
    by intros b [= <-] h [= <-]. }
  apply rb_for_return; [|by apply rb_ret].
  intros t Ht%in_topics.
  destruct (topic_cell_valid t Ht) as (? & ? & ? & ? & ? & ? & ? & ? & ? & ?).
  unfold claim_topic. eapply rb_bind; [apply rb_cas; [done|by apply fits_u32]|].
  intros [ok v] _. destruct (negb ok); [by apply rb_ret|].
  eapply rb_bind; [apply rb_store; [done|apply fits_u64; [done|apply uri_hash_u64]]|]. intros _ _.
  eapply rb_bind; [apply rb_store; [done|apply fits_u32; [done|done|apply wrap32_range]]|]. intros _ _.
  eapply rb_bind; [apply rb_store_uri; [done|done|lia|lia]|]. intros _ _.
  eapply rb_bind; [apply rb_store; [done|by apply fits_u64]|]. intros _ _.
  eapply rb_bind; [apply rb_store; [done|by apply fits_u32]|]. intros _ _.
  eapply rb_bind; [apply rb_store; [done|by apply fits_u32]|]. intros _ _.
  apply rb_ret. by intros b [= <-] h [= <-].
Qed.

Lemma rb_publisher_drop fuel p :
  publisher_ok p -> robust (publisher_drop fuel p) (fun _ => True).
Proof.
  intros Hp. unfold publisher_drop. rewrite (po_region p Hp).
  assert (Hfree : forall b, block_ok cfg b -> robust (free_block r fuel b) (fun _ => True)).
  { intros b Hb. apply rb_free_block. unfold block_ok in Hb. lia. }
  eapply rb_bind.
  { apply rb_for_each. intros b Hb%(po_pinned p Hp).
    destruct (Z.eqb_spec b NO_BLOCK); cbn [negb]; [by apply rb_ret|].
    apply Hfree. by destruct Hb. }
  intros _ _. eapply rb_bind; [apply rb_alloc_recycled|]. intros o Ho.
  eapply rb_bind with (P := fun _ => True).
  { destruct o as [b|]; [by apply Hfree, Ho | by apply rb_ret]. }
  intros _ _. apply rb_for_each. intros i Hi%elem_of_seqZ_0.
  destruct (pb_block_cache p !! Z.to_nat i) as [b|] eqn:Hb; [|done].
  apply Hfree. eapply po_blocks; [exact Hp| |exact Hb]. lia.
Qed.

(** What a publisher process does with a region, in any order; [k] names the [k]-th
    topic it registered. *)
Inductive pub_api : Type :=
| ARegister (uri : bytes)
| ARegisterTyped (T : Pod) (uri : bytes)
| APublish (k : nat) (data : bytes)
| APublishTyped (T : Pod) (k : nat) (value : bytes)
| APublishPinned (k : nat) (data : bytes)
| ALoanDrop (k : nat)
| ACount (k : nat)
| AHeartbeat.

(** The arguments are bytes, and a typed value fits a block. *)
Definition pub_api_ok (c : pub_api) : Prop :=
  match c with
  | ARegister uri | ARegisterTyped _ uri => bytes_ok uri
  | APublish _ data | APublishPinned _ data => bytes_ok data
  | APublishTyped T _ value =>
      bytes_ok value /\ blen value = size_of T /\ size_of T <= data_capacity r
  | _ => True
  end.

Fixpoint publisher_session (fuel : nat) (cmds : list pub_api) (p : Publisher) (hs : list Topic)
    : prog cell unit :=
  match cmds with
  | [] => publisher_drop fuel p
  | c :: cmds' =>
      let next p' := publisher_session fuel cmds' p' hs in
      match c with
      | ARegister uri =>
          let* res := register p uri in
          match res with
          | Ok h => publisher_session fuel cmds' p (hs ++ [h])
          | Err _ => next p
          end
      | ARegisterTyped T uri =>
          let* res := register_typed p T uri in
          match res with
          | Ok h => publisher_session fuel cmds' p (hs ++ [h])
          | Err _ => next p
          end
      | APublish k data =>
          match hs !! k with
          | Some h => let* (p', _) := publish fuel p h data in next p'
          | None => next p
          end
      | APublishTyped T k value =>
          match hs !! k with
          | Some h => let* (p', _) := publish_typed fuel T p h value in next p'
          | None => next p
          end
      | APublishPinned k data =>
          match hs !! k with
          | Some h => let* (p', _) := publish_pinned fuel p h data in next p'
          | None => next p
          end
      | ALoanDrop k =>
          match hs !! k with
          | Some h =>
              let* (p', res) := loan fuel p h in
              match res with
              | Ok l => loan_drop fuel l ;;; next p'
              | Err _ => next p'
              end
          | None => next p
          end
      | ACount k =>
          match hs !! k with
          | Some h => subscriber_count p h ;;; next p
          | None => next p
          end
      | AHeartbeat => let* (p', _) := heartbeat p in next p'
      end
  end.

Lemma rb_publisher_session fuel cmds p hs :
  publisher_ok p -> Forall pub_api_ok cmds -> Forall (fun h => topic_ok cfg (tp_topic_idx h)) hs ->
  robust (publisher_session fuel cmds p hs) (fun _ => True).
Proof.
  intros Hp Hc. revert p hs Hp. induction Hc as [|c cmds Hc Hcs IH]; intros p hs Hp Hhs;
    cbn [publisher_session]; [by apply rb_publisher_drop|].
  assert (Hreg : forall uri ts, bytes_ok uri -> in_u32 ts ->
    robust (let* res := register_inner p uri ts in
            match res with
            | Ok h => publisher_session fuel cmds p (hs ++ [h])
            | Err _ => publisher_session fuel cmds p hs
            end) (fun _ => True)).
  { intros uri ts Hu Hts. eapply rb_bind; [by apply rb_register_inner|].
    intros [h|e] Hh; apply IH; try done. apply Forall_app. split; [done|].
    apply Forall_singleton. by apply Hh. }
  assert (Hth : forall k h, hs !! k = Some h -> topic_ok cfg (tp_topic_idx h)).
  { intros k h Hk. by eapply Forall_lookup_1 in Hhs. }
  destruct c as [uri|T uri|k data|T k value|k data|k|k|]; cbn [pub_api_ok] in Hc.
  - by apply Hreg.
  - unfold register_typed. destruct (_ <? _); [by apply IH|]. apply Hreg; [done|apply wrap32_range].
  - destruct (hs !! k) as [h|] eqn:Hk; [|by apply IH].
    eapply rb_bind; [by eapply rb_publish; eauto|]. intros [p' res] Hp'. by apply IH.
  - destruct (hs !! k) as [h|] eqn:Hk; [|by apply IH]. destruct Hc as (H1 & H2 & H3).
    eapply rb_bind; [eapply rb_publish_typed; eauto; lia|]. intros [p' res] Hp'. by apply IH.
  - destruct (hs !! k) as [h|] eqn:Hk; [|by apply IH].
    eapply rb_bind; [by eapply rb_publish_pinned; eauto|]. intros [p' res] Hp'. by apply IH.
  - destruct (hs !! k) as [h|] eqn:Hk; [|by apply IH].
    eapply rb_bind; [by eapply rb_loan; eauto|]. intros [p' [l|e]] [Hp' Hl]; [|by apply IH].
    eapply rb_bind; [apply rb_loan_drop; by apply Hl|]. intros _ _. by apply IH.
  - destruct (hs !! k) as [h|] eqn:Hk; [|by apply IH].
    eapply rb_bind with (P := fun _ => True); [|intros _ _; by apply IH].
    unfold subscriber_count. destruct (negb _); [by apply rb_ret|].
    destruct (topic_cell_valid _ (Hth _ _ Hk)) as (_ & _ & _ & _ & _ & _ & _ & _ & _ & ?).
    rb_step. intros n _. by apply rb_ret.
  - eapply rb_bind; [by apply rb_heartbeat|]. intros [p' res] Hp'. by apply IH.
Qed.

Lemma new_publisher_ok name owner id now :
  0 <= max_topics cfg -> publisher_ok (new_publisher r name owner id now).
Proof.
  intros Hm. split; cbn; try done; try lia.
  - intros b [-> _]%elem_of_replicate. by left.
  - rewrite length_replicate. lia.
Qed.

End Robust.

(** ** Whole sessions on a hostile file *)

(** The access stays inside the [len] bytes of the mapping (or is process-private). *)
Definition cell_in_file (config : Config) (len : Z) (c : cell) : Prop :=
  priv_of c = None -> 0 <= cell_off config c /\ cell_off config c + cell_size c <= len.

Lemma valid_in_file config size len c :
  layout_ok config size -> size <= len -> cell_valid config c -> cell_in_file config len c.
Proof.
  intros Hok Hle Hv Hp. unfold cell_valid in Hv. rewrite Hp in Hv.
  destruct (cells_in_bounds config size c Hok Hv). lia.
Qed.

Lemma open_safe handle base len config0 :
  safe (cell_in_file config0 len) (cell_fits config0) (open_and_validate_region handle base len).
Proof.
  unfold open_and_validate_region. destruct (Z.ltb_spec len HEADER_SIZE) as [|Hlen]; [done|].
  assert (Hh : forall c, 0 <= cell_off config0 c /\ cell_off config0 c + cell_size c <= HEADER_SIZE ->
    cell_in_file config0 len c) by (intros c Hc _; lia).
  unfold HEADER_SIZE in Hh. cbn [bind load safe].
  split; [apply Hh; done|]. intros magic _. destruct (negb _); [done|]. cbn [safe].
  split; [apply Hh; done|]. intros ver _. destruct (negb _); [done|].
  unfold read_header_config. cbn [bind load safe].
  do 5 (split; [apply Hh; done|]; intros ? _).
  destruct (validate_config _ _); [|done]. unfold from_raw, check_heartbeat, now_micros.
  cbn [bind load store system_now safe]. split; [by intros ?|].
  split; [split; [split; vm_compute; congruence | by left]|].
  split; [apply Hh; done|]. intros hb _ t. by destruct t.
Qed.

(** C3. A subscriber is memory safe on a hostile region: connecting reads only header
    words inside the mapping, whatever they hold; and if the region is accepted, then
    subscribing (to a URI of at most 64 bytes), receiving bytes or typed values (of types
    that fit a block), blocking or not, reading and dropping samples in any order access
    only bytes of the mapping, even if other processes change any shared word at any time
    between two accesses. *)
Theorem hostile_subscriber `{Os : OsPlatform, !OsLaws Os} handle base len name uri fuel cmds :
  blen uri <= TE_URI_MAX ->
  safe (cell_in_file config_default len) (cell_fits config_default) (connect handle base len name) /\
  returns (cell_fits config_default) (connect handle base len name) (fun res =>
    forall r, res = Ok r -> Forall (sub_cmd_fits r) cmds ->
      safe (cell_in_file (rg_config r) len) (cell_fits (rg_config r))
        (subscriber_session r fuel uri cmds)).
Proof.
  intros Hu. unfold connect. destruct (validate_name name); [|done].
  split; [apply open_safe|]. eapply returns_weaken; [apply open_accepts_layout|].
  intros res Hres r Hr Hcmds. destruct (Hres r Hr) as (_ & size & Hlo & Hle & Hpow & _).
  eapply safe_mono; [intros c; by eapply valid_in_file|].
  apply rb_subscriber_session; [apply Hlo | apply Hlo | done | apply _ | done | done].
Qed.

(** A header that is accepted, and a session on it: it receives, waits, reads and drops. *)
Lemma hostile_subscriber_witness :
  let config := header_config config_small in
  let r := region_of 1 8192 config in
  safe (cell_in_file config_default 704) (cell_fits config_default) (connect 1 8192 704 [112; 98]) /\
  safe (cell_in_file config 704) (cell_fits config)
    (subscriber_session r 3 (replicate 64 97)
      [CRecv; CRecvWait (Adaptive 2 2) 2; CRead 0; CRecvTyped (mkPod 8 8); CDrop 0; CRead 1; CDrop 1]).
Proof.
  intros config r.
  destruct (hostile_subscriber 1 8192 704 [112; 98] (replicate 64 97) 3%nat
    [CRecv; CRecvWait (Adaptive 2 2) 2; CRead 0; CRecvTyped (mkPod 8 8); CDrop 0; CRead 1; CDrop 1] ltac:(vm_compute; congruence))
    as [Hs Hr]. split; [exact Hs|].
  assert (Hf : forall c v, priv_of c = None -> 0 <= v < 2 ^ (8 * cell_size c) -> cell_fits config_default c v)
    by (intros c v Hp Hv; split; [exact Hv|by destruct c]).
  specialize (Hr (le_decode MAGIC) ltac:(apply Hf; [reflexivity|vm_compute; intuition congruence])).
  specialize (Hr VERSION ltac:(apply Hf; [reflexivity|vm_compute; intuition congruence])).
  specialize (Hr 2 ltac:(apply Hf; [reflexivity|vm_compute; intuition congruence])).
  specialize (Hr 8 ltac:(apply Hf; [reflexivity|vm_compute; intuition congruence])).
  specialize (Hr 24 ltac:(apply Hf; [reflexivity|vm_compute; intuition congruence])).
  specialize (Hr 4 ltac:(apply Hf; [reflexivity|vm_compute; intuition congruence])).
  specialize (Hr 5000000 ltac:(apply Hf; [reflexivity|vm_compute; intuition congruence])).
  specialize (Hr 1000000 ltac:(apply Hf; [reflexivity|vm_compute; intuition congruence])).
  specialize (Hr (Some 1000000000)). apply (Hr r); [vm_compute; reflexivity|].
  repeat constructor; vm_compute; congruence.
Defined.

(** C4. A secondary publisher is memory safe on a hostile region: opening reads only the
    header, and if the region is accepted, then registering topics, publishing (plain,
    pinned, and typed with a value that fits a block), dropping loans, heartbeats and
    the final drop, in any order, access only bytes of the mapping, whatever the other
    processes do to the shared words. *)
Theorem hostile_publisher handle base len id name fuel cmds :
  safe (cell_in_file config_default len) (cell_fits config_default) (open handle base len id name) /\
  returns (cell_fits config_default) (open handle base len id name) (fun res =>
    forall p, res = Ok p -> Forall (pub_api_ok (pb_region p)) cmds ->
      safe (cell_in_file (rg_config (pb_region p)) len) (cell_fits (rg_config (pb_region p)))
        (publisher_session fuel cmds p [])).
Proof.
  unfold open. destruct (validate_name name); [|done]. split.
  - apply safe_bind_any; [apply open_safe|]. intros [r|]; [by intros|done].
  - eapply returns_bind; [apply open_accepts_layout|].
    intros [r|e] Hres; [|done]. cbn [bind instant_now returns]. intros now p [= <-] Hc.
    destruct (Hres r eq_refl) as (_ & size & Hlo & Hle & Hpow & _ & Hmt).
    eapply safe_mono; [intros c; by eapply valid_in_file|].
    apply rb_publisher_session; try done; try apply Hlo.
    apply new_publisher_ok. cbn [new_publisher pb_region]. lia.
Qed.

(** ** Operations whose checks are not enough *)

(** The accesses of a run whose loads return the values of [vals], with the values. *)
Fixpoint replay {A} (p : prog cell A) (vals : list Z) : list (cell * option Z) :=
  match p with
  | Ret _ | Diverge | Panic => []
  | ALoad c k => match vals with v :: vals' => (c, Some v) :: replay (k v) vals' | [] => [(c, None)] end
  | AStore c _ k => (c, None) :: replay k vals
  | ARmw c _ k => match vals with v :: vals' => (c, Some v) :: replay (k v) vals' | [] => [(c, None)] end
  | ACas _ c old _ k =>
      match vals with
      | v :: vals' => (c, Some v) :: replay (k (v =? old) v) vals'
      | [] => [(c, None)]
      end
  | ANow k => replay (k None) vals
  | AMono k => replay (k 0) vals
  | AWake c k | APark c _ _ k => (c, None) :: replay k vals
  | ASleep _ k => replay k vals
  end.

Definition fitsb (config : Config) (c : cell) (v : Z) : bool :=
  (0 <=? v) && (v <? 2 ^ (8 * cell_size c)) &&
  match c with LastFreed _ => (v =? NO_BLOCK) || (v <? block_count config) | _ => true end.

Definition replay_fits (config : Config) (l : list (cell * option Z)) : bool :=
  forallb (fun '(c, o) => match o with Some v => fitsb config c v | None => true end) l.

Lemma fitsb_ok config c v : fitsb config c v = true -> cell_fits config c v.
Proof.
  unfold fitsb, cell_fits. rewrite !andb_true_iff, Z.leb_le, Z.ltb_lt. intros [H1 H2].
  split; [done|]. destruct c; try done. apply orb_true_iff in H2.
  by rewrite Z.eqb_eq, Z.ltb_lt in H2.
Qed.

Lemma replay_valid {A} V config (p : prog cell A) vals :
  safe V (cell_fits config) p -> replay_fits config (replay p vals) = true ->
  Forall (fun x => V x.1) (replay p vals).
Proof.
  unfold replay_fits. revert vals.
  induction p as [a| | |c k IH|c v k IH|c g k IH|wk c old new k IH|k IH|k IH|c k IH|c e d k IH|d k IH];
    intros vals Hs Hf; cbn [safe replay] in *; try done.
  - destruct Hs as [Hc Hs]. destruct vals as [|v vals]; [by constructor|].
    cbn [forallb] in Hf. apply andb_true_iff in Hf as [Hv%fitsb_ok Hf]. constructor; auto.
  - destruct Hs as (Hc & Hv & Hs). constructor; auto.
  - destruct Hs as [Hc Hs]. destruct vals as [|v vals]; [by constructor|].
    cbn [forallb] in Hf. apply andb_true_iff in Hf as [Hv%fitsb_ok Hf]. constructor; [done|].
    apply IH; [by apply Hs|done].
  - destruct Hs as (Hc & Hn & Hs). destruct vals as [|v vals]; [by constructor|].
    cbn [forallb] in Hf. apply andb_true_iff in Hf as [Hv%fitsb_ok Hf]. constructor; auto.
  - by apply IH.
  - by apply IH.
  - destruct Hs as [Hc Hs]. constructor; auto.
  - destruct Hs as [Hc Hs]. constructor; auto.
  - by apply IH.
Qed.

(** A replay that reaches an invalid cell refutes safety. *)
Lemma replay_unsafe {A} V config (p : prog cell A) vals n c :
  replay_fits config (replay p vals) = true -> fst <$> replay p vals !! n = Some c -> ~ V c ->
  ~ safe V (cell_fits config) p.
Proof.
  intros Hf Hn HV Hs. apply HV. pose proof (replay_valid _ _ _ _ Hs Hf) as Hall.
  destruct (replay p vals !! n) as [[c' o]|] eqn:Hl; cbn in Hn; simplify_eq.
  by apply (Forall_lookup_1 _ _ _ _ Hall Hl).
Qed.

(** The region of the example configuration: blocks of 16 data bytes. *)
Definition small_region : Region := region_of 0 4096 config_small.

(** C37. The sizes of typed values are not checked against blocks: publishing a value of
    17 bytes through 16-byte blocks ([loan_typed] and [send] never compare
    [size_of::<T>()] with the capacity) writes past the block, and receiving such a value
    from a topic that records no type reads past it, whatever the message's length. *)
Theorem typed_sizes_unchecked fuel :
  ~ safe (cell_valid config_small) (cell_fits config_small)
      (publish_typed fuel (mkPod 17 1) (new_publisher small_region [112] true 7 0)
         (mkTopic 0 7) (replicate 17 0)) /\
  ~ safe (cell_valid config_small) (cell_fits config_small)
      (let* (_, o) := try_recv_typed 1 (mkPod 17 1) (mkStream small_region 0 0 0) in
       match o with Some s => typed_sample_deref s | None => Ret [] end).
Proof.
  split.
  - apply (replay_unsafe _ _ _ [3] 17 (BKData 3 16)); [reflexivity|reflexivity|]. by intros H.
  - apply (replay_unsafe _ _ _ ([1; 1; 3; 2; 1; 1; 1] ++ replicate 17 0) 23 (BKData 3 16));
      [vm_compute; reflexivity|vm_compute; reflexivity|]. by intros H.
Qed.

(** C38. Two reads are not memory safe on a hostile region: the length in the pinned word
    is not compared with the capacity, so a pinned sample's slice can leave its block;
    and [subscribe], unlike [register], does not bound the length of the URI, so it
    compares stored bytes beyond the URI field (here, beyond the 704-byte file). *)
Theorem hostile_overreads :
  ~ safe (cell_valid config_small) (cell_fits config_small)
      (let* (_, o) := try_recv_pinned 1 (mkStream small_region 0 0 0) in
       match o with Some g => pinned_guard_deref g | None => Ret [] end) /\
  ~ safe (cell_in_file config_small 704) (cell_fits config_small)
      (subscribe small_region (replicate 600 97)).
Proof.
  split.
  - apply (replay_unsafe _ _ _ ([2 ^ 32 + 17; 3; 0; 0; 2 ^ 32 + 17] ++ replicate 17 0) 21 (BKData 3 16));
      [vm_compute; reflexivity|vm_compute; reflexivity|]. by intros H.
  - apply (replay_unsafe _ _ _ ([1; uri_hash (replicate 600 97); 600] ++ replicate 600 0) 602 (TEUri 0 599));
      [vm_compute; reflexivity|vm_compute; reflexivity|].
    intros H. destruct (H eq_refl) as [_ H']. vm_compute in H'. congruence.
Qed.
