(* ===== verification/Ffi.v ===== *)
(** * Ffi: the C interface (src/src/ffi.rs)

    C code holds raw pointers to boxes of the library's objects. The heap maps
    addresses to objects and knows which mappings of files there are; [NULL] is [None]; a
    function of the interface is a program over the pair of regions of [Channel] that also
    passes the heap on, and what is undefined behaviour in the code (dereferencing a
    pointer that is null, dangling or of another type, freeing what no [Box] allocated,
    reading outside a buffer, using a region that is no longer mapped, a topic index
    outside the topic table) is the result [None]. An object knows the side its region is
    on. *)

From S2P Require Import Prelude Errors Layout Atomics Pool Ring Wait Subscription Loan Publisher Channel Registry.

(** ** Configuration *)

Record CrossbarConfig : Type := mkCrossbarConfig {
  cc_max_topics : Z;
  cc_block_count : Z;
  cc_block_size : Z;
  cc_ring_depth : Z;
  cc_heartbeat_ms : Z;
  cc_stale_timeout_ms : Z
}.

Definition config_from (c : CrossbarConfig) : Config := {|
  max_topics := cc_max_topics c;
  block_count := cc_block_count c;
  block_size := cc_block_size c;
  ring_depth := cc_ring_depth c;
  heartbeat_interval := duration_from_millis (cc_heartbeat_ms c);
  stale_timeout := duration_from_millis (cc_stale_timeout_ms c)
|}.

Definition crossbar_config_default : CrossbarConfig :=
  let d := config_default in {|
  cc_max_topics := max_topics d;
  cc_block_count := block_count d;
  cc_block_size := block_size d;
  cc_ring_depth := ring_depth d;
  cc_heartbeat_ms := wrap64 (duration_as_millis (heartbeat_interval d));
  cc_stale_timeout_ms := wrap64 (duration_as_millis (stale_timeout d))
|}.

Definition config_from_ptr (p : option CrossbarConfig) : Config :=
  match p with None => config_default | Some c => config_from c end.

Record CrossbarTopic : Type := mkCrossbarTopic { ct_topic_idx : Z; ct_publisher_id : Z }.

(** A C string is null or its bytes up to the terminator; [CStr::to_str]. *)
Definition cstr : Type := option bytes.
Definition to_str (cs : bytes) : option bytes := if utf8_ok cs then Some cs else None.

(** ** Objects and the heap *)

Inductive kind : Type := KPublisher | KSubscriber | KStream | KSample | KChannel.
#[export] Instance kind_eq_dec : EqDecision kind.
Proof. solve_decision. Defined.

(** A mapping of a region's file, by the order of the calls that made them. *)
Abbreviation mapping := nat.

(** A subscriber owns the mapping it reads ([_mmap]); the streams and samples made from it
    point into that mapping and do not own it. A channel owns the mapping of the peer's
    region ([_rx_sub]). The mapping of a publisher is used through the publisher only.
    [KSample] is [CrossbarSample]: region, block index and length. *)
Definition rep (k : kind) : Type :=
  match k with
  | KPublisher => side * Publisher
  | KSubscriber => side * mapping * Region
  | KStream => side * mapping * Stream
  | KSample => side * mapping * Sample
  | KChannel => mapping * Channel
  end.

Definition obj : Type := {k : kind & rep k}.

(** An allocation: by [Box::new], or storage of the caller, which may be
    uninitialised. *)
Record allocation : Type := mkAllocation { al_boxed : bool; al_val : option obj }.

(** The allocations by address, and for every mapping made so far whether it is still
    there. *)
Record heap : Type := mkHeap { hp_allocs : gmap nat allocation; hp_maps : list bool }.
Abbreviation ptr := (option nat).

Definition empty_heap : heap := mkHeap ∅ [].
Definition set_alloc (a : nat) (al : allocation) (h : heap) : heap :=
  mkHeap (<[a := al]> (hp_allocs h)) (hp_maps h).
Definition del_alloc (a : nat) (h : heap) : heap := mkHeap (delete a (hp_allocs h)) (hp_maps h).
Definition new_addr (h : heap) : nat := fresh (dom (hp_allocs h)).

Definition is_mapped (m : mapping) (h : heap) : bool := default false (hp_maps h !! m).

(** ** Programs with a heap *)

Definition ffi (A : Type) : Type := heap -> prog chan_cell (option (A * heap)).

Definition fret {A} (a : A) : ffi A := fun h => Ret (Some (a, h)).
Definition ub {A} : ffi A := fun _ => Ret None.
Definition fbind {A B} (m : ffi A) (f : A -> ffi B) : ffi B := fun h =>
  let* o := m h in
  match o with
  | None => Ret None
  | Some (a, h') => f a h'
  end.
(** An operation of the library on the region of side [s], and on a channel. *)
Definition lift {A} (p : prog chan_cell A) : ffi A := fun h =>
  let* a := p in Ret (Some (a, h)).
Definition at_side {A} (s : side) (p : prog cell A) : ffi A := lift (on s p).

(** An operation through a pointer into mapping [m]. *)
Definition access {A} (m : mapping) (s : side) (p : prog cell A) : ffi A := fun h =>
  if is_mapped m h then at_side s p h else Ret None.

(** A call that succeeded keeps its mapping; dropping its owner takes it away. *)
Definition map_region : ffi mapping := fun h =>
  Ret (Some (length (hp_maps h), mkHeap (hp_allocs h) (hp_maps h ++ [true]))).
Definition unmap_region (m : mapping) : ffi unit := fun h =>
  Ret (Some (tt, mkHeap (hp_allocs h) (<[m := false]> (hp_maps h)))).

Notation "'do*' x := m 'in' k" := (fbind m (fun x => k))
  (at level 10, x pattern, m at level 100, k at level 200) : prog_scope.

(** The object of kind [k] in an allocation. *)
Definition obj_as (k : kind) (o : obj) : option (rep k) :=
  match decide (projT1 o = k) with
  | left e => Some (eq_rect _ rep (projT2 o) k e)
  | right _ => None
  end.

(** [&*p] *)
Definition heap_obj (k : kind) (p : ptr) (h : heap) : option (rep k) :=
  match p with
  | Some a => match hp_allocs h !! a with Some (mkAllocation _ (Some o)) => obj_as k o | _ => None end
  | None => None
  end.

Definition deref (k : kind) (p : ptr) : ffi (rep k) := fun h =>
  match heap_obj k p h with
  | Some x => Ret (Some (x, h))
  | None => Ret None
  end.

(** The object behind [&mut *p] (or behind a [Cell] of it) after the operation. *)
Definition update (k : kind) (p : ptr) (x : rep k) : ffi unit := fun h =>
  match p with
  | Some a =>
      match hp_allocs h !! a with
      | Some al => Ret (Some (tt, set_alloc a (mkAllocation (al_boxed al) (Some (existT k x))) h))
      | None => Ret None
      end
  | None => Ret None
  end.

(** [Box::into_raw(Box::new(x))]: any address not in use. *)
Definition into_raw (k : kind) (x : rep k) : ffi ptr := fun h =>
  let a := new_addr h in
  Ret (Some (Some a, set_alloc a (mkAllocation true (Some (existT k x))) h)).

(** [Box::from_raw(p)], whose box is freed when it goes out of scope. *)
Definition from_raw_box (k : kind) (p : ptr) : ffi (rep k) := fun h =>
  match p with
  | Some a =>
      match hp_allocs h !! a with
      | Some (mkAllocation true (Some o)) =>
          match obj_as k o with
          | Some x => Ret (Some (x, del_alloc a h))
          | None => Ret None
          end
      | _ => Ret None
      end
  | None => Ret None
  end.

Definition is_null (p : ptr) : bool := match p with None => true | Some _ => false end.

(** [from_raw_parts(data, len)] of a non-null pointer to the bytes [bs]. *)
Definition from_raw_parts (bs : bytes) (len : Z) : ffi bytes :=
  if len <=? blen bs then fret (take (Z.to_nat len) bs) else ub.

(** ** Publisher *)

Definition crossbar_publisher_create (s : side) (handle base pid id : Z) (name : cstr)
    (config : option CrossbarConfig) : ffi ptr :=
  match name with
  | None => fret None
  | Some cs =>
      match to_str cs with
      | None => fret None
      | Some name =>
          do* r := at_side s (create handle base pid id name (config_from_ptr config)) in
          match r with
          | Ok p => into_raw KPublisher (s, p)
          | Err _ => fret None
          end
      end
  end.

Definition crossbar_publisher_free (fuel : nat) (pub_ : ptr) : ffi unit :=
  if is_null pub_ then fret tt
  else
    do* (s, p) := from_raw_box KPublisher pub_ in
    at_side s (publisher_drop fuel p).

Definition err_topic : CrossbarTopic := mkCrossbarTopic u32_max 0.

Definition crossbar_publisher_register (pub_ : ptr) (uri : cstr) : ffi CrossbarTopic :=
  match uri with
  | None => fret err_topic
  | Some cs =>
      if is_null pub_ then fret err_topic
      else
        do* (s, p) := deref KPublisher pub_ in
        match to_str cs with
        | None => fret err_topic
        | Some uri =>
            do* r := at_side s (register p uri) in
            match r with
            | Ok t => fret (mkCrossbarTopic (tp_topic_idx t) (tp_publisher_id t))
            | Err _ => fret err_topic
            end
        end
  end.

Definition crossbar_publisher_heartbeat (pub_ : ptr) : ffi Z :=
  if is_null pub_ then fret (-1)
  else
    do* (s, p) := deref KPublisher pub_ in
    do* (p1, r) := at_side s (heartbeat p) in
    do* _ := update KPublisher pub_ (s, p1) in
    fret (match r with Ok _ => 0 | Err _ => -1 end).

Definition topic_of (t : CrossbarTopic) : Topic := mkTopic (ct_topic_idx t) (ct_publisher_id t).

(** The index is one of the topic table. The operations on a topic compare the publisher's
    id and then compute an address from the index without a check. *)
Definition in_table (p : Publisher) (t : CrossbarTopic) : bool :=
  (0 <=? ct_topic_idx t) && (ct_topic_idx t <? max_topics (rg_config (pb_region p))).

(** A loan holds references to words of the topic's entry; an early return drops it. *)
Definition crossbar_publish (fuel : nat) (pub_ : ptr) (topic : CrossbarTopic) (data : option bytes)
    (len : Z) : ffi Z :=
  if is_null pub_ then fret (-1)
  else
    do* (s, p) := deref KPublisher pub_ in
    do* (p1, res) := at_side s (loan fuel p (topic_of topic)) in
    do* _ := update KPublisher pub_ (s, p1) in
    match res with
    | Err _ => fret (-1)
    | Ok l =>
        let send payload :=
          do* (l1, res1) := at_side s (set_data l payload) in
          match res1 with
          | Err _ => do* _ := at_side s (loan_drop fuel l1) in fret (-1)
          | Ok _ => do* _ := at_side s (loan_publish fuel l1) in fret 0
          end in
        if negb (in_table p topic) then ub
        else if len =? 0 then send []
        else
          match data with
          | None => do* _ := at_side s (loan_drop fuel l) in fret (-1)
          | Some bs => do* payload := from_raw_parts bs len in send payload
          end
    end.

Definition crossbar_topic_subscriber_count (pub_ : ptr) (topic : CrossbarTopic) : ffi Z :=
  if is_null pub_ then fret 0
  else
    do* (s, p) := deref KPublisher pub_ in
    if (ct_publisher_id topic =? pb_id p) && negb (in_table p topic) then ub
    else
      do* r := at_side s (subscriber_count p (topic_of topic)) in
      fret (match r with Ok n => n | Err _ => 0 end).

(** ** Subscriber *)

Definition crossbar_subscriber_connect (s : side) (attach : nat -> option (Z * Z * Z)) (name : cstr)
    : ffi ptr :=
  match name with
  | None => fret None
  | Some cs =>
      match to_str cs with
      | None => fret None
      | Some name =>
          do* r := at_side s (connect_at attach 0 name) in
          match r with
          | Ok sub => do* m := map_region in into_raw KSubscriber (s, m, sub)
          | Err _ => fret None
          end
      end
  end.

(** Dropping a [Subscriber] drops its [_mmap]: the region is unmapped. *)
Definition crossbar_subscriber_free (sub : ptr) : ffi unit :=
  if is_null sub then fret tt
  else
    do* (_, m, _) := from_raw_box KSubscriber sub in
    unmap_region m.

Definition crossbar_subscriber_subscribe (sub : ptr) (uri : cstr) : ffi ptr :=
  match uri with
  | None => fret None
  | Some cs =>
      if is_null sub then fret None
      else
        do* (s, m, r) := deref KSubscriber sub in
        match to_str cs with
        | None => fret None
        | Some uri =>
            do* res := access m s (subscribe r uri) in
            match res with
            | Ok st => into_raw KStream (s, m, st)
            | Err _ => fret None
            end
        end
  end.

Definition crossbar_subscription_free (stream : ptr) : ffi unit :=
  if is_null stream then fret tt
  else
    do* (s, m, st) := from_raw_box KStream stream in
    access m s (stream_drop st).

(** ** Samples *)

(** The guard is forgotten: its reference now belongs to the box. *)
Definition guard_to_sample (s : side) (m : mapping) (region : Region) (guard : Sample) : ffi ptr :=
  into_raw KSample (s, m, mkSample region (sm_block_idx guard) (sm_len guard)).

Definition crossbar_try_recv (fuel : nat) (stream : ptr) : ffi ptr :=
  if is_null stream then fret None
  else
    do* (s, m, st) := deref KStream stream in
    do* (st1, o) := access m s (try_recv fuel st) in
    do* _ := update KStream stream (s, m, st1) in
    match o with
    | Some guard => guard_to_sample s m (st_region st) guard
    | None => fret None
    end.

(** [out.write(..)] into storage for a sample; it does not drop what [out] held. *)
Definition write_out (out : ptr) (x : rep KSample) : ffi unit := fun h =>
  match out with
  | Some a =>
      match hp_allocs h !! a with
      | Some (mkAllocation _ None) => update KSample out x h
      | Some (mkAllocation _ (Some o)) =>
          match obj_as KSample o with
          | Some _ => update KSample out x h
          | None => Ret None
          end
      | None => Ret None
      end
  | None => Ret None
  end.

Definition crossbar_try_recv_into (fuel : nat) (stream out : ptr) : ffi Z :=
  if is_null stream || is_null out then fret (-1)
  else
    do* (s, m, st) := deref KStream stream in
    do* (st1, o) := access m s (try_recv fuel st) in
    do* _ := update KStream stream (s, m, st1) in
    match o with
    | Some guard =>
        do* _ := write_out out (s, m, mkSample (st_region st) (sm_block_idx guard) (sm_len guard)) in
        fret 1
    | None => fret 0
    end.

Definition crossbar_recv (fuel park_fuel : nat) (stream : ptr) : ffi ptr :=
  if is_null stream then fret None
  else
    do* (s, m, st) := deref KStream stream in
    do* (st1, r) := access m s (recv fuel park_fuel st) in
    do* _ := update KStream stream (s, m, st1) in
    match r with
    | Ok guard => guard_to_sample s m (st_region st) guard
    | Err _ => fret None
    end.

(** A pointer into a block: the block's own pointer plus an offset. *)
Record shm_ptr : Type := mkShmPtr {
  sp_side : side; sp_mapping : mapping; sp_region : Region; sp_block : Z; sp_off : Z }.

Definition crossbar_sample_data (sample : ptr) : ffi (option shm_ptr) :=
  if is_null sample then fret None
  else
    do* (s, m, x) := deref KSample sample in
    match block_ptr_checked (sm_region x) (sm_block_idx x) with
    | Some _ =>
        do* _ := access m s (Ret tt) in
        fret (Some (mkShmPtr s m (sm_region x) (sm_block_idx x) BLOCK_DATA_OFFSET))
    | None => fret None
    end.

Definition crossbar_sample_len (sample : ptr) : ffi Z :=
  if is_null sample then fret 0
  else
    do* x := deref KSample sample in
    fret (sm_len x.2).

(** [Drop for CrossbarSample] releases the block. *)
Definition crossbar_sample_drop (fuel : nat) (x : rep KSample) : ffi unit :=
  let '(s, m, smp) := x in
  access m s (release_block (sm_region smp) fuel (sm_block_idx smp)).

Definition crossbar_sample_free (fuel : nat) (sample : ptr) : ffi unit :=
  if is_null sample then fret tt
  else
    do* x := from_raw_box KSample sample in
    crossbar_sample_drop fuel x.

(** ** Channel *)

(** [listen] for [Srv] and [connect] for [Cli]. *)
Definition crossbar_channel_open (attach : nat -> option (Z * Z * Z)) (fuel : nat) (s : side)
    (handle base pid id : Z) (name : cstr) (config : option CrossbarConfig) (timeout_ms : Z) : ffi ptr :=
  match name with
  | None => fret None
  | Some cs =>
      match to_str cs with
      | None => fret None
      | Some name =>
          do* r := lift (open_side attach fuel s handle base pid id name (config_from_ptr config)
                           (duration_from_millis timeout_ms)) in
          match r with
          | Ok ch => do* m := map_region in into_raw KChannel (m, ch)
          | Err _ => fret None
          end
      end
  end.

Definition crossbar_channel_listen attach fuel := crossbar_channel_open attach fuel Srv.
Definition crossbar_channel_connect attach fuel := crossbar_channel_open attach fuel Cli.

(** [Channel] has no [Drop]: its fields are dropped in the order of their declaration. The
    last one, [_rx_sub], takes the mapping of the peer's region away, see
    [crossbar_channel_free]. *)
Definition channel_drop (fuel : nat) (ch : Channel) : prog chan_cell unit :=
  on (ch_side ch) (publisher_drop fuel (ch_tx_pub ch)) ;;;
  on (peer (ch_side ch)) (stream_drop (ch_rx ch)).

Definition crossbar_channel_free (fuel : nat) (ch : ptr) : ffi unit :=
  if is_null ch then fret tt
  else
    do* (m, c) := from_raw_box KChannel ch in
    do* _ := lift (channel_drop fuel c) in
    unmap_region m.

Definition crossbar_channel_send (fuel : nat) (ch : ptr) (data : option bytes) (len : Z) : ffi Z :=
  if is_null ch then fret (-1)
  else
    do* (m, c) := deref KChannel ch in
    let send payload :=
      do* (c1, r) := lift (ch_send fuel c payload) in
      do* _ := update KChannel ch (m, c1) in
      fret (match r with Ok _ => 0 | Err _ => -1 end) in
    if len =? 0 then send []
    else
      match data with
      | None => fret (-1)
      | Some bs => do* payload := from_raw_parts bs len in send payload
      end.

Definition crossbar_channel_try_recv (fuel : nat) (ch : ptr) : ffi ptr :=
  if is_null ch then fret None
  else
    do* (m, c) := deref KChannel ch in
    do* (c1, o) := lift (ch_try_recv fuel c) in
    do* _ := update KChannel ch (m, c1) in
    match o with
    | Some guard =>
        into_raw KSample (peer (ch_side c), m,
          mkSample (st_region (ch_rx c)) (sm_block_idx guard) (sm_len guard))
    | None => fret None
    end.

Definition crossbar_channel_recv (fuel park_fuel : nat) (ch : ptr) : ffi ptr :=
  if is_null ch then fret None
  else
    do* (m, c) := deref KChannel ch in
    do* (c1, r) := lift (ch_recv fuel park_fuel c) in
    do* _ := update KChannel ch (m, c1) in
    match r with
    | Ok guard =>
        into_raw KSample (peer (ch_side c), m,
          mkSample (st_region (ch_rx c)) (sm_block_idx guard) (sm_len guard))
    | Err _ => fret None
    end.
