(* ===== verification/FfiTypes.v ===== *)
(** * FfiTypes: C programs that follow the interface's ownership rules

    A C program is a sequence of calls whose pointer and topic arguments are variables.
    The rules of the interface's comments are a static check on it: a variable has the
    kind of the function that filled it, may hold [NULL], may not be used after its free
    function was called on it, and that function may only be called once everything made
    from the object is freed (subscriptions before their subscriber, samples before their
    subscription or channel); a topic is used with the publisher that registered it. The
    soundness theorem shows that such a program never meets undefined behaviour, and that
    the heap holds no object but the ones its variables still own. *)

From S2P Require Import Prelude Errors Layout Atomics Pool Ring Wait Subscription Loan Publisher Channel Registry Ffi.

(** ** Programs *)

(** The value of a variable. *)
Inductive value : Type := VPtr (p : ptr) | VTopic (t : CrossbarTopic).

(** One constructor per function of the interface; [DeclareSample] declares storage
    for [crossbar_try_recv_into]. Pointer and topic arguments are indices of variables. *)
Inductive ccall : Type :=
| DeclareSample
| PublisherCreate (s : side) (handle base pid id : Z) (name : cstr) (config : option CrossbarConfig)
| PublisherFree (p : nat)
| PublisherRegister (p : nat) (uri : cstr)
| PublisherHeartbeat (p : nat)
| PublishBytes (p topic : nat) (data : option bytes) (len : Z)
| SubscriberCount (p topic : nat)
| SubscriberConnect (s : side) (attach : nat -> option (Z * Z * Z)) (name : cstr)
| SubscriberFree (p : nat)
| SubscriberSubscribe (p : nat) (uri : cstr)
| SubscriptionFree (p : nat)
| TryRecv (p : nat)
| TryRecvInto (p out : nat)
| Recv (park_fuel : nat) (p : nat)
| SampleData (p : nat)
| SampleLen (p : nat)
| SampleFree (p : nat)
| ChannelOpen (s : side) (attach : nat -> option (Z * Z * Z)) (handle base pid id : Z) (name : cstr)
    (config : option CrossbarConfig) (timeout_ms : Z)
| ChannelFree (p : nat)
| ChannelSend (p : nat) (data : option bytes) (len : Z)
| ChannelTryRecv (p : nat)
| ChannelRecv (park_fuel : nat) (p : nat).

Abbreviation vars := (list value).

(** Reading a variable that was never assigned is undefined. *)
Definition var (ρ : vars) (i : nat) : ffi ptr :=
  match ρ !! i with Some (VPtr p) => fret p | _ => ub end.
Definition topic_var (ρ : vars) (i : nat) : ffi CrossbarTopic :=
  match ρ !! i with Some (VTopic t) => fret t | _ => ub end.

(** The call's result goes to a new variable, or is dropped. *)
Definition keep (ρ : vars) (m : ffi ptr) : ffi vars := do* p := m in fret (ρ ++ [VPtr p]).
Definition keep_topic (ρ : vars) (m : ffi CrossbarTopic) : ffi vars := do* t := m in fret (ρ ++ [VTopic t]).
Definition ignore {A} (ρ : vars) (m : ffi A) : ffi vars := do* _ := m in fret ρ.

Definition declare_sample : ffi ptr := fun h =>
  let a := new_addr h in Ret (Some (Some a, set_alloc a (mkAllocation false None) h)).

Definition exec_call (fuel : nat) (ρ : vars) (c : ccall) : ffi vars :=
  match c with
  | DeclareSample => keep ρ declare_sample
  | PublisherCreate s handle base pid id name config =>
      keep ρ (crossbar_publisher_create s handle base pid id name config)
  | PublisherFree i => do* p := var ρ i in ignore ρ (crossbar_publisher_free fuel p)
  | PublisherRegister i uri => do* p := var ρ i in keep_topic ρ (crossbar_publisher_register p uri)
  | PublisherHeartbeat i => do* p := var ρ i in ignore ρ (crossbar_publisher_heartbeat p)
  | PublishBytes i t data len =>
      do* p := var ρ i in
      do* topic := topic_var ρ t in
      ignore ρ (crossbar_publish fuel p topic data len)
  | SubscriberCount i t =>
      do* p := var ρ i in
      do* topic := topic_var ρ t in
      ignore ρ (crossbar_topic_subscriber_count p topic)
  | SubscriberConnect s attach name => keep ρ (crossbar_subscriber_connect s attach name)
  | SubscriberFree i => do* p := var ρ i in ignore ρ (crossbar_subscriber_free p)
  | SubscriberSubscribe i uri => do* p := var ρ i in keep ρ (crossbar_subscriber_subscribe p uri)
  | SubscriptionFree i => do* p := var ρ i in ignore ρ (crossbar_subscription_free p)
  | TryRecv i => do* p := var ρ i in keep ρ (crossbar_try_recv fuel p)
  | TryRecvInto i out =>
      do* p := var ρ i in
      do* q := var ρ out in
      ignore ρ (crossbar_try_recv_into fuel p q)
  | Recv park_fuel i => do* p := var ρ i in keep ρ (crossbar_recv fuel park_fuel p)
  | SampleData i => do* p := var ρ i in ignore ρ (crossbar_sample_data p)
  | SampleLen i => do* p := var ρ i in ignore ρ (crossbar_sample_len p)
  | SampleFree i => do* p := var ρ i in ignore ρ (crossbar_sample_free fuel p)
  | ChannelOpen s attach handle base pid id name config timeout_ms =>
      keep ρ (crossbar_channel_open attach fuel s handle base pid id name config timeout_ms)
  | ChannelFree i => do* p := var ρ i in ignore ρ (crossbar_channel_free fuel p)
  | ChannelSend i data len => do* p := var ρ i in ignore ρ (crossbar_channel_send fuel p data len)
  | ChannelTryRecv i => do* p := var ρ i in keep ρ (crossbar_channel_try_recv fuel p)
  | ChannelRecv park_fuel i => do* p := var ρ i in keep ρ (crossbar_channel_recv fuel park_fuel p)
  end.

Fixpoint exec (fuel : nat) (cs : list ccall) (ρ : vars) : ffi vars :=
  match cs with
  | [] => fret ρ
  | c :: cs' => do* ρ' := exec_call fuel ρ c in exec fuel cs' ρ'
  end.

(** ** The static check *)

(** A handle, with the variable of the object it was made from, if any; a topic of the
    publisher in a variable; the address of storage the caller declared for a sample. *)
Inductive vtype : Type := THandle (k : kind) (parent : option nat) | TTopic (pub : nat) | TStorage.
#[export] Instance vtype_eq_dec : EqDecision vtype.
Proof. solve_decision. Defined.

(** What a variable may be used as; [None] after its free. *)
Abbreviation tenv := (list (option vtype)).

(** Variable [i] is a handle of kind [k]. *)
Definition is_handle (Γ : tenv) (i : nat) (k : kind) : bool :=
  match Γ !! i with Some (Some (THandle k' _)) => bool_decide (k' = k) | _ => false end.
Definition has (Γ : tenv) (i : nat) (t : vtype) : bool := bool_decide (Γ !! i = Some (Some t)).

(** Everything made from the object in variable [i] is freed. *)
Definition childless (Γ : tenv) (i : nat) : bool :=
  forallb (fun o => match o with Some (THandle _ (Some j)) => negb (j =? i)%nat | _ => true end) Γ.

(** A [data] argument points to at least [len] bytes, or is null. *)
Definition readable (data : option bytes) (len : Z) : bool :=
  match data with Some bs => len <=? blen bs | None => true end.

Definition uses (Γ : tenv) (i : nat) (k : kind) : option tenv :=
  if is_handle Γ i k then Some Γ else None.
Definition frees (Γ : tenv) (i : nat) (k : kind) : option tenv :=
  if is_handle Γ i k && childless Γ i then Some (<[i := None]> Γ) else None.
Definition gives (Γ : option tenv) (t : vtype) : option tenv :=
  match Γ with Some Γ => Some (Γ ++ [Some t]) | None => None end.

(** A publisher's id is not 0: that is the id of the topic a failed registration
    returns. *)
Definition type_call (Γ : tenv) (c : ccall) : option tenv :=
  match c with
  | DeclareSample => gives (Some Γ) TStorage
  | PublisherCreate _ _ _ _ id _ _ => if id =? 0 then None else gives (Some Γ) (THandle KPublisher None)
  | PublisherFree i => frees Γ i KPublisher
  | PublisherRegister i _ => gives (uses Γ i KPublisher) (TTopic i)
  | PublisherHeartbeat i => uses Γ i KPublisher
  | SubscriberCount i t => if has Γ t (TTopic i) then uses Γ i KPublisher else None
  | PublishBytes i t data len =>
      if has Γ t (TTopic i) then if readable data len then uses Γ i KPublisher else None else None
  | SubscriberConnect _ _ _ => gives (Some Γ) (THandle KSubscriber None)
  | SubscriberFree i => frees Γ i KSubscriber
  | SubscriberSubscribe i _ => gives (uses Γ i KSubscriber) (THandle KStream (Some i))
  | SubscriptionFree i => frees Γ i KStream
  | TryRecv i | Recv _ i => gives (uses Γ i KStream) (THandle KSample (Some i))
  | TryRecvInto i out => if has Γ out TStorage then uses Γ i KStream else None
  | SampleData i | SampleLen i => uses Γ i KSample
  | SampleFree i => frees Γ i KSample
  | ChannelOpen _ _ _ _ _ _ _ _ _ => gives (Some Γ) (THandle KChannel None)
  | ChannelFree i => frees Γ i KChannel
  | ChannelSend i data len => if readable data len then uses Γ i KChannel else None
  | ChannelTryRecv i | ChannelRecv _ i => gives (uses Γ i KChannel) (THandle KSample (Some i))
  end.

Fixpoint type_prog (Γ : tenv) (cs : list ccall) : option tenv :=
  match cs with
  | [] => Some Γ
  | c :: cs' => match type_call Γ c with Some Γ' => type_prog Γ' cs' | None => None end
  end.

(** ** What the check guarantees of the heap *)

Definition boxed (k : kind) (x : rep k) : allocation := mkAllocation true (Some (existT k x)).

(** The allocation a variable of type [t] points to. *)
Definition alloc_typed (al : allocation) (t : vtype) : Prop :=
  match t with
  | THandle k _ => exists x : rep k, al = boxed k x
  | TTopic _ => False
  | TStorage => al = mkAllocation false None \/
                exists x : rep KSample, al = mkAllocation false (Some (existT KSample x))
  end.

Definition value_typed (v : value) (t : vtype) : Prop :=
  match t, v with TTopic _, VTopic _ | THandle _ _, VPtr _ | TStorage, VPtr _ => True | _, _ => False end.

(** The mapping an object uses; a publisher's is its own. *)
Definition mapping_of (k : kind) : rep k -> option mapping :=
  match k with
  | KPublisher => fun _ => None
  | KSubscriber | KStream | KSample => fun x => Some x.1.2
  | KChannel => fun x => Some x.1
  end.

(** The topic is one of the publisher's table, or the publisher refuses it. *)
Definition topic_fits (p : Publisher) (t : CrossbarTopic) : Prop :=
  ct_publisher_id t = pb_id p -> in_table p t = true.

(** Usable variable [i] holds the address [a] of an object [x] of kind [k]. *)
Definition handle_at (Γ : tenv) (ρ : vars) (h : heap) (i : nat) (k : kind) (parent : option nat)
    (a : nat) (x : rep k) : Prop :=
  Γ !! i = Some (Some (THandle k parent)) /\ ρ !! i = Some (VPtr (Some a)) /\
  hp_allocs h !! a = Some (boxed k x).

(** The variables point to distinct live objects of their kind, which are all there are. *)
Record vars_typed (Γ : tenv) (ρ : vars) (h : heap) : Prop := {
  ht_length : length ρ = length Γ;
  ht_sort : forall i t v, Γ !! i = Some (Some t) -> ρ !! i = Some v -> value_typed v t;
  (* a usable variable is null or points to its own object *)
  ht_live : forall i t a, Γ !! i = Some (Some t) -> ρ !! i = Some (VPtr (Some a)) ->
    exists al, hp_allocs h !! a = Some al /\ alloc_typed al t;
  ht_distinct : forall i j t u a, Γ !! i = Some (Some t) -> Γ !! j = Some (Some u) ->
    ρ !! i = Some (VPtr (Some a)) -> ρ !! j = Some (VPtr (Some a)) -> i = j;
  (* every allocation is owned by a usable variable *)
  ht_owned : forall a al, hp_allocs h !! a = Some al ->
    exists i t, Γ !! i = Some (Some t) /\ ρ !! i = Some (VPtr (Some a))
}.

(** What a handle can be made from. *)
Definition made_from (k k' : kind) : Prop :=
  (k = KStream /\ k' = KSubscriber) \/ (k = KSample /\ (k' = KStream \/ k' = KChannel)).
Definition is_owner (k : kind) : bool :=
  match k with KSubscriber | KChannel | KPublisher => true | _ => false end.

(** The mappings they use are there: those of subscribers and channels are their own, those
    of streams and samples belong to what they were made from, which is still usable. *)
Record maps_typed (Γ : tenv) (ρ : vars) (h : heap) : Prop := {
  mt_root : forall i k parent, Γ !! i = Some (Some (THandle k parent)) -> (parent = None <-> is_owner k = true);
  mt_parent : forall i k j, Γ !! i = Some (Some (THandle k (Some j))) ->
    exists k' parent, Γ !! j = Some (Some (THandle k' parent)) /\ made_from k k';
  mt_child : forall i k j a x, handle_at Γ ρ h i k (Some j) a x ->
    exists k' parent b y, handle_at Γ ρ h j k' parent b y /\ mapping_of k x = mapping_of k' y;
  mt_mapped : forall i k parent a x m, handle_at Γ ρ h i k parent a x -> mapping_of k x = Some m -> is_mapped m h = true;
  mt_distinct : forall i j k k' a b x y m,
    handle_at Γ ρ h i k None a x -> handle_at Γ ρ h j k' None b y ->
    mapping_of k x = Some m -> mapping_of k' y = Some m -> i = j;
  mt_topic : forall i j t parent a s p, Γ !! i = Some (Some (TTopic j)) -> ρ !! i = Some (VTopic t) ->
    handle_at Γ ρ h j KPublisher parent a (s, p) -> topic_fits p t;
  mt_topic_pub : forall i j, Γ !! i = Some (Some (TTopic j)) -> (j < length Γ)%nat;
  mt_id : forall i parent a s p, handle_at Γ ρ h i KPublisher parent a (s, p) -> pb_id p <> 0
}.

Record heap_typed (Γ : tenv) (ρ : vars) (h : heap) : Prop := {
  ht_vars : vars_typed Γ ρ h;
  ht_maps : maps_typed Γ ρ h
}.

Lemma heap_typed_nil : heap_typed [] [] empty_heap.
Proof.
  split; split; try done; unfold handle_at; intros; cbn in *; rewrite ?lookup_nil in *; naive_solver.
Qed.

(** A program that has freed what it was given leaves no box behind. *)
Lemma heap_typed_freed Γ ρ h :
  heap_typed Γ ρ h -> (forall k parent, Some (THandle k parent) ∉ Γ) ->
  forall a al, hp_allocs h !! a = Some al -> al_boxed al = false.
Proof.
  intros [Ht _] Hfree a al Ha. destruct (ht_owned _ _ _ Ht a al Ha) as (i & t & Hi & Hr).
  destruct (ht_live _ _ _ Ht i t a Hi Hr) as (al' & Ha' & Htyp). rewrite Ha in Ha'. injection Ha' as <-.
  destruct t as [k parent|j|]; [|done|by destruct Htyp as [->|[x ->]]].
  destruct (Hfree k parent). by eapply list_elem_of_lookup_2.
Qed.

(** *** A new variable *)

Section Grow.
Context (Γ : tenv) (ρ : vars) (h : heap) (t : vtype) (v : value).
Hypothesis (Hv : vars_typed Γ ρ h).

Lemma grow_inv i u w :
  (Γ ++ [Some t]) !! i = Some (Some u) -> (ρ ++ [v]) !! i = Some w ->
  (Γ !! i = Some (Some u) /\ ρ !! i = Some w) \/ (i = length Γ /\ u = t /\ w = v).
Proof.
  pose proof (ht_length _ _ _ Hv) as Hl. intros Hi Hr. destruct (decide (i < length Γ)%nat).
  - rewrite lookup_app_l in Hi by lia. rewrite lookup_app_l in Hr by lia. by left.
  - rewrite lookup_app_r in Hi by lia. rewrite lookup_app_r in Hr by lia. rewrite Hl in Hr. right.
    apply list_lookup_singleton_Some in Hi as [? [= ->]]. apply list_lookup_singleton_Some in Hr as [_ ->].
    split; [lia|done].
Qed.

Lemma grow_new : (Γ ++ [Some t]) !! length Γ = Some (Some t) /\ (ρ ++ [v]) !! length Γ = Some v.
Proof.
  pose proof (ht_length _ _ _ Hv) as Hl. rewrite !lookup_app_r, Hl, Nat.sub_diag by lia. done.
Qed.

Lemma grow_type i u : (Γ ++ [Some t]) !! i = Some (Some u) -> Γ !! i = Some (Some u) \/ (i = length Γ /\ u = t).
Proof.
  intros Hi. destruct (decide (i < length Γ)%nat).
  - rewrite lookup_app_l in Hi by lia. by left.
  - rewrite lookup_app_r in Hi by lia. apply list_lookup_singleton_Some in Hi as [? [= ->]]. right. split; [lia|done].
Qed.

(** A handle of the old variables is one of the new ones. *)
Lemma grow_old i k parent a x h' :
  (forall b al, hp_allocs h !! b = Some al -> hp_allocs h' !! b = Some al) ->
  handle_at Γ ρ h i k parent a x -> handle_at (Γ ++ [Some t]) (ρ ++ [v]) h' i k parent a x.
Proof. intros Hh (H1 & H2 & H3). split; [|split; [|by apply Hh]]; by apply lookup_app_l_Some. Qed.

(** A variable that is no handle, or null. *)
Lemma vars_typed_other :
  match v with VPtr None => True | VPtr _ => False | VTopic _ => True end -> value_typed v t ->
  vars_typed (Γ ++ [Some t]) (ρ ++ [v]) h.
Proof.
  pose proof Hv as [Hl Hs Hlive Hd Ho]. intros Hw Hvt. split.
  - rewrite !length_app. cbn. lia.
  - intros i u w Hi Hr. destruct (grow_inv i u w Hi Hr) as [[H1 H2]|(_ & -> & ->)]; [by eapply Hs|done].
  - intros i u b Hi Hr. destruct (grow_inv i u _ Hi Hr) as [[H1 H2]|(_ & _ & E)]; [by eapply Hlive|by rewrite <- E in Hw].
  - intros i j u u' b Hi Hj Hri Hrj.
    destruct (grow_inv i u _ Hi Hri) as [[H1 H2]|(_ & _ & E)]; [|by rewrite <- E in Hw].
    destruct (grow_inv j u' _ Hj Hrj) as [[H3 H4]|(_ & _ & E)]; [by eapply Hd|by rewrite <- E in Hw].
  - intros b al Hb. destruct (Ho b al Hb) as (i & u & Hi & Hr). exists i, u. split; by apply lookup_app_l_Some.
Qed.

Lemma grow_other_inv i k parent a x :
  match v with VPtr None => True | VPtr _ => False | VTopic _ => True end ->
  handle_at (Γ ++ [Some t]) (ρ ++ [v]) h i k parent a x -> handle_at Γ ρ h i k parent a x.
Proof.
  intros Hw (H1 & H2 & H3). destruct (grow_inv i _ _ H1 H2) as [[? ?]|(_ & _ & E)]; [done|by rewrite <- E in Hw].
Qed.

Lemma maps_typed_other :
  maps_typed Γ ρ h -> match v with VPtr None => True | VPtr _ => False | VTopic _ => True end ->
  match t with
  | THandle k parent => (parent = None <-> is_owner k = true) /\
      forall j, parent = Some j -> exists k' p', Γ !! j = Some (Some (THandle k' p')) /\ made_from k k'
  | TTopic j => (j < length Γ)%nat /\ forall tp parent a s p, v = VTopic tp ->
      handle_at Γ ρ h j KPublisher parent a (s, p) -> topic_fits p tp
  | TStorage => True
  end ->
  maps_typed (Γ ++ [Some t]) (ρ ++ [v]) h.
Proof.
  intros [M1 M2 M3 M4 M5 M6 M7 M8] Hw Ht.
  assert (Hold : forall i k parent a x, handle_at Γ ρ h i k parent a x ->
    handle_at (Γ ++ [Some t]) (ρ ++ [v]) h i k parent a x) by (intros; by apply grow_old).
  assert (Hinv : forall i k parent a x, handle_at (Γ ++ [Some t]) (ρ ++ [v]) h i k parent a x ->
    handle_at Γ ρ h i k parent a x) by (intros; by apply grow_other_inv).
  split.
  - intros i k parent [H|[_ <-]]%grow_type; [by eapply M1|apply Ht].
  - intros i k j [H|[_ <-]]%grow_type.
    + destruct (M2 i k j H) as (k' & p' & Hj & Hm). exists k', p'. split; [by apply lookup_app_l_Some|done].
    + destruct Ht as [_ Ht]. destruct (Ht j eq_refl) as (k' & p' & Hj & Hm). exists k', p'.
      split; [by apply lookup_app_l_Some|done].
  - intros i k j a x H%Hinv. destruct (M3 _ _ _ _ _ H) as (k' & p' & b & y & Hy & He). exists k', p', b, y. auto.
  - intros i k parent a x m H%Hinv. by eapply M4.
  - intros i j k k' a b x y m H1%Hinv H2%Hinv. by eapply M5.
  - intros i j tp parent a s p Hi Hr Hh%Hinv. destruct (grow_inv i _ _ Hi Hr) as [[H1 H2]|(_ & <- & E)].
    + by eapply M6.
    + destruct Ht as [_ Ht]. by eapply Ht.
  - intros i j [H|[_ <-]]%grow_type; rewrite length_app; [specialize (M7 i j H); lia|]. destruct Ht. lia.
  - intros i parent a s p H%Hinv. by eapply M8.
Qed.

End Grow.

Lemma vars_typed_new Γ ρ h a al t :
  vars_typed Γ ρ h -> hp_allocs h !! a = None -> alloc_typed al t ->
  vars_typed (Γ ++ [Some t]) (ρ ++ [VPtr (Some a)]) (set_alloc a al h).
Proof.
  intros Hv Ha Hal. pose proof Hv as [Hl Hs Hlive Hd Ho]. cbn in *.
  assert (Hold : forall i u b, Γ !! i = Some (Some u) -> ρ !! i = Some (VPtr (Some b)) -> b <> a).
  { intros i u b Hi Hr ->. destruct (Hlive i u a Hi Hr) as (al' & Ha' & _). congruence. }
  split; cbn.
  - rewrite !length_app. cbn. lia.
  - intros i u w Hi Hr. destruct (grow_inv _ _ _ _ _ Hv i u w Hi Hr) as [[H1 H2]|(_ & -> & ->)]; [by eapply Hs|].
    by destruct t.
  - intros i u b Hi Hr. destruct (grow_inv _ _ _ _ _ Hv i u _ Hi Hr) as [[Hi' Hr']|(-> & -> & [= ->])].
    + rewrite lookup_insert_ne by (intros <-; by eapply Hold). by eapply Hlive.
    + rewrite lookup_insert_eq. eauto.
  - intros i j u u' b Hi Hj Hri Hrj.
    destruct (grow_inv _ _ _ _ _ Hv i u _ Hi Hri) as [[Hi' Hri']|(-> & -> & E1)],
      (grow_inv _ _ _ _ _ Hv j u' _ Hj Hrj) as [[Hj' Hrj']|(-> & -> & E2)].
    + by eapply Hd.
    + injection E2 as ->. by destruct (Hold i u a).
    + injection E1 as ->. by destruct (Hold j u' a).
    + done.
  - intros b al' Hb. destruct (decide (b = a)) as [->|Hne].
    + exists (length Γ), t. by apply (grow_new _ _ h).
    + rewrite lookup_insert_ne in Hb by done. destruct (Ho b al' Hb) as (i & u & Hi & Hr).
      exists i, u. split; by apply lookup_app_l_Some.
Qed.

Lemma new_handle_inv Γ ρ h b al t i k parent a x :
  vars_typed Γ ρ h -> hp_allocs h !! b = None ->
  handle_at (Γ ++ [Some t]) (ρ ++ [VPtr (Some b)]) (set_alloc b al h) i k parent a x ->
  handle_at Γ ρ h i k parent a x \/ (i = length Γ /\ t = THandle k parent /\ a = b /\ al = boxed k x).
Proof.
  intros Hv Hb (H1 & H2 & H3). cbn in H3. destruct (grow_inv _ _ _ _ _ Hv i _ _ H1 H2) as [[G1 G2]|(-> & <- & [= ->])].
  - left. split; [done|]. split; [done|]. rewrite lookup_insert_ne in H3; [done|]. intros ->.
    destruct (ht_live _ _ _ Hv i _ _ G1 G2) as (al' & Ha & _). congruence.
  - right. rewrite lookup_insert_eq in H3. by injection H3.
Qed.

(** Storage is no handle. *)
Lemma maps_typed_storage Γ ρ h b :
  vars_typed Γ ρ h -> maps_typed Γ ρ h -> hp_allocs h !! b = None ->
  maps_typed (Γ ++ [Some TStorage]) (ρ ++ [VPtr (Some b)]) (set_alloc b (mkAllocation false None) h).
Proof.
  intros Hv [M1 M2 M3 M4 M5 M6 M7 M8] Hb.
  assert (Hold : forall i k p a x, handle_at Γ ρ h i k p a x ->
    handle_at (Γ ++ [Some TStorage]) (ρ ++ [VPtr (Some b)]) (set_alloc b (mkAllocation false None) h) i k p a x).
  { intros i k p a x. apply grow_old. intros c al Hc. cbn. rewrite lookup_insert_ne; [done|congruence]. }
  assert (Hinv : forall i k p a x,
    handle_at (Γ ++ [Some TStorage]) (ρ ++ [VPtr (Some b)]) (set_alloc b (mkAllocation false None) h) i k p a x ->
    handle_at Γ ρ h i k p a x).
  { intros i k p a x Hx. by destruct (new_handle_inv _ _ _ _ _ _ _ _ _ _ _ Hv Hb Hx) as [?|(_ & [=] & _)]. }
  split.
  - intros i k p [H|[_ [=]]]%grow_type. by eapply M1.
  - intros i k j [H|[_ [=]]]%grow_type. destruct (M2 i k j H) as (k2 & p2 & Hj & Hm). exists k2, p2.
    split; [by apply lookup_app_l_Some|done].
  - intros i k j a x H%Hinv. destruct (M3 _ _ _ _ _ H) as (k2 & p2 & c & z & Hz & He). exists k2, p2, c, z. auto.
  - intros i k p a x m H%Hinv. by eapply (M4 _ _ _ _ _ m H).
  - intros i j k k' a c x y m H1%Hinv H2%Hinv. by eapply M5.
  - intros i j t p' a s p Hi Hr Hh%Hinv. destruct (grow_inv _ _ _ _ _ Hv i _ _ Hi Hr) as [[H1 H2]|(_ & [=] & _)].
    by eapply M6.
  - intros i j [H|[_ [=]]]%grow_type. rewrite length_app. specialize (M7 i j H). lia.
  - intros i p' a s p H%Hinv. by eapply M8.
Qed.

(** Where a new handle may point: an owner has a mapping of its own, another handle that
    of what it was made from. *)
Definition placed (Γ : tenv) (ρ : vars) (h : heap) (k : kind) (parent : option nat) (x : rep k) : Prop :=
  (parent = None <-> is_owner k = true) /\
  match k return rep k -> Prop with KPublisher => fun x => pb_id x.2 <> 0 | _ => fun _ => True end x /\
  match parent with
  | Some j => exists k' p' b y, handle_at Γ ρ h j k' p' b y /\ made_from k k' /\ mapping_of k x = mapping_of k' y
  | None => forall m, mapping_of k x = Some m -> is_mapped m h = true /\
      forall i k' p' b y, handle_at Γ ρ h i k' p' b y -> mapping_of k' y <> Some m
  end.

Lemma obj_as_same k (x : rep k) : obj_as k (existT k x) = Some x.
Proof.
  unfold obj_as. cbn. destruct (decide (k = k)) as [e|]; [|done]. by rewrite (proof_irrel e eq_refl).
Qed.

Lemma boxed_inj k (x y : rep k) : boxed k x = boxed k y -> x = y.
Proof.
  intros H. apply (f_equal (fun al => al_val al ≫= obj_as k)) in H. cbn in H. rewrite !obj_as_same in H. congruence.
Qed.

Lemma maps_typed_new Γ ρ h b k parent x :
  vars_typed Γ ρ h -> maps_typed Γ ρ h -> hp_allocs h !! b = None -> placed Γ ρ h k parent x ->
  maps_typed (Γ ++ [Some (THandle k parent)]) (ρ ++ [VPtr (Some b)]) (set_alloc b (boxed k x) h).
Proof.
  intros Hv [M1 M2 M3 M4 M5 M6 M7 M8] Hb (Hpl & Hid & Hp).
  assert (Hold : forall i k' p' a y, handle_at Γ ρ h i k' p' a y ->
    handle_at (Γ ++ [Some (THandle k parent)]) (ρ ++ [VPtr (Some b)]) (set_alloc b (boxed k x) h) i k' p' a y).
  { intros i k' p' a y. apply grow_old. intros c al Hc. cbn. rewrite lookup_insert_ne; [done|congruence]. }
  assert (Hinv : forall i k' p' a y,
    handle_at (Γ ++ [Some (THandle k parent)]) (ρ ++ [VPtr (Some b)]) (set_alloc b (boxed k x) h) i k' p' a y ->
    handle_at Γ ρ h i k' p' a y \/ (i = length Γ /\ p' = parent /\ existT k x = existT k' y)).
  { intros i k' p' a y Hy. destruct (new_handle_inv _ _ _ _ _ _ _ _ _ _ _ Hv Hb Hy) as [?|(-> & [= <- <-] & -> & E)];
      [by left|]. right. apply boxed_inj in E as ->. done. }
  split.
  - intros i k' p' [H|[_ [= -> ->]]]%grow_type; [by eapply M1|done].
  - intros i k' j [H|[_ [= -> <-]]]%grow_type.
    + destruct (M2 i k' j H) as (k2 & p2 & Hj & Hm). exists k2, p2. split; [by apply lookup_app_l_Some|done].
    + destruct Hp as (k2 & p2 & c & y & (Hj & _) & Hm & _). exists k2, p2. split; [by apply lookup_app_l_Some|done].
  - intros i k' j a y [H|(-> & <- & E)]%Hinv.
    + destruct (M3 _ _ _ _ _ H) as (k2 & p2 & c & z & Hz & He). exists k2, p2, c, z. auto.
    + destruct Hp as (k2 & p2 & c & z & Hz & _ & He). exists k2, p2, c, z. split; [by apply Hold|]. by simplify_eq.
  - intros i k' p' a y m [H|(-> & -> & E)]%Hinv Hm; [by eapply M4 in H|]. simplify_eq.
    destruct parent as [j|]; [|by apply Hp]. destruct Hp as (k2 & p2 & c & z & Hz & _ & He).
    eapply M4 in Hz; [exact Hz|]. congruence.
  - intros i j k1 k2 a c y z m [H1|(-> & <- & E1)]%Hinv [H2|(-> & Hp2 & E2)]%Hinv Hm1 Hm2; simplify_eq; try done.
    + by eapply M5.
    + destruct (Hp m Hm2) as [_ Hno]. by destruct (Hno _ _ _ _ _ H1).
    + destruct (Hp m Hm1) as [_ Hno]. by destruct (Hno _ _ _ _ _ H2).
  - intros i j tp p' a s p Hi Hr Hh. destruct (grow_inv _ _ _ _ _ Hv i _ _ Hi Hr) as [[H1 H2]|(_ & [=] & _)].
    destruct (Hinv _ _ _ _ _ Hh) as [H|(-> & _)]; [by eapply M6|]. specialize (M7 i _ H1). lia.
  - intros i j [H|[_ [=]]]%grow_type. rewrite length_app. specialize (M7 i j H). lia.
  - intros i p' a s p [H|(-> & -> & E)]%Hinv; [by eapply M8|]. pose proof (f_equal (projT1) E) as Ek. cbn in Ek.
    subst k. apply (f_equal (obj_as KPublisher)) in E. rewrite !obj_as_same in E. by simplify_eq.
Qed.

(** *** A changed object *)

(** What other objects may rely on does not change. *)
Definition same_view (k : kind) (x y : rep k) : Prop :=
  mapping_of k x = mapping_of k y /\
  match k return rep k -> rep k -> Prop with
  | KPublisher => fun x y => pb_id x.2 = pb_id y.2 /\ pb_region x.2 = pb_region y.2
  | _ => fun _ _ => True
  end x y.

Lemma topic_fits_view p p' t :
  pb_id p = pb_id p' -> pb_region p = pb_region p' -> topic_fits p t -> topic_fits p' t.
Proof. unfold topic_fits, in_table. by intros -> ->. Qed.

Lemma vars_typed_set Γ ρ h i t a al :
  vars_typed Γ ρ h -> Γ !! i = Some (Some t) -> ρ !! i = Some (VPtr (Some a)) -> alloc_typed al t ->
  vars_typed Γ ρ (set_alloc a al h).
Proof.
  intros [Hl Hs Hlive Hd Ho] Hi Hr Hal. split; cbn; [done|done| |done|].
  - intros j u b Hj Hrj. destruct (decide (b = a)) as [->|Hne].
    + rewrite lookup_insert_eq. assert (i = j) by (by eapply Hd). simplify_eq. eauto.
    + rewrite lookup_insert_ne by done. by eapply Hlive.
  - intros b al' Hb. destruct (decide (b = a)) as [->|Hne]; [eauto|].
    rewrite lookup_insert_ne in Hb by done. by eapply Ho.
Qed.

Lemma maps_typed_view Γ ρ h h' :
  maps_typed Γ ρ h -> hp_maps h' = hp_maps h ->
  (forall i k p a x, handle_at Γ ρ h' i k p a x -> exists y, handle_at Γ ρ h i k p a y /\ same_view k y x) ->
  (forall i k p a x, handle_at Γ ρ h i k p a x -> exists y, handle_at Γ ρ h' i k p a y /\ same_view k x y) ->
  maps_typed Γ ρ h'.
Proof.
  intros [M1 M2 M3 M4 M5 M6 M7 M8] Hm Hin Hout. split; try done.
  - intros i k j a x (y & Hy & [Ey _])%Hin. destruct (M3 _ _ _ _ _ Hy) as (k' & p' & b & z & Hz & Ez).
    destruct (Hout _ _ _ _ _ Hz) as (z' & Hz' & [Ez' _]). exists k', p', b, z'. split; [done|]. congruence.
  - intros i k p a x m (y & Hy & [Ey _])%Hin Hx. unfold is_mapped. rewrite Hm. eapply (M4 _ _ _ _ _ m Hy). congruence.
  - intros i j k k' a b x y m (x' & Hx' & [Ex _])%Hin (y' & Hy' & [Ey _])%Hin Hx Hy.
    eapply (M5 _ _ _ _ _ _ _ _ m Hx' Hy'); congruence.
  - intros i j t p' a s p Hi Hr ([s' p0] & Hy & [_ [E1 E2]])%Hin. cbn in E1, E2.
    eapply topic_fits_view; [exact E1|exact E2|]. by eapply M6.
  - intros i p' a s p ([s' p0] & Hy & [_ [E1 E2]])%Hin. cbn in E1. rewrite <- E1. by eapply M8.
Qed.

Lemma set_inv Γ ρ h i t a al j k p b x :
  vars_typed Γ ρ h -> Γ !! i = Some (Some t) -> ρ !! i = Some (VPtr (Some a)) ->
  handle_at Γ ρ (set_alloc a al h) j k p b x ->
  (handle_at Γ ρ h j k p b x /\ b <> a) \/ (j = i /\ b = a /\ t = THandle k p /\ al = boxed k x).
Proof.
  intros Hv Hi Hr (H1 & H2 & H3). cbn in H3. destruct (decide (b = a)) as [->|Hne].
  - right. rewrite lookup_insert_eq in H3. injection H3 as ->.
    assert (j = i) as -> by (by eapply ht_distinct). by simplify_eq.
  - left. rewrite lookup_insert_ne in H3 by done. by split.
Qed.

Lemma heap_typed_set Γ ρ h i k p a x y :
  heap_typed Γ ρ h -> handle_at Γ ρ h i k p a x -> same_view k x y ->
  heap_typed Γ ρ (set_alloc a (boxed k y) h).
Proof.
  intros [Hv Hm] (H1 & H2 & H3) Hxy.
  assert (Hrefl : forall k (z : rep k), same_view k z z) by (intros [] z; done).
  split; [eapply vars_typed_set; [done..|by eexists]|]. apply (maps_typed_view Γ ρ h); [done|done| |].
  - intros j k' p' b z Hz. destruct (set_inv _ _ _ _ _ _ _ _ _ _ _ _ Hv H1 H2 Hz) as [[? _]|(-> & -> & [= <- <-] & E)].
    + by exists z.
    + exists x. split; [done|]. by apply boxed_inj in E as <-.
  - intros j k' p' b z (Z1 & Z2 & Z3). destruct (decide (b = a)) as [->|Hne].
    + assert (j = i) as -> by (by eapply ht_distinct). rewrite H1 in Z1. injection Z1 as -> ->. rewrite H3 in Z3.
      assert (Hz : boxed k' x = boxed k' z) by congruence. apply boxed_inj in Hz as <-.
      exists y. split; [|done]. split; [done|]. split; [done|]. cbn. by rewrite lookup_insert_eq.
    + exists z. split; [|done]. split; [done|]. split; [done|]. cbn. by rewrite lookup_insert_ne.
Qed.

Lemma heap_typed_storage Γ ρ h i a x :
  heap_typed Γ ρ h -> Γ !! i = Some (Some TStorage) -> ρ !! i = Some (VPtr (Some a)) ->
  heap_typed Γ ρ (set_alloc a (mkAllocation false (Some (existT KSample x))) h).
Proof.
  intros [Hv Hm] H1 H2. assert (Hrefl : forall k (z : rep k), same_view k z z) by (intros [] z; done).
  split; [eapply vars_typed_set; [done..|right; by eexists]|]. apply (maps_typed_view Γ ρ h); [done|done| |].
  - intros j k' p' b z Hz. destruct (set_inv _ _ _ _ _ _ _ _ _ _ _ _ Hv H1 H2 Hz) as [[? _]|(_ & _ & [=] & _)]. by exists z.
  - intros j k' p' b z (Z1 & Z2 & Z3). exists z. split; [|done]. split; [done|]. split; [done|]. cbn.
    rewrite lookup_insert_ne; [done|]. intros <-. assert (i = j) as <- by (by eapply ht_distinct). congruence.
Qed.

(** *** A freed object *)

(** The owner of a mapping that is used. *)
Lemma mapping_root Γ ρ h j k p a x m :
  maps_typed Γ ρ h -> handle_at Γ ρ h j k p a x -> mapping_of k x = Some m ->
  exists i k' b y, handle_at Γ ρ h i k' None b y /\ mapping_of k' y = Some m /\
    (i = j \/ exists c kc, Γ !! c = Some (Some (THandle kc (Some i)))).
Proof.
  intros [M1 M2 M3 M4 M5 M6 M7 M8] Hx Hm. destruct p as [i|]; [|exists j, k, a, x; auto].
  destruct (M3 _ _ _ _ _ Hx) as (k' & p' & b & y & Hy & E).
  destruct p' as [i'|]; [|exists i, k', b, y; split; [done|]; split; [congruence|]; right; by exists j, k; apply Hx].
  destruct (M3 _ _ _ _ _ Hy) as (k2 & p2 & b2 & y2 & Hy2 & E2). pose proof Hy as (G & _).
  assert (p2 = None) as ->.
  { apply (M1 _ _ _ (proj1 Hy2)). destruct (M2 _ _ _ G) as (k3 & p3 & G3 & Hmf). pose proof Hy2 as (G2 & _).
    assert (Hk3 : k3 = k2) by congruence. subst k3.
    destruct Hmf as [[_ ->]|[-> _]]; [done|].
    destruct (M2 _ _ _ (proj1 Hx)) as (k4 & p4 & G4 & Hmf4). assert (k4 = KSample) as -> by congruence.
    by destruct Hmf4 as [[_ ?]|[_ [?|?]]]. }
  exists i', k2, b2, y2. split; [done|]. split; [congruence|]. right. by exists i, k'.
Qed.

Lemma childless_spec Γ i c k : childless Γ i = true -> Γ !! c <> Some (Some (THandle k (Some i))).
Proof.
  unfold childless. intros H Hc. rewrite forallb_forall in H.
  specialize (H (Some (THandle k (Some i)))). cbn in H. rewrite Nat.eqb_refl in H. discriminate H.
  apply list_elem_of_In. by eapply list_elem_of_lookup_2.
Qed.

Lemma freed_type (Γ : tenv) (i j : nat) t : <[i := None]> Γ !! j = Some (Some t) -> j <> i /\ Γ !! j = Some (Some t).
Proof. intros [(-> & [=] & _)|[? ?]]%list_lookup_insert_Some. done. Qed.

Lemma vars_typed_free Γ ρ h i t a :
  vars_typed Γ ρ h -> Γ !! i = Some (Some t) -> ρ !! i = Some (VPtr (Some a)) ->
  vars_typed (<[i := None]> Γ) ρ (del_alloc a h).
Proof.
  intros [Hl Hs Hlive Hd Ho] Hi Hr. split; cbn.
  - by rewrite length_insert.
  - intros j u v [_ Hj]%freed_type. by apply Hs.
  - intros j u b [Hji Hj]%freed_type Hrj. rewrite lookup_delete_ne; [by eapply Hlive|].
    intros ->. apply Hji. by eapply Hd.
  - intros j l u v b [_ Hj]%freed_type [_ Hl']%freed_type. by eapply Hd.
  - intros b al [Hba Hb]%lookup_delete_Some. destruct (Ho b al Hb) as (j & u & Hj & Hrj).
    exists j, u. rewrite list_lookup_insert_ne; [done|]. intros ->. congruence.
Qed.

Lemma vars_typed_free_null Γ ρ h i :
  vars_typed Γ ρ h -> ρ !! i = Some (VPtr None) -> vars_typed (<[i := None]> Γ) ρ h.
Proof.
  intros [Hl Hs Hlive Hd Ho] Hr. split.
  - by rewrite length_insert.
  - intros j u v [_ Hj]%freed_type. by apply Hs.
  - intros j u b [_ Hj]%freed_type. by apply Hlive.
  - intros j l u v b [_ Hj]%freed_type [_ Hl']%freed_type. by eapply Hd.
  - intros b al Hb. destruct (Ho b al Hb) as (j & u & Hj & Hrj). exists j, u.
    rewrite list_lookup_insert_ne; [done|]. intros ->. congruence.
Qed.

Lemma maps_typed_free Γ ρ h h' i :
  maps_typed Γ ρ h -> childless Γ i = true ->
  (forall j k p a x, j <> i -> handle_at Γ ρ h' j k p a x <-> handle_at Γ ρ h j k p a x) ->
  (forall j k p a x m, j <> i -> handle_at Γ ρ h j k p a x -> mapping_of k x = Some m -> is_mapped m h' = true) ->
  maps_typed (<[i := None]> Γ) ρ h'.
Proof.
  intros [M1 M2 M3 M4 M5 M6 M7 M8] Hcl Hin Hmp.
  assert (Hinv : forall j k p a x, handle_at (<[i := None]> Γ) ρ h' j k p a x -> j <> i /\ handle_at Γ ρ h j k p a x).
  { intros j k p a x ([Hji Hj]%freed_type & Hr & Ha). split; [done|]. by apply Hin. }
  assert (Hkeep : forall j k p a x, j <> i -> handle_at Γ ρ h j k p a x -> handle_at (<[i := None]> Γ) ρ h' j k p a x).
  { intros j k p a x Hj Hx. apply Hin in Hx as (H1 & H2 & H3); [|done]. split; [|done]. by rewrite list_lookup_insert_ne. }
  split.
  - intros j k p [_ Hj]%freed_type. by eapply M1.
  - intros j k l [_ Hj]%freed_type. destruct (M2 j k l Hj) as (k' & p' & Hl & Hm). exists k', p'. split; [|done].
    rewrite list_lookup_insert_ne; [done|]. intros <-. by eapply childless_spec.
  - intros j k l a x [_ Hx]%Hinv. destruct (M3 _ _ _ _ _ Hx) as (k' & p' & b & y & Hy & E).
    exists k', p', b, y. split; [|done]. apply Hkeep; [|done]. intros ->. by eapply childless_spec, Hx.
  - intros j k p a x m [Hj Hx]%Hinv. by apply Hmp with (1 := Hj) (2 := Hx).
  - intros j l k k' a b x y m [_ Hx]%Hinv [_ Hy]%Hinv. by eapply M5.
  - intros j l t p' a s p [_ Hj]%freed_type Hr [_ Hx]%Hinv. by eapply M6.
  - intros j l [_ Hj]%freed_type. rewrite length_insert. by eapply M7.
  - intros j p' a s p [_ Hx]%Hinv. by eapply M8.
Qed.

Lemma heap_typed_free_null Γ ρ h i :
  heap_typed Γ ρ h -> childless Γ i = true -> ρ !! i = Some (VPtr None) -> heap_typed (<[i := None]> Γ) ρ h.
Proof.
  intros [Hv Hm] Hcl Hr. split; [by apply vars_typed_free_null|]. apply (maps_typed_free Γ ρ h); try done.
  intros j k p a x m _ Hx. by eapply mt_mapped.
Qed.

Lemma del_other Γ ρ h i a j k p b x :
  vars_typed Γ ρ h -> (exists t, Γ !! i = Some (Some t)) -> ρ !! i = Some (VPtr (Some a)) -> j <> i ->
  handle_at Γ ρ (del_alloc a h) j k p b x <-> handle_at Γ ρ h j k p b x.
Proof.
  intros Hv [t Hi] Hr Hne. unfold handle_at. cbn. split; intros (H1 & H2 & H3); (split; [done|]; split; [done|]).
  - by apply lookup_delete_Some in H3 as [_ ?].
  - rewrite lookup_delete_ne; [done|]. intros ->. apply Hne. by eapply ht_distinct.
Qed.

(** The object's mapping is there when it is dropped; the mapping of an owner can be taken
    away with it. *)
Lemma heap_typed_free Γ ρ h i k p a x :
  heap_typed Γ ρ h -> childless Γ i = true -> handle_at Γ ρ h i k p a x ->
  heap_typed (<[i := None]> Γ) ρ (del_alloc a h) /\
  forall m, mapping_of k x = Some m -> is_mapped m h = true /\
    (is_owner k = true ->
      heap_typed (<[i := None]> Γ) ρ (mkHeap (delete a (hp_allocs h)) (<[m := false]> (hp_maps h)))).
Proof.
  intros [Hv Hm] Hcl Hx. pose proof Hx as (H1 & H2 & H3).
  pose proof (vars_typed_free _ _ _ _ _ _ Hv H1 H2) as Hv'.
  assert (Hdel : forall j k p b y, j <> i -> handle_at Γ ρ (del_alloc a h) j k p b y <-> handle_at Γ ρ h j k p b y)
    by (intros; eapply del_other; eauto).
  split; [|intros m Hmx; split; [by eapply mt_mapped|]; intros Hown].
  - split; [done|]. apply (maps_typed_free Γ ρ h); try done. intros j k' p' b y m _ Hy. by eapply (mt_mapped _ _ _ Hm).
  - split; [by destruct Hv'; split|]. apply (maps_typed_free Γ ρ h); [done|done|exact Hdel|].
    intros j k' p' b y m' Hne Hy Hmy. unfold is_mapped. cbn.
    rewrite list_lookup_insert_ne; [exact (mt_mapped _ _ _ Hm _ _ _ _ _ _ Hy Hmy)|]. intros <-.
    assert (p = None) as -> by (by apply (mt_root _ _ _ Hm _ _ _ H1)).
    destruct (mapping_root _ _ _ _ _ _ _ _ _ Hm Hy Hmy) as (r & kr & br & yr & Hyr & Er & Hor).
    assert (r = i) as -> by (by eapply (mt_distinct _ _ _ Hm)).
    destruct Hor as [->|(c & kc & Hc)]; [done|]. by eapply childless_spec.
Qed.

(** ** What operations of a publisher keep *)

Abbreviation ends := (returns (fun _ _ => True)).

Definition same_pub (p p' : Publisher) : Prop := pb_id p = pb_id p' /\ pb_region p = pb_region p'.

Lemma ends_refill fuel n p : ends (refill_cache fuel n p) (fun x => same_pub p x.1).
Proof.
  revert p. induction n as [|n IH]; intros p; cbn [refill_cache]; (destruct (_ <=? _); [done|]); [done|].
  eapply returns_bind; [apply returns_any|]. intros [[idx|]|e] _; [|done|done].
  eapply returns_weaken; [apply IH|]. intros x. done.
Qed.

Lemma ends_pop p : ends (pop_cache p) (fun x => same_pub p x.1).
Proof. unfold pop_cache. destruct (0 <? _); [|done]. by destruct (_ !! _). Qed.

Lemma ends_alloc_cached fuel p : ends (alloc_cached fuel p) (fun x => same_pub p x.1).
Proof.
  unfold alloc_cached. eapply returns_bind; [apply returns_any|]. intros [idx|] _; [done|].
  destruct (0 <? _); [apply ends_pop|]. eapply returns_bind; [apply ends_refill|].
  intros [p1 [u|e]] [H1 H2]; [|done]. eapply returns_weaken; [apply ends_pop|].
  intros x [H3 H4]. cbn in *. split; congruence.
Qed.

Lemma ends_loan_heartbeat p : ends (loan_heartbeat p) (same_pub p).
Proof.
  unfold loan_heartbeat. destruct (_ =? 0); [|done]. cbn [bind instant_now returns]. intros now.
  destruct (_ <=? _); [|done]. eapply returns_bind; [apply returns_any|]. by intros [u|e] _.
Qed.

(** A loan was asked for with a topic of the publisher. *)
Lemma ends_loan fuel p t :
  ends (loan fuel p t) (fun x => same_pub p x.1 /\ forall l, x.2 = Ok l -> tp_publisher_id t = pb_id p).
Proof.
  unfold loan, loan_preamble. destruct (Z.eqb_spec (tp_publisher_id t) (pb_id p)) as [He|]; cbn [negb]; [|done].
  eapply returns_bind with (P := fun x => same_pub p x.1).
  - eapply returns_bind; [apply ends_loan_heartbeat|]. intros p1 [H1 H2].
    eapply returns_bind; [apply ends_alloc_cached|]. intros [p2 res] [H3 H4]. cbn in *. split; congruence.
  - by intros [p1 res] Hp.
Qed.

Lemma ends_heartbeat p : ends (heartbeat p) (fun x => same_pub p x.1).
Proof. eapply returns_bind; [apply returns_any|]. by intros [u|e] _. Qed.

Lemma ends_create handle base pid id name config :
  ends (create handle base pid id name config) (fun r => forall p, r = Ok p -> pb_id p = id).
Proof.
  unfold create. destruct (create_validate name config); [|done].
  do 3 (eapply returns_bind; [apply returns_any|]; intros ? _).
  eapply returns_bind; [apply returns_any|]. intros [u|e] _; [|done].
  eapply returns_bind; [apply returns_any|]. intros ? _. cbn. by intros now p [= <-].
Qed.

Definition table_topic (p : Publisher) (r : result Topic Error) : Prop :=
  forall t, r = Ok t -> 0 <= tp_topic_idx t < max_topics (rg_config (pb_region p)).

Lemma ends_register p uri : ends (register p uri) (table_topic p).
Proof.
  unfold register, register_inner. destruct (_ <? _); [done|].
  apply returns_for_return; [|apply returns_for_return; [|done]]; intros t Ht%elem_of_seqZ_0; cbn [bind load returns].
  - unfold find_existing. cbn [bind load returns]. intros v _. destruct (_ =? _); [|by intros ? [=]].
    eapply returns_bind; [apply returns_any|]. intros [] _; cbn; [|by intros ? [=]]. by intros b [= <-] t' [= <-].
  - unfold claim_topic. eapply returns_bind; [apply returns_any|]. intros [[] v] _; cbn [negb]; [|by intros ? [=]].
    repeat (eapply returns_bind; [apply returns_any|]; intros ? _). cbn. by intros b [= <-] t' [= <-].
Qed.

(** ** Rules for calls *)

(** From a heap in [P], [m] has no undefined behaviour and ends in [Q], whatever the
    regions hold. *)
Definition fspec {A} (P : heap -> Prop) (m : ffi A) (Q : A -> heap -> Prop) : Prop :=
  forall h, P h -> ends (m h) (fun o => exists a h', o = Some (a, h') /\ Q a h').

Lemma fs_ret {A} (a : A) (P : heap -> Prop) (Q : A -> heap -> Prop) :
  (forall h, P h -> Q a h) -> fspec P (fret a) Q.
Proof. intros HPQ h Hh. cbn. eauto. Qed.

Lemma fs_bind {A B} (m : ffi A) (f : A -> ffi B) P Q R :
  fspec P m Q -> (forall a, fspec (Q a) (f a) R) -> fspec P (fbind m f) R.
Proof.
  intros Hm Hf h Hh. eapply returns_bind; [by apply Hm|]. intros o (a & h' & -> & Hq). by apply Hf.
Qed.

Lemma fs_pre {A} (m : ffi A) (P P' : heap -> Prop) Q : (forall h, P' h -> P h) -> fspec P m Q -> fspec P' m Q.
Proof. intros HP Hm h Hh. by apply Hm, HP. Qed.

(** An operation of the library, by what it can return. *)
Lemma fs_lift {A B} (p : prog chan_cell A) (E : A -> Prop) (f : A -> ffi B) P R :
  ends p E -> (forall a, E a -> fspec P (f a) R) -> fspec P (fbind (lift p) f) R.
Proof.
  intros Hp Hf h Hh. eapply returns_bind with (P := fun o => exists a, E a /\ o = Some (a, h)).
  - eapply returns_bind; [exact Hp|]. intros a Ha. cbn. eauto.
  - intros o (a & Ha & ->). by apply Hf.
Qed.

Lemma ends_on {A} s (p : prog cell A) Q : ends p Q -> ends (on s p) Q.
Proof. induction p; cbn [on returns]; auto. Qed.

Lemma fs_at {A B} s (p : prog cell A) (E : A -> Prop) (f : A -> ffi B) P R :
  ends p E -> (forall a, E a -> fspec P (f a) R) -> fspec P (fbind (at_side s p) f) R.
Proof. intros Hp. by apply fs_lift, ends_on. Qed.

Lemma fs_done {A} (p : prog chan_cell A) P Q : (forall a h, P h -> Q a h) -> fspec P (lift p) Q.
Proof. intros HQ h Hh. eapply returns_bind; [apply returns_any|]. intros a _. cbn. eauto. Qed.

Lemma fs_access {A} (P : heap -> Prop) m s (p : prog cell A) Q :
  (forall h, P h -> is_mapped m h = true) -> (forall a h, P h -> Q a h) -> fspec P (access m s p) Q.
Proof. intros HP HQ h Hh. unfold access. rewrite (HP h Hh). by apply (fs_done _ P). Qed.

Lemma new_addr_free h : hp_allocs h !! new_addr h = None.
Proof. apply not_elem_of_dom. unfold new_addr. apply is_fresh. Qed.

Section Rules.
Context (Γ : tenv) (ρ : vars).
Local Abbreviation typed := (heap_typed Γ ρ).

Lemma fs_null k parent :
  (parent = None <-> is_owner k = true) ->
  (forall j, parent = Some j -> exists k' p', Γ !! j = Some (Some (THandle k' p')) /\ made_from k k') ->
  fspec typed (fret None) (fun q => heap_typed (Γ ++ [Some (THandle k parent)]) (ρ ++ [VPtr q])).
Proof.
  intros H1 H2. apply fs_ret. intros h [Hv Hm]. split; [by apply vars_typed_other|by apply maps_typed_other].
Qed.

Lemma fs_topic j t :
  (j < length Γ)%nat ->
  fspec (fun h => typed h /\ forall parent a s p, handle_at Γ ρ h j KPublisher parent a (s, p) -> topic_fits p t)
    (fret t) (fun t => heap_typed (Γ ++ [Some (TTopic j)]) (ρ ++ [VTopic t])).
Proof.
  intros Hj. apply fs_ret. intros h [[Hv Hm] Ht]. split; [by apply vars_typed_other|apply maps_typed_other; try done].
  split; [done|]. intros tp parent a s p [= <-]. apply Ht.
Qed.

Lemma fs_new k parent (x : rep k) :
  fspec (fun h => typed h /\ placed Γ ρ h k parent x) (into_raw k x)
    (fun q => heap_typed (Γ ++ [Some (THandle k parent)]) (ρ ++ [VPtr q])).
Proof.
  intros h [[Hv Hm] Hp]. cbn. eexists _, _. split; [done|].
  pose proof (new_addr_free h) as Hf.
  split; [apply vars_typed_new; [done..|by eexists]|by apply maps_typed_new].
Qed.

(** A new owner, with the mapping of the call. *)
Lemma fs_owner k (f : mapping -> rep k) :
  is_owner k = true -> k <> KPublisher -> (forall m, mapping_of k (f m) = Some m) ->
  fspec typed (do* m := map_region in into_raw k (f m))
    (fun q => heap_typed (Γ ++ [Some (THandle k None)]) (ρ ++ [VPtr q])).
Proof.
  intros Ho Hk Hf h Hh. apply (fs_new k None (f (length (hp_maps h)))).
  set (h' := mkHeap _ _).
  assert (Hmap : forall m, is_mapped m h = true -> is_mapped m h' = true /\ m <> length (hp_maps h)).
  { intros m. unfold is_mapped. cbn. destruct (hp_maps h !! m) eqn:E; [|done]. cbn. intros ->.
    rewrite (lookup_app_l_Some _ _ _ _ E). apply lookup_lt_Some in E. split; [done|lia]. }
  destruct Hh as [Hv Hm]. split; [split|].
  - by destruct Hv.
  - destruct Hm as [M1 M2 M3 M4 M5 M6 M7 M8]. split; try done. intros i k' p a x m Hx Hmx. by apply Hmap, (M4 _ _ _ _ _ _ Hx).
  - split; [by rewrite Ho|]. split; [by destruct k|]. intros m E. rewrite Hf in E. injection E as <-. split.
    + unfold is_mapped. cbn. by rewrite lookup_app_r, Nat.sub_diag by lia.
    + intros i k' p' b y Hy E. destruct (Hmap (length (hp_maps h))) as [_ Hne]; [|done].
      eapply (mt_mapped _ _ _ Hm); [exact Hy|exact E].
Qed.

Lemma fs_declare :
  fspec typed declare_sample (fun q => heap_typed (Γ ++ [Some TStorage]) (ρ ++ [VPtr q])).
Proof.
  intros h [Hv Hm]. cbn. eexists _, _. split; [done|].
  pose proof (new_addr_free h) as Hf.
  split; [apply vars_typed_new; [done..|by left]|]. by apply maps_typed_storage.
Qed.

Section Handle.
Context (i : nat) (k : kind) (parent : option nat) (a : nat).
Hypothesis (Hi : Γ !! i = Some (Some (THandle k parent))) (Hp : ρ !! i = Some (VPtr (Some a))).

(** The object is [x]. *)
Definition at_obj (x : rep k) (h : heap) : Prop := typed h /\ hp_allocs h !! a = Some (boxed k x).

Lemma at_obj_handle x h : at_obj x h -> handle_at Γ ρ h i k parent a x.
Proof. intros [_ Ha]. done. Qed.

Lemma handle_obj h : typed h -> exists x, at_obj x h.
Proof. intros Hh. destruct (ht_live _ _ _ (ht_vars _ _ _ Hh) i _ a Hi Hp) as (al & Ha & x & ->). by exists x. Qed.

Lemma fs_deref : fspec typed (deref k (Some a)) at_obj.
Proof.
  intros h Hh. destruct (handle_obj h Hh) as [x [_ Ha]]. unfold deref, heap_obj. rewrite Ha. cbn. rewrite obj_as_same.
  cbn. eexists _, _. split; [done|]. done.
Qed.

Lemma fs_obj_access {A} (x : rep k) m s (p : prog cell A) :
  mapping_of k x = Some m -> fspec (at_obj x) (access m s p) (fun _ => at_obj x).
Proof.
  intros Hm. apply fs_access; [|done]. intros h Hh. pose proof Hh as [[_ Hmt] _].
  eapply (mt_mapped _ _ _ Hmt); [by apply at_obj_handle|done].
Qed.

Lemma fs_update (x y : rep k) : same_view k x y -> fspec (at_obj x) (update k (Some a) y) (fun _ => at_obj y).
Proof.
  intros Hxy h Hh. pose proof Hh as [Ht Ha]. unfold update. rewrite Ha. cbn. eexists _, _. split; [done|].
  split; [|cbn; by rewrite lookup_insert_eq]. eapply heap_typed_set; [done|by apply at_obj_handle|done].
Qed.

Lemma fs_child (x : rep k) k' (y : rep k') :
  made_from k' k -> is_owner k' = false -> mapping_of k' y = mapping_of k x ->
  fspec (at_obj x) (into_raw k' y) (fun q => heap_typed (Γ ++ [Some (THandle k' (Some i))]) (ρ ++ [VPtr q])).
Proof.
  intros Hmf Ho He. eapply fs_pre; [|apply (fs_new k' (Some i) y)]. intros h Hh. split; [apply Hh|].
  split; [by rewrite Ho|]. split; [by destruct k'|]. exists k, parent, a, x. split; [by apply at_obj_handle|done].
Qed.

Lemma fs_child_null (x : rep k) k' :
  made_from k' k -> is_owner k' = false ->
  fspec (at_obj x) (fret None) (fun q => heap_typed (Γ ++ [Some (THandle k' (Some i))]) (ρ ++ [VPtr q])).
Proof.
  intros Hmf Ho. eapply fs_pre; [|apply (fs_null k' (Some i))]; [by intros h []|by rewrite Ho|].
  intros j [= <-]. by exists k, parent.
Qed.

(** The object is freed; what is left of it is its mapping. *)
Definition freed (x : rep k) (h : heap) : Prop :=
  heap_typed (<[i := None]> Γ) ρ h /\
  forall m, mapping_of k x = Some m -> is_mapped m h = true /\
    (is_owner k = true -> heap_typed (<[i := None]> Γ) ρ (mkHeap (hp_allocs h) (<[m := false]> (hp_maps h)))).

Lemma fs_from_raw_box : childless Γ i = true -> fspec typed (from_raw_box k (Some a)) freed.
Proof.
  intros Hcl h Hh. destruct (handle_obj h Hh) as [x [Ht Ha]]. unfold from_raw_box. rewrite Ha. cbn. rewrite obj_as_same.
  cbn. eexists _, _. split; [done|]. by eapply heap_typed_free.
Qed.

Lemma fs_freed_access {A} (x : rep k) m s (p : prog cell A) :
  mapping_of k x = Some m -> fspec (freed x) (access m s p) (fun _ => heap_typed (<[i := None]> Γ) ρ).
Proof. intros Hm. apply fs_access; [intros h [_ H]; by apply H|by intros _ h []]. Qed.

Lemma fs_freed_unmap (x : rep k) m :
  mapping_of k x = Some m -> is_owner k = true ->
  fspec (freed x) (unmap_region m) (fun _ => heap_typed (<[i := None]> Γ) ρ).
Proof. intros Hm Ho h [_ H]. cbn. eexists _, _. split; [done|]. by apply H. Qed.

End Handle.

Lemma fs_free_null {A} (x : A) i :
  childless Γ i = true -> ρ !! i = Some (VPtr None) ->
  fspec typed (fret x) (fun _ => heap_typed (<[i := None]> Γ) ρ).
Proof. intros Hcl Hp. apply fs_ret. intros h Hh. by apply heap_typed_free_null. Qed.

Lemma fs_write_out i a x :
  Γ !! i = Some (Some TStorage) -> ρ !! i = Some (VPtr (Some a)) ->
  fspec typed (write_out (Some a) x) (fun _ => typed).
Proof.
  intros Hi Hp h Hh. destruct (ht_live _ _ _ (ht_vars _ _ _ Hh) i _ a Hi Hp) as (al & Ha & Hal).
  assert (Hset : typed (set_alloc a (mkAllocation false (Some (existT KSample x))) h)) by (by eapply heap_typed_storage).
  unfold write_out, update. destruct Hal as [->|[y ->]]; rewrite Ha, ?obj_as_same; cbn; eauto.
Qed.

Lemma fs_from_raw_parts P bs len :
  readable (Some bs) len = true -> fspec P (from_raw_parts bs len) (fun _ => P).
Proof. unfold readable, from_raw_parts. intros ->. by apply fs_ret. Qed.

End Rules.

(** ** Soundness *)

Lemma fs_pure {A} (φ : Prop) (m : ffi A) P Q : (forall h, P h -> φ) -> (φ -> fspec P m Q) -> fspec P m Q.
Proof. intros HP Hm h Hh. by apply (Hm (HP h Hh)). Qed.

Lemma fs_keep Γ' ρ P m :
  fspec P m (fun q => heap_typed Γ' (ρ ++ [VPtr q])) -> fspec P (keep ρ m) (fun ρ' => heap_typed Γ' ρ').
Proof. intros Hm. eapply fs_bind; [done|]. intros p. by apply fs_ret. Qed.

Lemma fs_keep_topic Γ' ρ P m :
  fspec P m (fun t => heap_typed Γ' (ρ ++ [VTopic t])) -> fspec P (keep_topic ρ m) (fun ρ' => heap_typed Γ' ρ').
Proof. intros Hm. eapply fs_bind; [done|]. intros p. by apply fs_ret. Qed.

Lemma fs_ignore {A} Γ' ρ P (m : ffi A) :
  fspec P m (fun _ => heap_typed Γ' ρ) -> fspec P (ignore ρ m) (fun ρ' => heap_typed Γ' ρ').
Proof. intros Hm. eapply fs_bind; [done|]. intros p. by apply fs_ret. Qed.

(** A call reads its argument from a variable of the required type. *)
Lemma fs_value {A} Γ ρ i t (m : ffi A) Q :
  Γ !! i = Some (Some t) ->
  (forall v, ρ !! i = Some v -> value_typed v t -> fspec (heap_typed Γ ρ) m Q) ->
  fspec (heap_typed Γ ρ) m Q.
Proof.
  intros Hi Hf h Hh. destruct (lookup_lt_is_Some_2 ρ i) as [v Hv].
  { rewrite (ht_length _ _ _ (ht_vars _ _ _ Hh)). by eapply lookup_lt_Some. }
  apply (Hf v Hv); [|done]. by eapply (ht_sort _ _ _ (ht_vars _ _ _ Hh)).
Qed.

Lemma fs_arg {A} Γ ρ i t (f : ptr -> ffi A) Q :
  Γ !! i = Some (Some t) -> (forall j, t <> TTopic j) ->
  (forall p, ρ !! i = Some (VPtr p) -> fspec (heap_typed Γ ρ) (f p) Q) ->
  fspec (heap_typed Γ ρ) (do* p := var ρ i in f p) Q.
Proof.
  intros Hi Ht Hf. eapply fs_value; [exact Hi|]. intros [p|tp] Hv Hs; [|destruct t; naive_solver].
  unfold fbind, var. rewrite Hv. exact (Hf p Hv).
Qed.

Lemma fs_topic_arg {A} Γ ρ i j (f : CrossbarTopic -> ffi A) Q :
  Γ !! i = Some (Some (TTopic j)) ->
  (forall t, ρ !! i = Some (VTopic t) -> fspec (heap_typed Γ ρ) (f t) Q) ->
  fspec (heap_typed Γ ρ) (do* t := topic_var ρ i in f t) Q.
Proof.
  intros Hi Hf. eapply fs_value; [exact Hi|]. intros [p|tp] Hv Hs; [done|].
  unfold fbind, topic_var. rewrite Hv. exact (Hf tp Hv).
Qed.

(** A call with a publisher and one of its topics. *)
Lemma fs_topic_then {A} Γ ρ i tv parent (f : ptr -> CrossbarTopic -> ffi A) Q :
  Γ !! i = Some (Some (THandle KPublisher parent)) -> Γ !! tv = Some (Some (TTopic i)) ->
  (forall t, ρ !! tv = Some (VTopic t) -> fspec (heap_typed Γ ρ) (do* p := var ρ i in f p t) Q) ->
  fspec (heap_typed Γ ρ) (do* p := var ρ i in do* t := topic_var ρ tv in f p t) Q.
Proof.
  intros Hi Ht Hf. eapply fs_value; [exact Ht|]. intros [p|t] Hv Hs; [done|].
  eapply fs_arg; [exact Hi|done|]. intros q Hq. specialize (Hf t Hv). unfold fbind, var, topic_var in *.
  rewrite Hq in Hf. by rewrite Hv.
Qed.

Lemma is_handle_spec Γ i k : is_handle Γ i k = true -> exists parent, Γ !! i = Some (Some (THandle k parent)).
Proof.
  unfold is_handle. destruct (Γ !! i) as [[[k' parent|j|]|]|]; try done. intros ->%bool_decide_eq_true. eauto.
Qed.
Lemma uses_spec Γ i k Γ' :
  uses Γ i k = Some Γ' -> Γ' = Γ /\ exists parent, Γ !! i = Some (Some (THandle k parent)).
Proof. unfold uses. destruct (is_handle Γ i k) eqn:E; [|done]. intros [= ->]. split; [done|by apply is_handle_spec]. Qed.
Lemma frees_spec Γ i k Γ' :
  frees Γ i k = Some Γ' -> Γ' = <[i := None]> Γ /\ childless Γ i = true /\
    exists parent, Γ !! i = Some (Some (THandle k parent)).
Proof.
  unfold frees. destruct (is_handle Γ i k) eqn:E; [|done]. destruct (childless Γ i); [|done]. intros [= <-].
  split; [done|]. split; [done|by apply is_handle_spec].
Qed.
Lemma gives_spec Γ t Γ' : gives Γ t = Some Γ' -> exists Γ0, Γ = Some Γ0 /\ Γ' = Γ0 ++ [Some t].
Proof. destruct Γ; naive_solver. Qed.

(** Unfolds what the check says of a call's argument. *)
Ltac type_inv :=
  repeat match goal with
  | H : gives _ _ = Some _ |- _ => apply gives_spec in H as (? & ? & ->)
  | H : uses _ _ _ = Some _ |- _ => apply uses_spec in H as [-> [? ?]]
  | H : frees _ _ _ = Some _ |- _ => apply frees_spec in H as (-> & ? & [? ?])
  | H : (if has _ _ _ then _ else None) = Some _ |- _ =>
      unfold has in H; case_bool_decide; [|done]
  | H : (if readable ?d ?l then _ else None) = Some _ |- _ =>
      destruct (readable d l) eqn:?; [|done]
  | H : (if ?x =? 0 then None else _) = Some _ |- _ => destruct (Z.eqb_spec x 0); [done|]
  | H : Some _ = Some _ |- _ => injection H as <-
  end.

Section Calls.
Context (fuel : nat) (Γ : tenv) (ρ : vars) (i : nat) (parent : option nat).
Local Abbreviation typed := (heap_typed Γ ρ).

(** The argument is null, or the address of an object. *)
Lemma fs_handle {A} k (f : ptr -> ffi A) Q :
  Γ !! i = Some (Some (THandle k parent)) ->
  (forall a, ρ !! i = Some (VPtr (Some a)) -> fspec typed (f (Some a)) Q) ->
  (ρ !! i = Some (VPtr None) -> fspec typed (f None) Q) ->
  fspec typed (do* p := var ρ i in f p) Q.
Proof. intros Hi H1 H2. eapply fs_arg; [exact Hi|done|]. intros [a|]; auto. Qed.

Lemma fs_freeing k (m : ptr -> ffi unit) :
  Γ !! i = Some (Some (THandle k parent)) -> childless Γ i = true -> m None = fret tt ->
  (forall a, ρ !! i = Some (VPtr (Some a)) -> fspec typed (m (Some a)) (fun _ => heap_typed (<[i := None]> Γ) ρ)) ->
  fspec typed (do* p := var ρ i in ignore ρ (m p)) (fun ρ' => heap_typed (<[i := None]> Γ) ρ').
Proof.
  intros Hi Hcl Hn Hm. eapply fs_handle; [exact Hi|intros a Ha; by apply fs_ignore, Hm|].
  intros Hr. apply fs_ignore. rewrite Hn. by apply fs_free_null.
Qed.

Lemma fs_making k k' (m : ptr -> ffi ptr) :
  Γ !! i = Some (Some (THandle k parent)) -> made_from k' k -> is_owner k' = false -> m None = fret None ->
  (forall a, ρ !! i = Some (VPtr (Some a)) ->
     fspec typed (m (Some a)) (fun q => heap_typed (Γ ++ [Some (THandle k' (Some i))]) (ρ ++ [VPtr q]))) ->
  fspec typed (do* p := var ρ i in keep ρ (m p)) (fun ρ' => heap_typed (Γ ++ [Some (THandle k' (Some i))]) ρ').
Proof.
  intros Hi Hmf Ho Hn Hm. eapply fs_handle; [exact Hi|intros a Ha; by apply fs_keep, Hm|].
  intros Hr. apply fs_keep. rewrite Hn. apply fs_null; [by rewrite Ho|]. intros j [= <-]. eauto.
Qed.

Section Publisher.
Hypothesis (Hi : Γ !! i = Some (Some (THandle KPublisher parent))).

Lemma err_topic_fits h p' a s p : typed h -> handle_at Γ ρ h i KPublisher p' a (s, p) -> topic_fits p err_topic.
Proof. intros [_ Hm] Hp He. cbn in He. by destruct (mt_id _ _ _ Hm _ _ _ _ _ Hp). Qed.

Lemma fs_err_topic :
  fspec typed (fret err_topic) (fun t => heap_typed (Γ ++ [Some (TTopic i)]) (ρ ++ [VTopic t])).
Proof.
  eapply fs_pre; [|apply fs_topic; by eapply lookup_lt_Some]. intros h Hh. split; [done|].
  intros p' a s p. by apply err_topic_fits.
Qed.

Lemma fs_register uri :
  fspec typed (do* p := var ρ i in keep_topic ρ (crossbar_publisher_register p uri))
    (fun ρ' => heap_typed (Γ ++ [Some (TTopic i)]) ρ').
Proof.
  eapply fs_handle; [exact Hi| |]; unfold crossbar_publisher_register.
  2:{ intros _. apply fs_keep_topic. destruct uri; apply fs_err_topic. }
  intros a Ha. apply fs_keep_topic. destruct uri as [cs|]; [|apply fs_err_topic]. cbn [is_null].
  eapply fs_bind; [by eapply fs_deref|]. intros [s p].
  assert (Herr : fspec (at_obj Γ ρ KPublisher a (s, p)) (fret err_topic)
    (fun t => heap_typed (Γ ++ [Some (TTopic i)]) (ρ ++ [VTopic t])))
    by (eapply fs_pre; [|apply fs_err_topic]; by intros h []).
  destruct (to_str cs) as [u|]; [|exact Herr]. eapply fs_at; [apply ends_register|].
  intros [t|e] Ht; [|exact Herr]. eapply fs_pre; [|apply fs_topic; by eapply lookup_lt_Some].
  intros h [Hh Hobj]. split; [done|]. intros p' b s' q (H1 & H2 & H3). rewrite Ha in H2. injection H2 as <-.
  rewrite Hobj in H3. assert (E : boxed KPublisher (s, p) = boxed KPublisher (s', q)) by congruence.
  apply boxed_inj in E as [= <- <-]. intros _. unfold in_table. cbn. destruct (Ht t eq_refl). lia.
Qed.

Lemma fs_heartbeat :
  fspec typed (do* p := var ρ i in ignore ρ (crossbar_publisher_heartbeat p)) (fun ρ' => heap_typed Γ ρ').
Proof.
  eapply fs_handle; [exact Hi| |]; unfold crossbar_publisher_heartbeat; cbn [is_null].
  2:{ intros _. by apply fs_ignore, fs_ret. }
  intros a Ha. apply fs_ignore. eapply fs_bind; [by eapply fs_deref|]. intros [s p].
  eapply fs_at; [apply ends_heartbeat|]. intros [p1 r] [H1 H2].
  eapply fs_bind; [eapply (fs_update _ _ _ _ _ _ Hi Ha); by split|]. intros []. apply fs_ret. by intros h [].
Qed.

Context (tv : nat) (topic : CrossbarTopic).
Hypothesis (Htv : Γ !! tv = Some (Some (TTopic i))) (Htopic : ρ !! tv = Some (VTopic topic)).

Lemma fs_topic_known {A} a s p (m : ffi A) Q :
  ρ !! i = Some (VPtr (Some a)) -> (topic_fits p topic -> fspec (at_obj Γ ρ KPublisher a (s, p)) m Q) ->
  fspec (at_obj Γ ρ KPublisher a (s, p)) m Q.
Proof.
  intros Ha. apply fs_pure. intros h [[Hv Hm] Hobj]. by eapply (mt_topic _ _ _ Hm tv i).
Qed.

Lemma fs_publish data len :
  readable data len = true ->
  fspec typed (do* p := var ρ i in ignore ρ (crossbar_publish fuel p topic data len)) (fun ρ' => heap_typed Γ ρ').
Proof.
  intros Hrd. eapply fs_handle; [exact Hi| |]; unfold crossbar_publish; cbn [is_null].
  2:{ intros _. by apply fs_ignore, fs_ret. }
  intros a Ha. apply fs_ignore. eapply fs_bind; [by eapply fs_deref|]. intros [s p].
  apply fs_topic_known; [done|]. intros Hfits. eapply fs_at; [apply ends_loan|]. intros [p1 res] [[H1 H2] Hid].
  eapply fs_bind; [eapply (fs_update _ _ _ _ _ _ Hi Ha); by split|]. intros [].
  set (P := at_obj Γ ρ KPublisher a (s, p1)). assert (HP : forall h, P h -> typed h) by (by intros h []).
  destruct res as [l|e]; [|apply fs_ret; auto]. specialize (Hid l eq_refl). cbn in Hid.
  assert (Hsend : forall payload, fspec P
    (do* (l1, res1) := at_side s (set_data l payload) in
     match res1 with
     | Err _ => do* _ := at_side s (loan_drop fuel l1) in fret (-1)
     | Ok _ => do* _ := at_side s (loan_publish fuel l1) in fret 0
     end) (fun _ => typed)).
  { intros payload. eapply fs_at; [apply returns_any|].
    intros [l1 [u|e]] _; (eapply fs_at; [apply returns_any|]; intros [] _; apply fs_ret; auto). }
  rewrite (Hfits Hid). cbn [negb].
  destruct (len =? 0); [apply Hsend|]. destruct data as [bs|].
  - eapply fs_bind; [by apply fs_from_raw_parts|]. intros payload. apply Hsend.
  - eapply fs_at; [apply returns_any|]. intros [] _. apply fs_ret. auto.
Qed.

Lemma fs_count :
  fspec typed (do* p := var ρ i in ignore ρ (crossbar_topic_subscriber_count p topic)) (fun ρ' => heap_typed Γ ρ').
Proof.
  eapply fs_handle; [exact Hi| |]; unfold crossbar_topic_subscriber_count; cbn [is_null].
  2:{ intros _. by apply fs_ignore, fs_ret. }
  intros a Ha. apply fs_ignore. eapply fs_bind; [by eapply fs_deref|]. intros [s p].
  apply fs_topic_known; [done|]. intros Hfits.
  destruct (Z.eqb_spec (ct_publisher_id topic) (pb_id p)) as [He|]; [rewrite (Hfits He)|]; cbn [negb andb];
    (eapply fs_at; [apply returns_any|]; intros r _; apply fs_ret; by intros h []).
Qed.

End Publisher.

Section Stream.
Hypothesis (Hi : Γ !! i = Some (Some (THandle KStream parent))).

(** A receive through the stream, and what is done with the sample. *)
Lemma fs_receive {A X} a (p : Stream -> prog cell (Stream * X)) (f : side -> mapping -> Stream -> X -> ffi A) Q :
  ρ !! i = Some (VPtr (Some a)) ->
  (forall s m st st1 x, fspec (at_obj Γ ρ KStream a (s, m, st1)) (f s m st x) Q) ->
  fspec typed (do* (s, m, st) := deref KStream (Some a) in
               do* (st1, o) := access m s (p st) in
               do* _ := update KStream (Some a) (s, m, st1) in f s m st o) Q.
Proof.
  intros Ha Hf. eapply fs_bind; [by eapply fs_deref|]. intros [[s m] st].
  eapply fs_bind; [by eapply (fs_obj_access _ _ _ _ _ _ Hi Ha)|]. intros [st1 o].
  eapply fs_bind; [eapply (fs_update _ _ _ _ _ _ Hi Ha (s, m, st) (s, m, st1)); by split|]. intros []. apply Hf.
Qed.

Lemma fs_guard s m st1 r x a :
  ρ !! i = Some (VPtr (Some a)) ->
  fspec (at_obj Γ ρ KStream a (s, m, st1)) (guard_to_sample s m r x)
    (fun q => heap_typed (Γ ++ [Some (THandle KSample (Some i))]) (ρ ++ [VPtr q])).
Proof. intros Ha. apply (fs_child _ _ _ _ _ _ Hi Ha); [right; auto|done|done]. Qed.

Lemma fs_no_sample s m st1 a :
  ρ !! i = Some (VPtr (Some a)) ->
  fspec (at_obj Γ ρ KStream a (s, m, st1)) (fret None)
    (fun q => heap_typed (Γ ++ [Some (THandle KSample (Some i))]) (ρ ++ [VPtr q])).
Proof. intros Ha. apply (fs_child_null _ _ _ _ _ _ Hi); [right; auto|done]. Qed.

End Stream.

Section ChannelCalls.
Hypothesis (Hi : Γ !! i = Some (Some (THandle KChannel parent))).

(** The same through a channel. *)
Lemma fs_channel_receive {A X} a (p : Channel -> prog chan_cell (Channel * X))
    (f : mapping -> Channel -> X -> ffi A) Q :
  ρ !! i = Some (VPtr (Some a)) ->
  (forall m c c1 x, fspec (at_obj Γ ρ KChannel a (m, c1)) (f m c x) Q) ->
  fspec typed (do* (m, c) := deref KChannel (Some a) in
               do* (c1, o) := lift (p c) in
               do* _ := update KChannel (Some a) (m, c1) in f m c o) Q.
Proof.
  intros Ha Hf. eapply fs_bind; [by eapply fs_deref|]. intros [m c].
  eapply fs_lift; [apply returns_any|]. intros [c1 o] _.
  eapply fs_bind; [eapply (fs_update _ _ _ _ _ _ Hi Ha (m, c) (m, c1)); by split|]. intros []. apply Hf.
Qed.

Lemma fs_channel_sample a m c1 (s : side) (x : Sample) :
  ρ !! i = Some (VPtr (Some a)) ->
  fspec (at_obj Γ ρ KChannel a (m, c1)) (into_raw KSample (s, m, x))
    (fun q => heap_typed (Γ ++ [Some (THandle KSample (Some i))]) (ρ ++ [VPtr q])).
Proof. intros Ha. apply (fs_child _ _ _ _ _ _ Hi Ha); [right; auto|done|done]. Qed.

Lemma fs_channel_none a m c1 :
  fspec (at_obj Γ ρ KChannel a (m, c1)) (fret None)
    (fun q => heap_typed (Γ ++ [Some (THandle KSample (Some i))]) (ρ ++ [VPtr q])).
Proof. apply (fs_child_null _ _ _ _ _ _ Hi); [right; auto|done]. Qed.

End ChannelCalls.

(** Subscribing, and receiving into the caller's storage. *)
Lemma fs_subscribe uri :
  Γ !! i = Some (Some (THandle KSubscriber parent)) ->
  fspec typed (do* p := var ρ i in keep ρ (crossbar_subscriber_subscribe p uri))
    (fun ρ' => heap_typed (Γ ++ [Some (THandle KStream (Some i))]) ρ').
Proof.
  intros Hi. assert (Hmf : made_from KStream KSubscriber) by (left; done).
  eapply fs_making; [exact Hi|done|done|by destruct uri|]. intros a Ha. unfold crossbar_subscriber_subscribe.
  destruct uri as [cs|]; [|apply fs_null; [done|]; intros j [= <-]; eauto]. cbn [is_null].
  eapply fs_bind; [by eapply fs_deref|]. intros [[sd m] r]. destruct (to_str cs); [|by eapply fs_child_null].
  eapply fs_bind; [by eapply fs_obj_access|]. intros [st|e]; [by eapply fs_child|by eapply fs_child_null].
Qed.

Lemma fs_try_recv_into out :
  Γ !! i = Some (Some (THandle KStream parent)) -> Γ !! out = Some (Some TStorage) ->
  fspec typed (do* p := var ρ i in do* q := var ρ out in ignore ρ (crossbar_try_recv_into fuel p q))
    (fun ρ' => heap_typed Γ ρ').
Proof.
  intros Hi Ho. eapply fs_arg; [exact Hi|done|]. intros q Hq. eapply fs_arg; [exact Ho|done|]. intros q' Hq'.
  apply fs_ignore. unfold crossbar_try_recv_into. destruct q, q'; cbn [is_null orb]; try (by apply fs_ret).
  eapply fs_receive; [exact Hi|done|]. intros sd m st st1 [g|]; [|apply fs_ret; by intros h []].
  eapply fs_bind; [eapply fs_pre; [|by eapply fs_write_out]; by intros h []|]. intros []. by apply fs_ret.
Qed.

Lemma fs_channel_send data len :
  Γ !! i = Some (Some (THandle KChannel parent)) -> readable data len = true ->
  fspec typed (do* p := var ρ i in ignore ρ (crossbar_channel_send fuel p data len)) (fun ρ' => heap_typed Γ ρ').
Proof.
  intros Hi Hrd. eapply fs_handle; [exact Hi| |]; unfold crossbar_channel_send; cbn [is_null];
    [|intros _; by apply fs_ignore, fs_ret].
  intros a Ha. apply fs_ignore. eapply fs_bind; [by eapply fs_deref|]. intros [m c].
  assert (Hsend : forall payload, fspec (at_obj Γ ρ KChannel a (m, c))
    (do* (c1, r) := lift (ch_send fuel c payload) in
     do* _ := update KChannel (Some a) (m, c1) in
     fret (match r with Ok _ => 0 | Err _ => -1 end)) (fun _ => typed)).
  { intros payload. eapply fs_lift; [apply returns_any|]. intros [c1 r] _.
    eapply fs_bind; [eapply fs_update; [eassumption|eassumption|by split]|]. intros []. apply fs_ret. by intros h []. }
  destruct (len =? 0); [apply Hsend|]. destruct data as [bs|]; [|apply fs_ret; by intros h []].
  eapply fs_bind; [by apply fs_from_raw_parts|]. intros payload. apply Hsend.
Qed.

Lemma fs_sample_data :
  Γ !! i = Some (Some (THandle KSample parent)) ->
  fspec typed (do* p := var ρ i in ignore ρ (crossbar_sample_data p)) (fun ρ' => heap_typed Γ ρ').
Proof.
  intros Hi. eapply fs_handle; [exact Hi| |]; unfold crossbar_sample_data; cbn [is_null];
    [|intros _; by apply fs_ignore, fs_ret].
  intros a Ha. apply fs_ignore. eapply fs_bind; [by eapply fs_deref|]. intros [[sd m] g].
  destruct (block_ptr_checked _ _); [|apply fs_ret; by intros h []].
  eapply fs_bind; [by eapply fs_obj_access|]. intros []. apply fs_ret. by intros h [].
Qed.

(** The functions that free, and those that make an owner. *)
Definition free_fn (k : kind) : ptr -> ffi unit :=
  match k with
  | KPublisher => crossbar_publisher_free fuel
  | KSubscriber => crossbar_subscriber_free
  | KStream => crossbar_subscription_free
  | KSample => crossbar_sample_free fuel
  | KChannel => crossbar_channel_free fuel
  end.

Lemma fs_free_fn k :
  Γ !! i = Some (Some (THandle k parent)) -> childless Γ i = true ->
  fspec typed (do* p := var ρ i in ignore ρ (free_fn k p)) (fun ρ' => heap_typed (<[i := None]> Γ) ρ').
Proof.
  intros Hi Hcl. eapply fs_freeing; [exact Hi|done|by destruct k|]. intros a Ha.
  destruct k; cbn [free_fn]; unfold crossbar_publisher_free, crossbar_subscriber_free, crossbar_subscription_free,
    crossbar_sample_free, crossbar_channel_free; cbn [is_null]; (eapply fs_bind; [by eapply fs_from_raw_box|]).
  - intros [s p]. apply fs_done. by intros _ h [].
  - intros [[s m] r]. by apply fs_freed_unmap.
  - intros [[s m] st]. by apply fs_freed_access.
  - intros [[s m] x]. by apply fs_freed_access.
  - intros [m c]. eapply fs_lift; [apply returns_any|]. intros [] _. by apply fs_freed_unmap.
Qed.

Lemma fs_no_owner k :
  is_owner k = true ->
  fspec typed (fret None) (fun q => heap_typed (Γ ++ [Some (THandle k None)]) (ρ ++ [VPtr q])).
Proof. intros Hk. by apply fs_null. Qed.

Lemma fs_publisher_create s handle base pid id name config :
  id <> 0 ->
  fspec typed (crossbar_publisher_create s handle base pid id name config)
    (fun q => heap_typed (Γ ++ [Some (THandle KPublisher None)]) (ρ ++ [VPtr q])).
Proof.
  intros Hid. unfold crossbar_publisher_create. destruct name as [cs|]; [|by apply fs_no_owner].
  destruct (to_str cs); [|by apply fs_no_owner].
  eapply fs_at; [apply ends_create|]. intros [p|e] Hp; [|by apply fs_no_owner].
  eapply fs_pre; [|apply (fs_new Γ ρ KPublisher None)]. intros h Hh. split; [done|].
  split; [done|]. split; [cbn; by rewrite (Hp p eq_refl)|]. by intros m [=].
Qed.

Lemma fs_connect s attach name :
  fspec typed (crossbar_subscriber_connect s attach name)
    (fun q => heap_typed (Γ ++ [Some (THandle KSubscriber None)]) (ρ ++ [VPtr q])).
Proof.
  unfold crossbar_subscriber_connect. destruct name as [cs|]; [|by apply fs_no_owner].
  destruct (to_str cs); [|by apply fs_no_owner].
  eapply fs_at; [apply returns_any|]. intros [r|e] _; [by apply fs_owner|by apply fs_no_owner].
Qed.

Lemma fs_channel_open s attach handle base pid id name config timeout_ms :
  fspec typed (crossbar_channel_open attach fuel s handle base pid id name config timeout_ms)
    (fun q => heap_typed (Γ ++ [Some (THandle KChannel None)]) (ρ ++ [VPtr q])).
Proof.
  unfold crossbar_channel_open. destruct name as [cs|]; [|by apply fs_no_owner].
  destruct (to_str cs); [|by apply fs_no_owner].
  eapply fs_lift; [apply returns_any|]. intros [c|e] _; [by apply fs_owner|by apply fs_no_owner].
Qed.

End Calls.

Lemma type_call_sound fuel Γ Γ' ρ c :
  type_call Γ c = Some Γ' ->
  fspec (heap_typed Γ ρ) (exec_call fuel ρ c) (fun ρ' => heap_typed Γ' ρ').
Proof.
  intros Ht. destruct c; cbn [type_call exec_call] in *; type_inv.
  - apply fs_keep, fs_declare.
  - by apply fs_keep, fs_publisher_create.
  - by eapply (fs_free_fn fuel _ _ _ _ KPublisher).
  - by eapply fs_register.
  - by eapply fs_heartbeat.
  - eapply fs_topic_then; [eassumption|eassumption|]. intros t Ht. by eapply fs_publish.
  - eapply fs_topic_then; [eassumption|eassumption|]. intros t Ht. by eapply fs_count.
  - apply fs_keep, fs_connect.
  - by eapply (fs_free_fn fuel _ _ _ _ KSubscriber).
  - by eapply fs_subscribe.
  - by eapply (fs_free_fn fuel _ _ _ _ KStream).
  - eapply fs_making; [eassumption|right; auto|done|done|]. intros a Ha. eapply fs_receive; [eassumption|done|].
    intros sd m st st1 [g|]; [by eapply fs_guard|by eapply fs_no_sample].
  - by eapply fs_try_recv_into.
  - eapply fs_making; [eassumption|right; auto|done|done|]. intros a Ha. eapply fs_receive; [eassumption|done|].
    intros sd m st st1 [g|e]; [by eapply fs_guard|by eapply fs_no_sample].
  - by eapply fs_sample_data.
  - eapply fs_handle; [eassumption| |]; unfold crossbar_sample_len; cbn [is_null]; [|intros _; by apply fs_ignore, fs_ret].
    intros a Ha. apply fs_ignore. eapply fs_bind; [by eapply fs_deref|]. intros g. apply fs_ret. by intros h [].
  - by eapply (fs_free_fn fuel _ _ _ _ KSample).
  - apply fs_keep, fs_channel_open.
  - by eapply (fs_free_fn fuel _ _ _ _ KChannel).
  - by eapply fs_channel_send.
  - eapply fs_making; [eassumption|right; auto|done|done|]. intros a Ha. eapply fs_channel_receive; [eassumption|done|].
    intros m c c1 [g|]; [by eapply fs_channel_sample|by eapply fs_channel_none].
  - eapply fs_making; [eassumption|right; auto|done|done|]. intros a Ha. eapply fs_channel_receive; [eassumption|done|].
    intros m c c1 [g|e]; [by eapply fs_channel_sample|by eapply fs_channel_none].
Qed.

Lemma type_prog_sound fuel cs Γ Γ' ρ :
  type_prog Γ cs = Some Γ' ->
  fspec (heap_typed Γ ρ) (exec fuel cs ρ) (fun ρ' => heap_typed Γ' ρ').
Proof.
  revert Γ ρ. induction cs as [|c cs IH]; intros Γ ρ Ht; cbn [type_prog exec] in *.
  - injection Ht as ->. by apply fs_ret.
  - destruct (type_call Γ c) as [Γ1|] eqn:Hc; [|done].
    eapply fs_bind; [by apply type_call_sound|]. intros ρ'. by apply IH.
Qed.


(** A sample that [crossbar_try_recv_into] wrote to the caller's storage cannot be given
    to [crossbar_sample_free], which frees a box. *)
Lemma storage_free_undefined fuel a v (h : heap) :
  hp_allocs h !! a = Some (mkAllocation false v) -> crossbar_sample_free fuel (Some a) h = Ret None.
Proof. intros Ha. unfold crossbar_sample_free, fbind, from_raw_box. cbn [is_null]. by rewrite Ha. Qed.

(** A stream or a sample whose subscriber or channel was freed cannot be used any more, and
    cannot even be freed. *)
Lemma unmapped_undefined fuel pf a s m st b x (h : heap) :
  is_mapped m h = false -> hp_allocs h !! a = Some (boxed KStream (s, m, st)) ->
  hp_allocs h !! b = Some (boxed KSample (s, m, x)) ->
  crossbar_try_recv fuel (Some a) h = Ret None /\ crossbar_recv fuel pf (Some a) h = Ret None /\
  crossbar_subscription_free (Some a) h = Ret None /\ crossbar_sample_free fuel (Some b) h = Ret None.
Proof.
  intros Hm Ha Hb.
  unfold crossbar_try_recv, crossbar_recv, crossbar_subscription_free, crossbar_sample_free, crossbar_sample_drop,
    fbind, deref, heap_obj, from_raw_box, access, is_mapped in *. cbn [is_null].
  rewrite Ha, Hb. cbn. rewrite !obj_as_same. cbn. by rewrite Hm.
Qed.

(** An index outside the topic table, with the right publisher id, is not detected. *)
Lemma forged_topic_undefined a s p t (h : heap) :
  hp_allocs h !! a = Some (boxed KPublisher (s, p)) -> ct_publisher_id t = pb_id p -> in_table p t = false ->
  crossbar_topic_subscriber_count (Some a) t h = Ret None.
Proof.
  intros Ha Hid Ht. unfold crossbar_topic_subscriber_count, fbind, deref, heap_obj. cbn [is_null].
  rewrite Ha. cbn. rewrite obj_as_same. cbn. by rewrite Hid, Z.eqb_refl, Ht.
Qed.

(** The default configuration is the same on both sides of the interface. *)
Lemma config_default_roundtrip :
  config_from crossbar_config_default = config_default /\
  config_from_ptr (Some crossbar_config_default) = config_from_ptr None.
Proof. done. Qed.

Module CDemo.

Definition small : CrossbarConfig := mkCrossbarConfig 1 4 16 4 100 5000.
Definition uri : cstr := Some [47; 97].

(** Create, register, connect, subscribe, publish three times (once from a null
    buffer), receive into a box and into storage, free everything. *)
Definition setup : list ccall :=
  [PublisherCreate Srv 0 4096 77 42 (Some [112; 98]) (Some small); PublisherRegister 0 uri;
   SubscriberConnect Srv (fun _ => Some (1, 8192, 704)) (Some [112; 98]); SubscriberSubscribe 2 uri;
   PublishBytes 0 1 (Some [7; 8]) 2; PublishBytes 0 1 None 3; PublishBytes 0 1 (Some [9]) 1].
Definition calls : list ccall :=
  setup ++ [TryRecv 3; SampleData 4; SampleLen 4; SampleFree 4; DeclareSample; TryRecvInto 3 5;
   SubscriberCount 0 1; PublisherHeartbeat 0; SubscriptionFree 3; SubscriberFree 2; PublisherFree 0].

Definition world0 : world chan_cell (cellmem chan_cell) := mkWorld (fun _ => 0) (Some 1000000000) 5 [].

(** What a program leaves: its variables and the addresses still allocated; [None] for
    undefined behaviour. *)
Definition leaves (cs : list ccall) : option (vars * list nat) :=
  match (run (exec 10 cs [] empty_heap) world0).1 with
  | Done (Some (ρ, h)) => Some (ρ, fst <$> map_to_list (hp_allocs h))
  | _ => None
  end.

(** The check refuses programs that go wrong: a receive through a freed subscriber, a sample
    freed after its subscription and subscriber. *)
Lemma bad_programs :
  (type_prog [] (setup ++ [SubscriberFree 2; TryRecv 3]) = None /\ leaves (setup ++ [SubscriberFree 2; TryRecv 3]) = None) /\
  (type_prog [] (setup ++ [TryRecv 3; SubscriptionFree 3; SubscriberFree 2; SampleFree 4]) = None /\
   leaves (setup ++ [TryRecv 3; SubscriptionFree 3; SubscriberFree 2; SampleFree 4]) = None) /\
  leaves setup <> None.
Proof. vm_compute. intuition congruence. Qed.


End CDemo.
