(* ===== verification/FfiProof.v ===== *)
(** * FfiProof: C clients behave as Rust clients

    A C program that publishes, receives, reads and frees through raw pointers makes
    exactly the accesses of the corresponding client of the Rust interface, reads the
    same bytes and never meets undefined behaviour; so the guarantees of [Guarantees]
    and [ChannelOpen] hold for it. *)

From S2P Require Import Prelude Errors Layout Atomics Rely ShmBytes Pool Ring Wait Subscription.
From S2P Require Import Loan Publisher Channel Ghost Ownership SubscriberProof PublisherProof.
From S2P Require Import Delivery Startup Guarantees ChannelProof ChannelOpen Registry Ffi FfiTypes.

(** ** Programs in a pair of regions *)

Lemma bind_equiv_ends {C A B} (p : prog C A) (f g : A -> prog C B) Q :
  ends p Q -> (forall a, Q a -> f a ≡ g a) -> bind p f ≡ bind p g.
Proof.
  intros Hp Hf. induction p; cbn [bind returns] in *; try constructor; auto.
Qed.

Lemma on_bind {A B} s (p : prog cell A) (f : A -> prog cell B) :
  on s (bind p f) ≡ bind (on s p) (fun x => on s (f x)).
Proof. induction p; cbn [bind on]; try constructor; auto. Qed.

#[export] Instance on_proper {A} s : Proper ((≡) ==> (≡)) (@on A s).
Proof. intros p q H. induction H; cbn [on]; by constructor. Qed.

(** ** What a receive returns *)

Definition within (r : Region) (x : Sample) : Prop :=
  sm_region x = r /\ sm_block_idx x < block_count (rg_config r) /\ sm_len x <= data_capacity r.

(** A stream of region [r], with a sample of it if there is one. *)
Definition received {X} (sample : X -> option Sample) (r : Region) (res : Stream * X) : Prop :=
  st_region res.1 = r /\ forall x, sample res.2 = Some x -> within r x.

Lemma ends_slot fuel st seq :
  ends (try_read_slot_raw fuel st seq) (fun o => forall st' x, o = Some (st', x) ->
    st_region st' = st_region st /\
    sr_block_idx x < block_count (rg_config (st_region st)) /\ sr_data_len x <= data_capacity (st_region st)).
Proof.
  unfold try_read_slot_raw. cbn zeta. cbn [bind load returns]. intros s1 _.
  destruct (negb _); [done|]. cbn [bind load returns]. intros b _ len _. destruct (b =? NO_BLOCK); [done|].
  destruct (Z.leb_spec (block_count (rg_config (st_region st))) b); [done|].
  destruct (Z.ltb_spec (data_capacity (st_region st)) len); [done|].
  destruct (block_refcount_checked _ _); [|done]. eapply returns_bind; [apply returns_any|].
  intros [] _; cbn [negb]; [|done]. cbn [bind load returns]. intros s2 _. destruct (negb _).
  - eapply returns_bind; [apply returns_any|]. done.
  - cbn. intros st' x [= <- <-]. done.
Qed.

Lemma ends_try_recv fuel st : ends (try_recv fuel st) (received id (st_region st)).
Proof.
  unfold try_recv, scan_slots. eapply returns_bind with
    (P := fun o => forall st' x, o = Some (st', x) -> st_region st' = st_region st /\
      sr_block_idx x < block_count (rg_config (st_region st)) /\ sr_data_len x <= data_capacity (st_region st)).
  - cbn [bind load returns]. intros cur _. destruct (_ <=? _); [done|]. apply returns_for_return; [|done].
    intros seq _. eapply returns_bind; [apply ends_slot|]. cbn. intros [[st' x]|] Ho b [= <-]. exact Ho.
  - intros [[st' x]|] Ho; cbn; split; try done; cbn.
    + by apply (Ho st' x).
    + intros y [= <-]. by destruct (Ho st' x).
Qed.

(** A sample of a result. *)
Definition ok_sample (r : result Sample Error) : option Sample :=
  match r with Ok x => Some x | Err _ => None end.

#[local] Instance any_stream_cells r :
  StreamCells (fun _ => True) (fun _ _ => True) (fun st => st_region st = r).
Proof. done. Qed.

Lemma ends_robust {A} (p : prog cell A) Q : ends p Q -> robust (fun _ => True) (fun _ _ => True) p Q.
Proof. intros Hp. split; [|done]. clear Hp. induction p; cbn [safe]; auto. Qed.

Lemma ends_recv_with fuel pf strategy r st :
  st_region st = r -> ends (recv_with fuel pf strategy st) (received ok_sample r).
Proof.
  intros Hst. eapply returns_weaken.
  - apply (rb_blocking_recv _ _ (fun st => st_region st = r) (try_recv fuel) (within r) pf); [|done].
    intros st1 <-. apply ends_robust. eapply returns_weaken; [apply ends_try_recv|]. by intros [st2 o].
  - intros [st1 res] [H1 H2]. split; [done|]. intros x Hx. apply H2. by destruct res; simplify_eq/=.
Qed.

(** ** C clients *)

(** Copying [n] bytes out of the region: defined inside the data of a block. *)
Definition c_read (p : option shm_ptr) (n : Z) : ffi bytes :=
  if n <=? 0 then fret []
  else
    match p with
    | Some p =>
        if (BLOCK_DATA_OFFSET <=? sp_off p) && (sp_off p + n <=? block_size (rg_config (sp_region p)))
        then access (sp_mapping p) (sp_side p) (load_block (sp_block p) (sp_off p - BLOCK_DATA_OFFSET) (Z.to_nat n))
        else ub
    | None => ub
    end.

Definition c_read_sample (sample : ptr) : ffi bytes :=
  do* data := crossbar_sample_data sample in
  do* len := crossbar_sample_len sample in
  c_read data len.

(** A buffer argument: a pointer, null or to some bytes, and a length. *)
Record buffer : Type := mkBuffer { bf_data : option bytes; bf_len : Z }.

Inductive c_pub_cmd : Type :=
| CPublish (topic : CrossbarTopic) (buf : buffer)
| CHeartbeat.

Inductive c_recv_cmd : Type :=
| CTryRecv
| CRecvBlocking (park_fuel : nat)
| CReadSample (k : nat)
| CFreeSample (k : nat).

Inductive c_chan_cmd : Type :=
| CSend (buf : buffer)
| CReceive (c : c_recv_cmd).

Fixpoint c_publisher (fuel : nat) (cmds : list c_pub_cmd) (pub_ : ptr) : ffi reads :=
  match cmds with
  | [] => fret []
  | CPublish topic buf :: cmds' =>
      do* _ := crossbar_publish fuel pub_ topic (bf_data buf) (bf_len buf) in
      c_publisher fuel cmds' pub_
  | CHeartbeat :: cmds' =>
      do* _ := crossbar_publisher_heartbeat pub_ in c_publisher fuel cmds' pub_
  end.

Definition keep_sample (handles : list ptr) (p : ptr) : list ptr :=
  if is_null p then handles else handles ++ [p].

(** The receiving commands, for the receive functions of a stream or of a channel.
    Result: the handles the program holds and what it has read. *)
Definition c_receive (try_recv_ : ffi ptr) (recv_ : nat -> ffi ptr) (fuel : nat) (c : c_recv_cmd)
    (handles : list ptr) (out : reads) : ffi (list ptr * reads) :=
  match c with
  | CTryRecv => do* p := try_recv_ in fret (keep_sample handles p, out)
  | CRecvBlocking park_fuel => do* p := recv_ park_fuel in fret (keep_sample handles p, out)
  | CReadSample k =>
      match handles !! k with
      | Some (Some a) => do* bs := c_read_sample (Some a) in fret (handles, out ++ [(k, bs)])
      | _ => fret (handles, out)
      end
  | CFreeSample k =>
      match handles !! k with
      | Some (Some a) => do* _ := crossbar_sample_free fuel (Some a) in fret (<[k := None]> handles, out)
      | _ => fret (handles, out)
      end
  end.

Fixpoint c_subscriber (fuel : nat) (cmds : list c_recv_cmd) (stream : ptr) (handles : list ptr) (out : reads)
    : ffi reads :=
  match cmds with
  | [] => fret out
  | c :: cmds' =>
      do* (handles', out') :=
        c_receive (crossbar_try_recv fuel stream) (fun pf => crossbar_recv fuel pf stream) fuel c handles out in
      c_subscriber fuel cmds' stream handles' out'
  end.

Fixpoint c_endpoint (fuel : nat) (cmds : list c_chan_cmd) (ch : ptr) (handles : list ptr) (out : reads)
    : ffi reads :=
  match cmds with
  | [] => fret out
  | CSend buf :: cmds' =>
      do* _ := crossbar_channel_send fuel ch (bf_data buf) (bf_len buf) in
      c_endpoint fuel cmds' ch handles out
  | CReceive c :: cmds' =>
      do* (handles', out') :=
        c_receive (crossbar_channel_try_recv fuel ch) (fun pf => crossbar_channel_recv fuel pf ch)
          fuel c handles out in
      c_endpoint fuel cmds' ch handles' out'
  end.

(** ** The Rust clients they correspond to *)

Definition buffer_ok (buf : buffer) : Prop := readable (bf_data buf) (bf_len buf) = true.

(** The bytes of a buffer; [None] for a null pointer with a length. *)
Definition payload (buf : buffer) : option bytes :=
  if bf_len buf =? 0 then Some []
  else match bf_data buf with Some bs => Some (take (Z.to_nat (bf_len buf)) bs) | None => None end.

(** A null buffer costs a publisher a loan that it drops, and a channel nothing. *)
Definition rust_pub (c : c_pub_cmd) : pub_cmd :=
  match c with
  | CPublish topic buf =>
      match payload buf with
      | Some data => PPublish (topic_of topic) data
      | None => PLoanDrop (topic_of topic)
      end
  | CHeartbeat => PHeartbeat
  end.

Definition rust_recv (c : c_recv_cmd) : sub_cmd :=
  match c with
  | CTryRecv => CRecv
  | CRecvBlocking pf => CRecvWait wait_strategy_default pf
  | CReadSample k => CRead k
  | CFreeSample k => CDrop k
  end.

Definition rust_chan (c : c_chan_cmd) : option chan_cmd :=
  match c with
  | CSend buf => ChSend <$> payload buf
  | CReceive CTryRecv => Some ChTryRecv
  | CReceive (CRecvBlocking pf) => Some (ChRecv wait_strategy_default pf)
  | CReceive (CReadSample k) => Some (ChRead k)
  | CReceive (CFreeSample k) => Some (ChDrop k)
  end.

Definition buffers_ok (cmds : list c_chan_cmd) : Prop :=
  Forall (fun c => match c with CSend buf => buffer_ok buf | _ => True end) cmds.

(** What a C program does, with [None] for undefined behaviour. *)
Definition outcome_of {A} (m : ffi A) (h : heap) : prog chan_cell (option A) :=
  let* o := m h in Ret (fst <$> o).
Definition defined {C A} (p : prog C A) : prog C (option A) := let* a := p in Ret (Some a).

(** ** Stepping both sides *)

Lemma defined_bind {C A B} (p : prog C A) (f : A -> prog C B) :
  defined (bind p f) ≡ bind p (fun x => defined (f x)).
Proof. apply bind_assoc. Qed.

Lemma defined_on {A B} s (p : prog cell A) (f : A -> prog cell B) :
  defined (on s (bind p f)) ≡ bind (on s p) (fun x => defined (on s (f x))).
Proof. rewrite <- defined_bind. unfold defined. by rewrite on_bind. Qed.

Lemma defined_on_assoc {A B D} s (p : prog cell A) (f : A -> prog cell B) (g : B -> prog cell D) :
  defined (on s (bind (bind p f) g)) ≡ bind (on s p) (fun x => defined (on s (bind (f x) g))).
Proof. rewrite <- defined_on. unfold defined. by rewrite bind_assoc. Qed.

Lemma outcome_step {A B} (m : ffi A) (f : A -> ffi B) h a h' :
  m h = Ret (Some (a, h')) -> outcome_of (fbind m f) h = outcome_of (f a) h'.
Proof. intros Hm. unfold outcome_of, fbind. by rewrite Hm. Qed.

Lemma outcome_assoc {A B D} (m : ffi A) (f : A -> ffi B) (g : B -> ffi D) h :
  outcome_of (fbind (fbind m f) g) h ≡ outcome_of (fbind m (fun x => fbind (f x) g)) h.
Proof.
  unfold outcome_of, fbind. f_equiv. rewrite bind_assoc. f_equiv. by intros [[a h']|].
Qed.

Lemma outcome_ret {A B} (a : A) (f : A -> ffi B) h : outcome_of (fbind (fret a) f) h = outcome_of (f a) h.
Proof. done. Qed.

(** Both sides make the accesses of [p]; the rest may use what [p] can return. *)
Lemma outcome_lift {A B} (p : prog chan_cell A) (f : A -> ffi B) h g Q :
  ends p Q -> (forall x, Q x -> outcome_of (f x) h ≡ g x) ->
  outcome_of (fbind (lift p) f) h ≡ bind p g.
Proof.
  intros Hp Hf. unfold outcome_of, fbind, lift. rewrite !bind_assoc. eapply bind_equiv_ends; [done|].
  intros x Hx. cbn [bind]. by apply Hf.
Qed.

Lemma outcome_at {A B} s (p : prog cell A) (f : A -> ffi B) h g Q :
  ends p Q -> (forall x, Q x -> outcome_of (f x) h ≡ g x) ->
  outcome_of (fbind (at_side s p) f) h ≡ bind (on s p) g.
Proof. intros Hp. apply outcome_lift. by apply ends_on. Qed.

(** The same through a mapping that is there. *)
Lemma outcome_access {A B} m s (p : prog cell A) (f : A -> ffi B) h g Q :
  is_mapped m h = true -> ends p Q -> (forall x, Q x -> outcome_of (f x) h ≡ g x) ->
  outcome_of (fbind (access m s p) f) h ≡ bind (on s p) g.
Proof. intros Hm Hp Hf. rewrite <- (outcome_at s p f h g Q Hp Hf). unfold outcome_of, fbind, access. by rewrite Hm. Qed.

(** ** Objects on the heap *)

(** A sample's address is not that of an object of another kind. *)
Lemma boxed_other (h : heap) a b k x y :
  hp_allocs h !! a = Some (boxed k x) -> k <> KSample -> hp_allocs h !! b = Some (boxed KSample y) -> b <> a.
Proof. intros Ha Hk Hb ->. rewrite Ha in Hb. by injection Hb. Qed.

Lemma deref_boxed k a x (h : heap) : hp_allocs h !! a = Some (boxed k x) -> deref k (Some a) h = Ret (Some (x, h)).
Proof. intros Ha. unfold deref, heap_obj. rewrite Ha. cbn. by rewrite obj_as_same. Qed.

Lemma update_boxed k a x y (h : heap) :
  hp_allocs h !! a = Some (boxed k x) -> update k (Some a) y h = Ret (Some (tt, set_alloc a (boxed k y) h)).
Proof. intros Ha. unfold update. by rewrite Ha. Qed.

Lemma from_raw_boxed k a x (h : heap) :
  hp_allocs h !! a = Some (boxed k x) -> from_raw_box k (Some a) h = Ret (Some (x, del_alloc a h)).
Proof. intros Ha. unfold from_raw_box. rewrite Ha. cbn. by rewrite obj_as_same. Qed.

Lemma access_ret {A} m s (x : A) h : is_mapped m h = true -> access m s (Ret x) h = Ret (Some (x, h)).
Proof. intros Hm. unfold access. by rewrite Hm. Qed.

Lemma from_raw_parts_ok bs len h :
  readable (Some bs) len = true -> from_raw_parts bs len h = Ret (Some (take (Z.to_nat len) bs, h)).
Proof. unfold readable, from_raw_parts. by intros ->. Qed.

(** ** Publishers *)

(** [rhs lemma] rewrites the right-hand side, [c_step lemma] runs a heap operation. *)
Ltac rhs lem := etrans; [|symmetry; apply lem].
Ltac c_step lem := rewrite ?outcome_assoc; erewrite outcome_step by (by eapply lem); cbv beta iota; rewrite ?outcome_assoc.

(** An operation on the region, and then the rest. *)
Ltac c_access lem := rewrite ?outcome_assoc; rhs lem; eapply outcome_at; [apply returns_any|].

(** Copying and publishing, or dropping the loan if the data does not fit. *)
Lemma c_publish_tail fuel s l data (k : ffi reads) p1 (q : Publisher -> prog cell reads) h :
  outcome_of k h ≡ defined (on s (q p1)) ->
  outcome_of (do* x := at_side s (set_data l data) in
              do* _ := (let '(l1, res1) := x in
                        match res1 with
                        | Err _ => do* _ := at_side s (loan_drop fuel l1) in fret (-1)
                        | Ok _ => do* _ := at_side s (loan_publish fuel l1) in fret 0
                        end) in k) h
  ≡ defined (on s (let* (p', _) := (let* (l1, res1) := set_data l data in
                                    match res1 with
                                    | Err e => loan_drop fuel l1 ;;; Ret (p1, Err e)
                                    | Ok _ => loan_publish fuel l1 ;;; Ret (p1, Ok tt)
                                    end) in q p')).
Proof.
  intros Hk. c_access @defined_on_assoc. intros [l1 [u|e]] _; c_access @defined_on_assoc; intros [] _; exact Hk.
Qed.

(** The documented conditions on a call: a readable buffer, and a topic of this publisher. *)
Definition c_pub_ok (p : Publisher) (c : c_pub_cmd) : Prop :=
  match c with CPublish topic buf => buffer_ok buf /\ topic_fits p topic | CHeartbeat => True end.

Lemma c_pub_ok_view p p' c : same_pub p p' -> c_pub_ok p c -> c_pub_ok p' c.
Proof. intros [H1 H2]. destruct c as [topic buf|]; [|done]. intros [Hb Hf]. split; [done|]. by eapply topic_fits_view. Qed.

Lemma c_publisher_equiv fuel cmds a s p h :
  hp_allocs h !! a = Some (boxed KPublisher (s, p)) -> Forall (c_pub_ok p) cmds ->
  outcome_of (c_publisher fuel cmds (Some a)) h
    ≡ defined (on s (publisher_client fuel (rust_pub <$> cmds) p)).
Proof.
  revert p h. induction cmds as [|c cmds IH]; intros p h Ha Hok; cbn [fmap list_fmap]; [done|].
  apply Forall_cons in Hok as [Hc Hok].
  assert (Hnext : forall p1, same_pub p p1 -> outcome_of (c_publisher fuel cmds (Some a)) (set_alloc a (boxed KPublisher (s, p1)) h)
    ≡ defined (on s (publisher_client fuel (rust_pub <$> cmds) p1))).
  { intros p1 Hp1. apply IH; [cbn; by rewrite lookup_insert_eq|]. eapply Forall_impl; [exact Hok|].
    intros c'. by apply c_pub_ok_view. }
  destruct c as [topic buf|]; cbn [c_publisher rust_pub].
  - destruct Hc as [Hc Hfits]. unfold crossbar_publish, payload. unfold buffer_ok in Hc. cbn [is_null]. c_step deref_boxed.
    destruct (bf_len buf =? 0); [|destruct (bf_data buf) as [bs|]]; cbn [publisher_client]; unfold publish;
      [rhs @defined_on_assoc|rhs @defined_on_assoc|rhs @defined_on]; rewrite ?outcome_assoc;
      (eapply outcome_at; [apply ends_loan|]); intros [p1 [l|e]] [Hp1 Hid]; c_step update_boxed;
      try (by apply Hnext); specialize (Hnext p1 Hp1); rewrite (Hfits (Hid l eq_refl)); cbn [negb]; rewrite ?outcome_assoc.
    + by apply (c_publish_tail fuel s l [] _ p1 (publisher_client fuel (rust_pub <$> cmds))).
    + c_step from_raw_parts_ok.
      by apply (c_publish_tail fuel s l _ _ p1 (publisher_client fuel (rust_pub <$> cmds))).
    + c_access @defined_on. intros [] _. exact Hnext.
  - unfold crossbar_publisher_heartbeat. cbn [is_null publisher_client]. c_step deref_boxed.
    rewrite ?outcome_assoc. rhs @defined_on. eapply outcome_at; [apply ends_heartbeat|].
    intros [p1 r] Hp1. c_step update_boxed. by apply Hnext.
Qed.

(** ** Sample handles *)

(** The handle of a sample the Rust client holds; [None] for one that was freed. *)
Definition sample_rep (h : heap) (s : side) (m : mapping) (r : Region) (p : ptr) (o : option Sample) : Prop :=
  match p, o with
  | Some a, Some x => hp_allocs h !! a = Some (boxed KSample (s, m, x)) /\ within r x
  | None, None => True
  | _, _ => False
  end.

Record held (h : heap) (s : side) (m : mapping) (r : Region) (handles : list ptr) (rcv : list (option Sample)) : Prop := {
  held_mapped : is_mapped m h = true;
  held_rep : Forall2 (sample_rep h s m r) handles rcv;
  held_distinct : forall i j a, handles !! i = Some (Some a) -> handles !! j = Some (Some a) -> i = j
}.

Lemma held_nil h s m r : is_mapped m h = true -> held h s m r [] [].
Proof. split; [done|constructor|]. intros; set_solver. Qed.

Section Held.
Context (s : side) (m : mapping) (r : Region).

Lemma held_lookup h handles rcv k a :
  held h s m r handles rcv -> handles !! k = Some (Some a) ->
  exists x, rcv !! k = Some (Some x) /\ hp_allocs h !! a = Some (boxed KSample (s, m, x)) /\ within r x.
Proof.
  intros [_ Hf _] Hk. destruct (Forall2_lookup_l _ _ _ _ _ Hf Hk) as ([x|] & Hx & Hr); [|done].
  exists x. by destruct Hr.
Qed.

Lemma held_gone h handles rcv k :
  held h s m r handles rcv -> (forall a, handles !! k <> Some (Some a)) -> forall x, rcv !! k <> Some (Some x).
Proof.
  intros [_ Hf _] Hk x Hx. destruct (Forall2_lookup_r _ _ _ _ _ Hf Hx) as ([a|] & Ha & Hr); [|done].
  by destruct (Hk a).
Qed.

(** The handles stay valid when nothing they point to changes. *)
Lemma held_heap h h' handles rcv :
  (forall k a x, handles !! k = Some (Some a) -> hp_allocs h !! a = Some (boxed KSample x) ->
     hp_allocs h' !! a = hp_allocs h !! a) -> hp_maps h' = hp_maps h ->
  held h s m r handles rcv -> held h' s m r handles rcv.
Proof.
  intros Hh Hmaps [Hm Hf Hd]. split; [unfold is_mapped; by rewrite Hmaps| |done]. apply Forall2_same_length_lookup_2.
  { by eapply Forall2_length. }
  intros k p o Hp Ho. pose proof (Forall2_lookup_lr _ _ _ _ _ _ Hf Hp Ho) as Hr.
  destruct p as [a|], o as [x|]; cbn in *; try done. destruct Hr as [Ha Hw].
  by rewrite (Hh k a (s, m, x)).
Qed.

Lemma held_update h handles rcv a k x y :
  hp_allocs h !! a = Some (boxed k x) -> k <> KSample ->
  held h s m r handles rcv -> held (set_alloc a (boxed k y) h) s m r handles rcv.
Proof.
  intros Ha Hk. apply held_heap; [|done]. intros i b z _ Hb. cbn. apply lookup_insert_ne.
  by eapply not_eq_sym, boxed_other.
Qed.

Lemma held_keep h handles rcv x :
  within r x -> held h s m r handles rcv ->
  held (set_alloc (new_addr h) (boxed KSample (s, m, x)) h) s m r (handles ++ [Some (new_addr h)]) (rcv ++ [Some x]).
Proof.
  intros Hx Hh. pose proof (new_addr_free h) as Hfr.
  assert (Hold : forall i, handles !! i <> Some (Some (new_addr h))).
  { intros i Hi. destruct (held_lookup _ _ _ _ _ Hh Hi) as (z & _ & Hz & _). congruence. }
  split; [apply Hh| |].
  - apply Forall2_app.
    + eapply (held_rep (set_alloc (new_addr h) (boxed KSample (s, m, x)) h)), (held_heap h); [|done|exact Hh].
      intros k a z _ Ha. cbn. apply lookup_insert_ne. congruence.
    + constructor; [|done]. cbn. by rewrite lookup_insert_eq.
  - intros i j a Hi Hj'. apply lookup_app_Some in Hi as [Hi|[Hli Hi]].
    + apply lookup_app_Some in Hj' as [Hj'|[Hlj Hj']]; [by eapply held_distinct|].
      apply list_lookup_singleton_Some in Hj' as [_ [= <-]]. by destruct (Hold i).
    + apply list_lookup_singleton_Some in Hi as [Hi0 [= <-]].
      apply lookup_app_Some in Hj' as [Hj'|[Hlj Hj']]; [by destruct (Hold j)|].
      apply list_lookup_singleton_Some in Hj' as [Hj0 _]. lia.
Qed.

Lemma held_free h handles rcv k a :
  handles !! k = Some (Some a) -> held h s m r handles rcv ->
  held (del_alloc a h) s m r (<[k := None]> handles) (<[k := None]> rcv).
Proof.
  intros Hk [Hm Hf Hd]. split; [done| |].
  - apply Forall2_same_length_lookup_2.
    { rewrite !length_insert. by eapply Forall2_length. }
    intros i p o Hp Ho. destruct (decide (i = k)) as [->|Hne].
    + apply list_lookup_insert_Some in Hp as [(_ & <- & _)|[? _]]; [|done].
      by apply list_lookup_insert_Some in Ho as [(_ & <- & _)|[? _]].
    + rewrite list_lookup_insert_ne in Hp by done. rewrite list_lookup_insert_ne in Ho by done. pose proof (Forall2_lookup_lr _ _ _ _ _ _ Hf Hp Ho) as Hr.
      destruct p as [b|], o as [x|]; cbn in *; try done. rewrite lookup_delete_ne; [done|].
      intros ->. apply Hne. by eapply Hd.
  - intros i j b Hi Hj. apply list_lookup_insert_Some in Hi as [(_ & [=] & _)|[_ Hi]].
    apply list_lookup_insert_Some in Hj as [(_ & [=] & _)|[_ Hj]]. by eapply Hd.
Qed.

(** Reading a sample reads its bytes in the block, and freeing it drops it. *)
Hypothesis (Hbs : BLOCK_DATA_OFFSET <= block_size (rg_config r) < 2 ^ 32).

Lemma c_read_ok {A} a x (f : bytes -> ffi A) h :
  is_mapped m h = true -> hp_allocs h !! a = Some (boxed KSample (s, m, x)) -> within r x ->
  outcome_of (do* bs := c_read_sample (Some a) in f bs) h
    ≡ bind (on s (sample_to_vec x)) (fun bs => outcome_of (f bs) h).
Proof.
  intros Hm Ha (Hreg & Hb & Hl). unfold c_read_sample, crossbar_sample_data, crossbar_sample_len, block_ptr_checked.
  cbn [is_null]. c_step deref_boxed. rewrite Hreg. cbn [snd].
  destruct (Z.leb_spec (block_count (rg_config r)) (sm_block_idx x)); [lia|].
  c_step (access_ret m s tt h Hm). rewrite ?outcome_assoc, outcome_ret.
  c_step deref_boxed. rewrite ?outcome_assoc, outcome_ret. unfold c_read, sample_to_vec. cbn [snd sp_off sp_region sp_side sp_block].
  destruct (Z.leb_spec (sm_len x) 0).
  - replace (Z.to_nat (sm_len x)) with 0%nat by lia. reflexivity.
  - unfold data_capacity in Hl. rewrite wrap64_small in Hl by (unfold BLOCK_DATA_OFFSET in *; lia). cbn [sp_off sp_region sp_side sp_block snd].
    rewrite Z.leb_refl, Z.sub_diag. cbn [andb]. destruct (Z.leb_spec (BLOCK_DATA_OFFSET + sm_len x) (block_size (rg_config r))); [|lia].
    by eapply outcome_access; [done|apply returns_any|].
Qed.

Lemma c_free_ok {A} fuel a x (f : ffi A) h :
  is_mapped m h = true -> hp_allocs h !! a = Some (boxed KSample (s, m, x)) ->
  outcome_of (do* _ := crossbar_sample_free fuel (Some a) in f) h
    ≡ bind (on s (sample_drop fuel x)) (fun _ => outcome_of f (del_alloc a h)).
Proof.
  intros Hm Ha. unfold crossbar_sample_free. cbn [is_null]. c_step from_raw_boxed.
  eapply outcome_access; [done|apply returns_any|]. done.
Qed.

End Held.

(** ** Receiving clients *)

(** The heap after a receive that changed the object behind [a], and the handle. *)
Definition heap_received {k} (h : heap) (a : nat) (y : rep k) (s : side) (m : mapping) (o : option Sample)
    : ptr * heap :=
  let h1 := set_alloc a (boxed k y) h in
  match o with
  | Some x => (Some (new_addr h1), set_alloc (new_addr h1) (boxed KSample (s, m, x)) h1)
  | None => (None, h1)
  end.

Definition keep_received (rcv : list (option Sample)) (o : option Sample) : list (option Sample) :=
  match o with Some x => rcv ++ [Some x] | None => rcv end.

Lemma sample_eta r x : sm_region x = r -> mkSample r (sm_block_idx x) (sm_len x) = x.
Proof. by intros <-; destruct x. Qed.

Lemma held_received {k} s m r h handles rcv a (x y : rep k) o :
  hp_allocs h !! a = Some (boxed k x) -> k <> KSample -> (forall z, o = Some z -> within r z) ->
  held h s m r handles rcv ->
  held (heap_received h a y s m o).2 s m r (keep_sample handles (heap_received h a y s m o).1) (keep_received rcv o)
  /\ hp_allocs (heap_received h a y s m o).2 !! a = Some (boxed k y).
Proof.
  intros Ha Hk Ho Hh. assert (Hh1 : held (set_alloc a (boxed k y) h) s m r handles rcv) by (by eapply held_update).
  assert (Ha1 : hp_allocs (set_alloc a (boxed k y) h) !! a = Some (boxed k y)) by (cbn; by rewrite lookup_insert_eq).
  destruct o as [z|]; cbn [heap_received fst snd]; [|done]. split.
  - apply held_keep; [by apply Ho|done].
  - cbn. rewrite lookup_insert_ne; [exact Ha1|]. intros E.
    pose proof (new_addr_free (set_alloc a (boxed k y) h)) as Hf. rewrite E in Hf. congruence.
Qed.

Lemma c_recv_ok {A} s m a (f : ptr -> ffi A) h st fuel g :
  is_mapped m h = true -> hp_allocs h !! a = Some (boxed KStream (s, m, st)) ->
  (forall st1 o, received id (st_region st) (st1, o) ->
     let '(p, h') := heap_received (k := KStream) h a (s, m, st1) s m o in outcome_of (f p) h' ≡ g (st1, o)) ->
  outcome_of (do* p := crossbar_try_recv fuel (Some a) in f p) h ≡ bind (on s (try_recv fuel st)) g.
Proof.
  intros Hm Ha Hg. unfold crossbar_try_recv. cbn [is_null]. c_step deref_boxed.
  eapply outcome_access; [done|apply ends_try_recv|]. intros [st1 o] Hr. c_step update_boxed.
  specialize (Hg st1 o Hr). destruct o as [x|]; cbn in *; [|done]. destruct Hr as [_ Hw].
  unfold guard_to_sample. rewrite sample_eta by (by apply Hw). exact Hg.
Qed.

Lemma c_recv_blocking_ok {A} s m a (f : ptr -> ffi A) h st fuel pf g :
  is_mapped m h = true -> hp_allocs h !! a = Some (boxed KStream (s, m, st)) ->
  (forall st1 res, received ok_sample (st_region st) (st1, res) ->
     let '(p, h') := heap_received (k := KStream) h a (s, m, st1) s m (ok_sample res) in
     outcome_of (f p) h' ≡ g (st1, res)) ->
  outcome_of (do* p := crossbar_recv fuel pf (Some a) in f p) h
    ≡ bind (on s (recv_with fuel pf wait_strategy_default st)) g.
Proof.
  intros Hm Ha Hg. unfold crossbar_recv, recv. cbn [is_null]. c_step deref_boxed.
  eapply outcome_access; [done|by apply ends_recv_with|]. intros [st1 res] Hr. c_step update_boxed.
  specialize (Hg st1 res Hr). destruct res as [x|e]; cbn in *; [|done]. destruct Hr as [_ Hw].
  unfold guard_to_sample. rewrite sample_eta by (by apply Hw). exact Hg.
Qed.

(** A handle that was freed, or never existed: neither client does anything. *)
Ltac c_gone Hh k IH :=
  pose proof (held_gone _ _ _ _ _ _ k Hh) as Hgone;
  match type of Hh with held _ _ _ _ _ ?rcv =>
    destruct (rcv !! k) as [[x|]|]; try (by apply IH); by destruct (Hgone ltac:(congruence) x)
  end.

Section Subscriber.
Context (fuel : nat) (a : nat) (s : side) (m : mapping) (r : Region).
Hypothesis (Hbs : BLOCK_DATA_OFFSET <= block_size (rg_config r) < 2 ^ 32).

Lemma c_subscriber_equiv cmds st h handles rcv out :
  hp_allocs h !! a = Some (boxed KStream (s, m, st)) -> st_region st = r -> held h s m r handles rcv ->
  outcome_of (c_subscriber fuel cmds (Some a) handles out) h
    ≡ defined (on s (subscriber fuel (rust_recv <$> cmds) st rcv out)).
Proof.
  revert st h handles rcv out. induction cmds as [|c cmds IH]; intros st h handles rcv out Ha Hst Hh; [done|].
  assert (Hnext : forall st1 o, st_region st1 = r -> (forall z, o = Some z -> within r z) ->
    let '(p, h') := heap_received (k := KStream) h a (s, m, st1) s m o in
    outcome_of (c_subscriber fuel cmds (Some a) (keep_sample handles p) out) h'
      ≡ defined (on s (subscriber fuel (rust_recv <$> cmds) st1 (keep_received rcv o) out))).
  { intros st1 o Hst1 Ho. destruct (held_received (k := KStream) s m r h handles rcv a (s, m, st) (s, m, st1) o Ha) as [Hh' Ha']; [done..|].
    destruct (heap_received _ _ _ _ _ _). by apply IH. }
  cbn [c_subscriber fmap list_fmap subscriber rust_recv]. destruct c as [|pf|k|k]; cbn [c_receive subscriber rust_recv].
  - rhs @defined_on. rewrite outcome_assoc. apply (c_recv_ok s m); [apply Hh|done|]. intros st1 o [Hs1 Ho].
    specialize (Hnext st1 o). rewrite Hst in *. destruct o; by apply Hnext.
  - rhs @defined_on. rewrite outcome_assoc. apply (c_recv_blocking_ok s m); [apply Hh|done|]. intros st1 res [Hs1 Ho].
    specialize (Hnext st1 (ok_sample res)). rewrite Hst in *. destruct res; by apply Hnext.
  - destruct (handles !! k) as [[b|]|] eqn:Hk.
    + destruct (held_lookup _ _ _ _ _ _ _ _ Hh Hk) as (x & -> & Hx & Hw). rhs @defined_on.
      rewrite outcome_assoc, (c_read_ok s m r Hbs) by (done || apply Hh). f_equiv. intros bs. rewrite outcome_ret. by apply IH.
    + by c_gone Hh k IH.
    + by c_gone Hh k IH.
  - destruct (handles !! k) as [[b|]|] eqn:Hk.
    + destruct (held_lookup _ _ _ _ _ _ _ _ Hh Hk) as (x & -> & Hx & Hw). rhs @defined_on.
      rewrite outcome_assoc, (c_free_ok s m) by (done || apply Hh). f_equiv. intros []. rewrite outcome_ret.
      apply IH; [|done|by apply held_free]. cbn. rewrite lookup_delete_ne; [done|]. by eapply boxed_other.
    + by c_gone Hh k IH.
    + by c_gone Hh k IH.
Qed.

End Subscriber.

Section Endpoint.
Context (fuel : nat) (a : nat) (sd : side) (m : mapping) (r : Region).
Hypothesis (Hbs : BLOCK_DATA_OFFSET <= block_size (rg_config r) < 2 ^ 32).

(** The channel's own side and the region it receives from do not change. *)
Definition chan_of (ch : Channel) : Prop := ch_side ch = sd /\ st_region (ch_rx ch) = r.

Lemma ends_ch_try_recv ch :
  chan_of ch -> ends (ch_try_recv fuel ch) (fun res => chan_of res.1 /\ forall z, res.2 = Some z -> within r z).
Proof.
  intros [Hs Hr]. eapply returns_bind; [apply ends_on, ends_try_recv|]. rewrite Hr. by intros [st o] [H1 H2].
Qed.

Lemma ends_ch_recv pf ch :
  chan_of ch ->
  ends (ch_recv fuel pf ch) (fun res => chan_of res.1 /\ forall z, ok_sample res.2 = Some z -> within r z).
Proof.
  intros [Hs Hr]. unfold ch_recv, recv.
  eapply returns_bind; [apply ends_on; exact (ends_recv_with fuel pf wait_strategy_default r _ Hr)|].
  by intros [st o] [H1 H2].
Qed.

Lemma ends_ch_send data ch : chan_of ch -> ends (ch_send fuel ch data) (fun res => chan_of res.1).
Proof.
  intros [Hs Hr]. eapply returns_bind; [apply returns_any|]. intros [p1 [l|e]] _; [|done].
  eapply returns_bind; [apply returns_any|]. intros [l1 [u|e]] _; (eapply returns_bind; [apply returns_any|]); done.
Qed.

Lemma c_endpoint_equiv cmds ch h handles rcv out :
  hp_allocs h !! a = Some (boxed KChannel (m, ch)) -> chan_of ch -> held h (peer sd) m r handles rcv -> buffers_ok cmds ->
  outcome_of (c_endpoint fuel cmds (Some a) handles out) h
    ≡ defined (endpoint fuel (omap rust_chan cmds) ch rcv out).
Proof.
  intros Ha Hch Hh Hok. revert ch h handles rcv out Ha Hch Hh.
  induction Hok as [|c cmds Hc _ IH]; intros ch h handles rcv out Ha Hch Hh; [done|].
  assert (Hside : ch_side ch = sd) by apply Hch. assert (Hreg : st_region (ch_rx ch) = r) by apply Hch.
  assert (Hnext : forall ch1 o, chan_of ch1 -> (forall z, o = Some z -> within r z) ->
    let '(p, h') := heap_received (k := KChannel) h a (m, ch1) (peer sd) m o in
    outcome_of (c_endpoint fuel cmds (Some a) (keep_sample handles p) out) h'
      ≡ defined (endpoint fuel (omap rust_chan cmds) ch1 (keep_received rcv o) out)).
  { intros ch1 o Hch1 Ho.
    destruct (held_received (k := KChannel) (peer sd) m r h handles rcv a (m, ch) (m, ch1) o Ha) as [Hh' Ha']; [done..|].
    destruct (heap_received _ _ _ _ _ _). by apply IH. }
  destruct c as [buf|c]; cbn [c_endpoint].
  - assert (Hsend : forall data, outcome_of (do* x := lift (ch_send fuel ch data) in
        do* _ := (let '(c1, r) := x in do* _ := update KChannel (Some a) (m, c1) in
                  fret (match r with Ok _ => 0 | Err _ => -1 end)) in
        c_endpoint fuel cmds (Some a) handles out) h
      ≡ defined (endpoint fuel (ChSend data :: omap rust_chan cmds) ch rcv out)).
    { intros data. cbn [endpoint]. rhs @defined_bind. eapply outcome_lift; [by apply ends_ch_send|].
      intros [ch1 res] Hch1. c_step update_boxed. by apply (Hnext ch1 None). }
    unfold crossbar_channel_send. unfold buffer_ok in Hc. cbn [is_null]. c_step deref_boxed.
    cbn [omap list_omap rust_chan]. unfold payload. destruct (bf_len buf =? 0); [|destruct (bf_data buf) as [bs|]]; cbn [fmap option_fmap option_map].
    + rewrite ?outcome_assoc. apply Hsend.
    + c_step from_raw_parts_ok. apply Hsend.
    + rewrite outcome_ret. by apply IH.
  - destruct c as [|pf|k|k]; cbn [c_receive omap list_omap rust_chan endpoint].
    + rhs @defined_bind. unfold crossbar_channel_try_recv. cbn [is_null]. c_step deref_boxed.
      eapply outcome_lift; [by apply ends_ch_try_recv|]. intros [ch1 o] [Hch1 Ho]. c_step update_boxed.
      specialize (Hnext ch1 o Hch1 Ho). rewrite Hside, Hreg.
      destruct o as [x|]; cbn in *; [|done]. rewrite sample_eta by (by apply Ho). exact Hnext.
    + rhs @defined_bind. unfold crossbar_channel_recv. cbn [is_null]. c_step deref_boxed.
      eapply (outcome_lift (ch_recv fuel pf ch)); [by apply ends_ch_recv|]. intros [ch1 res] [Hch1 Ho].
      c_step update_boxed. specialize (Hnext ch1 (ok_sample res) Hch1 Ho). rewrite Hside, Hreg.
      destruct res as [x|e]; cbn in *; [|done]. rewrite sample_eta by (by apply Ho). exact Hnext.
    + destruct (handles !! k) as [[b|]|] eqn:Hk; [|by c_gone Hh k IH..].
      destruct (held_lookup _ _ _ _ _ _ _ _ Hh Hk) as (x & -> & Hx & Hw). rewrite Hside. rhs @defined_bind.
      rewrite outcome_assoc, (c_read_ok (peer sd) m r Hbs) by (done || apply Hh). f_equiv. intros bs. rewrite outcome_ret. by apply IH.
    + destruct (handles !! k) as [[b|]|] eqn:Hk; [|by c_gone Hh k IH..].
      destruct (held_lookup _ _ _ _ _ _ _ _ Hh Hk) as (x & -> & Hx & Hw). rewrite Hside. rhs @defined_bind.
      rewrite outcome_assoc, (c_free_ok (peer sd) m) by (done || apply Hh). f_equiv. intros []. rewrite outcome_ret.
      apply IH; [|done|by apply held_free]. cbn. rewrite lookup_delete_ne; [done|]. by eapply boxed_other.
Qed.

End Endpoint.

(** C12. A C client is a Rust client: a C program that publishes (from any readable or null
    buffer, with topics of this publisher's table or refused by it) through a publisher
    handle, one that receives, reads and frees samples through a subscription handle whose
    subscriber is not freed, and one that sends and receives through a channel handle make
    the same accesses to the shared memory as the corresponding clients of the Rust
    interface, for every value read, return the same bytes, and have no undefined
    behaviour: no bad pointer, no access to a region that is not mapped or outside the
    topic table. *)
Theorem ffi_equivalence fuel a (h : heap) :
  (forall s p cmds,
     hp_allocs h !! a = Some (boxed KPublisher (s, p)) -> Forall (c_pub_ok p) cmds ->
     outcome_of (c_publisher fuel cmds (Some a)) h
       ≡ defined (on s (publisher_client fuel (rust_pub <$> cmds) p))) /\
  (forall s m st cmds,
     hp_allocs h !! a = Some (boxed KStream (s, m, st)) -> is_mapped m h = true ->
     BLOCK_DATA_OFFSET <= block_size (rg_config (st_region st)) < 2 ^ 32 ->
     outcome_of (c_subscriber fuel cmds (Some a) [] []) h
       ≡ defined (on s (subscriber fuel (rust_recv <$> cmds) st [] []))) /\
  (forall m ch cmds,
     hp_allocs h !! a = Some (boxed KChannel (m, ch)) -> is_mapped m h = true ->
     BLOCK_DATA_OFFSET <= block_size (rg_config (st_region (ch_rx ch))) < 2 ^ 32 -> buffers_ok cmds ->
     outcome_of (c_endpoint fuel cmds (Some a) [] []) h
       ≡ defined (endpoint fuel (omap rust_chan cmds) ch [] [])).
Proof.
  split; [|split].
  - intros s p cmds. apply c_publisher_equiv.
  - intros s m st cmds Ha Hm Hbs. by eapply c_subscriber_equiv; [..|apply held_nil].
  - intros m ch cmds Ha Hm Hbs Hok. by eapply c_endpoint_equiv; [| |split|apply held_nil|].
Qed.

(** A publisher, a subscription and a channel handle in one heap. *)
Module CClientDemo.

Definition topic : CrossbarTopic := mkCrossbarTopic 0 42.
Definition stream : Stream := mkStream (region_of 1 8192 config_small) 0 0 0.
Definition objects : heap := mkHeap
  {[ 1%nat := boxed KPublisher (Srv, Demo.publisher); 2%nat := boxed KStream (Cli, 0%nat, stream);
     3%nat := boxed KChannel (1%nat, ChannelDemo.ends Srv) ]} [true; true].

Definition pubs : list c_pub_cmd :=
  [CPublish topic (mkBuffer (Some [7; 8; 9]) 2); CHeartbeat; CPublish topic (mkBuffer None 4);
   CPublish topic (mkBuffer None 0)].
Definition recvs : list c_recv_cmd := [CTryRecv; CReadSample 0; CRecvBlocking 3; CFreeSample 0; CReadSample 1].
Definition chans : list c_chan_cmd :=
  [CSend (mkBuffer (Some [5]) 1); CReceive CTryRecv; CReceive (CReadSample 0); CSend (mkBuffer None 2)].

Lemma ffi_equivalence_witness :
  rust_pub <$> pubs = [PPublish (mkTopic 0 42) [7; 8]; PHeartbeat; PLoanDrop (mkTopic 0 42); PPublish (mkTopic 0 42) []] /\
  outcome_of (c_publisher 10 pubs (Some 1%nat)) objects
    ≡ defined (on Srv (publisher_client 10 (rust_pub <$> pubs) Demo.publisher)) /\
  outcome_of (c_subscriber 10 recvs (Some 2%nat) [] []) objects
    ≡ defined (on Cli (subscriber 10 (rust_recv <$> recvs) stream [] [])) /\
  outcome_of (c_endpoint 10 chans (Some 3%nat) [] []) objects
    ≡ defined (endpoint 10 [ChSend [5]; ChTryRecv; ChRead 0] (ChannelDemo.ends Srv) [] []).
Proof.
  split; [reflexivity|]. split; [|split].
  - apply (proj1 (ffi_equivalence 10 1 objects)); [reflexivity|]. repeat constructor.
  - apply (proj1 (proj2 (ffi_equivalence 10 2 objects)) Cli 0%nat); [reflexivity|reflexivity|].
    vm_compute. intuition congruence.
  - apply (proj2 (proj2 (ffi_equivalence 10 3 objects)) 1%nat (ChannelDemo.ends Srv) chans);
      [reflexivity|reflexivity| |repeat constructor]. vm_compute. intuition congruence.
Defined.

End CClientDemo.
