(* ===== verification/CDelivery.v ===== *)
(** * CDelivery: channels between C programs

    Two C programs talk over a channel through the exported functions. Their accesses
    are those of the Rust endpoints ([FfiProof]), an execution of the first pair is one
    of the second, and so what holds of the Rust endpoints ([ChannelOpen]) holds of the
    C programs. *)

From S2P Require Import Prelude Errors Layout Atomics Rely ShmBytes Pool Ring Wait Subscription.
From S2P Require Import Loan Publisher Channel Ghost Ownership SubscriberProof PublisherProof.
From S2P Require Import Delivery Startup Guarantees ChannelProof ChannelOpen Registry Ffi FfiTypes FfiProof.

(** ** Executions of equivalent programs *)

Section Simulation.
Context {C A : Type} `{EqDecision C} (window : C -> option Z).

(** A program that may be undefined, and what it does when it is not. *)
Definition behaves (p : prog C (option A)) (q : prog C A) : Prop := p ≡ defined q.

Lemma behaves_step t p q s p' s' :
  behaves p q -> tstep window t p s p' s' -> exists q', tstep window t q s q' s' /\ behaves p' q'.
Proof.
  unfold behaves, defined. intros H Hs.
  destruct Hs; destruct q; cbn in H; inversion H; simplify_eq; eexists; (split; [by constructor|]); auto.
Qed.

Lemma behaves_pool_step ps qs s ps' s' :
  Forall2 behaves ps qs -> cstep window (ps, s) (ps', s') ->
  exists qs', cstep window (qs, s) (qs', s') /\ Forall2 behaves ps' qs'.
Proof.
  intros Hp Hs. inversion Hs as [? ? t p p' ? Ht Hstep]; simplify_eq.
  destruct (Forall2_lookup_l _ _ _ _ _ Hp Ht) as (q & Hq & Hb).
  destruct (behaves_step _ _ _ _ _ _ Hb Hstep) as (q' & Hq' & Hb').
  exists (<[t := q']> qs). split; [by econstructor | by apply Forall2_insert].
Qed.

Lemma behaves_pool ps s ps' s' :
  rtc (cstep window) (ps, s) (ps', s') -> forall qs, Forall2 behaves ps qs ->
  exists qs', rtc (cstep window) (qs, s) (qs', s') /\ Forall2 behaves ps' qs'.
Proof.
  intros Hr. remember (ps, s) as x eqn:Hx. remember (ps', s') as y eqn:Hy. revert ps s Hx.
  induction Hr as [x|x [ps1 s1] y Hs _ IH]; intros ps s -> qs Hp; simplify_eq.
  - by exists qs.
  - destruct (behaves_pool_step _ _ _ _ _ Hp Hs) as (qs1 & Hs1 & Hp1).
    destruct (IH eq_refl ps1 s1 eq_refl qs1 Hp1) as (qs' & Hr' & Hp'). exists qs'. split; [|done].
    by eapply rtc_l.
Qed.

Lemma behaves_ret x q : behaves (Ret x) q -> exists a, x = Some a /\ q = Ret a.
Proof. unfold behaves, defined. destruct q; cbn; intros H; inversion H; simplify_eq; eauto. Qed.

Lemma behaves_panic q : behaves Panic q -> q = Panic.
Proof. unfold behaves, defined. destruct q; cbn; intros H; by inversion H. Qed.

End Simulation.

(** ** Two C programs and a channel *)

(** A C program with the handle of an open channel in its heap, and the mapping of the
    peer's region that the channel owns. *)
Record c_side : Type := mkCSide {
  cs_heap : heap;
  cs_chan : nat;
  cs_map : mapping;
  cs_cmds : list c_chan_cmd
}.

Definition c_thread (fuel : nat) (c : c_side) : prog chan_cell (option reads) :=
  outcome_of (c_endpoint fuel (cs_cmds c) (Some (cs_chan c)) [] []) (cs_heap c).

Definition c_threads (fuel : nat) (c : side -> c_side) : list (prog chan_cell (option reads)) :=
  [c_thread fuel (c Srv); c_thread fuel (c Cli)].

(** What a C program asks to send; a null buffer with a length sends nothing. *)
Definition c_sent (cmds : list c_chan_cmd) : list bytes :=
  omap (fun c => match c with CSend buf => payload buf | CReceive _ => None end) cmds.

Lemma sent_rust cmds : sent (omap rust_chan cmds) = c_sent cmds.
Proof.
  unfold sent, c_sent. induction cmds as [|c cmds IH]; [done|].
  destruct c as [buf|[|pf|k|k]]; cbn; try exact IH. destruct (payload buf); cbn; [by f_equal|done].
Qed.

(** The stream of an endpoint is of a region with room for data. *)
Lemma chan_setup_blocks config ends cmds m s :
  chan_setup config ends cmds m ->
  BLOCK_DATA_OFFSET <= block_size (rg_config (st_region (ch_rx (ends s)))) < 2 ^ 32.
Proof.
  intros [_ Hst Hreg]. destruct (Hreg (peer s)) as [size Hsu]. specialize (Hst (peer s)).
  rewrite peer_peer in *. rewrite Hst. cbn [st_region].
  pose proof (su_subs _ _ _ _ _ _ Hsu) as Hs. apply Forall_cons in Hs as [((_ & _ & Hb & _) & _) _].
  cbn [sb_region] in Hb. rewrite Hb.
  destruct (su_layout _ _ _ _ _ _ Hsu) as [L1 L2 _]. unfold config_u32, in_u32 in L1. lia.
Qed.

(** C13. End-to-end delivery between C programs: two programs that talk over an open channel
    through the exported functions, sending from readable or null buffers and receiving,
    reading and freeing samples in any order, never meet undefined behaviour and never
    panic, in any interleaving; and what one reads from the k-th sample it received is
    the k-th element of one list of messages, which is a sublist (in order, nothing
    repeated or invented) of the buffers the other asked to send. *)
Theorem c_channel_delivery fuel config ends (c : side -> c_side) m ps h :
  chan_setup config ends (fun s => omap rust_chan (cs_cmds (c s))) m ->
  (forall s, hp_allocs (cs_heap (c s)) !! cs_chan (c s) = Some (boxed KChannel (cs_map (c s), ends s)) /\
     is_mapped (cs_map (c s)) (cs_heap (c s)) = true /\ buffers_ok (cs_cmds (c s))) ->
  rtc (cstep chan_window) (c_threads fuel c, h_init m) (ps, h) ->
  (forall t, ps !! t <> Some Panic /\ ps !! t <> Some (Ret None)) /\
  forall s out, ps !! tid s = Some (Ret (Some out)) ->
    exists ms, ms `sublist_of` c_sent (cs_cmds (c (peer s))) /\ forall k bs, (k, bs) ∈ out -> ms !! k = Some bs.
Proof.
  intros Hsu Hc Hr.
  assert (Hb : forall s, behaves (c_thread fuel (c s)) (endpoint fuel (omap rust_chan (cs_cmds (c s))) (ends s) [] [])).
  { intros s. destruct (Hc s) as (Ha & Hm & Hok). eapply c_endpoint_equiv; [|exact Ha|split|by apply held_nil|done].
    by eapply chan_setup_blocks. all: done. }
  destruct (behaves_pool _ _ _ _ _ Hr (chan_threads fuel ends (fun s => omap rust_chan (cs_cmds (c s)))))
    as (qs & Hq & Hpq); [repeat constructor; apply Hb|].
  destruct (channel_delivers fuel config ends _ m qs h Hsu Hq) as [Hnp Hd]. split.
  - intros t. split; intros Hp; destruct (Forall2_lookup_l _ _ _ _ _ Hpq Hp) as (q & Hq' & Hbq).
    + apply behaves_panic in Hbq as ->. by apply (Hnp t).
    + by apply behaves_ret in Hbq as (a & [=] & _).
  - intros s out Hp. destruct (Forall2_lookup_l _ _ _ _ _ Hpq Hp) as (q & Hq' & Hbq).
    apply behaves_ret in Hbq as (a & [= <-] & ->). rewrite <- sent_rust. by apply (Hd s).
Qed.

(** The endpoints of [ChannelDemo] in the hands of two C programs. *)
Module CChannelDemo.

Definition cmds (s : side) : list c_chan_cmd :=
  match s with
  | Cli => [CSend (mkBuffer (Some [1; 2; 0]) 2); CSend (mkBuffer None 3); CSend (mkBuffer (Some [3]) 1);
            CReceive CTryRecv; CReceive (CReadSample 0)]
  | Srv => [CReceive CTryRecv; CReceive (CReadSample 0); CSend (mkBuffer (Some [9; 9]) 2); CReceive CTryRecv;
            CReceive (CReadSample 1); CReceive (CFreeSample 1); CReceive (CReadSample 0)]
  end.
Definition program (s : side) : c_side :=
  mkCSide (mkHeap {[ 7%nat := boxed KChannel (0%nat, ChannelDemo.ends s) ]} [true]) 7 0 (cmds s).
Definition final : list (prog chan_cell (option reads)) * hstate chan_cell :=
  Rely.exec chan_window (Some 0) ChannelDemo.schedule (c_threads 10 program) (h_init ChannelDemo.memory).

Lemma c_final_reachable :
  rtc (cstep chan_window) (c_threads 10 program, h_init ChannelDemo.memory) (final.1, final.2).
Proof. unfold final. rewrite <- surjective_pairing. apply Rely.exec_sound. Qed.

End CChannelDemo.

Lemma c_channel_delivery_witness :
  CChannelDemo.final.1 =
    [Ret (Some [(0%nat, [1; 2]); (1%nat, [3]); (0%nat, [1; 2])]); Ret (Some [(0%nat, [9; 9])])] /\
  exists ms, ms `sublist_of` [[1; 2]; [3]] /\
    forall k bs, (k, bs) ∈ [(0%nat, [1; 2]); (1%nat, [3]); (0%nat, [1; 2])] -> ms !! k = Some bs.
Proof.
  assert (Hf : CChannelDemo.final.1 =
    [Ret (Some [(0%nat, [1; 2]); (1%nat, [3]); (0%nat, [1; 2])]); Ret (Some [(0%nat, [9; 9])])])
    by (vm_compute; reflexivity).
  split; [exact Hf|].
  destruct (c_channel_delivery 10 ChannelDemo.config ChannelDemo.ends CChannelDemo.program ChannelDemo.memory
    CChannelDemo.final.1 CChannelDemo.final.2) as [_ H].
  - apply ChannelDemo.chan_setup_any. intros []; vm_compute; reflexivity.
  - intros []; (split; [reflexivity|]; split; [reflexivity|]); repeat constructor.
  - apply CChannelDemo.c_final_reachable.
  - apply (H Srv). rewrite Hf. reflexivity.
Defined.
