(* ===== verification/Mmap.v ===== *)
(** * Mmap: mappings of a process (src/src/platform/mmap.rs)

    A [RawMmap] owns one view of a file in the address space of its process and gives
    it back when it is dropped. The kernel is a parameter: it answers each request with
    an address, a handle or an error code; what is assumed of it is that a new view does
    not overlap the present ones and that a new handle is not in use. Unix and Windows
    are two instances of one interface. [madvise] only advises and is left out. *)

From S2P Require Import Prelude Errors.

Inductive io_error : Type :=
| InvalidInput
| OsError (code : Z).

(** The views of a process, as address and length, and its open section handles with
    the size of each section. *)
Record vspace : Type := mkVspace {
  vs_views : list (Z * Z);
  vs_sections : list (Z * Z)
}.

Definition overlaps (v w : Z * Z) : bool := (v.1 <? w.1 + w.2) && (w.1 <? v.1 + v.2).

(** The kernel's answers: the length of a file; a view of [len] bytes; a section of a
    size given by its high and low halves; a view of a section. *)
Record kernel (file : Type) : Type := mkKernel {
  k_metadata_len : file -> result Z Z;
  k_mmap : vspace -> file -> Z -> result Z Z;
  k_create_file_mapping : vspace -> file -> Z -> Z -> result Z Z;
  k_map_view : vspace -> Z -> Z -> result Z Z
}.
Arguments k_metadata_len {file}.
Arguments k_mmap {file}.
Arguments k_create_file_mapping {file}.
Arguments k_map_view {file}.

(** What the documentation of the calls promises. *)
Class KernelLaws {file} (k : kernel file) : Prop := {
  kl_mmap : forall s f len a, k_mmap k s f len = Ok a ->
    Forall (fun v => overlaps (a, len) v = false) (vs_views s);
  kl_map_view : forall s h len a, k_map_view k s h len = Ok a ->
    Forall (fun v => overlaps (a, len) v = false) (vs_views s);
  kl_section : forall s f hi lo h, k_create_file_mapping k s f hi lo = Ok h ->
    h ∉ (vs_sections s).*1
}.

Definition add_view (s : vspace) (v : Z * Z) : vspace := mkVspace (v :: vs_views s) (vs_sections s).

(** What is left of view [v] when the range [r] is unmapped: the parts before and after it. *)
Definition cut (r v : Z * Z) : list (Z * Z) :=
  if overlaps r v then
    (if v.1 <? r.1 then [(v.1, r.1 - v.1)] else []) ++
    (if r.1 + r.2 <? v.1 + v.2 then [(r.1 + r.2, v.1 + v.2 - (r.1 + r.2))] else [])
  else [v].

(** [munmap] takes the range away from every view that meets it; the lengths are those
    of the requests, without rounding to pages. *)
Definition munmap (s : vspace) (ptr len : Z) : vspace :=
  mkVspace (flat_map (cut (ptr, len)) (vs_views s)) (vs_sections s).

(** [UnmapViewOfFile] takes the view at the address away. *)
Definition unmap_view_of_file (s : vspace) (ptr : Z) : vspace :=
  mkVspace (filter (fun v => v.1 <> ptr) (vs_views s)) (vs_sections s).

Definition open_section (s : vspace) (h size : Z) : vspace :=
  mkVspace (vs_views s) ((h, size) :: vs_sections s).
Definition close_handle (s : vspace) (h : Z) : vspace :=
  mkVspace (vs_views s) (filter (fun x => x.1 <> h) (vs_sections s)).

(** ** The wrapper *)

Record RawMmap : Type := mkRawMmap { rm_ptr : Z; rm_len : Z }.

Definition view_of (m : RawMmap) : Z * Z := (rm_ptr m, rm_len m).

Section Wrapper.
Context {file : Type} (k : kernel file).

Definition from_file_with_len_unix (s : vspace) (f : file) (len : Z) : vspace * result RawMmap io_error :=
  if len =? 0 then (s, Err InvalidInput)
  else
    match k_mmap k s f len with
    | Err code => (s, Err (OsError code))
    | Ok ptr => (add_view s (ptr, len), Ok (mkRawMmap ptr len))
    end.

Definition len_high (len : Z) : Z := wrap32 (Z.shiftr len 32).
Definition len_low (len : Z) : Z := wrap32 len.

(** The handle of the section is closed before the view is looked at. *)
Definition from_file_with_len_windows (s : vspace) (f : file) (len : Z) : vspace * result RawMmap io_error :=
  if len =? 0 then (s, Err InvalidInput)
  else
    match k_create_file_mapping k s f (len_high len) (len_low len) with
    | Err code => (s, Err (OsError code))
    | Ok mapping =>
        let s1 := open_section s mapping (len_high len * 2 ^ 32 + len_low len) in
        match k_map_view k s1 mapping len with
        | Err code => (close_handle s1 mapping, Err (OsError code))
        | Ok ptr => (close_handle (add_view s1 (ptr, len)) mapping, Ok (mkRawMmap ptr len))
        end
    end.

Definition drop_unix (s : vspace) (m : RawMmap) : vspace := munmap s (rm_ptr m) (rm_len m).
Definition drop_windows (s : vspace) (m : RawMmap) : vspace := unmap_view_of_file s (rm_ptr m).

End Wrapper.

(** ** The interface of a platform *)

(** The views of the process are pairwise apart and not empty. *)
Record space_ok (s : vspace) : Prop := {
  so_apart : ForallOrdPairs (fun v w => overlaps v w = false) (vs_views s);
  so_positive : Forall (fun v => 0 < v.2) (vs_views s)
}.

Class Platform {file} (k : kernel file) : Type := {
  from_file_with_len : vspace -> file -> Z -> vspace * result RawMmap io_error;
  raw_drop : vspace -> RawMmap -> vspace
}.

(** Mapping adds exactly one view, apart from the others, or changes nothing; dropping
    takes exactly that view away. No section stays open. *)
Class PlatformLaws {file} (k : kernel file) `{!Platform k} : Prop := {
  pl_map : forall s f len s' res, 0 <= len -> from_file_with_len s f len = (s', res) ->
    match res with
    | Ok m => rm_len m = len /\ 0 < len /\ s' = add_view s (view_of m) /\
        Forall (fun v => overlaps (view_of m) v = false) (vs_views s)
    | Err e => s' = s /\ (e = InvalidInput <-> len = 0)
    end;
  pl_drop : forall s m, space_ok s -> view_of m ∈ vs_views s ->
    vs_sections (raw_drop s m) = vs_sections s /\ vs_views s ≡ₚ view_of m :: vs_views (raw_drop s m)
}.

(** [RawMmap::from_file]. *)
Definition from_file {file} (k : kernel file) `{!Platform k} (s : vspace) (f : file)
    : vspace * result RawMmap io_error :=
  match k_metadata_len k f with
  | Err code => (s, Err (OsError code))
  | Ok len => from_file_with_len s f (wrap64 len)
  end.

(** A client maps files and drops mappings; errors are ignored. *)
Inductive map_cmd (file : Type) : Type :=
| MapFile (f : file)
| MapLen (f : file) (len : Z)
| DropMap (i : nat).
Arguments MapFile {file} f.
Arguments MapLen {file} f len.
Arguments DropMap {file} i.

Definition keep_map (x : vspace * result RawMmap io_error) (live : list RawMmap) : vspace * list RawMmap :=
  (x.1, match x.2 with Ok m => m :: live | Err _ => live end).

Definition map_step {file} (k : kernel file) `{!Platform k} (c : map_cmd file)
    (x : vspace * list RawMmap) : vspace * list RawMmap :=
  match c with
  | MapFile f => keep_map (from_file k x.1 f) x.2
  | MapLen f len => keep_map (from_file_with_len x.1 f (wrap64 len)) x.2
  | DropMap i =>
      match x.2 !! i with
      | Some m => (raw_drop x.1 m, delete i x.2)
      | None => x
      end
  end.

Fixpoint map_client {file} (k : kernel file) `{!Platform k} (cmds : list (map_cmd file))
    (x : vspace * list RawMmap) : vspace * list RawMmap :=
  match cmds with
  | [] => x
  | c :: cmds' => map_client k cmds' (map_step k c x)
  end.

(** ** Overlap *)

Lemma overlaps_sym v w : overlaps v w = overlaps w v.
Proof. unfold overlaps. apply andb_comm. Qed.

Lemma overlaps_self v : 0 < v.2 -> overlaps v v = true.
Proof. intros Hv. unfold overlaps. replace (_ <? _) with true by lia. done. Qed.

Lemma apart_perm (l l' : list (Z * Z)) :
  l ≡ₚ l' -> ForallOrdPairs (fun v w => overlaps v w = false) l ->
  ForallOrdPairs (fun v w => overlaps v w = false) l'.
Proof.
  induction 1 as [|v l l' Hp IH|v w l|l1 l2 l3 _ IH1 _ IH2]; intros H.
  - done.
  - inversion H as [|? ? Hv Hl]; subst. constructor; [by rewrite <- Hp | by apply IH].
  - inversion H as [|? ? Hv Hl]; subst. inversion Hl as [|? ? Hw Hl']; subst.
    apply Forall_cons in Hv as [Hvw Hv].
    constructor; [constructor; [by rewrite overlaps_sym|done]|]. by constructor.
  - by apply IH2, IH1.
Qed.

Lemma space_ok_perm s s' : vs_views s ≡ₚ vs_views s' -> space_ok s -> space_ok s'.
Proof. intros Hp [H1 H2]. split; [by eapply apart_perm | by rewrite <- Hp]. Qed.

(** Filtering out what meets the condition only of [v] takes exactly [v] away. *)
Lemma filter_one (P : Z * Z -> Prop) `{!forall v, Decision (P v)} v l :
  ~ P v -> Forall P l -> filter P (v :: l) = l.
Proof.
  intros Hv Hl. rewrite filter_cons_False by done.
  induction Hl as [|w l Hw _ IH]; [done|]. rewrite filter_cons_True by done. by f_equal.
Qed.

Lemma filter_perm_one (P : Z * Z -> Prop) `{!forall v, Decision (P v)} v l l' :
  l ≡ₚ v :: l' -> ~ P v -> Forall P l' -> l ≡ₚ v :: filter P l.
Proof. intros Hl Hv HP. rewrite Hl at 2. by rewrite filter_one. Qed.

(** Unmapping exactly a view leaves nothing of it, and what is apart from it as it is. *)
Lemma cut_self v : 0 < v.2 -> cut v v = [].
Proof.
  intros Hv. unfold cut. rewrite overlaps_self by done. replace (v.1 <? v.1) with false by lia.
  by replace (v.1 + v.2 <? v.1 + v.2) with false by lia.
Qed.

Lemma cut_apart v l : Forall (fun w => overlaps v w = false) l -> flat_map (cut v) l = l.
Proof. induction 1 as [|w l Hw _ IH]; [done|]. cbn. unfold cut at 1. rewrite Hw. cbn. by f_equal. Qed.

(** A view of the space, and the others, which are apart from it. *)
Lemma space_pick s v :
  space_ok s -> v ∈ vs_views s ->
  0 < v.2 /\ exists l, vs_views s ≡ₚ v :: l /\ Forall (fun w => overlaps v w = false /\ 0 < w.2) l.
Proof.
  intros [H1 H2] (l & Hl)%elem_of_Permutation.
  pose proof (apart_perm _ _ Hl H1) as Ha. inversion Ha as [|? ? Hv _]; subst.
  rewrite Hl in H2. apply Forall_cons in H2 as [Hp H2]. split; [done|]. exists l. split; [done|].
  by apply Forall_and.
Qed.

(** ** Both platforms keep the interface *)

Lemma len_split len : in_u64 len -> len_high len * 2 ^ 32 + len_low len = len.
Proof.
  intros H. unfold len_high, len_low, wrap32. unfold in_u64 in H.
  rewrite Z.shiftr_div_pow2, (Z.mod_small (len / 2 ^ 32)) by (first [lia |
    split; [apply Z.div_pos; lia | apply Z.div_lt_upper_bound; lia]]).
  rewrite Z.mul_comm, <- Z.div_mod; lia.
Qed.

Section Platforms.
Context {file : Type} (k : kernel file) `{!KernelLaws k}.

Definition unix : Platform k := {|
  from_file_with_len := from_file_with_len_unix k;
  raw_drop := drop_unix
|}.

Definition windows : Platform k := {|
  from_file_with_len := from_file_with_len_windows k;
  raw_drop := drop_windows
|}.

Lemma close_fresh s h size : h ∉ (vs_sections s).*1 -> close_handle (open_section s h size) h = s.
Proof.
  intros Hh. destruct s as [views sections]. unfold close_handle, open_section.
  cbn [vs_views vs_sections] in *. f_equal.
  apply (filter_one (fun x => x.1 <> h)); [cbn; by intros []|]. apply Forall_forall. intros x Hx Heq.
  apply Hh. rewrite <- Heq. by apply list_elem_of_fmap_2.
Qed.

Lemma unix_laws : @PlatformLaws file k unix.
Proof.
  split.
  - intros s f len s' res Hlen. cbn. unfold from_file_with_len_unix.
    destruct (Z.eqb_spec len 0); [by intros [= <- <-]|].
    destruct (k_mmap k s f len) as [a|code] eqn:E; intros [= <- <-]; [|by split].
    cbn. repeat split; [lia|]. by eapply kl_mmap.
  - intros s m Hok Hin. destruct (space_pick s _ Hok Hin) as (Hp & l & Hl & Hap). split; [done|].
    cbn. rewrite Hl at 1. constructor.
    rewrite (Permutation_flat_map (cut (view_of m)) Hl). cbn [flat_map].
    rewrite cut_self by done. cbn [app]. rewrite cut_apart; [done|].
    eapply Forall_impl; [exact Hap|]. by intros w [].
Qed.

Lemma windows_laws : @PlatformLaws file k windows.
Proof.
  split.
  - intros s f len s' res Hlen. cbn. unfold from_file_with_len_windows.
    destruct (Z.eqb_spec len 0); [by intros [= <- <-]|].
    destruct (k_create_file_mapping k s f _ _) as [h|code] eqn:E; [|by intros [= <- <-]].
    pose proof (kl_section _ _ _ _ _ E) as Hh.
    destruct (k_map_view k _ h len) as [a|code] eqn:E'; intros [= <- <-].
    + cbn. repeat split; [lia| |by apply kl_map_view in E'].
      rewrite <- (close_fresh s h (len_high len * 2 ^ 32 + len_low len) Hh) at 2. done.
    + split; [by apply close_fresh|done].
  - intros s m Hok Hin. destruct (space_pick s _ Hok Hin) as (Hp & l & Hl & Hap). split; [done|].
    cbn. apply (filter_perm_one (fun v => v.1 <> rm_ptr m) _ _ l Hl); [by intros []|].
    eapply Forall_impl; [exact Hap|]. intros w [Ho Hw] Hptr. cbn in Hp.
    unfold overlaps, view_of in Ho. cbn in Ho. rewrite Hptr in Ho. lia.
Qed.

End Platforms.

(** ** Every mapping is owned once *)

Section Client.
Context {file : Type} (k : kernel file) `{!Platform k, !PlatformLaws k}.
(** The process before: views of others. *)
Context (s0 : vspace).

Definition balanced (x : vspace * list RawMmap) : Prop :=
  space_ok x.1 /\ vs_sections x.1 = vs_sections s0 /\
  vs_views x.1 ≡ₚ map view_of x.2 ++ vs_views s0.

Lemma keep_balanced s live f len :
  0 <= len -> balanced (s, live) -> balanced (keep_map (from_file_with_len s f len) live).
Proof.
  intros Hlen (Hok & Hse & Hv). destruct (from_file_with_len s f len) as [s' [m|e]] eqn:E;
    pose proof (pl_map _ _ _ _ _ Hlen E) as H; cbn in *.
  - destruct H as (Hl & Hpos & -> & Hap). destruct Hok as [H1 H2]. split; [split|split]; cbn.
    + by constructor.
    + constructor; [cbn; lia|done].
    + done.
    + by rewrite Hv.
  - destruct H as [-> _]. done.
Qed.

Lemma step_balanced c x : balanced x -> balanced (map_step k c x).
Proof.
  destruct x as [s live]. intros Hb. destruct c as [f|f len|i]; cbn.
  - unfold from_file. destruct (k_metadata_len k f); [|done].
    apply keep_balanced; [apply wrap64_range|done].
  - apply keep_balanced; [apply wrap64_range|done].
  - destruct (live !! i) as [m|] eqn:Hm; [|done]. destruct Hb as (Hok & Hse & Hv). cbn in *.
    apply delete_Permutation in Hm. rewrite Hm in Hv. cbn in Hv.
    destruct (pl_drop s m) as [Hs' Hv']; [done|rewrite Hv; set_solver|].
    rewrite Hv' in Hv. apply Permutation_cons_inv in Hv. split; [split|split]; cbn; try done.
    + pose proof (apart_perm _ _ Hv' (so_apart _ Hok)) as Ha. by inversion Ha.
    + pose proof (so_positive _ Hok) as Hp. rewrite Hv' in Hp. by apply Forall_cons in Hp as [_ Hp].
    + congruence.
Qed.

Lemma client_balanced cmds x : balanced x -> balanced (map_client k cmds x).
Proof. revert x. induction cmds as [|c cmds IH]; intros x Hb; [done|]. by apply IH, step_balanced. Qed.

End Client.

(** C16. Mappings are owned exactly once: on Unix and on Windows, after any sequence of
    mapping calls, which may fail, and drops, the views of the process are its previous
    ones and one for each live [RawMmap], all pairwise apart, and no section handle is
    left open; a call that fails changes nothing, and it reports an invalid length
    exactly for length 0; the size Windows is asked for in two halves is the length. *)
Theorem mappings_balanced {file} (k : kernel file) `{!KernelLaws k} (P : Platform k) s0 cmds :
  P = unix k \/ P = windows k -> space_ok s0 ->
  let x := map_client k cmds (s0, []) in
  vs_views x.1 ≡ₚ map view_of x.2 ++ vs_views s0 /\
  ForallOrdPairs (fun v w => overlaps v w = false) (map view_of x.2 ++ vs_views s0) /\
  vs_sections x.1 = vs_sections s0 /\
  forall f len, in_u64 len ->
    len_high len * 2 ^ 32 + len_low len = len /\
    forall s' e, from_file_with_len x.1 f len = (s', Err e) -> s' = x.1 /\ (e = InvalidInput <-> len = 0).
Proof.
  intros HP Hok x.
  assert (HL : PlatformLaws k) by (destruct HP as [-> | ->]; [by apply unix_laws | by apply windows_laws]).
  destruct (client_balanced k s0 cmds (s0, [])) as (Hx & Hs & Hv); [by split|].
  split; [done|]. split; [eapply apart_perm; [exact Hv|apply Hx]|]. split; [done|].
  intros f len Hlen. split; [by apply len_split|]. intros s' e He.
  exact (pl_map _ _ _ _ _ (proj1 Hlen) He).
Qed.

(** A kernel that places each view above the present ones and knows files by their
    length; it refuses views of more than a gigabyte. *)
Definition views_end (s : vspace) : Z := foldr (fun v e => Z.max (v.1 + v.2) e) 4096 (vs_views s).
Definition bump (s : vspace) (len : Z) : result Z Z :=
  if 1073741824 <? len then Err 12 else Ok (views_end s).
Definition bump_kernel : kernel Z := {|
  k_metadata_len f := if f <? 0 then Err 5 else Ok f;
  k_mmap s _ len := bump s len;
  k_create_file_mapping s _ _ _ := Ok (foldr (fun x e => Z.max (x.1 + 1) e) 1 (vs_sections s));
  k_map_view s _ len := bump s len
|}.

Lemma bump_fresh s len a : bump s len = Ok a -> Forall (fun v => overlaps (a, len) v = false) (vs_views s).
Proof.
  unfold bump. destruct (_ <? _); [done|]. intros [= <-]. unfold views_end.
  assert (Hge : forall v, v ∈ vs_views s -> v.1 + v.2 <= foldr (fun v e => Z.max (v.1 + v.2) e) 4096 (vs_views s)).
  { induction (vs_views s) as [|w l IH]; intros v; [by intros ?%elem_of_nil|].
    cbn. intros [->|Hv]%elem_of_cons; [lia|]. specialize (IH v Hv). lia. }
  apply Forall_forall. intros v Hv. specialize (Hge v Hv). unfold overlaps. cbn. lia.
Qed.

Lemma bump_laws : KernelLaws bump_kernel.
Proof.
  split.
  - intros s f len a. apply bump_fresh.
  - intros s h len a. apply bump_fresh.
  - intros s f hi lo h [= <-] ([h' x] & Hh & Hin)%list_elem_of_fmap. cbn in Hh.
    assert (Hlt : forall x, x ∈ vs_sections s -> x.1 < foldr (fun x e => Z.max (x.1 + 1) e) 1 (vs_sections s)).
    { clear. induction (vs_sections s) as [|w l IH]; intros y; [by intros ?%elem_of_nil|].
      cbn. intros [->|Hy]%elem_of_cons; [lia|]. specialize (IH y Hy). lia. }
    specialize (Hlt _ Hin). cbn in Hlt. lia.
Qed.

(** Two regions and a failed mapping beside a view that was there; the first is dropped. *)
Lemma mappings_balanced_witness :
  let s0 := mkVspace [(65536, 4096)] [] in
  let cmds := [MapFile 704; MapLen 9 0; MapFile (-1); MapLen 5 8192; DropMap 1%nat] in
  let x := @map_client _ bump_kernel (windows bump_kernel) cmds (s0, []) in
  x = (mkVspace [(70336, 8192); (65536, 4096)] [], [mkRawMmap 70336 8192]) /\
  vs_views x.1 ≡ₚ map view_of x.2 ++ vs_views s0.
Proof.
  split; [vm_compute; reflexivity|].
  refine (proj1 (mappings_balanced bump_kernel (KernelLaws0 := bump_laws) (windows bump_kernel)
    (mkVspace [(65536, 4096)] []) [MapFile 704; MapLen 9 0; MapFile (-1); MapLen 5 8192; DropMap 1%nat]
    (or_intror eq_refl) _)).
  split; cbn; repeat constructor.
Defined.
