(* ===== verification/Files.v ===== *)
(** * Files: the life of a region's files
    (src/src/platform/shm.rs, src/src/platform/pod_bus.rs)

    A region is a file and a lock file beside it. Creating takes the lock
    exclusively, replaces the file and keeps the lock shared; opening takes the lock
    shared; dropping an owner removes the file if it is still its own. The system
    calls are the steps of a program; any number of processes are interleaved call by
    call, and every call may fail. What is done to the contents of the mapping is
    [Publisher] and [PodBus]; here it is one step that succeeds or fails. *)

From S2P Require Import Prelude Errors Layout.

(** ** Names *)

(** "/dev/shm/crossbar-" *)
Definition SHM_DIR : bytes := [47; 100; 101; 118; 47; 115; 104; 109; 47].
Definition CROSSBAR : bytes := [99; 114; 111; 115; 115; 98; 97; 114; 45].
(** "pod-", ".lock", "registry" *)
Definition POD : bytes := [112; 111; 100; 45].
Definition DOT_LOCK : bytes := [46; 108; 111; 99; 107].
Definition REGISTRY : bytes := [114; 101; 103; 105; 115; 116; 114; 121].
Definition DOT : Z := 46.

Definition shm_path (name : bytes) : bytes := SHM_DIR ++ CROSSBAR ++ name.

(** [Path::set_extension("lock")] on a file name: what follows the last dot is
    replaced. The name starts with a letter, so the stem is not empty. *)
Fixpoint file_stem (name : bytes) : option bytes :=
  match name with
  | [] => None
  | c :: rest =>
      match file_stem rest with
      | Some stem => Some (c :: stem)
      | None => if c =? DOT then Some [] else None
      end
  end.
Definition with_lock_extension (file_name : bytes) : bytes :=
  default file_name (file_stem file_name) ++ DOT_LOCK.

Definition lock_path (name : bytes) : bytes := SHM_DIR ++ with_lock_extension (CROSSBAR ++ name).
Definition pod_bus_shm_path (name : bytes) : bytes := SHM_DIR ++ CROSSBAR ++ POD ++ name.
Definition pod_bus_lock_path (name : bytes) : bytes :=
  SHM_DIR ++ with_lock_extension (CROSSBAR ++ POD ++ name).
(** Unless the environment names another path. *)
Definition registry_path : bytes := SHM_DIR ++ CROSSBAR ++ REGISTRY.

(** [seq] is the process's counter, [thread_id] the text of the thread's identifier,
    hashed as a URI is. *)
Definition generate_publisher_id (pid seq : Z) (thread_id : bytes) : Z :=
  Z.lxor (Z.lxor pid seq) (fold_left fnv_step thread_id 0xcbf29ce484222325).

(** Identifiers made on one thread differ. *)
Lemma publisher_ids_distinct pid seq seq' thread_id :
  generate_publisher_id pid seq thread_id = generate_publisher_id pid seq' thread_id -> seq = seq'.
Proof.
  unfold generate_publisher_id. intros E. apply (f_equal (fun z => Z.lxor z (fold_left fnv_step thread_id 0xcbf29ce484222325))) in E.
  rewrite !Z.lxor_assoc, !Z.lxor_nilpotent, !Z.lxor_0_r in E.
  apply (f_equal (Z.lxor pid)) in E. by rewrite <- !Z.lxor_assoc, Z.lxor_nilpotent, !Z.lxor_0_l in E.
Qed.

(** Those of different processes need not: the first publisher of process 100 and the
    third of process 102. *)
Lemma publisher_ids_collide thread_id :
  generate_publisher_id 100 1 thread_id = generate_publisher_id 102 3 thread_id.
Proof. done. Qed.

(** ** File system *)

(** The two files of one segment. *)
Inductive fpath : Type := RegionFile | LockFile.
#[export] Instance fpath_eq_dec : EqDecision fpath.
Proof. solve_decision. Defined.

Inductive lock : Type := Shared | Exclusive.
#[export] Instance lock_eq_dec : EqDecision lock.
Proof. solve_decision. Defined.

Abbreviation ino := nat.
Abbreviation fd := nat.

(** The directory entries, and the open files with the [flock] each holds. A mapping
    keeps its file as an open descriptor does. *)
Record fsys : Type := mkFsys {
  fs_region : option ino;
  fs_lock : option ino;
  fs_fds : gmap fd (ino * option lock)
}.

Definition dir (σ : fsys) (p : fpath) : option ino :=
  match p with RegionFile => fs_region σ | LockFile => fs_lock σ end.
Definition set_dir (σ : fsys) (p : fpath) (o : option ino) : fsys :=
  match p with
  | RegionFile => mkFsys o (fs_lock σ) (fs_fds σ)
  | LockFile => mkFsys (fs_region σ) o (fs_fds σ)
  end.
Definition set_fds (σ : fsys) (fds : gmap fd (ino * option lock)) : fsys :=
  mkFsys (fs_region σ) (fs_lock σ) fds.

(** Inode numbers in use: named, or held open. *)
Definition used (σ : fsys) (i : ino) : bool :=
  bool_decide (fs_region σ = Some i) || bool_decide (fs_lock σ = Some i)
  || existsb (fun e => fst e =? i)%nat (snd <$> map_to_list (fs_fds σ)).

(** Does a descriptor other than [d] hold a lock on the file [i] that satisfies [P]? *)
Definition other_lock (σ : fsys) (d : fd) (i : ino) (P : lock -> bool) : bool :=
  existsb (fun '(d', (i', m)) => negb (d' =? d)%nat && (i' =? i)%nat
                                 && match m with Some m => P m | None => false end)
    (map_to_list (fs_fds σ)).

(** ** Programs of system calls *)

Inductive fsp (A : Type) : Type :=
| FRet (a : A)
(** [OpenOptions::open], with [create(true)] or not: the descriptor and its file *)
| FOpen (p : fpath) (create : bool) (k : option (fd * ino) -> fsp A)
(** [flock(LOCK_EX | LOCK_NB)], [flock(LOCK_UN)] and the blocking [flock(LOCK_SH)] *)
| FLockEx (d : fd) (k : bool -> fsp A)
| FUnlock (d : fd) (k : fsp A)
| FLockSh (d : fd) (k : bool -> fsp A)
| FUnlink (p : fpath) (k : fsp A)
| FStat (p : fpath) (k : option ino -> fsp A)
| FClose (d : fd) (k : fsp A)
(** work on the mapping: [None], or the error it reports *)
| FTry (k : option Error -> fsp A).

Arguments FRet {A} a.
Arguments FOpen {A} p create k.
Arguments FLockEx {A} d k.
Arguments FUnlock {A} d k.
Arguments FLockSh {A} d k.
Arguments FUnlink {A} p k.
Arguments FStat {A} p k.
Arguments FClose {A} d k.
Arguments FTry {A} k.

(** The environment's choice for one call: whether it fails, the number of a file it
    creates, which must not be in use, and the error of work on the mapping. *)
Record choice : Type := mkChoice { ch_ok : bool; ch_ino : ino; ch_err : Error }.

Definition open_fd (σ : fsys) (i : ino) : fd * fsys :=
  let d := fresh (dom (fs_fds σ)) in (d, set_fds σ (<[d := (i, None)]> (fs_fds σ))).

Definition set_lock (σ : fsys) (d : fd) (i : ino) (m : option lock) : fsys :=
  set_fds σ (<[d := (i, m)]> (fs_fds σ)).

(** One call; [None] if it blocks. *)
Definition fstep {A} (c : choice) (p : fsp A) (σ : fsys) : option (fsp A * fsys) :=
  match p with
  | FRet _ => None
  | FOpen q create k =>
      if negb (ch_ok c) then Some (k None, σ)
      else
        match dir σ q with
        | Some i => let '(d, σ') := open_fd σ i in Some (k (Some (d, i)), σ')
        | None =>
            if create then
              if used σ (ch_ino c) then None
              else
                let '(d, σ') := open_fd (set_dir σ q (Some (ch_ino c))) (ch_ino c) in
                Some (k (Some (d, ch_ino c)), σ')
            else Some (k None, σ)
        end
  | FLockEx d k =>
      match fs_fds σ !! d with
      | Some (i, _) =>
          if negb (ch_ok c) || other_lock σ d i (fun _ => true) then Some (k false, σ)
          else Some (k true, set_lock σ d i (Some Exclusive))
      | None => Some (k false, σ)
      end
  | FUnlock d k =>
      match fs_fds σ !! d with
      | Some (i, _) => Some (k, set_lock σ d i None)
      | None => Some (k, σ)
      end
  | FLockSh d k =>
      match fs_fds σ !! d with
      | Some (i, _) =>
          if negb (ch_ok c) then Some (k false, σ)
          else if other_lock σ d i (fun m => bool_decide (m = Exclusive)) then None
          else Some (k true, set_lock σ d i (Some Shared))
      | None => Some (k false, σ)
      end
  | FUnlink q k => Some (k, if ch_ok c then set_dir σ q None else σ)
  | FStat q k => Some (k (if ch_ok c then dir σ q else None), σ)
  | FClose d k => Some (k, set_fds σ (delete d (fs_fds σ)))
  | FTry k => Some (k (if ch_ok c then None else Some (ch_err c)), σ)
  end.

(** ** Regions *)

Section Platform.
(** Is the conversion of an exclusive lock to a shared one atomic? Where it is not,
    the lock is released first (flock(2); on Windows the code itself does it). *)
Context (atomic_downgrade : bool) (name : bytes).

Definition exclusive_lock {A} (d : fd) (k : result unit Error -> fsp A) : fsp A :=
  FLockEx d (fun ok => k (if ok : bool then Ok tt else Err (LockContention name))).

Definition shared_lock {A} (d : fd) (k : result unit Error -> fsp A) : fsp A :=
  let lock := FLockSh d (fun ok => k (if ok : bool then Ok tt else Err (LockContention name))) in
  if atomic_downgrade then lock else FUnlock d lock.

Definition file_identity {A} (k : option ino -> fsp A) : fsp A := FStat RegionFile k.

(** The files of a [Publisher]: [_lock_file], the mapping and its file, [created_ino],
    [is_owner]. *)
Record pub_files : Type := mkPubFiles {
  pf_lock : fd;
  pf_map : fd;
  pf_ino : ino;
  pf_created_ino : option ino;
  pf_is_owner : bool
}.

(** [Publisher::create] after its checks; on an error what is open is closed. *)
Definition create_files : fsp (result pub_files Error) :=
  FOpen LockFile true (fun o =>
  match o with
  | None => FRet (Err Io)
  | Some (l, _) =>
  exclusive_lock l (fun r =>
  match r with
  | Err e => FClose l (FRet (Err e))
  | Ok _ =>
  FUnlink RegionFile (
  FOpen RegionFile true (fun o =>
  match o with
  | None => FClose l (FRet (Err Io))
  | Some (m, i) =>
  FTry (fun failed =>
  match failed with
  | Some e => FClose m (FClose l (FRet (Err e)))
  | None =>
  shared_lock l (fun r =>
  match r with
  | Err e => FClose m (FClose l (FRet (Err e)))
  | Ok _ =>
  file_identity (fun created_ino =>
  FRet (Ok (mkPubFiles l m i created_ino true)))
  end)
  end)
  end))
  end)
  end).

(** [Publisher::open]. *)
Definition open_files : fsp (result pub_files Error) :=
  FOpen LockFile true (fun o =>
  match o with
  | None => FRet (Err Io)
  | Some (l, _) =>
  shared_lock l (fun r =>
  match r with
  | Err e => FClose l (FRet (Err e))
  | Ok _ =>
  FOpen RegionFile false (fun o =>
  match o with
  | None => FClose l (FRet (Err Io))
  | Some (m, i) =>
  FTry (fun failed =>
  match failed with
  | Some e => FClose m (FClose l (FRet (Err e)))
  | None => FRet (Ok (mkPubFiles l m i None false))
  end)
  end)
  end)
  end).

(** Removes the file if it is still the one recorded. *)
Definition remove_if_created {A} (created_ino : option ino) (k : fsp A) : fsp A :=
  match created_ino with
  | None => file_identity (fun _ => k)
  | Some created =>
      file_identity (fun current =>
      match current with
      | Some current => if (created =? current)%nat then FUnlink RegionFile k else k
      | None => k
      end)
  end.

(** [Drop for Publisher] and of its fields, in the order of their declaration. *)
Definition drop_files (p : pub_files) : fsp unit :=
  let close := FClose (pf_map p) (FClose (pf_lock p) (FRet tt)) in
  if pf_is_owner p then remove_if_created (pf_created_ino p) close else close.

(** ** Broadcast rings *)

(** [PodBus::create_inner] and [BusSubscriber::connect]; a subscriber keeps its lock. *)
Definition bus_create_files : fsp (result pub_files Error) :=
  FOpen LockFile true (fun o =>
  match o with
  | None => FRet (Err Io)
  | Some (l, _) =>
  exclusive_lock l (fun r =>
  match r with
  | Err e => FClose l (FRet (Err e))
  | Ok _ =>
  FUnlink RegionFile (
  FOpen RegionFile true (fun o =>
  match o with
  | None => FClose l (FRet (Err Io))
  | Some (m, i) =>
  FTry (fun failed =>
  match failed with
  | Some e => FClose m (FClose l (FRet (Err e)))
  | None =>
  file_identity (fun created_ino =>
  shared_lock l (fun r =>
  match r with
  | Err e => FClose m (FClose l (FRet (Err e)))
  | Ok _ => FRet (Ok (mkPubFiles l m i created_ino true))
  end))
  end)
  end))
  end)
  end).

Definition bus_connect_files : fsp (result pub_files Error) :=
  FOpen LockFile false (fun o =>
  match o with
  | None => FRet (Err Io)
  | Some (l, _) =>
  shared_lock l (fun r =>
  match r with
  | Err e => FClose l (FRet (Err e))
  | Ok _ =>
  FOpen RegionFile false (fun o =>
  match o with
  | None => FClose l (FRet (Err Io))
  | Some (m, i) =>
  FTry (fun failed =>
  match failed with
  | Some e => FClose m (FClose l (FRet (Err e)))
  | None => FRet (Ok (mkPubFiles l m i None false))
  end)
  end)
  end)
  end).

(** [Drop for PodBus], where the lock file goes too, and of a subscriber's fields. *)
Definition bus_drop_files (p : pub_files) : fsp unit :=
  let close := FClose (pf_map p) (FClose (pf_lock p) (FRet tt)) in
  if pf_is_owner p then remove_if_created (pf_created_ino p) (FUnlink LockFile close) else close.

End Platform.

(** ** Processes *)

(** A process creates or opens, holds what it got, and drops it. *)
Inductive proc : Type :=
| Opening (p : fsp (result pub_files Error))
| Live (f : pub_files)
| Dropping (p : fsp unit)
| Gone (e : option Error).

Section System.
Context (drop : pub_files -> fsp unit).

Definition proc_step (c : choice) (q : proc) (σ : fsys) : option (proc * fsys) :=
  match q with
  | Opening (FRet (Ok f)) => Some (Live f, σ)
  | Opening (FRet (Err e)) => Some (Gone (Some e), σ)
  | Opening p => match fstep c p σ with Some (p', σ') => Some (Opening p', σ') | None => None end
  | Live f => Some (Dropping (drop f), σ)
  | Dropping (FRet _) => Some (Gone None, σ)
  | Dropping p => match fstep c p σ with Some (p', σ') => Some (Dropping p', σ') | None => None end
  | Gone _ => None
  end.

Inductive sys_step : list proc * fsys -> list proc * fsys -> Prop :=
| sys_step_proc procs σ n c q q' σ' :
    procs !! n = Some q -> proc_step c q σ = Some (q', σ') ->
    sys_step (procs, σ) (<[n := q']> procs, σ').

(** One schedule: which process moves, and what the environment chooses. *)
Fixpoint sys_run (sched : list (nat * choice)) (s : list proc * fsys) : list proc * fsys :=
  match sched with
  | [] => s
  | (n, c) :: sched' =>
      match s.1 !! n with
      | Some q =>
          match proc_step c q s.2 with
          | Some (q', σ') => sys_run sched' (<[n := q']> s.1, σ')
          | None => sys_run sched' s
          end
      | None => sys_run sched' s
      end
  end.

Lemma sys_run_steps sched s : rtc sys_step s (sys_run sched s).
Proof.
  revert s. induction sched as [|[n c] sched IH]; intros [procs σ]; cbn [sys_run fst snd]; [done|].
  destruct (procs !! n) as [q|] eqn:Hn; [|done]. destruct (proc_step c q σ) as [[q' σ']|] eqn:Hs; [|done].
  eapply rtc_l; [by econstructor|]. apply IH.
Qed.

End System.

(** ** Names of different segments *)

Lemma file_stem_none name : DOT ∉ name -> file_stem name = None.
Proof.
  induction name as [|c name IH]; intros Hn; cbn [file_stem]; [done|].
  apply not_elem_of_cons in Hn as [Hc Hn]. rewrite IH by done. by destruct (Z.eqb_spec c DOT).
Qed.

Lemma lock_path_plain name : DOT ∉ name -> lock_path name = SHM_DIR ++ CROSSBAR ++ name ++ DOT_LOCK.
Proof.
  intros Hn. unfold lock_path, with_lock_extension. rewrite file_stem_none; [unfold from_option, id; by rewrite <- app_assoc|].
  rewrite elem_of_app. intros [Hd|Hd]; [|done]. by repeat (apply elem_of_cons in Hd as [[=]|Hd]); apply elem_of_nil in Hd.
Qed.

(** Segments whose names have no dot use different files. *)
Lemma segment_paths_disjoint n1 n2 :
  DOT ∉ n1 -> DOT ∉ n2 ->
  (shm_path n1 = shm_path n2 -> n1 = n2) /\ (lock_path n1 = lock_path n2 -> n1 = n2) /\
  shm_path n1 <> lock_path n2.
Proof.
  intros H1 H2. rewrite !lock_path_plain by done. unfold shm_path. split; [|split].
  - intros E. by do 2 apply app_inv_head in E.
  - intros E. do 2 apply app_inv_head in E. by apply app_inv_tail in E.
  - intros E. do 2 apply app_inv_head in E. apply H1. rewrite E. set_solver.
Qed.

(** With dots they need not: segments that differ after the last dot share a lock
    file, the region of one segment is the lock file of another, and some segments
    have the registry's file or a broadcast ring's. *)
Lemma segment_paths_collide :
  lock_path [102; 46; 97] = lock_path [102; 46; 98] /\
  shm_path [102; 46; 108; 111; 99; 107] = lock_path [102] /\
  shm_path [102; 46; 108; 111; 99; 107] = lock_path [102; 46; 108; 111; 99; 107] /\
  shm_path REGISTRY = registry_path /\
  (forall name, shm_path (POD ++ name) = pod_bus_shm_path name) /\
  is_valid_segment_name [102; 46; 108; 111; 99; 107] = true /\ is_valid_segment_name REGISTRY = true.
Proof. repeat split. Qed.
