(* ===== verification/FilesProof.v ===== *)
(** * FilesProof: what the lock file guarantees, and what it does not

    A typestate per process (its lock, its mapping and what it knows of the directory)
    is checked along every path of a program of [Files], failures included; from it
    follows an invariant of any number of processes interleaved call by call. *)

From S2P Require Import Prelude Errors Layout Files.

(** ** Typestates *)

(** The lock descriptor and its mode, the mapping with its file, and an inode [k] such
    that the region's directory entry is [k] or gone. *)
Record tstate : Type := mkTs {
  t_lock : option (fd * option lock);
  t_file : option (fd * ino);
  t_known : option ino
}.

Definition t0 : tstate := mkTs None None None.
Definition set_mode (t : tstate) (l : fd) (m : option lock) (known : option ino) : tstate :=
  mkTs (Some (l, m)) (t_file t) known.
Definition with_file (t : tstate) (f : fd) (i : ino) : tstate :=
  mkTs (t_lock t) (Some (f, i)) (Some i).
Definition know (t : tstate) (i : ino) : tstate := mkTs (t_lock t) (t_file t) (Some i).

Definition holds (t : tstate) (m : lock) : Prop := exists l, t_lock t = Some (l, Some m).

(** Every path of [p] from [t] uses the files as the protocol allows, and ends in [Q]. *)
Fixpoint tsafe {A} (p : fsp A) (t : tstate) (Q : A -> tstate -> Prop) : Prop :=
  match p with
  | FRet a => Q a t
  | FOpen LockFile _ k =>
      t_lock t = None /\ t_known t = None /\ tsafe (k None) t Q /\
      forall l i, tsafe (k (Some (l, i))) (set_mode t l None None) Q
  | FOpen RegionFile create k =>
      t_file t = None /\ (holds t Exclusive \/ create = false /\ holds t Shared) /\
      tsafe (k None) t Q /\ forall f i, tsafe (k (Some (f, i))) (with_file t f i) Q
  | FLockEx d k =>
      t_lock t = Some (d, None) /\ tsafe (k false) t Q /\
      tsafe (k true) (set_mode t d (Some Exclusive) None) Q
  | FUnlock d k => exists m, t_lock t = Some (d, m) /\ tsafe k (set_mode t d None None) Q
  | FLockSh d k =>
      exists m, t_lock t = Some (d, m) /\ tsafe (k false) t Q /\
      tsafe (k true) (set_mode t d (Some Shared) (t_known t)) Q
  | FUnlink RegionFile k => (exists m, holds t m) /\ tsafe k t Q
  | FUnlink LockFile k => False
  | FStat RegionFile k =>
      (exists m, holds t m) /\ tsafe (k None) t Q /\
      forall i, (forall j, t_known t = Some j -> i = j) -> tsafe (k (Some i)) (know t i) Q
  | FStat LockFile k => tsafe (k None) t Q /\ forall i, tsafe (k (Some i)) t Q
  | FClose d k =>
      (exists m, t_lock t = Some (d, m) /\ tsafe k (mkTs None (t_file t) None) Q) \/
      (exists i, t_file t = Some (d, i) /\ tsafe k (mkTs (t_lock t) None (t_known t)) Q)
  | FTry k => forall failed, tsafe (k failed) t Q
  end.

Section Platform.
Context (atomic : bool) (name : bytes).

(** The typestate of a live publisher. *)
Definition live_ok (f : pub_files) (t : tstate) : Prop :=
  t_lock t = Some (pf_lock f, Some Shared) /\ t_file t = Some (pf_map f, pf_ino f) /\
  (pf_is_owner f = false -> pf_created_ino f = None /\ t_known t = Some (pf_ino f)) /\
  (forall i, pf_created_ino f = Some i -> t_known t = Some i) /\
  (atomic = true -> t_known t = Some (pf_ino f)).

Definition opened (r : result pub_files Error) (t : tstate) : Prop :=
  match r with Ok f => live_ok f t | Err _ => t = t0 end.

(** Follows the paths of a program. *)
Ltac ts_step :=
  match goal with
  | |- _ /\ _ => split
  | |- forall _ : option Error, _ => intros [?|]
  | |- forall _, _ => intro
  | |- holds _ _ => eexists; reflexivity
  | |- (exists m, holds _ m) => eexists; eexists; reflexivity
  | |- (exists m, _ = _ /\ _) => eexists; split; [reflexivity|]
  | |- holds _ _ \/ _ => first [left; eexists; reflexivity | right; split; [reflexivity | eexists; reflexivity]]
  | |- _ \/ _ => first [left; eexists; split; [reflexivity|] | right; eexists; split; [reflexivity|]]
  | |- _ = _ => first [reflexivity | congruence]
  end.
Ltac ts_solve := repeat (cbn; try tauto; ts_step); cbn.

Lemma create_files_safe : tsafe (create_files atomic name) t0 opened.
Proof.
  unfold create_files, exclusive_lock, shared_lock, file_identity.
  destruct atomic eqn:Ha; ts_solve; unfold live_ok; cbn; naive_solver.
Qed.

Lemma open_files_safe : tsafe (open_files atomic name) t0 opened.
Proof.
  unfold open_files, shared_lock. destruct atomic eqn:Ha; ts_solve; unfold live_ok; cbn; naive_solver.
Qed.

Lemma drop_files_safe f t : live_ok f t -> tsafe (drop_files f) t (fun _ t => t = t0).
Proof.
  destruct t as [lk fl kn], f as [l m i c []]; intros (H1 & H2 & H3 & H4 & _); cbn in *; subst; [|by ts_solve].
  destruct c as [c|]; [|by ts_solve]. ts_solve. destruct (c =? i0)%nat; by ts_solve.
Qed.

End Platform.

(** ** The invariant *)

Definition fds_of (t : tstate) : list fd :=
  match t_lock t with Some (l, _) => [l] | None => [] end ++
  match t_file t with Some (f, _) => [f] | None => [] end.

(** What a typestate says of the file system. *)
Definition thread_ok (σ : fsys) (t : tstate) : Prop :=
  (forall l m, t_lock t = Some (l, m) -> exists L, fs_lock σ = Some L /\ fs_fds σ !! l = Some (L, m)) /\
  (forall f i, t_file t = Some (f, i) -> fs_fds σ !! f = Some (i, None)) /\
  (forall k, t_known t = Some k ->
     (exists m, holds t m) /\ (fs_region σ = Some k \/ fs_region σ = None)).

(** An exclusive lock is the only lock on its file. *)
Definition excl (σ : fsys) : Prop :=
  forall d1 d2 i m, fs_fds σ !! d1 = Some (i, Some Exclusive) -> fs_fds σ !! d2 = Some (i, Some m) -> d1 = d2.

Record Inv (σ : fsys) (T : list tstate) : Prop := {
  inv_thread : forall n t, T !! n = Some t -> thread_ok σ t /\ NoDup (fds_of t);
  inv_own : forall n n' t t' d, T !! n = Some t -> T !! n' = Some t' -> d ∈ fds_of t -> d ∈ fds_of t' -> n = n';
  inv_excl : excl σ
}.

Lemma lock_in_fds t l m : t_lock t = Some (l, m) -> l ∈ fds_of t.
Proof. unfold fds_of. intros ->. set_solver. Qed.
Lemma file_in_fds t f i : t_file t = Some (f, i) -> f ∈ fds_of t.
Proof. unfold fds_of. intros ->. set_solver. Qed.
#[local] Hint Resolve lock_in_fds file_in_fds : core.

Lemma fds_open σ t d : thread_ok σ t -> d ∈ fds_of t -> fs_fds σ !! d <> None.
Proof.
  intros (H1 & H2 & _) Hd. unfold fds_of in Hd. apply elem_of_app in Hd as [Hd|Hd].
  - destruct (t_lock t) as [[l m]|]; [|set_solver]. apply list_elem_of_singleton in Hd as ->.
    destruct (H1 l m eq_refl) as (L & _ & ->). done.
  - destruct (t_file t) as [[f i]|]; [|set_solver]. apply list_elem_of_singleton in Hd as ->.
    by rewrite (H2 f i eq_refl).
Qed.

(** Two processes hold locks only if both are shared. *)
Lemma locks_exclude σ T n n' t t' m :
  Inv σ T -> T !! n = Some t -> T !! n' = Some t' -> holds t Exclusive -> holds t' m -> n = n'.
Proof.
  intros HI Hn Hn' [l Hl] [l' Hl']. destruct (inv_thread _ _ HI n t Hn) as [(H1 & _) _].
  destruct (inv_thread _ _ HI n' t' Hn') as [(H1' & _) _].
  destruct (H1 _ _ Hl) as (L & HL & Hfd). destruct (H1' _ _ Hl') as (L' & HL' & Hfd').
  simplify_eq. assert (l = l') as <- by (by eapply (inv_excl _ _ HI)). eapply (inv_own _ _ HI); eauto.
Qed.

(** A call of one process changes only its own descriptors, and the directory only in
    ways the others allow. *)
Lemma Inv_step σ T n t σ' t' :
  Inv σ T -> T !! n = Some t ->
  thread_ok σ' t' -> NoDup (fds_of t') ->
  (forall d, d ∈ fds_of t' -> d ∈ fds_of t \/ fs_fds σ !! d = None) ->
  (forall d, d ∉ fds_of t -> fs_fds σ !! d <> None -> fs_fds σ' !! d = fs_fds σ !! d) ->
  (fs_lock σ' = fs_lock σ \/ fs_lock σ = None) ->
  (fs_region σ' = fs_region σ \/ fs_region σ' = None \/ holds t Exclusive) ->
  excl σ' ->
  Inv σ' (<[n := t']> T).
Proof.
  intros HI Hn Hok Hnd Hnew Hfds Hlk Hrg Hex.
  assert (Hlook : forall k u, <[n := t']> T !! k = Some u -> (k = n /\ u = t') \/ (k <> n /\ T !! k = Some u)).
  { intros k u Hk. destruct (decide (k = n)) as [->|Hne].
    - left. rewrite list_lookup_insert_eq in Hk by (by eapply lookup_lt_Some). by injection Hk.
    - right. by rewrite list_lookup_insert_ne in Hk. }
  assert (Hfresh : forall k u d, k <> n -> T !! k = Some u -> d ∈ fds_of u -> (d ∉ fds_of t) /\ (d ∉ fds_of t')).
  { intros k u d Hk Hu Hd. assert (Hnt : d ∉ fds_of t) by (intros Hd'; apply Hk; by eapply (inv_own _ _ HI)).
    split; [done|]. intros Hd'. destruct (Hnew d Hd') as [?|Hnone]; [done|].
    eapply fds_open; [apply (inv_thread _ _ HI k u Hu)|done|done]. }
  split; [| |done].
  - intros k u [[-> ->]|[Hk Hu]]%Hlook; [done|].
    destruct (inv_thread _ _ HI k u Hu) as [Hu' Hnd']. split; [|done]. pose proof Hu' as (H1 & H2 & H3).
    assert (Hsame : forall d, d ∈ fds_of u -> fs_fds σ' !! d = fs_fds σ !! d).
    { intros d Hd. apply Hfds; [by eapply Hfresh|by eapply fds_open]. }
    split; [|split].
    + intros l m Hl. destruct (H1 l m Hl) as (L & HL & Hfd). exists L. rewrite Hsame by eauto.
      destruct Hlk; [|congruence]. split; [congruence|done].
    + intros f i Hf. rewrite Hsame by eauto. by apply H2.
    + intros j Hj. destruct (H3 j Hj) as [[m Hm] Hr]. split; [by eexists|].
      destruct Hrg as [->|[->|He]]; [done|by right|].
      exfalso. apply Hk. symmetry. by eapply (locks_exclude σ T).
  - intros k k' u u' d [[-> ->]|[Hk Hu]]%Hlook [[-> ->]|[Hk' Hu']]%Hlook Hd Hd'; [done| | |].
    + by destruct (Hfresh k' u' d).
    + by destruct (Hfresh k u d).
    + by eapply (inv_own _ _ HI).
Qed.

(** ** Calls preserve the invariant *)

Lemma other_lock_false σ d i P :
  other_lock σ d i P = false -> forall d' m, d' <> d -> fs_fds σ !! d' = Some (i, Some m) -> P m = false.
Proof.
  unfold other_lock. intros Hf d' m Hne Hd. destruct (P m) eqn:HP; [|done].
  apply not_true_iff_false in Hf. destruct Hf. apply existsb_exists. exists (d', (i, Some m)). split.
  - apply list_elem_of_In. by apply elem_of_map_to_list.
  - rewrite HP, Nat.eqb_refl. by rewrite (proj2 (Nat.eqb_neq d' d)).
Qed.

Lemma excl_set σ d i m :
  excl σ ->
  (forall d' m', d' <> d -> fs_fds σ !! d' = Some (i, Some m') ->
     m <> Some Exclusive /\ (m' = Exclusive -> m = None)) ->
  excl (set_lock σ d i m).
Proof.
  intros Hex Hm d1 d2 j m' H1 H2. cbn in *.
  apply lookup_insert_Some in H1 as [[<- E1]|[Hn1 H1]]; apply lookup_insert_Some in H2 as [[<- E2]|[Hn2 H2]];
    simplify_eq; try done.
  - by destruct (Hm d2 m' ltac:(done) H2).
  - destruct (Hm d1 Exclusive ltac:(done) H1) as [_ Hm']. by specialize (Hm' eq_refl).
  - by eapply Hex.
Qed.

Lemma excl_unlocked σ d i : excl σ -> excl (set_lock σ d i None).
Proof. intros Hex. apply excl_set; naive_solver. Qed.

Lemma excl_close σ d : excl σ -> excl (set_fds σ (delete d (fs_fds σ))).
Proof.
  intros Hex d1 d2 i m H1 H2. cbn in *. apply lookup_delete_Some in H1 as [_ H1].
  apply lookup_delete_Some in H2 as [_ H2]. by eapply Hex.
Qed.

Section Calls.
Context {A : Type} (Q : A -> tstate -> Prop).
Context (σ : fsys) (T : list tstate) (n : nat) (t : tstate).
Hypothesis (HI : Inv σ T) (Hn : T !! n = Some t).

Lemma Inv_same : Inv σ (<[n := t]> T).
Proof. by rewrite list_insert_id. Qed.

Lemma own_ok : thread_ok σ t.
Proof. apply (inv_thread _ _ HI n t Hn). Qed.
Lemma own_nodup : NoDup (fds_of t).
Proof. apply (inv_thread _ _ HI n t Hn). Qed.

Lemma fresh_fd : fs_fds σ !! fresh (dom (fs_fds σ)) = None.
Proof. apply not_elem_of_dom, is_fresh. Qed.

Lemma fresh_not_own : fresh (dom (fs_fds σ)) ∉ fds_of t.
Proof. intros Hd. eapply fds_open; [apply own_ok|done|apply fresh_fd]. Qed.

(** A descriptor more, for the lock file or the region. *)
Lemma Inv_open_lock i σ1 :
  t_lock t = None -> t_known t = None ->
  (σ1 = σ /\ fs_lock σ = Some i) \/ (σ1 = set_dir σ LockFile (Some i) /\ fs_lock σ = None) ->
  Inv (open_fd σ1 i).2 (<[n := set_mode t (fresh (dom (fs_fds σ))) None None]> T).
Proof.
  intros Hl Hk Hσ. pose proof own_ok as (_ & H2 & _). pose proof fresh_fd as Hfr. pose proof fresh_not_own as Hno.
  assert (Hfds : fs_fds σ1 = fs_fds σ) by (destruct Hσ as [[-> _]|[-> _]]; done).
  apply (Inv_step σ T n t); try done.
  - split; [|split]; cbn; rewrite ?Hfds.
    + intros l m [= <- <-]. exists i. rewrite lookup_insert_eq. by destruct Hσ as [[-> ->]|[-> _]].
    + intros f j Hf. rewrite lookup_insert_ne; [by apply H2|]. intros <-. apply Hno. eauto.
    + done.
  - unfold fds_of in *. rewrite Hl in *. cbn in *. destruct (t_file t) as [[f j]|]; cbn in *.
    + constructor; [done|]. apply NoDup_singleton.
    + apply NoDup_singleton.
  - intros d Hd. unfold fds_of in *. rewrite Hl in *. cbn in *. set_solver.
  - intros d _ Hd. cbn. rewrite Hfds. apply lookup_insert_ne. congruence.
  - cbn. destruct Hσ as [[-> ->]|[-> ->]]; [by left|by right].
  - left. by destruct Hσ as [[-> _]|[-> _]].
  - assert (excl σ1) by (destruct Hσ as [[-> _]|[-> _]]; apply (inv_excl _ _ HI)). by apply excl_unlocked.
Qed.

Lemma Inv_open_region i σ1 :
  t_file t = None -> (exists m, holds t m) ->
  (σ1 = σ /\ fs_region σ = Some i) \/ (σ1 = set_dir σ RegionFile (Some i) /\ holds t Exclusive) ->
  Inv (open_fd σ1 i).2 (<[n := with_file t (fresh (dom (fs_fds σ))) i]> T).
Proof.
  intros Hf [m Hm] Hσ. pose proof own_ok as (H1 & _ & _). pose proof fresh_fd as Hfr. pose proof fresh_not_own as Hno.
  assert (Hfds : fs_fds σ1 = fs_fds σ) by (destruct Hσ as [[-> _]|[-> _]]; done).
  assert (Hlock : fs_lock σ1 = fs_lock σ) by (destruct Hσ as [[-> _]|[-> _]]; done).
  apply (Inv_step σ T n t); try done.
  - split; [|split]; cbn; rewrite ?Hfds, ?Hlock.
    + intros l m' Hl. destruct (H1 l m' Hl) as (L & HL & Hfd). exists L. split; [done|].
      rewrite lookup_insert_ne; [done|]. intros <-. apply Hno. eauto.
    + intros f j [= <- <-]. by rewrite lookup_insert_eq.
    + intros k [= <-]. split; [by exists m|]. left. by destruct Hσ as [[-> ->]|[-> _]].
  - unfold fds_of in *. rewrite Hf in *. cbn in *. destruct (t_lock t) as [[l m']|]; cbn in *; [|apply NoDup_singleton].
    constructor; [set_solver|apply NoDup_singleton].
  - intros d Hd. unfold fds_of in *. rewrite Hf in *. cbn in *. set_solver.
  - intros d _ Hd. cbn. rewrite Hfds. apply lookup_insert_ne. congruence.
  - cbn. rewrite Hlock. by left.
  - cbn. destruct Hσ as [[-> _]|[-> He]]; [by left|by right; right].
  - assert (excl σ1) by (destruct Hσ as [[-> _]|[-> _]]; apply (inv_excl _ _ HI)). by apply excl_unlocked.
Qed.

(** A new mode of the lock. *)
Lemma Inv_set_mode d m i m' known :
  t_lock t = Some (d, m) -> fs_fds σ !! d = Some (i, m) ->
  excl (set_lock σ d i m') -> (known = None \/ known = t_known t /\ m' <> None) ->
  Inv (set_lock σ d i m') (<[n := set_mode t d m' known]> T).
Proof.
  intros Hd Hfd Hex Hk. pose proof own_ok as (H1 & H2 & H3). pose proof own_nodup as Hnd.
  assert (Hfds : fds_of (set_mode t d m' known) = fds_of t) by (unfold fds_of; cbn; by rewrite Hd).
  apply (Inv_step σ T n t); try done; rewrite ?Hfds; try done; [|by left| |by left|by left].
  - split; [|split]; cbn.
    + intros l m0 [= <- <-]. destruct (H1 d m Hd) as (L & HL & Hfd'). simplify_eq. eexists.
      by rewrite lookup_insert_eq.
    + intros f j Hf. rewrite lookup_insert_ne; [by apply H2|]. intros <-. unfold fds_of in Hnd. rewrite Hd, Hf in Hnd.
      apply NoDup_cons in Hnd as [Hnd _]. set_solver.
    + intros k ->. destruct Hk as [?|[Hk Hm]]; [done|]. destruct (H3 k (eq_sym Hk)) as [_ Hr].
      split; [|done]. destruct m' as [m'|]; [|done]. exists m', d. done.
  - intros d' Hd' _. cbn. apply lookup_insert_ne. intros <-. apply Hd'. eauto.
Qed.

Lemma Inv_unlink : Inv (set_dir σ RegionFile None) (<[n := t]> T).
Proof.
  pose proof own_ok as (H1 & H2 & H3). apply (Inv_step σ T n t); try done; [| |by left|by left|by right; left|].
  - split; [done|]. split; [done|]. intros k Hk. split; [by apply (H3 k)|by right].
  - apply own_nodup.
  - apply (inv_excl _ _ HI).
Qed.

Lemma Inv_know i : (exists m, holds t m) -> fs_region σ = Some i -> Inv σ (<[n := know t i]> T).
Proof.
  intros Hm Hi. pose proof own_ok as (H1 & H2 & H3). apply (Inv_step σ T n t); try done; [| |by left|by left|by left|].
  - split; [done|]. split; [done|]. intros k [= <-]. split; [done|by left].
  - apply own_nodup.
  - apply (inv_excl _ _ HI).
Qed.

Lemma Inv_close_lock d m :
  t_lock t = Some (d, m) ->
  Inv (set_fds σ (delete d (fs_fds σ))) (<[n := mkTs None (t_file t) None]> T).
Proof.
  intros Hd. pose proof own_ok as (H1 & H2 & H3). pose proof own_nodup as Hnd.
  apply (Inv_step σ T n t); try done; [| | | |by left|by left|apply excl_close, (inv_excl _ _ HI)].
  - split; [done|]. split; [|done]. intros f i Hf. cbn in *. rewrite lookup_delete_ne; [by apply H2|].
    intros <-. unfold fds_of in Hnd. rewrite Hd, Hf in Hnd. apply NoDup_cons in Hnd as [Hnd _]. set_solver.
  - unfold fds_of in *. cbn. destruct (t_file t) as [[f i]|]; [apply NoDup_singleton|constructor].
  - intros x Hx. left. unfold fds_of in *. cbn in Hx. set_solver.
  - intros x Hx _. cbn. apply lookup_delete_ne. intros <-. apply Hx. eauto.
Qed.

Lemma Inv_close_file d i :
  t_file t = Some (d, i) ->
  Inv (set_fds σ (delete d (fs_fds σ))) (<[n := mkTs (t_lock t) None (t_known t)]> T).
Proof.
  intros Hd. pose proof own_ok as (H1 & H2 & H3). pose proof own_nodup as Hnd.
  apply (Inv_step σ T n t); try done; [| | | |by left|by left|apply excl_close, (inv_excl _ _ HI)].
  - split; [|split; [done|]].
    + intros l m Hl. cbn in *. destruct (H1 l m Hl) as (L & HL & Hfd). exists L. split; [done|].
      rewrite lookup_delete_ne; [done|]. intros ->. unfold fds_of in Hnd. rewrite Hd, Hl in Hnd.
      apply NoDup_cons in Hnd as [Hnd _]. set_solver.
    + intros k Hk. destruct (H3 k Hk) as [(m & l & Hm) Hr]. split; [by exists m, l|done].
  - unfold fds_of in *. cbn. destruct (t_lock t) as [[l m]|]; [apply NoDup_singleton|constructor].
  - intros x Hx. left. unfold fds_of in *. cbn in Hx. rewrite app_nil_r in Hx. set_solver.
  - intros x Hx _. cbn. apply lookup_delete_ne. intros <-. apply Hx. eauto.
Qed.

(** The next call of a checked program. *)
Lemma fstep_ok c (p p' : fsp A) σ' :
  tsafe p t Q -> fstep c p σ = Some (p', σ') -> exists t', tsafe p' t' Q /\ Inv σ' (<[n := t']> T).
Proof.
  intros Hp Hs. pose proof Inv_same as Hsame. pose proof own_ok as (H1 & H2 & H3).
  destruct p as [a|[] create k|d k|d k|d k|[] k|[] k|d k|k]; cbn [fstep tsafe dir] in *; try done.
  - destruct Hp as (Hf & Hh & Hno & Hyes). destruct (negb (ch_ok c)); [simplify_eq; eauto|].
    assert (Hm : exists m, holds t m) by (destruct Hh as [?|[_ ?]]; eauto).
    destruct (fs_region σ) as [i|] eqn:Hr.
    + cbn in Hs. injection Hs as <- <-. eexists. split; [apply Hyes|]. by apply (Inv_open_region i σ); [..|left].
    + destruct create; [|simplify_eq; eauto]. destruct (used σ (ch_ino c)); [done|].
      cbn in Hs. injection Hs as <- <-.
      eexists. split; [apply Hyes|]. apply (Inv_open_region _ (set_dir σ RegionFile (Some (ch_ino c)))); [done..|].
      right. split; [done|]. by destruct Hh as [?|[? _]].
  - destruct Hp as (Hl & Hk & Hno & Hyes). destruct (negb (ch_ok c)); [simplify_eq; eauto|].
    destruct (fs_lock σ) as [i|] eqn:Hr.
    + cbn in Hs. injection Hs as <- <-. eexists. split; [apply Hyes|]. by apply (Inv_open_lock i σ); [..|left].
    + destruct create; [|simplify_eq; eauto]. destruct (used σ (ch_ino c)); [done|].
      cbn in Hs. injection Hs as <- <-.
      eexists. split; [apply Hyes|]. by apply (Inv_open_lock _ (set_dir σ LockFile (Some (ch_ino c)))); [..|right].
  - destruct Hp as (Hl & Hno & Hyes). destruct (H1 d None Hl) as (L & HL & Hfd). rewrite Hfd in Hs.
    destruct (negb (ch_ok c) || other_lock σ d L (fun _ => true)) eqn:Ho; [simplify_eq; eauto|]. simplify_eq.
    apply orb_false_iff in Ho as [_ Ho]. eexists. split; [apply Hyes|].
    eapply Inv_set_mode; [done..| |by left]. apply excl_set; [apply (inv_excl _ _ HI)|].
    intros d' m' Hne Hd'. by pose proof (other_lock_false _ _ _ _ Ho d' m' Hne Hd').
  - destruct Hp as (m & Hl & Hk). destruct (H1 d m Hl) as (L & HL & Hfd). rewrite Hfd in Hs. simplify_eq.
    eexists. split; [apply Hk|]. eapply Inv_set_mode; [done..| |by left]. apply excl_unlocked, (inv_excl _ _ HI).
  - destruct Hp as (m & Hl & Hno & Hyes). destruct (H1 d m Hl) as (L & HL & Hfd). rewrite Hfd in Hs.
    destruct (negb (ch_ok c)); [simplify_eq; eauto|]. destruct (other_lock _ _ _ _) eqn:Ho; [done|]. simplify_eq.
    eexists. split; [apply Hyes|]. eapply Inv_set_mode; [done..| |by right]. apply excl_set; [apply (inv_excl _ _ HI)|].
    intros d' m' Hne Hd'. split; [done|]. intros ->. by pose proof (other_lock_false _ _ _ _ Ho d' Exclusive Hne Hd').
  - destruct Hp as [Hm Hk]. destruct (ch_ok c); simplify_eq; exists t; split; try done. apply Inv_unlink.
  - destruct Hp as (Hm & Hno & Hyes). destruct (ch_ok c); [|simplify_eq; eauto].
    destruct (fs_region σ) as [i|] eqn:Hr; [|simplify_eq; eauto]. injection Hs as <- <-. exists (know t i). split; [|by apply Inv_know].
    apply Hyes. intros j Hj. destruct (H3 j Hj) as [_ [?|?]]; congruence.
  - destruct Hp as [Hno Hyes]. injection Hs as <- <-. destruct (if ch_ok c then fs_lock σ else None); eauto.
  - injection Hs as <- <-. destruct Hp as [(m & Hl & Hk)|(i & Hf & Hk)]; eexists; (split; [exact Hk|]).
    + by eapply Inv_close_lock.
    + by eapply Inv_close_file.
  - injection Hs as <- <-. eauto.
Qed.

End Calls.

(** ** Processes *)

Lemma other_lock_true σ d d' i m (P : lock -> bool) :
  d' <> d -> fs_fds σ !! d' = Some (i, Some m) -> P m = true -> other_lock σ d i P = true.
Proof.
  intros Hne Hd HP. destruct (other_lock σ d i P) eqn:Ho; [done|].
  by rewrite (other_lock_false _ _ _ _ Ho d' m Hne Hd) in HP.
Qed.

(** Only a process with the exclusive lock puts a new file in the directory. *)
Lemma region_kept {A} c (p p' : fsp A) σ σ' t Q :
  tsafe p t Q -> fstep c p σ = Some (p', σ') ->
  fs_region σ' = fs_region σ \/ fs_region σ' = None \/ holds t Exclusive.
Proof.
  intros Hp Hs. destruct p as [a|[] create k|d k|d k|d k|[] k|[] k|d k|k]; cbn [fstep tsafe dir] in *; try done.
  - destruct (negb (ch_ok c)); [simplify_eq; by left|]. destruct (fs_region σ) as [i|] eqn:Hr.
    + injection Hs as <- <-. left. exact Hr.
    + destruct create; [|simplify_eq; by left]. destruct Hp as (_ & [He|[? _]] & _); [|done]. by right; right.
  - left. destruct (negb (ch_ok c)); [by simplify_eq|]. destruct (fs_lock σ); [by injection Hs as <- <-|].
    destruct create; [|by simplify_eq]. destruct (used σ (ch_ino c)); [done|]. by injection Hs as <- <-.
  - left. destruct (fs_fds σ !! d) as [[i m]|]; [|by simplify_eq]. by destruct (_ || _); simplify_eq.
  - left. by destruct (fs_fds σ !! d) as [[i m]|]; simplify_eq.
  - left. destruct (fs_fds σ !! d) as [[i m]|]; [|by simplify_eq]. destruct (negb _); [by simplify_eq|].
    by destruct (other_lock _ _ _ _); simplify_eq.
  - destruct (ch_ok c); simplify_eq; [by right; left|by left].
  - simplify_eq. by left.
  - simplify_eq. by left.
  - injection Hs as <- <-. by left.
  - simplify_eq. by left.
Qed.

Section Processes.
Context (atomic : bool) (name : bytes).

Definition proc_ok (q : proc) (t : tstate) : Prop :=
  match q with
  | Opening p => tsafe p t (opened atomic)
  | Live f => live_ok atomic f t
  | Dropping p => tsafe p t (fun _ t => t = t0)
  | Gone _ => t = t0
  end.

(** The process's next step. *)
Lemma proc_step_ok σ T n t c q q' σ' :
  Inv σ T -> T !! n = Some t -> proc_ok q t -> proc_step drop_files c q σ = Some (q', σ') ->
  exists t', proc_ok q' t' /\ Inv σ' (<[n := t']> T).
Proof.
  intros HI Hn Hq Hs. pose proof (Inv_same σ T n t HI Hn) as Hsame.
  destruct q as [p|f|p|e]; cbn [proc_step proc_ok] in *.
  - assert (Hstep : fstep c p σ <> None -> exists p', fstep c p σ = Some (p', σ') /\ q' = Opening p').
    { intros Hf. destruct p; try done; destruct (fstep c _ σ) as [[p' σ1]|]; try done; simplify_eq; eauto. }
    destruct (fstep c p σ) as [[p' σ1]|] eqn:Hf.
    + destruct Hstep as (p1 & [= <- ->] & ->); [done|]. eapply fstep_ok in Hf as (t' & Ht & HI'); eauto.
    + destruct p as [[f|e]|p0 b k|d k|d k|d k|p0 k|p0 k|d k|k]; try (by rewrite Hf in Hs); simplify_eq; eauto.
  - simplify_eq. exists t. split; [|done]. by eapply drop_files_safe.
  - assert (Hstep : fstep c p σ <> None -> exists p', fstep c p σ = Some (p', σ') /\ q' = Dropping p').
    { intros Hf. destruct p; try done; destruct (fstep c _ σ) as [[p' σ1]|]; try done; simplify_eq; eauto. }
    destruct (fstep c p σ) as [[p' σ1]|] eqn:Hf.
    + destruct Hstep as (p1 & [= <- ->] & ->); [done|]. eapply fstep_ok in Hf as (t' & Ht & HI'); eauto.
    + destruct p as [u|p0 b k|d k|d k|d k|p0 k|p0 k|d k|k]; try (by rewrite Hf in Hs); simplify_eq; eauto.
  - done.
Qed.

Definition SysInv (s : list proc * fsys) : Prop := exists T, Inv s.2 T /\ Forall2 proc_ok s.1 T.

Lemma SysInv_step s s' : SysInv s -> sys_step drop_files s s' -> SysInv s'.
Proof.
  intros (T & HI & Hf) Hs. destruct Hs as [procs σ n c q q' σ' Hq Hs]. cbn in *.
  destruct (Forall2_lookup_l _ _ _ _ _ Hf Hq) as (t & Ht & Hqt).
  destruct (proc_step_ok σ T n t c q q' σ' HI Ht Hqt Hs) as (t' & Hq' & HI').
  exists (<[n := t']> T). split; [done|]. by apply Forall2_insert.
Qed.

Lemma SysInv_reach s s' : SysInv s -> rtc (sys_step drop_files) s s' -> SysInv s'.
Proof. intros Hs. induction 1; [done|]. eauto using SysInv_step. Qed.

(** Processes that have not started, on any directory. *)
Definition starting (q : proc) : Prop :=
  q = Opening (create_files atomic name) \/ q = Opening (open_files atomic name).

Lemma SysInv_start procs σ : Forall starting procs -> fs_fds σ = ∅ -> SysInv (procs, σ).
Proof.
  intros Hst Hfds. exists (replicate (length procs) t0). split.
  - split.
    + intros n t [-> _]%lookup_replicate. split; [split; [|split]; done|constructor].
    + intros n n' t t' d [-> _]%lookup_replicate _ Hd. by apply elem_of_nil in Hd.
    + intros d1 d2 i m. cbn. rewrite Hfds. by rewrite lookup_empty.
  - cbn. induction Hst as [|q procs Hq _ IH]; cbn; constructor; [|done].
    destruct Hq as [-> | ->]; [apply create_files_safe|apply open_files_safe].
Qed.

End Processes.

(** ** Guarantees *)

Lemma live_facts atomic procs σ n f :
  SysInv atomic (procs, σ) -> procs !! n = Some (Live f) ->
  exists T t, Inv σ T /\ Forall2 (proc_ok atomic) procs T /\ T !! n = Some t /\ live_ok atomic f t /\ thread_ok σ t.
Proof.
  intros (T & HI & Hf) Hn. cbn in *. destruct (Forall2_lookup_l _ _ _ _ _ Hf Hn) as (t & Ht & Hq).
  exists T, t. do 4 (split; [done|]). by apply (inv_thread _ _ HI n t).
Qed.

(** While a publisher lives, no call puts another file in the place of the region. *)
Lemma live_region_kept atomic procs σ n f s' :
  SysInv atomic (procs, σ) -> procs !! n = Some (Live f) -> sys_step drop_files (procs, σ) s' ->
  fs_region s'.2 = fs_region σ \/ fs_region s'.2 = None.
Proof.
  intros HS Hn Hs. destruct (live_facts _ _ _ _ _ HS Hn) as (T & t & HI & Hf & Ht & Hlive & _).
  inversion Hs as [procs' σ0 n' c q q' σ' Hq Hstep]; subst. cbn.
  destruct (Forall2_lookup_l _ _ _ _ _ Hf Hq) as (u & Hu & Hqu).
  assert (Hno : ~ holds u Exclusive).
  { intros He. assert (n' = n) as -> by (eapply (locks_exclude σ T n' n u t Shared HI Hu Ht He); eexists; apply Hlive).
    destruct He as [l Hl]. destruct Hlive as [Hl' _]. by simplify_eq. }
  destruct q as [p|f'|p|e]; cbn [proc_step proc_ok] in *; [|by simplify_eq; left| |done].
  - destruct p as [[f'|e]| | | | | | | |]; try (by simplify_eq; left);
      destruct (fstep c _ σ) as [[p' σ1]|] eqn:Hfs; simplify_eq;
      destruct (region_kept _ _ _ _ _ _ _ Hqu Hfs) as [?|[?|?]]; tauto.
  - destruct p as [| | | | | | | |]; try (by simplify_eq; left);
      destruct (fstep c _ σ) as [[p' σ1]|] eqn:Hfs; simplify_eq;
      destruct (region_kept _ _ _ _ _ _ _ Hqu Hfs) as [?|[?|?]]; tauto.
Qed.

(** C15. The lock protects the region's file: for any number of processes that create, open
    and drop publishers of one segment, interleaved at system calls any of which may fail,
    an exclusive lock is the only lock; a live publisher holds the lock shared and its
    mapping; the file it knows (the one it opened or recorded) is in its place or was
    removed; no step puts another file there while it lives, and an attempt to create
    then fails with [LockContention] and changes nothing. If the downgrade of the lock is
    atomic, the file in place is the owner's own and is the one its drop removes. *)
Theorem region_files_safe atomic name procs0 σ0 procs σ :
  Forall (starting atomic name) procs0 -> fs_fds σ0 = ∅ ->
  rtc (sys_step drop_files) (procs0, σ0) (procs, σ) ->
  excl σ /\
  forall n f, procs !! n = Some (Live f) ->
    (exists L, fs_lock σ = Some L /\ fs_fds σ !! pf_lock f = Some (L, Some Shared)) /\
    fs_fds σ !! pf_map f = Some (pf_ino f, None) /\
    (forall i, (if pf_is_owner f then pf_created_ino f else Some (pf_ino f)) = Some i ->
       fs_region σ = Some i \/ fs_region σ = None) /\
    (atomic = true ->
       (fs_region σ = Some (pf_ino f) \/ fs_region σ = None) /\
       forall i, pf_created_ino f = Some i -> i = pf_ino f) /\
    (forall s', sys_step drop_files (procs, σ) s' -> fs_region s'.2 = fs_region σ \/ fs_region s'.2 = None) /\
    (forall n' l k c, procs !! n' = Some (Opening (FLockEx l k)) ->
       fstep c (FLockEx l k) σ = Some (k false, σ)).
Proof.
  intros Hst Hfds Hr. assert (HS : SysInv atomic (procs, σ)) by (eapply SysInv_reach, Hr; by eapply SysInv_start).
  split. { destruct HS as (T & HI & _). apply (inv_excl _ _ HI). }
  intros n f Hn. destruct (live_facts _ _ _ _ _ HS Hn) as (T & t & HI & Hf & Ht & Hlive & H1 & H2 & H3).
  pose proof Hlive as (Hl & Hm & Hsec & Hcr & Hat). split; [|split; [|split; [|split; [|split]]]].
  - destruct (H1 _ _ Hl) as (L & HL & Hfd). eauto.
  - by apply H2.
  - intros i Hi. apply (H3 i). destruct (pf_is_owner f); [by apply Hcr|]. destruct (Hsec eq_refl) as [_ ->]. done.
  - intros Ha. specialize (Hat Ha). split; [by apply (H3 (pf_ino f))|]. intros i Hi.
    specialize (Hcr i Hi). congruence.
  - intros s'. by eapply live_region_kept.
  - intros n' l k c Hn'. destruct (Forall2_lookup_l _ _ _ _ _ Hf Hn') as (u & Hu & Hqu). cbn in Hqu.
    destruct Hqu as [Hlu _]. destruct (inv_thread _ _ HI n' u Hu) as [(H1u & _) _].
    destruct (H1 _ _ Hl) as (L & HL & Hfd). destruct (H1u _ _ Hlu) as (L' & HL' & Hfd').
    assert (L' = L) as -> by congruence.
    cbn [fstep]. rewrite Hfd'. rewrite (other_lock_true σ l (pf_lock f) L Shared); [by rewrite orb_true_r| |done|done].
    intros <-. rewrite Hfd in Hfd'. by simplify_eq.
Qed.

(** ** Schedules *)

Module FilesDemo.

Definition seg : bytes := [99].
Definition empty_dir : fsys := mkFsys None None ∅.
(** [k] calls of process [n], all successful; a file that is created gets number [i]. *)
Definition calls (n k i : nat) : list (nat * choice) := repeat (n, mkChoice true i Io) k.

(** An owner, a secondary publisher and a second create, which is refused. *)
Definition procs0 : list proc :=
  [Opening (create_files true seg); Opening (open_files true seg); Opening (create_files true seg)].
Definition final : list proc * fsys :=
  sys_run drop_files (calls 0 1 1 ++ calls 0 7 2 ++ calls 1 5 0 ++ calls 2 4 0) (procs0, empty_dir).

Definition owner : pub_files := mkPubFiles 0 1 2 (Some 2%nat) true.
Definition second : pub_files := mkPubFiles 2 3 2 None false.

Lemma region_files_safe_witness :
  final.1 = [Live owner; Live second; Gone (Some (LockContention seg))] /\
  (fs_region final.2 = Some (pf_ino owner) \/ fs_region final.2 = None) /\
  (forall i, pf_created_ino owner = Some i -> i = pf_ino owner).
Proof.
  split; [vm_compute; reflexivity|].
  refine (proj1 (proj2 (proj2 (proj2 (proj2 (region_files_safe true seg procs0 empty_dir final.1 final.2 _ _ _)
            0%nat owner _)))) eq_refl).
  - constructor; [by left|]. constructor; [by right|]. constructor; [by left|]. constructor.
  - reflexivity.
  - pose proof (sys_run_steps drop_files (calls 0 1 1 ++ calls 0 7 2 ++ calls 1 5 0 ++ calls 2 4 0) (procs0, empty_dir)) as H.
    unfold final. by destruct (sys_run _ _ _).
  - vm_compute. reflexivity.
Defined.

(** Two creates, the second inside the first's downgrade. *)
Definition two_creates : list proc := [Opening (create_files false seg); Opening (create_files false seg)].
Definition downgrade_race : list (nat * choice) := calls 0 1 1 ++ calls 0 5 2 ++ calls 1 9 3 ++ calls 0 3 0.

(** Three creates of a broadcast ring: the second opens the lock file before the first
    owner removes it. *)
Definition three_buses : list proc := repeat (Opening (bus_create_files true seg)) 3.
Definition unlink_race : list (nat * choice) :=
  calls 0 1 1 ++ calls 0 7 2 ++ calls 1 1 0 ++ calls 0 7 0 ++ calls 1 7 3 ++ calls 2 1 4 ++ calls 2 7 5.

End FilesDemo.

(** C40. Where the lock fails. With a downgrade that is not atomic two creates of one segment
    both succeed: the first owner maps a file that is no longer in the directory, records
    the second owner's file as its own, because it asks for the identity after the
    downgrade, and its drop removes the live second owner's file. On a broadcast ring even
    an atomic downgrade does not help: dropping a bus removes the lock file, so a create
    that had opened it and one that makes a new one both succeed. *)
Theorem lock_races :
  (exists f1 f2 σ σ',
     rtc (sys_step drop_files) (FilesDemo.two_creates, FilesDemo.empty_dir) ([Live f1; Live f2], σ) /\
     pf_ino f1 <> pf_ino f2 /\ fs_region σ = Some (pf_ino f2) /\ pf_created_ino f1 = Some (pf_ino f2) /\
     rtc (sys_step drop_files) ([Live f1; Live f2], σ) ([Gone None; Live f2], σ') /\ fs_region σ' = None) /\
  (exists f2 f3 σ,
     rtc (sys_step bus_drop_files) (FilesDemo.three_buses, FilesDemo.empty_dir) ([Gone None; Live f2; Live f3], σ) /\
     pf_is_owner f2 = true /\ pf_is_owner f3 = true /\ pf_ino f2 <> pf_ino f3 /\
     fs_region σ = Some (pf_ino f3)).
Proof.
  split.
  - exists (mkPubFiles 0 1 2 (Some 3%nat) true), (mkPubFiles 2 3 3 (Some 3%nat) true).
    exists (sys_run drop_files FilesDemo.downgrade_race (FilesDemo.two_creates, FilesDemo.empty_dir)).2.
    set (s := sys_run drop_files FilesDemo.downgrade_race (FilesDemo.two_creates, FilesDemo.empty_dir)).
    exists (sys_run drop_files (FilesDemo.calls 0 6 0) s).2. split; [|split; [|split; [|split; [|split]]]].
    + pose proof (sys_run_steps drop_files FilesDemo.downgrade_race (FilesDemo.two_creates, FilesDemo.empty_dir)) as H.
      fold s in H. by rewrite (surjective_pairing s) in H.
    + done.
    + vm_compute. reflexivity.
    + done.
    + pose proof (sys_run_steps drop_files (FilesDemo.calls 0 6 0) s) as H.
      rewrite (surjective_pairing s), (surjective_pairing (sys_run drop_files _ s)) in H. exact H.
    + vm_compute. reflexivity.
  - exists (mkPubFiles 2 3 3 (Some 3%nat) true), (mkPubFiles 4 5 5 (Some 5%nat) true).
    set (s := sys_run bus_drop_files FilesDemo.unlink_race (FilesDemo.three_buses, FilesDemo.empty_dir)).
    exists s.2. split; [|repeat split; try done; vm_compute; reflexivity].
    pose proof (sys_run_steps bus_drop_files FilesDemo.unlink_race (FilesDemo.three_buses, FilesDemo.empty_dir)) as H.
    fold s in H. by rewrite (surjective_pairing s) in H.
Qed.
